(** * SWIFT task engine, logger and hashmap: a shallow embedding

    The development follows the C sources of the repository:
    - [logger_size], [logger_log_part]          (logger)
    - [hashmap_find], [hashmap_grow], [hashmap_put], [hashmap_lookup],
      [hashmap_get], [hashmap_iterate], [hashmap_free], [hashmap_size]
    - [engine_init] (time line), [engine_step] (repartition trigger)
    - [engine_make_hydroloop_tasks], [engine_make_hierarchical_tasks],
      [engine_make_hydro_loops_dependencies],
      [engine_make_extra_hydroloop_tasks]
    - [engine_marktasks_mapper], [engine_marktasks]
    - [engine_collect_kick], [engine_collect_timestep]
    - [engine_skip_force_and_kick], [engine_skip_drift_and_kick]
    - [engine_make_gravity_tasks], [engine_make_external_gravity_tasks],
      [engine_make_gravityrecursive_tasks], [engine_addtasks_grav]
    - [engine_addlink], [engine_count_and_link_tasks]
    - [engine_make_gravity_dependencies],
      [engine_make_external_gravity_dependencies],
      [engine_link_gravity_tasks]
    - [engine_addtasks_send], [engine_addtasks_recv]
    - [engine_barrier], [engine_launch] and the barrier of [engine_init]
    - [engine_makeproxies]

    C integers are modelled as [Z] with the wrap-around written out where the
    source relies on it, C [double]s as IEEE binary64 primitive floats,
    arrays as lists addressed by index, pointers to tasks and cells as
    indices into the task and cell arrays ([None] for [NULL]), and the
    abortive [error(...)] macro as the [Error] constructor of [result]. The
    threads of the barrier are modelled as a transition system whose steps
    are the stretches of code between two operations on the mutex. *)

From Stdlib Require Import ZArith Lia Bool List String.
From Stdlib Require Import Floats.PrimFloat Uint63.
From Stdlib Require Import Floats.SpecFloat Floats.FloatOps Floats.FloatAxioms.
From stdpp Require Import base list sets gmap.

#[local] Set Warnings "-clear-no-such-hyp,-register-all".
Local Open Scope Z_scope.

(** ** Abortive errors *)

Inductive result (A : Type) : Type :=
| Ok (a : A)
| Error (msg : string).
Arguments Ok {A} a.
Arguments Error {A} msg.

#[global] Instance result_ret : MRet result := fun _ a => Ok a.
#[global] Instance result_bind : MBind result := fun _ _ k m =>
  match m with
  | Ok a => k a
  | Error msg => Error msg
  end.

(** C truth value of an integer expression. *)
Definition truthy (z : Z) : bool := negb (z =? 0).

(** Pointers: following [NULL] or a pointer outside its array is an abort
    of the model. *)
Definition deref {A : Type} (p : option A) : result A :=
  match p with
  | Some a => Ok a
  | None => Error "NULL pointer"
  end.

(* ===================================================================== *)
(** * Logger *)
(* ===================================================================== *)

Module Logger.

(** The mask bits come from [logger.h], which is not part of the sources at
    hand; they are taken as parameters. *)
Class masks : Type := {
  logger_mask_x : Z;
  logger_mask_v : Z;
  logger_mask_a : Z;
  logger_mask_u : Z;
  logger_mask_h : Z;
  logger_mask_rho : Z;
  logger_mask_consts : Z;
  logger_mask_timestamp : Z
}.

(** Object sizes of the LP64 ABI. *)
Definition sizeof_double : Z := 8.
Definition sizeof_float : Z := 4.
Definition sizeof_long_long : Z := 8.
Definition sizeof_unsigned_long_long : Z := 8.

(** A byte is a [Z] in [0, 256). *)
Definition byte := Z.

(** The fields of [struct part] that the logger copies, each as its object
    representation. [u] and [entropy] are alternatives selected by
    [GADGET2_SPH]. *)
Record part : Type := {
  x : list byte;        (* double x[3] *)
  v : list byte;        (* float v[3] *)
  a_hydro : list byte;  (* float a_hydro[3] *)
  u : list byte;        (* float u *)
  entropy : list byte;  (* float entropy *)
  h : list byte;        (* float h *)
  rho : list byte;      (* float rho *)
  mass : list byte;     (* float mass *)
  id : list byte        (* long long id *)
}.

Definition part_wf (p : part) : Prop :=
  length (x p) = 24%nat /\ length (v p) = 12%nat /\
  length (a_hydro p) = 12%nat /\ length (u p) = 4%nat /\
  length (entropy p) = 4%nat /\ length (h p) = 4%nat /\
  length (rho p) = 4%nat /\ length (mass p) = 4%nat /\
  length (id p) = 8%nat.

(** [memcpy(buff, src, n); buff += n] appends the first [n] bytes of the
    source object to what has been written so far. *)
Definition memcpy (buff : list byte) (src : list byte) (n : Z) : list byte :=
  buff ++ firstn (Z.to_nat n) src.

(** Object representation of a [uint64_t] on a little-endian host. *)
Definition bytes_of_uint64 (w : Z) : list byte :=
  map (fun i => Z.land (Z.shiftr w (8 * Z.of_nat i)) 255) (seq 0 8).

Fixpoint uint64_of_bytes (l : list byte) : Z :=
  match l with
  | [] => 0
  | b :: l' => b + 256 * uint64_of_bytes l'
  end.

Definition uint64 (z : Z) : Z := z mod 2 ^ 64.

Section logger.
Context {M : masks}.

(** [int logger_size(unsigned int mask)] *)
Definition logger_size (mask : Z) : result Z :=
  (* Start with 8 bytes for the header. *)
  let size := 8 in
  (* Is this a particle or a timestep? *)
  if truthy (Z.land mask logger_mask_timestamp) then
    (* The timestamp should not contain any other bits. *)
    if negb (mask =? logger_mask_timestamp) then
      Error "Timestamps should not include any other data."
    else
      (* A timestamp consists of an unsigned long long int. *)
      Ok (size + sizeof_unsigned_long_long)
  else
    let size := if truthy (Z.land mask logger_mask_x)
                then size + 3 * sizeof_double else size in
    let size := if truthy (Z.land mask logger_mask_v)
                then size + 3 * sizeof_float else size in
    let size := if truthy (Z.land mask logger_mask_a)
                then size + 3 * sizeof_float else size in
    let size := if truthy (Z.land mask logger_mask_u)
                then size + sizeof_float else size in
    let size := if truthy (Z.land mask logger_mask_h)
                then size + sizeof_float else size in
    let size := if truthy (Z.land mask logger_mask_rho)
                then size + sizeof_float else size in
    (* Particle constants, which is a bit more complicated. *)
    let size := if truthy (Z.land mask logger_mask_rho)
                then size + (sizeof_float + sizeof_long_long) else size in
    Ok size.

(** [dump_get] lives in [dump.c], outside the sources at hand: it reserves
    [size] bytes in the dump and hands back the offset of the reservation. It
    is taken as a parameter acting on an abstract dump state. *)
Context {dump : Type} (dump_get : dump -> Z -> dump * Z).

(** What a call of [logger_log_part] leaves behind: the new dump state, the
    bytes written from the start of the reserved buffer, and the new value of
    [*offset]. *)
Record logged : Type := {
  log_dump : dump;
  log_buff : list byte;
  log_offset : Z
}.

(** [void logger_log_part(struct part *p, unsigned int mask, size_t *offset,
     struct dump *dump)]; [gadget2_sph] stands for [defined(GADGET2_SPH)]. *)
Definition logger_log_part (gadget2_sph : bool) (p : part) (mask : Z)
    (offset : Z) (d : dump) : result logged :=
  (* Make sure we're not writing a timestamp. *)
  if truthy (Z.land mask logger_mask_timestamp) then
    Error "You should not log particles as timestamps."
  else
    (* Start by computing the size of the message. *)
    size ← logger_size mask;
    (* Allocate a chunk of memory in the dump of the right size. *)
    let '(d', offset_new) := dump_get d size in
    let buff : list byte := [] in
    (* Write the header. *)
    let temp := Z.lor (Z.land (uint64 offset) 72057594037927935)
                      (uint64 (Z.shiftl (uint64 mask) 56)) in
    let buff := memcpy buff (bytes_of_uint64 temp) 8 in
    (* Particle position as three doubles. *)
    let buff := if truthy (Z.land mask logger_mask_x)
                then memcpy buff (x p) (3 * sizeof_double) else buff in
    (* Particle velocity as three floats. *)
    let buff := if truthy (Z.land mask logger_mask_v)
                then memcpy buff (v p) (3 * sizeof_float) else buff in
    (* Particle accelleration as three floats. *)
    let buff := if truthy (Z.land mask logger_mask_a)
                then memcpy buff (a_hydro p) (3 * sizeof_float) else buff in
    (* Particle internal energy as a single float. *)
    let buff := if truthy (Z.land mask logger_mask_u)
                then memcpy buff (if gadget2_sph then entropy p else u p)
                            sizeof_float
                else buff in
    (* Particle smoothing length as a single float. *)
    let buff := if truthy (Z.land mask logger_mask_h)
                then memcpy buff (h p) sizeof_float else buff in
    (* Particle density as a single float. *)
    let buff := if truthy (Z.land mask logger_mask_rho)
                then memcpy buff (rho p) sizeof_float else buff in
    (* Particle constants, which is a bit more complicated. *)
    let buff := if truthy (Z.land mask logger_mask_rho)
                then memcpy (memcpy buff (mass p) sizeof_float)
                            (id p) sizeof_long_long
                else buff in
    (* Update the log message offset. *)
    Ok {| log_dump := d'; log_buff := buff; log_offset := offset_new |}.

(** The message the claim describes: header, then the selected fields. *)
Definition field (b : bool) (src : list byte) : list byte :=
  if b then src else [].

Definition expected_payload (gadget2_sph : bool) (p : part) (mask : Z)
  : list byte :=
  field (truthy (Z.land mask logger_mask_x)) (x p) ++
  field (truthy (Z.land mask logger_mask_v)) (v p) ++
  field (truthy (Z.land mask logger_mask_a)) (a_hydro p) ++
  field (truthy (Z.land mask logger_mask_u))
        (if gadget2_sph then entropy p else u p) ++
  field (truthy (Z.land mask logger_mask_h)) (h p) ++
  field (truthy (Z.land mask logger_mask_rho)) (rho p) ++
  field (truthy (Z.land mask logger_mask_rho)) (mass p ++ id p).

End logger.

(** The values of the mask bits in SWIFT's [logger.h]. *)
Definition swift_masks : masks := {|
  logger_mask_x := 1;
  logger_mask_v := 2;
  logger_mask_a := 4;
  logger_mask_u := 8;
  logger_mask_h := 16;
  logger_mask_rho := 32;
  logger_mask_consts := 64;
  logger_mask_timestamp := 128
|}.

(** The header word: previous offset below, mask above. *)
Definition header (mask offset : Z) : Z :=
  Z.lor (Z.land (uint64 offset) 72057594037927935)
        (uint64 (Z.shiftl (uint64 mask) 56)).

(** A particle whose fields have the sizes of [struct part]. *)
Definition part0 : part := {|
  x := repeat 1 24; v := repeat 2 12; a_hydro := repeat 3 12;
  u := repeat 4 4; entropy := repeat 5 4; h := repeat 6 4;
  rho := repeat 7 4; mass := repeat 8 4; id := repeat 9 8
|}.

(** A dump that hands out consecutive reservations. *)
Definition bump_dump_get (count : Z) (size : Z) : Z * Z := (count + size, count).

End Logger.

(* ===================================================================== *)
(** * Hashmap *)
(* ===================================================================== *)

Module Hashmap.

Definition INITIAL_SIZE : Z := 1024.
Definition MAX_CHAIN_LENGTH : nat := 8.
Definition HASHMAP_GROWTH_FACTOR : Z := 2.

(** The chunk geometry is fixed by macros of [hashmap.h], and the hash is the
    C library's [rand_r]; neither is part of the sources at hand, so both are
    parameters. [rand_r seed] returns the pseudo-random number and the
    updated seed. *)
Class params : Type := {
  HASHMAP_ELEMENTS_PER_CHUNK : Z;
  HASHMAP_BITS_PER_MASK : Z;
  HASHMAP_MASKS_PER_CHUNK : Z;
  HASHMAP_CHUNKS_PER_ALLOC : Z;
  rand_r : Z -> Z * Z
}.

(** What the code relies on: a positive geometry in which the masks of a
    chunk cover its elements, and a hash that is never negative. *)
Definition params_wf {P : params} : Prop :=
  0 < HASHMAP_ELEMENTS_PER_CHUNK /\
  0 < HASHMAP_BITS_PER_MASK /\
  HASHMAP_ELEMENTS_PER_CHUNK <= HASHMAP_MASKS_PER_CHUNK * HASHMAP_BITS_PER_MASK /\
  forall seed, 0 <= (rand_r seed).1.

(** [hashmap_value_t] is any type with a value for zeroed memory. *)
Class ZeroValue (V : Type) : Type := zero_value : V.

Section hashmap.
Context {P : params} {V : Type} `{ZeroValue V}.

Record hashmap_element_t : Type := {
  key : Z;
  value : V
}.

Record hashmap_chunk_t : Type := {
  masks : list Z;
  data : list hashmap_element_t
}.

(** [chunks] is the array of chunk pointers. Chunks in the graveyard and the
    allocations they come from are all zeroed, so only their numbers are
    kept. *)
Record hashmap_t : Type := {
  chunks : list (option hashmap_chunk_t);
  graveyard : Z;
  allocs : Z;
  table_size : Z;
  nr_chunks : Z;
  size : Z
}.

(** A pointer to an element: its chunk and its offset in the chunk. *)
Definition element_ptr : Type := (Z * Z)%type.

Definition zero_element : hashmap_element_t :=
  {| key := 0; value := zero_value |}.

Definition zero_chunk : hashmap_chunk_t :=
  {| masks := replicate (Z.to_nat HASHMAP_MASKS_PER_CHUNK) 0;
     data := replicate (Z.to_nat HASHMAP_ELEMENTS_PER_CHUNK) zero_element |}.

(** Array reads; outside the array they yield zeroed memory, and array
    writes ([alter], [insert]) outside the array do nothing. *)
Definition get_chunk_ptr (m : hashmap_t) (cid : Z) : option hashmap_chunk_t :=
  default None (chunks m !! Z.to_nat cid).

Definition get_mask (c : hashmap_chunk_t) (mid : Z) : Z :=
  default 0 (masks c !! Z.to_nat mid).

Definition get_element (c : hashmap_chunk_t) (eid : Z) : hashmap_element_t :=
  default zero_element (data c !! Z.to_nat eid).

Definition set_chunks (m : hashmap_t) (cs : list (option hashmap_chunk_t))
  : hashmap_t :=
  {| chunks := cs; graveyard := graveyard m; allocs := allocs m;
     table_size := table_size m; nr_chunks := nr_chunks m; size := size m |}.

Definition set_size (m : hashmap_t) (n : Z) : hashmap_t :=
  {| chunks := chunks m; graveyard := graveyard m; allocs := allocs m;
     table_size := table_size m; nr_chunks := nr_chunks m; size := n |}.

Definition set_graveyard (m : hashmap_t) (g a : Z) : hashmap_t :=
  {| chunks := chunks m; graveyard := g; allocs := a;
     table_size := table_size m; nr_chunks := nr_chunks m; size := size m |}.

Definition alter_chunk (f : hashmap_chunk_t -> hashmap_chunk_t) (cid : Z)
    (m : hashmap_t) : hashmap_t :=
  set_chunks m (alter (fmap f) (Z.to_nat cid) (chunks m)).

(** [void hashmap_allocate_chunks(hashmap_t *m)] *)
Definition hashmap_allocate_chunks (m : hashmap_t) : hashmap_t :=
  set_graveyard m (graveyard m + HASHMAP_CHUNKS_PER_ALLOC) (allocs m + 1).

(** [void hashmap_init(hashmap_t *m)] *)
Definition hashmap_init : hashmap_t :=
  let nr_chunks :=
    (INITIAL_SIZE + HASHMAP_ELEMENTS_PER_CHUNK - 1) / HASHMAP_ELEMENTS_PER_CHUNK in
  {| chunks := replicate (Z.to_nat nr_chunks) None;
     graveyard := 0;
     allocs := 0;
     table_size := nr_chunks * HASHMAP_ELEMENTS_PER_CHUNK;
     nr_chunks := nr_chunks;
     size := 0 |}.

(** [void hashmap_release_chunk(hashmap_t *m, hashmap_chunk_t *chunk)] *)
Definition hashmap_release_chunk (m : hashmap_t) : hashmap_t :=
  set_graveyard m (graveyard m + 1) (allocs m).

(** [hashmap_chunk_t *hashmap_get_chunk(hashmap_t *m)] *)
Definition hashmap_get_chunk (m : hashmap_t) : hashmap_t * hashmap_chunk_t :=
  let m := if graveyard m =? 0 then hashmap_allocate_chunks m else m in
  (set_graveyard m (graveyard m - 1) (allocs m), zero_chunk).

(** Stores through a pointer to a chunk. *)
Definition set_mask_bit (search_mask : Z) (mask_offset : Z)
    (c : hashmap_chunk_t) : hashmap_chunk_t :=
  {| masks := alter (fun w => Z.lor w search_mask) (Z.to_nat mask_offset) (masks c);
     data := data c |}.

Definition set_element_key (k : Z) (offset_in_chunk : Z)
    (c : hashmap_chunk_t) : hashmap_chunk_t :=
  {| masks := masks c;
     data := alter (fun e => {| key := k; value := value e |})
                   (Z.to_nat offset_in_chunk) (data c) |}.

Definition set_element_value (v : V) (offset_in_chunk : Z)
    (c : hashmap_chunk_t) : hashmap_chunk_t :=
  {| masks := masks c;
     data := alter (fun e => {| key := key e; value := v |})
                   (Z.to_nat offset_in_chunk) (data c) |}.

(** [element->value = value] *)
Definition store_value (m : hashmap_t) (ptr : element_ptr) (v : V) : hashmap_t :=
  alter_chunk (set_element_value v ptr.2) ptr.1 m.

(** [element->value] *)
Definition load_value (m : hashmap_t) (ptr : element_ptr) : V :=
  value (get_element (default zero_chunk (get_chunk_ptr m ptr.1)) ptr.2).

(** The probing loop of [hashmap_find]: [n] iterations from the current
    [offset_in_chunk] and hash state [curr]. *)
Fixpoint hashmap_find_probe (n : nat) (m : hashmap_t) (k : Z)
    (create_new : bool) (chunk_offset offset_in_chunk curr : Z)
  : hashmap_t * option element_ptr :=
  match n with
  | O => (* We lucked out, so return nothing. *) (m, None)
  | S n' =>
    let chunk := default zero_chunk (get_chunk_ptr m chunk_offset) in
    (* Compute the offsets within the masks of this chunk. *)
    let mask_offset := offset_in_chunk / HASHMAP_BITS_PER_MASK in
    let offset_in_mask := offset_in_chunk - mask_offset * HASHMAP_BITS_PER_MASK in
    (* Is the offset empty? *)
    let search_mask := Z.shiftl 1 offset_in_mask in
    if negb (truthy (Z.land (get_mask chunk mask_offset) search_mask)) then
      (* Quit here if we don't want to create a new element. *)
      if negb create_new then (m, None)
      else
        (* Mark this element as taken and increase the size counter. *)
        let m := alter_chunk (set_mask_bit search_mask mask_offset) chunk_offset m in
        let m := set_size m (size m + 1) in
        (* Set the key. *)
        let m := alter_chunk (set_element_key k offset_in_chunk) chunk_offset m in
        (* Return a pointer to the new element. *)
        (m, Some (chunk_offset, offset_in_chunk))
    (* Does the offset by chance contain the key we are looking for? *)
    else if key (get_element chunk offset_in_chunk) =? k then
      (m, Some (chunk_offset, offset_in_chunk))
    (* None of the above, so this is a collision. Re-hash, but within the
       same chunk. *)
    else
      let '(r, curr) := rand_r curr in
      hashmap_find_probe n' m k create_new chunk_offset
        (r mod HASHMAP_ELEMENTS_PER_CHUNK) curr
  end.

(** [hashmap_element_t *hashmap_find(hashmap_t *m, hashmap_key_t key,
     int create_new)] *)
Definition hashmap_find (m : hashmap_t) (k : Z) (create_new : bool)
  : hashmap_t * option element_ptr :=
  (* If full, return immediately *)
  if size m >=? table_size m / 2 then (m, None)
  else
    (* We will use rand_r as our hash function. *)
    let curr := k mod 2 ^ 32 in
    (* Get offsets to the entry, its chunk, it's mask, etc. *)
    let '(r, curr) := rand_r curr in
    let offset := r mod table_size m in
    let chunk_offset := offset / HASHMAP_ELEMENTS_PER_CHUNK in
    let offset_in_chunk := offset - chunk_offset * HASHMAP_ELEMENTS_PER_CHUNK in
    (* Allocate the chunk if needed. *)
    match get_chunk_ptr m chunk_offset with
    | None =>
      (* Quit here if we don't want to create a new entry. *)
      if negb create_new then (m, None)
      else
        (* Get a new chunk for this offset. *)
        let '(m, c) := hashmap_get_chunk m in
        let m := set_chunks m (<[Z.to_nat chunk_offset := Some c]> (chunks m)) in
        hashmap_find_probe MAX_CHAIN_LENGTH m k create_new
          chunk_offset offset_in_chunk curr
    | Some _ =>
      hashmap_find_probe MAX_CHAIN_LENGTH m k create_new
        chunk_offset offset_in_chunk curr
    end.

(** The body of the innermost loop of [hashmap_grow] for one mask entry of
    an old chunk. *)
Definition hashmap_grow_entry (chunk : hashmap_chunk_t) (mid : Z)
    (m : hashmap_t) (eid : Z) : result hashmap_t :=
  let element_mask := Z.shiftl 1 eid in
  if truthy (Z.land (get_mask chunk mid) element_mask) then
    let element := get_element chunk (mid * HASHMAP_BITS_PER_MASK + eid) in
    (* Copy the element over to the new hashmap. *)
    match hashmap_find m (key element) true with
    | (_, None) => Error "Failed to re-hash element."
    | (m, Some new_element) => Ok (store_value m new_element (value element))
    end
  else Ok m.

(** [for (k = 0; k < n; k++) body], threading the state and stopping at the
    first abort. *)
Definition for_range {S : Type} (n : Z) (body : S -> Z -> result S) (s : S)
  : result S :=
  foldl (fun acc i => s ← acc; body s (Z.of_nat i)) (Ok s) (seq 0 (Z.to_nat n)).

Definition hashmap_grow_mask (chunk : hashmap_chunk_t) (m : hashmap_t)
    (mid : Z) : result hashmap_t :=
  (* Skip empty masks. *)
  if get_mask chunk mid =? 0 then Ok m
  else for_range HASHMAP_BITS_PER_MASK (hashmap_grow_entry chunk mid) m.

Definition hashmap_grow_chunk (old_chunks : list (option hashmap_chunk_t))
    (m : hashmap_t) (cid : Z) : result hashmap_t :=
  (* Skip empty chunks. *)
  match default None (old_chunks !! Z.to_nat cid) with
  | None => Ok m
  | Some chunk =>
    (* Loop over the masks in this chunk. *)
    m ← for_range HASHMAP_MASKS_PER_CHUNK (hashmap_grow_mask chunk) m;
    (* We're through with this chunk, recycle it. *)
    Ok (hashmap_release_chunk m)
  end.

(** [void hashmap_grow(hashmap_t *m)] *)
Definition hashmap_grow (m : hashmap_t) : result hashmap_t :=
  (* Hold on to the old data. *)
  let old_table_size := table_size m in
  let old_chunks := chunks m in
  (* Re-allocate the chunk array. *)
  let table_size' := HASHMAP_GROWTH_FACTOR * table_size m in
  let nr_chunks' := table_size' / HASHMAP_ELEMENTS_PER_CHUNK in
  let m := {| chunks := replicate (Z.to_nat nr_chunks') None;
              graveyard := graveyard m; allocs := allocs m;
              table_size := table_size'; nr_chunks := nr_chunks';
              size := size m |} in
  (* Iterate over the chunks and add their entries to the new table. *)
  for_range (old_table_size / HASHMAP_ELEMENTS_PER_CHUNK)
            (hashmap_grow_chunk old_chunks) m.

(** The [while (!element)] loop of [hashmap_put] and [hashmap_get], unrolled
    at most [fuel] times; [None] when the fuel does not suffice. *)
Fixpoint grow_until_found (fuel : nat) (m : hashmap_t) (k : Z)
    (element : option element_ptr) : result (option (hashmap_t * element_ptr)) :=
  match element with
  | Some ptr => Ok (Some (m, ptr))
  | None =>
    match fuel with
    | O => Ok None
    | S fuel' =>
      m ← hashmap_grow m;
      let '(m, element) := hashmap_find m k true in
      grow_until_found fuel' m k element
    end
  end.

(** [void hashmap_put(hashmap_t *m, hashmap_key_t key, hashmap_value_t value)] *)
Definition hashmap_put (fuel : nat) (m : hashmap_t) (k : Z) (v : V)
  : result (option hashmap_t) :=
  (* Try to find an element for the given key. *)
  let '(m, element) := hashmap_find m k true in
  (* Loop around, trying to find our place in the world. *)
  r ← grow_until_found fuel m k element;
  match r with
  | None => Ok None
  | Some (m, element) =>
    (* Set the value. *)
    Ok (Some (store_value m element v))
  end.

(** [n] rounds of [hashmap_grow]. *)
Fixpoint hashmap_grow_times (n : nat) (m : hashmap_t) : result hashmap_t :=
  match n with
  | O => Ok m
  | S n' => m ← hashmap_grow m; hashmap_grow_times n' m
  end.

(** The key [k] finds its element [ptr] after [n] rounds of growth and not
    after fewer: [m2] is the table as that [hashmap_find] leaves it. *)
Definition placed_after (n : nat) (m : hashmap_t) (k : Z) (m2 : hashmap_t)
    (ptr : element_ptr) : Prop :=
  (exists mn, hashmap_grow_times n m = Ok mn /\
              hashmap_find mn k true = (m2, Some ptr)) /\
  forall i, (i < n)%nat ->
    exists mi, hashmap_grow_times i m = Ok mi /\
               (hashmap_find mi k true).2 = None.

(** [hashmap_value_t *hashmap_lookup(hashmap_t *m, hashmap_key_t key)] *)
Definition hashmap_lookup (m : hashmap_t) (k : Z)
  : hashmap_t * option element_ptr :=
  let '(m, element) := hashmap_find m k false in
  (m, match element with Some ptr => Some ptr | None => None end).

(** [size_t hashmap_size(hashmap_t *m)] *)
Definition hashmap_size (m : option hashmap_t) : Z :=
  match m with
  | Some m => size m
  | None => 0
  end.

Definition chunk_wf (c : hashmap_chunk_t) : Prop :=
  Z.of_nat (length (masks c)) = HASHMAP_MASKS_PER_CHUNK /\
  Z.of_nat (length (data c)) = HASHMAP_ELEMENTS_PER_CHUNK.

(** The representation invariant of the table as [hashmap_init] sets it up
    and the operations keep it. *)
Definition hashmap_wf (m : hashmap_t) : Prop :=
  0 < table_size m /\
  Z.of_nat (length (chunks m)) * HASHMAP_ELEMENTS_PER_CHUNK = table_size m /\
  forall i c, chunks m !! i = Some (Some c) -> chunk_wf c.

(** [hashmap_put] for each binding of a list in turn. *)
Definition hashmap_put_all (fuel : nat) (m : hashmap_t) (kvs : list (Z * V))
  : result (option hashmap_t) :=
  foldl (fun acc kv =>
           match acc with
           | Ok (Some m) => hashmap_put fuel m kv.1 kv.2
           | r => r
           end) (Ok (Some m)) kvs.

(** The table a run ended with; [hashmap_init] when it did not end. *)
Definition final_table (r : result (option hashmap_t)) : hashmap_t :=
  match r with
  | Ok (Some m) => m
  | _ => hashmap_init
  end.

(** ** Reading the probing loop off a chunk *)

Definition chunk_at (m : hashmap_t) (co : Z) : hashmap_chunk_t :=
  default zero_chunk (get_chunk_ptr m co).

Definition slot_taken (c : hashmap_chunk_t) (o : Z) : bool :=
  let mask_offset := o / HASHMAP_BITS_PER_MASK in
  truthy (Z.land (get_mask c mask_offset)
                 (Z.shiftl 1 (o - mask_offset * HASHMAP_BITS_PER_MASK))).

Definition slot_key (c : hashmap_chunk_t) (o : Z) : Z := key (get_element c o).

(** The slot at which probing for [k] stops, and whether it is a free one. *)
Fixpoint probe_path (n : nat) (c : hashmap_chunk_t) (k : Z) (offset_in_chunk curr : Z)
  : option (Z * bool) :=
  match n with
  | O => None
  | S n' =>
    if negb (slot_taken c offset_in_chunk) then Some (offset_in_chunk, true)
    else if slot_key c offset_in_chunk =? k then Some (offset_in_chunk, false)
    else
      let '(r, curr) := rand_r curr in
      probe_path n' c k (r mod HASHMAP_ELEMENTS_PER_CHUNK) curr
  end.

Definition claim_slot (k : Z) (co o : Z) (m : hashmap_t) : hashmap_t :=
  let mask_offset := o / HASHMAP_BITS_PER_MASK in
  let search_mask := Z.shiftl 1 (o - mask_offset * HASHMAP_BITS_PER_MASK) in
  alter_chunk (set_element_key k o) co
    (set_size (alter_chunk (set_mask_bit search_mask mask_offset) co m)
              (size m + 1)).

Definition grown (t : Z) (m : hashmap_t) : Prop :=
  hashmap_wf m /\ table_size m = t.

(** [hashmap_value_t *hashmap_get(hashmap_t *m, hashmap_key_t key)]: the
    table it leaves and the element whose value it points to. *)
Definition hashmap_get (fuel : nat) (m : hashmap_t) (k : Z)
  : result (option (hashmap_t * element_ptr)) :=
  (* Look for the given key. *)
  let '(m, element) := hashmap_find m k true in
  grow_until_found fuel m k element.

(** A [hashmap_mapper_t] is called with the key, a pointer to the value and
    the caller's data; it returns what it leaves in the value and in the
    data. *)
Definition hashmap_mapper_t (D : Type) : Type := Z -> V -> D -> V * D.

(** [for (k = 0; k < n; k++) body] for a body that does not abort. *)
Definition for_loop {S : Type} (n : Z) (body : S -> Z -> S) (s : S) : S :=
  foldl (fun s i => body s (Z.of_nat i)) s (seq 0 (Z.to_nat n)).

Definition hashmap_iterate_entry {D : Type} (f : hashmap_mapper_t D)
    (cid mid mask : Z) (s : hashmap_t * D) (eid : Z) : hashmap_t * D :=
  (* If the element exists, call the function on it. *)
  if truthy (Z.land mask (Z.shiftl 1 eid)) then
    let '(m, d) := s in
    let element := get_element (chunk_at m cid) (mid * HASHMAP_BITS_PER_MASK + eid) in
    let '(v, d) := f (key element) (value element) d in
    (store_value m (cid, mid * HASHMAP_BITS_PER_MASK + eid) v, d)
  else s.

(** The loop over the elements of a mask stops at [HASHMAP_BITS_PER_MASK] or
    at the last element of the chunk, whichever comes first. *)
Definition hashmap_iterate_mask {D : Type} (f : hashmap_mapper_t D)
    (cid : Z) (s : hashmap_t * D) (mid : Z) : hashmap_t * D :=
  let mask := get_mask (chunk_at s.1 cid) mid in
  if mask =? 0 then s
  else
    (* Loop over each element in the mask. *)
    for_loop (Z.min HASHMAP_BITS_PER_MASK
                    (HASHMAP_ELEMENTS_PER_CHUNK - mid * HASHMAP_BITS_PER_MASK))
             (hashmap_iterate_entry f cid mid mask) s.

Definition hashmap_iterate_chunk {D : Type} (f : hashmap_mapper_t D)
    (s : hashmap_t * D) (cid : Z) : hashmap_t * D :=
  match get_chunk_ptr s.1 cid with
  | None => s
  | Some _ =>
    (* Loop over the masks. *)
    for_loop HASHMAP_MASKS_PER_CHUNK (hashmap_iterate_mask f cid) s
  end.

(** [void hashmap_iterate(hashmap_t *m, hashmap_mapper_t f, void *data)] *)
Definition hashmap_iterate {D : Type} (m : hashmap_t) (f : hashmap_mapper_t D)
    (data : D) : hashmap_t * D :=
  (* Loop over the chunks. *)
  for_loop (nr_chunks m) (hashmap_iterate_chunk f) (m, data).

(** [void hashmap_free(hashmap_t *m)] *)
Definition hashmap_free (m : hashmap_t) : hashmap_t :=
  {| chunks := [];
     graveyard := 0;
     allocs := 0;
     table_size := 0;
     nr_chunks := 0;
     size := 0 |}.

(** ** The table as a finite map *)

(** The element at which a plain look-up of [k] ends in a table that is not
    full: the probing of [hashmap_find] without the creation of elements. *)
Definition find_slot (m : hashmap_t) (k : Z) : option element_ptr :=
  let '(r, curr) := rand_r (k mod 2 ^ 32) in
  let offset := r mod table_size m in
  let chunk_offset := offset / HASHMAP_ELEMENTS_PER_CHUNK in
  let offset_in_chunk := offset - chunk_offset * HASHMAP_ELEMENTS_PER_CHUNK in
  match get_chunk_ptr m chunk_offset with
  | None => None
  | Some c =>
    match probe_path MAX_CHAIN_LENGTH c k offset_in_chunk curr with
    | Some (o, false) => Some (chunk_offset, o)
    | _ => None
    end
  end.

(** The value bound to a key. *)
Definition contents (m : hashmap_t) (k : Z) : option V :=
  match find_slot m k with
  | Some ptr => Some (load_value m ptr)
  | None => None
  end.

(** What [hashmap_lookup] lets a caller read: the value behind the pointer
    it returns, if any. *)
Definition lookup_value (m : hashmap_t) (k : Z) : option V :=
  match (hashmap_lookup m k).2 with
  | Some ptr => Some (load_value m ptr)
  | None => None
  end.

(** Every element marked as taken is the one its key is found at. *)
Definition stored (m : hashmap_t) : Prop :=
  forall (i : nat) c o,
    chunks m !! i = Some (Some c) -> 0 <= o -> slot_taken c o = true ->
    find_slot m (slot_key c o) = Some (Z.of_nat i, o).

(** Elements that are not taken hold zeroed values. *)
Definition fresh_zero (m : hashmap_t) : Prop :=
  forall (i : nat) c o,
    chunks m !! i = Some (Some c) -> 0 <= o -> slot_taken c o = false ->
    value (get_element c o) = zero_value.

(** The invariant of the tables that [hashmap_init], [hashmap_put],
    [hashmap_get] and [hashmap_grow] produce. *)
Definition hashmap_inv (m : hashmap_t) : Prop :=
  hashmap_wf m /\
  nr_chunks m = Z.of_nat (length (chunks m)) /\
  stored m /\
  fresh_zero m.

(** The number of [i] below [n] at which [p] holds. *)
Definition count_upto (p : Z -> bool) (n : Z) : Z :=
  Z.of_nat (length (filter (fun i => p (Z.of_nat i) = true) (seq 0 (Z.to_nat n)))).

(** The elements of a table in the order of its chunks, numbered through:
    element [o] of chunk [cid] has the number
    [cid * (HASHMAP_MASKS_PER_CHUNK * HASHMAP_BITS_PER_MASK) + o]. *)
Definition slots_per_chunk : Z := HASHMAP_MASKS_PER_CHUNK * HASHMAP_BITS_PER_MASK.

Definition taken_at (m : hashmap_t) (j : Z) : bool :=
  match get_chunk_ptr m (j / slots_per_chunk) with
  | Some c => slot_taken c (j mod slots_per_chunk)
  | None => false
  end.

(** The number of elements marked as taken. *)
Definition population (m : hashmap_t) : Z :=
  count_upto (taken_at m) (Z.of_nat (length (chunks m)) * slots_per_chunk).

(** The state of the new table while [hashmap_grow] re-hashes the old table
    [m], when the elements numbered below [q] have been dealt with. *)
Definition rehashed (m : hashmap_t) (q : Z) (n : hashmap_t) : Prop :=
  hashmap_inv n /\
  table_size n = HASHMAP_GROWTH_FACTOR * table_size m /\
  size n = size m + count_upto (taken_at m) q /\
  (forall (i : nat) c o,
     chunks m !! i = Some (Some c) -> 0 <= o < slots_per_chunk ->
     slot_taken c o = true -> Z.of_nat i * slots_per_chunk + o < q ->
     contents n (slot_key c o) = Some (value (get_element c o))) /\
  (forall k, contents n k <> None ->
     exists (i : nat) c o,
       chunks m !! i = Some (Some c) /\ 0 <= o < slots_per_chunk /\
       slot_taken c o = true /\ Z.of_nat i * slots_per_chunk + o < q /\
       slot_key c o = k).

(** The key and value of the element with a given number. *)
Definition entry_at (m : hashmap_t) (j : Z) : Z * V :=
  let c := chunk_at m (j / slots_per_chunk) in
  (slot_key c (j mod slots_per_chunk),
   value (get_element c (j mod slots_per_chunk))).

(** The keys and values of the taken elements numbered below [q], in the
    order of their numbers. *)
Definition entries_upto (m : hashmap_t) (q : Z) : list (Z * V) :=
  map (fun i => entry_at m (Z.of_nat i))
      (filter (fun i => taken_at m (Z.of_nat i) = true) (seq 0 (Z.to_nat q))).

(** A mapper that records the keys and values it is called with and leaves
    the values as they are. *)
Definition collect : hashmap_mapper_t (list (Z * V)) :=
  fun k v calls => (v, calls ++ [(k, v)]).

End hashmap.

(** glibc's [rand_r]. *)
Definition glibc_rand_r (seed : Z) : Z * Z :=
  let next := seed mod 2 ^ 32 in
  let next := (next * 1103515245 + 12345) mod 2 ^ 32 in
  let result := (next / 65536) mod 2048 in
  let next := (next * 1103515245 + 12345) mod 2 ^ 32 in
  let result := Z.lxor (Z.shiftl result 10) ((next / 65536) mod 1024) in
  let next := (next * 1103515245 + 12345) mod 2 ^ 32 in
  let result := Z.lxor (Z.shiftl result 10) ((next / 65536) mod 1024) in
  (result, next).

(** The geometry of a 4 kB chunk of 16-byte elements with 64-bit masks. *)
Definition swift_params : params := {|
  HASHMAP_ELEMENTS_PER_CHUNK := 254;
  HASHMAP_BITS_PER_MASK := 64;
  HASHMAP_MASKS_PER_CHUNK := 4;
  HASHMAP_CHUNKS_PER_ALLOC := 8;
  rand_r := glibc_rand_r
|}.

(** A hash that sends every key to the first element of the table. *)
Definition stuck_params : params := {|
  HASHMAP_ELEMENTS_PER_CHUNK := 254;
  HASHMAP_BITS_PER_MASK := 64;
  HASHMAP_MASKS_PER_CHUNK := 4;
  HASHMAP_CHUNKS_PER_ALLOC := 8;
  rand_r := fun seed => (0, seed)
|}.

(** The keys [0 .. n-1], each bound to [1000 +] itself. *)
Definition bindings (n : nat) : list (Z * Z) :=
  map (fun i => (Z.of_nat i, 1000 + Z.of_nat i)) (seq 0 n).

End Hashmap.

(* ===================================================================== *)
(** * The time line set up by [engine_init] *)
(* ===================================================================== *)

Module Timeline.

(** The fields of [struct engine] that the time-line set-up reads and
    writes. *)
Record engine : Type := {
  timeBegin : float;
  timeEnd : float;
  dt_min : float;
  dt_max : float;
  timeBase : float;
  timeBase_inv : float;
  ti_current : Z;
  nodeID : Z
}.

(** Conversion of an [integertime_t] in [0, 2^63) to [double]. *)
Definition double_of_integertime (n : Z) : float := of_uint63 (Uint63.of_Z n).

(** C [float]s are the binary32 numbers of IEEE 754, here as [spec_float]s
    of precision 24 and maximal exponent 128. The conversion of a [double]
    to [float] rounds to nearest, ties to even; a [double] beyond the range
    of [float] becomes infinite. *)
Definition float_of_double (x : float) : spec_float :=
  match Prim2SF x with
  | S754_finite s m e => binary_round 24 128 s m e
  | y => y
  end.

(** The conversion of a [float] to [double] is exact. *)
Definition double_of_float (x : spec_float) : float := SF2Prim x.

(** [2.f] *)
Definition two_f : spec_float := S754_finite false 8388608 (-22).

(** [while (dt > lim) dt /= 2.f;]: the comparison is made in [double], the
    division in [float]. The loop is cut after [fuel] rounds, with [None]
    for a loop that has not come to its end by then. *)
Fixpoint halve_while (fuel : nat) (lim : float) (dt : spec_float)
  : option spec_float :=
  if (lim <? double_of_float dt)%float then
    match fuel with
    | O => None
    | S fuel => halve_while fuel lim (SFdiv 24 128 dt two_f)
    end
  else Some dt.

(** The part of [engine_init] that checks the time bounds and sets up the
    mapping between the integer time line and physical time.
    [max_nr_timesteps] is a macro of [timeline.h], not part of the sources at
    hand, and is a parameter. The values that the two loops on node 0
    compute only go to [message], which is not modelled; the loops are, cut
    after [fuel] rounds each, and the result is [Ok None] when one of them
    has not come to its end by then. *)
Definition engine_init_timeline (fuel : nat) (max_nr_timesteps : Z)
    (e : engine) : result (option engine) :=
  (* Check we have sensible time bounds *)
  if (timeEnd e <=? timeBegin e)%float then
    Error "Final simulation time must be larger than the start time"
  (* Check we have sensible time-step values *)
  else if (dt_max e <? dt_min e)%float then
    Error "Minimal time-step size must be smaller than maximal time-step size"
  else
    (* Deal with timestep *)
    let timeBase' :=
      ((timeEnd e - timeBegin e) / double_of_integertime max_nr_timesteps)%float in
    let e := {| timeBegin := timeBegin e; timeEnd := timeEnd e;
                dt_min := dt_min e; dt_max := dt_max e;
                timeBase := timeBase';
                timeBase_inv := (1 / timeBase')%float;
                ti_current := 0;
                nodeID := nodeID e |} in
    (* Info about time-steps *)
    match
      (if nodeID e =? 0 then
         match halve_while fuel (dt_min e)
                 (float_of_double (timeEnd e - timeBegin e)) with
         | None => None
         | Some dt_min' =>
           match halve_while fuel (dt_max e)
                   (float_of_double (timeEnd e - timeBegin e)) with
           | None => None
           | Some dt_max' => Some [dt_min'; dt_max']
           end
         end
       else Some [])
    with
    | None => Ok None
    | Some _ =>
      if (dt_min e <? timeBase e)%float && (nodeID e =? 0) then
        Error "Minimal time-step size smaller than the absolute possible minimum"
      else if (timeEnd e - timeBegin e <? dt_max e)%float && (nodeID e =? 0) then
        Error "Maximal time-step size larger than the simulation run time"
      else Ok (Some e)
    end.

(** ** Units in the last place

    The position of a double in the order of the doubles: that of its bit
    pattern, read as a number with a sign. Doubles next to each other have
    positions next to each other, the two zeros have position 0, infinity
    comes right after the largest finite double, and NaN has no position. *)
Definition ordinal_of (x : spec_float) : option Z :=
  match x with
  | S754_nan => None
  | S754_zero _ => Some 0
  | S754_infinity s => Some (cond_Zopp s (2047 * 2 ^ 52))
  | S754_finite s m e => Some (cond_Zopp s ((e + 1074) * 2 ^ 52 + Zpos m))
  end.

Definition ordinal (x : float) : option Z := ordinal_of (Prim2SF x).

(** [a] is [b] or one of the two doubles next to [b]. *)
Definition within_one_ulp (a b : float) : bool :=
  match ordinal a, ordinal b with
  | Some i, Some j => Z.abs (i - j) <=? 1
  | _, _ => false
  end.




(** An engine that is to run from [t_begin] to [t_end]. *)
Definition engine_for (t_begin t_end dt_min dt_max : float) : engine :=
  {| timeBegin := t_begin; timeEnd := t_end; dt_min := dt_min; dt_max := dt_max;
     timeBase := 0; timeBase_inv := 0; ti_current := 0; nodeID := 0 |}.

(** The same on another node. *)
Definition on_node (n : Z) (e : engine) : engine :=
  {| timeBegin := timeBegin e; timeEnd := timeEnd e;
     dt_min := dt_min e; dt_max := dt_max e;
     timeBase := timeBase e; timeBase_inv := timeBase_inv e;
     ti_current := ti_current e; nodeID := n |}.

End Timeline.

(* ===================================================================== *)
(** * The repartition trigger of [engine_step] *)
(* ===================================================================== *)

Module Repart.

(** [enum repartition_type] is declared in [partition.h], not part of the
    sources at hand; its values are C integers and [REPART_NONE] is a
    parameter. *)
Record repartition : Type := {
  type : Z;
  fractionaltime : float
}.

Record engine : Type := {
  nodeID : Z;
  updates : Z;
  g_updates : Z;
  total_nr_parts : Z;
  total_nr_gparts : Z;
  cputic_step : float;
  cputoc_step : float;
  forcerepart : Z
}.

Definition set_forcerepart (e : engine) (r : Z) : engine :=
  {| nodeID := nodeID e; updates := updates e; g_updates := g_updates e;
     total_nr_parts := total_nr_parts e; total_nr_gparts := total_nr_gparts e;
     cputic_step := cputic_step e; cputoc_step := cputoc_step e;
     forcerepart := r |}.

Definition set_cputic_step (e : engine) (t : float) : engine :=
  {| nodeID := nodeID e; updates := updates e; g_updates := g_updates e;
     total_nr_parts := total_nr_parts e; total_nr_gparts := total_nr_gparts e;
     cputic_step := t; cputoc_step := cputoc_step e;
     forcerepart := forcerepart e |}.

(** The loop over [elapsed_cputimes[1 .. nr_nodes-1]]: the pair
    [(mintime, maxtime)]. *)
Definition min_max_time (elapsed_cputimes : list float) : float * float :=
  let t0 := nth 0 elapsed_cputimes 0%float in
  fold_left (fun '(mintime, maxtime) t =>
               let maxtime := if (maxtime <? t)%float then t else maxtime in
               let mintime := if (t <? mintime)%float then t else mintime in
               (mintime, maxtime))
            (tl elapsed_cputimes) (t0, t0).

(** Have all particles of some type been updated in the last step? *)
Definition all_updated (e : engine) : bool :=
  (negb (updates e =? 0) && (updates e =? total_nr_parts e)) ||
  (negb (g_updates e =? 0) && (g_updates e =? total_nr_gparts e)).

(** The dispersion test on the gathered times. *)
Definition dispersion_exceeds (fractionaltime : float)
    (elapsed_cputimes : list float) : bool :=
  let '(mintime, maxtime) := min_max_time elapsed_cputimes in
  (fractionaltime <? (maxtime - mintime) / mintime)%float.

(** What one rank does between [MPI_Gather] and [MPI_Bcast]. *)
Definition engine_step_check (e : engine) (repartition : repartition)
    (elapsed_cputimes : list float) : engine :=
  if nodeID e =? 0 then
    if all_updated e then
      (* OK we are tempted as enough particles have been updated, so check
         the distribution of elapsed times for the ranks. *)
      if dispersion_exceeds (fractionaltime repartition) elapsed_cputimes then
        set_forcerepart e (type repartition)
      else e
    else e
  else e.

(** The [WITH_MPI] block at the head of [engine_step], run by all ranks of
    the communicator together; [ranks] lists their engines by rank and
    [clocks_get_cputime_used] gives the CPU clock of each. *)
Definition engine_step_rebalance (with_mpi : bool) (ranks : list engine)
    (repartition : repartition) (clocks_get_cputime_used : nat -> float)
  : list engine :=
  if with_mpi then
    (* CPU time used since the last step started. *)
    let elapsed_cputimes :=
      map (fun e => (cputoc_step e - cputic_step e)%float) ranks in
    let ranks := imap (fun k e => set_cputic_step e (clocks_get_cputime_used k))
                      ranks in
    (* Gather the elapsed CPU times from all ranks for the last step. *)
    let ranks := map (fun e => engine_step_check e repartition elapsed_cputimes)
                     ranks in
    (* All nodes do this together. *)
    match ranks with
    | [] => []
    | root :: _ => map (fun e => set_forcerepart e (forcerepart root)) ranks
    end
  else ranks.

(** Two ranks on which nothing was updated in the last step, with CPU times
    1 and 3. *)
Definition idle_rank (k : Z) (cputoc : float) : engine :=
  {| nodeID := k; updates := 0; g_updates := 0;
     total_nr_parts := 10; total_nr_gparts := 0;
     cputic_step := 0; cputoc_step := cputoc; forcerepart := 0 |}.

Definition busy_rank (k : Z) (cputoc : float) : engine :=
  {| nodeID := k; updates := 10; g_updates := 0;
     total_nr_parts := 10; total_nr_gparts := 0;
     cputic_step := 0; cputoc_step := cputoc; forcerepart := 0 |}.

End Repart.

(* ===================================================================== *)
(** * Tasks and the scheduler *)
(* ===================================================================== *)

Module Sched.

(** [enum task_types] and [enum task_subtypes], as named in [engine.c]. *)
Inductive task_type : Type :=
| task_type_none | task_type_sort | task_type_self | task_type_pair
| task_type_sub_self | task_type_sub_pair | task_type_init | task_type_ghost
| task_type_extra_ghost | task_type_drift | task_type_kick1 | task_type_kick2
| task_type_timestep | task_type_send | task_type_recv
| task_type_grav_gather_m | task_type_grav_fft | task_type_grav_mm
| task_type_grav_up | task_type_cooling | task_type_sourceterms.

Inductive task_subtype : Type :=
| task_subtype_none | task_subtype_density | task_subtype_gradient
| task_subtype_force | task_subtype_grav | task_subtype_external_grav
| task_subtype_tend | task_subtype_xv | task_subtype_rho.

#[global] Instance task_type_eq_dec : EqDecision task_type.
Proof. solve_decision. Defined.
#[global] Instance task_subtype_eq_dec : EqDecision task_subtype.
Proof. solve_decision. Defined.

(** [struct task]: cells are referred to by their address ([None] for
    [NULL]), tasks by their index in the scheduler's task array. *)
Record task : Type := {
  type : task_type;
  subtype : task_subtype;
  flags : Z;
  wait : Z;
  ci : option nat;
  cj : option nat;
  tight : bool;
  skip : bool
}.

#[global] Instance task_eq_dec : EqDecision task.
Proof. solve_decision. Defined.

(** A task that is not waiting and, as every new task, skipped. *)
Definition mk_task (ty : task_type) (sub : task_subtype) (fl : Z)
    (ci cj : option nat) (tight : bool) : task :=
  {| type := ty; subtype := sub; flags := fl; wait := 0; ci := ci; cj := cj;
     tight := tight; skip := true |}.

(** [struct scheduler]: the task array and the unlock edges [(ta, tb)]
    recorded so far, [ta] unlocking [tb]; the ends of an edge are task
    pointers as the callers pass them, [NULL] included. *)
Record scheduler : Type := {
  tasks : list task;
  unlocks : list (option nat * option nat)
}.

(** Modelled from the spec: [scheduler_addtask] (in [scheduler.c], not part
    of the sources at hand) emits a task record with the given type, subtype,
    flags, wait counter, cells and tightness at the end of the task array and
    returns it; a task is skipped until the activation pass activates it. *)
Definition scheduler_addtask (s : scheduler) (type : task_type)
    (subtype : task_subtype) (flags wait : Z) (ci cj : option nat)
    (tight : bool) : scheduler * nat :=
  ({| tasks := tasks s ++
               [{| type := type; subtype := subtype; flags := flags;
                   wait := wait; ci := ci; cj := cj; tight := tight;
                   skip := true |}];
      unlocks := unlocks s |},
   length (tasks s)).

(** Modelled from the spec: [scheduler_addunlock] (in [scheduler.c], not part
    of the sources at hand) adds [tb] to the tasks that [ta] unlocks. *)
Definition scheduler_addunlock (s : scheduler) (ta tb : option nat)
  : scheduler :=
  {| tasks := tasks s; unlocks := unlocks s ++ [(ta, tb)] |}.

Definition scheduler_empty : scheduler := {| tasks := []; unlocks := [] |}.

(** [for (x = lo; x < lo + len; x++) body], threading the state. *)
Definition for_each {S A : Type} (l : list A) (body : S -> A -> S) (s : S) : S :=
  foldl body s l.

(** A state transformer that only appends the tasks [out]. *)
Definition emits (f : scheduler -> scheduler) (out : list task) : Prop :=
  forall sched, tasks (f sched) = tasks sched ++ out /\
                unlocks (f sched) = unlocks sched.

End Sched.

(* ===================================================================== *)
(** * Enumeration of the first hydro loop *)
(* ===================================================================== *)

Module Hydroloop.
Import Sched.

(** The fields of a top-level [struct cell] that the enumeration reads. *)
Record cell : Type := {
  count : Z;
  nodeID : Z
}.

(** [struct space]: the top-level grid. The address of a top-level cell is
    its index in [cells_top]. *)
Record space : Type := {
  cdim : Z * Z * Z;
  periodic : bool;
  cells_top : list cell
}.

Definition cdim0 (s : space) : Z := (cdim s).1.1.
Definition cdim1 (s : space) : Z := (cdim s).1.2.
Definition cdim2 (s : space) : Z := (cdim s).2.

(** Modelled from the spec: [cell_getid(cdim, i, j, k)], a macro of [cell.h]
    which is not part of the sources at hand, is
    [i * cdim[1] * cdim[2] + j * cdim[2] + k]. *)
Definition cell_getid (s : space) (i j k : Z) : Z :=
  i * cdim1 s * cdim2 s + j * cdim2 s + k.

(** [cells[cid]] *)
Definition cell_at (s : space) (cid : Z) : cell :=
  default {| count := 0; nodeID := 0 |} (cells_top s !! Z.to_nat cid).

(** The cell an offset leads to, an offset being given along each axis by
    its value and the wrapped coordinate. *)
Definition target (o : (Z * Z) * (Z * Z) * (Z * Z)) : Z * Z * Z :=
  (o.1.1.2, o.1.2.2, o.2.2).

Section hydroloop.
(** [sortlistID] is a table of [space.c], not part of the sources at hand. *)
Context (sortlistID : Z -> Z).
Context (s : space) (nodeID_e : Z).

(** The body of the innermost loop, for the neighbour at offset
    [(ii, jj, kk)] whose wrapped coordinates are [(iii, jjj, kkk)]. *)
Definition neighbour_body (cid : Z) (ii jj kk iii jjj kkk : Z)
    (sched : scheduler) : scheduler :=
  (* Get the neighbouring cell *)
  let cjd := cell_getid s iii jjj kkk in
  let ci := cell_at s cid in
  let cj := cell_at s cjd in
  (* Is that neighbour local and does it have particles ? *)
  if (cid >=? cjd) || (count cj =? 0) ||
     (negb (nodeID ci =? nodeID_e) && negb (nodeID cj =? nodeID_e))
  then sched
  else
    (* Construct the pair task *)
    let sid := sortlistID ((kk + 1) + 3 * ((jj + 1) + 3 * (ii + 1))) in
    (scheduler_addtask sched task_type_pair task_subtype_density sid 0
       (Some (Z.to_nat cid)) (Some (Z.to_nat cjd)) true).1.

(** One level of the loops over the neighbours: the coordinate [x + xx] is
    skipped when it leaves an open grid and wrapped otherwise. *)
Definition neighbour_loop (x c : Z) (body : Z -> Z -> scheduler -> scheduler)
    (sched : scheduler) : scheduler :=
  for_each [-1; 0; 1] (fun sched xx =>
    let xxx := x + xx in
    if negb (periodic s) && ((xxx <? 0) || (xxx >=? c)) then sched
    else
      let xxx := Z.rem (xxx + c) c in
      body xx xxx sched) sched.

(** The body of the loops over the cells. *)
Definition cell_body (i j k : Z) (sched : scheduler) : scheduler :=
  (* Get the cell *)
  let cid := cell_getid s i j k in
  let ci := cell_at s cid in
  (* Skip cells without hydro particles *)
  if count ci =? 0 then sched
  else
    (* If the cells is local build a self-interaction *)
    let sched :=
      if nodeID ci =? nodeID_e then
        (scheduler_addtask sched task_type_self task_subtype_density 0 0
           (Some (Z.to_nat cid)) None false).1
      else sched in
    (* Now loop over all the neighbours of this cell *)
    neighbour_loop i (cdim0 s) (fun ii iii =>
      neighbour_loop j (cdim1 s) (fun jj jjj =>
        neighbour_loop k (cdim2 s) (fun kk kkk =>
          neighbour_body cid ii jj kk iii jjj kkk))) sched.

(** [void engine_make_hydroloop_tasks(struct engine *e)] *)
Definition engine_make_hydroloop_tasks (sched : scheduler) : scheduler :=
  (* Run through the highest level of cells and add pairs. *)
  for_each (seqZ 0 (cdim0 s)) (fun sched i =>
    for_each (seqZ 0 (cdim1 s)) (fun sched j =>
      for_each (seqZ 0 (cdim2 s)) (fun sched k =>
        cell_body i j k sched) sched) sched) sched.

(** ** The enumeration as a list comprehension *)

(** The offsets [xx] the loop over the neighbours along one axis does not
    skip, each with the wrapped coordinate [xxx]. *)
Definition neighbour_offsets (x c : Z) : list (Z * Z) :=
  xx ← [-1; 0; 1];
  let xxx := x + xx in
  if negb (periodic s) && ((xxx <? 0) || (xxx >=? c)) then []
  else [(xx, Z.rem (xxx + c) c)].

(** The pair task, if any, for the neighbour at the given offsets. *)
Definition pair_tasks (cid : Z) (o : (Z * Z) * (Z * Z) * (Z * Z)) : list task :=
  let '((ii, iii), (jj, jjj), (kk, kkk)) := o in
  let cjd := cell_getid s iii jjj kkk in
  if (cid >=? cjd) || (count (cell_at s cjd) =? 0) ||
     (negb (nodeID (cell_at s cid) =? nodeID_e) &&
      negb (nodeID (cell_at s cjd) =? nodeID_e))
  then []
  else [{| type := task_type_pair; subtype := task_subtype_density;
           flags := sortlistID ((kk + 1) + 3 * ((jj + 1) + 3 * (ii + 1)));
           wait := 0; ci := Some (Z.to_nat cid); cj := Some (Z.to_nat cjd);
           tight := true; skip := true |}].

Definition self_task (cid : Z) : task :=
  {| type := task_type_self; subtype := task_subtype_density; flags := 0;
     wait := 0; ci := Some (Z.to_nat cid); cj := None; tight := false;
     skip := true |}.

Definition cell_offsets (c : Z * Z * Z) : list ((Z * Z) * (Z * Z) * (Z * Z)) :=
  a ← neighbour_offsets c.1.1 (cdim0 s);
  b ← neighbour_offsets c.1.2 (cdim1 s);
  d ← neighbour_offsets c.2 (cdim2 s);
  [(a, b, d)].

(** The tasks emitted for the cell at grid coordinates [c]. *)
Definition cell_tasks (c : Z * Z * Z) : list task :=
  let cid := cell_getid s c.1.1 c.1.2 c.2 in
  if count (cell_at s cid) =? 0 then []
  else
    (if nodeID (cell_at s cid) =? nodeID_e then [self_task cid] else []) ++
    (cell_offsets c ≫= pair_tasks cid).

Definition grid_coords : list (Z * Z * Z) :=
  i ← seqZ 0 (cdim0 s); j ← seqZ 0 (cdim1 s); k ← seqZ 0 (cdim2 s); [(i, j, k)].

Definition hydroloop_tasks : list task := grid_coords ≫= cell_tasks.

(** ** Neighbouring cells *)

Definition in_grid (c : Z * Z * Z) : Prop :=
  0 <= c.1.1 < cdim0 s /\ 0 <= c.1.2 < cdim1 s /\ 0 <= c.2 < cdim2 s.

(** Coordinates [x] and [y] along an axis of [c] cells are at most one cell
    apart, around the boundary when the space is periodic. *)
Definition adjacent_along (c x y : Z) : bool :=
  (y =? x) || (y =? x + 1) || (y =? x - 1) ||
  (periodic s && (((x =? 0) && (y =? c - 1)) || ((x =? c - 1) && (y =? 0)))).

Definition adjacent (a b : Z * Z * Z) : bool :=
  adjacent_along (cdim0 s) a.1.1 b.1.1 &&
  adjacent_along (cdim1 s) a.1.2 b.1.2 &&
  adjacent_along (cdim2 s) a.2 b.2.

Definition cid_of (c : Z * Z * Z) : Z := cell_getid s c.1.1 c.1.2 c.2.

Definition nonempty (c : Z * Z * Z) : bool :=
  negb (count (cell_at s (cid_of c)) =? 0).

Definition is_local (c : Z * Z * Z) : bool :=
  nodeID (cell_at s (cid_of c)) =? nodeID_e.

(** The grid has cells, and enough of them for the periodic wrap to reach
    three different neighbours along each axis. *)
Definition space_wf : Prop :=
  0 < cdim0 s /\ 0 < cdim1 s /\ 0 < cdim2 s /\
  (periodic s = true -> 3 <= cdim0 s /\ 3 <= cdim1 s /\ 3 <= cdim2 s).

(** The tasks of a list that are pair tasks between the cells [a] and [b],
    and self tasks on [a]. *)
Definition pair_tasks_between (a b : Z * Z * Z) (l : list task) : list task :=
  filter (fun t => type t = task_type_pair /\
                   ci t = Some (Z.to_nat (cid_of a)) /\
                   cj t = Some (Z.to_nat (cid_of b))) l.

Definition self_tasks_on (a : Z * Z * Z) (l : list task) : list task :=
  filter (fun t => type t = task_type_self /\
                   ci t = Some (Z.to_nat (cid_of a))) l.

End hydroloop.

(** The table [sortlistID] of SWIFT's [space.c]. *)
Definition swift_sortlistID (n : Z) : Z :=
  nth (Z.to_nat n)
      [0; 1; 2; 3; 4; 5; 6; 7; 8; 9; 10; 11; 12; 0;
       12; 11; 10; 9; 8; 7; 6; 5; 4; 3; 2; 1; 0] 0.

(** Grids for the examples, from the particle count and the node of each
    cell. *)
Definition grid (cdim : Z * Z * Z) (periodic : bool) (cells : list (Z * Z))
  : space :=
  {| cdim := cdim; periodic := periodic;
     cells_top := map (fun c => {| count := c.1; nodeID := c.2 |}) cells |}.

End Hydroloop.

(* ===================================================================== *)
(** * The activation pass: [engine_marktasks] *)
(* ===================================================================== *)

Module Marktasks.
Import Sched.

Section marktasks.
(** The floating-point types of [h_max], [dx_max] and [dmin] are fixed by
    [cell.h], the macro [max] by [minmax.h] and the constant
    [space_maxreldx] by [space.h], none of them part of the sources at hand:
    the arithmetic on them is a parameter. *)
Context {real : Type}.
Context (fmax fadd fmul : real -> real -> real) (fgt : real -> real -> bool).
Context (space_maxreldx : real).

(** The fields of [struct cell] that the pass reads or writes. Link lists
    ([send_xv], ...) are lists of task indices, head first. *)
Record cell : Type := {
  ti_end_min : Z;
  h_max : real;
  dx_max : real;
  dmin : real;
  sorted : Z;
  sorts : option nat;
  nodeID : Z;
  super : option nat;
  drift : option nat;
  recv_xv : option nat;
  recv_rho : option nat;
  recv_ti : option nat;
  send_xv : list nat;
  send_rho : list nat;
  send_ti : list nat;
  updated : Z;
  g_updated : Z;
  s_updated : Z
}.

(** What the pass needs of [struct engine]; [engine_rank] is the global
    variable of that name and [with_mpi] stands for [defined(WITH_MPI)]. *)
Record engine : Type := {
  ti_current : Z;
  engine_rank : Z;
  with_mpi : bool
}.

(** The memory the pass works on: the scheduler's task array, the cells, and
    the word [extra_data[1]] that [rebuild_space] points to. *)
Record state : Type := {
  tasks : list task;
  cells : list cell;
  rebuild_space : Z
}.

(** Modelled from the spec: [cell_is_active] (in [active.h], not part of the
    sources at hand): a cell is active at integer time [t_now] iff
    [cell.ti_end_min <= t_now]. *)
Definition cell_is_active (c : cell) (e : engine) : bool :=
  ti_end_min c <=? ti_current e.

Definition set_skip (b : bool) (t : task) : task :=
  {| type := type t; subtype := subtype t; flags := flags t; wait := wait t;
     ci := ci t; cj := cj t; tight := tight t; skip := b |}.

Definition or_flags (bits : Z) (t : task) : task :=
  {| type := type t; subtype := subtype t; flags := Z.lor (flags t) bits;
     wait := wait t; ci := ci t; cj := cj t; tight := tight t;
     skip := skip t |}.

Definition reset_updated (c : cell) : cell :=
  {| ti_end_min := ti_end_min c; h_max := h_max c; dx_max := dx_max c;
     dmin := dmin c; sorted := sorted c; sorts := sorts c;
     nodeID := nodeID c; super := super c; drift := drift c;
     recv_xv := recv_xv c; recv_rho := recv_rho c; recv_ti := recv_ti c;
     send_xv := send_xv c; send_rho := send_rho c; send_ti := send_ti c;
     updated := 0; g_updated := 0; s_updated := 0 |}.

(** Pointers to tasks and cells are indices into their arrays. *)
Definition task_at (st : state) (ind : nat) : result task :=
  match tasks st !! ind with
  | Some t => Ok t
  | None => Error "invalid task pointer"
  end.

Definition cell_at (st : state) (c : nat) : result cell :=
  match cells st !! c with
  | Some c => Ok c
  | None => Error "invalid cell pointer"
  end.

Definition update_task (f : task -> task) (ind : nat) (st : state)
  : result state :=
  match tasks st !! ind with
  | Some _ => Ok {| tasks := alter f ind (tasks st); cells := cells st;
                    rebuild_space := rebuild_space st |}
  | None => Error "invalid task pointer"
  end.

(** Modelled from the spec: [scheduler_activate] (in [scheduler.h], not part
    of the sources at hand) activates a task, that is, clears its [skip]. *)
Definition scheduler_activate (t : nat) (st : state) : result state :=
  update_task (set_skip false) t st.

(** [atomic_or(&t->flags, bits)] *)
Definition atomic_or_flags (t : nat) (bits : Z) (st : state) : result state :=
  update_task (or_flags bits) t st.

(** [t->ci->updated = 0; t->ci->g_updated = 0; t->ci->s_updated = 0;] *)
Definition clear_updated (c : nat) (st : state) : result state :=
  match cells st !! c with
  | Some _ => Ok {| tasks := tasks st; cells := alter reset_updated c (cells st);
                    rebuild_space := rebuild_space st |}
  | None => Error "invalid cell pointer"
  end.

(** [*rebuild_space = 1;] *)
Definition set_rebuild_space (st : state) : state :=
  {| tasks := tasks st; cells := cells st; rebuild_space := 1 |}.

(** [for (l = links; l != NULL && l->t->cj->nodeID != node; l = l->next);]
    the task of the first link whose task has its [cj] on [node], if any. *)
Fixpoint find_link (st : state) (links : list nat) (node : Z)
  : result (option nat) :=
  match links with
  | [] => Ok None
  | l :: next =>
    t ← task_at st l;
    c ← deref (cj t);
    c ← cell_at st c;
    if negb (nodeID c =? node) then find_link st next node else Ok (Some l)
  end.

(** Activation of the send task of a link list towards [node]. *)
Definition activate_link (msg : string) (links : list nat) (node : Z)
    (st : state) : result state :=
  l ← find_link st links node;
  match l with
  | None => Error msg
  | Some l => scheduler_activate l st
  end.

(** Too much particle movement? *)
Definition too_much_movement (ci cj : cell) : bool :=
  fgt (fadd (fadd (fmax (h_max ci) (h_max cj)) (dx_max ci)) (dx_max cj)) (dmin cj) ||
  fgt (dx_max ci) (fmul space_maxreldx (h_max ci)) ||
  fgt (dx_max cj) (fmul space_maxreldx (h_max cj)).

(** Set the sort flags of one cell of an active pair task [t]. *)
Definition activate_sort (ind : nat) (c : cell) (st : state) : result state :=
  t ← task_at st ind;
  if negb (truthy (Z.land (sorted c) (Z.shiftl 1 (flags t)))) then
    sorts_c ← deref (sorts c);
    t ← task_at st ind;
    st ← atomic_or_flags sorts_c (Z.shiftl 1 (flags t)) st;
    scheduler_activate sorts_c st
  else Ok st.

(** [scheduler_activate(s, p)] for a task pointer [p] read from a cell. *)
Definition scheduler_activate_ptr (p : option nat) (st : state) : result state :=
  t ← deref p;
  scheduler_activate t st.

(** [if (c->super->drift) scheduler_activate(s, c->super->drift);
     else error("Drift task missing !");] *)
Definition activate_super_drift (c : cell) (st : state) : result state :=
  super_c ← deref (super c);
  super_c ← cell_at st super_c;
  match drift super_c with
  | Some t => scheduler_activate t st
  | None => Error "Drift task missing !"
  end.

(** Activate the send/recv tasks for a pair whose cell [ci] is foreign and
    whose cell [cj] is local. *)
Definition activate_send_recv (e : engine) (ci cj : cell) (st : state)
  : result state :=
  (* Activate the tasks to recv foreign cell ci's data. *)
  st ← scheduler_activate_ptr (recv_xv ci) st;
  st ← (if cell_is_active ci e then
          st ← scheduler_activate_ptr (recv_rho ci) st;
          scheduler_activate_ptr (recv_ti ci) st
        else Ok st);
  (* Look for the local cell cj's send tasks. *)
  st ← activate_link "Missing link to send_xv task." (send_xv cj) (nodeID ci) st;
  st ← activate_super_drift cj st;
  if cell_is_active cj e then
    st ← activate_link "Missing link to send_rho task." (send_rho cj) (nodeID ci) st;
    activate_link "Missing link to send_ti task." (send_ti cj) (nodeID ci) st
  else Ok st.

Definition is_single_cell_type (ty : task_type) : bool :=
  bool_decide (ty = task_type_self \/ ty = task_type_ghost \/
               ty = task_type_extra_ghost \/ ty = task_type_cooling \/
               ty = task_type_sourceterms \/ ty = task_type_sub_self).

Definition is_pair_type (ty : task_type) : bool :=
  bool_decide (ty = task_type_pair \/ ty = task_type_sub_pair).

Definition is_kick_drift_init_type (ty : task_type) : bool :=
  bool_decide (ty = task_type_kick1 \/ ty = task_type_kick2 \/
               ty = task_type_drift \/ ty = task_type_init).

Definition is_no_cell_type (ty : task_type) : bool :=
  bool_decide (ty = task_type_grav_gather_m \/ ty = task_type_grav_fft).

(** The body of the loop of [engine_marktasks_mapper] for the task at index
    [ind]. *)
Definition engine_marktasks_task (e : engine) (ind : nat) (st : state)
  : result state :=
  t ← task_at st ind;
  (* Single-cell task? *)
  if is_single_cell_type (type t) then
    ci ← deref (ci t);
    ci ← cell_at st ci;
    (* Set this task's skip. *)
    if cell_is_active ci e then scheduler_activate ind st else Ok st
  (* Pair? *)
  else if is_pair_type (type t) then
    (* Local pointers. *)
    ci ← deref (ci t);
    ci ← cell_at st ci;
    cj ← deref (cj t);
    cj ← cell_at st cj;
    (* Too much particle movement? *)
    let st := if tight t && too_much_movement ci cj
              then set_rebuild_space st else st in
    (* Set this task's skip, otherwise nothing to do. *)
    if cell_is_active ci e || cell_is_active cj e then
      st ← scheduler_activate ind st;
      (* If this is not a density task, we don't have to do any of the
         below. *)
      if negb (bool_decide (subtype t = task_subtype_density)) then Ok st
      else
        (* Set the sort flags. *)
        st ← (if bool_decide (type t = task_type_pair) then
                st ← activate_sort ind ci st;
                activate_sort ind cj st
              else Ok st);
        if with_mpi e then
          (* Activate the send/recv flags. *)
          if negb (nodeID ci =? engine_rank e) then
            activate_send_recv e ci cj st
          else if negb (nodeID cj =? engine_rank e) then
            activate_send_recv e cj ci st
          else Ok st
        else Ok st
    else Ok st
  (* Kick/Drift/Init? *)
  else if is_kick_drift_init_type (type t) then
    ci ← deref (ci t);
    ci ← cell_at st ci;
    if cell_is_active ci e then scheduler_activate ind st else Ok st
  (* Time-step? *)
  else if bool_decide (type t = task_type_timestep) then
    c ← deref (Sched.ci t);
    st ← clear_updated c st;
    ci ← cell_at st c;
    if cell_is_active ci e then scheduler_activate ind st else Ok st
  (* Tasks with no cells should not be skipped? *)
  else if is_no_cell_type (type t) then
    scheduler_activate ind st
  else Ok st.

(** [void engine_marktasks_mapper(void *map_data, int num_elements,
     void *extra_data)], on the tasks [first .. first + num_elements - 1]. *)
Definition engine_marktasks_mapper (e : engine) (first num_elements : nat)
    (st : state) : result state :=
  foldl (fun st ind => st ← st; engine_marktasks_task e ind st)
        (Ok st) (seq first num_elements).

(** [int engine_marktasks(struct engine *e)]: the threadpool maps the mapper
    over all the tasks, here as one chunk. Returns the rebuild flag and the
    memory the pass leaves. *)
Definition engine_marktasks (e : engine) (st : state) : result (Z * state) :=
  (* int rebuild_space = 0; *)
  let st := {| tasks := tasks st; cells := cells st; rebuild_space := 0 |} in
  (* Run through the tasks and mark as skip or not. *)
  st ← engine_marktasks_mapper e 0 (length (tasks st)) st;
  (* All is well... *)
  Ok (rebuild_space st, st).

(** ** The pass as a list of stores

    Every decision of the pass depends on fields that the pass itself never
    changes, so the pass amounts to a list of stores computed up front. *)

Inductive action : Type :=
| Activate (t : nat)
| OrFlags (t : nat) (bits : Z)
| ClearUpdated (c : nat)
| Rebuild
| Abort (msg : string).

Definition apply_action (a : action) (st : state) : result state :=
  match a with
  | Activate t => scheduler_activate t st
  | OrFlags t bits => atomic_or_flags t bits st
  | ClearUpdated c => clear_updated c st
  | Rebuild => Ok (set_rebuild_space st)
  | Abort msg => Error msg
  end.

Definition run (acts : list action) (st : state) : result state :=
  foldl (fun st a => st ← st; apply_action a st) (Ok st) acts.

Definition plan_deref_activate (p : option nat) : list action :=
  match p with
  | Some t => [Activate t]
  | None => [Abort "NULL pointer"]
  end.

Definition plan_with_cell (st : state) (p : option nat)
    (k : cell -> list action) : list action :=
  match p with
  | None => [Abort "NULL pointer"]
  | Some c =>
    match cell_at st c with
    | Ok c => k c
    | Error msg => [Abort msg]
    end
  end.

Definition plan_sort (st : state) (ind : nat) (c : cell) : list action :=
  match task_at st ind with
  | Error msg => [Abort msg]
  | Ok t =>
    if negb (truthy (Z.land (sorted c) (Z.shiftl 1 (flags t)))) then
      match sorts c with
      | None => [Abort "NULL pointer"]
      | Some sorts_c =>
        [OrFlags sorts_c (Z.shiftl 1 (flags t)); Activate sorts_c]
      end
    else []
  end.

Definition plan_link (st : state) (msg : string) (links : list nat)
    (node : Z) : list action :=
  match find_link st links node with
  | Error m => [Abort m]
  | Ok None => [Abort msg]
  | Ok (Some l) => [Activate l]
  end.

Definition plan_send_recv (st : state) (e : engine) (ci cj : cell)
  : list action :=
  plan_deref_activate (recv_xv ci) ++
  (if cell_is_active ci e
   then plan_deref_activate (recv_rho ci) ++ plan_deref_activate (recv_ti ci)
   else []) ++
  plan_link st "Missing link to send_xv task." (send_xv cj) (nodeID ci) ++
  plan_with_cell st (super cj) (fun super_cj =>
    match drift super_cj with
    | Some t => [Activate t]
    | None => [Abort "Drift task missing !"]
    end) ++
  (if cell_is_active cj e
   then plan_link st "Missing link to send_rho task." (send_rho cj) (nodeID ci) ++
        plan_link st "Missing link to send_ti task." (send_ti cj) (nodeID ci)
   else []).

Definition plan_active (e : engine) (ind : nat) (c : cell) : list action :=
  if cell_is_active c e then [Activate ind] else [].

(** The stores of [engine_marktasks_task e ind]. *)
Definition plan (e : engine) (st : state) (ind : nat) : list action :=
  match task_at st ind with
  | Error msg => [Abort msg]
  | Ok t =>
    if is_single_cell_type (type t) then
      plan_with_cell st (ci t) (plan_active e ind)
    else if is_pair_type (type t) then
      plan_with_cell st (ci t) (fun ci =>
      plan_with_cell st (cj t) (fun cj =>
        (if tight t && too_much_movement ci cj then [Rebuild] else []) ++
        (if cell_is_active ci e || cell_is_active cj e then
           Activate ind ::
           (if negb (bool_decide (subtype t = task_subtype_density)) then []
            else
              (if bool_decide (type t = task_type_pair)
               then plan_sort st ind ci ++ plan_sort st ind cj else []) ++
              (if with_mpi e then
                 if negb (nodeID ci =? engine_rank e) then
                   plan_send_recv st e ci cj
                 else if negb (nodeID cj =? engine_rank e) then
                   plan_send_recv st e cj ci
                 else []
               else []))
         else [])))
    else if is_kick_drift_init_type (type t) then
      plan_with_cell st (ci t) (plan_active e ind)
    else if bool_decide (type t = task_type_timestep) then
      match ci t with
      | None => [Abort "NULL pointer"]
      | Some c =>
        ClearUpdated c ::
        match cell_at st c with
        | Ok ci => plan_active e ind ci
        | Error msg => [Abort msg]
        end
      end
    else if is_no_cell_type (type t) then [Activate ind]
    else []
  end.

(** All the stores of the pass, in order. *)
Definition full_plan (e : engine) (st : state) : list action :=
  seq 0 (length (tasks st)) ≫= plan e st.

(** ** What the pass never changes *)

Definition task_static (t : task) : task :=
  {| type := type t; subtype := subtype t;
     flags := if bool_decide (type t = task_type_sort) then 0 else flags t;
     wait := wait t; ci := ci t; cj := cj t; tight := tight t; skip := true |}.

Definition static (st : state) : state :=
  {| tasks := task_static <$> tasks st;
     cells := reset_updated <$> cells st;
     rebuild_space := 0 |}.

(** The task pointers of a cell lead to tasks of the matching type, and
    those of the link lists to send tasks. *)
Definition has_type (st : state) (ty : task_type) (p : nat) : Prop :=
  forall t, tasks st !! p = Some t -> type t = ty.

Definition cell_wf (st : state) (c : cell) : Prop :=
  (forall p, sorts c = Some p -> has_type st task_type_sort p) /\
  (forall p, drift c = Some p -> has_type st task_type_drift p) /\
  (forall p, recv_xv c = Some p \/ recv_rho c = Some p \/ recv_ti c = Some p ->
             has_type st task_type_recv p) /\
  (forall p, p ∈ send_xv c \/ p ∈ send_rho c \/ p ∈ send_ti c ->
             has_type st task_type_send p).

Definition state_wf (st : state) : Prop :=
  forall i c, cells st !! i = Some c -> cell_wf st c.

(** ** What the pass decides *)

Definition task_cell (st : state) (p : option nat) : option cell :=
  c ← p; cells st !! c.

Definition cell_active (e : engine) (st : state) (p : option nat) : bool :=
  match task_cell st p with
  | Some c => cell_is_active c e
  | None => false
  end.

(** The tasks the pass activates on their own account. *)
Definition activated_directly (e : engine) (st : state) (t : task) : bool :=
  if is_single_cell_type (type t) || is_kick_drift_init_type (type t) ||
     bool_decide (type t = task_type_timestep)
  then cell_active e st (ci t)
  else if is_pair_type (type t)
  then cell_active e st (ci t) || cell_active e st (cj t)
  else is_no_cell_type (type t).

(** The pair tasks that ask for a rebuild. *)
Definition asks_rebuild (st : state) (t : task) : bool :=
  is_pair_type (type t) && tight t &&
  match task_cell st (ci t), task_cell st (cj t) with
  | Some ci, Some cj => too_much_movement ci cj
  | _, _ => false
  end.

#[local] Instance string_eq_dec : EqDecision string := String.string_dec.
#[global] Instance action_eq_dec : EqDecision action.
Proof. solve_decision. Defined.

(** The stores of [activate_super_drift]. *)
Definition plan_super_drift (st : state) (c : cell) : list action :=
  plan_with_cell st (super c) (fun super_c =>
    match drift super_c with
    | Some t => [Activate t]
    | None => [Abort "Drift task missing !"]
    end).

(** Stores whose [OrFlags] go to sort tasks only. *)
Definition targeted (st : state) (acts : list action) : Prop :=
  forall t bits, OrFlags t bits ∈ acts -> has_type st task_type_sort t.

Definition no_or_flags (acts : list action) : Prop :=
  forall t bits, OrFlags t bits ∉ acts.

(** The memory at the start of [engine_marktasks]: [int rebuild_space = 0]. *)
Definition cleared (st : state) : state :=
  {| tasks := tasks st; cells := cells st; rebuild_space := 0 |}.

(** What one store does to the task at index [j]. *)
Definition act_on_task (j : nat) (t : task) (a : action) : task :=
  match a with
  | Activate i => if decide (i = j) then set_skip false t else t
  | OrFlags i bits => if decide (i = j) then or_flags bits t else t
  | _ => t
  end.

Definition wants_rebuild (acts : list action) : bool :=
  existsb (fun a => match a with Rebuild => true | _ => false end) acts.

(** A store that the memory [st] has taken already: doing it again changes
    nothing (but for [Rebuild], which sets the flag). *)
Definition absorbed (a : action) (st : state) : Prop :=
  match a with
  | Activate j => exists t, tasks st !! j = Some t /\ skip t = false
  | OrFlags j bits =>
    exists t, tasks st !! j = Some t /\ Z.lor (flags t) bits = flags t
  | ClearUpdated c => exists c0, cells st !! c = Some c0 /\ reset_updated c0 = c0
  | Rebuild => True
  | Abort _ => False
  end.

Definition performed (st' : state) (acts : list action) : Prop :=
  forall a, a ∈ acts -> absorbed a st'.

(** The types of the tasks that the pass activates on behalf of a
    pair-density task. *)
Definition is_link_type (ty : task_type) : bool :=
  bool_decide (ty = task_type_sort \/ ty = task_type_send \/
               ty = task_type_recv \/ ty = task_type_drift).

(** A density task on a pair of cells one of which is active. *)
Definition pair_density_active (e : engine) (st : state) (t : task) : bool :=
  is_pair_type (type t) && bool_decide (subtype t = task_subtype_density) &&
  (cell_active e st (ci t) || cell_active e st (cj t)).

(** ** The tasks that a density pair wakes

    The sort task of the cell [c] of the task [t]: woken if [t] is of type
    pair and the cell is not yet sorted along the axis of [t]. *)
Definition wakes_sort (t : task) (c : cell) (j : nat) : Prop :=
  type t = task_type_pair /\
  Z.land (sorted c) (Z.shiftl 1 (flags t)) = 0 /\
  sorts c = Some j.

(** The tasks that bring the foreign cell [cf] here and send the local cell
    [cl] to the node of [cf]: the recv_xv task of [cf], the send_xv task of
    the first link of [cl] towards that node and the drift task of the super
    cell of [cl]; the recv_rho and recv_ti tasks of [cf] if [cf] is active;
    the send_rho and send_ti tasks of [cl] towards the node if [cl] is
    active. *)
Definition wakes_send_recv (e : engine) (st : state) (cf cl : cell)
    (j : nat) : Prop :=
  recv_xv cf = Some j \/
  (cell_is_active cf e = true /\
   (recv_rho cf = Some j \/ recv_ti cf = Some j)) \/
  find_link st (send_xv cl) (nodeID cf) = Ok (Some j) \/
  (exists sc, task_cell st (super cl) = Some sc /\ drift sc = Some j) \/
  (cell_is_active cl e = true /\
   (find_link st (send_rho cl) (nodeID cf) = Ok (Some j) \/
    find_link st (send_ti cl) (nodeID cf) = Ok (Some j))).

(** The task [j] is woken on behalf of the task [t]: [t] is a density task
    on a pair of cells one of which is active, and [j] is the sort task of
    one of the two cells or, with MPI, one of the send and recv tasks for
    the foreign cell of the pair, which is [ci] if [ci] is foreign. *)
Definition wakes (e : engine) (st : state) (t : task) (j : nat) : Prop :=
  pair_density_active e st t = true /\
  exists ci cj,
    task_cell st (Sched.ci t) = Some ci /\
    task_cell st (Sched.cj t) = Some cj /\
    (wakes_sort t ci j \/ wakes_sort t cj j \/
     with_mpi e = true /\
     (nodeID ci <> engine_rank e /\ wakes_send_recv e st ci cj j \/
      nodeID ci = engine_rank e /\ nodeID cj <> engine_rank e /\
      wakes_send_recv e st cj ci j)).

(** ** What the pass leaves

    [activated st' p]: the task that [p] points to is not skipped in [st']. *)
Definition activated (st' : state) (p : option nat) : Prop :=
  exists j t, p = Some j /\ tasks st' !! j = Some t /\ skip t = false.

(** The sort task of [c] is active and has the bits [bit] in its flags. *)
Definition sort_requested (st' : state) (c : cell) (bit : Z) : Prop :=
  exists j t, sorts c = Some j /\ tasks st' !! j = Some t /\
              skip t = false /\ Z.land (flags t) bit = bit.

(** The send task towards [node] of a link list is active. *)
Definition link_activated (st st' : state) (links : list nat) (node : Z)
  : Prop :=
  exists l, find_link st links node = Ok (Some l) /\ activated st' (Some l).

(** The tasks that bring the foreign cell [cf] here and send the local cell
    [cl] to the node of [cf]. *)
Definition send_recv_activated (e : engine) (st st' : state) (cf cl : cell)
  : Prop :=
  activated st' (recv_xv cf) /\
  (cell_is_active cf e = true ->
   activated st' (recv_rho cf) /\ activated st' (recv_ti cf)) /\
  link_activated st st' (send_xv cl) (nodeID cf) /\
  (exists sc, task_cell st (super cl) = Some sc /\ activated st' (drift sc)) /\
  (cell_is_active cl e = true ->
   link_activated st st' (send_rho cl) (nodeID cf) /\
   link_activated st st' (send_ti cl) (nodeID cf)).

Definition task_active (st : state) (i : nat) : bool :=
  match tasks st !! i with
  | Some t => negb (skip t)
  | None => false
  end.

(** The set of active tasks, as the list of their indices. *)
Definition active_tasks (st : state) : list nat :=
  filter (fun i => task_active st i = true) (seq 0 (length (tasks st))).

(** [state_wf], decided. *)
Definition has_typeb (st : state) (ty : task_type) (p : nat) : bool :=
  match tasks st !! p with
  | Some t => bool_decide (type t = ty)
  | None => true
  end.

Definition cell_wfb (st : state) (c : cell) : bool :=
  forallb (has_typeb st task_type_sort) (option_list (sorts c)) &&
  forallb (has_typeb st task_type_drift) (option_list (drift c)) &&
  forallb (has_typeb st task_type_recv)
    (option_list (recv_xv c) ++ option_list (recv_rho c) ++
     option_list (recv_ti c)) &&
  forallb (has_typeb st task_type_send)
    (send_xv c ++ send_rho c ++ send_ti c).

Definition state_wfb (st : state) : bool := forallb (cell_wfb st) (cells st).

End marktasks.

(** ** A memory to run the pass on

    Doubles and floats as binary64 numbers, [max] as the macro
    [a > b ? a : b]; the value of [space_maxreldx] is an example. *)
Definition c_max (a b : float) : float := if (b <? a)%float then a else b.
Definition c_gt (a b : float) : bool := (b <? a)%float.
Definition example_maxreldx : float := 0.25%float.

(** Two cells, the first foreign (on node 1) and active at time 8, the second
    local and inactive; tasks: 0 the density pair of the two cells along
    axis 4, 1 and 2 their sorts, 3 to 5 the recv tasks of the first cell,
    6 to 8 the send tasks of the second towards node 1, 9 its drift,
    10 its density self, 11 a kick1 of the first cell, 12 a grav_fft,
    13 the timestep of the second cell. *)
Definition example_memory (tight0 : bool) (dx0 : float) (sorted0 : Z)
  : state (real := float) :=
  {| tasks :=
       [ mk_task task_type_pair task_subtype_density 4 (Some 0%nat) (Some 1%nat) tight0;
         mk_task task_type_sort task_subtype_none 0 (Some 0%nat) None false;
         mk_task task_type_sort task_subtype_none 0 (Some 1%nat) None false;
         mk_task task_type_recv task_subtype_xv 0 (Some 0%nat) None false;
         mk_task task_type_recv task_subtype_rho 0 (Some 0%nat) None false;
         mk_task task_type_recv task_subtype_tend 0 (Some 0%nat) None false;
         mk_task task_type_send task_subtype_xv 0 (Some 1%nat) (Some 0%nat) false;
         mk_task task_type_send task_subtype_rho 0 (Some 1%nat) (Some 0%nat) false;
         mk_task task_type_send task_subtype_tend 0 (Some 1%nat) (Some 0%nat) false;
         mk_task task_type_drift task_subtype_none 0 (Some 1%nat) None false;
         mk_task task_type_self task_subtype_density 0 (Some 1%nat) None false;
         mk_task task_type_kick1 task_subtype_none 0 (Some 0%nat) None false;
         mk_task task_type_grav_fft task_subtype_none 0 None None false;
         mk_task task_type_timestep task_subtype_none 0 (Some 1%nat) None false ];
     cells :=
       [ {| ti_end_min := 8; h_max := 1%float; dx_max := dx0; dmin := 4%float;
            sorted := sorted0; sorts := Some 1%nat; nodeID := 1;
            super := Some 0%nat; drift := None;
            recv_xv := Some 3%nat; recv_rho := Some 4%nat; recv_ti := Some 5%nat;
            send_xv := []; send_rho := []; send_ti := [];
            updated := 3; g_updated := 0; s_updated := 0 |};
         {| ti_end_min := 16; h_max := 1%float; dx_max := 0%float;
            dmin := 4%float;
            sorted := 0; sorts := Some 2%nat; nodeID := 0;
            super := Some 1%nat; drift := Some 9%nat;
            recv_xv := None; recv_rho := None; recv_ti := None;
            send_xv := [6%nat]; send_rho := [7%nat]; send_ti := [8%nat];
            updated := 5; g_updated := 1; s_updated := 2 |} ];
     rebuild_space := 0 |}.

Definition example_engine : engine :=
  {| ti_current := 8; engine_rank := 0; with_mpi := true |}.

Definition example_marktasks (st : state (real := float))
  : result (Z * state (real := float)) :=
  engine_marktasks c_max PrimFloat.add PrimFloat.mul c_gt example_maxreldx
    example_engine st.

(** The memory that the pass leaves. *)
Definition marked (st : state (real := float)) : state (real := float) :=
  match example_marktasks st with
  | Ok (_, st') => st'
  | Error _ => st
  end.

End Marktasks.

(* ===================================================================== *)
(** * Construction of the task graph: hierarchical tasks and hydro loops *)
(* ===================================================================== *)

Module Taskgraph.
Import Sched.

(** The bits of [e->policy] are fixed by [engine.h], which is not part of
    the sources at hand: they are parameters. *)
Class policies : Type := {
  engine_policy_hydro : Z;
  engine_policy_cooling : Z;
  engine_policy_sourceterms : Z
}.

(** The fields of [struct cell] that the construction of the task graph
    reads or writes. Cells live in one array and are referred to by index;
    [gradient] and [force] are the link lists of that name, head first. *)
Record cell : Type := {
  nodeID : Z;
  super : option nat;
  split : bool;
  progeny : list (option nat);
  init : option nat;
  kick1 : option nat;
  kick2 : option nat;
  timestep : option nat;
  drift : option nat;
  ghost : option nat;
  extra_ghost : option nat;
  cooling : option nat;
  sourceterms : option nat;
  gradient : list nat;
  force : list nat
}.

(** What the construction needs of [struct engine]; [extra_hydro_loop]
    stands for [defined(EXTRA_HYDRO_LOOP)]. *)
Record engine : Type := {
  e_nodeID : Z;
  policy : Z;
  size_links : Z;
  extra_hydro_loop : bool
}.

(** The memory: the scheduler [e->sched], the cells and [e->nr_links]. *)
Record state : Type := {
  sched : scheduler;
  cells : list cell;
  nr_links : Z
}.

Definition set_init (p : option nat) (c : cell) : cell :=
  {| nodeID := nodeID c; super := super c; split := split c;
     progeny := progeny c; init := p; kick1 := kick1 c; kick2 := kick2 c;
     timestep := timestep c; drift := drift c; ghost := ghost c;
     extra_ghost := extra_ghost c; cooling := cooling c;
     sourceterms := sourceterms c; gradient := gradient c; force := force c |}.

Definition set_kick1 (p : option nat) (c : cell) : cell :=
  {| nodeID := nodeID c; super := super c; split := split c;
     progeny := progeny c; init := init c; kick1 := p; kick2 := kick2 c;
     timestep := timestep c; drift := drift c; ghost := ghost c;
     extra_ghost := extra_ghost c; cooling := cooling c;
     sourceterms := sourceterms c; gradient := gradient c; force := force c |}.

Definition set_kick2 (p : option nat) (c : cell) : cell :=
  {| nodeID := nodeID c; super := super c; split := split c;
     progeny := progeny c; init := init c; kick1 := kick1 c; kick2 := p;
     timestep := timestep c; drift := drift c; ghost := ghost c;
     extra_ghost := extra_ghost c; cooling := cooling c;
     sourceterms := sourceterms c; gradient := gradient c; force := force c |}.

Definition set_timestep (p : option nat) (c : cell) : cell :=
  {| nodeID := nodeID c; super := super c; split := split c;
     progeny := progeny c; init := init c; kick1 := kick1 c; kick2 := kick2 c;
     timestep := p; drift := drift c; ghost := ghost c;
     extra_ghost := extra_ghost c; cooling := cooling c;
     sourceterms := sourceterms c; gradient := gradient c; force := force c |}.

Definition set_drift (p : option nat) (c : cell) : cell :=
  {| nodeID := nodeID c; super := super c; split := split c;
     progeny := progeny c; init := init c; kick1 := kick1 c; kick2 := kick2 c;
     timestep := timestep c; drift := p; ghost := ghost c;
     extra_ghost := extra_ghost c; cooling := cooling c;
     sourceterms := sourceterms c; gradient := gradient c; force := force c |}.

Definition set_ghost (p : option nat) (c : cell) : cell :=
  {| nodeID := nodeID c; super := super c; split := split c;
     progeny := progeny c; init := init c; kick1 := kick1 c; kick2 := kick2 c;
     timestep := timestep c; drift := drift c; ghost := p;
     extra_ghost := extra_ghost c; cooling := cooling c;
     sourceterms := sourceterms c; gradient := gradient c; force := force c |}.

Definition set_extra_ghost (p : option nat) (c : cell) : cell :=
  {| nodeID := nodeID c; super := super c; split := split c;
     progeny := progeny c; init := init c; kick1 := kick1 c; kick2 := kick2 c;
     timestep := timestep c; drift := drift c; ghost := ghost c;
     extra_ghost := p; cooling := cooling c;
     sourceterms := sourceterms c; gradient := gradient c; force := force c |}.

Definition set_cooling (p : option nat) (c : cell) : cell :=
  {| nodeID := nodeID c; super := super c; split := split c;
     progeny := progeny c; init := init c; kick1 := kick1 c; kick2 := kick2 c;
     timestep := timestep c; drift := drift c; ghost := ghost c;
     extra_ghost := extra_ghost c; cooling := p;
     sourceterms := sourceterms c; gradient := gradient c; force := force c |}.

Definition set_sourceterms (p : option nat) (c : cell) : cell :=
  {| nodeID := nodeID c; super := super c; split := split c;
     progeny := progeny c; init := init c; kick1 := kick1 c; kick2 := kick2 c;
     timestep := timestep c; drift := drift c; ghost := ghost c;
     extra_ghost := extra_ghost c; cooling := cooling c;
     sourceterms := p; gradient := gradient c; force := force c |}.

Definition set_gradient (l : list nat) (c : cell) : cell :=
  {| nodeID := nodeID c; super := super c; split := split c;
     progeny := progeny c; init := init c; kick1 := kick1 c; kick2 := kick2 c;
     timestep := timestep c; drift := drift c; ghost := ghost c;
     extra_ghost := extra_ghost c; cooling := cooling c;
     sourceterms := sourceterms c; gradient := l; force := force c |}.

Definition set_force (l : list nat) (c : cell) : cell :=
  {| nodeID := nodeID c; super := super c; split := split c;
     progeny := progeny c; init := init c; kick1 := kick1 c; kick2 := kick2 c;
     timestep := timestep c; drift := drift c; ghost := ghost c;
     extra_ghost := extra_ghost c; cooling := cooling c;
     sourceterms := sourceterms c; gradient := gradient c; force := l |}.

Definition cell_at (st : state) (c : nat) : result cell :=
  match cells st !! c with
  | Some c => Ok c
  | None => Error "invalid cell pointer"
  end.

Definition task_at (st : state) (ind : nat) : result task :=
  match tasks (sched st) !! ind with
  | Some t => Ok t
  | None => Error "invalid task pointer"
  end.

(** A store [c->field = v], as the update [f] of the cell at [c]. *)
Definition set_cell (c : nat) (f : cell -> cell) (st : state) : result state :=
  match cells st !! c with
  | Some x => Ok {| sched := sched st; cells := <[c := f x]> (cells st);
                    nr_links := nr_links st |}
  | None => Error "invalid cell pointer"
  end.

(** [scheduler_addtask(s, ...)] and [scheduler_addunlock(s, ta, tb)] on the
    scheduler of the engine. *)
Definition addtask (st : state) (type : task_type) (subtype : task_subtype)
    (flags wait : Z) (ci cj : option nat) (tight : bool) : state * nat :=
  let '(s, t) := scheduler_addtask (sched st) type subtype flags wait ci cj
                   tight in
  ({| sched := s; cells := cells st; nr_links := nr_links st |}, t).

Definition addunlock (ta tb : option nat) (st : state) : state :=
  {| sched := scheduler_addunlock (sched st) ta tb; cells := cells st;
     nr_links := nr_links st |}.

(** [c->field = scheduler_addtask(s, type, task_subtype_none, 0, 0, c, NULL,
    0);] *)
Definition add_cell_task (type : task_type)
    (set_field : option nat -> cell -> cell) (c : nat) (st : state)
  : result state :=
  let '(st, t) := addtask st type task_subtype_none 0 0 (Some c) None false in
  set_cell c (set_field (Some t)) st.

(** [scheduler_addunlock(s, c->from, c->to);] *)
Definition add_cell_unlock (from to : cell -> option nat) (c : nat)
    (st : state) : result state :=
  cl ← cell_at st c;
  Ok (addunlock (from cl) (to cl) st).

Section taskgraph.
Context {P : policies}.

(** The body of [engine_make_hierarchical_tasks] for a local super cell. *)
Definition engine_make_hierarchical_tasks_local (e : engine) (c : nat)
    (st : state) : result state :=
  let is_hydro := Z.land (policy e) engine_policy_hydro in
  let is_with_cooling := Z.land (policy e) engine_policy_cooling in
  let is_with_sourceterms := Z.land (policy e) engine_policy_sourceterms in
  (* Add the init task. *)
  st ← add_cell_task task_type_init set_init c st;
  (* Add the two half kicks *)
  st ← add_cell_task task_type_kick1 set_kick1 c st;
  st ← add_cell_task task_type_kick2 set_kick2 c st;
  (* Add the time-step calculation task and its dependency *)
  st ← add_cell_task task_type_timestep set_timestep c st;
  st ← add_cell_unlock kick2 timestep c st;
  (* Add the drift task and its dependencies. *)
  st ← add_cell_task task_type_drift set_drift c st;
  st ← add_cell_unlock kick1 drift c st;
  st ← add_cell_unlock drift init c st;
  (* Generate the ghost task. *)
  st ← (if truthy is_hydro
        then add_cell_task task_type_ghost set_ghost c st else Ok st);
  (* Generate the extra ghost task. *)
  st ← (if extra_hydro_loop e && truthy is_hydro
        then add_cell_task task_type_extra_ghost set_extra_ghost c st
        else Ok st);
  (* Cooling task *)
  st ← (if truthy is_with_cooling then
          st ← add_cell_task task_type_cooling set_cooling c st;
          add_cell_unlock cooling kick2 c st
        else Ok st);
  (* add source terms *)
  if truthy is_with_sourceterms
  then add_cell_task task_type_sourceterms set_sourceterms c st
  else Ok st.

(** [void engine_make_hierarchical_tasks(struct engine *e, struct cell *c)];
    [depth] bounds the depth of the recursion. *)
Fixpoint engine_make_hierarchical_tasks (depth : nat) (e : engine) (c : nat)
    (st : state) : result state :=
  match depth with
  | O => Error "recursion too deep"
  | S depth =>
    cl ← cell_at st c;
    (* Are we in a super-cell ? *)
    if bool_decide (super cl = Some c) then
      (* Local tasks only... *)
      if nodeID cl =? e_nodeID e
      then engine_make_hierarchical_tasks_local e c st
      else Ok st
    else
      (* We are above the super-cell so need to go deeper. Recurse. *)
      if split cl then
        foldl (fun st k =>
                 st ← st;
                 match k with
                 | Some p => engine_make_hierarchical_tasks depth e p st
                 | None => Ok st
                 end) (Ok st) (progeny cl)
      else Ok st
  end.

(** [for (int k = 0; k < nr_cells; k++)
       engine_make_hierarchical_tasks(e, &cells[k]);] of [engine_maketasks]. *)
Definition engine_make_hierarchical_tasks_top (depth : nat) (e : engine)
    (nr_cells : nat) (st : state) : result state :=
  foldl (fun st k => st ← st; engine_make_hierarchical_tasks depth e k st)
        (Ok st) (seq 0 nr_cells).

(** [void engine_addlink(struct engine *e, struct link **l, struct task *t)]
    for the link list [field] of the cell [c]. *)
Definition engine_addlink (e : engine) (field : cell -> list nat)
    (set_field : list nat -> cell -> cell) (c : nat) (t : nat) (st : state)
  : result state :=
  (* Get the next free link. *)
  let ind := nr_links st in
  let st := {| sched := sched st; cells := cells st;
               nr_links := nr_links st + 1 |} in
  if size_links e <=? ind then Error "Link table overflow."
  else
    cl ← cell_at st c;
    set_cell c (set_field (t :: field cl)) st.

(** [engine_make_hydro_loops_dependencies], the version without
    [EXTRA_HYDRO_LOOP]. *)
Definition engine_make_hydro_loops_dependencies (density force : nat)
    (c : nat) (with_cooling : Z) (st : state) : result state :=
  cl ← cell_at st c;
  super_c ← deref (super cl);
  super_c ← cell_at st super_c;
  (* init --> density loop --> ghost --> force loop *)
  let st := addunlock (init super_c) (Some density) st in
  let st := addunlock (Some density) (ghost super_c) st in
  let st := addunlock (ghost super_c) (Some force) st in
  if truthy with_cooling then
    (* force loop --> cooling (--> kick2) *)
    Ok (addunlock (Some force) (cooling super_c) st)
  else
    (* force loop --> kick2 *)
    Ok (addunlock (Some force) (kick2 super_c) st).

(** [engine_make_hydro_loops_dependencies], the version with
    [EXTRA_HYDRO_LOOP]. *)
Definition engine_make_hydro_loops_dependencies_extra
    (density gradient force : nat) (c : nat) (with_cooling : Z) (st : state)
  : result state :=
  cl ← cell_at st c;
  super_c ← deref (super cl);
  super_c ← cell_at st super_c;
  (* init --> density loop --> ghost --> gradient loop --> extra_ghost *)
  (* extra_ghost --> force loop *)
  let st := addunlock (init super_c) (Some density) st in
  let st := addunlock (Some density) (ghost super_c) st in
  let st := addunlock (ghost super_c) (Some gradient) st in
  let st := addunlock (Some gradient) (extra_ghost super_c) st in
  let st := addunlock (extra_ghost super_c) (Some force) st in
  if truthy with_cooling then
    (* force loop --> cooling (--> kick2) *)
    Ok (addunlock (Some force) (cooling super_c) st)
  else
    (* force loop --> kick2 *)
    Ok (addunlock (Some force) (kick2 super_c) st).

(** The second (and, with [EXTRA_HYDRO_LOOP], third) hydro loop for the
    density task [t] at index [ind], as the four branches of
    [engine_make_extra_hydroloop_tasks] build it: the new tasks take the
    flags [fl] and the second cell [cj2]; [both] tells whether the links and
    the dependencies are also built for [t->cj], and [local_only] whether
    those of [t->ci] are built only if [t->ci] is local. *)
Definition second_hydro_loop (e : engine) (ind : nat) (t : task) (fl : Z)
    (cj2 : option nat) (both local_only : bool) (st : state) : result state :=
  let with_cooling := Z.land (policy e) engine_policy_cooling in
  if extra_hydro_loop e then
    (* Start by constructing the task for the second and third hydro loop *)
    let '(st, t2) := addtask st (type t) task_subtype_gradient fl 0 (ci t) cj2
                       false in
    let '(st, t3) := addtask st (type t) task_subtype_force fl 0 (ci t) cj2
                       false in
    (* Add the link between the new loop and the cells *)
    ci ← deref (ci t);
    st ← engine_addlink e gradient set_gradient ci t2 st;
    st ← (if both then
            cj ← deref (cj t); engine_addlink e gradient set_gradient cj t2 st
          else Ok st);
    st ← engine_addlink e force set_force ci t3 st;
    st ← (if both then
            cj ← deref (cj t); engine_addlink e force set_force cj t3 st
          else Ok st);
    (* Now, build all the dependencies for the hydro for the cells that are
       local and are not descendant of the same super-cells *)
    ci_c ← cell_at st ci;
    st ← (if negb local_only || (nodeID ci_c =? e_nodeID e) then
            engine_make_hydro_loops_dependencies_extra ind t2 t3 ci
              with_cooling st
          else Ok st);
    if both then
      cj ← deref (cj t);
      cj_c ← cell_at st cj;
      if (nodeID cj_c =? e_nodeID e) &&
         negb (bool_decide (super ci_c = super cj_c)) then
        engine_make_hydro_loops_dependencies_extra ind t2 t3 cj
          with_cooling st
      else Ok st
    else Ok st
  else
    (* Start by constructing the task for the second hydro loop *)
    let '(st, t2) := addtask st (type t) task_subtype_force fl 0 (ci t) cj2
                       false in
    (* Add the link between the new loop and the cells *)
    ci ← deref (ci t);
    st ← engine_addlink e force set_force ci t2 st;
    st ← (if both then
            cj ← deref (cj t); engine_addlink e force set_force cj t2 st
          else Ok st);
    (* Now, build all the dependencies for the hydro for the cells that are
       local and are not descendant of the same super-cells *)
    ci_c ← cell_at st ci;
    st ← (if negb local_only || (nodeID ci_c =? e_nodeID e) then
            engine_make_hydro_loops_dependencies ind t2 ci with_cooling st
          else Ok st);
    if both then
      cj ← deref (cj t);
      cj_c ← cell_at st cj;
      if (nodeID cj_c =? e_nodeID e) &&
         negb (bool_decide (super ci_c = super cj_c)) then
        engine_make_hydro_loops_dependencies ind t2 cj with_cooling st
      else Ok st
    else Ok st.

(** The body of the loop of [engine_make_extra_hydroloop_tasks] for the
    task at index [ind]. *)
Definition engine_make_extra_hydroloop_tasks_task (e : engine) (ind : nat)
    (st : state) : result state :=
  t ← task_at st ind;
  let density := bool_decide (subtype t = task_subtype_density) in
  (* Self-interaction? *)
  if bool_decide (type t = task_type_self) && density then
    second_hydro_loop e ind t 0 None false false st
  (* Otherwise, pair interaction? *)
  else if bool_decide (type t = task_type_pair) && density then
    second_hydro_loop e ind t 0 (cj t) true true st
  (* Otherwise, sub-self interaction? *)
  else if bool_decide (type t = task_type_sub_self) && density then
    second_hydro_loop e ind t (flags t) (cj t) false true st
  (* Otherwise, sub-pair interaction? *)
  else if bool_decide (type t = task_type_sub_pair) && density then
    second_hydro_loop e ind t (flags t) (cj t) true true st
  else Ok st.

(** [void engine_make_extra_hydroloop_tasks(struct engine *e)] *)
Definition engine_make_extra_hydroloop_tasks (e : engine) (st : state)
  : result state :=
  let nr_tasks := length (tasks (sched st)) in
  foldl (fun st ind => st ← st; engine_make_extra_hydroloop_tasks_task e ind st)
        (Ok st) (seq 0 nr_tasks).

(** ** The hierarchical tasks of a cell, in closed form *)

(** The types of the tasks that [engine_make_hierarchical_tasks] gives a
    local super cell, in the order of their creation. *)
Definition hier_types (e : engine) : list task_type :=
  [task_type_init; task_type_kick1; task_type_kick2; task_type_timestep;
   task_type_drift] ++
  (if truthy (Z.land (policy e) engine_policy_hydro)
   then [task_type_ghost] else []) ++
  (if extra_hydro_loop e && truthy (Z.land (policy e) engine_policy_hydro)
   then [task_type_extra_ghost] else []) ++
  (if truthy (Z.land (policy e) engine_policy_cooling)
   then [task_type_cooling] else []) ++
  (if truthy (Z.land (policy e) engine_policy_sourceterms)
   then [task_type_sourceterms] else []).

(** The task [scheduler_addtask(s, ty, task_subtype_none, 0, 0, c, NULL, 0)]. *)
Definition cell_task (c : nat) (ty : task_type) : task :=
  {| type := ty; subtype := task_subtype_none; flags := 0; wait := 0;
     ci := Some c; cj := None; tight := false; skip := true |}.

(** The hierarchical tasks of the cell [c], in the order of their creation. *)
Definition hier_tasks (e : engine) (c : nat) : list task :=
  cell_task c <$> hier_types e.

(** The policy of the engine, as truth values. *)
Definition with_hydro (e : engine) : bool :=
  truthy (Z.land (policy e) engine_policy_hydro).
Definition with_extra_ghost (e : engine) : bool :=
  extra_hydro_loop e && truthy (Z.land (policy e) engine_policy_hydro).
Definition with_cooling (e : engine) : bool :=
  truthy (Z.land (policy e) engine_policy_cooling).
Definition with_sourceterms (e : engine) : bool :=
  truthy (Z.land (policy e) engine_policy_sourceterms).

Definition b2n (b : bool) : nat := if b then 1%nat else 0%nat.

(** The cell [c] with the pointers to its hierarchical tasks, when the task
    array has [n] tasks before they are added. *)
Definition hier_cell (e : engine) (n : nat) (c : cell) : cell :=
  {| nodeID := nodeID c; super := super c; split := split c;
     progeny := progeny c;
     init := Some n;
     kick1 := Some (n + 1)%nat;
     kick2 := Some (n + 2)%nat;
     timestep := Some (n + 3)%nat;
     drift := Some (n + 4)%nat;
     ghost := if with_hydro e then Some (n + 5)%nat else ghost c;
     extra_ghost :=
       if with_extra_ghost e then Some (n + 5 + b2n (with_hydro e))%nat
       else extra_ghost c;
     cooling :=
       if with_cooling e
       then Some (n + 5 + b2n (with_hydro e) + b2n (with_extra_ghost e))%nat
       else cooling c;
     sourceterms :=
       if with_sourceterms e
       then Some (n + 5 + b2n (with_hydro e) + b2n (with_extra_ghost e) +
                  b2n (with_cooling e))%nat
       else sourceterms c;
     gradient := gradient c; force := force c |}.

(** The unlock edges between the hierarchical tasks of a cell, in the order
    of their creation. *)
Definition hier_unlocks (e : engine) (n : nat) (c : cell)
  : list (option nat * option nat) :=
  [(kick2 (hier_cell e n c), timestep (hier_cell e n c));
   (kick1 (hier_cell e n c), drift (hier_cell e n c));
   (drift (hier_cell e n c), init (hier_cell e n c))] ++
  (if with_cooling e
   then [(cooling (hier_cell e n c), kick2 (hier_cell e n c))] else []).

(** The memory that [engine_make_hierarchical_tasks_local e c] leaves, [cl]
    being the cell at [c] before. *)
Definition hier_state (e : engine) (c : nat) (cl : cell) (st : state) : state :=
  let n := length (tasks (sched st)) in
  {| sched := {| tasks := tasks (sched st) ++ hier_tasks e c;
                 unlocks := unlocks (sched st) ++ hier_unlocks e n cl |};
     cells := <[c := hier_cell e n cl]> (cells st);
     nr_links := nr_links st |}.

(** ** The recursion over the cells *)

(** The part of a cell that the construction never writes. *)
Record shape : Type := {
  s_nodeID : Z;
  s_super : option nat;
  s_split : bool;
  s_progeny : list (option nat)
}.

Definition shape_of (c : cell) : shape :=
  {| s_nodeID := nodeID c; s_super := super c; s_split := split c;
     s_progeny := progeny c |}.

Definition shapes (st : state) : list shape := shape_of <$> cells st.

(** The local super cells that [engine_make_hierarchical_tasks] reaches from
    the cell [c], in the order in which it reaches them. *)
Fixpoint super_cells (depth : nat) (e : engine) (shs : list shape) (c : nat)
  : result (list nat) :=
  match depth with
  | O => Error "recursion too deep"
  | S depth =>
    match shs !! c with
    | None => Error "invalid cell pointer"
    | Some sh =>
      if bool_decide (s_super sh = Some c) then
        Ok (if s_nodeID sh =? e_nodeID e then [c] else [])
      else if s_split sh then
        foldl (fun acc k =>
                 acc ← acc;
                 match k with
                 | Some p => vs ← super_cells depth e shs p; Ok (acc ++ vs)
                 | None => Ok acc
                 end) (Ok []) (s_progeny sh)
      else Ok []
    end
  end.

Definition super_cells_top (depth : nat) (e : engine) (shs : list shape)
    (nr_cells : nat) : result (list nat) :=
  foldl (fun acc k => acc ← acc; vs ← super_cells depth e shs k; Ok (acc ++ vs))
        (Ok []) (seq 0 nr_cells).

(** One step of the loop over the progeny in [super_cells]. *)
Definition cells_step (depth : nat) (e : engine) (shs : list shape)
    (acc : result (list nat)) (k : option nat) : result (list nat) :=
  acc ← acc;
  match k with
  | Some p => vs ← super_cells depth e shs p; Ok (acc ++ vs)
  | None => Ok acc
  end.

(** The hierarchical tasks of the cells [vs], one cell after the other. *)
Definition run_local (e : engine) (vs : list nat) (st : state) : result state :=
  foldl (fun st v => st ← st; engine_make_hierarchical_tasks_local e v st)
        (Ok st) vs.

(** A hierarchy of cells of height at most [n] below the cell [c], with
    valid progeny pointers. *)
Inductive height_le (shs : list shape) : nat -> nat -> Prop :=
| height_le_stop c sh n :
    shs !! c = Some sh ->
    s_super sh = Some c \/ s_split sh = false ->
    height_le shs c n
| height_le_split c sh n :
    shs !! c = Some sh ->
    (forall p, Some p ∈ s_progeny sh -> height_le shs p n) ->
    height_le shs c (S n).

(** [reaches shs c d]: the recursion started at [c] gets to [d], through
    split cells that are not super cells. *)
Inductive reaches (shs : list shape) : nat -> nat -> Prop :=
| reaches_here c : reaches shs c c
| reaches_down c sh p d :
    shs !! c = Some sh -> s_super sh <> Some c -> s_split sh = true ->
    Some p ∈ s_progeny sh -> reaches shs p d ->
    reaches shs c d.

Definition local_super (e : engine) (shs : list shape) (c : nat) : Prop :=
  exists sh, shs !! c = Some sh /\ s_super sh = Some c /\
             s_nodeID sh = e_nodeID e.

(** ** What the construction leaves *)

(** The pointer of a cell to its task of type [ty]. *)
Definition field_of (ty : task_type) (c : cell) : option nat :=
  match ty with
  | task_type_init => init c
  | task_type_kick1 => kick1 c
  | task_type_kick2 => kick2 c
  | task_type_timestep => timestep c
  | task_type_drift => drift c
  | task_type_ghost => ghost c
  | task_type_extra_ghost => extra_ghost c
  | task_type_cooling => cooling c
  | task_type_sourceterms => sourceterms c
  | _ => None
  end.

Definition is_hier_type (ty : task_type) : bool :=
  bool_decide (ty ∈ [task_type_init; task_type_kick1; task_type_kick2;
                     task_type_timestep; task_type_drift; task_type_ghost;
                     task_type_extra_ghost; task_type_cooling;
                     task_type_sourceterms]).

(** The number of tasks of type [ty] on the cell [c]. *)
Definition count_tasks (st : state) (ty : task_type) (c : nat) : nat :=
  length (filter (fun t => type t = ty /\ ci t = Some c) (tasks (sched st))).

(** The cell [c] carries exactly one task of type [ty], and points to it. *)
Definition carries (st : state) (c : nat) (ty : task_type) : Prop :=
  count_tasks st ty c = 1%nat /\
  exists cl i t, cells st !! c = Some cl /\ field_of ty cl = Some i /\
                 tasks (sched st) !! i = Some t /\
                 type t = ty /\ ci t = Some c.

Definition unlocked (st : state) (ta tb : option nat) : Prop :=
  (ta, tb) ∈ unlocks (sched st).

(** The hierarchical tasks of the cell [c] and their unlock edges. *)
Definition hierarchical_tasks_of (e : engine) (st : state) (c : nat) : Prop :=
  (forall ty, ty ∈ hier_types e -> carries st c ty) /\
  (forall ty, is_hier_type ty = true -> ty ∉ hier_types e ->
              count_tasks st ty c = 0%nat) /\
  exists cl, cells st !! c = Some cl /\
    unlocked st (kick1 cl) (drift cl) /\ unlocked st (drift cl) (init cl) /\
    unlocked st (kick2 cl) (timestep cl) /\
    (with_cooling e = true -> unlocked st (cooling cl) (kick2 cl)).

(** The cell without its link lists, which is what
    [engine_make_extra_hydroloop_tasks] leaves of a cell. *)
Definition unlinked (c : cell) : cell := set_gradient [] (set_force [] c).

(** Memory that has grown: tasks and unlock edges were added at the end,
    and the cells changed in their link lists only. *)
Definition extends (st st' : state) : Prop :=
  (exists new, tasks (sched st') = tasks (sched st) ++ new /\
               Forall (fun t => is_hier_type (type t) = false) new) /\
  (exists more, unlocks (sched st') = unlocks (sched st) ++ more) /\
  unlinked <$> cells st' = unlinked <$> cells st.

(** The cell [c] is on this node. *)
Definition local (e : engine) (st : state) (c : nat) : Prop :=
  exists cl, cells st !! c = Some cl /\ nodeID cl = e_nodeID e.

Definition super_of (st : state) (c : option nat) : option nat :=
  c ← c; cl ← cells st !! c; super cl.

(** The cells on behalf of which the dependencies of the density task [t]
    are built: its first cell if the task is a self or the cell is local,
    and its second cell if the task is a pair or sub_pair, the cell is local
    and does not have the super cell of the first. *)
Definition serves (e : engine) (st : state) (t : task) (c : nat) : Prop :=
  (ci t = Some c /\ (type t = task_type_self \/ local e st c)) \/
  (cj t = Some c /\ (type t = task_type_pair \/ type t = task_type_sub_pair) /\
   local e st c /\ super_of st (ci t) <> super_of st (cj t)).

(** The unlock edges that put the tasks [density], [gradient] (with
    [EXTRA_HYDRO_LOOP]) and [force] on the chain of the super cell of [c]. *)
Definition chain (e : engine) (st : state) (c density gradient force : nat)
  : Prop :=
  exists cl sc scl,
    cells st !! c = Some cl /\ super cl = Some sc /\
    cells st !! sc = Some scl /\
    unlocked st (init scl) (Some density) /\
    unlocked st (Some density) (ghost scl) /\
    (if extra_hydro_loop e
     then unlocked st (ghost scl) (Some gradient) /\
          unlocked st (Some gradient) (extra_ghost scl) /\
          unlocked st (extra_ghost scl) (Some force)
     else unlocked st (ghost scl) (Some force)) /\
    (if with_cooling e
     then unlocked st (Some force) (cooling scl)
     else unlocked st (Some force) (kick2 scl)).

(** The task at [ind2] repeats the task [t] for the loop [sub]. *)
Definition loop_task (st : state) (t : task) (sub : task_subtype) (ind2 : nat)
  : Prop :=
  exists t2, tasks (sched st) !! ind2 = Some t2 /\ type t2 = type t /\
             subtype t2 = sub /\ ci t2 = ci t.

Definition is_density_loop (t : task) : bool :=
  bool_decide (type t = task_type_self \/ type t = task_type_pair \/
               type t = task_type_sub_self \/ type t = task_type_sub_pair) &&
  bool_decide (subtype t = task_subtype_density).

(** No local super cell is reached twice: the cells below the top cells
    form a forest. *)
Definition reached_once (depth : nat) (e : engine) (shs : list shape)
    (nr_cells : nat) : Prop :=
  forall vs, super_cells_top depth e shs nr_cells = Ok vs -> NoDup vs.

End taskgraph.

(** ** A hierarchy to build the graph on

    The values of the policy bits are examples. *)
Definition example_policies : policies :=
  {| engine_policy_hydro := 256; engine_policy_cooling := 8192;
     engine_policy_sourceterms := 16384 |}.

Definition mk_cell (nid : Z) (sup : option nat) (spl : bool)
    (prog : list (option nat)) : cell :=
  {| nodeID := nid; super := sup; split := spl; progeny := prog;
     init := None; kick1 := None; kick2 := None; timestep := None;
     drift := None; ghost := None; extra_ghost := None; cooling := None;
     sourceterms := None; gradient := []; force := [] |}.

(** A top cell, split into three super cells, the last of them foreign; the
    density tasks are the selfs of the two local cells and the pairs of
    neighbours. *)
Definition example_state : state :=
  {| sched :=
       {| tasks :=
            [ mk_task task_type_self task_subtype_density 0 (Some 1%nat) None false;
              mk_task task_type_pair task_subtype_density 3 (Some 1%nat) (Some 2%nat) true;
              mk_task task_type_pair task_subtype_density 5 (Some 2%nat) (Some 3%nat) true;
              mk_task task_type_self task_subtype_density 0 (Some 2%nat) None false ];
          unlocks := [] |};
     cells :=
       [ mk_cell 0 None true
           [Some 1%nat; Some 2%nat; Some 3%nat; None; None; None; None; None];
         mk_cell 0 (Some 1%nat) false (replicate 8 None);
         mk_cell 0 (Some 2%nat) false (replicate 8 None);
         mk_cell 1 (Some 3%nat) false (replicate 8 None) ];
     nr_links := 0 |}.

Definition example_engine (pol : Z) (extra : bool) : engine :=
  {| e_nodeID := 0; policy := pol; size_links := 64;
     extra_hydro_loop := extra |}.

(** The graph that the construction leaves on the example. *)
Definition example_graph (pol : Z) (extra : bool) : result state :=
  st ← engine_make_hierarchical_tasks_top (P := example_policies) 2
         (example_engine pol extra) 1 example_state;
  engine_make_extra_hydroloop_tasks (P := example_policies)
    (example_engine pol extra) st.

Definition example_built (pol : Z) (extra : bool) : state :=
  match example_graph pol extra with
  | Ok st => st
  | Error _ => example_state
  end.

End Taskgraph.

(* ===================================================================== *)
(** * Collection of the time-step data: [engine_collect_timestep] *)
(* ===================================================================== *)

Module Collect.

(** The fields of [struct cell] that the collection reads or writes. The
    cells below a top-level cell form a tree, each cell being the progeny of
    one cell only, so a cell carries its progeny: [progeny] lists the eight
    entries of the array [progeny[8]] in order, [None] for [NULL]. Of the
    task pointers [timestep] and [recv_ti] only whether they are [NULL]
    matters. The counters are C [int]s, whose sums wrap around
    ([wrap_int]), and the times [integertime_t]s. *)
Inductive cell : Type := Cell {
  timestep : option nat;
  recv_ti : option nat;
  count : Z;
  gcount : Z;
  scount : Z;
  ti_end_min : Z;
  updated : Z;
  g_updated : Z;
  s_updated : Z;
  progeny : list (option cell)
}.

(** What [engine_collect_timestep] stores in [struct engine]; the three
    counters are of type [size_t], as [engine_step] prints them with
    [%zu]. *)
Record engine : Type := {
  e_ti_end_min : Z;
  updates : Z;
  g_updates : Z;
  s_updates : Z
}.

(** The local variables [ti_end_min], [updated], [g_updated] and
    [s_updated] of the two functions. *)
Record counters : Type := {
  acc_ti_end_min : Z;
  acc_updated : Z;
  acc_g_updated : Z;
  acc_s_updated : Z
}.

(** The value of a C [int] (32 bits, two's complement) that a sum in [int]
    arithmetic leaves: the sum, wrapped around. *)
Definition wrap_int (z : Z) : Z := (z + 2 ^ 31) mod 2 ^ 32 - 2 ^ 31.

(** The conversion of an integer to [size_t] (64 bits, unsigned). *)
Definition to_size_t (z : Z) : Z := z mod 2 ^ 64.

(** [cp->count > 0 || cp->gcount > 0 || cp->scount > 0] *)
Definition has_particles (c : cell) : bool :=
  (0 <? count c) || (0 <? gcount c) || (0 <? scount c).

(** [cp->updated = 0; cp->g_updated = 0; cp->s_updated = 0;] *)
Definition clear_updated (c : cell) : cell :=
  {| timestep := timestep c; recv_ti := recv_ti c; count := count c;
     gcount := gcount c; scount := scount c; ti_end_min := ti_end_min c;
     updated := 0; g_updated := 0; s_updated := 0; progeny := progeny c |}.

(** [ti_end_min = min(ti_end_min, cp->ti_end_min); updated += cp->updated;
     g_updated += cp->g_updated; s_updated += cp->s_updated;] *)
Definition add_cell (acc : counters) (cp : cell) : counters :=
  {| acc_ti_end_min := Z.min (acc_ti_end_min acc) (ti_end_min cp);
     acc_updated := wrap_int (acc_updated acc + updated cp);
     acc_g_updated := wrap_int (acc_g_updated acc + g_updated cp);
     acc_s_updated := wrap_int (acc_s_updated acc + s_updated cp) |}.

Section collect.
(** [max_nr_timesteps] is fixed by [timeline.h], which is not part of the
    sources at hand; [with_mpi] stands for [defined(WITH_MPI)]. *)
Context (max_nr_timesteps : Z) (with_mpi : bool).

Definition no_counters : counters :=
  {| acc_ti_end_min := max_nr_timesteps; acc_updated := 0;
     acc_g_updated := 0; acc_s_updated := 0 |}.

(** [c->timestep != NULL || c->recv_ti != NULL], the latter with MPI only. *)
Definition is_super (c : cell) : bool :=
  bool_decide (timestep c <> None) ||
  (with_mpi && bool_decide (recv_ti c <> None)).

(** [void engine_collect_kick(struct cell *c)]: the cell as the call leaves
    it. The loop over the progeny threads the counters and the progeny
    dealt with so far. *)
Fixpoint engine_collect_kick (c : cell) : cell :=
  (* Skip super-cells (Their values are already set) *)
  if is_super c then c
  else
    (* Collect the values from the progeny. *)
    let '(acc, progeny) :=
      foldl (fun '(acc, done) k =>
               match k with
               | Some cp =>
                 if has_particles cp then
                   (* Recurse *)
                   let cp := engine_collect_kick cp in
                   (* And update; collected, so clear for next time. *)
                   (add_cell acc cp, done ++ [Some (clear_updated cp)])
                 else (acc, done ++ [Some cp])
               | None => (acc, done ++ [None])
               end)
            (no_counters, []) (progeny c) in
    (* Store the collected values in the cell. *)
    {| timestep := timestep c; recv_ti := recv_ti c; count := count c;
       gcount := gcount c; scount := scount c;
       ti_end_min := acc_ti_end_min acc;
       updated := acc_updated acc;
       g_updated := acc_g_updated acc;
       s_updated := acc_s_updated acc;
       progeny := progeny |}.

(** [MPI_Allreduce] with [MPI_MIN] on one and [MPI_SUM] on three integers
    of type [long long]: what comes back depends on the other nodes. *)
Context (allreduce_min : Z -> result Z)
        (allreduce_sum : Z * Z * Z -> result (Z * Z * Z)).

(** [void engine_collect_timestep(struct engine *e)] on the top-level cells
    [s->cells_top]: the cells and the fields of the engine as the call
    leaves them. *)
Definition engine_collect_timestep (cells_top : list cell)
  : result (list cell * engine) :=
  (* Collect the cell data. *)
  let '(acc, cells) :=
    foldl (fun '(acc, done) c =>
             if has_particles c then
               (* Make the top-cells recurse *)
               let c := engine_collect_kick c in
               (* And aggregate; collected, so clear for next time. *)
               (add_cell acc c, done ++ [clear_updated c])
             else (acc, done ++ [c]))
          (no_counters, []) cells_top in
  (* Aggregate the data from the different nodes. *)
  acc ← (if with_mpi then
           ti ← match allreduce_min (acc_ti_end_min acc) with
                | Ok ti => Ok ti
                | Error _ => Error "Failed to aggregate t_end_min."
                end;
           match allreduce_sum (acc_updated acc, acc_g_updated acc,
                                acc_s_updated acc) with
           | Ok (u, g, s) =>
             (* updates = in_ll[0]; ... back from [long long] to [int] *)
             Ok {| acc_ti_end_min := ti; acc_updated := wrap_int u;
                   acc_g_updated := wrap_int g;
                   acc_s_updated := wrap_int s |}
           | Error _ => Error "Failed to aggregate energies."
           end
         else Ok acc);
  Ok (cells,
      {| e_ti_end_min := acc_ti_end_min acc;
         updates := to_size_t (acc_updated acc);
         g_updates := to_size_t (acc_g_updated acc);
         s_updates := to_size_t (acc_s_updated acc) |}).

(** The cells whose values the collection takes as they are: below [c], the
    first cell with a time-step task on each way down through cells that
    hold particles. *)
Fixpoint supers (c : cell) : list cell :=
  if is_super c then [c]
  else
    mjoin (map (fun k => match k with
                         | Some cp => if has_particles cp then supers cp else []
                         | None => []
                         end) (progeny c)).

(** The least [ti_end_min] of a list of cells, [max_nr_timesteps] at most,
    and the sum of a counter over a list of cells, as a number. *)
Definition min_ti_end (l : list cell) : Z :=
  foldr Z.min max_nr_timesteps (map ti_end_min l).

Definition sum_of (f : cell -> Z) (l : list cell) : Z :=
  foldr Z.add 0 (map f l).

(** A progeny entry and a top-level cell as a collection leaves them. *)
Definition settled (c : cell) : cell :=
  clear_updated (engine_collect_kick c).

Definition settled_progeny (k : option cell) : option cell :=
  match k with
  | Some cp => if has_particles cp then Some (settled cp) else Some cp
  | None => None
  end.

(** The super cells below the top-level cells that hold particles. *)
Definition top_supers (cells_top : list cell) : list cell :=
  mjoin (map (fun c => if has_particles c then supers c else []) cells_top).

(** The cells of a list that hold particles, as [engine_collect_kick]
    leaves them. *)
Definition collected (l : list cell) : list cell :=
  map engine_collect_kick (filter (fun c => has_particles c = true) l).

End collect.

(** A top-level cell without a time-step task above two super cells, and
    the engine of a run on one node, where nothing comes from other nodes. *)
Definition example_top : cell :=
  {| timestep := None; recv_ti := None; count := 5; gcount := 0; scount := 0;
     ti_end_min := 99; updated := 50; g_updated := 0; s_updated := 0;
     progeny :=
       [Some {| timestep := Some 0%nat; recv_ti := None; count := 3;
                gcount := 0; scount := 0; ti_end_min := 10; updated := 2;
                g_updated := 0; s_updated := 0; progeny := [] |};
        None;
        Some {| timestep := Some 1%nat; recv_ti := None; count := 2;
                gcount := 0; scount := 0; ti_end_min := 7; updated := 1;
                g_updated := 0; s_updated := 0; progeny := [] |}] |}.

(** Two top-level cells with a time-step task and [INT_MAX] updated
    particles each. *)
Definition example_full (u : Z) : cell :=
  {| timestep := Some 0%nat; recv_ti := None; count := 1; gcount := 0;
     scount := 0; ti_end_min := 4; updated := u; g_updated := 0;
     s_updated := 0; progeny := [] |}.

Definition example_collect (cells_top : list cell) : list cell * engine :=
  match engine_collect_timestep (2 ^ 28) false Ok Ok cells_top with
  | Ok r => r
  | Error _ => (cells_top, {| e_ti_end_min := 0; updates := 0;
                               g_updates := 0; s_updates := 0 |})
  end.

End Collect.

(* ===================================================================== *)
(** * The passes over the task array: what [engine_marktasks] leaves, and
      [engine_skip_force_and_kick], [engine_skip_drift_and_kick] *)
(* ===================================================================== *)

Module Passes.
Import Sched Marktasks.

(** The body of the loops of the two skip passes: [t = &tasks[i]; if (cond)
    t->skip = 1;]. *)
Definition skip_if (cond : task -> bool) (tasks : list task) (i : nat)
  : list task :=
  match tasks !! i with
  | Some t => if cond t then <[i := set_skip true t]> tasks else tasks
  | None => tasks
  end.

(** Skip everything that updates the particles *)
Definition updates_particles (t : task) : bool :=
  bool_decide (type t = task_type_drift) ||
  bool_decide (type t = task_type_kick1) ||
  bool_decide (type t = task_type_kick2) ||
  bool_decide (type t = task_type_timestep) ||
  bool_decide (subtype t = task_subtype_force) ||
  bool_decide (type t = task_type_cooling) ||
  bool_decide (type t = task_type_sourceterms).

Definition drifts_or_kicks (t : task) : bool :=
  bool_decide (type t = task_type_drift) ||
  bool_decide (type t = task_type_kick1).

(** [void engine_skip_force_and_kick(struct engine *e)], on the task array
    [e->sched.tasks]. *)
Definition engine_skip_force_and_kick (tasks : list task) : list task :=
  foldl (skip_if updates_particles) tasks (seq 0 (length tasks)).

(** [void engine_skip_drift_and_kick(struct engine *e)], on the task array
    [e->sched.tasks]. *)
Definition engine_skip_drift_and_kick (tasks : list task) : list task :=
  foldl (skip_if drifts_or_kicks) tasks (seq 0 (length tasks)).

(** A pass over the task array, in the memory of [engine_marktasks]. *)
Definition on_tasks {real : Type} (pass : list task -> list task)
    (st : state (real := real)) : state (real := real) :=
  {| tasks := pass (tasks st); cells := cells st;
     rebuild_space := rebuild_space st |}.

(** What a skip pass does to one task. *)
Definition skipped_if (cond : task -> bool) (t : task) : task :=
  if cond t then set_skip true t else t.

(** Some time-step task of the memory is on the cell [c]. *)
Definition has_timestep {real : Type} (st : state (real := real)) (c : nat)
  : bool :=
  existsb (fun t => bool_decide (type t = task_type_timestep /\ ci t = Some c))
          (tasks st).

(** The cells that a list of stores clears the update counters of. *)
Definition cleared_cells (acts : list action) : list nat :=
  omap (fun a => match a with ClearUpdated c => Some c | _ => None end) acts.

(** A task but for its [skip]. *)
Definition unskipped (t : task) : task := set_skip true t.

(** Two memories that differ in the [skip] of their tasks only. *)
Definition same_but_skip {real : Type} (sa sb : state (real := real)) : Prop :=
  unskipped <$> tasks sb = unskipped <$> tasks sa /\
  cells sb = cells sa /\ rebuild_space sb = rebuild_space sa.

(** The memory [example_memory], with the density self task of its second
    cell, which is not active at the time of [example_engine], left active
    by an earlier step. *)
Definition example_memory_running : state (real := float) :=
  on_tasks (alter (set_skip false) 10%nat) (example_memory true 0 0).

End Passes.

(* ===================================================================== *)
(** * The gravity tasks: [engine_make_gravity_tasks],
      [engine_make_external_gravity_tasks],
      [engine_make_gravityrecursive_tasks], [engine_addtasks_grav] *)
(* ===================================================================== *)

Module Gravity.
Import Sched.

(** The fields of a [struct cell] that the construction of the gravity tasks
    reads or writes; the progeny of a cell are part of it. *)
Inductive cell : Type := Cell {
  gcount : Z;
  nodeID : Z;
  split : bool;
  grav_up : option nat;
  grav_down : option nat;
  progeny : list (option cell)
}.

(** [cells[cid]] *)
Definition cell_at (cells : list cell) (cid : nat) : cell :=
  default {| gcount := 0; nodeID := 0; split := false; grav_up := None;
             grav_down := None; progeny := [] |} (cells !! cid).

Section gravity.
(** [cell_are_neighbours] is a function of [cell.c], not part of the sources
    at hand: it is a parameter, on the indices of the two top-level cells. *)
Context (cell_are_neighbours : nat -> nat -> Z).
(** The top-level cells [s->cells_top], [s->nr_cells] of them, and
    [e->nodeID]. *)
Context (cells : list cell) (nodeID_e : Z).

Definition nr_cells : nat := length cells.

(** The body of the inner loop of [engine_make_gravity_tasks]. *)
Definition gravity_pair_body (cid cjd : nat) (sched : scheduler) : scheduler :=
  let cj := cell_at cells cjd in
  (* Skip cells without gravity particles *)
  if gcount cj =? 0 then sched
  (* Is that neighbour local ? *)
  else if negb (nodeID cj =? nodeID_e) then sched
  else if truthy (cell_are_neighbours cid cjd) then
    (scheduler_addtask sched task_type_pair task_subtype_grav 0 0
       (Some cid) (Some cjd) true).1
  else sched.

(** The body of the outer loop of [engine_make_gravity_tasks]. *)
Definition gravity_cell_body (cid : nat) (sched : scheduler) : scheduler :=
  let ci := cell_at cells cid in
  (* Skip cells without gravity particles *)
  if gcount ci =? 0 then sched
  (* Is that neighbour local ? *)
  else if negb (nodeID ci =? nodeID_e) then sched
  else
    (* If the cells is local build a self-interaction *)
    let sched := (scheduler_addtask sched task_type_self task_subtype_grav 0 0
                    (Some cid) None false).1 in
    (* Let's also build a task for all the non-neighbouring pm calculations *)
    let sched := (scheduler_addtask sched task_type_grav_mm task_subtype_none
                    0 0 (Some cid) None false).1 in
    for_each (seq (cid + 1) (nr_cells - (cid + 1)))
             (fun sched cjd => gravity_pair_body cid cjd sched) sched.

(** [void engine_make_gravity_tasks(struct engine *e)] *)
Definition engine_make_gravity_tasks (sched : scheduler) : scheduler :=
  for_each (seq 0 nr_cells) (fun sched cid => gravity_cell_body cid sched) sched.

(** [void engine_make_external_gravity_tasks(struct engine *e)] *)
Definition engine_make_external_gravity_tasks (sched : scheduler) : scheduler :=
  for_each (seq 0 nr_cells) (fun sched cid =>
    let ci := cell_at cells cid in
    (* Skip cells without gravity particles *)
    if gcount ci =? 0 then sched
    (* Is that neighbour local ? *)
    else if negb (nodeID ci =? nodeID_e) then sched
    else
      (* If the cell is local, build a self-interaction *)
      (scheduler_addtask sched task_type_self task_subtype_external_grav 0 0
         (Some cid) None false).1) sched.

(** ** The tasks the loops emit *)

(** A local cell with gravity particles. *)
Definition has_gravity (cid : nat) : bool :=
  negb (gcount (cell_at cells cid) =? 0) &&
  (nodeID (cell_at cells cid) =? nodeID_e).

Definition gravity_task (ty : task_type) (sub : task_subtype) (cid : nat)
    (cjd : option nat) (tight : bool) : task :=
  {| type := ty; subtype := sub; flags := 0; wait := 0; ci := Some cid;
     cj := cjd; tight := tight; skip := true |}.

(** The tasks [engine_make_gravity_tasks] emits for the cell [cid]. *)
Definition gravity_cell_tasks (cid : nat) : list task :=
  if has_gravity cid then
    gravity_task task_type_self task_subtype_grav cid None false ::
    gravity_task task_type_grav_mm task_subtype_none cid None false ::
    (cjd ← seq (cid + 1) (nr_cells - (cid + 1));
     if has_gravity cjd && truthy (cell_are_neighbours cid cjd)
     then [gravity_task task_type_pair task_subtype_grav cid (Some cjd) true]
     else [])
  else [].

Definition gravity_tasks : list task := seq 0 nr_cells ≫= gravity_cell_tasks.

Definition external_gravity_tasks : list task :=
  cid ← seq 0 nr_cells;
  if has_gravity cid
  then [gravity_task task_type_self task_subtype_external_grav cid None false]
  else [].

(** The tasks of a list with the given type, subtype and cells. *)
Definition tasks_on (ty : task_type) (sub : task_subtype) (a : nat)
    (b : option nat) (l : list task) : list task :=
  filter (fun t => type t = ty /\ subtype t = sub /\ ci t = Some a /\ cj t = b)
         l.

End gravity.

(** ** The up and down tasks of the hierarchy *)

Definition set_grav (up down : option nat) (c : cell) (prog : list (option cell))
  : cell :=
  {| gcount := gcount c; nodeID := nodeID c; split := split c;
     grav_up := up; grav_down := down; progeny := prog |}.

(** [void engine_addtasks_grav(struct engine *e, struct cell *c,
     struct task *up, struct task *down)]: the cell [c] as the call leaves
    it. *)
Fixpoint engine_addtasks_grav (c : cell) (up down : option nat) : cell :=
  (* Link the tasks to this cell. *)
  set_grav up down c
    (* Recurse? *)
    (if split c then
       map (fun k => match k with
                     | Some cp => Some (engine_addtasks_grav cp up down)
                     | None => None
                     end) (progeny c)
     else progeny c).

(** The body of the loop of [engine_make_gravityrecursive_tasks], on the
    scheduler and the top-level cells. *)
Definition gravityrecursive_body (nodeID_e : Z) (st : scheduler * list cell)
    (k : nat) : scheduler * list cell :=
  let '(sched, cells) := st in
  let c := cell_at cells k in
  (* Only do this for local cells containing gravity particles *)
  if (nodeID c =? nodeID_e) && (0 <? gcount c) then
    (* Create tasks at top level. *)
    let '(sched, up) :=
      scheduler_addtask sched task_type_grav_up task_subtype_none 0 0
        (Some k) None false in
    let down := None in
    (* Push tasks down the cell hierarchy. *)
    (sched, <[k := engine_addtasks_grav c (Some up) down]> cells)
  else (sched, cells).

(** [void engine_make_gravityrecursive_tasks(struct engine *e)]: the
    scheduler and the top-level cells as the call leaves them. *)
Definition engine_make_gravityrecursive_tasks (nodeID_e : Z)
    (sched : scheduler) (cells : list cell) : scheduler * list cell :=
  for_each (seq 0 (length cells)) (gravityrecursive_body nodeID_e)
           (sched, cells).

(** A local top-level cell containing gravity particles. *)
Definition gravity_top (nodeID_e : Z) (c : cell) : bool :=
  (nodeID c =? nodeID_e) && (0 <? gcount c).

Definition grav_up_task (k : nat) : task :=
  {| type := task_type_grav_up; subtype := task_subtype_none; flags := 0;
     wait := 0; ci := Some k; cj := None; tight := false; skip := true |}.

(** The tasks [engine_make_gravityrecursive_tasks] emits for the first [n]
    top-level cells, and for all of them. *)
Definition grav_up_tasks_upto (nodeID_e : Z) (cells : list cell) (n : nat)
  : list task :=
  k ← seq 0 n;
  if gravity_top nodeID_e (cell_at cells k) then [grav_up_task k] else [].

Definition grav_up_tasks (nodeID_e : Z) (cells : list cell) : list task :=
  grav_up_tasks_upto nodeID_e cells (length cells).

(** What [engine_make_gravityrecursive_tasks] does to the top-level cell
    [c] at index [k], started with [nr_tasks] tasks in the scheduler. *)
Definition pushed_down (nodeID_e : Z) (nr_tasks : nat) (cells : list cell)
    (k : nat) (c : cell) : cell :=
  if gravity_top nodeID_e c then
    engine_addtasks_grav c
      (Some (nr_tasks + length (grav_up_tasks_upto nodeID_e cells k))%nat) None
  else c.

(** The cells of the hierarchy of [c] that a walk from [c] through split
    cells reaches, [c] first. *)
Fixpoint reached (c : cell) : list cell :=
  c :: (if split c then
          mjoin (map (fun k => match k with
                               | Some cp => reached cp
                               | None => []
                               end) (progeny c))
        else []).

(** The hierarchy of [c] but for the two task pointers. *)
Fixpoint unlinked (c : cell) : cell :=
  set_grav None None c
    (map (fun k => match k with
                   | Some cp => Some (unlinked cp)
                   | None => None
                   end) (progeny c)).

(** Three top-level cells for the examples: the first local, split, with a
    progeny that is split and one that is not; the second foreign; the
    third local and without gravity particles. *)
Definition leaf (gcount nodeID : Z) : cell :=
  {| gcount := gcount; nodeID := nodeID; split := false; grav_up := None;
     grav_down := None; progeny := [] |}.

Definition example_cells : list cell :=
  [ {| gcount := 5; nodeID := 0; split := true; grav_up := None;
       grav_down := None;
       progeny := [ Some {| gcount := 3; nodeID := 0; split := true;
                            grav_up := None; grav_down := None;
                            progeny := [Some (leaf 3 0); None] |};
                    None;
                    Some (leaf 2 0) ] |};
    leaf 4 1;
    leaf 0 0;
    leaf 7 0 ].

End Gravity.

(* ===================================================================== *)
(** * Counting and linking the tasks: [engine_count_and_link_tasks] *)
(* ===================================================================== *)

Module Links.
Import Sched.

(** The fields of [struct cell] that the pass reads or writes. Cells live in
    one array and are referred to by index; [density] and [grav] are the
    link lists of that name, head first. *)
Record cell : Type := {
  split : bool;
  progeny : list (option nat);
  sorts : option nat;
  nr_tasks : Z;
  density : list nat;
  grav : list nat
}.

(** The memory: the scheduler [e->sched], the cells and [e->nr_links]. *)
Record state : Type := {
  sched : scheduler;
  cells : list cell;
  nr_links : Z
}.

Definition set_nr_tasks (n : Z) (c : cell) : cell :=
  {| split := split c; progeny := progeny c; sorts := sorts c;
     nr_tasks := n; density := density c; grav := grav c |}.

Definition set_density (l : list nat) (c : cell) : cell :=
  {| split := split c; progeny := progeny c; sorts := sorts c;
     nr_tasks := nr_tasks c; density := l; grav := grav c |}.

Definition set_grav (l : list nat) (c : cell) : cell :=
  {| split := split c; progeny := progeny c; sorts := sorts c;
     nr_tasks := nr_tasks c; density := density c; grav := l |}.

Definition cell_at (st : state) (c : nat) : result cell :=
  match cells st !! c with
  | Some c => Ok c
  | None => Error "invalid cell pointer"
  end.

Definition task_at (st : state) (ind : nat) : result task :=
  match tasks (sched st) !! ind with
  | Some t => Ok t
  | None => Error "invalid task pointer"
  end.

(** A store [c->field = v], as the update [f] of the cell at [c]. *)
Definition set_cell (c : nat) (f : cell -> cell) (st : state) : result state :=
  match cells st !! c with
  | Some x => Ok {| sched := sched st; cells := <[c := f x]> (cells st);
                    nr_links := nr_links st |}
  | None => Error "invalid cell pointer"
  end.

(** [scheduler_addunlock(sched, ta, tb)] on the scheduler of the engine. *)
Definition addunlock (ta tb : option nat) (st : state) : state :=
  {| sched := scheduler_addunlock (sched st) ta tb; cells := cells st;
     nr_links := nr_links st |}.

(** [atomic_inc(&c->nr_tasks);] *)
Definition inc_nr_tasks (c : option nat) (st : state) : result state :=
  c ← deref c;
  cl ← cell_at st c;
  set_cell c (set_nr_tasks (nr_tasks cl + 1)) st.

Section links.
(** [e->size_links] *)
Context (size_links : Z).

(** [void engine_addlink(struct engine *e, struct link **l, struct task *t)]
    for the link list [field] of the cell [c]. *)
Definition engine_addlink (field : cell -> list nat)
    (set_field : list nat -> cell -> cell) (c : option nat) (t : nat)
    (st : state) : result state :=
  (* Get the next free link. *)
  let ind := nr_links st in
  let st := {| sched := sched st; cells := cells st;
               nr_links := nr_links st + 1 |} in
  if size_links <=? ind then Error "Link table overflow."
  else
    c ← deref c;
    cl ← cell_at st c;
    set_cell c (set_field (t :: field cl)) st.

(** Link sort tasks together. *)
Definition link_sorts (ind : nat) (ci : option nat) (st : state)
  : result state :=
  ci ← deref ci;
  ci ← cell_at st ci;
  if split ci then
    foldl (fun st pj =>
             st ← st;
             match pj with
             | Some p =>
               cp ← cell_at st p;
               match sorts cp with
               | Some s => Ok (addunlock (Some s) (Some ind) st)
               | None => Ok st
               end
             | None => Ok st
             end) (Ok st) (progeny ci)
  else Ok st.

(** The links of a self or sub-self task. *)
Definition link_self (t : task) (ind : nat) (st : state) : result state :=
  st ← inc_nr_tasks (ci t) st;
  st ← (if bool_decide (subtype t = task_subtype_density)
        then engine_addlink density set_density (ci t) ind st else Ok st);
  st ← (if bool_decide (subtype t = task_subtype_grav)
        then engine_addlink grav set_grav (ci t) ind st else Ok st);
  if bool_decide (subtype t = task_subtype_external_grav)
  then engine_addlink grav set_grav (ci t) ind st else Ok st.

(** The links of a pair or sub-pair task. *)
Definition link_pair (msg : string) (t : task) (ind : nat) (st : state)
  : result state :=
  st ← inc_nr_tasks (ci t) st;
  st ← inc_nr_tasks (cj t) st;
  st ← (if bool_decide (subtype t = task_subtype_density) then
          st ← engine_addlink density set_density (ci t) ind st;
          engine_addlink density set_density (cj t) ind st
        else Ok st);
  st ← (if bool_decide (subtype t = task_subtype_grav) then
          st ← engine_addlink grav set_grav (ci t) ind st;
          engine_addlink grav set_grav (cj t) ind st
        else Ok st);
  if bool_decide (subtype t = task_subtype_external_grav)
  then Error msg else Ok st.

(** The body of the loop of [engine_count_and_link_tasks] for the task at
    index [ind]. *)
Definition engine_count_and_link_task (ind : nat) (st : state)
  : result state :=
  t ← task_at st ind;
  (* Link sort tasks together. *)
  st ← (if bool_decide (type t = task_type_sort)
        then link_sorts ind (ci t) st else Ok st);
  (* Link self tasks to cells. *)
  if bool_decide (type t = task_type_self) then link_self t ind st
  (* Link pair tasks to cells. *)
  else if bool_decide (type t = task_type_pair) then
    link_pair "Found a pair/external-gravity task..." t ind st
  (* Link sub-self tasks to cells. *)
  else if bool_decide (type t = task_type_sub_self) then link_self t ind st
  (* Link sub-pair tasks to cells. *)
  else if bool_decide (type t = task_type_sub_pair) then
    link_pair "Found a sub-pair/external-gravity task..." t ind st
  else Ok st.

(** [void engine_count_and_link_tasks(struct engine *e)] *)
Definition engine_count_and_link_tasks (st : state) : result state :=
  foldl (fun st ind => st ← st; engine_count_and_link_task ind st)
        (Ok st) (seq 0 (length (tasks (sched st)))).

End links.

(** ** What the pass counts and links *)

(** The cells of a task that the pass counts the task for. *)
Definition task_cells (t : task) : list (option nat) :=
  if bool_decide (type t = task_type_self \/ type t = task_type_sub_self)
  then [ci t]
  else if bool_decide (type t = task_type_pair \/ type t = task_type_sub_pair)
  then [ci t; cj t]
  else [].

(** The cells whose [density] list, and whose [grav] list, a task is linked
    into. *)
Definition density_cells (t : task) : list (option nat) :=
  if bool_decide (subtype t = task_subtype_density) then task_cells t else [].

Definition grav_cells (t : task) : list (option nat) :=
  if bool_decide (subtype t = task_subtype_grav \/
                  subtype t = task_subtype_external_grav)
  then task_cells t else [].

(** The indices of the tasks of [ts] that [sel] selects for the cell [c],
    in the order of the tasks, each as often as [sel] lists the cell. *)
Definition links_on (sel : task -> list (option nat)) (c : nat)
    (ts : list task) : list nat :=
  mjoin (imap (fun ind t =>
                 replicate (length (filter (fun p => p = Some c) (sel t))) ind)
              ts).

(** The unlocks that the pass adds for the sort task [t] at index [ind]. *)
Definition sort_unlocks (cells : list cell) (ind : nat) (t : task)
  : list (option nat * option nat) :=
  if bool_decide (type t = task_type_sort) then
    match ci t ≫= (cells !!.) with
    | Some c =>
      if split c then
        omap (fun pj => p ← pj; cp ← cells !! p; s ← sorts cp;
                        Some (Some s, Some ind)) (progeny c)
      else []
    | None => []
    end
  else [].

(** ** The stores of the pass *)

Inductive op : Type :=
| Inc (c : option nat)
| Link (g : bool) (c : option nat) (t : nat)
| Abort (msg : string).

Definition apply_op (size_links : Z) (o : op) (st : state) : result state :=
  match o with
  | Inc c => inc_nr_tasks c st
  | Link false c t => engine_addlink size_links density set_density c t st
  | Link true c t => engine_addlink size_links grav set_grav c t st
  | Abort msg => Error msg
  end.

Definition run (size_links : Z) (ops : list op) (st : state) : result state :=
  foldl (fun st o => st ← st; apply_op size_links o st) (Ok st) ops.

(** The stores of [link_self] and [link_pair], and of the body of the
    loop after the sort tasks are linked. *)
Definition ops_self (t : task) (ind : nat) : list op :=
  Inc (ci t) ::
  (if bool_decide (subtype t = task_subtype_density)
   then [Link false (ci t) ind] else []) ++
  (if bool_decide (subtype t = task_subtype_grav)
   then [Link true (ci t) ind] else []) ++
  (if bool_decide (subtype t = task_subtype_external_grav)
   then [Link true (ci t) ind] else []).

Definition ops_pair (msg : string) (t : task) (ind : nat) : list op :=
  Inc (ci t) :: Inc (cj t) ::
  (if bool_decide (subtype t = task_subtype_density)
   then [Link false (ci t) ind; Link false (cj t) ind] else []) ++
  (if bool_decide (subtype t = task_subtype_grav)
   then [Link true (ci t) ind; Link true (cj t) ind] else []) ++
  (if bool_decide (subtype t = task_subtype_external_grav)
   then [Abort msg] else []).

Definition ops_of (t : task) (ind : nat) : list op :=
  if bool_decide (type t = task_type_self) then ops_self t ind
  else if bool_decide (type t = task_type_pair) then
    ops_pair "Found a pair/external-gravity task..." t ind
  else if bool_decide (type t = task_type_sub_self) then ops_self t ind
  else if bool_decide (type t = task_type_sub_pair) then
    ops_pair "Found a sub-pair/external-gravity task..." t ind
  else [].

#[local] Instance string_eq_dec : EqDecision string := String.string_dec.
#[global] Instance op_eq_dec : EqDecision op.
Proof. solve_decision. Defined.

(** How often a list of stores counts a task for the cell [c], and the
    tasks it links into the list ([g] for [grav]) of the cell, the last
    first. *)
Definition incs (c : nat) (ops : list op) : nat :=
  length (filter (fun o => o = Inc (Some c)) ops).

Definition linked (g : bool) (c : nat) (ops : list op) : list nat :=
  rev (omap (fun o => match o with
                      | Link g' c' t =>
                        if bool_decide (g' = g /\ c' = Some c) then Some t
                        else None
                      | _ => None
                      end) ops).

Definition is_link (o : op) : bool :=
  match o with Link _ _ _ => true | _ => false end.

Definition nr_linked (ops : list op) : nat :=
  length (filter (fun o => is_link o = true) ops).

(** What one store does to the cell at index [c]. *)
Definition op_on_cell (c : nat) (cl : cell) (o : op) : cell :=
  match o with
  | Inc (Some c') =>
    if decide (c' = c) then set_nr_tasks (nr_tasks cl + 1) cl else cl
  | Link false (Some c') t =>
    if decide (c' = c) then set_density (t :: density cl) cl else cl
  | Link true (Some c') t =>
    if decide (c' = c) then set_grav (t :: grav cl) cl else cl
  | _ => cl
  end.

(** All the stores of the pass over the tasks [ts], in order. *)
Definition all_ops (ts : list task) : list op :=
  mjoin (imap (fun ind t => ops_of t ind) ts).

(** All the unlocks of the pass. *)
Definition all_sort_unlocks (cells : list cell) (ts : list task)
  : list (option nat * option nat) :=
  mjoin (imap (sort_unlocks cells) ts).

(** The number of links that the pass makes for a task. *)
Definition links_of (t : task) : nat :=
  length (density_cells t) + length (grav_cells t).

(** ** What the pass needs to return *)

(** A pointer to a cell of the array. *)
Definition valid_cell (cells : list cell) (p : option nat) : Prop :=
  exists c, p = Some c /\ (c < length cells)%nat.

Definition op_valid (cells : list cell) (o : op) : Prop :=
  match o with
  | Inc p => valid_cell cells p
  | Link _ p _ => valid_cell cells p
  | Abort _ => False
  end.

(** The cells that the pass counts a task for are cells of the array; a
    pair or sub-pair task is not of subtype external_grav; and a sort task
    is on a cell of the array whose progeny, if it is split, are cells of
    the array. *)
Definition task_ok (cells : list cell) (t : task) : Prop :=
  Forall (valid_cell cells) (task_cells t) /\
  (type t = task_type_pair \/ type t = task_type_sub_pair ->
   subtype t <> task_subtype_external_grav) /\
  (type t = task_type_sort ->
   exists c cl, ci t = Some c /\ cells !! c = Some cl /\
     (split cl = true ->
      forall p, Some p ∈ progeny cl -> (p < length cells)%nat)).

(** Two arrays of cells that differ in [nr_tasks], [density] and [grav]
    only. *)
Definition same_shape (cells1 cells2 : list cell) : Prop :=
  length cells1 = length cells2 /\
  forall c cl1 cl2, cells1 !! c = Some cl1 -> cells2 !! c = Some cl2 ->
    split cl1 = split cl2 /\ progeny cl1 = progeny cl2 /\
    sorts cl1 = sorts cl2.

(** Every task is as the pass needs it, and the links to make, if any, fit
    into the link table. *)
Definition pass_ok (size_links : Z) (st : state) : Prop :=
  Forall (task_ok (cells st)) (tasks (sched st)) /\
  (sum_list_with links_of (tasks (sched st)) <> 0%nat ->
   nr_links st + Z.of_nat (sum_list_with links_of (tasks (sched st)))
   <= size_links).

(** ** A memory to run the pass on

    Cell 0 is split and has cell 1 as its first progeny; both have a sort
    task (3 and 4). Task 0 is a density self task on cell 0, task 1 a
    density pair of the two cells, task 2 a gravity pair of cell 1 with
    itself, task 5 an external-gravity self task on cell 1. *)
Definition example_cells : list cell :=
  [ {| split := true; progeny := [Some 1%nat; None]; sorts := Some 3%nat;
       nr_tasks := 0; density := []; grav := [] |};
    {| split := false; progeny := []; sorts := Some 4%nat;
       nr_tasks := 0; density := []; grav := [] |} ].

Definition example_state (ts : list task) : state :=
  {| sched := {| tasks := ts; unlocks := [] |}; cells := example_cells;
     nr_links := 0 |}.

Definition example_tasks : list task :=
  [ mk_task task_type_self task_subtype_density 0 (Some 0%nat) None false;
    mk_task task_type_pair task_subtype_density 0 (Some 0%nat) (Some 1%nat)
      true;
    mk_task task_type_pair task_subtype_grav 0 (Some 1%nat) (Some 1%nat) true;
    mk_task task_type_sort task_subtype_none 0 (Some 0%nat) None false;
    mk_task task_type_sort task_subtype_none 0 (Some 1%nat) None false;
    mk_task task_type_self task_subtype_external_grav 0 (Some 1%nat) None
      false ].

(** The memory that the pass leaves of the example, with room for six
    links. *)
Definition example_linked : state :=
  {| sched := {| tasks := example_tasks;
                 unlocks := [(Some 4%nat, Some 3%nat)] |};
     cells :=
       [ {| split := true; progeny := [Some 1%nat; None]; sorts := Some 3%nat;
            nr_tasks := 2; density := [1%nat; 0%nat]; grav := [] |};
         {| split := false; progeny := []; sorts := Some 4%nat;
            nr_tasks := 4; density := [1%nat];
            grav := [5%nat; 2%nat; 2%nat] |} ];
     nr_links := 6 |}.

End Links.

(* ===================================================================== *)
(** * The dependencies of the gravity tasks: [engine_link_gravity_tasks] *)
(* ===================================================================== *)

Module GravityLinks.
Import Sched.

(** The fields of [struct cell] that the pass reads. Cells live in one array
    and are referred to by index. *)
Record cell : Type := {
  nodeID : Z;
  super : option nat;
  init : option nat;
  kick2 : option nat;
  grav_up : option nat
}.

Section gravity_links.
(** The cells, none of which the pass writes, and [e->nodeID]. *)
Context (cells : list cell) (nodeID_e : Z).

Definition cell_at (c : option nat) : result cell :=
  c ← deref c;
  match cells !! c with
  | Some c => Ok c
  | None => Error "invalid cell pointer"
  end.

(** [c->super], for reading one of its fields. *)
Definition super_at (c : option nat) : result cell :=
  c ← cell_at c;
  cell_at (super c).

Definition task_at (sched : scheduler) (ind : nat) : result task :=
  match tasks sched !! ind with
  | Some t => Ok t
  | None => Error "invalid task pointer"
  end.

(** [static inline void engine_make_gravity_dependencies(struct scheduler
     *sched, struct task *gravity, struct cell *c)] *)
Definition engine_make_gravity_dependencies (gravity : nat) (c : option nat)
    (sched : scheduler) : result scheduler :=
  super_c ← super_at c;
  (* init --> gravity --> kick *)
  let sched := scheduler_addunlock sched (init super_c) (Some gravity) in
  let sched := scheduler_addunlock sched (Some gravity) (kick2 super_c) in
  (* grav_up --> gravity ( --> kick) *)
  Ok (scheduler_addunlock sched (grav_up super_c) (Some gravity)).

(** [static inline void engine_make_external_gravity_dependencies(struct
     scheduler *sched, struct task *gravity, struct cell *c)] *)
Definition engine_make_external_gravity_dependencies (gravity : nat)
    (c : option nat) (sched : scheduler) : result scheduler :=
  super_c ← super_at c;
  (* init --> external gravity --> kick *)
  let sched := scheduler_addunlock sched (init super_c) (Some gravity) in
  Ok (scheduler_addunlock sched (Some gravity) (kick2 super_c)).

(** The dependencies of a pair or sub-pair task. *)
Definition link_gravity_pair (k : nat) (t : task) (sched : scheduler)
  : result scheduler :=
  ci ← cell_at (ci t);
  sched ← (if nodeID ci =? nodeID_e
           then engine_make_gravity_dependencies k (Sched.ci t) sched
           else Ok sched);
  cj ← cell_at (cj t);
  if (nodeID cj =? nodeID_e) && negb (bool_decide (super ci = super cj))
  then engine_make_gravity_dependencies k (Sched.cj t) sched
  else Ok sched.

(** The body of the loop of [engine_link_gravity_tasks] for the task at
    index [k]. *)
Definition engine_link_gravity_task (gather : nat) (k : nat)
    (sched : scheduler) : result scheduler :=
  (* Get a pointer to the task. *)
  t ← task_at sched k;
  (* Multipole construction *)
  let sched :=
    if bool_decide (type t = task_type_grav_up)
    then scheduler_addunlock sched (Some k) (Some gather) else sched in
  (* Long-range interaction *)
  sched ← (if bool_decide (type t = task_type_grav_mm) then
             super_ci ← super_at (ci t);
             (* Gather the multipoles --> mm interaction --> kick *)
             let sched := scheduler_addunlock sched (Some gather) (Some k) in
             let sched := scheduler_addunlock sched (Some k) (kick2 super_ci) in
             (* init --> mm interaction *)
             Ok (scheduler_addunlock sched (init super_ci) (Some k))
           else Ok sched);
  (* Self-interaction for self-gravity? *)
  if bool_decide (type t = task_type_self) &&
     bool_decide (subtype t = task_subtype_grav) then
    engine_make_gravity_dependencies k (ci t) sched
  (* Self-interaction for external gravity ? *)
  else if bool_decide (type t = task_type_self) &&
          bool_decide (subtype t = task_subtype_external_grav) then
    engine_make_external_gravity_dependencies k (ci t) sched
  (* Otherwise, pair interaction? *)
  else if bool_decide (type t = task_type_pair) &&
          bool_decide (subtype t = task_subtype_grav) then
    link_gravity_pair k t sched
  (* Otherwise, sub-self interaction? *)
  else if bool_decide (type t = task_type_sub_self) &&
          bool_decide (subtype t = task_subtype_grav) then
    ci ← cell_at (ci t);
    if nodeID ci =? nodeID_e
    then engine_make_gravity_dependencies k (Sched.ci t) sched else Ok sched
  (* Sub-self-interaction for external gravity ? *)
  else if bool_decide (type t = task_type_sub_self) &&
          bool_decide (subtype t = task_subtype_external_grav) then
    ci ← cell_at (ci t);
    if nodeID ci =? nodeID_e
    then engine_make_external_gravity_dependencies k (Sched.ci t) sched
    else Ok sched
  (* Otherwise, sub-pair interaction? *)
  else if bool_decide (type t = task_type_sub_pair) &&
          bool_decide (subtype t = task_subtype_grav) then
    link_gravity_pair k t sched
  else Ok sched.

(** [void engine_link_gravity_tasks(struct engine *e)] *)
Definition engine_link_gravity_tasks (sched : scheduler) : result scheduler :=
  let nr_tasks := length (tasks sched) in
  (* Add one task gathering all the multipoles *)
  let '(sched, gather) :=
    scheduler_addtask sched task_type_grav_gather_m task_subtype_none 0 0
      None None false in
  (* And one task performing the FFT *)
  let '(sched, fft) :=
    scheduler_addtask sched task_type_grav_fft task_subtype_none 0 0
      None None false in
  let sched := scheduler_addunlock sched (Some gather) (Some fft) in
  foldl (fun sched k => sched ← sched; engine_link_gravity_task gather k sched)
        (Ok sched) (seq 0 nr_tasks).

(** ** The unlocks that the pass adds *)

Definition edge : Type := option nat * option nat.

Definition add_unlocks (es : list edge) (sched : scheduler) : scheduler :=
  {| tasks := tasks sched; unlocks := unlocks sched ++ es |}.

(** The unlocks of [engine_make_gravity_dependencies] and of
    [engine_make_external_gravity_dependencies]. *)
Definition gravity_edges (k : nat) (c : option nat) : result (list edge) :=
  super_c ← super_at c;
  Ok [(init super_c, Some k); (Some k, kick2 super_c);
      (grav_up super_c, Some k)].

Definition external_gravity_edges (k : nat) (c : option nat)
  : result (list edge) :=
  super_c ← super_at c;
  Ok [(init super_c, Some k); (Some k, kick2 super_c)].

Definition pair_edges (k : nat) (t : task) : result (list edge) :=
  ci ← cell_at (ci t);
  es1 ← (if nodeID ci =? nodeID_e then gravity_edges k (Sched.ci t)
         else Ok []);
  cj ← cell_at (cj t);
  es2 ← (if (nodeID cj =? nodeID_e) && negb (bool_decide (super ci = super cj))
         then gravity_edges k (Sched.cj t) else Ok []);
  Ok (es1 ++ es2).

Definition mm_edges (gather k : nat) (t : task) : result (list edge) :=
  super_ci ← super_at (ci t);
  Ok [(Some gather, Some k); (Some k, kick2 super_ci);
      (init super_ci, Some k)].

(** The unlocks of one round of the loop, for the task [t] at index [k]. *)
Definition task_edges (gather k : nat) (t : task) : result (list edge) :=
  let es1 := if bool_decide (type t = task_type_grav_up)
             then [(Some k, Some gather)] else [] in
  es2 ← (if bool_decide (type t = task_type_grav_mm)
         then mm_edges gather k t else Ok []);
  es3 ← (if bool_decide (type t = task_type_self) &&
            bool_decide (subtype t = task_subtype_grav) then
           gravity_edges k (ci t)
         else if bool_decide (type t = task_type_self) &&
                 bool_decide (subtype t = task_subtype_external_grav) then
           external_gravity_edges k (ci t)
         else if bool_decide (type t = task_type_pair) &&
                 bool_decide (subtype t = task_subtype_grav) then
           pair_edges k t
         else if bool_decide (type t = task_type_sub_self) &&
                 bool_decide (subtype t = task_subtype_grav) then
           ci ← cell_at (ci t);
           if nodeID ci =? nodeID_e then gravity_edges k (Sched.ci t)
           else Ok []
         else if bool_decide (type t = task_type_sub_self) &&
                 bool_decide (subtype t = task_subtype_external_grav) then
           ci ← cell_at (ci t);
           if nodeID ci =? nodeID_e
           then external_gravity_edges k (Sched.ci t) else Ok []
         else if bool_decide (type t = task_type_sub_pair) &&
                 bool_decide (subtype t = task_subtype_grav) then
           pair_edges k t
         else Ok []);
  Ok (es1 ++ es2 ++ es3).

(** A step that only appends the unlocks [es], or aborts as [es] does. *)
Definition appends (f : scheduler -> result scheduler)
    (es : result (list edge)) : Prop :=
  forall sched, f sched = (es ← es; Ok (add_unlocks es sched)).

(** A task pointer of some cell. *)
Definition cell_pointer (p : option nat) : Prop :=
  exists c cl, cells !! c = Some cl /\
               (p = init cl \/ p = kick2 cl \/ p = grav_up cl).

(** ** What the pass is to do for a task *)

(** The cell [c] is on this node. *)
Definition local (c : option nat) : Prop :=
  exists cl, cell_at c = Ok cl /\ nodeID cl = nodeID_e.

Definition super_of (c : option nat) : option nat :=
  match cell_at c with
  | Ok cl => super cl
  | Error _ => None
  end.

(** The cells on behalf of which the pass makes a task of self-gravity
    depend on the tasks of a super cell: the cell of a self task; the cell
    of a sub-self task and the first cell of a pair or sub-pair task if it
    is local; and the second cell of a pair or sub-pair task if it is local
    and has another super cell than the first. *)
Definition serves (t : task) (c : option nat) : Prop :=
  subtype t = task_subtype_grav /\
  ((type t = task_type_self /\ c = ci t) \/
   (type t = task_type_sub_self /\ c = ci t /\ local c) \/
   ((type t = task_type_pair \/ type t = task_type_sub_pair) /\
    ((c = ci t /\ local c) \/
     (c = cj t /\ local c /\ super_of (ci t) <> super_of (cj t))))).

(** The same for external gravity: the cell of a self task, and that of a
    sub-self task if it is local. *)
Definition serves_external (t : task) (c : option nat) : Prop :=
  subtype t = task_subtype_external_grav /\ c = ci t /\
  (type t = task_type_self \/ (type t = task_type_sub_self /\ local c)).

(** The task pointers of the cells lead to tasks that are there before the
    pass, [n] of them. *)
Definition cells_wf (n : nat) : Prop :=
  forall c cl p, cells !! c = Some cl ->
    init cl = Some p \/ kick2 cl = Some p \/ grav_up cl = Some p ->
    (p < n)%nat.

Definition cells_wfb (n : nat) : bool :=
  forallb (fun cl =>
             forallb (fun p => match p with
                               | Some p => (p <? n)%nat
                               | None => true
                               end) [init cl; kick2 cl; grav_up cl]) cells.

End gravity_links.

(** ** A memory to run the pass on

    Cell 0 is a local super cell with its init, kick2 and grav_up tasks
    (0, 1, 2), cell 1 a local cell below it, cell 2 a foreign super cell
    without tasks, cell 3 a second local super cell with tasks 3, 4, 5.
    Tasks 6 and 7 are the self-gravity and the grav_mm task of cell 0,
    task 8 a gravity pair of the cells 1 and 3, task 9 an external-gravity
    self task on cell 3, task 10 a gravity pair of the cells 0 and 1. *)
Definition example_cells : list cell :=
  [ {| nodeID := 0; super := Some 0%nat; init := Some 0%nat;
       kick2 := Some 1%nat; grav_up := Some 2%nat |};
    {| nodeID := 0; super := Some 0%nat; init := None; kick2 := None;
       grav_up := Some 2%nat |};
    {| nodeID := 1; super := Some 2%nat; init := None; kick2 := None;
       grav_up := None |};
    {| nodeID := 0; super := Some 3%nat; init := Some 3%nat;
       kick2 := Some 4%nat; grav_up := Some 5%nat |} ].

Definition example_sched : scheduler :=
  {| tasks :=
       [ mk_task task_type_init task_subtype_none 0 (Some 0%nat) None false;
         mk_task task_type_kick2 task_subtype_none 0 (Some 0%nat) None false;
         mk_task task_type_grav_up task_subtype_none 0 (Some 0%nat) None false;
         mk_task task_type_init task_subtype_none 0 (Some 3%nat) None false;
         mk_task task_type_kick2 task_subtype_none 0 (Some 3%nat) None false;
         mk_task task_type_grav_up task_subtype_none 0 (Some 3%nat) None false;
         mk_task task_type_self task_subtype_grav 0 (Some 0%nat) None false;
         mk_task task_type_grav_mm task_subtype_none 0 (Some 0%nat) None false;
         mk_task task_type_pair task_subtype_grav 0 (Some 1%nat) (Some 3%nat)
           true;
         mk_task task_type_self task_subtype_external_grav 0 (Some 3%nat) None
           false;
         mk_task task_type_pair task_subtype_grav 0 (Some 0%nat) (Some 1%nat)
           true ];
     unlocks := [] |}.

End GravityLinks.

(* ===================================================================== *)
(** * The copies of the density loop: [engine_make_extra_hydroloop_tasks] *)
(* ===================================================================== *)

Module LoopCopies.
Import Sched Taskgraph.

(** The task is a pair or a sub_pair: its second cell is linked too. *)
Definition is_pair_loop (t : task) : bool :=
  bool_decide (type t = task_type_pair \/ type t = task_type_sub_pair).

(** The copy of the density task [t] for the loop [sub], as
    [engine_make_extra_hydroloop_tasks] passes it to [scheduler_addtask]:
    the copy of a self or a pair has no flags, the copy of a self has no
    second cell. *)
Definition loop_copy (sub : task_subtype) (t : task) : task :=
  {| type := type t; subtype := sub;
     flags := if bool_decide (type t = task_type_self \/
                              type t = task_type_pair)
              then 0 else flags t;
     wait := 0; ci := ci t;
     cj := if bool_decide (type t = task_type_self) then None else cj t;
     tight := false; skip := true |}.

(** The tasks that the pass adds for the task [t], in the order of their
    creation. *)
Definition loop_copies (e : engine) (t : task) : list task :=
  if is_density_loop t then
    (if extra_hydro_loop e then [loop_copy task_subtype_gradient t] else []) ++
    [loop_copy task_subtype_force t]
  else [].

(** The links that the pass takes from the link table for the task [t]. *)
Definition copy_links (e : engine) (t : task) : nat :=
  if is_density_loop t then
    ((if is_pair_loop t then 2 else 1) *
     (if extra_hydro_loop e then 2 else 1))%nat
  else 0%nat.

(** The links to the task [t] at index [i] that the cell [c] is given, in
    the order in which they are pushed. *)
Definition links_for (c : nat) (t : task) (i : nat) : list nat :=
  (if bool_decide (ci t = Some c) then [i] else []) ++
  (if is_pair_loop t && bool_decide (cj t = Some c) then [i] else []).

(** The links of the cell [c] to the tasks of the loop [sub] among the tasks
    [new], which start at index [n], in the order in which they are pushed. *)
Definition loop_links (sub : task_subtype) (c : nat) (n : nat)
    (new : list task) : list nat :=
  mjoin (imap (fun j t => if bool_decide (subtype t = sub)
                          then links_for c t (n + j) else []) new).

(** The memory has grown by the tasks [new] and by [k] links: the cell [c]
    was given the links [F c] to force tasks and [G c] to gradient tasks,
    head first, and is otherwise as before. *)
Definition grows (st st' : state) (new : list task) (k : Z)
    (F G : nat -> list nat) : Prop :=
  tasks (sched st') = tasks (sched st) ++ new /\
  nr_links st' = nr_links st + k /\
  length (cells st') = length (cells st) /\
  forall c cl, cells st !! c = Some cl ->
    exists cl', cells st' !! c = Some cl' /\ unlinked cl' = unlinked cl /\
      force cl' = F c ++ force cl /\ gradient cl' = G c ++ gradient cl.

(** The copies of the density tasks of the example, with the gradient
    loop. *)
Definition example_copied : state :=
  match engine_make_extra_hydroloop_tasks (P := example_policies)
          (example_engine 0 true) example_state with
  | Ok st => st
  | Error _ => example_state
  end.

End LoopCopies.

(* ===================================================================== *)
(** * The communication tasks: [engine_addtasks_send] and
      [engine_addtasks_recv] *)
(* ===================================================================== *)

Module Comm.
Import Sched.

(** The fields of [struct cell] that the two functions read or write. Cells
    live in one array and are referred to by index; the link lists hold
    task pointers, head first, those of the send tasks as [engine_addlink]
    is given them, [NULL] included. *)
Record cell : Type := {
  nodeID : Z;
  tag : Z;
  super : option nat;
  split : bool;
  progeny : list (option nat);
  density : list nat;
  gradient : list nat;
  force : list nat;
  sorts : option nat;
  drift : option nat;
  ghost : option nat;
  extra_ghost : option nat;
  kick2 : option nat;
  timestep : option nat;
  send_xv : list (option nat);
  send_rho : list (option nat);
  send_gradient : list (option nat);
  send_ti : list (option nat);
  recv_xv : option nat;
  recv_rho : option nat;
  recv_gradient : option nat;
  recv_ti : option nat
}.

Definition set_drift (p : option nat) (c : cell) : cell :=
  {| nodeID := nodeID c; tag := tag c; super := super c; split := split c;
     progeny := progeny c; density := density c; gradient := gradient c;
     force := force c; sorts := sorts c; drift := p; ghost := ghost c;
     extra_ghost := extra_ghost c; kick2 := kick2 c; timestep := timestep c;
     send_xv := send_xv c; send_rho := send_rho c;
     send_gradient := send_gradient c; send_ti := send_ti c;
     recv_xv := recv_xv c; recv_rho := recv_rho c;
     recv_gradient := recv_gradient c; recv_ti := recv_ti c |}.

Definition set_send_xv (l : list (option nat)) (c : cell) : cell :=
  {| nodeID := nodeID c; tag := tag c; super := super c; split := split c;
     progeny := progeny c; density := density c; gradient := gradient c;
     force := force c; sorts := sorts c; drift := drift c; ghost := ghost c;
     extra_ghost := extra_ghost c; kick2 := kick2 c; timestep := timestep c;
     send_xv := l; send_rho := send_rho c; send_gradient := send_gradient c;
     send_ti := send_ti c; recv_xv := recv_xv c; recv_rho := recv_rho c;
     recv_gradient := recv_gradient c; recv_ti := recv_ti c |}.

Definition set_send_rho (l : list (option nat)) (c : cell) : cell :=
  {| nodeID := nodeID c; tag := tag c; super := super c; split := split c;
     progeny := progeny c; density := density c; gradient := gradient c;
     force := force c; sorts := sorts c; drift := drift c; ghost := ghost c;
     extra_ghost := extra_ghost c; kick2 := kick2 c; timestep := timestep c;
     send_xv := send_xv c; send_rho := l; send_gradient := send_gradient c;
     send_ti := send_ti c; recv_xv := recv_xv c; recv_rho := recv_rho c;
     recv_gradient := recv_gradient c; recv_ti := recv_ti c |}.

Definition set_send_gradient (l : list (option nat)) (c : cell) : cell :=
  {| nodeID := nodeID c; tag := tag c; super := super c; split := split c;
     progeny := progeny c; density := density c; gradient := gradient c;
     force := force c; sorts := sorts c; drift := drift c; ghost := ghost c;
     extra_ghost := extra_ghost c; kick2 := kick2 c; timestep := timestep c;
     send_xv := send_xv c; send_rho := send_rho c; send_gradient := l;
     send_ti := send_ti c; recv_xv := recv_xv c; recv_rho := recv_rho c;
     recv_gradient := recv_gradient c; recv_ti := recv_ti c |}.

Definition set_send_ti (l : list (option nat)) (c : cell) : cell :=
  {| nodeID := nodeID c; tag := tag c; super := super c; split := split c;
     progeny := progeny c; density := density c; gradient := gradient c;
     force := force c; sorts := sorts c; drift := drift c; ghost := ghost c;
     extra_ghost := extra_ghost c; kick2 := kick2 c; timestep := timestep c;
     send_xv := send_xv c; send_rho := send_rho c;
     send_gradient := send_gradient c; send_ti := l; recv_xv := recv_xv c;
     recv_rho := recv_rho c; recv_gradient := recv_gradient c;
     recv_ti := recv_ti c |}.

Definition set_recv (t_xv t_rho t_gradient t_ti : option nat)
    (c : cell) : cell :=
  {| nodeID := nodeID c; tag := tag c; super := super c; split := split c;
     progeny := progeny c; density := density c; gradient := gradient c;
     force := force c; sorts := sorts c; drift := drift c; ghost := ghost c;
     extra_ghost := extra_ghost c; kick2 := kick2 c; timestep := timestep c;
     send_xv := send_xv c; send_rho := send_rho c;
     send_gradient := send_gradient c; send_ti := send_ti c; recv_xv := t_xv;
     recv_rho := t_rho; recv_gradient := t_gradient; recv_ti := t_ti |}.

(** What the functions need of [struct engine]; [extra_hydro_loop] stands
    for [defined(EXTRA_HYDRO_LOOP)] and [with_mpi] for
    [defined(WITH_MPI)]. *)
Record engine : Type := {
  size_links : Z;
  extra_hydro_loop : bool;
  with_mpi : bool
}.

(** The memory: the scheduler [e->sched], the cells and [e->nr_links]. *)
Record state : Type := {
  sched : scheduler;
  cells : list cell;
  nr_links : Z
}.

Definition cell_at (st : state) (c : nat) : result cell :=
  match cells st !! c with
  | Some c => Ok c
  | None => Error "invalid cell pointer"
  end.

Definition task_at (st : state) (ind : nat) : result task :=
  match tasks (sched st) !! ind with
  | Some t => Ok t
  | None => Error "invalid task pointer"
  end.

(** A store [c->field = v], as the update [f] of the cell at [c]. *)
Definition set_cell (c : nat) (f : cell -> cell) (st : state) : result state :=
  match cells st !! c with
  | Some x => Ok {| sched := sched st; cells := <[c := f x]> (cells st);
                    nr_links := nr_links st |}
  | None => Error "invalid cell pointer"
  end.

(** [scheduler_addtask(s, ...)] and [scheduler_addunlock(s, ta, tb)] on the
    scheduler of the engine. *)
Definition addtask (st : state) (type : task_type) (subtype : task_subtype)
    (flags wait : Z) (ci cj : option nat) (tight : bool) : state * nat :=
  let '(s, t) := scheduler_addtask (sched st) type subtype flags wait ci cj
                   tight in
  ({| sched := s; cells := cells st; nr_links := nr_links st |}, t).

Definition addunlock (ta tb : option nat) (st : state) : state :=
  {| sched := scheduler_addunlock (sched st) ta tb; cells := cells st;
     nr_links := nr_links st |}.

(** [void engine_addlink(struct engine *e, struct link **l, struct task *t)]
    for the link list [field] of the cell [c]. *)
Definition engine_addlink (e : engine) (field : cell -> list (option nat))
    (set_field : list (option nat) -> cell -> cell) (c : nat)
    (t : option nat) (st : state) : result state :=
  (* Get the next free link. *)
  let ind := nr_links st in
  let st := {| sched := sched st; cells := cells st;
               nr_links := nr_links st + 1 |} in
  if size_links e <=? ind then Error "Link table overflow."
  else
    cl ← cell_at st c;
    set_cell c (set_field (t :: field cl)) st.

(** [for (struct link *l = links; l != NULL; l = l->next) {
       scheduler_addunlock(s, ta, l->t);
       scheduler_addunlock(s, l->t, tb); }] *)
Definition unlock_links (ta tb : option nat) (links : list nat) (st : state)
  : state :=
  foldl (fun st t => addunlock (Some t) tb (addunlock ta (Some t) st)) st
        links.

(** ** Receiving *)

(** The head of [engine_addtasks_recv]: the recv tasks of the cell [c],
    created if there are none yet and the cell has density tasks. *)
Definition engine_addtasks_recv_create (e : engine) (c : nat) (cl : cell)
    (t_xv t_rho t_gradient t_ti : option nat) (st : state)
  : state * option nat * option nat * option nat * option nat :=
  (* Do we need to construct a recv task? *)
  if bool_decide (t_xv = None) && negb (bool_decide (density cl = [])) then
    (* Create the tasks. *)
    let '(st, xv) := addtask st task_type_recv task_subtype_xv (4 * tag cl) 0
                       (Some c) None false in
    let '(st, rho) := addtask st task_type_recv task_subtype_rho
                        (4 * tag cl + 1) 0 (Some c) None false in
    let '(st, ti) := addtask st task_type_recv task_subtype_tend
                       (4 * tag cl + 2) 0 (Some c) None false in
    if extra_hydro_loop e then
      let '(st, gr) := addtask st task_type_recv task_subtype_gradient
                         (4 * tag cl + 3) 0 (Some c) None false in
      (st, Some xv, Some rho, Some gr, Some ti)
    else (st, Some xv, Some rho, t_gradient, Some ti)
  else (st, t_xv, t_rho, t_gradient, t_ti).

(** The dependencies that [engine_addtasks_recv] adds for the cell [cl]. *)
Definition engine_addtasks_recv_unlocks (e : engine) (cl : cell)
    (t_xv t_rho t_gradient t_ti : option nat) (st : state) : state :=
  if extra_hydro_loop e then
    let st := unlock_links t_xv t_rho (density cl) st in
    let st := unlock_links t_rho t_gradient (gradient cl) st in
    let st := unlock_links t_gradient t_ti (force cl) st in
    if bool_decide (sorts cl <> None) then addunlock t_xv (sorts cl) st
    else st
  else
    let st := unlock_links t_xv t_rho (density cl) st in
    let st := unlock_links t_rho t_ti (force cl) st in
    if bool_decide (sorts cl <> None) then addunlock t_xv (sorts cl) st
    else st.

(** [void engine_addtasks_recv(struct engine *e, struct cell *c,
       struct task *t_xv, struct task *t_rho, struct task *t_gradient,
       struct task *t_ti)]; [depth] bounds the depth of the recursion. *)
Fixpoint engine_addtasks_recv (depth : nat) (e : engine) (c : nat)
    (t_xv t_rho t_gradient t_ti : option nat) (st : state) : result state :=
  if negb (with_mpi e)
  then Error "SWIFT was not compiled with MPI support."
  else
    match depth with
    | O => Error "recursion too deep"
    | S depth =>
      cl ← cell_at st c;
      let '(st, t_xv, t_rho, t_gradient, t_ti) :=
        engine_addtasks_recv_create e c cl t_xv t_rho t_gradient t_ti st in
      st ← set_cell c (set_recv t_xv t_rho t_gradient t_ti) st;
      (* Add dependencies. *)
      let st :=
        engine_addtasks_recv_unlocks e cl t_xv t_rho t_gradient t_ti st in
      (* Recurse? *)
      if split cl then
        foldl (fun st k =>
                 st ← st;
                 match k with
                 | Some p => engine_addtasks_recv depth e p t_xv t_rho
                               t_gradient t_ti st
                 | None => Ok st
                 end) (Ok st) (progeny cl)
      else Ok st
    end.

(** ** Sending *)

(** The task [t] of a density link is for the node [node]: one of its
    cells is on that node. *)
Definition for_node (st : state) (node : Z) (t : nat) : result bool :=
  tk ← task_at st t;
  a ← deref (ci tk);
  a_c ← cell_at st a;
  if nodeID a_c =? node then Ok true
  else
    match cj tk with
    | Some b => b_c ← cell_at st b; Ok (nodeID b_c =? node)
    | None => Ok false
    end.

(** [for (l = ci->density; l != NULL; l = l->next) if (...) break;], and
    whether the loop has left [l != NULL]. *)
Fixpoint density_for_node (st : state) (node : Z) (links : list nat)
  : result bool :=
  match links with
  | [] => Ok false
  | t :: links =>
    for_node st node t ≫= fun b : bool =>
    if b then Ok true else density_for_node st node links
  end.

(** The body of [if (t_xv == NULL)]: the send tasks of the cell [ci] for
    the cell [cj] and their dependencies. *)
Definition engine_addtasks_send_create (e : engine) (ci cj : nat)
    (t_gradient : option nat) (st : state)
  : result (state * option nat * option nat * option nat * option nat) :=
  ci_c ← cell_at st ci;
  sup ← deref (super ci_c);
  sup_c ← cell_at st sup;
  st ← (if bool_decide (drift sup_c = None) then
          let '(st, d) := addtask st task_type_drift task_subtype_none 0 0
                            (Some sup) None false in
          set_cell sup (set_drift (Some d)) st
        else Ok st);
  let '(st, xv) := addtask st task_type_send task_subtype_xv (4 * tag ci_c) 0
                     (Some ci) (Some cj) false in
  let '(st, rho) := addtask st task_type_send task_subtype_rho
                      (4 * tag ci_c + 1) 0 (Some ci) (Some cj) false in
  let '(st, ti) := addtask st task_type_send task_subtype_tend
                     (4 * tag ci_c + 2) 0 (Some ci) (Some cj) false in
  if extra_hydro_loop e then
    let '(st, gr) := addtask st task_type_send task_subtype_gradient
                       (4 * tag ci_c + 3) 0 (Some ci) (Some cj) false in
    sup_c ← cell_at st sup;
    let st := addunlock (Some gr) (kick2 sup_c) st in
    let st := addunlock (extra_ghost sup_c) (Some gr) st in
    (* The send_rho task should unlock the super-cell's extra_ghost task. *)
    let st := addunlock (Some rho) (extra_ghost sup_c) st in
    (* The send_rho task depends on the cell's ghost task. *)
    let st := addunlock (ghost sup_c) (Some rho) st in
    (* The send_xv task should unlock the super-cell's ghost task. *)
    let st := addunlock (Some xv) (ghost sup_c) st in
    (* Drift before you send *)
    let st := addunlock (drift sup_c) (Some xv) st in
    (* The super-cell's timestep task should unlock the send_ti task. *)
    let st := addunlock (timestep sup_c) (Some ti) st in
    Ok (st, Some xv, Some rho, Some gr, Some ti)
  else
    sup_c ← cell_at st sup;
    (* The send_rho task should unlock the super-cell's kick task. *)
    let st := addunlock (Some rho) (kick2 sup_c) st in
    (* The send_rho task depends on the cell's ghost task. *)
    let st := addunlock (ghost sup_c) (Some rho) st in
    (* The send_xv task should unlock the super-cell's ghost task. *)
    let st := addunlock (Some xv) (ghost sup_c) st in
    (* Drift before you send *)
    let st := addunlock (drift sup_c) (Some xv) st in
    (* The super-cell's timestep task should unlock the send_ti task. *)
    let st := addunlock (timestep sup_c) (Some ti) st in
    Ok (st, Some xv, Some rho, t_gradient, Some ti).

(** [engine_addlink(e, &ci->send_xv, t_xv);] and the like: the send tasks
    are added to the local cell. *)
Definition engine_addtasks_send_link (e : engine) (ci : nat)
    (t_xv t_rho t_gradient t_ti : option nat) (st : state) : result state :=
  st ← engine_addlink e send_xv set_send_xv ci t_xv st;
  st ← engine_addlink e send_rho set_send_rho ci t_rho st;
  st ← (if extra_hydro_loop e
        then engine_addlink e send_gradient set_send_gradient ci t_gradient st
        else Ok st);
  engine_addlink e send_ti set_send_ti ci t_ti st.

(** The body of [if (l != NULL)], [found] telling whether the loop over the
    density tasks has left [l != NULL]: the send tasks are attached to the
    cell [ci]. *)
Definition engine_addtasks_send_attach (e : engine) (ci cj : nat)
    (t_xv t_rho t_gradient t_ti : option nat) (found : bool) (st : state)
  : result (state * option nat * option nat * option nat * option nat) :=
  if found then
    (* Create the tasks and their dependencies? *)
    r ← (if bool_decide (t_xv = None)
         then engine_addtasks_send_create e ci cj t_gradient st
         else Ok (st, t_xv, t_rho, t_gradient, t_ti));
    let '(st, t_xv, t_rho, t_gradient, t_ti) := r in
    (* Add them to the local cell. *)
    st ← engine_addtasks_send_link e ci t_xv t_rho t_gradient t_ti st;
    Ok (st, t_xv, t_rho, t_gradient, t_ti)
  else Ok (st, t_xv, t_rho, t_gradient, t_ti).

(** [void engine_addtasks_send(struct engine *e, struct cell *ci,
       struct cell *cj, struct task *t_xv, struct task *t_rho,
       struct task *t_gradient, struct task *t_ti)]; [depth] bounds the
    depth of the recursion. *)
Fixpoint engine_addtasks_send (depth : nat) (e : engine) (ci cj : nat)
    (t_xv t_rho t_gradient t_ti : option nat) (st : state) : result state :=
  if negb (with_mpi e)
  then Error "SWIFT was not compiled with MPI support."
  else
    match depth with
    | O => Error "recursion too deep"
    | S depth =>
      cj_c ← cell_at st cj;
      let node := nodeID cj_c in
      ci_c ← cell_at st ci;
      (* Is any of the density tasks for the target node? *)
      found ← density_for_node st node (density ci_c);
      (* If so, attach send tasks. *)
      r ← engine_addtasks_send_attach e ci cj t_xv t_rho t_gradient t_ti
             found st;
      let '(st, t_xv, t_rho, t_gradient, t_ti) := r in
      (* Recurse? *)
      if split ci_c then
        foldl (fun st k =>
                 st ← st;
                 match k with
                 | Some p => engine_addtasks_send depth e p cj t_xv t_rho
                               t_gradient t_ti st
                 | None => Ok st
                 end) (Ok st) (progeny ci_c)
      else Ok st
    end.

(** ** The hierarchy of cells *)

(** The part of a cell that directs the recursion: [split] and
    [progeny]. *)
Definition shape : Type := bool * list (option nat).

Definition shape_of (c : cell) : shape := (split c, progeny c).

Definition shapes (st : state) : list shape := shape_of <$> cells st.

(** A hierarchy of cells of height at most [n] below the cell [c], with
    valid progeny pointers. *)
Inductive height_le (shs : list shape) : nat -> nat -> Prop :=
| height_le_leaf c prog n :
    shs !! c = Some (false, prog) -> height_le shs c n
| height_le_split c prog n :
    shs !! c = Some (true, prog) ->
    (forall p, Some p ∈ prog -> height_le shs p n) ->
    height_le shs c (S n).

(** [reaches shs c d]: the recursion started at [c] gets to [d], through
    split cells. *)
Inductive reaches (shs : list shape) : nat -> nat -> Prop :=
| reaches_here c : reaches shs c c
| reaches_down c prog p d :
    shs !! c = Some (true, prog) -> Some p ∈ prog -> reaches shs p d ->
    reaches shs c d.

(** ** What receiving leaves *)

(** The unlock edges of the loop [unlock_links], in the order of their
    creation. *)
Definition link_edges (ta tb : option nat) (links : list nat)
  : list (option nat * option nat) :=
  links ≫= fun t => [(ta, Some t); (Some t, tb)].

(** The recv tasks of the cell [c], in the order of their creation: the
    flags are the tag of the message. *)
Definition recv_tasks (e : engine) (c : nat) (cl : cell) : list task :=
  [ mk_task task_type_recv task_subtype_xv (4 * tag cl) (Some c) None false;
    mk_task task_type_recv task_subtype_rho (4 * tag cl + 1) (Some c) None
      false;
    mk_task task_type_recv task_subtype_tend (4 * tag cl + 2) (Some c) None
      false ] ++
  (if extra_hydro_loop e
   then [mk_task task_type_recv task_subtype_gradient (4 * tag cl + 3)
           (Some c) None false]
   else []).

(** The cell without its pointers to recv tasks, and these pointers. *)
Definition unrecv (c : cell) : cell := set_recv None None None None c.

Definition recvs (c : cell)
  : option nat * option nat * option nat * option nat :=
  (recv_xv c, recv_rho c, recv_gradient c, recv_ti c).

Section recv.
Context (e : engine) (t_xv t_rho t_gradient t_ti : option nat).

(** The unlock edges that put the tasks of the cell [cl] between the recv
    tasks, in the order of their creation. *)
Definition recv_edges (cl : cell) : list (option nat * option nat) :=
  (if extra_hydro_loop e then
     link_edges t_xv t_rho (density cl) ++
     link_edges t_rho t_gradient (gradient cl) ++
     link_edges t_gradient t_ti (force cl)
   else
     link_edges t_xv t_rho (density cl) ++
     link_edges t_rho t_ti (force cl)) ++
  (if bool_decide (sorts cl <> None) then [(t_xv, sorts cl)] else []).

(** The memory after [engine_addtasks_recv] has been at the cell [c], which
    was [cl], with recv tasks that exist. *)
Definition recv_visit (c : nat) (cl : cell) (st : state) : state :=
  {| sched := {| tasks := tasks (sched st);
                 unlocks := unlocks (sched st) ++ recv_edges cl |};
     cells := <[c := set_recv t_xv t_rho t_gradient t_ti cl]> (cells st);
     nr_links := nr_links st |}.

(** The memory [st'] is [st] after the cells in [R] were given the recv
    tasks and their dependencies: no task and no link was added, a cell has
    changed in its pointers to recv tasks at most, the cells in [R] point to
    the recv tasks, the others are as they were, and the new unlock edges
    are those of the cells in [R]. *)
Definition recv_shared (R : nat -> Prop) (st st' : state) : Prop :=
  tasks (sched st') = tasks (sched st) /\
  nr_links st' = nr_links st /\
  unrecv <$> cells st' = unrecv <$> cells st /\
  (forall d, cells st' !! d = cells st !! d \/
             exists dl', cells st' !! d = Some dl' /\
                         recvs dl' = (t_xv, t_rho, t_gradient, t_ti)) /\
  (forall d dl', R d -> cells st' !! d = Some dl' ->
                 recvs dl' = (t_xv, t_rho, t_gradient, t_ti)) /\
  (forall d, ~ R d -> cells st' !! d = cells st !! d) /\
  exists more,
    unlocks (sched st') = unlocks (sched st) ++ more /\
    forall ed, ed ∈ more <->
               exists d dl, R d /\ cells st !! d = Some dl /\
                            ed ∈ recv_edges dl.

End recv.

(** ** What sending leaves *)

(** The send tasks of the cell [ci] for the cell [cj], in the order of
    their creation: the flags are the tag of the message. *)
Definition send_tasks (e : engine) (ci cj : nat) (cl : cell) : list task :=
  [ mk_task task_type_send task_subtype_xv (4 * tag cl) (Some ci) (Some cj)
      false;
    mk_task task_type_send task_subtype_rho (4 * tag cl + 1) (Some ci)
      (Some cj) false;
    mk_task task_type_send task_subtype_tend (4 * tag cl + 2) (Some ci)
      (Some cj) false ] ++
  (if extra_hydro_loop e
   then [mk_task task_type_send task_subtype_gradient (4 * tag cl + 3)
           (Some ci) (Some cj) false]
   else []).

(** The unlock edges between the send tasks and the tasks of the super
    cell [sup_c], in the order of their creation. *)
Definition send_edges (e : engine) (xv rho gr ti : nat) (sup_c : cell)
  : list (option nat * option nat) :=
  (if extra_hydro_loop e then
     [ (Some gr, kick2 sup_c); (extra_ghost sup_c, Some gr);
       (Some rho, extra_ghost sup_c); (ghost sup_c, Some rho);
       (Some xv, ghost sup_c) ]
   else
     [ (Some rho, kick2 sup_c); (ghost sup_c, Some rho);
       (Some xv, ghost sup_c) ]) ++
  [ (drift sup_c, Some xv); (timestep sup_c, Some ti) ].

(** The super cell [sup_c] with its drift task, which is the task at [n]
    if the cell had none. *)
Definition drifted (n : nat) (sup_c : cell) : cell :=
  if bool_decide (drift sup_c = None) then set_drift (Some n) sup_c
  else sup_c.

(** The index of the send xv task that is created when the task array has
    [n] tasks: the drift task of the super cell comes first if the cell had
    none. *)
Definition send_xv_index (n : nat) (sup_c : cell) : nat :=
  if bool_decide (drift sup_c = None) then S n else n.

(** The memory after [engine_addtasks_send_create] for the cell [ci],
    which was [ci_c], with the super cell [sup], which was [sup_c]. *)
Definition send_created (e : engine) (ci cj sup : nat) (ci_c sup_c : cell)
    (st : state) : state :=
  let n := length (tasks (sched st)) in
  let xv := send_xv_index n sup_c in
  {| sched :=
       {| tasks := tasks (sched st) ++
                   (if bool_decide (drift sup_c = None)
                    then [mk_task task_type_drift task_subtype_none 0
                            (Some sup) None false]
                    else []) ++
                   send_tasks e ci cj ci_c;
          unlocks := unlocks (sched st) ++
                     send_edges e xv (xv + 1) (xv + 3) (xv + 2)
                       (drifted n sup_c) |};
     cells := <[sup := drifted n sup_c]> (cells st);
     nr_links := nr_links st |}.

(** The number of links in the [send_xv] lists of the cells, and the number
    of links that a cell takes when it is given the send tasks. *)
Definition send_links (st : state) : nat :=
  sum_list_with (fun c => length (send_xv c)) (cells st).

Definition links_per_cell (e : engine) : Z :=
  if extra_hydro_loop e then 4 else 3.

(** The cell without its links to send tasks. *)
Definition unsend (c : cell) : cell :=
  set_send_xv [] (set_send_rho [] (set_send_gradient [] (set_send_ti [] c))).

Section send.
Context (e : engine) (node : Z) (t_xv t_rho t_gradient t_ti : option nat).

(** The cell [dl'] is the cell [dl] with [k] more links to each of the send
    tasks. *)
Definition sent (k : nat) (dl dl' : cell) : Prop :=
  unsend dl' = unsend dl /\
  send_xv dl' = replicate k t_xv ++ send_xv dl /\
  send_rho dl' = replicate k t_rho ++ send_rho dl /\
  send_gradient dl' =
    (if extra_hydro_loop e then replicate k t_gradient else []) ++
    send_gradient dl /\
  send_ti dl' = replicate k t_ti ++ send_ti dl.

(** The memory [st'] is [st] after the cells in [R] that have a density
    task for the node were given links to the send tasks: the scheduler is
    as it was, every cell has as many more links to each of the send tasks
    as it has been linked, and is otherwise as it was; and the links come
    from the link table, three for a cell that is linked and four with the
    gradient task. *)
Definition send_shared (R : nat -> Prop) (st st' : state) : Prop :=
  sched st' = sched st /\
  nr_links st <= nr_links st' /\
  (nr_links st < nr_links st' -> nr_links st' <= size_links e) /\
  nr_links st' - nr_links st =
    links_per_cell e *
    (Z.of_nat (send_links st') - Z.of_nat (send_links st)) /\
  length (cells st') = length (cells st) /\
  forall d dl, cells st !! d = Some dl ->
    exists k dl', cells st' !! d = Some dl' /\ sent k dl dl' /\
      (k <> 0%nat <->
       R d /\ density_for_node st node (density dl) = Ok true).

End send.

(** ** A local hierarchy and a foreign one

    The cell 0 is local and its own super cell, with the progeny 1 and 2;
    the cell 3 is on the node 1, with the progeny 4. The tasks are the
    density pairs of the cells 0 and 1 with the cell 3, the density self of
    the cell 2, the sort of the cell 3, and the ghost, kick2 and timestep
    tasks of the cell 0. *)
Definition mk_cell (node tg : Z) (sup : option nat)
    (prog : list (option nat)) (dens : list nat) (srt : option nat) : cell :=
  {| nodeID := node; tag := tg; super := sup;
     split := negb (bool_decide (prog = [])); progeny := prog;
     density := dens; gradient := []; force := []; sorts := srt;
     drift := None; ghost := None; extra_ghost := None; kick2 := None;
     timestep := None; send_xv := []; send_rho := []; send_gradient := [];
     send_ti := []; recv_xv := None; recv_rho := None;
     recv_gradient := None; recv_ti := None |}.

Definition example_top : cell :=
  {| nodeID := 0; tag := 5; super := Some 0%nat; split := true;
     progeny := [Some 1%nat; Some 2%nat]; density := [0%nat];
     gradient := []; force := []; sorts := None; drift := None;
     ghost := Some 4%nat; extra_ghost := None; kick2 := Some 5%nat;
     timestep := Some 6%nat; send_xv := []; send_rho := [];
     send_gradient := []; send_ti := []; recv_xv := None; recv_rho := None;
     recv_gradient := None; recv_ti := None |}.

Definition example_foreign : cell :=
  mk_cell 1 9 None [Some 4%nat] [1%nat; 0%nat] (Some 3%nat).

Definition example_state : state :=
  {| sched :=
       {| tasks :=
            [ mk_task task_type_pair task_subtype_density 3 (Some 0%nat)
                (Some 3%nat) true;
              mk_task task_type_pair task_subtype_density 5 (Some 1%nat)
                (Some 3%nat) true;
              mk_task task_type_self task_subtype_density 0 (Some 2%nat)
                None false;
              mk_task task_type_sort task_subtype_none 0 (Some 3%nat) None
                false;
              mk_task task_type_ghost task_subtype_none 0 (Some 0%nat) None
                false;
              mk_task task_type_kick2 task_subtype_none 0 (Some 0%nat) None
                false;
              mk_task task_type_timestep task_subtype_none 0 (Some 0%nat)
                None false ];
          unlocks := [] |};
     cells :=
       [ example_top;
         mk_cell 0 6 (Some 0%nat) [] [1%nat] None;
         mk_cell 0 7 (Some 0%nat) [] [2%nat] None;
         example_foreign;
         mk_cell 1 10 None [] [] None ];
     nr_links := 0 |}.

Definition example_engine : engine :=
  {| size_links := 16; extra_hydro_loop := false; with_mpi := true |}.

(** The memory after the recv tasks of the foreign hierarchy were added,
    and after the send tasks of the local hierarchy for the foreign cell
    were. *)
Definition example_received : state :=
  match engine_addtasks_recv 2 example_engine 3 None None None None
          example_state with
  | Ok st => st
  | Error _ => example_state
  end.

Definition example_sent : state :=
  match engine_addtasks_send 2 example_engine 0 3 None None None None
          example_state with
  | Ok st => st
  | Error _ => example_state
  end.

End Comm.

(* ===================================================================== *)
(** * The barrier of the runners: [engine_barrier] and [engine_launch] *)
(* ===================================================================== *)

Module Barrier.

(** The threads that take [e->barrier_mutex]: the engine's own and the
    runners, each with its [tid]. *)
Inductive thread : Type :=
| Engine
| Runner (tid : nat).

#[global] Instance thread_eq_dec : EqDecision thread.
Proof. solve_decision. Defined.

(** Where a runner is: at work outside [engine_barrier]; in
    [engine_barrier] with the mutex, at the test of the loop that waits for
    the barrier to open; or inside [pthread_cond_wait]. *)
Inductive runner_at : Type :=
| Working
| Testing
| Waiting.

#[global] Instance runner_at_eq_dec : EqDecision runner_at.
Proof. solve_decision. Defined.

(** Where the engine is: with the mutex, outside the loops that wait for
    the runners (after [engine_init] or [engine_launch] has returned); in
    [scheduler_start], without the mutex; with the mutex, at the test of
    the loop that waits for the runners; or inside [pthread_cond_wait]. *)
Inductive engine_at : Type :=
| Holding
| Starting
| EngineTesting
| EngineWaiting.

#[global] Instance engine_at_eq_dec : EqDecision engine_at.
Proof. solve_decision. Defined.

(** The barrier fields of [struct engine], the holder of the mutex, and
    where the threads are. [passes] is not in the code: it counts, for each
    runner, how often the runner has left the barrier since the last
    [engine_launch]. *)
Record state : Type := {
  barrier_running : Z;
  barrier_launch : Z;
  barrier_launchcount : Z;
  barrier_mutex : option thread;
  engine : engine_at;
  runners : list runner_at;
  passes : list nat
}.

(** The code between two operations on the mutex is one step: every access
    to the barrier fields is made with the mutex. [pthread_cond_wait]
    releases the mutex and may return at any time at which the mutex is
    free, as POSIX allows; so [pthread_cond_broadcast] changes nothing that
    the model keeps. *)
Inductive event : Type :=
| RunnerEnters (tid : nat)   (* [engine_barrier] up to the loop *)
| RunnerTests (tid : nat)    (* the test of the loop, and what follows *)
| RunnerWakes (tid : nat)    (* [pthread_cond_wait] returns *)
| EngineLaunches (nr_runners : Z) (* [engine_launch] up to the unlock *)
| EngineStarted              (* [scheduler_start] is done: the lock *)
| EngineTests                (* the test of the loop that waits *)
| EngineWakes.               (* [pthread_cond_wait] returns *)

Definition set_runner (tid : nat) (at_ : runner_at) (st : state)
    (running launch : Z) (mutex : option thread) (passes_ : list nat)
  : state :=
  {| barrier_running := running; barrier_launch := launch;
     barrier_launchcount := barrier_launchcount st;
     barrier_mutex := mutex; engine := engine st;
     runners := <[tid := at_]> (runners st); passes := passes_ |}.

Definition set_engine (at_ : engine_at) (st : state)
    (mutex : option thread) : state :=
  {| barrier_running := barrier_running st;
     barrier_launch := barrier_launch st;
     barrier_launchcount := barrier_launchcount st;
     barrier_mutex := mutex; engine := at_;
     runners := runners st; passes := passes st |}.

(** [void engine_barrier(struct engine *e, int tid)], from its head to the
    loop. *)
Definition engine_barrier_enter (tid : nat) (st : state) : option state :=
  match runners st !! tid, barrier_mutex st with
  | Some Working, None =>
    (* First, get the barrier mutex. This thread is no longer running. *)
    Some (set_runner tid Testing st (barrier_running st - 1)
            (barrier_launch st) (Some (Runner tid)) (passes st))
  | _, _ => None
  end.

(** [engine_barrier], from the test of its loop on. *)
Definition engine_barrier_test (tid : nat) (st : state) : option state :=
  match runners st !! tid with
  | Some Testing =>
    (* Wait for the barrier to open. *)
    if (barrier_launch st =? 0) || (barrier_launchcount st <=? Z.of_nat tid)
    then Some (set_runner tid Waiting st (barrier_running st)
                 (barrier_launch st) None (passes st))
    else
      (* This thread has been launched. Last but not least, release the
         mutex. *)
      Some (set_runner tid Working st (barrier_running st + 1)
              (barrier_launch st - 1) None (alter S tid (passes st)))
  | _ => None
  end.

(** [pthread_cond_wait] returns to [engine_barrier], with the mutex. *)
Definition engine_barrier_wake (tid : nat) (st : state) : option state :=
  match runners st !! tid, barrier_mutex st with
  | Some Waiting, None =>
    Some (set_runner tid Testing st (barrier_running st) (barrier_launch st)
            (Some (Runner tid)) (passes st))
  | _, _ => None
  end.

(** [void engine_launch(struct engine *e, int nr_runners)], from its head
    to the unlock before [scheduler_start]. *)
Definition engine_launch_open (nr_runners : Z) (st : state) : option state :=
  match engine st with
  | Holding =>
    (* Cry havoc and let loose the dogs of war. *)
    Some {| barrier_running := barrier_running st;
            barrier_launch := nr_runners;
            barrier_launchcount := nr_runners;
            barrier_mutex := None; engine := Starting;
            runners := runners st;
            passes := replicate (length (passes st)) 0%nat |}
  | _ => None
  end.

(** [engine_launch], the lock after [scheduler_start]. *)
Definition engine_launch_started (st : state) : option state :=
  match engine st, barrier_mutex st with
  | Starting, None => Some (set_engine EngineTesting st (Some Engine))
  | _, _ => None
  end.

(** The test of [while (e->barrier_launch || e->barrier_running)], with
    which [engine_launch] and [engine_init] wait for the runners. *)
Definition engine_wait_test (st : state) : option state :=
  match engine st with
  | EngineTesting =>
    if negb (barrier_launch st =? 0) || negb (barrier_running st =? 0)
    then Some (set_engine EngineWaiting st None)
    else Some (set_engine Holding st (barrier_mutex st))
  | _ => None
  end.

(** [pthread_cond_wait] returns to the engine, with the mutex. *)
Definition engine_wait_wake (st : state) : option state :=
  match engine st, barrier_mutex st with
  | EngineWaiting, None => Some (set_engine EngineTesting st (Some Engine))
  | _, _ => None
  end.

Definition step (ev : event) (st : state) : option state :=
  match ev with
  | RunnerEnters tid => engine_barrier_enter tid st
  | RunnerTests tid => engine_barrier_test tid st
  | RunnerWakes tid => engine_barrier_wake tid st
  | EngineLaunches nr_runners => engine_launch_open nr_runners st
  | EngineStarted => engine_launch_started st
  | EngineTests => engine_wait_test st
  | EngineWakes => engine_wait_wake st
  end.

(** The events of a schedule, one after the other. *)
Definition run (evs : list event) (st : state) : option state :=
  foldl (fun st ev => st ≫= step ev) (Some st) evs.

(** [engine_init] after it has created [nr_threads] runners: it holds the
    mutex, has counted every runner as running, and comes to the loop that
    waits for the runners to be in place.

    Modelled from the spec: the runners ([runner_main] is in [runner.c],
    not part of the sources at hand) call [engine_barrier] with their
    [tid], work when they are launched, and call it again when the
    scheduler has nothing left. *)
Definition engine_init (nr_threads : nat) : state :=
  {| barrier_running := Z.of_nat nr_threads; barrier_launch := 0;
     barrier_launchcount := 0; barrier_mutex := Some Engine;
     engine := EngineTesting; runners := replicate nr_threads Working;
     passes := replicate nr_threads 0%nat |}.

(** The number of runners at work. *)
Definition working (st : state) : nat :=
  sum_list_with (fun r => if bool_decide (r = Working) then 1%nat else 0%nat)
                (runners st).

(** What holds in every state that a schedule reaches. *)
Definition barrier_inv (nr_threads : nat) (st : state) : Prop :=
  length (runners st) = nr_threads /\
  length (passes st) = nr_threads /\
  (barrier_mutex st = Some Engine <->
   engine st = Holding \/ engine st = EngineTesting) /\
  (forall tid, barrier_mutex st = Some (Runner tid) <->
               runners st !! tid = Some Testing) /\
  barrier_running st = Z.of_nat (working st) /\
  Z.of_nat (sum_list (passes st)) + barrier_launch st
    = barrier_launchcount st /\
  (0 <= barrier_launchcount st -> 0 <= barrier_launch st) /\
  (forall tid k, passes st !! tid = Some k -> k <> 0%nat ->
                 Z.of_nat tid < barrier_launchcount st) /\
  (engine st = Holding ->
   barrier_launch st = 0 /\ barrier_running st = 0).

(** Two runners, of which the first is launched twice and the second not at
    all: the second has not got the mutex before the first was back. *)
Definition example_schedule : list event :=
  [ EngineTests; RunnerEnters 0; RunnerTests 0; RunnerEnters 1;
    RunnerTests 1; EngineWakes; EngineTests;
    EngineLaunches 2; RunnerWakes 0; RunnerTests 0;
    RunnerEnters 0; RunnerTests 0; RunnerEnters 0; RunnerTests 0;
    EngineStarted; EngineTests ].

End Barrier.

(* ===================================================================== *)
(** * The proxies of the neighbouring nodes: [engine_makeproxies] *)
(* ===================================================================== *)

Module Proxies.

(** The fields of a top-level [struct cell] that the function reads or
    writes; [sendto] is an [unsigned long long] of 64 bits. *)
Record cell : Type := {
  nodeID : Z;
  sendto : Z
}.

(** The calls into [proxy.c], which is not part of the sources at hand: the
    proxy is named by its index in [e->proxies], a cell by its index in
    [cells_top]. *)
Inductive call : Type :=
| proxy_init (pid : Z) (mynodeID nodeID : Z)
| proxy_addcell_in (pid : Z) (c : Z)
| proxy_addcell_out (pid : Z) (c : Z).

#[global] Instance call_eq_dec : EqDecision call.
Proof. solve_decision. Defined.

(** The memory: the top-level cells, [e->proxy_ind], [e->nr_proxies] and
    the calls into [proxy.c] so far. *)
Record state : Type := {
  cells : list cell;
  proxy_ind : list Z;
  nr_proxies : Z;
  calls : list call
}.

Definition set_sendto (x : Z) (c : cell) : cell :=
  {| nodeID := nodeID c; sendto := x |}.

Section proxies.
(** [engine_maxproxies] is a macro of [engine.h], not part of the sources
    at hand. *)
Context (engine_maxproxies : Z).
Context (cdim : Z * Z * Z) (nodeID_e : Z) (nr_nodes : Z).

(** Modelled from the spec: [cell_getid(cdim, i, j, k)], a macro of [cell.h]
    which is not part of the sources at hand, is
    [i * cdim[1] * cdim[2] + j * cdim[2] + k]. *)
Definition cell_getid (i j k : Z) : Z :=
  i * cdim.1.2 * cdim.2 + j * cdim.2 + k.

(** [cells[cid]] and [e->proxy_ind[node]]; an index outside the array is an
    abort of the model. *)
Definition cell_at (st : state) (cid : Z) : result cell :=
  if cid <? 0 then Error "invalid cell index"
  else match cells st !! Z.to_nat cid with
       | Some c => Ok c
       | None => Error "invalid cell index"
       end.

Definition proxy_ind_at (st : state) (node : Z) : result Z :=
  if node <? 0 then Error "invalid node index"
  else match proxy_ind st !! Z.to_nat node with
       | Some pid => Ok pid
       | None => Error "invalid node index"
       end.

(** [int pid = e->proxy_ind[node]; if (pid < 0) { ... }]: the proxy of the
    node, made if there is none yet. *)
Definition proxy_of (node : Z) (st : state) : result (state * Z) :=
  pid ← proxy_ind_at st node;
  if pid <? 0 then
    if nr_proxies st =? engine_maxproxies
    then Error "Maximum number of proxies exceeded."
    else
      Ok ({| cells := cells st;
             proxy_ind := <[Z.to_nat node := nr_proxies st]> (proxy_ind st);
             nr_proxies := nr_proxies st + 1;
             calls := calls st ++
                      [proxy_init (nr_proxies st) nodeID_e node] |},
          nr_proxies st)
  else Ok (st, pid).

(** The body of [if (cells[cid].nodeID == e->nodeID &&
    cells[cjd].nodeID != e->nodeID)], and of the second test with [cid] and
    [cjd] in each other's place: the foreign cell [c_in] comes in, the local
    cell [c_out] goes out. A shift by 64 or more is an abort of the
    model. *)
Definition add_to_proxies (c_out c_in : Z) (st : state) : result state :=
  c_in_c ← cell_at st c_in;
  r ← proxy_of (nodeID c_in_c) st;
  let '(st, pid) := r in
  let st := {| cells := cells st; proxy_ind := proxy_ind st;
               nr_proxies := nr_proxies st;
               calls := calls st ++ [proxy_addcell_in pid c_in;
                                     proxy_addcell_out pid c_out] |} in
  c_out_c ← cell_at st c_out;
  if 64 <=? pid then Error "shift count too large"
  else
    Ok {| cells := <[Z.to_nat c_out :=
                       set_sendto (Z.lor (sendto c_out_c) (Z.shiftl 1 pid))
                         c_out_c]> (cells st);
          proxy_ind := proxy_ind st; nr_proxies := nr_proxies st;
          calls := calls st |}.

(** The body of the innermost loop, for the cell [cid] and its neighbour
    [cjd]. Between them the two tests read both cells, whatever their first
    conjuncts give. *)
Definition neighbour_body (cid cjd : Z) (st : state) : result state :=
  (* Add to proxies? *)
  ci ← cell_at st cid;
  cj ← cell_at st cjd;
  st ← (if (nodeID ci =? nodeID_e) && negb (nodeID cj =? nodeID_e)
        then add_to_proxies cid cjd st else Ok st);
  ci ← cell_at st cid;
  cj ← cell_at st cjd;
  if (nodeID cj =? nodeID_e) && negb (nodeID ci =? nodeID_e)
  then add_to_proxies cjd cid st else Ok st.

(** [for (x = ...) body], threading the memory and the aborts. *)
Definition for_all {A : Type} (l : list A)
    (body : A -> state -> result state) (st : state) : result state :=
  foldl (fun st x => st ← st; body x st) (Ok st) l.

(** [int ii = x + i; if (ii >= c) ii -= c; else if (ii < 0) ii += c;] *)
Definition wrapped (x i c : Z) : Z :=
  let ii := x + i in
  if ii >=? c then ii - c else if ii <? 0 then ii + c else ii.

(** [void engine_makeproxies(struct engine *e)]; [with_mpi] stands for
    [defined(WITH_MPI)]. *)
Definition engine_makeproxies (with_mpi : bool) (st : state) : result state :=
  if negb with_mpi then Error "SWIFT was not compiled with MPI support."
  else
    (* Prepare the proxies and the proxy index. *)
    let st := {| cells := cells st;
                 proxy_ind := replicate (Z.to_nat nr_nodes) (-1);
                 nr_proxies := 0; calls := calls st |} in
    (* Loop over each cell in the space. *)
    for_all (seqZ 0 cdim.1.1) (fun ind0 =>
      for_all (seqZ 0 cdim.1.2) (fun ind1 =>
        for_all (seqZ 0 cdim.2) (fun ind2 =>
          (* Get the cell ID. *)
          let cid := cell_getid ind0 ind1 ind2 in
          (* Loop over all its neighbours (periodic). *)
          for_all [-1; 0; 1] (fun i =>
            let ii := wrapped ind0 i cdim.1.1 in
            for_all [-1; 0; 1] (fun j =>
              let jj := wrapped ind1 j cdim.1.2 in
              for_all [-1; 0; 1] (fun k =>
                let kk := wrapped ind2 k cdim.2 in
                (* Get the cell ID. *)
                let cjd := cell_getid ii jj kk in
                neighbour_body cid cjd)))))) st.

(** ** The pairs of neighbours, and what they link *)

(** The pairs of a cell and a neighbour, in the order of the loops. *)
Definition neighbour_pairs : list (Z * Z) :=
  ind0 ← seqZ 0 cdim.1.1; ind1 ← seqZ 0 cdim.1.2; ind2 ← seqZ 0 cdim.2;
  i ← [-1; 0; 1]; j ← [-1; 0; 1]; k ← [-1; 0; 1];
  [(cell_getid ind0 ind1 ind2,
    cell_getid (wrapped ind0 i cdim.1.1) (wrapped ind1 j cdim.1.2)
      (wrapped ind2 k cdim.2))].

(** The node of the cell [c], if [c] is a cell. *)
Definition node_of (cs : list cell) (c : Z) : option Z :=
  if c <? 0 then None else nodeID <$> cs !! Z.to_nat c.

(** A link: a local cell, a cell of another node, and that node. *)
Record link : Type := {
  l_out : Z;
  l_in : Z;
  l_node : Z
}.

(** The link from the cell [a] to the cell [b], if [a] is local and [b] is
    not. *)
Definition link_of (cs : list cell) (a b : Z) : list link :=
  match node_of cs a, node_of cs b with
  | Some na, Some nb =>
    if (na =? nodeID_e) && negb (nb =? nodeID_e)
    then [{| l_out := a; l_in := b; l_node := nb |}] else []
  | _, _ => []
  end.

(** The links of the pairs [l], in the order in which the loops come to
    them. *)
Definition links (cs : list cell) (l : list (Z * Z)) : list link :=
  l ≫= fun p => link_of cs p.1 p.2 ++ link_of cs p.2 p.1.

(** The nodes that the links lead to. *)
Definition nodes (ls : list link) : gset Z := list_to_set (l_node <$> ls).

(** The proxy of a node, if the node has one: [e->proxy_ind[node]], which
    is -1 if it has none. *)
Definition pid_of (st : state) (node : Z) : option Z :=
  if node <? 0 then None else proxy_ind st !! Z.to_nat node.

(** What the loops keep: the memory [st] has the proxies of the links [ls],
    when the cells were [cs0] and the calls [calls0] before, and no node had
    a proxy. *)
Definition proxied (cs0 : list cell) (calls0 : list call) (ls : list link)
    (st : state) : Prop :=
  (* the cells stay on their nodes *)
  nodeID <$> cells st = nodeID <$> cs0 /\
  (* the proxies are numbered from 0, one for each node that is linked *)
  0 <= nr_proxies st /\
  (0 <= engine_maxproxies -> nr_proxies st <= engine_maxproxies) /\
  (forall n pid, proxy_ind st !! n = Some pid ->
     pid = -1 \/
     0 <= pid < nr_proxies st /\
     exists lk, lk ∈ ls /\ l_node lk = Z.of_nat n) /\
  (forall lk, lk ∈ ls ->
     exists pid, pid_of st (l_node lk) = Some pid /\ 0 <= pid < 64) /\
  (forall n m pid, proxy_ind st !! n = Some pid ->
     proxy_ind st !! m = Some pid -> 0 <= pid -> n = m) /\
  (forall pid, 0 <= pid < nr_proxies st ->
     exists n, proxy_ind st !! n = Some pid) /\
  (* a local cell has the bits of the proxies of its neighbours' nodes *)
  (forall c cl0 cl bit, cs0 !! c = Some cl0 -> cells st !! c = Some cl ->
     0 <= bit ->
     (Z.testbit (sendto cl) bit = true <->
      Z.testbit (sendto cl0) bit = true \/
      exists lk, lk ∈ ls /\ l_out lk = Z.of_nat c /\
                 pid_of st (l_node lk) = Some bit)) /\
  (* and the proxies were made and given these cells *)
  exists new,
    calls st = calls0 ++ new /\
    (forall pid my node, proxy_init pid my node ∈ new <->
       my = nodeID_e /\ pid_of st node = Some pid /\ 0 <= pid) /\
    (forall pid c, proxy_addcell_in pid c ∈ new <->
       exists lk, lk ∈ ls /\ l_in lk = c /\
                  pid_of st (l_node lk) = Some pid) /\
    (forall pid c, proxy_addcell_out pid c ∈ new <->
       exists lk, lk ∈ ls /\ l_out lk = c /\
                  pid_of st (l_node lk) = Some pid).

End proxies.

(** ** A line of four cells on three nodes

    The cells 0 and 1 are on the node 0, the cell 2 on the node 1 and the
    cell 3 on the node 2; the space is one cell wide in the other two
    directions. *)
Definition example_state : state :=
  {| cells := [ {| nodeID := 0; sendto := 0 |};
                {| nodeID := 0; sendto := 0 |};
                {| nodeID := 1; sendto := 0 |};
                {| nodeID := 2; sendto := 0 |} ];
     proxy_ind := [7; 7; 7]; nr_proxies := 5; calls := [] |}.

Definition example_proxies : state :=
  match engine_makeproxies 64 (4, 1, 1) 0 3 true example_state with
  | Ok st => st
  | Error _ => example_state
  end.

End Proxies.

(* ===================================================================== *)
(** * Proofs *)
(* ===================================================================== *)

Module Facts.

Lemma result_bind_ok {A B} (m : result A) (k : A -> result B) b :
  (a ← m; k a) = Ok b <-> exists a, m = Ok a /\ k a = Ok b.
Proof.
  destruct m as [a | msg]; cbn; split.
  - eauto.
  - now intros (a' & [= <-] & Hk).
  - discriminate.
  - now intros (a' & [=] & _).
Qed.

Lemma foldl_error {A B} (f : result A -> B -> result A) l msg :
  (forall b m, f (Error m) b = Error m) ->
  foldl f (Error msg) l = Error msg.
Proof.
  intros Hf. induction l as [| b l IH]; [reflexivity |].
  cbn [foldl]. now rewrite Hf.
Qed.

Lemma filter_none {B} (P : B -> Prop) `{!forall t, Decision (P t)} (l : list B) :
  (forall t, t ∈ l -> ~ P t) -> filter P l = [].
Proof.
  intros Hnone. induction l as [| t l IH]; [reflexivity |].
  rewrite filter_cons_False by (apply Hnone, list_elem_of_here).
  apply IH. intros t' Ht'. now apply Hnone, list_elem_of_further.
Qed.

Lemma filter_bind_none {A B} (P : B -> Prop) `{!forall t, Decision (P t)}
    (f : A -> list B) (l : list A) :
  (forall x, x ∈ l -> forall t, t ∈ f x -> ~ P t) ->
  filter P (l ≫= f) = [].
Proof.
  intros Hnone. induction l as [| x l IH]; [reflexivity |].
  rewrite bind_cons, filter_app, IH.
  - rewrite app_nil_r. apply filter_none.
    intros t Ht. eapply Hnone; [apply list_elem_of_here | exact Ht].
  - intros y Hy. apply Hnone. now apply list_elem_of_further.
Qed.

Lemma filter_bind_unique {A B} (P : B -> Prop) `{!forall t, Decision (P t)}
    (f : A -> list B) (l : list A) (x0 : A) :
  NoDup l -> x0 ∈ l ->
  (forall x, x ∈ l -> x <> x0 -> forall t, t ∈ f x -> ~ P t) ->
  filter P (l ≫= f) = filter P (f x0).
Proof.
  intros Hnd Hin Hoth. induction Hnd as [| x l Hx Hnd IH]; [inversion Hin |].
  rewrite bind_cons, filter_app.
  apply elem_of_cons in Hin as [<- | Hin].
  - rewrite (filter_bind_none P f l), app_nil_r; [reflexivity |].
    intros y Hy. apply Hoth; [now apply list_elem_of_further |].
    intros ->. contradiction.
  - rewrite IH; [| assumption |].
    + replace (filter P (f x)) with (@nil B); [reflexivity |].
      symmetry. apply filter_none. intros t Ht.
      eapply Hoth; [apply list_elem_of_here | | exact Ht].
      intros ->. contradiction.
    + intros y Hy. apply Hoth. now apply list_elem_of_further.
Qed.

End Facts.

Module LoggerProofs.
Import Logger.

Lemma truthy_false z : truthy z = false <-> z = 0.
Proof. unfold truthy. rewrite negb_false_iff. apply Z.eqb_eq. Qed.

Lemma truthy_true z : truthy z = true <-> z <> 0.
Proof. unfold truthy. rewrite negb_true_iff. apply Z.eqb_neq. Qed.

Lemma length_memcpy buff src n :
  (Z.to_nat n <= length src)%nat ->
  length (memcpy buff src n) = (length buff + Z.to_nat n)%nat.
Proof.
  intros Hn. unfold memcpy.
  rewrite length_app, length_firstn. lia.
Qed.

Lemma memcpy_whole buff src n :
  length src = Z.to_nat n -> memcpy buff src n = buff ++ src.
Proof.
  intros Hn. unfold memcpy. f_equal.
  apply firstn_all2. lia.
Qed.

Lemma length_bytes_of_uint64 w : length (bytes_of_uint64 w) = 8%nat.
Proof. reflexivity. Qed.

Lemma header_low mask offset : header mask offset mod 2 ^ 56 = offset mod 2 ^ 56.
Proof.
  unfold header, uint64.
  apply Z.bits_inj'. intros n Hn.
  destruct (Z.ltb_spec n 56) as [Hlt | Hge].
  - rewrite !Z.mod_pow2_bits_low by lia.
    rewrite Z.lor_spec, Z.land_spec.
    rewrite !Z.mod_pow2_bits_low by lia.
    rewrite Z.shiftl_spec_low by lia.
    change 72057594037927935 with (Z.ones 56).
    rewrite Z.ones_spec_low by lia.
    now rewrite andb_true_r, orb_false_r.
  - now rewrite !Z.mod_pow2_bits_high by lia.
Qed.

Lemma header_high mask offset : header mask offset / 2 ^ 56 = mask mod 2 ^ 8.
Proof.
  unfold header, uint64.
  apply Z.bits_inj'. intros n Hn.
  rewrite <- Z.shiftr_div_pow2 by lia.
  rewrite Z.shiftr_spec by lia.
  rewrite Z.lor_spec, Z.land_spec.
  change 72057594037927935 with (Z.ones 56).
  rewrite Z.ones_spec_high by lia.
  rewrite andb_false_r, orb_false_l.
  destruct (Z.ltb_spec n 8) as [Hlt | Hge].
  - rewrite !Z.mod_pow2_bits_low by lia.
    rewrite Z.shiftl_spec by lia.
    replace (n + 56 - 56) with n by lia.
    now rewrite Z.mod_pow2_bits_low by lia.
  - rewrite (Z.mod_pow2_bits_high mask) by lia.
    now rewrite Z.mod_pow2_bits_high by lia.
Qed.

Lemma header_split mask offset :
  header mask offset = offset mod 2 ^ 56 + 2 ^ 56 * (mask mod 2 ^ 8).
Proof.
  rewrite (Z.div_mod (header mask offset) (2 ^ 56)) by lia.
  rewrite header_low, header_high. lia.
Qed.

Lemma header_range mask offset : 0 <= header mask offset < 2 ^ 64.
Proof.
  rewrite header_split.
  pose proof (Z.mod_pos_bound offset (2 ^ 56)).
  pose proof (Z.mod_pos_bound mask (2 ^ 8)). lia.
Qed.

Lemma uint64_of_bytes_of_uint64 w :
  0 <= w < 2 ^ 64 -> uint64_of_bytes (bytes_of_uint64 w) = w.
Proof.
  intros Hw. unfold bytes_of_uint64. cbn [seq map uint64_of_bytes].
  change 255 with (Z.ones 8).
  rewrite !Z.land_ones, !Z.shiftr_div_pow2 by lia.
  change (8 * Z.of_nat 0) with 0. change (8 * Z.of_nat 1) with 8.
  change (8 * Z.of_nat 2) with 16. change (8 * Z.of_nat 3) with 24.
  change (8 * Z.of_nat 4) with 32. change (8 * Z.of_nat 5) with 40.
  change (8 * Z.of_nat 6) with 48. change (8 * Z.of_nat 7) with 56.
  assert (Hstep : forall k, 0 <= k ->
            w / 2 ^ k = (w / 2 ^ k) mod 2 ^ 8 + 256 * (w / 2 ^ (k + 8))).
  { intros k Hk. rewrite Z.pow_add_r, <- Z.div_div by lia.
    pose proof (Z.div_mod (w / 2 ^ k) (2 ^ 8)). lia. }
  pose proof (Hstep 0 ltac:(lia)) as H0. pose proof (Hstep 8 ltac:(lia)) as H1.
  pose proof (Hstep 16 ltac:(lia)) as H2. pose proof (Hstep 24 ltac:(lia)) as H3.
  pose proof (Hstep 32 ltac:(lia)) as H4. pose proof (Hstep 40 ltac:(lia)) as H5.
  pose proof (Hstep 48 ltac:(lia)) as H6. pose proof (Hstep 56 ltac:(lia)) as H7.
  change (0 + 8) with 8 in *. change (8 + 8) with 16 in *.
  change (16 + 8) with 24 in *. change (24 + 8) with 32 in *.
  change (32 + 8) with 40 in *. change (40 + 8) with 48 in *.
  change (48 + 8) with 56 in *. change (56 + 8) with 64 in *.
  assert (H8 : w / 2 ^ 64 = 0) by (apply Z.div_small; lia).
  assert (Hw0 : w / 2 ^ 0 = w) by (rewrite Z.pow_0_r; apply Z.div_1_r).
  rewrite H8 in H7. clear Hstep H8 Hw.
  remember (w / 2 ^ 0) as q0. remember (w / 2 ^ 8) as q1.
  remember (w / 2 ^ 16) as q2. remember (w / 2 ^ 24) as q3.
  remember (w / 2 ^ 32) as q4. remember (w / 2 ^ 40) as q5.
  remember (w / 2 ^ 48) as q6. remember (w / 2 ^ 56) as q7.
  lia.
Qed.

Section logger_proofs.
Context {M : masks} {dump : Type} (dump_get : dump -> Z -> dump * Z).

Lemma logger_size_particle mask :
  Z.land mask logger_mask_timestamp = 0 ->
  forall g p, part_wf p ->
  logger_size mask = Ok (8 + Z.of_nat (length (expected_payload g p mask))).
Proof.
  intros Hts g p (Hx & Hv & Ha & Hu & He & Hh & Hr & Hm & Hi).
  unfold logger_size, expected_payload, field.
  apply truthy_false in Hts. rewrite Hts.
  assert (Hue : length (if g then entropy p else u p) = 4%nat)
    by (destruct g; assumption).
  f_equal.
  repeat match goal with
         | |- context [truthy ?z] => destruct (truthy z)
         end;
    rewrite ?length_app, ?Hx, ?Hv, ?Ha, ?Hue, ?Hh, ?Hr, ?Hm, ?Hi;
    reflexivity.
Qed.

Lemma logger_log_part_buffer g p mask offset d :
  Z.land mask logger_mask_timestamp = 0 ->
  part_wf p ->
  forall size, logger_size mask = Ok size ->
  logger_log_part dump_get g p mask offset d =
    Ok {| log_dump := (dump_get d size).1;
          log_buff := bytes_of_uint64 (header mask offset) ++
                      expected_payload g p mask;
          log_offset := (dump_get d size).2 |}.
Proof.
  intros Hts (Hx & Hv & Ha & Hu & He & Hh & Hr & Hm & Hi) size Hsize.
  unfold logger_log_part. apply truthy_false in Hts. rewrite Hts, Hsize.
  cbn [mbind result_bind]. destruct (dump_get d size) as [d' offset_new].
  cbn [fst snd]. f_equal. f_equal.
  fold (header mask offset).
  assert (Hue : length (if g then entropy p else u p) = 4%nat)
    by (destruct g; assumption).
  unfold expected_payload, field.
  rewrite (memcpy_whole [] (bytes_of_uint64 _) 8) by reflexivity.
  repeat match goal with
         | |- context [truthy ?z] => destruct (truthy z)
         end;
    rewrite ?memcpy_whole by (try assumption; rewrite ?Hx, ?Hv, ?Ha, ?Hue, ?Hh, ?Hr, ?Hm, ?Hi; reflexivity);
    rewrite <- ?app_assoc, ?app_nil_r; reflexivity.
Qed.

(** C10 (as amended). With the timestamp bit clear, [logger_log_part]
    succeeds and writes exactly [logger_size mask] bytes into the buffer that
    [dump_get] reserved for that size: the eight bytes of a header word whose
    low 56 bits are those of the previous offset and whose top 8 bits are the
    low 8 bits of the mask, then the fields selected by the mask, in order
    (mass and id whenever the rho bit is set). With the timestamp bit set it
    aborts. *)
Theorem logger_log_part_message (g : bool) (p : part) (mask offset : Z)
    (d : dump) :
  part_wf p ->
  (Z.land mask logger_mask_timestamp = 0 ->
   exists size hdr,
     logger_size mask = Ok size /\
     logger_log_part dump_get g p mask offset d =
       Ok {| log_dump := (dump_get d size).1;
             log_buff := bytes_of_uint64 hdr ++ expected_payload g p mask;
             log_offset := (dump_get d size).2 |} /\
     Z.of_nat (length (bytes_of_uint64 hdr ++ expected_payload g p mask)) = size /\
     length (bytes_of_uint64 hdr) = 8%nat /\
     uint64_of_bytes (bytes_of_uint64 hdr) = hdr /\
     hdr mod 2 ^ 56 = offset mod 2 ^ 56 /\
     hdr / 2 ^ 56 = mask mod 2 ^ 8) /\
  (Z.land mask logger_mask_timestamp <> 0 ->
   exists msg, logger_log_part dump_get g p mask offset d = Error msg).
Proof.
  intros Hwf. split.
  - intros Hts.
    pose proof (logger_size_particle mask Hts g p Hwf) as Hsize.
    eexists. exists (header mask offset).
    split; [exact Hsize |].
    split; [now apply logger_log_part_buffer |].
    split; [rewrite length_app, length_bytes_of_uint64; lia |].
    split; [reflexivity |].
    split; [apply uint64_of_bytes_of_uint64, header_range |].
    split; [apply header_low | apply header_high].
  - intros Hts. apply truthy_true in Hts.
    unfold logger_log_part. rewrite Hts. eauto.
Qed.

End logger_proofs.

Lemma part0_wf : part_wf part0.
Proof. repeat split. Qed.

Lemma logger_log_part_message_witness :
  part_wf part0 /\
  exists size hdr,
    logger_size (M := swift_masks) 33 = Ok size /\
    logger_log_part (M := swift_masks) bump_dump_get false part0 33 100 0 =
      Ok {| log_dump := (bump_dump_get 0 size).1;
            log_buff := bytes_of_uint64 hdr ++
                        expected_payload (M := swift_masks) false part0 33;
            log_offset := (bump_dump_get 0 size).2 |} /\
    Z.of_nat (length (bytes_of_uint64 hdr ++
                      expected_payload (M := swift_masks) false part0 33)) = size /\
    length (bytes_of_uint64 hdr) = 8%nat /\
    uint64_of_bytes (bytes_of_uint64 hdr) = hdr /\
    hdr mod 2 ^ 56 = 100 mod 2 ^ 56 /\
    hdr / 2 ^ 56 = 33 mod 2 ^ 8.
Proof.
  split; [exact part0_wf |].
  apply (logger_log_part_message (M := swift_masks) bump_dump_get
           false part0 33 100 0 part0_wf).
  reflexivity.
Defined.

(** C10 as stated fails for a mask that does not fit in eight bits: the
    header of the record written for mask 256 (timestamp bit clear) carries
    0, not the mask, in its top byte. *)
Lemma logger_header_drops_high_mask_bits :
  Z.land 256 (logger_mask_timestamp (masks := swift_masks)) = 0 /\
  exists r,
    logger_log_part (M := swift_masks) bump_dump_get false part0 256 0 0 = Ok r /\
    uint64_of_bytes (firstn 8 (log_buff r)) / 2 ^ 56 <> 256.
Proof.
  split; [reflexivity |].
  eexists. split; [reflexivity |].
  vm_compute. discriminate.
Qed.

End LoggerProofs.

Module HashmapProofs.
Import Hashmap.

Lemma truthy_land_bit w s :
  0 <= s -> truthy (Z.land w (Z.shiftl 1 s)) = Z.testbit w s.
Proof.
  intros Hs. unfold truthy.
  destruct (Z.testbit w s) eqn:Hb.
  - apply negb_true_iff, Z.eqb_neq. intros Hz.
    assert (Ht : Z.testbit (Z.land w (Z.shiftl 1 s)) s = true).
    { rewrite Z.land_spec, Hb, Z.shiftl_spec by lia.
      now rewrite Z.sub_diag. }
    rewrite Hz, Z.bits_0 in Ht. discriminate.
  - apply negb_false_iff, Z.eqb_eq.
    apply Z.bits_inj'. intros n Hn.
    rewrite Z.land_spec, Z.bits_0, Z.shiftl_spec by lia.
    destruct (Z.eq_dec n s) as [-> | Hne].
    + now rewrite Hb.
    + destruct (Z.ltb_spec n s).
      * rewrite (Z.testbit_neg_r 1) by lia. apply andb_false_r.
      * replace (Z.testbit 1 (n - s)) with false; [apply andb_false_r |].
        symmetry. change 1 with (2 ^ 0). apply Z.pow2_bits_false. lia.
Qed.

Lemma testbit_lor_bit w s n :
  0 <= s -> 0 <= n ->
  Z.testbit (Z.lor w (Z.shiftl 1 s)) n = Z.testbit w n || (n =? s).
Proof.
  intros Hs Hn. rewrite Z.lor_spec, Z.shiftl_spec by lia. f_equal.
  destruct (Z.eqb_spec n s) as [-> | Hne].
  - now rewrite Z.sub_diag.
  - destruct (Z.ltb_spec n s).
    + apply Z.testbit_neg_r. lia.
    + change 1 with (2 ^ 0). apply Z.pow2_bits_false. lia.
Qed.


Section hashmap_proofs.
Context {P : params} {V : Type} `{ZeroValue V}.
Hypothesis HP : params_wf.

Local Abbreviation chunk := (hashmap_chunk_t (V := V)).
Local Abbreviation hashmap := (hashmap_t (V := V)).

Lemma hashmap_find_probe_create n (m : hashmap) k co o curr :
  hashmap_find_probe n m k true co o curr =
  match probe_path n (chunk_at m co) k o curr with
  | None => (m, None)
  | Some (o', true) => (claim_slot k co o' m, Some (co, o'))
  | Some (o', false) => (m, Some (co, o'))
  end.
Proof.
  revert o curr. induction n as [| n IH]; intros o curr; [reflexivity |].
  cbn [hashmap_find_probe probe_path].
  fold (chunk_at m co). unfold slot_taken, slot_key.
  destruct (negb (truthy _)); [reflexivity |].
  destruct (_ =? k); [reflexivity |].
  destruct (rand_r curr) as [r curr']. apply IH.
Qed.

Lemma hashmap_find_probe_lookup n (m : hashmap) k co o curr :
  hashmap_find_probe n m k false co o curr =
  (m, match probe_path n (chunk_at m co) k o curr with
      | Some (o', false) => Some (co, o')
      | _ => None
      end).
Proof.
  revert o curr. induction n as [| n IH]; intros o curr; [reflexivity |].
  cbn [hashmap_find_probe probe_path].
  fold (chunk_at m co). unfold slot_taken, slot_key.
  destruct (negb (truthy _)); [reflexivity |].
  destruct (_ =? k); [reflexivity |].
  destruct (rand_r curr) as [r curr']. apply IH.
Qed.

(** Looking up never modifies the table. *)
Lemma hashmap_find_lookup_unchanged (m : hashmap) k :
  (hashmap_find m k false).1 = m.
Proof.
  unfold hashmap_find.
  destruct (size m >=? table_size m / 2); [reflexivity |].
  destruct (rand_r (k mod 2 ^ 32)) as [r curr].
  destruct (get_chunk_ptr m _); [| reflexivity].
  now rewrite hashmap_find_probe_lookup.
Qed.

(** Probing a chunk in which the slot found before now holds the key, and
    which is otherwise unchanged, stops at that slot. *)
Lemma probe_path_again n (c c' : chunk) k o curr o' b :
  0 <= o < HASHMAP_ELEMENTS_PER_CHUNK ->
  probe_path n c k o curr = Some (o', b) ->
  slot_taken c' o' = true ->
  slot_key c' o' = k ->
  (forall p, 0 <= p < HASHMAP_ELEMENTS_PER_CHUNK -> p <> o' ->
             slot_taken c' p = slot_taken c p /\ slot_key c' p = slot_key c p) ->
  probe_path n c' k o curr = Some (o', false).
Proof.
  destruct HP as (Hepc & _).
  intros Ho Hp Ht Hk Hoth. revert o curr Ho Hp.
  induction n as [| n IH]; intros o curr Ho Hp; [discriminate |].
  cbn [probe_path] in *.
  destruct (Z.eq_dec o o') as [-> | Hne].
  - rewrite Ht, Hk, Z.eqb_refl. reflexivity.
  - destruct (Hoth o Ho Hne) as [-> ->].
    destruct (negb (slot_taken c o)); [congruence |].
    destruct (slot_key c o =? k); [congruence |].
    destruct (rand_r curr) as [r curr']. apply IH; [| assumption].
    apply Z.mod_pos_bound. lia.
Qed.

Lemma probe_path_range n (c : chunk) k o curr o' b :
  0 <= o < HASHMAP_ELEMENTS_PER_CHUNK ->
  probe_path n c k o curr = Some (o', b) ->
  0 <= o' < HASHMAP_ELEMENTS_PER_CHUNK.
Proof.
  destruct HP as (Hepc & _).
  revert o curr. induction n as [| n IH]; intros o curr Ho Hp; [discriminate |].
  cbn [probe_path] in Hp.
  destruct (negb (slot_taken c o)); [congruence |].
  destruct (slot_key c o =? k); [congruence |].
  destruct (rand_r curr) as [r curr']. eapply IH; [| exact Hp].
  apply Z.mod_pos_bound. lia.
Qed.

Lemma probe_path_found n (c : chunk) k o curr o' :
  probe_path n c k o curr = Some (o', false) ->
  slot_taken c o' = true /\ slot_key c o' = k.
Proof.
  revert o curr. induction n as [| n IH]; intros o curr Hp; [discriminate |].
  cbn [probe_path] in Hp.
  destruct (slot_taken c o) eqn:Ht; cbn [negb] in Hp; [| congruence].
  destruct (slot_key c o =? k) eqn:Hk.
  - inversion Hp; subst. split; [assumption | now apply Z.eqb_eq].
  - destruct (rand_r curr) as [r curr']. eapply IH, Hp.
Qed.

Lemma mask_offset_range o :
  0 <= o < HASHMAP_ELEMENTS_PER_CHUNK ->
  0 <= o / HASHMAP_BITS_PER_MASK < HASHMAP_MASKS_PER_CHUNK /\
  0 <= o - o / HASHMAP_BITS_PER_MASK * HASHMAP_BITS_PER_MASK < HASHMAP_BITS_PER_MASK.
Proof.
  destruct HP as (Hepc & Hbpm & Hcover & _). intros Ho.
  assert (Hnz : HASHMAP_BITS_PER_MASK <> 0) by lia.
  pose proof (Z.div_mod o HASHMAP_BITS_PER_MASK Hnz) as Hdm.
  pose proof (Z.mod_pos_bound o HASHMAP_BITS_PER_MASK Hbpm) as Hmod.
  assert (Hq : 0 <= o / HASHMAP_BITS_PER_MASK) by (apply Z.div_pos; lia).
  assert (Hlt : o / HASHMAP_BITS_PER_MASK < HASHMAP_MASKS_PER_CHUNK).
  { apply Z.div_lt_upper_bound; lia. }
  revert Hdm Hmod Hq Hlt.
  generalize (o / HASHMAP_BITS_PER_MASK) (o mod HASHMAP_BITS_PER_MASK).
  intros q r Hdm Hmod Hq Hlt. split; [lia |]. nia.
Qed.

Lemma slot_taken_set_mask_bit (c : chunk) o p :
  chunk_wf c ->
  0 <= o < HASHMAP_ELEMENTS_PER_CHUNK ->
  0 <= p < HASHMAP_ELEMENTS_PER_CHUNK ->
  let mask_offset := o / HASHMAP_BITS_PER_MASK in
  let search_mask := Z.shiftl 1 (o - mask_offset * HASHMAP_BITS_PER_MASK) in
  slot_taken (set_mask_bit search_mask mask_offset c) p =
  slot_taken c p || (p =? o).
Proof.
  intros [Hm Hd] Ho Hp mo sm. subst mo sm.
  destruct (mask_offset_range o Ho) as [Hmo Hso].
  destruct (mask_offset_range p Hp) as [Hmp Hsp].
  unfold slot_taken, set_mask_bit, get_mask. cbn [masks].
  rewrite !truthy_land_bit by lia.
  destruct (Z.eq_dec (p / HASHMAP_BITS_PER_MASK) (o / HASHMAP_BITS_PER_MASK))
    as [Heq | Hne].
  - rewrite Heq, list_lookup_alter_eq.
    destruct (masks c !! Z.to_nat (o / HASHMAP_BITS_PER_MASK)) as [w |] eqn:Hw.
    + cbn [fmap option_fmap option_map default from_option id].
      rewrite testbit_lor_bit by lia. f_equal.
      destruct (Z.eqb_spec p o) as [-> | Hpo].
      * apply Z.eqb_refl.
      * apply Z.eqb_neq. lia.
    + apply lookup_ge_None in Hw. lia.
  - rewrite list_lookup_alter_ne by lia.
    destruct (Z.eqb_spec p o) as [-> | Hpo]; [congruence |].
    now rewrite orb_false_r.
Qed.

Lemma slot_key_set_mask_bit (c : chunk) sm mo p :
  slot_key (set_mask_bit sm mo c) p = slot_key c p.
Proof. reflexivity. Qed.

Lemma slot_taken_set_element_key (c : chunk) k o p :
  slot_taken (set_element_key k o c) p = slot_taken c p.
Proof. reflexivity. Qed.

Lemma slot_taken_set_element_value (c : chunk) v o p :
  slot_taken (set_element_value v o c) p = slot_taken c p.
Proof. reflexivity. Qed.

Lemma slot_key_set_element_key (c : chunk) k o p :
  chunk_wf c ->
  0 <= o < HASHMAP_ELEMENTS_PER_CHUNK ->
  0 <= p ->
  slot_key (set_element_key k o c) p = if p =? o then k else slot_key c p.
Proof.
  intros [Hm Hd] Ho Hp.
  unfold slot_key, set_element_key, get_element. cbn [data].
  destruct (Z.eqb_spec p o) as [-> | Hne].
  - rewrite list_lookup_alter_eq.
    destruct (data c !! Z.to_nat o) as [e |] eqn:He; [reflexivity |].
    apply lookup_ge_None in He. lia.
  - rewrite list_lookup_alter_ne by lia. reflexivity.
Qed.

Lemma slot_key_set_element_value (c : chunk) v o p :
  slot_key (set_element_value v o c) p = slot_key c p.
Proof.
  unfold slot_key, set_element_value, get_element. cbn [data].
  destruct (decide (Z.to_nat o = Z.to_nat p)) as [Heq | Hne].
  - rewrite <- Heq, list_lookup_alter_eq.
    now destruct (data c !! Z.to_nat o).
  - now rewrite list_lookup_alter_ne.
Qed.

Lemma value_set_element_value (c : chunk) v o :
  chunk_wf c ->
  0 <= o < HASHMAP_ELEMENTS_PER_CHUNK ->
  value (get_element (set_element_value v o c) o) = v.
Proof.
  intros [Hm Hd] Ho. unfold get_element, set_element_value. cbn [data].
  rewrite list_lookup_alter_eq.
  destruct (data c !! Z.to_nat o) as [e |] eqn:He; [reflexivity |].
  apply lookup_ge_None in He. lia.
Qed.

Lemma chunk_wf_set_mask_bit (c : chunk) sm mo :
  chunk_wf c -> chunk_wf (set_mask_bit sm mo c).
Proof. intros [Hm Hd]. split; cbn; [now rewrite length_alter | assumption]. Qed.

Lemma chunk_wf_set_element_key (c : chunk) k o :
  chunk_wf c -> chunk_wf (set_element_key k o c).
Proof. intros [Hm Hd]. split; cbn; [assumption | now rewrite length_alter]. Qed.

Lemma chunk_wf_set_element_value (c : chunk) v o :
  chunk_wf c -> chunk_wf (set_element_value v o c).
Proof. intros [Hm Hd]. split; cbn; [assumption | now rewrite length_alter]. Qed.

Lemma chunk_wf_zero : chunk_wf (zero_chunk (V := V)).
Proof.
  destruct HP as (Hepc & Hbpm & Hcover & _).
  split; cbn; rewrite length_replicate; [nia | lia].
Qed.

Lemma alter_chunk_chunks (m : hashmap) f co c :
  chunks m !! Z.to_nat co = Some (Some c) ->
  chunks (alter_chunk f co m) = <[Z.to_nat co := Some (f c)]> (chunks m).
Proof.
  intros Hc. unfold alter_chunk, set_chunks. cbn [chunks].
  apply list_eq. intros j.
  destruct (decide (Z.to_nat co = j)) as [<- | Hne].
  - rewrite list_lookup_alter_eq, Hc, list_lookup_insert_eq; [reflexivity |].
    eapply lookup_lt_Some, Hc.
  - now rewrite list_lookup_alter_ne, list_lookup_insert_ne.
Qed.

Lemma chunk_at_insert (m : hashmap) cs co c :
  (Z.to_nat co < length cs)%nat ->
  chunk_at (set_chunks m (<[Z.to_nat co := Some c]> cs)) co = c.
Proof.
  intros Hlt. unfold chunk_at, get_chunk_ptr, set_chunks. cbn [chunks].
  now rewrite list_lookup_insert_eq.
Qed.

Lemma chunk_at_lookup (m : hashmap) co c :
  chunks m !! Z.to_nat co = Some (Some c) -> chunk_at m co = c.
Proof. intros Hc. unfold chunk_at, get_chunk_ptr. now rewrite Hc. Qed.

Lemma hashmap_wf_insert (m : hashmap) co c g a n :
  hashmap_wf m -> chunk_wf c ->
  hashmap_wf {| chunks := <[Z.to_nat co := Some c]> (chunks m);
                graveyard := g; allocs := a; table_size := table_size m;
                nr_chunks := nr_chunks m; size := n |}.
Proof.
  intros (Hts & Hlen & Hch) Hc. split; [| split]; cbn.
  - assumption.
  - now rewrite length_insert.
  - intros i c' Hi.
    destruct (decide (Z.to_nat co = i)) as [<- | Hne].
    + apply list_lookup_insert_Some in Hi as [(_ & Heq & _) | (Hne & _)];
        [| congruence].
      inversion Heq; subst. exact Hc.
    + rewrite list_lookup_insert_ne in Hi by assumption. eapply Hch, Hi.
Qed.

(** The state after a successful creating probe, followed by the store of the
    value, in terms of the chunk probed. *)
Lemma probe_then_store n (m1 m2 : hashmap) k v co oic curr ptr c1 :
  hashmap_wf m1 ->
  chunks m1 !! Z.to_nat co = Some (Some c1) ->
  0 <= oic < HASHMAP_ELEMENTS_PER_CHUNK ->
  hashmap_find_probe n m1 k true co oic curr = (m2, Some ptr) ->
  exists o' b c',
    ptr = (co, o') /\
    0 <= o' < HASHMAP_ELEMENTS_PER_CHUNK /\
    probe_path n c1 k oic curr = Some (o', b) /\
    table_size m2 = table_size m1 /\
    size m2 = (if b then size m1 + 1 else size m1) /\
    chunks (store_value m2 ptr v) = <[Z.to_nat co := Some c']> (chunks m1) /\
    chunk_wf c' /\
    slot_taken c' o' = true /\ slot_key c' o' = k /\
    value (get_element c' o') = v /\
    (forall p, 0 <= p < HASHMAP_ELEMENTS_PER_CHUNK -> p <> o' ->
       slot_taken c' p = slot_taken c1 p /\ slot_key c' p = slot_key c1 p).
Proof.
  intros Hwf Hc1 Hoic Hprobe.
  assert (Hwf1 : chunk_wf c1) by (destruct Hwf as (_ & _ & Hch); eapply Hch, Hc1).
  rewrite hashmap_find_probe_create, (chunk_at_lookup _ _ _ Hc1) in Hprobe.
  destruct (probe_path n c1 k oic curr) as [[o' b] |] eqn:Hpath; [| discriminate].
  pose proof (probe_path_range _ _ _ _ _ _ _ Hoic Hpath) as Ho'.
  exists o', b.
  destruct b; inversion Hprobe; subst m2 ptr; clear Hprobe.
  - (* a free slot was claimed *)
    set (mo := o' / HASHMAP_BITS_PER_MASK).
    set (sm := Z.shiftl 1 (o' - mo * HASHMAP_BITS_PER_MASK)).
    exists (set_element_value v o' (set_element_key k o' (set_mask_bit sm mo c1))).
    assert (Hw1 : chunk_wf (set_mask_bit sm mo c1))
      by now apply chunk_wf_set_mask_bit.
    assert (Hw2 : chunk_wf (set_element_key k o' (set_mask_bit sm mo c1)))
      by now apply chunk_wf_set_element_key.
    split; [reflexivity |]. split; [assumption |]. split; [reflexivity |].
    split; [reflexivity |]. split; [reflexivity |].
    split.
    { unfold store_value, claim_slot. cbn [fst snd]. fold mo. fold sm.
      erewrite (alter_chunk_chunks _ (set_element_value v o')).
      2:{ erewrite (alter_chunk_chunks _ (set_element_key k o')).
          2:{ cbn [set_size chunks]. erewrite alter_chunk_chunks by exact Hc1.
              apply list_lookup_insert_eq. eapply lookup_lt_Some, Hc1. }
          apply list_lookup_insert_eq.
          cbn [set_size chunks]. erewrite alter_chunk_chunks by exact Hc1.
          rewrite length_insert. eapply lookup_lt_Some, Hc1. }
      erewrite (alter_chunk_chunks _ (set_element_key k o')).
      2:{ cbn [set_size chunks]. erewrite alter_chunk_chunks by exact Hc1.
          apply list_lookup_insert_eq. eapply lookup_lt_Some, Hc1. }
      cbn [set_size chunks]. erewrite alter_chunk_chunks by exact Hc1.
      now rewrite !list_insert_insert_eq. }
    split; [now apply chunk_wf_set_element_value |].
    split.
    { rewrite slot_taken_set_element_value, slot_taken_set_element_key.
      subst sm mo. rewrite slot_taken_set_mask_bit by assumption.
      rewrite Z.eqb_refl. apply orb_true_r. }
    split.
    { rewrite slot_key_set_element_value, slot_key_set_element_key by (try assumption; lia).
      now rewrite Z.eqb_refl. }
    split; [now apply value_set_element_value |].
    intros p Hp Hne. split.
    + rewrite slot_taken_set_element_value, slot_taken_set_element_key.
      subst sm mo. rewrite slot_taken_set_mask_bit by assumption.
      apply Z.eqb_neq in Hne. rewrite Hne. apply orb_false_r.
    + rewrite slot_key_set_element_value, slot_key_set_element_key by (try assumption; lia).
      apply Z.eqb_neq in Hne. now rewrite Hne.
  - (* the key was there already *)
    exists (set_element_value v o' c1).
    destruct (probe_path_found _ _ _ _ _ _ Hpath) as [Ht Hk].
    split; [reflexivity |]. split; [assumption |]. split; [reflexivity |].
    split; [reflexivity |]. split; [reflexivity |].
    split; [unfold store_value; cbn [fst snd]; now apply alter_chunk_chunks |].
    split; [now apply chunk_wf_set_element_value |].
    split; [now rewrite slot_taken_set_element_value |].
    split; [now rewrite slot_key_set_element_value |].
    split; [now apply value_set_element_value |].
    intros p Hp Hne.
    now rewrite slot_taken_set_element_value, slot_key_set_element_value.
Qed.

Lemma hashmap_find_offsets (m : hashmap) r :
  hashmap_wf m -> 0 <= r ->
  let offset := r mod table_size m in
  let chunk_offset := offset / HASHMAP_ELEMENTS_PER_CHUNK in
  let offset_in_chunk := offset - chunk_offset * HASHMAP_ELEMENTS_PER_CHUNK in
  0 <= chunk_offset /\
  (Z.to_nat chunk_offset < length (chunks m))%nat /\
  0 <= offset_in_chunk < HASHMAP_ELEMENTS_PER_CHUNK.
Proof.
  destruct HP as (Hepc & _). intros (Hts & Hlen & _) Hr offset co oic.
  assert (Hoff : 0 <= offset < table_size m) by (apply Z.mod_pos_bound; lia).
  assert (Hnz : HASHMAP_ELEMENTS_PER_CHUNK <> 0) by lia.
  pose proof (Z.div_mod offset HASHMAP_ELEMENTS_PER_CHUNK Hnz) as Hdm.
  pose proof (Z.mod_pos_bound offset HASHMAP_ELEMENTS_PER_CHUNK Hepc) as Hmod.
  assert (Hco : 0 <= co) by (apply Z.div_pos; lia).
  assert (Hlt : co < Z.of_nat (length (chunks m))).
  { apply Z.div_lt_upper_bound; lia. }
  subst oic. fold co in Hdm.
  split; [assumption |]. split; [lia |]. nia.
Qed.

Lemma hashmap_wf_alter_chunk (m : hashmap) f co :
  (forall c, chunk_wf c -> chunk_wf (f c)) ->
  hashmap_wf m -> hashmap_wf (alter_chunk f co m).
Proof.
  intros Hf (Hts & Hlen & Hch). split; [| split]; cbn.
  - assumption.
  - now rewrite length_alter.
  - intros i c Hi.
    destruct (decide (Z.to_nat co = i)) as [<- | Hne].
    + rewrite list_lookup_alter_eq in Hi.
      destruct (chunks m !! Z.to_nat co) as [[c0 |] |] eqn:Hc0; try discriminate.
      inversion Hi; subst. apply Hf. eapply Hch, Hc0.
    + rewrite list_lookup_alter_ne in Hi by assumption. eapply Hch, Hi.
Qed.

Lemma hashmap_wf_store_value (m : hashmap) ptr v :
  hashmap_wf m -> hashmap_wf (store_value m ptr v).
Proof.
  apply hashmap_wf_alter_chunk. intros c. apply chunk_wf_set_element_value.
Qed.

Lemma hashmap_wf_set_size (m : hashmap) n :
  hashmap_wf m -> hashmap_wf (set_size m n).
Proof. intros Hwf. exact Hwf. Qed.

Lemma hashmap_wf_claim_slot (m : hashmap) k co o :
  hashmap_wf m -> hashmap_wf (claim_slot k co o m).
Proof.
  intros Hwf. unfold claim_slot.
  apply hashmap_wf_alter_chunk; [intros c; apply chunk_wf_set_element_key |].
  apply hashmap_wf_set_size, hashmap_wf_alter_chunk; [| assumption].
  intros c. apply chunk_wf_set_mask_bit.
Qed.

Lemma hashmap_find_probe_wf n (m m2 : hashmap) k b co o curr e :
  hashmap_wf m ->
  hashmap_find_probe n m k b co o curr = (m2, e) ->
  hashmap_wf m2 /\ table_size m2 = table_size m.
Proof.
  intros Hwf Hp. destruct b.
  - rewrite hashmap_find_probe_create in Hp.
    destruct (probe_path _ _ _ _ _) as [[o' []] |]; inversion Hp; subst;
      split; try reflexivity; try assumption.
    now apply hashmap_wf_claim_slot.
  - rewrite hashmap_find_probe_lookup in Hp. inversion Hp; subst. now split.
Qed.

Lemma hashmap_find_wf (m m2 : hashmap) k b e :
  hashmap_wf m ->
  hashmap_find m k b = (m2, e) ->
  hashmap_wf m2 /\ table_size m2 = table_size m.
Proof.
  intros Hwf Hf. unfold hashmap_find in Hf.
  destruct (size m >=? table_size m / 2); [inversion Hf; subst; now split |].
  destruct (rand_r (k mod 2 ^ 32)) as [r curr].
  destruct (get_chunk_ptr m _).
  - eapply hashmap_find_probe_wf; eassumption.
  - destruct b; cbn [negb] in Hf; [| inversion Hf; subst; now split].
    unfold hashmap_get_chunk in Hf.
    destruct (graveyard m =? 0);
      (eapply hashmap_find_probe_wf in Hf;
       [destruct Hf as [Hw Ht]; split; [exact Hw | exact Ht] |]);
      (apply hashmap_wf_insert; [exact Hwf | apply chunk_wf_zero]).
Qed.

(** The heart of the matter: once a creating [hashmap_find] has returned an
    element and the value has been stored through it, a plain lookup of the
    key in a table that is not full returns the same element. *)
Lemma hashmap_find_then_lookup (m m2 : hashmap) k v ptr :
  hashmap_wf m ->
  hashmap_find m k true = (m2, Some ptr) ->
  size (store_value m2 ptr v) < table_size (store_value m2 ptr v) / 2 ->
  hashmap_find (store_value m2 ptr v) k false = (store_value m2 ptr v, Some ptr) /\
  load_value (store_value m2 ptr v) ptr = v.
Proof.
  intros Hwf Hf Hroom.
  pose proof (hashmap_find_wf _ _ _ _ _ Hwf Hf) as [Hwf2 Hts].
  unfold hashmap_find in Hf |- *.
  destruct (size m >=? table_size m / 2); [discriminate |].
  replace (table_size (store_value m2 ptr v)) with (table_size m) in * by
    (symmetry; exact Hts).
  destruct (Z.geb_spec (size (store_value m2 ptr v)) (table_size m / 2)) as [Hge | _];
    [lia |].
  destruct (rand_r (k mod 2 ^ 32)) as [r curr] eqn:Hr.
  assert (Hr0 : 0 <= r).
  { destruct HP as (_ & _ & _ & Hrand). specialize (Hrand (k mod 2 ^ 32)).
    now rewrite Hr in Hrand. }
  destruct (hashmap_find_offsets m r Hwf Hr0) as (Hco & Hlt & Hoic).
  set (co := r mod table_size m / HASHMAP_ELEMENTS_PER_CHUNK) in *.
  set (oic := r mod table_size m - co * HASHMAP_ELEMENTS_PER_CHUNK) in *.
  assert (Hstep : forall m1 c1,
            hashmap_wf m1 ->
            chunks m1 !! Z.to_nat co = Some (Some c1) ->
            hashmap_find_probe MAX_CHAIN_LENGTH m1 k true co oic curr = (m2, Some ptr) ->
            match get_chunk_ptr (store_value m2 ptr v) co with
            | Some _ =>
              hashmap_find_probe MAX_CHAIN_LENGTH (store_value m2 ptr v) k false co oic curr
            | None => (store_value m2 ptr v, None)
            end = (store_value m2 ptr v, Some ptr) /\
            load_value (store_value m2 ptr v) ptr = v).
  { intros m1 c1 Hwf1 Hc1 Hprobe.
    destruct (probe_then_store _ _ _ _ v _ _ _ _ _ Hwf1 Hc1 Hoic Hprobe)
      as (o' & b & c' & -> & Ho' & Hpath & _ & _ & Hchunks & Hwc' & Ht & Hk & Hv & Hoth).
    assert (Hc' : chunks (store_value m2 (co, o') v) !! Z.to_nat co = Some (Some c')).
    { rewrite Hchunks. apply list_lookup_insert_eq. eapply lookup_lt_Some, Hc1. }
    unfold get_chunk_ptr. rewrite Hc'. cbn [default from_option id].
    rewrite hashmap_find_probe_lookup, (chunk_at_lookup _ _ _ Hc').
    rewrite (probe_path_again _ _ _ _ _ _ _ _ Hoic Hpath Ht Hk Hoth).
    split; [reflexivity |].
    unfold load_value, get_chunk_ptr. cbn [fst snd]. rewrite Hc'. exact Hv. }
  destruct (get_chunk_ptr m co) as [c1 |] eqn:Hget.
  - apply (Hstep m c1 Hwf); [| exact Hf].
    unfold get_chunk_ptr in Hget.
    destruct (chunks m !! Z.to_nat co) as [[c |] |] eqn:Hc; cbn in Hget; congruence.
  - cbn [negb] in Hf. unfold hashmap_get_chunk in Hf.
    eapply Hstep; [| | exact Hf].
    + apply hashmap_wf_insert; [| apply chunk_wf_zero].
      destruct (graveyard m =? 0); exact Hwf.
    + cbn [set_chunks chunks set_graveyard]. apply list_lookup_insert_eq.
      destruct (graveyard m =? 0); exact Hlt.
Qed.

Lemma foldl_result_error {A B} (f : result A -> B -> result A) msg l :
  (forall b, f (Error msg) b = Error msg) ->
  foldl f (Error msg) l = Error msg.
Proof. intros Hf. induction l as [| b l IH]; cbn; [reflexivity |]. now rewrite Hf. Qed.

Lemma for_range_invariant {S : Type} (I : S -> Prop) n
    (body : S -> Z -> result S) (s s' : S) :
  I s ->
  (forall s i s', I s -> body s i = Ok s' -> I s') ->
  for_range n body s = Ok s' -> I s'.
Proof.
  intros Hs Hbody. unfold for_range.
  generalize (seq 0 (Z.to_nat n)) as l. intros l. revert s Hs.
  induction l as [| i l IH]; intros s Hs Hfold; cbn in Hfold.
  - inversion Hfold; now subst.
  - destruct (body s (Z.of_nat i)) as [s1 | msg] eqn:Hb.
    + eapply IH; [| exact Hfold]. eapply Hbody; eassumption.
    + rewrite foldl_result_error in Hfold by reflexivity. discriminate.
Qed.

Lemma hashmap_grow_entry_grown t (c : chunk) mid (m m' : hashmap) eid :
  grown t m -> hashmap_grow_entry c mid m eid = Ok m' -> grown t m'.
Proof.
  intros [Hwf Ht] Hg. unfold hashmap_grow_entry in Hg.
  destruct (truthy _); [| inversion Hg; now subst].
  destruct (hashmap_find m _ true) as [m1 [ptr |]] eqn:Hf; [| discriminate].
  inversion Hg; subst m'.
  destruct (hashmap_find_wf _ _ _ _ _ Hwf Hf) as [Hwf1 Ht1].
  split; [now apply hashmap_wf_store_value |].
  cbn. congruence.
Qed.

Lemma hashmap_grow_wf (m m' : hashmap) :
  hashmap_wf m -> hashmap_grow m = Ok m' ->
  hashmap_wf m' /\ table_size m' = HASHMAP_GROWTH_FACTOR * table_size m.
Proof.
  destruct HP as (Hepc & _).
  intros (Hts & Hlen & Hch) Hg. unfold hashmap_grow in Hg.
  eapply (for_range_invariant (grown (HASHMAP_GROWTH_FACTOR * table_size m)));
    [| | exact Hg].
  - split; [| reflexivity].
    split; [| split]; cbn [table_size chunks].
    + unfold HASHMAP_GROWTH_FACTOR. lia.
    + rewrite length_replicate, <- Hlen. unfold HASHMAP_GROWTH_FACTOR.
      replace (2 * (Z.of_nat (length (chunks m)) * HASHMAP_ELEMENTS_PER_CHUNK))
        with (2 * Z.of_nat (length (chunks m)) * HASHMAP_ELEMENTS_PER_CHUNK) by lia.
      rewrite Z.div_mul by lia. lia.
    + intros i c Hi. apply lookup_replicate in Hi as [Hi _]. discriminate.
  - intros s cid s' Hs Hc. unfold hashmap_grow_chunk in Hc.
    destruct (default None (chunks m !! Z.to_nat cid)) as [c |];
      [| inversion Hc; now subst].
    destruct (for_range HASHMAP_MASKS_PER_CHUNK (hashmap_grow_mask c) s)
      as [s1 | msg] eqn:Hmasks; [| discriminate].
    cbn in Hc. inversion Hc; subst s'.
    assert (Hs1 : grown (HASHMAP_GROWTH_FACTOR * table_size m) s1).
    { eapply for_range_invariant; [exact Hs | | exact Hmasks].
      intros s2 mid s3 Hs2 Hm. unfold hashmap_grow_mask in Hm.
      destruct (get_mask c mid =? 0); [inversion Hm; now subst |].
      eapply for_range_invariant; [exact Hs2 | | exact Hm].
      intros s4 eid s5. apply hashmap_grow_entry_grown. }
    exact Hs1.
Qed.

Lemma grow_until_found_spec fuel (m m2 : hashmap) k e ptr :
  hashmap_wf m ->
  (forall p, e = Some p ->
     exists m0, hashmap_wf m0 /\ hashmap_find m0 k true = (m, Some p)) ->
  grow_until_found fuel m k e = Ok (Some (m2, ptr)) ->
  exists m0, hashmap_wf m0 /\ hashmap_find m0 k true = (m2, Some ptr).
Proof.
  revert m e. induction fuel as [| fuel IH]; intros m e Hwf He Hg.
  - destruct e as [p |]; cbn in Hg; [| discriminate].
    inversion Hg; subst. now apply He.
  - destruct e as [p |]; cbn [grow_until_found] in Hg.
    + inversion Hg; subst. now apply He.
    + destruct (hashmap_grow m) as [mg | msg] eqn:Hgrow; [| discriminate].
      cbn in Hg.
      destruct (hashmap_grow_wf _ _ Hwf Hgrow) as [Hwfg _].
      destruct (hashmap_find mg k true) as [m1 e1] eqn:Hf.
      destruct (hashmap_find_wf _ _ _ _ _ Hwfg Hf) as [Hwf1 _].
      eapply IH; [exact Hwf1 | | exact Hg].
      intros p ->. now exists mg.
Qed.

Lemma hashmap_init_wf : hashmap_wf (hashmap_init (V := V)).
Proof.
  destruct HP as (Hepc & _). unfold hashmap_init, INITIAL_SIZE.
  assert (Hn : 0 < (1024 + HASHMAP_ELEMENTS_PER_CHUNK - 1) / HASHMAP_ELEMENTS_PER_CHUNK).
  { apply Z.div_str_pos. lia. }
  split; [| split]; cbn [table_size chunks].
  - nia.
  - rewrite length_replicate. lia.
  - intros i c Hi. apply lookup_replicate in Hi as [Hi _]. discriminate.
Qed.

Lemma hashmap_put_wf fuel (m m' : hashmap) k v :
  hashmap_wf m -> hashmap_put fuel m k v = Ok (Some m') -> hashmap_wf m'.
Proof.
  intros Hwf Hput. unfold hashmap_put in Hput.
  destruct (hashmap_find m k true) as [m1 e] eqn:Hf.
  destruct (hashmap_find_wf _ _ _ _ _ Hwf Hf) as [Hwf1 _].
  destruct (grow_until_found fuel m1 k e) as [[[m2 ptr] |] | msg] eqn:Hg;
    cbn in Hput; try discriminate.
  inversion Hput; subst m'.
  destruct (grow_until_found_spec fuel m1 m2 k e ptr Hwf1) as (m0 & Hwf0 & Hf0);
    [| exact Hg |].
  - intros p ->. now exists m.
  - apply hashmap_wf_store_value.
    now destruct (hashmap_find_wf _ _ _ _ _ Hwf0 Hf0).
Qed.

Lemma hashmap_put_all_wf fuel kvs (m m' : hashmap) :
  hashmap_wf m -> hashmap_put_all fuel m kvs = Ok (Some m') -> hashmap_wf m'.
Proof.
  unfold hashmap_put_all. revert m.
  induction kvs as [| [k v] kvs IH]; intros m Hwf Hall; cbn in Hall.
  - inversion Hall; now subst.
  - destruct (hashmap_put fuel m k v) as [[m1 |] | msg] eqn:Hput.
    + eapply IH; [| exact Hall]. eapply hashmap_put_wf; eassumption.
    + exfalso. clear -Hall. induction kvs as [| kv kvs IH]; cbn in Hall;
        [discriminate | auto].
    + exfalso. clear -Hall. induction kvs as [| kv kvs IH]; cbn in Hall;
        [discriminate | auto].
Qed.

End hashmap_proofs.

Lemma swift_params_wf : params_wf (P := swift_params).
Proof.
  split; [reflexivity |]. split; [reflexivity |]. split; [discriminate |].
  intros seed. cbn [rand_r swift_params]. unfold glibc_rand_r. cbn [fst].
  apply Z.lxor_nonneg. split; intros _.
  - apply Z.mod_pos_bound. lia.
  - apply Z.shiftl_nonneg, Z.lxor_nonneg. split; intros _.
    + apply Z.mod_pos_bound. lia.
    + apply Z.shiftl_nonneg, Z.mod_pos_bound. lia.
Qed.

#[local] Existing Instance swift_params.
#[local] Instance zero_Z : ZeroValue Z := 0.

(** C9 as stated fails when the put fills the table to half of its slots:
    starting from [hashmap_init], after the keys 0..633 have been put, putting
    key 634 succeeds without growing, brings [size] to [table_size / 2], and
    the lookup of 634 that follows returns [NULL]. *)
Lemma hashmap_lookup_null_after_put :
  exists m m' : hashmap_t (V := Z),
    hashmap_put_all 0 hashmap_init (bindings 634) = Ok (Some m) /\
    hashmap_wf m /\
    hashmap_put 0 m 634 1634 = Ok (Some m') /\
    size m' = 635 /\ table_size m' = 1270 /\
    hashmap_lookup m' 634 = (m', None).
Proof.
  set (r := hashmap_put_all 0 hashmap_init (bindings 634)).
  assert (Hr : r = Ok (Some (final_table r)))
    by (vm_compute; reflexivity).
  set (r' := hashmap_put 0 (final_table r) 634 1634).
  assert (Hr' : r' = Ok (Some (final_table r')))
    by (vm_compute; reflexivity).
  exists (final_table r), (final_table r').
  split; [exact Hr |].
  split.
  { eapply (hashmap_put_all_wf swift_params_wf);
      [apply (hashmap_init_wf swift_params_wf) | exact Hr]. }
  split; [exact Hr' |].
  split; [vm_compute; reflexivity |].
  split; [vm_compute; reflexivity |].
  vm_compute. reflexivity.
Qed.

End HashmapProofs.

Module HashmapMapProofs.
Import Hashmap Facts HashmapProofs.

Section refinement.
Context {P : params} {V : Type} `{ZeroValue V}.
Hypothesis HP : params_wf.

Local Abbreviation chunk := (hashmap_chunk_t (V := V)).
Local Abbreviation hashmap := (hashmap_t (V := V)).

Lemma slot_taken_zero_chunk o : slot_taken (zero_chunk (V := V)) o = false.
Proof.
  unfold slot_taken, get_mask, zero_chunk. cbn [masks].
  destruct (replicate _ 0 !! _) as [w |] eqn:Hw; cbn [default from_option id];
    [apply lookup_replicate in Hw as [-> _] |]; now rewrite Z.land_0_l.
Qed.

Lemma value_zero_chunk o :
  value (get_element (zero_chunk (V := V)) o) = zero_value.
Proof.
  unfold get_element, zero_chunk. cbn [data].
  destruct (replicate _ zero_element !! _) as [e |] eqn:He; cbn [default from_option id];
    [apply lookup_replicate in He as [-> _] |]; reflexivity.
Qed.

Lemma bit_offsets p :
  0 <= p ->
  0 <= p / HASHMAP_BITS_PER_MASK /\
  0 <= p - p / HASHMAP_BITS_PER_MASK * HASHMAP_BITS_PER_MASK < HASHMAP_BITS_PER_MASK.
Proof.
  destruct HP as (_ & Hbpm & _). intros Hp.
  assert (Hnz : HASHMAP_BITS_PER_MASK <> 0) by lia.
  pose proof (Z.div_mod p HASHMAP_BITS_PER_MASK Hnz) as Hdm.
  pose proof (Z.mod_pos_bound p HASHMAP_BITS_PER_MASK Hbpm) as Hmod.
  split; [apply Z.div_pos; lia | lia].
Qed.

(** Marking an element as taken changes no other element of the chunk. *)
Lemma slot_taken_set_mask_bit_any (c : chunk) o p :
  chunk_wf c ->
  0 <= o < HASHMAP_ELEMENTS_PER_CHUNK ->
  0 <= p ->
  let mask_offset := o / HASHMAP_BITS_PER_MASK in
  let search_mask := Z.shiftl 1 (o - mask_offset * HASHMAP_BITS_PER_MASK) in
  slot_taken (set_mask_bit search_mask mask_offset c) p =
  slot_taken c p || (p =? o).
Proof.
  intros [Hm Hd] Ho Hp mo sm. subst mo sm.
  destruct (mask_offset_range HP o Ho) as [Hmo Hso].
  destruct (bit_offsets p Hp) as [Hmp Hsp].
  unfold slot_taken, set_mask_bit, get_mask. cbn [masks].
  rewrite !truthy_land_bit by lia.
  destruct (Z.eq_dec (p / HASHMAP_BITS_PER_MASK) (o / HASHMAP_BITS_PER_MASK))
    as [Heq | Hne].
  - rewrite Heq, list_lookup_alter_eq.
    destruct (masks c !! Z.to_nat (o / HASHMAP_BITS_PER_MASK)) as [w |] eqn:Hw.
    + cbn [fmap option_fmap option_map default from_option id].
      rewrite testbit_lor_bit by lia. f_equal.
      destruct (Z.eqb_spec p o) as [-> | Hpo].
      * apply Z.eqb_refl.
      * apply Z.eqb_neq. lia.
    + apply lookup_ge_None in Hw. lia.
  - rewrite list_lookup_alter_ne by lia.
    destruct (Z.eqb_spec p o) as [-> | Hpo]; [congruence |].
    now rewrite orb_false_r.
Qed.

Lemma value_set_element_key (c : chunk) k o p :
  value (get_element (set_element_key k o c) p) = value (get_element c p).
Proof.
  unfold set_element_key, get_element. cbn [data].
  destruct (decide (Z.to_nat o = Z.to_nat p)) as [Heq | Hne].
  - rewrite <- Heq, list_lookup_alter_eq.
    now destruct (data c !! Z.to_nat o).
  - now rewrite list_lookup_alter_ne.
Qed.

Lemma value_set_element_value_ne (c : chunk) v o p :
  0 <= o -> 0 <= p -> p <> o ->
  value (get_element (set_element_value v o c) p) = value (get_element c p).
Proof.
  intros Ho Hp Hne. unfold set_element_value, get_element. cbn [data].
  rewrite list_lookup_alter_ne by lia. reflexivity.
Qed.

Lemma probe_path_free n (c : chunk) k o curr o' :
  probe_path n c k o curr = Some (o', true) -> slot_taken c o' = false.
Proof.
  revert o curr. induction n as [| n IH]; intros o curr Hp; [discriminate |].
  cbn [probe_path] in Hp.
  destruct (slot_taken c o) eqn:Ht; cbn [negb] in Hp; [| congruence].
  destruct (slot_key c o =? k); [discriminate |].
  destruct (rand_r curr) as [r curr']. eapply IH, Hp.
Qed.

(** Probing for another key is not disturbed by an element that was free, or
    held [k] already, and now holds [k]. *)
Lemma probe_path_frame n (c c' : chunk) k k' o' o curr p :
  k' <> k ->
  slot_taken c' o' = true -> slot_key c' o' = k ->
  (slot_taken c o' = false \/ slot_key c o' = k) ->
  (forall q, 0 <= q -> q <> o' ->
     slot_taken c' q = slot_taken c q /\ slot_key c' q = slot_key c q) ->
  0 <= o < HASHMAP_ELEMENTS_PER_CHUNK ->
  probe_path n c k' o curr = Some (p, false) ->
  probe_path n c' k' o curr = Some (p, false).
Proof.
  destruct HP as (Hepc & _).
  intros Hkk Ht Hk Hold Hoth. revert o curr.
  induction n as [| n IH]; intros o curr Ho Hp; [discriminate |].
  cbn [probe_path] in *.
  assert (Hnext : forall r, 0 <= r mod HASHMAP_ELEMENTS_PER_CHUNK < HASHMAP_ELEMENTS_PER_CHUNK)
    by (intros r; apply Z.mod_pos_bound; lia).
  destruct (Z.eq_dec o o') as [-> | Hne].
  - rewrite Ht, Hk. cbn [negb].
    destruct (slot_taken c o') eqn:Htc; cbn [negb] in Hp; [| congruence].
    destruct Hold as [Hold | Hold]; [discriminate |].
    rewrite Hold in Hp.
    destruct (k =? k') eqn:Hkeq; [apply Z.eqb_eq in Hkeq; congruence |].
    destruct (rand_r curr) as [r curr']. now apply IH.
  - destruct (Hoth o ltac:(lia) Hne) as [-> ->].
    destruct (negb (slot_taken c o)); [congruence |].
    destruct (slot_key c o =? k'); [congruence |].
    destruct (rand_r curr) as [r curr']. now apply IH.
Qed.

Lemma get_chunk_ptr_Some (m : hashmap) co c :
  get_chunk_ptr m co = Some c <-> chunks m !! Z.to_nat co = Some (Some c).
Proof.
  unfold get_chunk_ptr.
  destruct (chunks m !! Z.to_nat co) as [[c0 |] |]; cbn; split; congruence.
Qed.

(** Unfolding [find_slot] at the home position of a key. *)
Lemma find_slot_Some (m : hashmap) k co o :
  find_slot m k = Some (co, o) ->
  exists c r curr,
    rand_r (k mod 2 ^ 32) = (r, curr) /\
    co = r mod table_size m / HASHMAP_ELEMENTS_PER_CHUNK /\
    chunks m !! Z.to_nat co = Some (Some c) /\
    probe_path MAX_CHAIN_LENGTH c k
      (r mod table_size m - co * HASHMAP_ELEMENTS_PER_CHUNK) curr = Some (o, false).
Proof.
  unfold find_slot. destruct (rand_r (k mod 2 ^ 32)) as [r curr].
  destruct (get_chunk_ptr m _) as [c |] eqn:Hc; [| discriminate].
  destruct (probe_path _ _ _ _ _) as [[o1 []] |] eqn:Hp; try discriminate.
  intros Heq. inversion Heq; subst. exists c, r, curr.
  split; [reflexivity |]. split; [reflexivity |].
  split; [now apply get_chunk_ptr_Some | exact Hp].
Qed.

Lemma find_slot_taken (m : hashmap) k co o :
  hashmap_wf m ->
  find_slot m k = Some (co, o) ->
  exists c,
    0 <= co /\ chunks m !! Z.to_nat co = Some (Some c) /\
    0 <= o < HASHMAP_ELEMENTS_PER_CHUNK /\
    slot_taken c o = true /\ slot_key c o = k.
Proof.
  intros Hwf Hf.
  destruct (find_slot_Some _ _ _ _ Hf) as (c & r & curr & Hr & Hco & Hc & Hp).
  assert (Hr0 : 0 <= r).
  { destruct HP as (_ & _ & _ & Hrand). specialize (Hrand (k mod 2 ^ 32)).
    now rewrite Hr in Hrand. }
  destruct (hashmap_find_offsets HP m r Hwf Hr0) as (Hco0 & Hlt & Hoic).
  rewrite <- Hco in Hco0, Hoic.
  exists c. split; [assumption |]. split; [assumption |].
  split; [eapply (probe_path_range HP); eassumption |].
  eapply probe_path_found, Hp.
Qed.

Lemma load_value_lookup (m : hashmap) co o c :
  chunks m !! Z.to_nat co = Some (Some c) ->
  load_value m (co, o) = value (get_element c o).
Proof.
  intros Hc. unfold load_value. cbn [fst snd].
  apply get_chunk_ptr_Some in Hc. now rewrite Hc.
Qed.

(** ** Loops *)

Lemma for_range_ind {T : Type} (I : Z -> T -> Prop) n
    (body : T -> Z -> result T) (s s' : T) :
  0 <= n ->
  I 0 s ->
  (forall i s s', 0 <= i < n -> I i s -> body s i = Ok s' -> I (i + 1) s') ->
  for_range n body s = Ok s' -> I n s'.
Proof.
  intros Hn Hs Hbody. unfold for_range.
  assert (Hgen : forall len a s,
            Z.of_nat (a + len) <= n ->
            I (Z.of_nat a) s ->
            foldl (fun acc i => s ← acc; body s (Z.of_nat i)) (Ok s) (seq a len) = Ok s' ->
            I (Z.of_nat (a + len)) s').
  { induction len as [| len IH]; intros a s0 Hle Hs0 Hfold; cbn in Hfold.
    - inversion Hfold; subst. now rewrite Nat.add_0_r.
    - destruct (body s0 (Z.of_nat a)) as [s1 | msg] eqn:Hb.
      + replace (a + S len)%nat with (S a + len)%nat by lia.
        apply (IH (S a) s1); [lia | | exact Hfold].
        replace (Z.of_nat (S a)) with (Z.of_nat a + 1) by lia.
        eapply Hbody; [| exact Hs0 | exact Hb]. lia.
      + rewrite foldl_result_error in Hfold by reflexivity. discriminate. }
  intros Hfold.
  specialize (Hgen (Z.to_nat n) 0%nat s).
  rewrite Nat.add_0_l, Z2Nat.id in Hgen by assumption.
  apply Hgen; [lia | exact Hs | exact Hfold].
Qed.

Lemma count_upto_succ (p : Z -> bool) n :
  0 <= n ->
  count_upto p (n + 1) = count_upto p n + (if p n then 1 else 0).
Proof.
  intros Hn. unfold count_upto.
  replace (Z.to_nat (n + 1)) with (S (Z.to_nat n)) by lia.
  rewrite seq_S, filter_app, length_app. cbn [Nat.add].
  rewrite filter_cons, filter_nil, Z2Nat.id by assumption.
  destruct (decide (p n = true)) as [-> | Hf].
  - cbn [length]. lia.
  - destruct (p n); [congruence |]. cbn [length]. lia.
Qed.

Lemma count_upto_skip (p : Z -> bool) q q' :
  0 <= q <= q' ->
  (forall j, q <= j < q' -> p j = false) ->
  count_upto p q' = count_upto p q.
Proof.
  intros Hq Hp.
  replace q' with (q + Z.of_nat (Z.to_nat (q' - q))) in * by lia.
  induction (Z.to_nat (q' - q)) as [| d IH].
  - now rewrite Z.add_0_r.
  - replace (q + Z.of_nat (S d)) with (q + Z.of_nat d + 1) in * by lia.
    rewrite count_upto_succ by lia.
    rewrite (Hp (q + Z.of_nat d)) by lia.
    rewrite IH; [lia | lia |]. intros j Hj. apply Hp. lia.
Qed.

Lemma count_upto_0 (p : Z -> bool) : count_upto p 0 = 0.
Proof. reflexivity. Qed.

Lemma count_upto_update (p p' : Z -> bool) j0 n :
  0 <= j0 < n ->
  (forall j, 0 <= j -> j <> j0 -> p' j = p j) ->
  p' j0 = true ->
  count_upto p' n = count_upto p n + (if p j0 then 0 else 1).
Proof.
  intros Hj0 Hoth Hnew.
  assert (Hgen : forall d : nat,
            count_upto p' (Z.of_nat d) =
            count_upto p (Z.of_nat d) +
            (if (j0 <? Z.of_nat d) && negb (p j0) then 1 else 0)).
  { induction d as [| d IH].
    - change (Z.of_nat 0) with 0. rewrite !count_upto_0.
      destruct (Z.ltb_spec j0 0); [lia | reflexivity].
    - replace (Z.of_nat (S d)) with (Z.of_nat d + 1) by lia.
      rewrite !count_upto_succ, IH by lia.
      destruct (Z.eq_dec (Z.of_nat d) j0) as [Heq | Hne].
      + rewrite Heq, Hnew.
        destruct (Z.ltb_spec j0 j0); [lia |].
        destruct (Z.ltb_spec j0 (j0 + 1)); [| lia].
        destruct (p j0); cbn; lia.
      + rewrite (Hoth (Z.of_nat d)) by lia.
        destruct (Z.ltb_spec j0 (Z.of_nat d)), (Z.ltb_spec j0 (Z.of_nat d + 1));
          try lia; reflexivity. }
  specialize (Hgen (Z.to_nat n)). rewrite Z2Nat.id in Hgen by lia.
  rewrite Hgen. destruct (Z.ltb_spec j0 n); [| lia].
  now destruct (p j0).
Qed.

(** ** Numbering the elements *)

Lemma slots_per_chunk_pos :
  0 < HASHMAP_BITS_PER_MASK /\ 0 < HASHMAP_MASKS_PER_CHUNK /\
  0 < slots_per_chunk /\ HASHMAP_ELEMENTS_PER_CHUNK <= slots_per_chunk.
Proof.
  destruct HP as (Hepc & Hbpm & Hcover & _). unfold slots_per_chunk.
  split; [assumption |]. split; [nia |]. split; lia.
Qed.

Lemma number_div_mod (i o : Z) :
  0 <= o < slots_per_chunk ->
  (i * slots_per_chunk + o) / slots_per_chunk = i /\
  (i * slots_per_chunk + o) mod slots_per_chunk = o.
Proof.
  intros Ho. split.
  - symmetry. apply (Z.div_unique _ _ _ o); lia.
  - symmetry. apply (Z.mod_unique _ _ i o); lia.
Qed.

Lemma number_unique (i i' o o' : Z) :
  0 <= o < slots_per_chunk -> 0 <= o' < slots_per_chunk ->
  i * slots_per_chunk + o = i' * slots_per_chunk + o' ->
  i = i' /\ o = o'.
Proof.
  intros Ho Ho' Heq.
  destruct (number_div_mod i o Ho) as [Hd Hm].
  destruct (number_div_mod i' o' Ho') as [Hd' Hm'].
  rewrite Heq in Hd, Hm. split; congruence.
Qed.

Lemma taken_at_slot (m : hashmap) (i : nat) c o :
  chunks m !! i = Some (Some c) -> 0 <= o < slots_per_chunk ->
  taken_at m (Z.of_nat i * slots_per_chunk + o) = slot_taken c o.
Proof.
  intros Hc Ho. unfold taken_at.
  destruct (number_div_mod (Z.of_nat i) o Ho) as [-> ->].
  assert (Hget : get_chunk_ptr m (Z.of_nat i) = Some c)
    by (apply get_chunk_ptr_Some; now rewrite Nat2Z.id).
  now rewrite Hget.
Qed.

Lemma taken_at_no_chunk (m : hashmap) cid j :
  get_chunk_ptr m cid = None ->
  cid * slots_per_chunk <= j < cid * slots_per_chunk + slots_per_chunk ->
  taken_at m j = false.
Proof.
  intros Hc Hj. unfold taken_at.
  assert (Ho : 0 <= j - cid * slots_per_chunk < slots_per_chunk) by lia.
  destruct (number_div_mod cid (j - cid * slots_per_chunk) Ho) as [Hd _].
  replace (cid * slots_per_chunk + (j - cid * slots_per_chunk)) with j in Hd by lia.
  now rewrite Hd, Hc.
Qed.

Lemma slot_taken_mask (c : chunk) mid eid :
  0 <= mid -> 0 <= eid < HASHMAP_BITS_PER_MASK ->
  slot_taken c (mid * HASHMAP_BITS_PER_MASK + eid) =
  truthy (Z.land (get_mask c mid) (Z.shiftl 1 eid)).
Proof.
  intros Hmid Heid. unfold slot_taken.
  assert (Hd : (mid * HASHMAP_BITS_PER_MASK + eid) / HASHMAP_BITS_PER_MASK = mid)
    by (symmetry; apply (Z.div_unique _ _ _ eid); lia).
  rewrite Hd. do 3 f_equal. lia.
Qed.

Lemma slot_taken_empty_mask (c : chunk) mid o :
  get_mask c mid = 0 ->
  mid * HASHMAP_BITS_PER_MASK <= o < mid * HASHMAP_BITS_PER_MASK + HASHMAP_BITS_PER_MASK ->
  slot_taken c o = false.
Proof.
  intros Hm Ho. unfold slot_taken.
  assert (Hd : o / HASHMAP_BITS_PER_MASK = mid).
  { symmetry. apply (Z.div_unique _ _ _ (o - mid * HASHMAP_BITS_PER_MASK)); lia. }
  now rewrite Hd, Hm, Z.land_0_l.
Qed.

Lemma rand_r_nonneg seed r curr : rand_r seed = (r, curr) -> 0 <= r.
Proof.
  intros Hr. destruct HP as (_ & _ & _ & Hrand). specialize (Hrand seed).
  now rewrite Hr in Hrand.
Qed.

Section update.
Variables (m m' : hashmap) (co : Z) (c0 c' : chunk) (k o' : Z).
Hypothesis Hwf : hashmap_wf m.
Hypothesis Hst : stored m.
Hypothesis Hts : table_size m' = table_size m.
Hypothesis Hco : 0 <= co.
Hypothesis Hlt : (Z.to_nat co < length (chunks m))%nat.
Hypothesis Hch : chunks m' = <[Z.to_nat co := Some c']> (chunks m).
Hypothesis Hold :
  chunks m !! Z.to_nat co = Some (Some c0) \/
  chunks m !! Z.to_nat co = Some None /\ c0 = zero_chunk.
Hypothesis Hwc : chunk_wf c'.
Hypothesis Ho' : 0 <= o'.
Hypothesis Ht : slot_taken c' o' = true.
Hypothesis Hk : slot_key c' o' = k.
Hypothesis Hwas : slot_taken c0 o' = false \/ slot_key c0 o' = k.
Hypothesis Hoth :
  forall q, 0 <= q -> q <> o' ->
    slot_taken c' q = slot_taken c0 q /\ slot_key c' q = slot_key c0 q /\
    value (get_element c' q) = value (get_element c0 q).

Lemma update_chunk_eq : chunks m' !! Z.to_nat co = Some (Some c').
Proof. rewrite Hch. now apply list_lookup_insert_eq. Qed.

Lemma update_chunk_ne i :
  i <> Z.to_nat co -> chunks m' !! i = chunks m !! i.
Proof. intros Hne. rewrite Hch. now apply list_lookup_insert_ne. Qed.

(** An element of the new chunk other than [o'] that is taken was taken in
    the old chunk, which then was no fresh one. *)
Lemma update_old_slot q :
  0 <= q -> q <> o' -> slot_taken c' q = true ->
  chunks m !! Z.to_nat co = Some (Some c0) /\ slot_taken c0 q = true /\
  slot_key c0 q = slot_key c' q.
Proof.
  intros Hq Hne Htq. destruct (Hoth q Hq Hne) as (Ht' & Hk' & _).
  rewrite Ht' in Htq.
  destruct Hold as [Hc0 | [_ ->]]; [now rewrite Hk' |].
  now rewrite slot_taken_zero_chunk in Htq.
Qed.

Lemma find_slot_update_ne k' :
  k' <> k -> find_slot m' k' = find_slot m k'.
Proof.
  intros Hkk. unfold find_slot. rewrite Hts.
  destruct (rand_r (k' mod 2 ^ 32)) as [r curr] eqn:Hr.
  pose proof (rand_r_nonneg _ _ _ Hr) as Hr0.
  destruct (hashmap_find_offsets HP m r Hwf Hr0) as (Hco2 & Hlt2 & Hoic).
  set (co2 := r mod table_size m / HASHMAP_ELEMENTS_PER_CHUNK) in *.
  set (oic := r mod table_size m - co2 * HASHMAP_ELEMENTS_PER_CHUNK) in *.
  destruct (Z.eq_dec co2 co) as [Heq | Hne].
  - assert (Hget' : get_chunk_ptr m' co2 = Some c')
      by (rewrite Heq; apply get_chunk_ptr_Some, update_chunk_eq).
    rewrite Hget'.
    assert (Hconv : forall p, probe_path MAX_CHAIN_LENGTH c' k' oic curr = Some (p, false) ->
              chunks m !! Z.to_nat co = Some (Some c0) /\
              probe_path MAX_CHAIN_LENGTH c0 k' oic curr = Some (p, false)).
    { intros p Hp.
      pose proof (probe_path_range HP _ _ _ _ _ _ _ Hoic Hp) as Hpr.
      destruct (probe_path_found _ _ _ _ _ _ Hp) as [Htp Hkp].
      assert (Hpo : p <> o') by (intros ->; congruence).
      destruct (update_old_slot p (proj1 Hpr) Hpo Htp) as (Hc0 & Ht0 & Hk0).
      split; [exact Hc0 |].
      pose proof (Hst _ _ _ Hc0 (proj1 Hpr) Ht0) as Hfs.
      rewrite Hk0, Hkp, Z2Nat.id in Hfs by assumption.
      destruct (find_slot_Some _ _ _ _ Hfs) as (c & r1 & curr1 & Hr1 & Hco1 & Hc & Hp1).
      rewrite Hr in Hr1. inversion Hr1; subst r1 curr1.
      rewrite Hc0 in Hc. inversion Hc; subst c.
      rewrite <- Heq in Hp1. exact Hp1. }
    destruct Hold as [Hc0 | [Hnone ->]].
    + assert (Hget : get_chunk_ptr m co2 = Some c0)
        by (rewrite Heq; now apply get_chunk_ptr_Some).
      rewrite Hget.
      assert (Hfr : forall p, probe_path MAX_CHAIN_LENGTH c0 k' oic curr = Some (p, false) ->
                probe_path MAX_CHAIN_LENGTH c' k' oic curr = Some (p, false)).
      { intros p. apply (probe_path_frame _ c0 c' k k' o'); try assumption.
        intros q Hq Hqo. destruct (Hoth q Hq Hqo) as (? & ? & _). now split. }
      destruct (probe_path MAX_CHAIN_LENGTH c' k' oic curr) as [[p' []] |] eqn:Hp';
        destruct (probe_path MAX_CHAIN_LENGTH c0 k' oic curr) as [[p []] |] eqn:Hp;
        try reflexivity;
        try (specialize (Hfr _ eq_refl); congruence);
        try (destruct (Hconv _ eq_refl) as [_ Hx]; congruence).
    + assert (Hget : get_chunk_ptr m co2 = None).
      { rewrite Heq. unfold get_chunk_ptr. now rewrite Hnone. }
      rewrite Hget.
      destruct (probe_path MAX_CHAIN_LENGTH c' k' oic curr) as [[p' []] |] eqn:Hp';
        try reflexivity.
      destruct (Hconv _ eq_refl) as [Hx _]. congruence.
  - assert (Hget : get_chunk_ptr m' co2 = get_chunk_ptr m co2).
    { unfold get_chunk_ptr. rewrite update_chunk_ne by lia. reflexivity. }
    now rewrite Hget.
Qed.

Lemma update_population :
  0 <= o' < slots_per_chunk ->
  population m' = population m + (if slot_taken c0 o' then 0 else 1).
Proof.
  intros Hor. destruct slots_per_chunk_pos as (_ & _ & Hspc & _).
  unfold population. rewrite Hch, length_insert.
  set (j0 := co * slots_per_chunk + o').
  assert (Hold0 : taken_at m j0 = slot_taken c0 o').
  { unfold taken_at, j0. destruct (number_div_mod co o' Hor) as [-> ->].
    unfold get_chunk_ptr.
    destruct Hold as [Hc0 | [Hnone Hz]]; [now rewrite Hc0 |].
    rewrite Hnone, Hz. cbn. now rewrite slot_taken_zero_chunk. }
  rewrite <- Hold0.
  apply count_upto_update.
  - unfold j0. nia.
  - intros j Hj Hne. unfold taken_at.
    assert (Hdiv : 0 <= j / slots_per_chunk) by (apply Z.div_pos; lia).
    pose proof (Z.mod_pos_bound j slots_per_chunk Hspc) as Hmod.
    assert (Hnz : slots_per_chunk <> 0) by lia.
    pose proof (Z.div_mod j slots_per_chunk Hnz) as Hdm.
    destruct (Z.eq_dec (j / slots_per_chunk) co) as [Heq | Hcne].
    + rewrite Heq.
      assert (Hget' : get_chunk_ptr m' co = Some c')
        by apply get_chunk_ptr_Some, update_chunk_eq.
      rewrite Hget'.
      assert (Hmo : j mod slots_per_chunk <> o') by (unfold j0 in Hne; nia).
      destruct (Hoth _ (proj1 Hmod) Hmo) as (-> & _).
      unfold get_chunk_ptr.
      destruct Hold as [Hc0 | [Hnone Hz]]; [now rewrite Hc0 |].
      rewrite Hnone, Hz. cbn. apply slot_taken_zero_chunk.
    + unfold get_chunk_ptr. rewrite update_chunk_ne by lia. reflexivity.
  - unfold taken_at, j0. destruct (number_div_mod co o' Hor) as [-> ->].
    assert (Hget' : get_chunk_ptr m' co = Some c')
      by apply get_chunk_ptr_Some, update_chunk_eq.
    now rewrite Hget'.
Qed.

Hypothesis Hkold : find_slot m k = None \/ find_slot m k = Some (co, o').
Hypothesis Hknew : find_slot m' k = Some (co, o').

Lemma update_wf : hashmap_wf m'.
Proof using Hwf Hts Hch Hwc.
  destruct Hwf as (Hpos & Hlen & Hcs). split; [| split].
  - now rewrite Hts.
  - now rewrite Hch, length_insert, Hts.
  - intros i c Hi. rewrite Hch in Hi.
    apply list_lookup_insert_Some in Hi as [(_ & Heq & _) | (Hne & Hi)].
    + injection Heq as <-. exact Hwc.
    + eapply Hcs, Hi.
Qed.

Lemma update_stored : stored m'.
Proof.
  intros i c o Hi Ho Hto.
  destruct (decide (i = Z.to_nat co)) as [-> | Hne].
  - rewrite update_chunk_eq in Hi. inversion Hi; subst c. rewrite Z2Nat.id by assumption.
    destruct (Z.eq_dec o o') as [-> | Hoo]; [now rewrite Hk |].
    destruct (update_old_slot o Ho Hoo Hto) as (Hc0 & Ht0 & Hk0).
    pose proof (Hst _ _ _ Hc0 Ho Ht0) as Hfs.
    rewrite Hk0, Z2Nat.id in Hfs by assumption.
    rewrite find_slot_update_ne; [exact Hfs |].
    intros Heq. rewrite Heq in Hfs.
    destruct Hkold as [Hn | Hs]; congruence.
  - rewrite update_chunk_ne in Hi by assumption.
    pose proof (Hst _ _ _ Hi Ho Hto) as Hfs.
    rewrite find_slot_update_ne; [exact Hfs |].
    intros Heq. rewrite Heq in Hfs.
    destruct Hkold as [Hn | Hs]; [congruence |].
    rewrite Hs in Hfs. inversion Hfs. lia.
Qed.

Lemma update_fresh_zero : fresh_zero m -> fresh_zero m'.
Proof.
  intros Hfz i c o Hi Ho Hfo.
  destruct (decide (i = Z.to_nat co)) as [-> | Hne].
  - rewrite update_chunk_eq in Hi. inversion Hi; subst c.
    assert (Hoo : o <> o') by (intros ->; congruence).
    destruct (Hoth o Ho Hoo) as (Ht' & _ & ->). rewrite Ht' in Hfo.
    destruct Hold as [Hc0 | [_ ->]].
    + eapply Hfz; eassumption.
    + apply value_zero_chunk.
  - rewrite update_chunk_ne in Hi by assumption. eapply Hfz; eassumption.
Qed.

Lemma update_contents k' :
  contents m' k' =
  if k' =? k then Some (value (get_element c' o')) else contents m k'.
Proof.
  unfold contents. destruct (Z.eqb_spec k' k) as [-> | Hne].
  - rewrite Hknew. f_equal. apply load_value_lookup, update_chunk_eq.
  - rewrite find_slot_update_ne by assumption.
    destruct (find_slot m k') as [[co2 p] |] eqn:Hfs; [| reflexivity].
    f_equal.
    destruct (find_slot_taken _ _ _ _ Hwf Hfs) as (c & Hco2 & Hc & Hp & Htp & Hkp).
    rewrite (load_value_lookup m _ _ _ Hc).
    destruct (Z.eq_dec co2 co) as [-> | Hcne].
    + rewrite (load_value_lookup m' _ _ _ update_chunk_eq).
      destruct Hold as [Hc0 | [Hnone _]]; [| congruence].
      rewrite Hc0 in Hc. inversion Hc; subst c.
      assert (Hpo : p <> o').
      { intros ->. destruct Hwas as [Hf | Hkk]; congruence. }
      now destruct (Hoth p (proj1 Hp) Hpo) as (_ & _ & ->).
    + apply load_value_lookup. rewrite update_chunk_ne by lia. exact Hc.
Qed.

End update.

(** The key just written is found at its element. *)
Lemma find_slot_update_eq (m m' : hashmap) k r curr c0 c' o' b :
  hashmap_wf m ->
  table_size m' = table_size m ->
  rand_r (k mod 2 ^ 32) = (r, curr) ->
  let co := r mod table_size m / HASHMAP_ELEMENTS_PER_CHUNK in
  let oic := r mod table_size m - co * HASHMAP_ELEMENTS_PER_CHUNK in
  chunks m' = <[Z.to_nat co := Some c']> (chunks m) ->
  probe_path MAX_CHAIN_LENGTH c0 k oic curr = Some (o', b) ->
  slot_taken c' o' = true -> slot_key c' o' = k ->
  (forall q, 0 <= q -> q <> o' ->
     slot_taken c' q = slot_taken c0 q /\ slot_key c' q = slot_key c0 q /\
     value (get_element c' q) = value (get_element c0 q)) ->
  find_slot m' k = Some (co, o').
Proof.
  intros Hwf Hts Hr co oic Hch Hp Ht Hk Hoth.
  pose proof (rand_r_nonneg _ _ _ Hr) as Hr0.
  destruct (hashmap_find_offsets HP m r Hwf Hr0) as (Hco & Hlt & Hoic).
  unfold find_slot. rewrite Hts, Hr. fold co. fold oic.
  assert (Hget : get_chunk_ptr m' co = Some c').
  { apply get_chunk_ptr_Some. rewrite Hch. now apply list_lookup_insert_eq. }
  rewrite Hget.
  rewrite (probe_path_again HP _ c0 c' k oic curr o' b Hoic Hp Ht Hk); [reflexivity |].
  intros q Hq Hne. destruct (Hoth q (proj1 Hq) Hne) as (? & ? & _). now split.
Qed.

Lemma claim_slot_chunks (m : hashmap) k co o c0 :
  chunks m !! Z.to_nat co = Some (Some c0) ->
  let mask_offset := o / HASHMAP_BITS_PER_MASK in
  let search_mask := Z.shiftl 1 (o - mask_offset * HASHMAP_BITS_PER_MASK) in
  chunks (claim_slot k co o m) =
  <[Z.to_nat co := Some (set_element_key k o (set_mask_bit search_mask mask_offset c0))]>
    (chunks m).
Proof.
  intros Hc mo sm. unfold claim_slot. fold mo. fold sm.
  erewrite (alter_chunk_chunks _ (set_element_key k o)).
  2:{ cbn [set_size chunks]. erewrite alter_chunk_chunks by exact Hc.
      apply list_lookup_insert_eq. eapply lookup_lt_Some, Hc. }
  cbn [set_size chunks]. erewrite alter_chunk_chunks by exact Hc.
  now rewrite list_insert_insert_eq.
Qed.

(** The chunk after an element has been claimed for [k]. *)
Lemma claimed_chunk (c0 : chunk) k o :
  chunk_wf c0 ->
  0 <= o < HASHMAP_ELEMENTS_PER_CHUNK ->
  let mask_offset := o / HASHMAP_BITS_PER_MASK in
  let search_mask := Z.shiftl 1 (o - mask_offset * HASHMAP_BITS_PER_MASK) in
  let c' := set_element_key k o (set_mask_bit search_mask mask_offset c0) in
  chunk_wf c' /\ slot_taken c' o = true /\ slot_key c' o = k /\
  value (get_element c' o) = value (get_element c0 o) /\
  forall q, 0 <= q -> q <> o ->
    slot_taken c' q = slot_taken c0 q /\ slot_key c' q = slot_key c0 q /\
    value (get_element c' q) = value (get_element c0 q).
Proof.
  intros Hwc Ho mo sm c'. subst c' sm mo.
  pose proof (chunk_wf_set_mask_bit c0
                (Z.shiftl 1 (o - o / HASHMAP_BITS_PER_MASK * HASHMAP_BITS_PER_MASK))
                (o / HASHMAP_BITS_PER_MASK) Hwc) as Hw1.
  split; [now apply chunk_wf_set_element_key |].
  split.
  { rewrite slot_taken_set_element_key, slot_taken_set_mask_bit_any by (try assumption; lia).
    rewrite Z.eqb_refl. apply orb_true_r. }
  split.
  { rewrite slot_key_set_element_key by (try assumption; lia). now rewrite Z.eqb_refl. }
  split; [now rewrite value_set_element_key |].
  intros q Hq Hne. split; [| split].
  - rewrite slot_taken_set_element_key, slot_taken_set_mask_bit_any by (try assumption; lia).
    apply Z.eqb_neq in Hne. rewrite Hne. apply orb_false_r.
  - rewrite slot_key_set_element_key by (try assumption; lia).
    apply Z.eqb_neq in Hne. now rewrite Hne.
  - now rewrite value_set_element_key.
Qed.

Lemma claim_refines (m mA : hashmap) k r curr c0 o' :
  hashmap_inv m ->
  rand_r (k mod 2 ^ 32) = (r, curr) ->
  let co := r mod table_size m / HASHMAP_ELEMENTS_PER_CHUNK in
  let oic := r mod table_size m - co * HASHMAP_ELEMENTS_PER_CHUNK in
  table_size mA = table_size m -> size mA = size m -> nr_chunks mA = nr_chunks m ->
  chunks mA = <[Z.to_nat co := Some c0]> (chunks m) ->
  (chunks m !! Z.to_nat co = Some (Some c0) \/
   chunks m !! Z.to_nat co = Some None /\ c0 = zero_chunk) ->
  probe_path MAX_CHAIN_LENGTH c0 k oic curr = Some (o', true) ->
  let m1 := claim_slot k co o' mA in
  hashmap_inv m1 /\ find_slot m1 k = Some (co, o') /\
  table_size m1 = table_size m /\ size m1 = size m + 1 /\
  population m1 = population m + 1 /\
  contents m k = None /\
  forall k', contents m1 k' = if k' =? k then Some zero_value else contents m k'.
Proof.
  intros (Hwf & Hnr & Hst & Hfz) Hr co oic Hts Hsz HnrA HchA Hold Hp m1.
  pose proof (rand_r_nonneg _ _ _ Hr) as Hr0.
  destruct (hashmap_find_offsets HP m r Hwf Hr0) as (Hco & Hlt & Hoic).
  fold co in Hco, Hlt. fold oic in Hoic.
  pose proof (probe_path_range HP _ _ _ _ _ _ _ Hoic Hp) as Ho'.
  pose proof (probe_path_free _ _ _ _ _ _ Hp) as Hfree.
  assert (Hwc0 : chunk_wf c0).
  { destruct Hold as [Hc0 | [_ ->]]; [| apply (chunk_wf_zero HP)].
    destruct Hwf as (_ & _ & Hcs). eapply Hcs, Hc0. }
  destruct (claimed_chunk c0 k o' Hwc0 Ho') as (Hwc & Ht & Hk & Hv & Hoth).
  set (c' := set_element_key k o'
               (set_mask_bit (Z.shiftl 1 (o' - o' / HASHMAP_BITS_PER_MASK * HASHMAP_BITS_PER_MASK))
                             (o' / HASHMAP_BITS_PER_MASK) c0)) in *.
  assert (Hch : chunks m1 = <[Z.to_nat co := Some c']> (chunks m)).
  { subst m1. rewrite (claim_slot_chunks mA k co o' c0).
    - rewrite HchA. now rewrite list_insert_insert_eq.
    - rewrite HchA. now apply list_lookup_insert_eq. }
  assert (Hts1 : table_size m1 = table_size m) by exact Hts.
  assert (Hkold : find_slot m k = None).
  { unfold find_slot. rewrite Hr. fold co. fold oic.
    destruct Hold as [Hc0 | [Hnone _]].
    - apply get_chunk_ptr_Some in Hc0. rewrite Hc0. now rewrite Hp.
    - unfold get_chunk_ptr. now rewrite Hnone. }
  assert (Hknew : find_slot m1 k = Some (co, o'))
    by (eapply (find_slot_update_eq m m1); eassumption).
  split.
  { split; [eapply (update_wf m m1); eassumption |].
    split; [rewrite Hch, length_insert, <- Hnr, <- HnrA; reflexivity |].
    split.
    - eapply (update_stored m m1 co c0 c' k o'); try eassumption; try lia; auto.
    - eapply (update_fresh_zero m m1 co c0 c' k o'); try eassumption; auto. }
  split; [exact Hknew |]. split; [exact Hts1 |].
  split; [cbn; lia |].
  split.
  { destruct slots_per_chunk_pos as (_ & _ & _ & Hcover).
    rewrite (update_population m m1 co c0 c' o') by (try eassumption; try lia; auto).
    now rewrite Hfree. }
  split; [unfold contents; now rewrite Hkold |].
  intros k'.
  rewrite (update_contents m m1 co c0 c' k o') by (try eassumption; try lia; auto).
  destruct (k' =? k); [| reflexivity].
  f_equal. rewrite Hv.
  destruct Hold as [Hc0 | [_ ->]]; [| apply value_zero_chunk].
  eapply Hfz; [exact Hc0 | lia | exact Hfree].
Qed.

Lemma hashmap_get_chunk_fields (m : hashmap) :
  chunks (hashmap_get_chunk m).1 = chunks m /\
  table_size (hashmap_get_chunk m).1 = table_size m /\
  nr_chunks (hashmap_get_chunk m).1 = nr_chunks m /\
  size (hashmap_get_chunk m).1 = size m /\
  (hashmap_get_chunk m).2 = zero_chunk.
Proof. unfold hashmap_get_chunk. now destruct (graveyard m =? 0). Qed.

(** A creating [hashmap_find] that returns an element leaves every other
    key as it was, and binds a key that was not there to a zeroed value. *)
Lemma hashmap_find_create_refines (m m1 : hashmap) k ptr :
  hashmap_inv m ->
  hashmap_find m k true = (m1, Some ptr) ->
  hashmap_inv m1 /\ find_slot m1 k = Some ptr /\
  table_size m1 = table_size m /\
  size m1 = size m + match contents m k with Some _ => 0 | None => 1 end /\
  population m1 =
    population m + match contents m k with Some _ => 0 | None => 1 end /\
  forall k', contents m1 k' =
             if k' =? k then Some (default zero_value (contents m k))
             else contents m k'.
Proof.
  intros Hinv Hf. pose proof Hinv as (Hwf & Hnr & Hst & Hfz).
  unfold hashmap_find in Hf.
  destruct (size m >=? table_size m / 2); [discriminate |].
  destruct (rand_r (k mod 2 ^ 32)) as [r curr] eqn:Hr.
  pose proof (rand_r_nonneg _ _ _ Hr) as Hr0.
  destruct (hashmap_find_offsets HP m r Hwf Hr0) as (Hco & Hlt & Hoic).
  set (co := r mod table_size m / HASHMAP_ELEMENTS_PER_CHUNK) in *.
  set (oic := r mod table_size m - co * HASHMAP_ELEMENTS_PER_CHUNK) in *.
  destruct (get_chunk_ptr m co) as [c0 |] eqn:Hget.
  - pose proof (proj1 (get_chunk_ptr_Some _ _ _) Hget) as Hc0.
    rewrite hashmap_find_probe_create, (chunk_at_lookup _ _ _ Hc0) in Hf.
    destruct (probe_path MAX_CHAIN_LENGTH c0 k oic curr) as [[o' []] |] eqn:Hp;
      inversion Hf; subst m1 ptr; clear Hf.
    + destruct (claim_refines m m k r curr c0 o' Hinv Hr) as (Hi & Hfs & Ht & Hs & Hpop & Hc & Hcs);
        try reflexivity; try assumption.
      { fold co. now rewrite list_insert_id. }
      { now left. }
      fold co in Hi, Hfs, Ht, Hs, Hcs.
      split; [exact Hi |]. split; [exact Hfs |]. split; [exact Ht |].
      rewrite Hc. split; [exact Hs |]. split; [exact Hpop | exact Hcs].
    + assert (Hfs : find_slot m k = Some (co, o')).
      { unfold find_slot. rewrite Hr. fold co. fold oic. now rewrite Hget, Hp. }
      split; [exact Hinv |]. split; [exact Hfs |]. split; [reflexivity |].
      assert (Hck : contents m k = Some (load_value m (co, o')))
        by (unfold contents; now rewrite Hfs).
      rewrite Hck. split; [lia |]. split; [lia |].
      intros k'. destruct (Z.eqb_spec k' k) as [-> | Hne]; [| reflexivity].
      unfold contents. now rewrite Hfs.
  - cbn [negb] in Hf.
    destruct (hashmap_get_chunk m) as [mg cz] eqn:Hgc.
    destruct (hashmap_get_chunk_fields m) as (Hg1 & Hg2 & Hg3 & Hg4 & Hg5).
    rewrite Hgc in Hg1, Hg2, Hg3, Hg4, Hg5. cbn [fst snd] in *. subst cz.
    set (mA := set_chunks mg (<[Z.to_nat co := Some zero_chunk]> (chunks mg))) in *.
    assert (HcA : chunks mA !! Z.to_nat co = Some (Some zero_chunk)).
    { cbn [mA set_chunks chunks]. apply list_lookup_insert_eq. now rewrite Hg1. }
    rewrite hashmap_find_probe_create, (chunk_at_lookup _ _ _ HcA) in Hf.
    assert (Hp : probe_path MAX_CHAIN_LENGTH zero_chunk k oic curr = Some (oic, true)).
    { cbn [MAX_CHAIN_LENGTH probe_path]. now rewrite slot_taken_zero_chunk. }
    rewrite Hp in Hf. inversion Hf; subst m1 ptr; clear Hf.
    assert (Hnone : chunks m !! Z.to_nat co = Some None).
    { unfold get_chunk_ptr in Hget.
      destruct (chunks m !! Z.to_nat co) as [[c |] |] eqn:Hc; cbn in Hget;
        [discriminate | reflexivity |].
      apply lookup_ge_None in Hc. lia. }
    destruct (claim_refines m mA k r curr zero_chunk oic Hinv Hr)
      as (Hi & Hfs & Ht & Hs & Hpop & Hc & Hcs); try assumption.
    { cbn [mA set_chunks chunks]. fold co. now rewrite Hg1. }
    { right. now split. }
    fold co in Hi, Hfs, Ht, Hs, Hcs.
    split; [exact Hi |]. split; [exact Hfs |]. split; [exact Ht |].
    rewrite Hc. split; [exact Hs |]. split; [exact Hpop | exact Hcs].
Qed.

(** Storing through the pointer to the element of a key rebinds that key
    and no other. *)
Lemma store_value_refines (m : hashmap) k ptr v :
  hashmap_inv m ->
  find_slot m k = Some ptr ->
  hashmap_inv (store_value m ptr v) /\
  find_slot (store_value m ptr v) k = Some ptr /\
  population (store_value m ptr v) = population m /\
  forall k', contents (store_value m ptr v) k' =
             if k' =? k then Some v else contents m k'.
Proof.
  intros (Hwf & Hnr & Hst & Hfz) Hfs. destruct ptr as [co o].
  destruct (find_slot_taken _ _ _ _ Hwf Hfs) as (c & Hco & Hc & Ho & Ht & Hk).
  destruct (find_slot_Some _ _ _ _ Hfs) as (c1 & r & curr & Hr & Hco1 & Hc1 & Hp).
  rewrite Hc in Hc1. inversion Hc1; subst c1. clear Hc1.
  assert (Hwc : chunk_wf c) by (destruct Hwf as (_ & _ & Hcs); eapply Hcs, Hc).
  set (c' := set_element_value v o c).
  set (m' := store_value m (co, o) v).
  assert (Hch : chunks m' = <[Z.to_nat co := Some c']> (chunks m)).
  { subst m'. unfold store_value. cbn [fst snd]. now apply alter_chunk_chunks. }
  assert (Hlt : (Z.to_nat co < length (chunks m))%nat) by (eapply lookup_lt_Some, Hc).
  assert (Hoth : forall q, 0 <= q -> q <> o ->
            slot_taken c' q = slot_taken c q /\ slot_key c' q = slot_key c q /\
            value (get_element c' q) = value (get_element c q)).
  { intros q Hq Hne. split; [reflexivity |].
    split; [apply slot_key_set_element_value |].
    apply value_set_element_value_ne; lia. }
  assert (Ht' : slot_taken c' o = true) by exact Ht.
  assert (Hk' : slot_key c' o = k) by (subst c'; now rewrite slot_key_set_element_value).
  assert (Hknew : find_slot m' k = Some (co, o)).
  { rewrite Hco1.
    eapply (find_slot_update_eq m m' k r curr c c' o false); try eassumption.
    - reflexivity.
    - now rewrite <- Hco1.
    - now rewrite <- Hco1. }
  split.
  { split; [eapply (update_wf m m'); try eassumption; try reflexivity;
            now apply chunk_wf_set_element_value |].
    split; [rewrite Hch, length_insert; exact Hnr |].
    split.
    - eapply (update_stored m m' co c c' k o); try eassumption; try lia; auto.
    - eapply (update_fresh_zero m m' co c c' k o); try eassumption; auto. }
  split; [exact Hknew |].
  split.
  { destruct slots_per_chunk_pos as (_ & _ & _ & Hcover).
    rewrite (update_population m m' co c c' o) by (try eassumption; try lia; auto).
    rewrite Ht. lia. }
  intros k'.
  rewrite (update_contents m m' co c c' k o) by
    (try eassumption; try lia; try reflexivity; auto).
  destruct (k' =? k); [| reflexivity].
  f_equal. now apply value_set_element_value.
Qed.

(** ** Growing the table *)

Section grow.
Variable m : hashmap.
Hypothesis Hinv : hashmap_inv m.

Lemma rehashed_skip q q' (n : hashmap) :
  0 <= q <= q' ->
  (forall j, q <= j < q' -> taken_at m j = false) ->
  rehashed m q n -> rehashed m q' n.
Proof.
  intros Hq Hfree (Hi & Hts & Hsz & Ha & Hb).
  split; [exact Hi |]. split; [exact Hts |]. split; [| split].
  - rewrite (count_upto_skip _ q q'); assumption.
  - intros i c o Hc Ho Ht Hlt. apply (Ha i c o); try assumption.
    destruct (Z.lt_ge_cases (Z.of_nat i * slots_per_chunk + o) q) as [| Hge];
      [assumption |].
    rewrite <- (taken_at_slot m i c o Hc Ho) in Ht.
    rewrite Hfree in Ht by lia. discriminate.
  - intros k Hk. destruct (Hb k Hk) as (i & c & o & Hc & Ho & Ht & Hlt & Hkey).
    exists i, c, o. repeat split; try assumption; lia.
Qed.

Lemma rehashed_entry (cid mid eid : Z) (c : chunk) (n n' : hashmap) :
  0 <= cid -> chunks m !! Z.to_nat cid = Some (Some c) ->
  0 <= mid < HASHMAP_MASKS_PER_CHUNK -> 0 <= eid < HASHMAP_BITS_PER_MASK ->
  rehashed m (cid * slots_per_chunk + mid * HASHMAP_BITS_PER_MASK + eid) n ->
  hashmap_grow_entry c mid n eid = Ok n' ->
  rehashed m (cid * slots_per_chunk + mid * HASHMAP_BITS_PER_MASK + eid + 1) n'.
Proof.
  intros Hcid Hc Hmid Heid Hre Hg.
  destruct Hinv as (Hwf & _ & Hst & _).
  set (o := mid * HASHMAP_BITS_PER_MASK + eid).
  assert (Ho : 0 <= o < slots_per_chunk) by (unfold slots_per_chunk, o; nia).
  assert (Hq : cid * slots_per_chunk + mid * HASHMAP_BITS_PER_MASK + eid =
               Z.of_nat (Z.to_nat cid) * slots_per_chunk + o)
    by (rewrite Z2Nat.id by assumption; unfold o; lia).
  rewrite Hq in *.
  set (q := Z.of_nat (Z.to_nat cid) * slots_per_chunk + o) in *.
  assert (Hq0 : 0 <= q) by (unfold q; rewrite Z2Nat.id by assumption; nia).
  pose proof (taken_at_slot m _ c o Hc Ho) as Htq. fold q in Htq.
  unfold hashmap_grow_entry in Hg.
  rewrite <- slot_taken_mask in Hg by lia. fold o in Hg.
  destruct (slot_taken c o) eqn:Ht.
  2:{ inversion Hg; subst n'. apply (rehashed_skip q); [lia | | exact Hre].
      intros j Hj. replace j with q by lia. exact Htq. }
  change (key (get_element c o)) with (slot_key c o) in Hg.
  set (k0 := slot_key c o) in *.
  set (v0 := value (get_element c o)) in *.
  pose proof (Hst _ _ _ Hc (proj1 Ho) Ht) as Hhere. fold k0 in Hhere.
  destruct Hre as (Hi & Hts & Hsz & Ha & Hb).
  destruct (hashmap_find n k0 true) as [n1 [ptr |]] eqn:Hf; [| discriminate].
  inversion Hg; subst n'. clear Hg.
  destruct (hashmap_find_create_refines n n1 k0 ptr Hi Hf)
    as (Hi1 & Hfs1 & Hts1 & Hsz1 & _ & Hc1).
  destruct (store_value_refines n1 k0 ptr v0 Hi1 Hfs1) as (Hi' & _ & _ & Hc').
  assert (Hsame : forall (i : nat) c2 o2,
            chunks m !! i = Some (Some c2) -> 0 <= o2 < slots_per_chunk ->
            slot_taken c2 o2 = true -> slot_key c2 o2 = k0 ->
            Z.of_nat i * slots_per_chunk + o2 = q /\ c2 = c /\ o2 = o).
  { intros i c2 o2 Hc2 Ho2 Ht2 Hk2.
    pose proof (Hst _ _ _ Hc2 (proj1 Ho2) Ht2) as Hthere.
    rewrite Hk2, Hhere in Hthere. inversion Hthere as [[Hi2 Ho2']].
    apply Nat2Z.inj in Hi2. subst i o2.
    rewrite Hc in Hc2. inversion Hc2. now subst. }
  assert (Hnew : contents n k0 = None).
  { destruct (contents n k0) as [v |] eqn:Hcn; [exfalso | reflexivity].
    destruct (Hb k0) as (i & c2 & o2 & Hc2 & Ho2 & Ht2 & Hlt & Hk2);
      [congruence |].
    destruct (Hsame i c2 o2 Hc2 Ho2 Ht2 Hk2) as (Heq & _). lia. }
  rewrite Hnew in Hsz1.
  split; [exact Hi' |].
  split; [change (table_size n1 = HASHMAP_GROWTH_FACTOR * table_size m); congruence |].
  split.
  { change (size n1 = size m + count_upto (taken_at m) (q + 1)).
    rewrite count_upto_succ, Htq by assumption. lia. }
  split.
  - intros i c2 o2 Hc2 Ho2 Ht2 Hlt. rewrite Hc'.
    destruct (Z.eqb_spec (slot_key c2 o2) k0) as [Hk2 | Hk2].
    + destruct (Hsame i c2 o2 Hc2 Ho2 Ht2 Hk2) as (_ & -> & ->). reflexivity.
    + rewrite Hc1. apply Z.eqb_neq in Hk2. rewrite Hk2.
      apply (Ha i c2 o2); try assumption.
      destruct (Z.eq_dec (Z.of_nat i * slots_per_chunk + o2) q) as [Heq | Hne]; [| lia].
      exfalso. unfold q in Heq.
      destruct (number_unique _ _ _ _ Ho2 Ho Heq) as [Hi2 ->].
      apply Nat2Z.inj in Hi2. subst i. rewrite Hc in Hc2. inversion Hc2; subst c2.
      apply Z.eqb_neq in Hk2. now apply Hk2.
  - intros k Hk. rewrite Hc' in Hk.
    destruct (Z.eqb_spec k k0) as [Hkk | Hne].
    + exists (Z.to_nat cid), c, o. repeat split; try assumption; try lia.
    + rewrite Hc1 in Hk. apply Z.eqb_neq in Hne. rewrite Hne in Hk.
      destruct (Hb k Hk) as (i & c2 & o2 & Hc2 & Ho2 & Ht2 & Hlt & Hkey).
      exists i, c2, o2. repeat split; try assumption; lia.
Qed.

Lemma rehashed_grow_mask (cid mid : Z) (c : chunk) (n n' : hashmap) :
  0 <= cid -> chunks m !! Z.to_nat cid = Some (Some c) ->
  0 <= mid < HASHMAP_MASKS_PER_CHUNK ->
  rehashed m (cid * slots_per_chunk + mid * HASHMAP_BITS_PER_MASK) n ->
  hashmap_grow_mask c n mid = Ok n' ->
  rehashed m (cid * slots_per_chunk + (mid + 1) * HASHMAP_BITS_PER_MASK) n'.
Proof.
  intros Hcid Hc Hmid Hre Hg.
  destruct slots_per_chunk_pos as (Hbpm & Hmpc & Hspc & _).
  replace (cid * slots_per_chunk + (mid + 1) * HASHMAP_BITS_PER_MASK)
    with (cid * slots_per_chunk + mid * HASHMAP_BITS_PER_MASK + HASHMAP_BITS_PER_MASK)
    by lia.
  unfold hashmap_grow_mask in Hg.
  destruct (Z.eqb_spec (get_mask c mid) 0) as [Hz | Hnz].
  - inversion Hg; subst n'.
    apply (rehashed_skip (cid * slots_per_chunk + mid * HASHMAP_BITS_PER_MASK));
      [nia | | exact Hre].
    intros j Hj.
    assert (Ho : 0 <= j - cid * slots_per_chunk < slots_per_chunk)
      by (unfold slots_per_chunk in *; nia).
    pose proof (taken_at_slot m _ c _ Hc Ho) as Htj.
    rewrite Z2Nat.id in Htj by assumption.
    replace (cid * slots_per_chunk + (j - cid * slots_per_chunk)) with j in Htj by lia.
    rewrite Htj. apply (slot_taken_empty_mask c mid); [assumption | lia].
  - eapply (for_range_ind
              (fun eid s => rehashed m (cid * slots_per_chunk +
                                       mid * HASHMAP_BITS_PER_MASK + eid) s));
      [lia | | | exact Hg].
    + now rewrite Z.add_0_r.
    + intros eid s s' Heid Hs Hb. rewrite Z.add_assoc.
      eapply rehashed_entry; eassumption.
Qed.

Lemma rehashed_grow_chunk (cid : Z) (n n' : hashmap) :
  0 <= cid ->
  rehashed m (cid * slots_per_chunk) n ->
  hashmap_grow_chunk (chunks m) n cid = Ok n' ->
  rehashed m ((cid + 1) * slots_per_chunk) n'.
Proof.
  intros Hcid Hre Hg.
  destruct slots_per_chunk_pos as (Hbpm & Hmpc & Hspc & _).
  unfold hashmap_grow_chunk in Hg.
  change (default None (chunks m !! Z.to_nat cid)) with (get_chunk_ptr m cid) in Hg.
  destruct (get_chunk_ptr m cid) as [c |] eqn:Hget.
  - apply get_chunk_ptr_Some in Hget.
    destruct (for_range HASHMAP_MASKS_PER_CHUNK (hashmap_grow_mask c) n)
      as [n1 | msg] eqn:Hmasks; [| discriminate].
    cbn in Hg. inversion Hg; subst n'.
    assert (Hn1 : rehashed m (cid * slots_per_chunk +
                              HASHMAP_MASKS_PER_CHUNK * HASHMAP_BITS_PER_MASK) n1).
    { eapply (for_range_ind
                (fun mid s => rehashed m (cid * slots_per_chunk +
                                         mid * HASHMAP_BITS_PER_MASK) s));
        [lia | | | exact Hmasks].
      - now rewrite Z.mul_0_l, Z.add_0_r.
      - intros mid s s' Hmid Hs Hb. eapply rehashed_grow_mask; eassumption. }
    replace ((cid + 1) * slots_per_chunk)
      with (cid * slots_per_chunk + HASHMAP_MASKS_PER_CHUNK * HASHMAP_BITS_PER_MASK)
      by (unfold slots_per_chunk; lia).
    exact Hn1.
  - inversion Hg; subst n'.
    apply (rehashed_skip (cid * slots_per_chunk)); [nia | | exact Hre].
    intros j Hj. apply (taken_at_no_chunk m cid); [assumption | lia].
Qed.

(** [hashmap_grow] keeps every binding and doubles the table; it does not
    reset the element counter, to which the re-hashing adds every element
    once more. *)
Lemma hashmap_grow_refines (m' : hashmap) :
  hashmap_grow m = Ok m' ->
  hashmap_inv m' /\
  table_size m' = HASHMAP_GROWTH_FACTOR * table_size m /\
  size m' = size m + population m /\
  forall k, contents m' k = contents m k.
Proof.
  intros Hg. pose proof Hinv as (Hwf & Hnr & Hst & Hfz).
  pose proof Hwf as (Hts & Hlen & Hcs).
  destruct HP as (Hepc & _).
  destruct slots_per_chunk_pos as (Hbpm & Hmpc & Hspc & Hcover).
  unfold hashmap_grow in Hg.
  assert (Hn : table_size m / HASHMAP_ELEMENTS_PER_CHUNK = Z.of_nat (length (chunks m))).
  { rewrite <- Hlen. apply Z.div_mul. lia. }
  rewrite Hn in Hg.
  assert (Hre : rehashed m (Z.of_nat (length (chunks m)) * slots_per_chunk) m').
  { eapply (for_range_ind (fun cid s => rehashed m (cid * slots_per_chunk) s));
      [lia | | | exact Hg].
    - split; [| split; [reflexivity | split; [cbn [size]; rewrite count_upto_0; lia |]]].
      + split; [| split; [| split]].
        * split; [| split]; cbn [table_size chunks].
          -- unfold HASHMAP_GROWTH_FACTOR. lia.
          -- rewrite length_replicate, <- Hlen. unfold HASHMAP_GROWTH_FACTOR.
             replace (2 * (Z.of_nat (length (chunks m)) * HASHMAP_ELEMENTS_PER_CHUNK))
               with (2 * Z.of_nat (length (chunks m)) * HASHMAP_ELEMENTS_PER_CHUNK) by lia.
             rewrite Z.div_mul by lia. lia.
          -- intros i c Hi. apply lookup_replicate in Hi as [Hi _]. discriminate.
        * cbn [nr_chunks chunks]. rewrite length_replicate, Z2Nat.id; [reflexivity |].
          apply Z.div_pos; unfold HASHMAP_GROWTH_FACTOR; lia.
        * intros i c o Hi. cbn [chunks] in Hi.
          apply lookup_replicate in Hi as [Hi _]. discriminate.
        * intros i c o Hi. cbn [chunks] in Hi.
          apply lookup_replicate in Hi as [Hi _]. discriminate.
      + split.
        * intros i c o _ Ho _ Hlt. nia.
        * intros k Hk. exfalso. apply Hk. unfold contents, find_slot.
          destruct (rand_r (k mod 2 ^ 32)) as [r curr].
          unfold get_chunk_ptr. cbn [chunks].
          destruct (replicate _ None !! _) as [[c |] |] eqn:Hc; try reflexivity.
          apply lookup_replicate in Hc as [Hc _]. discriminate.
    - intros cid s s' Hcid Hs Hb. eapply rehashed_grow_chunk; [lia | exact Hs | exact Hb]. }
  destruct Hre as (Hi & Hts' & Hsz & Ha & Hb).
  split; [exact Hi |]. split; [exact Hts' |]. split; [exact Hsz |].
  intros k. destruct (contents m k) as [v |] eqn:Hcm.
  - unfold contents in Hcm.
    destruct (find_slot m k) as [[co o] |] eqn:Hfs; [| discriminate].
    destruct (find_slot_taken _ _ _ _ Hwf Hfs) as (c & Hco & Hc & Ho & Ht & Hk).
    rewrite (load_value_lookup m _ _ _ Hc) in Hcm. inversion Hcm; subst v.
    rewrite <- Hk. apply (Ha (Z.to_nat co) c o); try assumption; [lia |].
    apply lookup_lt_Some in Hc. nia.
  - destruct (contents m' k) as [v |] eqn:Hcm'; [exfalso | reflexivity].
    destruct (Hb k) as (i & c & o & Hc & Ho & Ht & _ & Hk); [congruence |].
    pose proof (Hst _ _ _ Hc (proj1 Ho) Ht) as Hfs. rewrite Hk in Hfs.
    unfold contents in Hcm. now rewrite Hfs in Hcm.
Qed.

End grow.

(** ** Look-ups, [hashmap_get] and [hashmap_put] *)

Lemma hashmap_find_lookup_slot (m : hashmap) k :
  hashmap_find m k false =
  (m, if size m >=? table_size m / 2 then None else find_slot m k).
Proof.
  unfold hashmap_find, find_slot.
  destruct (size m >=? table_size m / 2); [reflexivity |].
  destruct (rand_r (k mod 2 ^ 32)) as [r curr].
  destruct (get_chunk_ptr m _) as [c |] eqn:Hc; [| reflexivity].
  rewrite hashmap_find_probe_lookup. unfold chunk_at. rewrite Hc.
  cbn [default from_option id].
  now destruct (probe_path _ _ _ _ _) as [[o []] |].
Qed.

Lemma hashmap_lookup_slot (m : hashmap) k :
  hashmap_lookup m k =
  (m, if size m >=? table_size m / 2 then None else find_slot m k).
Proof.
  unfold hashmap_lookup. rewrite hashmap_find_lookup_slot.
  now destruct (if size m >=? table_size m / 2 then None else find_slot m k).
Qed.

Lemma lookup_value_contents (m : hashmap) k :
  lookup_value m k =
  if size m >=? table_size m / 2 then None else contents m k.
Proof.
  unfold lookup_value, contents. rewrite hashmap_lookup_slot. cbn [snd].
  now destruct (size m >=? table_size m / 2).
Qed.

(** A creating [hashmap_find] that returns nothing has changed nothing. *)
Lemma hashmap_find_create_none (m m1 : hashmap) k :
  hashmap_wf m ->
  hashmap_find m k true = (m1, None) -> m1 = m.
Proof.
  intros Hwf Hf. unfold hashmap_find in Hf.
  destruct (size m >=? table_size m / 2); [now inversion Hf |].
  destruct (rand_r (k mod 2 ^ 32)) as [r curr] eqn:Hr.
  pose proof (rand_r_nonneg _ _ _ Hr) as Hr0.
  destruct (hashmap_find_offsets HP m r Hwf Hr0) as (Hco & Hlt & Hoic).
  set (co := r mod table_size m / HASHMAP_ELEMENTS_PER_CHUNK) in *.
  set (oic := r mod table_size m - co * HASHMAP_ELEMENTS_PER_CHUNK) in *.
  destruct (get_chunk_ptr m co) as [c0 |] eqn:Hget.
  - rewrite hashmap_find_probe_create in Hf.
    destruct (probe_path _ _ _ _ _) as [[o' []] |]; now inversion Hf.
  - cbn [negb] in Hf.
    destruct (hashmap_get_chunk m) as [mg cz] eqn:Hgc.
    destruct (hashmap_get_chunk_fields m) as (Hg1 & _ & _ & _ & Hg5).
    rewrite Hgc in Hg1, Hg5. cbn [fst snd] in *. subst cz.
    rewrite hashmap_find_probe_create in Hf.
    rewrite chunk_at_insert in Hf by now rewrite Hg1.
    cbn [MAX_CHAIN_LENGTH probe_path] in Hf.
    rewrite slot_taken_zero_chunk in Hf. discriminate.
Qed.

Lemma grow_until_found_refines fuel (m m2 : hashmap) k ptr :
  hashmap_inv m ->
  grow_until_found fuel m k None = Ok (Some (m2, ptr)) ->
  exists m0,
    hashmap_inv m0 /\ (forall k', contents m0 k' = contents m k') /\
    table_size m < table_size m0 /\
    hashmap_find m0 k true = (m2, Some ptr).
Proof.
  revert m. induction fuel as [| fuel IH]; intros m Hinv Hg; [discriminate |].
  cbn [grow_until_found] in Hg.
  destruct (hashmap_grow m) as [mg | msg] eqn:Hgrow; [| discriminate].
  cbn in Hg.
  destruct (hashmap_grow_refines m Hinv mg Hgrow) as (Hig & Htg & _ & Hcg).
  assert (Hlt : table_size m < table_size mg).
  { destruct Hinv as ((Hpos & _) & _). rewrite Htg. unfold HASHMAP_GROWTH_FACTOR. lia. }
  destruct (hashmap_find mg k true) as [m1 [p |]] eqn:Hf.
  - cbn [grow_until_found] in Hg. destruct fuel; inversion Hg; subst m1 p;
      now exists mg.
  - assert (m1 = mg) by (eapply hashmap_find_create_none; [apply Hig | exact Hf]).
    subst m1.
    destruct (IH mg Hig Hg) as (m0 & Hi0 & Hc0 & Ht0 & Hf0).
    exists m0. split; [exact Hi0 |].
    split; [intros k'; now rewrite Hc0 |].
    split; [lia | exact Hf0].
Qed.

(** [hashmap_get] finds the element of a key or creates one with a zeroed
    value, and changes no other binding. *)
Lemma hashmap_get_refines fuel (m m' : hashmap) k ptr :
  hashmap_inv m ->
  hashmap_get fuel m k = Ok (Some (m', ptr)) ->
  hashmap_inv m' /\ find_slot m' k = Some ptr /\
  table_size m <= table_size m' /\
  forall k', contents m' k' =
             if k' =? k then Some (default zero_value (contents m k))
             else contents m k'.
Proof.
  intros Hinv Hget. unfold hashmap_get in Hget.
  destruct (hashmap_find m k true) as [m1 [p |]] eqn:Hf.
  - assert (Heq : m1 = m' /\ p = ptr) by (destruct fuel; now inversion Hget).
    destruct Heq; subst m1 p.
    destruct (hashmap_find_create_refines m m' k ptr Hinv Hf)
      as (Hi & Hfs & Hts & _ & _ & Hc).
    split; [exact Hi |]. split; [exact Hfs |]. split; [lia | exact Hc].
  - assert (m1 = m) by (eapply hashmap_find_create_none; [apply Hinv | exact Hf]).
    subst m1.
    destruct (grow_until_found_refines fuel m m' k ptr Hinv Hget)
      as (m0 & Hi0 & Hc0 & Ht0 & Hf0).
    destruct (hashmap_find_create_refines m0 m' k ptr Hi0 Hf0)
      as (Hi & Hfs & Hts & _ & _ & Hc).
    split; [exact Hi |]. split; [exact Hfs |]. split; [lia |].
    intros k'. rewrite Hc, !Hc0. reflexivity.
Qed.

Lemma hashmap_put_get fuel (m : hashmap) k v :
  hashmap_put fuel m k v =
  match hashmap_get fuel m k with
  | Ok (Some (m, element)) => Ok (Some (store_value m element v))
  | Ok None => Ok None
  | Error msg => Error msg
  end.
Proof.
  unfold hashmap_put, hashmap_get.
  destruct (hashmap_find m k true) as [m1 e].
  now destruct (grow_until_found fuel m1 k e) as [[[m2 p] |] | msg].
Qed.

(** [hashmap_put] binds the key to the value and changes no other
    binding, whether the table grows or not. *)
Lemma hashmap_put_refines fuel (m m' : hashmap) k v :
  hashmap_inv m ->
  hashmap_put fuel m k v = Ok (Some m') ->
  hashmap_inv m' /\ table_size m <= table_size m' /\
  forall k', contents m' k' = if k' =? k then Some v else contents m k'.
Proof.
  intros Hinv Hput. rewrite hashmap_put_get in Hput.
  destruct (hashmap_get fuel m k) as [[[m1 ptr] |] | msg] eqn:Hget;
    inversion Hput; subst m'.
  destruct (hashmap_get_refines fuel m m1 k ptr Hinv Hget) as (Hi1 & Hfs & Hts & Hc1).
  destruct (store_value_refines m1 k ptr v Hi1 Hfs) as (Hi' & _ & _ & Hc').
  split; [exact Hi' |]. split; [exact Hts |].
  intros k'. rewrite Hc', Hc1. now destruct (k' =? k).
Qed.

(** ** The loop of [hashmap_put] and [hashmap_get], round by round *)

Lemma hashmap_grow_times_wf n (m mn : hashmap) :
  hashmap_wf m -> hashmap_grow_times n m = Ok mn ->
  hashmap_wf mn /\ table_size mn = 2 ^ Z.of_nat n * table_size m.
Proof.
  revert m. induction n as [| n IH]; intros m Hwf Hg.
  - injection Hg as <-. split; [exact Hwf |]. cbn. lia.
  - cbn [hashmap_grow_times] in Hg.
    destruct (hashmap_grow m) as [mg | msg] eqn:Hgrow; [| discriminate].
    cbn [mbind result_bind] in Hg.
    destruct (hashmap_grow_wf HP _ _ Hwf Hgrow) as (Hwfg & Htg).
    destruct (IH mg Hwfg Hg) as (Hwfn & Htn).
    split; [exact Hwfn |]. rewrite Htn, Htg. unfold HASHMAP_GROWTH_FACTOR.
    rewrite Nat2Z.inj_succ, Z.pow_succ_r by lia. lia.
Qed.

Lemma hashmap_grow_times_refines n (m mn : hashmap) :
  hashmap_inv m -> hashmap_grow_times n m = Ok mn ->
  hashmap_inv mn /\ forall k, contents mn k = contents m k.
Proof.
  revert m. induction n as [| n IH]; intros m Hinv Hg.
  - injection Hg as <-. now split.
  - cbn [hashmap_grow_times] in Hg.
    destruct (hashmap_grow m) as [mg | msg] eqn:Hgrow; [| discriminate].
    cbn [mbind result_bind] in Hg.
    destruct (hashmap_grow_refines m Hinv mg Hgrow) as (Hig & _ & _ & Hcg).
    destruct (IH mg Hig Hg) as (Hin & Hcn).
    split; [exact Hin |]. intros k. now rewrite Hcn.
Qed.

Lemma placed_after_0 (m m2 : hashmap) k ptr :
  placed_after 0 m k m2 ptr <-> hashmap_find m k true = (m2, Some ptr).
Proof.
  unfold placed_after. cbn [hashmap_grow_times]. split.
  - intros ((mn & [= <-] & Hf) & _). exact Hf.
  - intros Hf. split; [now exists m | intros i Hi; lia].
Qed.

Lemma placed_after_S n (m m2 : hashmap) k ptr :
  placed_after (S n) m k m2 ptr <->
  (hashmap_find m k true).2 = None /\
  exists mg, hashmap_grow m = Ok mg /\ placed_after n mg k m2 ptr.
Proof.
  unfold placed_after. cbn [hashmap_grow_times]. split.
  - intros ((mn & Hg & Hf) & Hless).
    destruct (Hless 0%nat) as (m0 & [= <-] & H0); [lia |].
    split; [exact H0 |].
    destruct (hashmap_grow m) as [mg | msg] eqn:Hgrow; [| discriminate].
    cbn [mbind result_bind] in Hg. exists mg. split; [reflexivity |].
    split; [now exists mn |].
    intros i Hi. destruct (Hless (S i)) as (mi & Hgi & Hfi); [lia |].
    cbn [hashmap_grow_times] in Hgi. rewrite Hgrow in Hgi.
    now exists mi.
  - intros (H0 & mg & Hgrow & (mn & Hg & Hf) & Hless). rewrite Hgrow.
    cbn [mbind result_bind]. split; [now exists mn |].
    intros [| i] Hi.
    + exists m. now split.
    + destruct (Hless i) as (mi & Hgi & Hfi); [lia |]. exists mi.
      cbn [hashmap_grow_times]. rewrite Hgrow. now split.
Qed.

Lemma placed_after_table_size n (m m2 : hashmap) k ptr :
  hashmap_wf m -> placed_after n m k m2 ptr ->
  table_size m2 = 2 ^ Z.of_nat n * table_size m.
Proof.
  intros Hwf ((mn & Hg & Hf) & _).
  destruct (hashmap_grow_times_wf n m mn Hwf Hg) as (Hwfn & <-).
  now destruct (hashmap_find_wf HP _ _ _ _ _ Hwfn Hf).
Qed.

(** The loop returns exactly when some number of rounds, within the fuel,
    places the key. *)
Lemma grow_until_found_placed fuel (m m2 : hashmap) k ptr :
  hashmap_wf m -> (hashmap_find m k true).2 = None ->
  grow_until_found fuel m k None = Ok (Some (m2, ptr)) <->
  exists n, (n <= fuel)%nat /\ placed_after n m k m2 ptr.
Proof.
  revert m. induction fuel as [| fuel IH]; intros m Hwf Hnone.
  - cbn [grow_until_found]. split; [discriminate |].
    intros (n & Hn & Hp). assert (n = 0%nat) as -> by lia.
    apply placed_after_0 in Hp. rewrite Hp in Hnone. discriminate.
  - cbn [grow_until_found].
    destruct (hashmap_grow m) as [mg | msg] eqn:Hgrow.
    2:{ cbn [mbind result_bind]. split; [discriminate |].
        intros ([| n] & Hn & Hp).
        - apply placed_after_0 in Hp. rewrite Hp in Hnone. discriminate.
        - apply placed_after_S in Hp as (_ & mg & Hg & _). congruence. }
    cbn [mbind result_bind].
    destruct (hashmap_grow_wf HP _ _ Hwf Hgrow) as (Hwfg & _).
    destruct (hashmap_find mg k true) as [m1 [p |]] eqn:Hf.
    + assert (Hret : grow_until_found fuel m1 k (Some p) = Ok (Some (m1, p)))
        by now destruct fuel.
      rewrite Hret. split.
      * intros [= <- <-]. exists 1%nat. split; [lia |].
        apply placed_after_S. split; [exact Hnone |].
        exists mg. split; [exact Hgrow |]. now apply placed_after_0.
      * intros ([| [| n]] & Hn & Hp).
        -- apply placed_after_0 in Hp. rewrite Hp in Hnone. discriminate.
        -- apply placed_after_S in Hp as (_ & mg' & Hg & Hp).
           apply placed_after_0 in Hp. congruence.
        -- apply placed_after_S in Hp as (_ & mg' & Hg & Hp).
           apply placed_after_S in Hp as (H0 & _).
           assert (mg' = mg) by congruence. subst mg'.
           rewrite Hf in H0. discriminate.
    + assert (m1 = mg)
        by (eapply hashmap_find_create_none; [exact Hwfg | exact Hf]).
      subst m1.
      rewrite (IH mg Hwfg) by now rewrite Hf.
      split.
      * intros (n & Hn & Hp). exists (S n). split; [lia |].
        apply placed_after_S. split; [exact Hnone |]. now exists mg.
      * intros ([| n] & Hn & Hp).
        -- apply placed_after_0 in Hp. rewrite Hp in Hnone. discriminate.
        -- apply placed_after_S in Hp as (_ & mg' & Hg & Hp).
           assert (mg' = mg) by congruence. subst mg'.
           exists n. split; [lia | exact Hp].
Qed.

Lemma hashmap_get_placed fuel (m m2 : hashmap) k ptr :
  hashmap_wf m ->
  hashmap_get fuel m k = Ok (Some (m2, ptr)) <->
  exists n, (n <= fuel)%nat /\ placed_after n m k m2 ptr.
Proof.
  intros Hwf. unfold hashmap_get.
  destruct (hashmap_find m k true) as [m1 [p |]] eqn:Hf.
  - assert (Hret : grow_until_found fuel m1 k (Some p) = Ok (Some (m1, p)))
      by now destruct fuel.
    rewrite Hret. split.
    + intros [= <- <-]. exists 0%nat. split; [lia |]. now apply placed_after_0.
    + intros ([| n] & Hn & Hp).
      * apply placed_after_0 in Hp. congruence.
      * apply placed_after_S in Hp as (H0 & _). rewrite Hf in H0. discriminate.
  - assert (m1 = m)
      by (eapply hashmap_find_create_none; [exact Hwf | exact Hf]).
    subst m1. apply grow_until_found_placed; [exact Hwf | now rewrite Hf].
Qed.

Lemma hashmap_put_placed fuel (m m' : hashmap) k v :
  hashmap_wf m ->
  hashmap_put fuel m k v = Ok (Some m') <->
  exists n m2 ptr, (n <= fuel)%nat /\ placed_after n m k m2 ptr /\
                   m' = store_value m2 ptr v.
Proof.
  intros Hwf. rewrite hashmap_put_get. split.
  - destruct (hashmap_get fuel m k) as [[[m2 ptr] |] | msg] eqn:Hget;
      try discriminate.
    intros [= <-]. apply (hashmap_get_placed _ _ _ _ _ Hwf) in Hget
      as (n & Hn & Hp).
    now exists n, m2, ptr.
  - intros (n & m2 & ptr & Hn & Hp & ->).
    assert (Hget : hashmap_get fuel m k = Ok (Some (m2, ptr)))
      by (apply (hashmap_get_placed _ _ _ _ _ Hwf); now exists n).
    now rewrite Hget.
Qed.

Lemma contents_lookup (m : hashmap) k v :
  size m < table_size m / 2 -> contents m k = Some v ->
  exists ptr, hashmap_lookup m k = (m, Some ptr) /\ load_value m ptr = v.
Proof.
  intros Hroom Hc. rewrite hashmap_lookup_slot.
  destruct (Z.geb_spec (size m) (table_size m / 2)); [lia |].
  unfold contents in Hc. destruct (find_slot m k) as [ptr |]; [| discriminate].
  exists ptr. split; [reflexivity | congruence].
Qed.

Lemma hashmap_init_inv : hashmap_inv (hashmap_init (V := V)).
Proof.
  split; [apply (hashmap_init_wf HP) |]. split; [| split].
  - destruct HP as (Hepc & _). cbn [hashmap_init nr_chunks chunks].
    rewrite length_replicate, Z2Nat.id; [reflexivity |].
    apply Z.div_pos; unfold INITIAL_SIZE; lia.
  - intros i c o Hi. cbn [hashmap_init chunks] in Hi.
    apply lookup_replicate in Hi as [Hi _]. discriminate.
  - intros i c o Hi. cbn [hashmap_init chunks] in Hi.
    apply lookup_replicate in Hi as [Hi _]. discriminate.
Qed.

Lemma contents_init k : contents (hashmap_init (V := V)) k = None.
Proof.
  unfold contents, find_slot.
  destruct (rand_r (k mod 2 ^ 32)) as [r curr].
  unfold get_chunk_ptr. cbn [hashmap_init chunks].
  destruct (replicate _ None !! _) as [[c |] |] eqn:Hc; try reflexivity.
  apply lookup_replicate in Hc as [Hc _]. discriminate.
Qed.

Lemma hashmap_put_all_stuck fuel (r : result (option hashmap)) kvs :
  (forall m, r <> Ok (Some m)) ->
  foldl (fun acc kv =>
           match acc with
           | Ok (Some m) => hashmap_put fuel m kv.1 kv.2
           | r => r
           end) r kvs = r.
Proof.
  intros Hr. induction kvs as [| kv kvs IH]; [reflexivity |].
  cbn [foldl]. destruct r as [[m |] | msg]; [now destruct (Hr m) | exact IH | exact IH].
Qed.

Lemma hashmap_put_all_cons fuel (m : hashmap) k v kvs :
  hashmap_put_all fuel m ((k, v) :: kvs) =
  match hashmap_put fuel m k v with
  | Ok (Some m1) => hashmap_put_all fuel m1 kvs
  | r => r
  end.
Proof.
  unfold hashmap_put_all. cbn [foldl fst snd].
  destruct (hashmap_put fuel m k v) as [[m1 |] | msg]; [reflexivity | |];
    now apply hashmap_put_all_stuck.
Qed.

(** A sequence of [hashmap_put]s builds the finite map of its bindings. *)
Lemma hashmap_put_all_refines fuel kvs (m m' : hashmap) (M : gmap Z V) :
  hashmap_inv m -> (forall k, contents m k = M !! k) ->
  hashmap_put_all fuel m kvs = Ok (Some m') ->
  hashmap_inv m' /\
  forall k, contents m' k = foldl (fun M kv => <[kv.1 := kv.2]> M) M kvs !! k.
Proof.
  revert m M. induction kvs as [| [k v] kvs IH]; intros m M Hinv HM Hall.
  - inversion Hall; subst m'. now split.
  - rewrite hashmap_put_all_cons in Hall.
    destruct (hashmap_put fuel m k v) as [[m1 |] | msg] eqn:Hput; try discriminate.
    destruct (hashmap_put_refines fuel m m1 k v Hinv Hput) as (Hi1 & _ & Hc1).
    cbn [foldl fst snd]. apply (IH m1); [exact Hi1 | | exact Hall].
    intros k'. rewrite Hc1. destruct (Z.eqb_spec k' k) as [-> | Hne].
    + now rewrite lookup_insert_eq.
    + now rewrite lookup_insert_ne, HM by congruence.
Qed.

(** ** Counting elements *)

Lemma hashmap_put_nogrow (m m' : hashmap) k v :
  hashmap_put 0 m k v = Ok (Some m') ->
  exists m1 ptr,
    hashmap_find m k true = (m1, Some ptr) /\ m' = store_value m1 ptr v.
Proof.
  unfold hashmap_put. destruct (hashmap_find m k true) as [m1 [ptr |]];
    cbn; intros Hput; inversion Hput. now exists m1, ptr.
Qed.

Lemma population_no_chunks (m : hashmap) :
  (forall cid, get_chunk_ptr m cid = None) -> population m = 0.
Proof.
  intros Hnone. unfold population.
  rewrite (count_upto_skip _ 0); [apply count_upto_0 | |].
  - destruct slots_per_chunk_pos as (_ & _ & Hspc & _). nia.
  - intros j _. unfold taken_at. now rewrite Hnone.
Qed.

Lemma get_chunk_ptr_init cid : get_chunk_ptr (hashmap_init (V := V)) cid = None.
Proof.
  unfold get_chunk_ptr. cbn [hashmap_init chunks].
  destruct (replicate _ None !! _) as [[c |] |] eqn:Hc; try reflexivity.
  apply lookup_replicate in Hc as [Hc _]. discriminate.
Qed.

(** While the table does not grow, the counter is the number of elements
    taken, and the number of keys bound. *)
Lemma hashmap_put_all_nogrow kvs (m m' : hashmap) (M : gmap Z V) :
  hashmap_inv m -> (forall k, contents m k = M !! k) ->
  size m = population m -> size m = Z.of_nat (base.size M) ->
  hashmap_put_all 0 m kvs = Ok (Some m') ->
  size m' = population m' /\
  size m' = Z.of_nat (base.size (foldl (fun M kv => <[kv.1 := kv.2]> M) M kvs)) /\
  table_size m' = table_size m.
Proof.
  revert m M. induction kvs as [| [k v] kvs IH]; intros m M Hinv HM Hpop Hsz Hall.
  - inversion Hall; subst m'. now split.
  - rewrite hashmap_put_all_cons in Hall.
    destruct (hashmap_put 0 m k v) as [[m1 |] | msg] eqn:Hput; try discriminate.
    destruct (hashmap_put_refines 0 m m1 k v Hinv Hput) as (Hi1 & _ & Hc1).
    destruct (hashmap_put_nogrow m m1 k v Hput) as (m0 & ptr & Hf & ->).
    destruct (hashmap_find_create_refines m m0 k ptr Hinv Hf)
      as (Hi0 & Hfs0 & Hts0 & Hsz0 & Hpop0 & _).
    destruct (store_value_refines m0 k ptr v Hi0 Hfs0) as (_ & _ & Hpop1 & _).
    cbn [foldl fst snd].
    destruct (IH (store_value m0 ptr v) (<[k := v]> M)) as (H1 & H2 & H3);
      try assumption.
    + intros k'. rewrite Hc1. destruct (Z.eqb_spec k' k) as [-> | Hne].
      * now rewrite lookup_insert_eq.
      * now rewrite lookup_insert_ne, HM by congruence.
    + rewrite Hpop1. change (size m0 = population m0). lia.
    + change (size m0 = Z.of_nat (base.size (<[k := v]> M))).
      rewrite map_size_insert, Hsz0, HM.
      destruct (M !! k); cbn [id]; lia.
    + split; [exact H1 |]. split; [exact H2 |].
      rewrite H3. exact Hts0.
Qed.

(** ** Iterating *)

Lemma for_loop_ind {T : Type} (I : Z -> T -> Prop) n (body : T -> Z -> T) (s : T) :
  0 <= n ->
  I 0 s ->
  (forall i s, 0 <= i < n -> I i s -> I (i + 1) (body s i)) ->
  I n (for_loop n body s).
Proof.
  intros Hn Hs Hbody. unfold for_loop.
  assert (Hgen : forall len a s,
            Z.of_nat (a + len) <= n ->
            I (Z.of_nat a) s ->
            I (Z.of_nat (a + len))
              (foldl (fun s i => body s (Z.of_nat i)) s (seq a len))).
  { induction len as [| len IH]; intros a s0 Hle Hs0; cbn [seq foldl].
    - now rewrite Nat.add_0_r.
    - replace (a + S len)%nat with (S a + len)%nat by lia.
      apply (IH (S a)); [lia |].
      replace (Z.of_nat (S a)) with (Z.of_nat a + 1) by lia.
      apply Hbody; [lia | exact Hs0]. }
  specialize (Hgen (Z.to_nat n) 0%nat s).
  rewrite Nat.add_0_l, Z2Nat.id in Hgen by assumption.
  apply Hgen; [lia | exact Hs].
Qed.

Lemma entries_upto_succ (m : hashmap) q :
  0 <= q ->
  entries_upto m (q + 1) =
  entries_upto m q ++ (if taken_at m q then [entry_at m q] else []).
Proof.
  intros Hq. unfold entries_upto.
  replace (Z.to_nat (q + 1)) with (S (Z.to_nat q)) by lia.
  rewrite seq_S, filter_app, map_app. cbn [Nat.add]. f_equal.
  rewrite filter_cons, filter_nil, Z2Nat.id by assumption.
  destruct (decide (taken_at m q = true)) as [-> | Hf].
  - cbn [map]. now rewrite Z2Nat.id.
  - now destruct (taken_at m q).
Qed.

Lemma entries_upto_skip (m : hashmap) q q' :
  0 <= q <= q' ->
  (forall j, q <= j < q' -> taken_at m j = false) ->
  entries_upto m q' = entries_upto m q.
Proof.
  intros Hq Hp.
  replace q' with (q + Z.of_nat (Z.to_nat (q' - q))) in * by lia.
  induction (Z.to_nat (q' - q)) as [| d IH].
  - now rewrite Z.add_0_r.
  - replace (q + Z.of_nat (S d)) with (q + Z.of_nat d + 1) in * by lia.
    rewrite entries_upto_succ by lia.
    rewrite (Hp (q + Z.of_nat d)) by lia.
    rewrite app_nil_r. apply IH; [lia |]. intros j Hj. apply Hp. lia.
Qed.

Lemma set_element_value_same (c : chunk) o :
  set_element_value (value (get_element c o)) o c = c.
Proof.
  unfold set_element_value, get_element. destruct c as [ms ds]. cbn [masks data].
  f_equal. apply list_eq. intros i.
  destruct (decide (i = Z.to_nat o)) as [-> | Hne].
  - rewrite list_lookup_alter_eq.
    destruct (ds !! Z.to_nat o) as [[k v] |]; reflexivity.
  - now rewrite list_lookup_alter_ne.
Qed.

Lemma store_value_same (m : hashmap) cid o :
  store_value m (cid, o) (value (get_element (chunk_at m cid) o)) = m.
Proof.
  unfold store_value, alter_chunk, set_chunks. cbn [fst snd].
  destruct m as [cs g a ts nr sz]. cbn [chunks graveyard allocs table_size nr_chunks size].
  f_equal. apply list_eq. intros i.
  destruct (decide (i = Z.to_nat cid)) as [-> | Hne].
  - rewrite list_lookup_alter_eq.
    unfold chunk_at, get_chunk_ptr. cbn [chunks].
    destruct (cs !! Z.to_nat cid) as [[c |] |]; cbn; try reflexivity.
    now rewrite set_element_value_same.
  - now rewrite list_lookup_alter_ne.
Qed.

Lemma for_loop_nonpos {T : Type} n (body : T -> Z -> T) (s : T) :
  n <= 0 -> for_loop n body s = s.
Proof.
  intros Hn. unfold for_loop. now replace (Z.to_nat n) with 0%nat by lia.
Qed.

Lemma for_loop_max {T : Type} n (body : T -> Z -> T) (s : T) :
  for_loop n body s = for_loop (Z.max 0 n) body s.
Proof.
  unfold for_loop. now replace (Z.to_nat (Z.max 0 n)) with (Z.to_nat n) by lia.
Qed.

Section iterate.
Variable m : hashmap.
Hypothesis Hinv : hashmap_inv m.

(** No element beyond the last one of a chunk is marked as taken. *)
Lemma inv_tail (i : nat) (c : chunk) o :
  chunks m !! i = Some (Some c) -> HASHMAP_ELEMENTS_PER_CHUNK <= o ->
  slot_taken c o = false.
Proof.
  destruct HP as (Hepc & _). destruct Hinv as (Hwf & _ & Hst & _).
  intros Hc Ho. destruct (slot_taken c o) eqn:Ht; [exfalso | reflexivity].
  assert (Ho0 : 0 <= o) by lia.
  pose proof (Hst _ _ _ Hc Ho0 Ht) as Hfs.
  destruct (find_slot_taken _ _ _ _ Hwf Hfs) as (_ & _ & _ & Hr & _). lia.
Qed.

Lemma entry_at_slot (i : nat) (c : chunk) o :
  chunks m !! i = Some (Some c) -> 0 <= o < slots_per_chunk ->
  entry_at m (Z.of_nat i * slots_per_chunk + o) =
  (slot_key c o, value (get_element c o)).
Proof.
  intros Hc Ho. unfold entry_at.
  destruct (number_div_mod (Z.of_nat i) o Ho) as [-> ->].
  unfold chunk_at.
  assert (Hget : get_chunk_ptr m (Z.of_nat i) = Some c)
    by (apply get_chunk_ptr_Some; now rewrite Nat2Z.id).
  now rewrite Hget.
Qed.

Lemma iterate_entry_collect (cid mid eid : Z) (c : chunk) d :
  0 <= cid -> chunks m !! Z.to_nat cid = Some (Some c) ->
  0 <= mid < HASHMAP_MASKS_PER_CHUNK -> 0 <= eid < HASHMAP_BITS_PER_MASK ->
  let q := cid * slots_per_chunk + mid * HASHMAP_BITS_PER_MASK + eid in
  hashmap_iterate_entry collect cid mid (get_mask c mid) (m, d) eid =
  (m, d ++ (if taken_at m q then [entry_at m q] else [])).
Proof.
  intros Hcid Hc Hmid Heid q.
  set (o := mid * HASHMAP_BITS_PER_MASK + eid).
  assert (Ho : 0 <= o < slots_per_chunk) by (unfold slots_per_chunk, o; nia).
  assert (Hq : q = Z.of_nat (Z.to_nat cid) * slots_per_chunk + o)
    by (rewrite Z2Nat.id by assumption; unfold q, o; lia).
  rewrite Hq, (taken_at_slot m _ c o Hc Ho), (entry_at_slot _ c o Hc Ho).
  unfold hashmap_iterate_entry.
  rewrite <- slot_taken_mask by lia. fold o.
  destruct (slot_taken c o); [| now rewrite app_nil_r].
  assert (Hat : chunk_at m cid = c) by now apply chunk_at_lookup.
  rewrite Hat. unfold collect. f_equal.
  rewrite <- Hat at 1. apply store_value_same.
Qed.

Lemma iterate_mask_collect (cid mid : Z) (c : chunk) d :
  0 <= cid -> chunks m !! Z.to_nat cid = Some (Some c) ->
  0 <= mid < HASHMAP_MASKS_PER_CHUNK ->
  forall d0,
  d = d0 ++ entries_upto m (cid * slots_per_chunk + mid * HASHMAP_BITS_PER_MASK) ->
  hashmap_iterate_mask collect cid (m, d) mid =
  (m, d0 ++ entries_upto m (cid * slots_per_chunk + (mid + 1) * HASHMAP_BITS_PER_MASK)).
Proof.
  intros Hcid Hc Hmid d0 Hd.
  destruct slots_per_chunk_pos as (Hbpm & Hmpc & Hspc & _).
  set (q0 := cid * slots_per_chunk + mid * HASHMAP_BITS_PER_MASK) in *.
  replace (cid * slots_per_chunk + (mid + 1) * HASHMAP_BITS_PER_MASK)
    with (q0 + HASHMAP_BITS_PER_MASK) by (unfold q0; lia).
  assert (Hq0 : 0 <= q0) by (unfold q0; nia).
  assert (Hslot : forall e, 0 <= e < HASHMAP_BITS_PER_MASK ->
            taken_at m (q0 + e) = slot_taken c (mid * HASHMAP_BITS_PER_MASK + e)).
  { intros e He.
    assert (Ho : 0 <= mid * HASHMAP_BITS_PER_MASK + e < slots_per_chunk)
      by (unfold slots_per_chunk; nia).
    rewrite <- (taken_at_slot m _ c _ Hc Ho), Z2Nat.id by assumption.
    f_equal. unfold q0. lia. }
  unfold hashmap_iterate_mask. cbn [fst].
  rewrite (chunk_at_lookup _ _ _ Hc).
  destruct (Z.eqb_spec (get_mask c mid) 0) as [Hz | Hnz].
  - rewrite (entries_upto_skip m q0); [now rewrite Hd | lia |].
    intros j Hj. replace j with (q0 + (j - q0)) by lia.
    rewrite Hslot by lia. apply (slot_taken_empty_mask c mid); [assumption | lia].
  - set (E := Z.min HASHMAP_BITS_PER_MASK
                    (HASHMAP_ELEMENTS_PER_CHUNK - mid * HASHMAP_BITS_PER_MASK)).
    rewrite for_loop_max.
    assert (Hloop : for_loop (Z.max 0 E)
                      (hashmap_iterate_entry collect cid mid (get_mask c mid)) (m, d) =
                    (m, d0 ++ entries_upto m (q0 + Z.max 0 E))).
    { apply (for_loop_ind
               (fun e s => s = (m, d0 ++ entries_upto m (q0 + e)))); [lia | |].
      - now rewrite Z.add_0_r, Hd.
      - intros e s He ->.
        rewrite (iterate_entry_collect cid mid e c) by (try assumption; lia).
        fold q0. rewrite Z.add_assoc, entries_upto_succ by lia.
        now rewrite app_assoc. }
    rewrite Hloop. f_equal. f_equal. symmetry.
    apply entries_upto_skip; [lia |].
    intros j Hj. replace j with (q0 + (j - q0)) by lia.
    rewrite Hslot by lia.
    apply (inv_tail _ c _ Hc). lia.
Qed.

Lemma iterate_chunk_collect (cid : Z) d d0 :
  0 <= cid ->
  d = d0 ++ entries_upto m (cid * slots_per_chunk) ->
  hashmap_iterate_chunk collect (m, d) cid =
  (m, d0 ++ entries_upto m ((cid + 1) * slots_per_chunk)).
Proof.
  intros Hcid Hd.
  destruct slots_per_chunk_pos as (Hbpm & Hmpc & Hspc & _).
  unfold hashmap_iterate_chunk. cbn [fst].
  destruct (get_chunk_ptr m cid) as [c |] eqn:Hget.
  - apply get_chunk_ptr_Some in Hget.
    replace ((cid + 1) * slots_per_chunk)
      with (cid * slots_per_chunk + HASHMAP_MASKS_PER_CHUNK * HASHMAP_BITS_PER_MASK)
      by (unfold slots_per_chunk; lia).
    apply (for_loop_ind
             (fun mid s => s = (m, d0 ++ entries_upto m
                                  (cid * slots_per_chunk + mid * HASHMAP_BITS_PER_MASK))));
      [lia | |].
    + now rewrite Z.mul_0_l, Z.add_0_r, Hd.
    + intros mid s Hmid ->. now apply (iterate_mask_collect cid mid c).
  - rewrite (entries_upto_skip m (cid * slots_per_chunk)); [now rewrite Hd | nia |].
    intros j Hj. apply (taken_at_no_chunk m cid); [assumption | lia].
Qed.

Lemma hashmap_iterate_collect d0 :
  hashmap_iterate m collect d0 =
  (m, d0 ++ entries_upto m (Z.of_nat (length (chunks m)) * slots_per_chunk)).
Proof.
  destruct Hinv as (_ & Hnr & _). unfold hashmap_iterate. rewrite Hnr.
  apply (for_loop_ind
           (fun cid s => s = (m, d0 ++ entries_upto m (cid * slots_per_chunk))));
    [lia | |].
  - now rewrite app_nil_r.
  - intros cid s Hcid ->. apply iterate_chunk_collect; [lia | reflexivity].
Qed.

Lemma taken_at_true j :
  0 <= j -> taken_at m j = true ->
  exists c,
    chunks m !! Z.to_nat (j / slots_per_chunk) = Some (Some c) /\
    slot_taken c (j mod slots_per_chunk) = true /\
    find_slot m (slot_key c (j mod slots_per_chunk)) =
      Some (j / slots_per_chunk, j mod slots_per_chunk) /\
    entry_at m j = (slot_key c (j mod slots_per_chunk),
                    value (get_element c (j mod slots_per_chunk))).
Proof.
  destruct slots_per_chunk_pos as (_ & _ & Hspc & _).
  destruct Hinv as (_ & _ & Hst & _).
  intros Hj Ht. unfold taken_at in Ht.
  destruct (get_chunk_ptr m (j / slots_per_chunk)) as [c |] eqn:Hget; [| discriminate].
  pose proof (proj1 (get_chunk_ptr_Some _ _ _) Hget) as Hc.
  pose proof (Z.mod_pos_bound j slots_per_chunk Hspc) as Hmod.
  assert (Hdiv : 0 <= j / slots_per_chunk) by (apply Z.div_pos; lia).
  exists c. split; [exact Hc |]. split; [exact Ht |]. split.
  - pose proof (Hst _ _ _ Hc (proj1 Hmod) Ht) as Hfs.
    now rewrite Z2Nat.id in Hfs.
  - unfold entry_at, chunk_at. now rewrite Hget.
Qed.

(** The entries collected are the bindings of the table, each once. *)
Lemma entries_contents :
  let l := entries_upto m (Z.of_nat (length (chunks m)) * slots_per_chunk) in
  NoDup l.*1 /\ forall k v, (k, v) ∈ l <-> contents m k = Some v.
Proof.
  destruct slots_per_chunk_pos as (_ & _ & Hspc & Hcover).
  pose proof Hinv as (Hwf & _ & Hst & _).
  intros l. subst l. unfold entries_upto. split.
  - rewrite <- list_fmap_compose.
    apply NoDup_fmap_2_strong; [| apply NoDup_filter, NoDup_seq].
    intros x y Hx Hy Heq.
    apply list_elem_of_filter in Hx as [Hx _], Hy as [Hy _].
    destruct (taken_at_true (Z.of_nat x) ltac:(lia) Hx) as (cx & _ & _ & Hfx & Hex).
    destruct (taken_at_true (Z.of_nat y) ltac:(lia) Hy) as (cy & _ & _ & Hfy & Hey).
    change (fst (entry_at m (Z.of_nat x)) = fst (entry_at m (Z.of_nat y))) in Heq.
    rewrite Hex, Hey in Heq. cbn [fst] in Heq.
    rewrite Heq, Hfy in Hfx. inversion Hfx as [[Hd Hm]].
    assert (Hnz : slots_per_chunk <> 0) by lia.
    pose proof (Z.div_mod (Z.of_nat x) slots_per_chunk Hnz).
    pose proof (Z.div_mod (Z.of_nat y) slots_per_chunk Hnz).
    apply Nat2Z.inj. congruence.
  - intros k v. rewrite list_elem_of_fmap. split.
    + intros (i & Hkv & Hi). apply list_elem_of_filter in Hi as [Hi _].
      destruct (taken_at_true (Z.of_nat i) ltac:(lia) Hi) as (c & Hc & _ & Hfs & He).
      rewrite He in Hkv. inversion Hkv; subst k v.
      unfold contents. rewrite Hfs. f_equal. now apply load_value_lookup.
    + intros Hkv. unfold contents in Hkv.
      destruct (find_slot m k) as [[co o] |] eqn:Hfs; [| discriminate].
      destruct (find_slot_taken _ _ _ _ Hwf Hfs) as (c & Hco & Hc & Ho & Ht & Hk).
      rewrite (load_value_lookup m _ _ _ Hc) in Hkv. inversion Hkv; subst v.
      assert (Hor : 0 <= o < slots_per_chunk) by lia.
      pose proof (lookup_lt_Some _ _ _ Hc) as Hlt.
      assert (Hj : Z.of_nat (Z.to_nat (co * slots_per_chunk + o)) =
                   Z.of_nat (Z.to_nat co) * slots_per_chunk + o)
        by (rewrite !Z2Nat.id; nia).
      exists (Z.to_nat (co * slots_per_chunk + o)). split.
      * now rewrite Hj, (entry_at_slot _ c o Hc Hor), Hk.
      * apply list_elem_of_filter. split.
        -- now rewrite Hj, (taken_at_slot m _ c o Hc Hor).
        -- apply elem_of_seq. nia.
Qed.

End iterate.

Lemma hashmap_put_all_inv fuel kvs (m : hashmap) :
  hashmap_put_all fuel hashmap_init kvs = Ok (Some m) -> hashmap_inv m.
Proof.
  intros Hall.
  destruct (hashmap_put_all_refines fuel kvs hashmap_init m empty hashmap_init_inv)
    as (Hinv & _); [| exact Hall | exact Hinv].
  intros k. now rewrite contents_init, lookup_empty.
Qed.

(** ** The hashmap as a finite map: results *)

(** C9 (as amended). On a table that [hashmap_init], [hashmap_put],
    [hashmap_get] and [hashmap_grow] have made, [hashmap_put] returns
    exactly when some number [n] of rounds of [hashmap_grow] lets
    [hashmap_find] place the key, and then after the least such [n]: it
    grows the table until the insertion succeeds, and with the rounds it
    needs allowed for, it returns. The table it leaves has [2^n] times the
    slots, binds the key to the value and has lost no binding; as long as it
    is less than half full, [hashmap_lookup] returns a pointer to the value
    for the key and finds every other key as before. [hashmap_lookup] never
    changes the table. *)
Theorem hashmap_put_then_lookup (fuel : nat) (m : hashmap) (k : Z) (v : V) :
  hashmap_inv m ->
  (forall m',
     hashmap_put fuel m k v = Ok (Some m') <->
     exists n m2 ptr, (n <= fuel)%nat /\ placed_after n m k m2 ptr /\
                      m' = store_value m2 ptr v) /\
  (forall m',
     hashmap_put fuel m k v = Ok (Some m') ->
     hashmap_inv m' /\
     (exists n, (n <= fuel)%nat /\
                table_size m' = 2 ^ Z.of_nat n * table_size m) /\
     (forall k', contents m' k' = if k' =? k then Some v else contents m k') /\
     (size m' < table_size m' / 2 ->
      (exists ptr, hashmap_lookup m' k = (m', Some ptr) /\
                   load_value m' ptr = v) /\
      forall k', k' <> k -> lookup_value m' k' = contents m k')) /\
  (forall (m0 : hashmap) k0, (hashmap_lookup m0 k0).1 = m0).
Proof.
  intros Hinv. pose proof Hinv as (Hwf & _).
  split; [intros m'; now apply hashmap_put_placed |]. split.
  - intros m' Hput.
    destruct (hashmap_put_refines fuel m m' k v Hinv Hput) as (Hi & _ & Hc).
    split; [exact Hi |]. split.
    { apply (hashmap_put_placed _ _ _ _ _ Hwf) in Hput
        as (n & m2 & ptr & Hn & Hp & ->).
      exists n. split; [exact Hn |].
      exact (placed_after_table_size n m m2 k ptr Hwf Hp). }
    split; [exact Hc |].
    intros Hroom. split.
    + apply contents_lookup; [exact Hroom |]. now rewrite Hc, Z.eqb_refl.
    + intros k' Hne. rewrite lookup_value_contents, Hc.
      destruct (Z.geb_spec (size m') (table_size m' / 2)); [lia |].
      apply Z.eqb_neq in Hne. now rewrite Hne.
  - intros m0 k0. unfold hashmap_lookup.
    pose proof (hashmap_find_lookup_unchanged m0 k0) as Hsame.
    destruct (hashmap_find m0 k0 false) as [m1 e]. exact Hsame.
Qed.

(** X1. From [hashmap_init], any sequence of [hashmap_put]s that returns,
    however often the table grew on the way, leaves a table in which, as
    long as it is less than half full, [hashmap_lookup] finds for every key
    the value of the last [hashmap_put] of that key, and [NULL] for a key
    that was never put. *)
Theorem hashmap_put_all_lookup (fuel : nat) (kvs : list (Z * V)) (m : hashmap) :
  hashmap_put_all fuel hashmap_init kvs = Ok (Some m) ->
  size m < table_size m / 2 ->
  forall k,
    lookup_value m k =
    foldl (fun M kv => <[kv.1 := kv.2]> M) (empty : gmap Z V) kvs !! k.
Proof.
  intros Hall Hroom k.
  destruct (hashmap_put_all_refines fuel kvs hashmap_init m empty hashmap_init_inv)
    as (_ & Hc); [| exact Hall |].
  - intros k'. now rewrite contents_init, lookup_empty.
  - rewrite lookup_value_contents, Hc.
    destruct (Z.geb_spec (size m) (table_size m / 2)); [lia | reflexivity].
Qed.

(** X2. A [hashmap_put] of a key that [hashmap_lookup] finds writes the
    value into the element found: the table does not grow and its element
    counter stays as it is. *)
Theorem hashmap_put_present (fuel : nat) (m : hashmap) (k : Z) (v : V)
    (ptr : element_ptr) :
  hashmap_lookup m k = (m, Some ptr) ->
  hashmap_put fuel m k v = Ok (Some (store_value m ptr v)) /\
  size (store_value m ptr v) = size m /\
  table_size (store_value m ptr v) = table_size m.
Proof.
  intros Hl. split; [| split; reflexivity].
  rewrite hashmap_lookup_slot in Hl.
  destruct (size m >=? table_size m / 2) eqn:Hfull; [discriminate |].
  inversion Hl as [Hfs]. destruct ptr as [co o].
  destruct (find_slot_Some _ _ _ _ Hfs) as (c & r & curr & Hr & Hco & Hc & Hp).
  assert (Hf : hashmap_find m k true = (m, Some (co, o))).
  { unfold hashmap_find. rewrite Hfull, Hr, <- Hco.
    apply get_chunk_ptr_Some in Hc. rewrite Hc.
    rewrite hashmap_find_probe_create. unfold chunk_at. rewrite Hc.
    cbn [default from_option id]. now rewrite Hp. }
  unfold hashmap_put. rewrite Hf. now destruct fuel.
Qed.

(** X3. [hashmap_grow] keeps the table a well-formed one with twice the
    slots, and keeps every binding: probing finds the same keys with the
    same values as before. *)
Theorem hashmap_grow_keeps_bindings (m m' : hashmap) :
  hashmap_inv m ->
  hashmap_grow m = Ok m' ->
  hashmap_inv m' /\
  table_size m' = 2 * table_size m /\
  forall k, contents m' k = contents m k.
Proof.
  intros Hinv Hg.
  destruct (hashmap_grow_refines m Hinv m' Hg) as (Hi & Hts & _ & Hc).
  split; [exact Hi |]. split; [exact Hts | exact Hc].
Qed.

(** X4. As long as no [hashmap_put] had to grow the table, [hashmap_size]
    is the number of distinct keys put. *)
Theorem hashmap_size_counts_keys (kvs : list (Z * V)) (m : hashmap) :
  hashmap_put_all 0 hashmap_init kvs = Ok (Some m) ->
  hashmap_size (Some m) =
  Z.of_nat (base.size (foldl (fun M kv => <[kv.1 := kv.2]> M)
                             (empty : gmap Z V) kvs)).
Proof.
  intros Hall.
  destruct (hashmap_put_all_nogrow kvs hashmap_init m empty hashmap_init_inv)
    as (_ & Hsz & _); try assumption.
  - intros k. now rewrite contents_init, lookup_empty.
  - rewrite population_no_chunks; [reflexivity | apply get_chunk_ptr_init].
  - now rewrite map_size_empty.
Qed.

(** X5. [hashmap_grow] does not reset the element counter, and re-hashing
    counts every element again: on a table that never grew before, it
    doubles [hashmap_size] although the keys are the same. *)
Theorem hashmap_grow_doubles_size (kvs : list (Z * V)) (m m' : hashmap) :
  hashmap_put_all 0 hashmap_init kvs = Ok (Some m) ->
  hashmap_grow m = Ok m' ->
  hashmap_size (Some m') = 2 * hashmap_size (Some m) /\
  forall k, contents m' k = contents m k.
Proof.
  intros Hall Hg.
  assert (Hemp : forall k, contents (hashmap_init (V := V)) k = (empty : gmap Z V) !! k)
    by (intros k; now rewrite contents_init, lookup_empty).
  destruct (hashmap_put_all_refines 0 kvs hashmap_init m empty hashmap_init_inv Hemp Hall)
    as (Hinv & _).
  destruct (hashmap_put_all_nogrow kvs hashmap_init m empty hashmap_init_inv Hemp)
    as (Hpop & _ & _); try assumption.
  - rewrite population_no_chunks; [reflexivity | apply get_chunk_ptr_init].
  - now rewrite map_size_empty.
  - destruct (hashmap_grow_refines m Hinv m' Hg) as (_ & _ & Hsz & Hc).
    split; [cbn [hashmap_size]; lia | exact Hc].
Qed.

(** X6. [hashmap_get] of a key that [hashmap_lookup] finds returns the
    element found and leaves the table as it is, whatever the rounds of
    growth allowed for. For any key it returns exactly when some number of
    rounds of [hashmap_grow] lets [hashmap_find] place the key, after the
    least such number; the element it then returns is the one the key had,
    or a new one whose value is zeroed, no other key is changed, and
    afterwards the key is found at the element returned. *)
Theorem hashmap_get_found_or_zero (fuel : nat) (m : hashmap) (k : Z) :
  hashmap_inv m ->
  (forall ptr, hashmap_lookup m k = (m, Some ptr) ->
     hashmap_get fuel m k = Ok (Some (m, ptr))) /\
  (forall m' ptr,
     hashmap_get fuel m k = Ok (Some (m', ptr)) <->
     exists n, (n <= fuel)%nat /\ placed_after n m k m' ptr) /\
  (forall m' ptr,
     hashmap_get fuel m k = Ok (Some (m', ptr)) ->
     hashmap_inv m' /\
     find_slot m' k = Some ptr /\
     load_value m' ptr = default zero_value (contents m k) /\
     forall k', k' <> k -> contents m' k' = contents m k').
Proof.
  intros Hinv. pose proof Hinv as (Hwf & _). split; [| split].
  - intros ptr Hl. rewrite hashmap_lookup_slot in Hl.
    destruct (size m >=? table_size m / 2) eqn:Hfull; [discriminate |].
    inversion Hl as [Hfs]. destruct ptr as [co o].
    destruct (find_slot_Some _ _ _ _ Hfs) as (c & r & curr & Hr & Hco & Hc & Hp).
    assert (Hf : hashmap_find m k true = (m, Some (co, o))).
    { unfold hashmap_find. rewrite Hfull, Hr, <- Hco.
      apply get_chunk_ptr_Some in Hc. rewrite Hc.
      rewrite hashmap_find_probe_create. unfold chunk_at. rewrite Hc.
      cbn [default from_option id]. now rewrite Hp. }
    unfold hashmap_get. rewrite Hf. now destruct fuel.
  - intros m' ptr. now apply hashmap_get_placed.
  - intros m' ptr Hget.
    destruct (hashmap_get_refines fuel m m' k ptr Hinv Hget) as (Hi & Hfs & _ & Hc).
    split; [exact Hi |]. split; [exact Hfs |]. split.
    + specialize (Hc k). rewrite Z.eqb_refl in Hc.
      unfold contents at 1 in Hc. rewrite Hfs in Hc. now inversion Hc.
    + intros k' Hne. rewrite Hc. apply Z.eqb_neq in Hne. now rewrite Hne.
Qed.

(** X7. [hashmap_iterate] calls the mapper once for every key bound in the
    table, with the value bound to it, and for nothing else; a mapper that
    leaves the values alone leaves the table as it was. *)
Theorem hashmap_iterate_visits_bindings (m : hashmap) :
  hashmap_inv m ->
  exists calls,
    hashmap_iterate m collect [] = (m, calls) /\
    NoDup (map fst calls) /\
    forall k v, (k, v) ∈ calls <-> contents m k = Some v.
Proof.
  intros Hinv.
  exists (entries_upto m (Z.of_nat (length (chunks m)) * slots_per_chunk)).
  split; [apply (hashmap_iterate_collect m Hinv []) |].
  apply (entries_contents m Hinv).
Qed.

(** X8. After [hashmap_free] the table is empty and of size zero: its size
    is 0, a look-up finds nothing, [hashmap_iterate] calls nothing, and a
    [hashmap_put] never stores its value, since every round of its loop
    finds the table full and grows it from no slots to no slots. *)
Theorem hashmap_free_leaves_nothing {D : Type} (m : hashmap) (fuel : nat)
    (k : Z) (v : V) (f : hashmap_mapper_t D) (d : D) :
  hashmap_size (Some (hashmap_free m)) = 0 /\
  hashmap_lookup (hashmap_free m) k = (hashmap_free m, None) /\
  hashmap_iterate (hashmap_free m) f d = (hashmap_free m, d) /\
  hashmap_put fuel (hashmap_free m) k v = Ok None.
Proof.
  split; [reflexivity |]. split; [reflexivity |]. split; [reflexivity |].
  unfold hashmap_put.
  change (hashmap_find (hashmap_free m) k true) with (hashmap_free m, @None element_ptr).
  cbn beta iota.
  assert (Hloop : grow_until_found fuel (hashmap_free m) k None = Ok None).
  { induction fuel as [| fuel IH]; [reflexivity |].
    cbn [grow_until_found].
    change (hashmap_grow (hashmap_free m)) with (Ok (hashmap_free m)).
    cbn [mbind result_bind].
    change (hashmap_find (hashmap_free m) k true)
      with (hashmap_free m, @None element_ptr).
    exact IH. }
  now rewrite Hloop.
Qed.

End refinement.

Section stuck.
#[local] Existing Instance stuck_params.
#[local] Existing Instance HashmapProofs.zero_Z.

(** With a hash that sends every key to the first element of the table, a
    second key is never placed, however often the table grows:
    [hashmap_put] does not return. *)
Lemma stuck_params_wf : params_wf.
Proof.
  split; [reflexivity |]. split; [reflexivity |]. split; [discriminate |].
  intros seed. cbn. lia.
Qed.

Lemma stuck_probe n (c : hashmap_chunk_t (V := Z)) k curr :
  slot_taken c 0 = true -> (slot_key c 0 =? k) = false ->
  probe_path n c k 0 curr = None.
Proof.
  intros Ht Hk. revert curr. induction n as [| n IH]; intros curr;
    [reflexivity |].
  cbn [probe_path]. rewrite Ht, Hk. cbn [negb].
  change (rand_r curr) with (0, curr). cbn beta iota.
  change (0 mod HASHMAP_ELEMENTS_PER_CHUNK) with 0. apply IH.
Qed.

Lemma stuck_probe_found n (c : hashmap_chunk_t (V := Z)) k curr o :
  probe_path n c k 0 curr = Some (o, false) ->
  slot_taken c 0 = true /\ slot_key c 0 = k.
Proof.
  revert curr. induction n as [| n IH]; intros curr; [discriminate |].
  cbn [probe_path].
  destruct (slot_taken c 0) eqn:Ht; [| discriminate]. cbn [negb].
  destruct (slot_key c 0 =? k) eqn:Hk; [intros _; split; [reflexivity | lia] |].
  change (rand_r curr) with (0, curr). cbn beta iota.
  change (0 mod HASHMAP_ELEMENTS_PER_CHUNK) with 0. apply IH.
Qed.

Lemma stuck_find_none (m : hashmap_t (V := Z)) v :
  hashmap_inv m -> contents m 1 = Some v ->
  (hashmap_find m 2 true).2 = None.
Proof.
  intros ((Hts & _) & _) Hc. unfold contents in Hc.
  destruct (find_slot m 1) as [[co o] |] eqn:Hfs; [| discriminate].
  destruct (find_slot_Some _ _ _ _ Hfs) as (c & r & curr & Hr & Hco & Hch & Hp).
  change (rand_r (1 mod 2 ^ 32)) with (0, 1 mod 2 ^ 32) in Hr.
  injection Hr as <- <-.
  rewrite Z.mod_0_l in Hco, Hp by lia.
  change (0 / HASHMAP_ELEMENTS_PER_CHUNK) with 0 in Hco. subst co.
  change (0 - 0 * HASHMAP_ELEMENTS_PER_CHUNK) with 0 in Hp.
  assert (Hslot : slot_taken c 0 = true /\ slot_key c 0 = 1)
    by exact (stuck_probe_found _ c 1 _ o Hp).
  destruct Hslot as (Ht & Hk).
  unfold hashmap_find.
  destruct (size m >=? table_size m / 2); [reflexivity |].
  change (rand_r (2 mod 2 ^ 32)) with (0, 2 mod 2 ^ 32). cbn beta iota.
  rewrite Z.mod_0_l by lia.
  change (0 / HASHMAP_ELEMENTS_PER_CHUNK) with 0.
  change (0 - 0 * HASHMAP_ELEMENTS_PER_CHUNK) with 0.
  apply get_chunk_ptr_Some in Hch. rewrite Hch.
  rewrite hashmap_find_probe_create. unfold chunk_at. rewrite Hch.
  cbn [default from_option id].
  rewrite stuck_probe; [reflexivity | exact Ht |]. rewrite Hk. reflexivity.
Qed.

Example example_put_never_returns :
  let m := final_table (hashmap_put 0 hashmap_init 1 10) in
  hashmap_inv m /\ lookup_value m 1 = Some 10 /\
  forall fuel m', hashmap_put fuel m 2 20 <> Ok (Some m').
Proof.
  intros m.
  assert (Hinv : hashmap_inv m).
  { apply (hashmap_put_all_inv stuck_params_wf 0 [(1, 10)]).
    vm_compute. reflexivity. }
  split; [exact Hinv |]. split; [vm_compute; reflexivity |].
  intros fuel m' Hput.
  apply (hashmap_put_placed stuck_params_wf) in Hput
    as (n & m2 & ptr & _ & ((mn & Hg & Hf) & _) & _); [| apply Hinv].
  destruct (hashmap_grow_times_refines stuck_params_wf n m mn Hinv Hg)
    as (Hin & Hcn).
  assert (Hc : contents mn 1 = Some 10)
    by (rewrite Hcn; vm_compute; reflexivity).
  pose proof (stuck_find_none mn 10 Hin Hc) as Hnone.
  rewrite Hf in Hnone. discriminate.
Qed.

End stuck.

#[local] Existing Instance swift_params.
#[local] Existing Instance HashmapProofs.zero_Z.

Lemma hashmap_put_then_lookup_witness :
  let m := final_table (hashmap_put_all 0 hashmap_init (bindings 635)) in
  let m' := final_table (hashmap_put 2 m 635 1635) in
  hashmap_inv m /\
  hashmap_put 2 m 635 1635 = Ok (Some m') /\
  (exists n m2 ptr, (n <= 2)%nat /\ placed_after n m 635 m2 ptr /\
                    m' = store_value m2 ptr 1635) /\
  hashmap_inv m' /\
  (exists n, (n <= 2)%nat /\ table_size m' = 2 ^ Z.of_nat n * table_size m) /\
  (forall k', contents m' k' =
              if k' =? 635 then Some 1635 else contents m k') /\
  (exists ptr, hashmap_lookup m' 635 = (m', Some ptr) /\
               load_value m' ptr = 1635) /\
  (forall k', k' <> 635 -> lookup_value m' k' = contents m k').
Proof.
  intros m m'.
  assert (Hinv : hashmap_inv m).
  { apply (hashmap_put_all_inv swift_params_wf 0 (bindings 635)).
    vm_compute. reflexivity. }
  assert (Hput : hashmap_put 2 m 635 1635 = Ok (Some m'))
    by (vm_compute; reflexivity).
  assert (Hroom : size m' < table_size m' / 2) by (vm_compute; reflexivity).
  destruct (hashmap_put_then_lookup swift_params_wf 2 m 635 1635 Hinv)
    as (Hiff & Hres & _).
  destruct (Hres m' Hput) as (Hinv' & Hts & Hc & Hlook).
  destruct (Hlook Hroom) as (Hk & Hother).
  split; [exact Hinv |]. split; [exact Hput |].
  split; [now apply Hiff |]. split; [exact Hinv' |]. split; [exact Hts |].
  split; [exact Hc |]. split; [exact Hk | exact Hother].
Defined.

(** The table of the 635 keys is full: the key 635 is placed after two
    rounds of growth, which leave four times the slots, and one round is not
    enough. *)
Example example_put_grows_twice :
  let m := final_table (hashmap_put_all 0 hashmap_init (bindings 635)) in
  (size m, table_size m) = (635, 1270) /\
  hashmap_put 1 m 635 1635 = Ok None /\
  let m' := final_table (hashmap_put 2 m 635 1635) in
  (size m', table_size m') = (1906, 5080).
Proof. repeat split; vm_compute; reflexivity. Qed.

Lemma hashmap_put_all_lookup_witness :
  let kvs := [(7, 42); (9, 1); (7, 5)] in
  let m := final_table (hashmap_put_all 0 hashmap_init kvs) in
  lookup_value m 7 =
    foldl (fun M kv => <[kv.1 := kv.2]> M) (empty : gmap Z Z) kvs !! 7 /\
  lookup_value m 8 =
    foldl (fun M kv => <[kv.1 := kv.2]> M) (empty : gmap Z Z) kvs !! 8.
Proof.
  split;
    apply (hashmap_put_all_lookup swift_params_wf 0 [(7, 42); (9, 1); (7, 5)]);
    vm_compute; reflexivity.
Defined.

Lemma hashmap_put_present_witness :
  let m := final_table (hashmap_put 0 hashmap_init 7 42) in
  let ptr := default (0, 0) (hashmap_lookup m 7).2 in
  hashmap_put 3 m 7 43 = Ok (Some (store_value m ptr 43)) /\
  size (store_value m ptr 43) = size m /\
  table_size (store_value m ptr 43) = table_size m.
Proof.
  apply (hashmap_put_present 3 (final_table (hashmap_put 0 hashmap_init 7 42)) 7 43).
  vm_compute. reflexivity.
Defined.

Lemma hashmap_grow_keeps_bindings_witness :
  let m := final_table (hashmap_put_all 0 hashmap_init [(7, 42); (9, 1)]) in
  let m' := match hashmap_grow m with Ok m' => m' | Error _ => m end in
  hashmap_inv m' /\
  table_size m' = 2 * table_size m /\
  forall k, contents m' k = contents m k.
Proof.
  apply (hashmap_grow_keeps_bindings swift_params_wf).
  - apply (hashmap_put_all_inv swift_params_wf 0 [(7, 42); (9, 1)]).
    vm_compute. reflexivity.
  - vm_compute. reflexivity.
Defined.

Lemma hashmap_size_counts_keys_witness :
  hashmap_size
    (Some (final_table (hashmap_put_all 0 hashmap_init [(7, 42); (9, 1); (7, 5)]))) =
  Z.of_nat (base.size (foldl (fun M kv => <[kv.1 := kv.2]> M) (empty : gmap Z Z)
                             [(7, 42); (9, 1); (7, 5)])).
Proof.
  apply (hashmap_size_counts_keys swift_params_wf [(7, 42); (9, 1); (7, 5)]).
  vm_compute. reflexivity.
Defined.

Lemma hashmap_grow_doubles_size_witness :
  let m := final_table (hashmap_put_all 0 hashmap_init [(7, 42); (9, 1)]) in
  let m' := match hashmap_grow m with Ok m' => m' | Error _ => m end in
  hashmap_size (Some m') = 2 * hashmap_size (Some m) /\
  forall k, contents m' k = contents m k.
Proof.
  apply (hashmap_grow_doubles_size swift_params_wf [(7, 42); (9, 1)]).
  - vm_compute. reflexivity.
  - vm_compute. reflexivity.
Defined.

Lemma hashmap_get_found_or_zero_witness :
  let m := final_table (hashmap_put_all 0 hashmap_init [(7, 42); (9, 1)]) in
  let ptr := default (0, 0) (hashmap_lookup m 7).2 in
  let r := match hashmap_get 0 m 11 with
           | Ok (Some r) => r
           | _ => (m, (0, 0))
           end in
  hashmap_inv m /\
  hashmap_get 3 m 7 = Ok (Some (m, ptr)) /\
  load_value m ptr = 42 /\
  hashmap_get 0 m 11 = Ok (Some r) /\
  (exists n, (n <= 0)%nat /\ placed_after n m 11 r.1 r.2) /\
  hashmap_inv r.1 /\
  find_slot r.1 11 = Some r.2 /\
  load_value r.1 r.2 = default zero_value (contents m 11) /\
  forall k', k' <> 11 -> contents r.1 k' = contents m k'.
Proof.
  intros m ptr r.
  assert (Hinv : hashmap_inv m).
  { apply (hashmap_put_all_inv swift_params_wf 0 [(7, 42); (9, 1)]).
    vm_compute. reflexivity. }
  assert (Hget : hashmap_get 0 m 11 = Ok (Some r)) by (vm_compute; reflexivity).
  destruct (hashmap_get_found_or_zero swift_params_wf 3 m 7 Hinv)
    as (Hfound & _ & _).
  destruct (hashmap_get_found_or_zero swift_params_wf 0 m 11 Hinv)
    as (_ & Hiff & Hres).
  split; [exact Hinv |].
  split; [apply Hfound; vm_compute; reflexivity |].
  split; [vm_compute; reflexivity |].
  split; [exact Hget |].
  split; [apply (proj1 (Hiff r.1 r.2)); now destruct r |].
  apply (Hres r.1 r.2). now destruct r.
Defined.

Lemma hashmap_iterate_visits_bindings_witness :
  let m := final_table (hashmap_put_all 0 hashmap_init [(7, 42); (9, 1)]) in
  exists calls,
    hashmap_iterate m collect [] = (m, calls) /\
    NoDup (map fst calls) /\
    forall k v, (k, v) ∈ calls <-> contents m k = Some v.
Proof.
  apply (hashmap_iterate_visits_bindings swift_params_wf).
  apply (hashmap_put_all_inv swift_params_wf 0 [(7, 42); (9, 1)]).
  vm_compute. reflexivity.
Defined.

End HashmapMapProofs.

Module TimelineProofs.
Import Timeline.

(** ** Rounding to the nearest double *)

















(** ** The time line *)





(** ** The two loops of node 0 *)

Lemma halve_while_more_fuel fuel fuel' lim dt r :
  halve_while fuel lim dt = Some r -> (fuel <= fuel')%nat ->
  halve_while fuel' lim dt = Some r.
Proof.
  revert fuel' dt. induction fuel as [| fuel IH]; intros fuel' dt H Hle.
  - cbn [halve_while] in H.
    destruct fuel'; cbn [halve_while];
      destruct (lim <? double_of_float dt)%float; congruence.
  - destruct fuel' as [| fuel']; [lia |]. cbn [halve_while] in *.
    destruct (lim <? double_of_float dt)%float; [| exact H].
    apply IH; [exact H | lia].
Qed.


(** The nodes other than node 0 do not run the loops. *)
Lemma engine_init_timeline_other_nodes fuel fuel' N (e : engine) :
  nodeID e <> 0 ->
  engine_init_timeline fuel N e = engine_init_timeline fuel' N e /\
  engine_init_timeline fuel N e <> Ok None.
Proof.
  intros Hn. apply Z.eqb_neq in Hn. unfold engine_init_timeline.
  destruct (timeEnd e <=? timeBegin e)%float; [split; [reflexivity | discriminate] |].
  destruct (dt_max e <? dt_min e)%float; [split; [reflexivity | discriminate] |].
  cbn [dt_min timeBase nodeID timeEnd timeBegin dt_max]. rewrite Hn.
  split; [reflexivity |].
  rewrite !andb_false_r. discriminate.
Qed.

Lemma halve_while_infinity fuel lim :
  (lim <? infinity)%float = true ->
  halve_while fuel lim (S754_infinity false) = None.
Proof.
  intros Hlim. induction fuel as [| fuel IH]; cbn [halve_while];
    change (double_of_float (S754_infinity false)) with infinity;
    rewrite Hlim; [reflexivity | exact IH].
Qed.

(** On node 0, a run time beyond the range of [float] keeps the first loop
    halving infinity: [engine_init] does not return. *)
Lemma engine_init_timeline_diverges fuel N (e : engine) :
  nodeID e = 0 ->
  float_of_double (timeEnd e - timeBegin e) = S754_infinity false ->
  (dt_min e <? infinity)%float = true ->
  forall e', engine_init_timeline fuel N e <> Ok (Some e').
Proof.
  intros Hn Hinf Hlim e'. unfold engine_init_timeline.
  destruct (timeEnd e <=? timeBegin e)%float; [discriminate |].
  destruct (dt_max e <? dt_min e)%float; [discriminate |].
  cbn [dt_min timeBase nodeID timeEnd timeBegin dt_max].
  rewrite Hn, Hinf, (halve_while_infinity fuel _ Hlim). discriminate.
Qed.

(** ** Halving a [float] *)























(** Time bounds that are not numbers pass the checks of [engine_init]. *)
Example timeBase_of_nan :
  exists e',
    engine_init_timeline 0 (2 ^ 28) (engine_for 0 nan 0 0) = Ok (Some e') /\
    within_one_ulp (timeBase e' * double_of_integertime (2 ^ 28)) (nan - 0)
    = false.
Proof. eexists. split; vm_compute; reflexivity. Qed.

(** The order of the doubles and their neighbours. *)
Example ordinal_of_neighbours :
  Forall (fun x => exists o, ordinal x = Some o /\
                             ordinal (next_up x) = Some (o + 1) /\
                             ordinal (next_down x) = Some (o - 1))
         [1; 2; 0x1p-28; 0x1.fffffffffffffp-1; 0x1p-1022; 0x1p-1074;
          0x1.fffffffffffffp1023; -1; -0x1p-1074]%float /\
  ordinal 0 = Some 0 /\ ordinal (next_up 0) = Some 1 /\
  ordinal (next_down 0) = Some (-1) /\
  ordinal infinity = Some (2047 * 2 ^ 52) /\ ordinal nan = None.
Proof.
  split; [| repeat split; vm_compute; reflexivity].
  repeat constructor; eexists; repeat split; vm_compute; reflexivity.
Qed.

(** The loops of node 0 on a run from 0 to 1 with [dt_min = 2^-10] and
    [dt_max = 2^-2] take ten rounds. *)
Example engine_init_rounds :
  let e := engine_for 0 1 0x1p-10 0x1p-2 in
  engine_init_timeline 9 (2 ^ 28) e = Ok None /\
  exists e', engine_init_timeline 10 (2 ^ 28) e = Ok (Some e') /\
             timeBase e' = 0x1p-28%float /\ nodeID e' = 0.
Proof.
  split; [vm_compute; reflexivity |].
  eexists. split; [vm_compute; reflexivity |]. split; reflexivity.
Qed.

(** A run from 0 to [2^200] is beyond the range of [float]: node 0 never
    gets out of [engine_init], the other nodes do. *)
Example engine_init_beyond_float :
  let e := engine_for 0 0x1p200 1 0x1p200 in
  (forall fuel e', engine_init_timeline fuel (2 ^ 28) e <> Ok (Some e')) /\
  (forall fuel, engine_init_timeline fuel (2 ^ 28) e = Ok None) /\
  exists e', forall fuel,
    engine_init_timeline fuel (2 ^ 28) (on_node 1 e) = Ok (Some e').
Proof.
  intros e. split; [| split].
  - intros fuel e'. apply engine_init_timeline_diverges;
      vm_compute; reflexivity.
  - intros fuel. unfold engine_init_timeline.
    change (timeEnd e <=? timeBegin e)%float with false.
    change (dt_max e <? dt_min e)%float with false.
    cbn [dt_min timeBase nodeID timeEnd timeBegin dt_max e engine_for].
    change (float_of_double (0x1p200 - 0)) with (S754_infinity false).
    rewrite halve_while_infinity by (vm_compute; reflexivity). reflexivity.
  - eexists. intros fuel.
    rewrite (proj1 (engine_init_timeline_other_nodes fuel 0 (2 ^ 28)
                      (on_node 1 e) ltac:(discriminate))).
    vm_compute. reflexivity.
Qed.

Lemma halve_while_rounds n fuel lim dt :
  (forall i, (i < n)%nat ->
     (lim <? double_of_float (Nat.iter i (fun x => SFdiv 24 128 x two_f) dt))%float
     = true) ->
  halve_while (n + fuel) lim dt =
  halve_while fuel lim (Nat.iter n (fun x => SFdiv 24 128 x two_f) dt).
Proof.
  revert dt. induction n as [| n IH]; intros dt Hc; [reflexivity |].
  change (S n + fuel)%nat with (S (n + fuel)). cbn [halve_while].
  pose proof (Hc 0%nat ltac:(lia)) as H0.
  change (Nat.iter 0 _ dt) with dt in H0. rewrite H0, IH.
  - now rewrite Nat.iter_succ_r.
  - intros i Hi. specialize (Hc (S i) ltac:(lia)).
    now rewrite Nat.iter_succ_r in Hc.
Qed.

Lemma halve_while_zero fuel lim :
  (lim <? 0)%float = true -> halve_while fuel lim (S754_zero false) = None.
Proof.
  intros Hlim. induction fuel as [| fuel IH]; cbn [halve_while];
    change (double_of_float (S754_zero false)) with 0%float;
    rewrite Hlim; [reflexivity | exact IH].
Qed.

(** A negative [dt_min] keeps the first loop of node 0 going until the
    [float] is 0, after 150 rounds, and then for ever. *)
Example engine_init_negative_dt_min :
  forall fuel, engine_init_timeline fuel (2 ^ 28) (engine_for 0 1 (-1) 1) = Ok None.
Proof.
  intros fuel. unfold engine_init_timeline.
  change (timeEnd (engine_for 0 1 (-1) 1) <=? timeBegin (engine_for 0 1 (-1) 1))%float
    with false.
  change (dt_max (engine_for 0 1 (-1) 1) <? dt_min (engine_for 0 1 (-1) 1))%float
    with false.
  cbn [dt_min timeBase nodeID timeEnd timeBegin dt_max engine_for].
  change (float_of_double (1 - 0)) with (S754_finite false 8388608 (-23)).
  assert (Hc : forall i, (i < 150)%nat ->
             (-1 <? double_of_float
                      (Nat.iter i (fun x => SFdiv 24 128 x two_f)
                         (S754_finite false 8388608 (-23))))%float = true).
  { assert (Hall : forallb (fun i =>
               (-1 <? double_of_float
                        (Nat.iter i (fun x => SFdiv 24 128 x two_f)
                           (S754_finite false 8388608 (-23))))%float)
               (seq 0 150) = true) by (vm_compute; reflexivity).
    rewrite forallb_forall in Hall. intros i Hi. apply Hall, in_seq. lia. }
  assert (H150 : forall f, halve_while (150 + f) (-1)
                             (S754_finite false 8388608 (-23)) = None).
  { intros f. rewrite (halve_while_rounds 150 f _ _ Hc).
    change (Nat.iter 150 _ _) with (S754_zero false).
    apply halve_while_zero. reflexivity. }
  destruct (halve_while fuel (-1) (S754_finite false 8388608 (-23)))
    as [r |] eqn:Hr; [| reflexivity].
  exfalso.
  pose proof (halve_while_more_fuel fuel (150 + fuel) _ _ _ Hr ltac:(lia)) as H.
  rewrite H150 in H. discriminate.
Qed.

End TimelineProofs.

Module RepartProofs.
Import Repart.

(** ** The order of the doubles *)

Lemma SFcompare_Lt_trans (x y z : spec_float) :
  SFcompare x y = Some Lt -> SFcompare y z = Some Lt -> SFcompare x z = Some Lt.
Proof.
  destruct x as [sx | sx | | sx mx ex], y as [sy | sy | | sy my ey],
           z as [sz | sz | | sz mz ez];
    cbn; try discriminate; try reflexivity;
    try (destruct sx, sy; (discriminate || reflexivity));
    try (destruct sy, sz; (discriminate || reflexivity));
    try (destruct sx, sz; (discriminate || reflexivity));
    try (destruct sx, sy, sz; (discriminate || reflexivity)).
  destruct sx, sy, sz; try discriminate; try reflexivity;
    rewrite !Pos.compare_cont_spec; cbn [Pos.switch_Eq];
    destruct (Z.compare_spec ex ey), (Z.compare_spec ey ez),
             (Z.compare_spec ex ez);
    destruct (Pos.compare_spec mx my), (Pos.compare_spec my mz),
             (Pos.compare_spec mx mz);
    cbn; intros; try discriminate; try reflexivity; lia.
Qed.

Lemma SFcompare_antisym (x y : spec_float) c :
  SFcompare x y = Some c -> SFcompare y x = Some (CompOpp c).
Proof.
  destruct x as [sx | sx | | sx mx ex], y as [sy | sy | | sy my ey];
    cbn; intros H; inversion H; subst; clear H;
    try (destruct sx); try (destruct sy); try reflexivity;
    change (Pos.compare_cont Eq my mx)
      with (Pos.compare_cont (CompOpp Eq) my mx);
    rewrite (Z.compare_antisym ex ey), <- (Pos.compare_cont_antisym mx my Eq);
    destruct (ex ?= ey); cbn; try reflexivity;
    destruct (Pos.compare_cont Eq mx my); reflexivity.
Qed.

Lemma ltb_trans (a b c : float) :
  (a <? b)%float = true -> (b <? c)%float = true -> (a <? c)%float = true.
Proof.
  rewrite !ltb_spec. unfold SFltb.
  destruct (SFcompare (Prim2SF a) (Prim2SF b)) as [[] |] eqn:Hab;
    try discriminate.
  destruct (SFcompare (Prim2SF b) (Prim2SF c)) as [[] |] eqn:Hbc;
    try discriminate.
  now rewrite (SFcompare_Lt_trans _ _ _ Hab Hbc).
Qed.

Lemma ltb_irrefl (a : float) : (a <? a)%float = false.
Proof.
  rewrite ltb_spec. unfold SFltb.
  destruct (SFcompare (Prim2SF a) (Prim2SF a)) as [[] |] eqn:H; try reflexivity.
  pose proof (SFcompare_antisym _ _ _ H) as H'. cbn in H'. congruence.
Qed.

(** Numbers, that is, doubles that are not NaN, are ordered totally. *)
Lemma leb_of_not_ltb (a b : float) :
  is_nan a = false -> is_nan b = false ->
  (a <? b)%float = false -> (b <=? a)%float = true.
Proof.
  unfold is_nan. rewrite !FloatAxioms.eqb_spec, ltb_spec, leb_spec.
  unfold SFeqb, SFltb, SFleb. intros Ha Hb.
  destruct (SFcompare (Prim2SF a) (Prim2SF b)) as [c |] eqn:Hab.
  - rewrite (SFcompare_antisym _ _ _ Hab). now destruct c.
  - destruct (Prim2SF a), (Prim2SF b); cbn in *; discriminate.
Qed.


(** ** The loop over the gathered times *)

Lemma min_max_loop (rest seen : list float) (m M m' M' : float) :
  m ∈ seen -> M ∈ seen ->
  (forall t, t ∈ seen -> (t <? m)%float = false /\ (M <? t)%float = false) ->
  fold_left (fun '(mintime, maxtime) t =>
               let maxtime := if (maxtime <? t)%float then t else maxtime in
               let mintime := if (t <? mintime)%float then t else mintime in
               (mintime, maxtime)) rest (m, M) = (m', M') ->
  m' ∈ seen ++ rest /\ M' ∈ seen ++ rest /\
  forall t, t ∈ seen ++ rest ->
    (t <? m')%float = false /\ (M' <? t)%float = false.
Proof.
  revert seen m M. induction rest as [| t rest IH]; intros seen m M Hm HM Hall.
  - cbn. intros [= <- <-]. rewrite app_nil_r. auto.
  - cbn [fold_left]. intros Hfold.
    replace (seen ++ t :: rest) with ((seen ++ [t]) ++ rest)
      by now rewrite <- app_assoc.
    apply (IH (seen ++ [t])) in Hfold; [exact Hfold | | |].
    + destruct (t <? m)%float; apply elem_of_app;
        [right; apply list_elem_of_singleton; reflexivity | now left].
    + destruct (M <? t)%float; apply elem_of_app;
        [right; apply list_elem_of_singleton; reflexivity | now left].
    + intros x [Hx | ->%list_elem_of_singleton]%elem_of_app.
      * destruct (Hall x Hx) as (Hlo & Hhi). split.
        -- destruct (t <? m)%float eqn:Htm; [| exact Hlo].
           destruct (x <? t)%float eqn:Hxt; [| reflexivity].
           now rewrite (ltb_trans _ _ _ Hxt Htm) in Hlo.
        -- destruct (M <? t)%float eqn:HMt; [| exact Hhi].
           destruct (t <? x)%float eqn:Htx; [| reflexivity].
           now rewrite (ltb_trans _ _ _ HMt Htx) in Hhi.
      * split.
        -- destruct (t <? m)%float eqn:Htm; [apply ltb_irrefl | exact Htm].
        -- destruct (M <? t)%float eqn:HMt; [apply ltb_irrefl | exact HMt].
Qed.

(** [mintime] and [maxtime] are a least and a greatest of the gathered
    times. *)
Lemma min_max_time_spec (t0 : float) (rest : list float) :
  let '(mintime, maxtime) := min_max_time (t0 :: rest) in
  mintime ∈ t0 :: rest /\ maxtime ∈ t0 :: rest /\
  (forall t, t ∈ t0 :: rest ->
     (t <? mintime)%float = false /\ (maxtime <? t)%float = false) /\
  (Forall (fun t => is_nan t = false) (t0 :: rest) ->
   forall t, t ∈ t0 :: rest ->
     (mintime <=? t)%float = true /\ (t <=? maxtime)%float = true).
Proof.
  unfold min_max_time. cbn [nth tl].
  destruct (fold_left _ rest (t0, t0)) as [m M] eqn:Hfold.
  destruct (min_max_loop rest [t0] t0 t0 m M) as (Hm & HM & Hall);
    [left | left | | exact Hfold |].
  { intros t ->%list_elem_of_singleton. split; apply ltb_irrefl. }
  cbn [app] in *. split; [exact Hm |]. split; [exact HM |].
  split; [exact Hall |].
  intros Hnan t Ht. rewrite Forall_forall in Hnan.
  destruct (Hall t Ht) as (Hlo & Hhi).
  split; apply leb_of_not_ltb; auto.
Qed.

Lemma forcerepart_set e r : forcerepart (set_forcerepart e r) = r.
Proof. reflexivity. Qed.

Lemma engine_step_check_forcerepart e rep elapsed :
  forcerepart (engine_step_check e rep elapsed) =
  if (nodeID e =? 0) && all_updated e &&
     dispersion_exceeds (fractionaltime rep) elapsed
  then type rep else forcerepart e.
Proof.
  unfold engine_step_check.
  destruct (nodeID e =? 0); [| reflexivity].
  destruct (all_updated e); [| reflexivity].
  now destruct (dispersion_exceeds _ _).
Qed.

(** C7 (as amended). With MPI, [engine_step] leaves on every rank the
    force-repartition flag that rank 0 decides on: the repartition type when
    all particles (or all gravity particles) were updated in the last step
    and [(max - min) / min] exceeds [fractionaltime], and the flag rank 0
    had before otherwise. Here [min] and [max] are two of the gathered
    elapsed CPU times, no gathered time is less than [min] or greater than
    [max], and when none of the times is a NaN every one of them lies
    between [min] and [max]. Without MPI nothing changes. *)
Theorem engine_step_forcerepart (root : engine) (others : list engine)
    (rep : repartition) (clock : nat -> float) :
  let ranks := root :: others in
  let elapsed := map (fun e => (cputoc_step e - cputic_step e)%float) ranks in
  exists mintime maxtime : float,
    mintime ∈ elapsed /\ maxtime ∈ elapsed /\
    (forall t, t ∈ elapsed ->
       (t <? mintime)%float = false /\ (maxtime <? t)%float = false) /\
    (Forall (fun t => is_nan t = false) elapsed ->
     forall t, t ∈ elapsed ->
       (mintime <=? t)%float = true /\ (t <=? maxtime)%float = true) /\
    Forall (fun e =>
              forcerepart e =
              if (nodeID root =? 0) && all_updated root &&
                 (fractionaltime rep <? (maxtime - mintime) / mintime)%float
              then type rep else forcerepart root)
           (engine_step_rebalance true ranks rep clock) /\
    length (engine_step_rebalance true ranks rep clock) = length ranks /\
    engine_step_rebalance false ranks rep clock = ranks.
Proof.
  intros ranks elapsed.
  pose proof (min_max_time_spec
                (cputoc_step root - cputic_step root)%float
                (map (fun e => (cputoc_step e - cputic_step e)%float) others))
    as Hspec.
  change (_ :: map _ others) with elapsed in Hspec.
  destruct (min_max_time elapsed) as [mintime maxtime] eqn:Hmm.
  destruct Hspec as (Hm & HM & Hall & Hnum).
  exists mintime, maxtime.
  split; [exact Hm |]. split; [exact HM |]. split; [exact Hall |].
  split; [exact Hnum |].
  unfold engine_step_rebalance. fold elapsed. subst ranks. cbn [imap map].
  split; [| split; [| reflexivity]].
  - rewrite engine_step_check_forcerepart.
    cbn [nodeID set_cputic_step forcerepart].
    change (all_updated (set_cputic_step root (clock 0%nat)))
      with (all_updated root).
    unfold dispersion_exceeds. rewrite Hmm.
    apply Forall_cons. split; [reflexivity |].
    apply Forall_forall. intros e He.
    apply list_elem_of_In, in_map_iff in He as (e0 & <- & _). reflexivity.
  - cbn [length]. now rewrite !length_map, length_imap.
Qed.

Lemma engine_step_forcerepart_witness :
  let ranks := [busy_rank 0 1; busy_rank 1 3; busy_rank 2 2] in
  let rep := {| type := 1; fractionaltime := 0.5 |} in
  let elapsed := map (fun e => (cputoc_step e - cputic_step e)%float) ranks in
  exists mintime maxtime : float,
    mintime ∈ elapsed /\ maxtime ∈ elapsed /\
    (forall t, t ∈ elapsed ->
       (t <? mintime)%float = false /\ (maxtime <? t)%float = false) /\
    (Forall (fun t => is_nan t = false) elapsed ->
     forall t, t ∈ elapsed ->
       (mintime <=? t)%float = true /\ (t <=? maxtime)%float = true) /\
    Forall (fun e =>
              forcerepart e =
              if (nodeID (busy_rank 0 1) =? 0) && all_updated (busy_rank 0 1) &&
                 (fractionaltime rep <? (maxtime - mintime) / mintime)%float
              then type rep else forcerepart (busy_rank 0 1))
           (engine_step_rebalance true ranks rep (fun _ => 4%float)) /\
    length (engine_step_rebalance true ranks rep (fun _ => 4%float)) =
      length ranks /\
    engine_step_rebalance false ranks rep (fun _ => 4%float) = ranks.
Proof.
  exact (engine_step_forcerepart (busy_rank 0 1)
           [busy_rank 1 3; busy_rank 2 2]
           {| type := 1; fractionaltime := 0.5 |} (fun _ => 4%float)).
Defined.

(** C7 as stated fails when not all particles were updated in the last step:
    the gathered times 1 and 3 disperse by 2 > 0.5, yet no rank's flag is
    set. *)
Lemma no_repartition_when_not_all_updated :
  let ranks := [idle_rank 0 1; idle_rank 1 3] in
  let rep := {| type := 1; fractionaltime := 0.5 |} in
  dispersion_exceeds (fractionaltime rep)
    (map (fun e => (cputoc_step e - cputic_step e)%float) ranks) = true /\
  map forcerepart (engine_step_rebalance true ranks rep (fun _ => 4%float))
    = [0; 0].
Proof. split; vm_compute; reflexivity. Qed.

Example repartition_when_all_updated :
  map forcerepart
      (engine_step_rebalance true [busy_rank 0 1; busy_rank 1 3]
         {| type := 1; fractionaltime := 0.5 |} (fun _ => 4%float))
  = [1; 1].
Proof. vm_compute. reflexivity. Qed.

(** The greatest time is found on the last rank, the least on the first;
    between the first two ranks alone the dispersion would not exceed the
    threshold. *)
Example repartition_by_the_last_rank :
  map forcerepart
      (engine_step_rebalance true
         [busy_rank 0 2; busy_rank 1 2.5; busy_rank 2 4]
         {| type := 1; fractionaltime := 0.5 |} (fun _ => 4%float))
  = [1; 1; 1] /\
  map forcerepart
      (engine_step_rebalance true [busy_rank 0 2; busy_rank 1 2.5]
         {| type := 1; fractionaltime := 0.5 |} (fun _ => 4%float))
  = [0; 0].
Proof. split; vm_compute; reflexivity. Qed.
End RepartProofs.

Module HydroloopProofs.
Import Facts Sched Hydroloop.

Lemma emits_id : emits (fun sched => sched) [].
Proof. intros sched. now rewrite app_nil_r. Qed.

Lemma emits_addtask ty sub fl w a b tg :
  emits (fun sched => (scheduler_addtask sched ty sub fl w a b tg).1)
        [{| type := ty; subtype := sub; flags := fl; wait := w; ci := a;
            cj := b; tight := tg; skip := true |}].
Proof. intros sched. split; reflexivity. Qed.

Lemma emits_compose f g out1 out2 :
  emits f out1 -> emits g out2 -> emits (fun sched => g (f sched)) (out1 ++ out2).
Proof.
  intros Hf Hg sched. destruct (Hf sched) as [Ht Hu].
  destruct (Hg (f sched)) as [Ht' Hu'].
  rewrite Ht', Ht, Hu', Hu, app_assoc. now split.
Qed.

Lemma emits_for_each {A} (l : list A) (body : scheduler -> A -> scheduler)
    (g : A -> list task) :
  (forall x, emits (fun sched => body sched x) (g x)) ->
  emits (for_each l body) (l ≫= g).
Proof.
  intros Hbody. unfold for_each.
  induction l as [| x l IH]; [apply emits_id |].
  rewrite bind_cons. cbn [foldl].
  apply (emits_compose (fun sched => body sched x)
                       (fun sched => foldl body sched l)); auto.
Qed.

Lemma bind_assoc {A B C} (f : A -> list B) (g : B -> list C) (l : list A) :
  (l ≫= f) ≫= g = l ≫= (fun x => f x ≫= g).
Proof.
  induction l as [| x l IH]; [reflexivity |].
  now rewrite !bind_cons, bind_app, IH.
Qed.

Lemma rem_wrap a c :
  0 <= a < 3 * c ->
  Z.rem a c = if a <? c then a else if a <? 2 * c then a - c else a - 2 * c.
Proof.
  intros Ha. rewrite Z.rem_mod_nonneg by lia.
  destruct (Z.ltb_spec a c); [apply Z.mod_small; lia |].
  destruct (Z.ltb_spec a (2 * c)); symmetry.
  - apply (Z.mod_unique a c 1); lia.
  - apply (Z.mod_unique a c 2); lia.
Qed.

Lemma NoDup_triples {A B C} (l1 : list A) (l2 : list B) (l3 : list C) :
  NoDup l1 -> NoDup l2 -> NoDup l3 ->
  NoDup (a ← l1; b ← l2; c ← l3; [(a, b, c)]).
Proof.
  intros H1 H2 H3.
  apply NoDup_bind; [| | assumption].
  - intros a a' y _ _ Hy Hy'.
    apply list_elem_of_bind in Hy as (b & Hy & _).
    apply list_elem_of_bind in Hy as (c & Hy & _).
    apply list_elem_of_bind in Hy' as (b' & Hy' & _).
    apply list_elem_of_bind in Hy' as (c' & Hy' & _).
    apply list_elem_of_singleton in Hy, Hy'. congruence.
  - intros a _. apply NoDup_bind; [| | assumption].
    + intros b b' y _ _ Hy Hy'.
      apply list_elem_of_bind in Hy as (c & Hy & _).
      apply list_elem_of_bind in Hy' as (c' & Hy' & _).
      apply list_elem_of_singleton in Hy, Hy'. congruence.
    + intros b _. apply NoDup_bind; [| | assumption].
      * intros c c' y _ _ Hy Hy'.
        apply list_elem_of_singleton in Hy, Hy'. congruence.
      * intros c _. apply NoDup_singleton.
Qed.

Lemma elem_of_triples {A B C} (l1 : list A) (l2 : list B) (l3 : list C) x :
  x ∈ (a ← l1; b ← l2; c ← l3; [(a, b, c)]) <->
  x.1.1 ∈ l1 /\ x.1.2 ∈ l2 /\ x.2 ∈ l3.
Proof.
  destruct x as [[a b] c]. cbn [fst snd]. split.
  - intros Hx.
    apply list_elem_of_bind in Hx as (a' & Hx & Ha).
    apply list_elem_of_bind in Hx as (b' & Hx & Hb).
    apply list_elem_of_bind in Hx as (c' & Hx & Hc).
    apply list_elem_of_singleton in Hx. inversion Hx; subst. auto.
  - intros (Ha & Hb & Hc).
    apply list_elem_of_bind. exists a. split; [| assumption].
    apply list_elem_of_bind. exists b. split; [| assumption].
    apply list_elem_of_bind. exists c. split; [| assumption].
    apply list_elem_of_singleton. reflexivity.
Qed.

Section hydroloop_proofs.
Context (sortlistID : Z -> Z) (s : space) (nodeID_e : Z).

Lemma emits_neighbour_loop x c body g :
  (forall xx xxx, emits (body xx xxx) (g (xx, xxx))) ->
  emits (neighbour_loop s x c body) (neighbour_offsets s x c ≫= g).
Proof.
  intros Hbody. unfold neighbour_loop, neighbour_offsets.
  rewrite bind_assoc. apply emits_for_each. intros xx.
  destruct (_ && _); [apply emits_id |].
  rewrite bind_singleton. apply Hbody.
Qed.

Lemma emits_neighbour_body cid ii jj kk iii jjj kkk :
  emits (neighbour_body sortlistID s nodeID_e cid ii jj kk iii jjj kkk)
        (pair_tasks sortlistID s nodeID_e cid ((ii, iii), (jj, jjj), (kk, kkk))).
Proof.
  unfold neighbour_body, pair_tasks.
  destruct (_ || _); [apply emits_id | apply emits_addtask].
Qed.

Lemma emits_cell_body i j k :
  emits (cell_body sortlistID s nodeID_e i j k)
        (cell_tasks sortlistID s nodeID_e (i, j, k)).
Proof.
  unfold cell_body, cell_tasks. cbn [fst snd].
  destruct (count _ =? 0); [apply emits_id |].
  set (cid := cell_getid s i j k).
  apply (emits_compose
           (fun sched => if nodeID (cell_at s cid) =? nodeID_e
                         then (scheduler_addtask sched task_type_self
                                 task_subtype_density 0 0
                                 (Some (Z.to_nat cid)) None false).1
                         else sched)).
  - destruct (_ =? nodeID_e); [apply emits_addtask | apply emits_id].
  - unfold cell_offsets. cbn [fst snd]. rewrite !bind_assoc.
    apply emits_neighbour_loop. intros ii iii. rewrite !bind_assoc.
    apply emits_neighbour_loop. intros jj jjj. rewrite !bind_assoc.
    apply emits_neighbour_loop. intros kk kkk. rewrite bind_singleton.
    apply emits_neighbour_body.
Qed.

Lemma emits_engine_make_hydroloop_tasks :
  emits (engine_make_hydroloop_tasks sortlistID s nodeID_e)
        (hydroloop_tasks sortlistID s nodeID_e).
Proof.
  unfold engine_make_hydroloop_tasks, hydroloop_tasks, grid_coords.
  rewrite !bind_assoc. apply emits_for_each. intros i. rewrite !bind_assoc.
  apply emits_for_each. intros j. rewrite !bind_assoc.
  apply emits_for_each. intros k. rewrite bind_singleton.
  apply emits_cell_body.
Qed.

Hypothesis Hwf : space_wf s.

Lemma adjacent_along_iff c x y :
  adjacent_along s c x y = true <->
  y = x \/ y = x + 1 \/ y = x - 1 \/
  (periodic s = true /\ ((x = 0 /\ y = c - 1) \/ (x = c - 1 /\ y = 0))).
Proof.
  unfold adjacent_along.
  rewrite !orb_true_iff, !andb_true_iff, !orb_true_iff, !andb_true_iff,
    !Z.eqb_eq.
  tauto.
Qed.

(** The loop over the neighbours along one axis, spelled out. *)
Lemma neighbour_offsets_explicit x c :
  0 <= x < c ->
  neighbour_offsets s x c =
    (if periodic s || negb (x =? 0)
     then [(-1, if x =? 0 then c - 1 else x - 1)] else []) ++
    [(0, x)] ++
    (if periodic s || negb (x =? c - 1)
     then [(1, if x =? c - 1 then 0 else x + 1)] else []).
Proof.
  intros Hx. unfold neighbour_offsets.
  cbn [mbind list_bind app]. rewrite !app_nil_r.
  replace (x + 0) with x by lia.
  rewrite (rem_wrap (x + -1 + c)), (rem_wrap (x + c)), (rem_wrap (x + 1 + c))
    by lia.
  destruct (Z.ltb_spec (x + -1 + c) c), (Z.ltb_spec (x + c) c),
    (Z.ltb_spec (x + 1 + c) c), (Z.ltb_spec (x + -1 + c) (2 * c)),
    (Z.ltb_spec (x + c) (2 * c)), (Z.ltb_spec (x + 1 + c) (2 * c)),
    (Z.eqb_spec x 0), (Z.eqb_spec x (c - 1));
    try lia;
    destruct (Z.ltb_spec (x + -1) 0), (Z.geb_spec (x + -1) c),
      (Z.ltb_spec x 0), (Z.geb_spec x c),
      (Z.ltb_spec (x + 1) 0), (Z.geb_spec (x + 1) c); try lia;
    destruct (periodic s); cbn [negb andb orb app];
    repeat match goal with
           | |- _ :: _ = _ :: _ => f_equal
           | |- (_, _) = (_, _) => f_equal
           end; lia.
Qed.

(** Along one axis, the loop visits exactly the adjacent coordinates, each
    once. *)
Lemma neighbour_offsets_spec x c :
  0 <= x < c -> (periodic s = true -> 3 <= c) ->
  (forall o, o ∈ neighbour_offsets s x c ->
     (o.1 = -1 \/ o.1 = 0 \/ o.1 = 1) /\ 0 <= o.2 < c /\
     adjacent_along s c x o.2 = true) /\
  (forall y, 0 <= y < c -> adjacent_along s c x y = true ->
     exists xx, (xx, y) ∈ neighbour_offsets s x c) /\
  (forall o o', o ∈ neighbour_offsets s x c -> o' ∈ neighbour_offsets s x c ->
     o.2 = o'.2 -> o = o') /\
  NoDup (neighbour_offsets s x c).
Proof.
  intros Hx Hc. rewrite neighbour_offsets_explicit by assumption.
  setoid_rewrite adjacent_along_iff.
  destruct (periodic s) eqn:Hper;
    [specialize (Hc eq_refl) | clear Hc];
    destruct (Z.eqb_spec x 0), (Z.eqb_spec x (c - 1));
    cbn [negb orb app]; try lia.
  all: split; [| split; [| split]].
  all: try (intros [xx xxx] Ho; cbn [fst snd]; set_unfold; naive_solver lia).
  all: try (intros y Hy Hadj; set_unfold;
            destruct Hadj as [-> | [-> | [-> | [? Hadj]]]];
            (try destruct Hadj as [[? ->] | [? ->]]);
            try lia; try congruence; eauto 6 with lia).
  all: try (intros [xx xxx] [xx' xxx'] Ho Ho' Heq; cbn [fst snd] in *;
            set_unfold; naive_solver lia).
  all: repeat (apply NoDup_cons; split); try apply NoDup_nil; try exact I;
       set_unfold; naive_solver lia.
Qed.

Lemma cid_of_nonneg a : in_grid s a -> 0 <= cid_of s a.
Proof.
  destruct Hwf as (H0 & H1 & H2 & _). intros (Hi & Hj & Hk).
  unfold cid_of, cell_getid. nia.
Qed.

Lemma cid_of_inj a b :
  in_grid s a -> in_grid s b -> cid_of s a = cid_of s b -> a = b.
Proof.
  destruct Hwf as (H0 & H1 & H2 & _).
  destruct a as [[i j] k], b as [[i' j'] k'].
  unfold in_grid, cid_of, cell_getid. cbn [fst snd].
  intros (Hi & Hj & Hk) (Hi' & Hj' & Hk') Heq.
  assert (Hjk : j * cdim2 s + k < cdim1 s * cdim2 s) by nia.
  assert (Hjk' : j' * cdim2 s + k' < cdim1 s * cdim2 s) by nia.
  assert (i = i') by nia. subst i'.
  assert (j = j') by nia. subst j'.
  assert (k = k') by nia. now subst k'.
Qed.

Lemma cid_of_to_nat_inj a b :
  in_grid s a -> in_grid s b ->
  Z.to_nat (cid_of s a) = Z.to_nat (cid_of s b) -> a = b.
Proof.
  intros Ha Hb Heq. apply cid_of_inj; try assumption.
  pose proof (cid_of_nonneg a Ha). pose proof (cid_of_nonneg b Hb). lia.
Qed.

Lemma elem_of_grid_coords a : a ∈ grid_coords s <-> in_grid s a.
Proof.
  unfold grid_coords, in_grid. rewrite elem_of_triples, !elem_of_seqZ. lia.
Qed.

Lemma NoDup_grid_coords : NoDup (grid_coords s).
Proof. apply NoDup_triples; apply NoDup_seqZ. Qed.

Lemma axes_wf a :
  in_grid s a ->
  (0 <= a.1.1 < cdim0 s /\ (periodic s = true -> 3 <= cdim0 s)) /\
  (0 <= a.1.2 < cdim1 s /\ (periodic s = true -> 3 <= cdim1 s)) /\
  (0 <= a.2 < cdim2 s /\ (periodic s = true -> 3 <= cdim2 s)).
Proof.
  destruct Hwf as (_ & _ & _ & Hper). intros (Hi & Hj & Hk).
  repeat split; try lia; intros Hp; destruct (Hper Hp) as (? & ? & ?); lia.
Qed.

Lemma cell_offsets_spec a :
  in_grid s a ->
  (forall o, o ∈ cell_offsets s a ->
     in_grid s (target o) /\ adjacent s a (target o) = true) /\
  (forall b, in_grid s b -> adjacent s a b = true ->
     exists o, o ∈ cell_offsets s a /\ target o = b) /\
  (forall o o', o ∈ cell_offsets s a -> o' ∈ cell_offsets s a ->
     target o = target o' -> o = o') /\
  NoDup (cell_offsets s a).
Proof.
  intros Ha. destruct (axes_wf a Ha) as ((Hi & Hpi) & (Hj & Hpj) & (Hk & Hpk)).
  destruct (neighbour_offsets_spec _ _ Hi Hpi) as (Hi1 & Hi2 & Hi3 & Hi4).
  destruct (neighbour_offsets_spec _ _ Hj Hpj) as (Hj1 & Hj2 & Hj3 & Hj4).
  destruct (neighbour_offsets_spec _ _ Hk Hpk) as (Hk1 & Hk2 & Hk3 & Hk4).
  unfold cell_offsets, adjacent, target, in_grid.
  split; [| split; [| split]].
  - intros o Ho. apply elem_of_triples in Ho as (Ho1 & Ho2 & Ho3).
    destruct (Hi1 _ Ho1) as (_ & ? & ?), (Hj1 _ Ho2) as (_ & ? & ?),
      (Hk1 _ Ho3) as (_ & ? & ?).
    cbn [fst snd]. rewrite !andb_true_iff. auto.
  - intros [[i' j'] k'] (Hi' & Hj' & Hk') Hadj. cbn [fst snd] in *.
    apply andb_true_iff in Hadj as [Hadj Hadjk].
    apply andb_true_iff in Hadj as [Hadji Hadjj].
    destruct (Hi2 _ Hi' Hadji) as [ii Hii], (Hj2 _ Hj' Hadjj) as [jj Hjj],
      (Hk2 _ Hk' Hadjk) as [kk Hkk].
    exists ((ii, i'), (jj, j'), (kk, k')). split; [| reflexivity].
    apply elem_of_triples. auto.
  - intros [[o1 o2] o3] [[o1' o2'] o3'] Ho Ho' Heq.
    apply elem_of_triples in Ho as (Ho1 & Ho2 & Ho3).
    apply elem_of_triples in Ho' as (Ho1' & Ho2' & Ho3').
    cbn [fst snd] in *. inversion Heq.
    f_equal; [f_equal |]; auto.
  - now apply NoDup_triples.
Qed.

Lemma pair_tasks_shape cid o t :
  t ∈ pair_tasks sortlistID s nodeID_e cid o ->
  t = {| type := task_type_pair; subtype := task_subtype_density;
         flags := sortlistID ((o.2.1 + 1) + 3 * ((o.1.2.1 + 1) + 3 * (o.1.1.1 + 1)));
         wait := 0; ci := Some (Z.to_nat cid);
         cj := Some (Z.to_nat (cid_of s (target o)));
         tight := true; skip := true |} /\
  cid < cid_of s (target o) /\
  count (cell_at s (cid_of s (target o))) <> 0 /\
  (nodeID (cell_at s cid) = nodeID_e \/
   nodeID (cell_at s (cid_of s (target o))) = nodeID_e).
Proof.
  destruct o as [[[ii iii] [jj jjj]] [kk kkk]].
  unfold pair_tasks, target, cid_of. cbn [fst snd].
  destruct (Z.geb_spec cid (cell_getid s iii jjj kkk)); cbn [orb];
    [intros Ht; now apply elem_of_nil in Ht |].
  destruct (Z.eqb_spec (count (cell_at s (cell_getid s iii jjj kkk))) 0);
    cbn [orb]; [intros Ht; now apply elem_of_nil in Ht |].
  destruct (Z.eqb_spec (nodeID (cell_at s cid)) nodeID_e),
    (Z.eqb_spec (nodeID (cell_at s (cell_getid s iii jjj kkk))) nodeID_e);
    cbn [negb andb]; intros Ht;
    try (now apply elem_of_nil in Ht);
    apply list_elem_of_singleton in Ht; subst t; auto.
Qed.

Lemma cell_tasks_shape a t :
  t ∈ cell_tasks sortlistID s nodeID_e a ->
  count (cell_at s (cid_of s a)) <> 0 /\
  ((t = self_task (cid_of s a) /\ nodeID (cell_at s (cid_of s a)) = nodeID_e) \/
   exists o, o ∈ cell_offsets s a /\
             t ∈ pair_tasks sortlistID s nodeID_e (cid_of s a) o).
Proof.
  unfold cell_tasks. fold (cid_of s a).
  destruct (Z.eqb_spec (count (cell_at s (cid_of s a))) 0);
    [intros Ht; now apply elem_of_nil in Ht |].
  intros Ht. split; [assumption |].
  apply elem_of_app in Ht as [Ht | Ht].
  - left. destruct (Z.eqb_spec (nodeID (cell_at s (cid_of s a))) nodeID_e);
      [| now apply elem_of_nil in Ht].
    apply list_elem_of_singleton in Ht. auto.
  - right. apply list_elem_of_bind in Ht as (o & Ht & Ho). eauto.
Qed.

Lemma cell_tasks_ci a t :
  t ∈ cell_tasks sortlistID s nodeID_e a -> ci t = Some (Z.to_nat (cid_of s a)).
Proof.
  intros Ht. apply cell_tasks_shape in Ht as (_ & [[-> _] | (o & _ & Ht)]).
  - reflexivity.
  - apply pair_tasks_shape in Ht as (-> & _). reflexivity.
Qed.

Lemma pair_tasks_between_cell a b :
  in_grid s a -> in_grid s b ->
  pair_tasks_between s a b (hydroloop_tasks sortlistID s nodeID_e) =
  pair_tasks_between s a b (cell_tasks sortlistID s nodeID_e a).
Proof.
  intros Ha Hb. unfold pair_tasks_between, hydroloop_tasks.
  apply filter_bind_unique.
  - apply NoDup_grid_coords.
  - now apply elem_of_grid_coords.
  - intros c Hc Hne t Ht (_ & Hci & _).
    apply elem_of_grid_coords in Hc.
    rewrite (cell_tasks_ci _ _ Ht) in Hci. inversion Hci as [Heq].
    apply Hne. now apply cid_of_to_nat_inj.
Qed.

Lemma self_tasks_on_cell a :
  in_grid s a ->
  self_tasks_on s a (hydroloop_tasks sortlistID s nodeID_e) =
  self_tasks_on s a (cell_tasks sortlistID s nodeID_e a).
Proof.
  intros Ha. unfold self_tasks_on, hydroloop_tasks.
  apply filter_bind_unique.
  - apply NoDup_grid_coords.
  - now apply elem_of_grid_coords.
  - intros c Hc Hne t Ht (_ & Hci).
    apply elem_of_grid_coords in Hc.
    rewrite (cell_tasks_ci _ _ Ht) in Hci. inversion Hci as [Heq].
    apply Hne. now apply cid_of_to_nat_inj.
Qed.

(** Every local cell with particles gets exactly one self-density task. *)
Lemma self_task_count a :
  in_grid s a ->
  length (self_tasks_on s a (hydroloop_tasks sortlistID s nodeID_e)) =
  if nonempty s a && is_local s nodeID_e a then 1%nat else 0%nat.
Proof.
  intros Ha. rewrite self_tasks_on_cell by assumption.
  unfold self_tasks_on, cell_tasks, nonempty, is_local. fold (cid_of s a).
  destruct (count (cell_at s (cid_of s a)) =? 0); [reflexivity |].
  cbn [negb andb]. rewrite filter_app.
  rewrite (filter_bind_none _ _ (cell_offsets s a)), app_nil_r.
  - destruct (nodeID (cell_at s (cid_of s a)) =? nodeID_e); [| reflexivity].
    rewrite filter_cons_True by (split; reflexivity). reflexivity.
  - intros o _ t Ht (Hty & _).
    apply pair_tasks_shape in Ht as (-> & _). discriminate.
Qed.

(** Two cells of the grid, the first with the lower id: exactly one
    pair-density task when they are adjacent, both hold particles and one of
    them is local, and none otherwise. *)
Lemma pair_task_count a b :
  in_grid s a -> in_grid s b -> cid_of s a < cid_of s b ->
  length (pair_tasks_between s a b (hydroloop_tasks sortlistID s nodeID_e)) =
  if adjacent s a b && nonempty s a && nonempty s b &&
     (is_local s nodeID_e a || is_local s nodeID_e b)
  then 1%nat else 0%nat.
Proof.
  intros Ha Hb Hlt. rewrite pair_tasks_between_cell by assumption.
  destruct (cell_offsets_spec a Ha) as (Hoff1 & Hoff2 & Hoff3 & Hoff4).
  unfold pair_tasks_between, cell_tasks, nonempty, is_local.
  fold (cid_of s a).
  destruct (Z.eqb_spec (count (cell_at s (cid_of s a))) 0) as [| Hcount];
    [now rewrite andb_false_r |].
  cbn [negb]. rewrite andb_true_r, filter_app.
  replace (filter _ (if nodeID (cell_at s (cid_of s a)) =? nodeID_e
                     then [self_task (cid_of s a)] else []))
    with (@nil task).
  2:{ destruct (_ =? nodeID_e); [| reflexivity].
      rewrite filter_cons_False; [reflexivity |]. intros (Hty & _). discriminate. }
  cbn [app].
  destruct (adjacent s a b) eqn:Hadj; cbn [andb].
  - destruct (Hoff2 b Hb Hadj) as (o & Ho & Htarget).
    rewrite (filter_bind_unique _ _ _ o); try assumption.
    + unfold pair_tasks. destruct o as [[[ii iii] [jj jjj]] [kk kkk]].
      unfold target in Htarget. cbn [fst snd] in Htarget. subst b.
      unfold cid_of in *. cbn [fst snd] in *.
      destruct (Z.geb_spec (cell_getid s a.1.1 a.1.2 a.2) (cell_getid s iii jjj kkk));
        [lia |].
      cbn [orb].
      destruct (count (cell_at s (cell_getid s iii jjj kkk)) =? 0);
        cbn [orb negb andb]; [reflexivity |].
      destruct (nodeID (cell_at s (cell_getid s a.1.1 a.1.2 a.2)) =? nodeID_e),
        (nodeID (cell_at s (cell_getid s iii jjj kkk)) =? nodeID_e);
        cbn [negb andb orb]; try reflexivity;
        rewrite filter_cons_True by (repeat split; reflexivity); reflexivity.
    + intros o' Ho' Hne t Ht (_ & _ & Hcj).
      apply pair_tasks_shape in Ht as (-> & _). cbn [cj] in Hcj.
      inversion Hcj as [Heq].
      apply Hne, Hoff3; try assumption.
      rewrite Htarget. apply cid_of_to_nat_inj; try assumption.
      now apply Hoff1.
  - rewrite filter_bind_none; [reflexivity |].
    intros o Ho t Ht (_ & _ & Hcj).
    apply pair_tasks_shape in Ht as (-> & _). cbn [cj] in Hcj.
    inversion Hcj as [Heq].
    destruct (Hoff1 o Ho) as [Hin Hadj'].
    apply cid_of_to_nat_inj in Heq; try assumption. congruence.
Qed.

(** No pair task runs from a cell to one with a lower or equal id. *)
Lemma pair_task_ordered t :
  t ∈ hydroloop_tasks sortlistID s nodeID_e ->
  type t = task_type_pair ->
  exists a o,
    in_grid s a /\ o ∈ cell_offsets s a /\ in_grid s (target o) /\
    adjacent s a (target o) = true /\
    cid_of s a < cid_of s (target o) /\
    nonempty s a = true /\ nonempty s (target o) = true /\
    (is_local s nodeID_e a || is_local s nodeID_e (target o)) = true /\
    t = {| type := task_type_pair; subtype := task_subtype_density;
           flags := sortlistID ((o.2.1 + 1) + 3 * ((o.1.2.1 + 1) + 3 * (o.1.1.1 + 1)));
           wait := 0; ci := Some (Z.to_nat (cid_of s a));
           cj := Some (Z.to_nat (cid_of s (target o)));
           tight := true; skip := true |}.
Proof.
  intros Ht Hty. apply list_elem_of_bind in Ht as (a & Ht & Ha).
  apply elem_of_grid_coords in Ha.
  apply cell_tasks_shape in Ht as (Hcount & [[-> _] | (o & Ho & Ht)]);
    [discriminate |].
  apply pair_tasks_shape in Ht as (-> & Hlt & Hcj & Hloc).
  destruct (cell_offsets_spec a Ha) as (Hoff1 & _).
  destruct (Hoff1 o Ho) as [Hin Hadj].
  exists a, o. unfold nonempty, is_local.
  do 5 (split; [assumption |]).
  split; [now apply negb_true_iff, Z.eqb_neq |].
  split; [now apply negb_true_iff, Z.eqb_neq |].
  split; [| reflexivity].
  apply orb_true_iff. rewrite !Z.eqb_eq. exact Hloc.
Qed.

(** C3 (as amended). [engine_make_hydroloop_tasks] appends to the task list,
    in the order of its loops, the tasks [hydroloop_tasks] and adds no
    unlock. On a grid that, if periodic, has at least three cells per axis:
    every cell gets one self-density task if it holds particles and is
    local, and none otherwise; for two cells [a], [b] with
    [cid a < cid b] there is exactly one pair-density task with [ci = a],
    [cj = b] when the cells are adjacent, both hold particles and at least
    one of them is local, there is none otherwise, and there is never one
    with [ci = b], [cj = a]; and the flags of a pair task are the entry of
    [sortlistID] for the offset between its cells. *)
Theorem engine_make_hydroloop_tasks_enumeration (sched : scheduler) :
  let sched' := engine_make_hydroloop_tasks sortlistID s nodeID_e sched in
  let new := hydroloop_tasks sortlistID s nodeID_e in
  tasks sched' = tasks sched ++ new /\
  unlocks sched' = unlocks sched /\
  (forall a, in_grid s a ->
     length (self_tasks_on s a new) =
     if nonempty s a && is_local s nodeID_e a then 1%nat else 0%nat) /\
  (forall a b, in_grid s a -> in_grid s b -> cid_of s a < cid_of s b ->
     length (pair_tasks_between s a b new) =
       (if adjacent s a b && nonempty s a && nonempty s b &&
           (is_local s nodeID_e a || is_local s nodeID_e b)
        then 1%nat else 0%nat) /\
     pair_tasks_between s b a new = []) /\
  (forall t, t ∈ new -> type t = task_type_pair ->
     exists a o,
       in_grid s a /\ o ∈ cell_offsets s a /\ in_grid s (target o) /\
       adjacent s a (target o) = true /\
       subtype t = task_subtype_density /\ tight t = true /\
       ci t = Some (Z.to_nat (cid_of s a)) /\
       cj t = Some (Z.to_nat (cid_of s (target o))) /\
       flags t =
         sortlistID ((o.2.1 + 1) + 3 * ((o.1.2.1 + 1) + 3 * (o.1.1.1 + 1)))).
Proof.
  intros sched' new.
  destruct (emits_engine_make_hydroloop_tasks sched) as [Htasks Hunlocks].
  split; [exact Htasks |]. split; [exact Hunlocks |].
  split; [intros a Ha; now apply self_task_count |].
  split.
  - intros a b Ha Hb Hlt. split; [now apply pair_task_count |].
    apply filter_none. intros t Ht (Hty & Hci & Hcj).
    destruct (pair_task_ordered t Ht Hty)
      as (a0 & o & Ha0 & _ & Hto & _ & Hlt0 & _ & _ & _ & ->).
    cbn [ci cj] in Hci, Hcj. inversion Hci as [Hci']. inversion Hcj as [Hcj'].
    apply cid_of_to_nat_inj in Hci', Hcj'; try assumption.
    subst. lia.
  - intros t Ht Hty.
    destruct (pair_task_ordered t Ht Hty)
      as (a & o & Ha & Ho & Hto & Hadj & _ & _ & _ & _ & ->).
    exists a, o. repeat (split; [assumption || reflexivity |]). reflexivity.
Qed.

End hydroloop_proofs.

Lemma grid333_wf : space_wf (grid (3, 3, 3) true (replicate 27 (8, 0))).
Proof. repeat split; cbn; lia. Qed.

Lemma engine_make_hydroloop_tasks_enumeration_witness :
  let s := grid (3, 3, 3) true (replicate 27 (8, 0)) in
  let sched' := engine_make_hydroloop_tasks swift_sortlistID s 0 scheduler_empty in
  let new := hydroloop_tasks swift_sortlistID s 0 in
  tasks sched' = tasks scheduler_empty ++ new /\
  unlocks sched' = unlocks scheduler_empty /\
  (forall a, in_grid s a ->
     length (self_tasks_on s a new) =
     if nonempty s a && is_local s 0 a then 1%nat else 0%nat) /\
  (forall a b, in_grid s a -> in_grid s b -> cid_of s a < cid_of s b ->
     length (pair_tasks_between s a b new) =
       (if adjacent s a b && nonempty s a && nonempty s b &&
           (is_local s 0 a || is_local s 0 b)
        then 1%nat else 0%nat) /\
     pair_tasks_between s b a new = []) /\
  (forall t, t ∈ new -> type t = task_type_pair ->
     exists a o,
       in_grid s a /\ o ∈ cell_offsets s a /\ in_grid s (target o) /\
       adjacent s a (target o) = true /\
       subtype t = task_subtype_density /\ tight t = true /\
       ci t = Some (Z.to_nat (cid_of s a)) /\
       cj t = Some (Z.to_nat (cid_of s (target o))) /\
       flags t =
         swift_sortlistID ((o.2.1 + 1) + 3 * ((o.1.2.1 + 1) + 3 * (o.1.1.1 + 1)))).
Proof.
  apply (engine_make_hydroloop_tasks_enumeration swift_sortlistID
           (grid (3, 3, 3) true (replicate 27 (8, 0))) 0 grid333_wf
           scheduler_empty).
Defined.

Example hydroloop_333_periodic :
  length (tasks (engine_make_hydroloop_tasks swift_sortlistID
                   (grid (3, 3, 3) true (replicate 27 (8, 0))) 0
                   scheduler_empty)) = (27 + 351)%nat.
Proof. vm_compute. reflexivity. Qed.

(** C3 as stated fails for two neighbouring cells that both hold particles
    and both live on another node: cells (0,0,0) and (0,0,1) of an open
    3x3x3 grid are on node 1, the engine is node 0, and no pair task is
    created between them (nor any task at all). *)
Lemma no_pair_task_between_foreign_cells :
  let s := grid (3, 3, 3) false ([(8, 1); (8, 1)] ++ replicate 25 (0, 0)) in
  let a := (0, 0, 0) in
  let b := (0, 0, 1) in
  in_grid s a /\ in_grid s b /\
  adjacent s a b = true /\ nonempty s a = true /\ nonempty s b = true /\
  tasks (engine_make_hydroloop_tasks swift_sortlistID s 0 scheduler_empty) = [] /\
  pair_tasks_between s a b
    (tasks (engine_make_hydroloop_tasks swift_sortlistID s 0 scheduler_empty)) = [].
Proof.
  cbv zeta. split; [unfold in_grid; cbn; lia |].
  split; [unfold in_grid; cbn; lia |].
  repeat split; vm_compute; reflexivity.
Qed.

(** On a periodic grid with fewer than three cells along an axis the same
    neighbour is met under several offsets, and a pair of cells gets several
    pair tasks: eight between the opposite corners of a 2x2x2 grid. *)
Example pair_tasks_repeat_on_small_periodic_grid :
  let s := grid (2, 2, 2) true (replicate 8 (8, 0)) in
  length (pair_tasks_between s (0, 0, 0) (1, 1, 1)
            (tasks (engine_make_hydroloop_tasks swift_sortlistID s 0
                      scheduler_empty))) = 8%nat.
Proof. vm_compute. reflexivity. Qed.


End HydroloopProofs.

Module TaskgraphProofs.
Import Facts Sched Taskgraph.

Section taskgraph_proofs.
Context {P : policies}.

Lemma local_closed_form e c cl (st : state) :
  cells st !! c = Some cl ->
  engine_make_hierarchical_tasks_local e c st = Ok (hier_state e c cl st).
Proof.
  intros Hc. destruct st as [[ts us] cs nl]. cbn in Hc.
  assert (Hlt : (c < length cs)%nat) by (eapply lookup_lt_Some; eassumption).
  unfold engine_make_hierarchical_tasks_local, hier_state, hier_tasks,
    hier_unlocks, hier_cell, hier_types, with_hydro, with_extra_ghost,
    with_cooling, with_sourceterms.
  destruct (truthy (Z.land (policy e) engine_policy_hydro));
    destruct (extra_hydro_loop e);
    destruct (truthy (Z.land (policy e) engine_policy_cooling));
    destruct (truthy (Z.land (policy e) engine_policy_sourceterms));
    unfold add_cell_task, add_cell_unlock, addtask, addunlock, set_cell,
      cell_at, scheduler_addtask, scheduler_addunlock;
    cbn -[Nat.add]; rewrite Hc; cbn -[Nat.add].
  all: repeat (rewrite list_lookup_insert_eq by (rewrite ?length_insert; exact Hlt);
               cbn -[Nat.add]).
  all: rewrite ?list_insert_insert_eq, <- ?app_assoc, ?length_app.
  all: cbn -[Nat.add].
  all: repeat first [ match goal with |- @eq nat _ _ => lia end
                    | reflexivity
                    | progress f_equal ].
  all: destruct cl;
       cbv [set_sourceterms set_cooling set_extra_ghost set_ghost set_drift
            set_timestep set_kick2 set_kick1 set_init nodeID super split
            progeny init kick1 kick2 timestep drift ghost extra_ghost
            cooling sourceterms gradient force].
  all: repeat first [ match goal with |- @eq nat _ _ => lia end
                    | progress f_equal ].
Qed.

Lemma shapes_lookup (st : state) c :
  shapes st !! c = shape_of <$> cells st !! c.
Proof. apply list_lookup_fmap. Qed.

Lemma shape_of_hier_cell e n cl : shape_of (hier_cell e n cl) = shape_of cl.
Proof. reflexivity. Qed.

Lemma shapes_hier_state e c cl (st : state) :
  cells st !! c = Some cl -> shapes (hier_state e c cl st) = shapes st.
Proof.
  intros Hc. unfold shapes, hier_state. cbn [cells].
  rewrite list_fmap_insert, shape_of_hier_cell.
  apply list_insert_id. now rewrite list_lookup_fmap, Hc.
Qed.

Lemma run_local_nil e (st : state) : run_local e [] st = Ok st.
Proof. reflexivity. Qed.

Lemma run_local_cons e v vs (st : state) :
  run_local e (v :: vs) st =
  (st' ← engine_make_hierarchical_tasks_local e v st; run_local e vs st').
Proof.
  unfold run_local. cbn [foldl].
  change (Ok st ≫= _) with (engine_make_hierarchical_tasks_local e v st).
  destruct (engine_make_hierarchical_tasks_local e v st) as [st' | msg];
    [reflexivity |].
  now apply foldl_error.
Qed.

Lemma run_local_app e vs ws (st : state) :
  run_local e (vs ++ ws) st = (st' ← run_local e vs st; run_local e ws st').
Proof.
  revert st. induction vs as [| v vs IH]; intros st; [reflexivity |].
  cbn [app]. rewrite !run_local_cons.
  destruct (engine_make_hierarchical_tasks_local e v st) as [st' | msg];
    cbn; [apply IH | reflexivity].
Qed.

Lemma local_shapes e c (st st' : state) :
  engine_make_hierarchical_tasks_local e c st = Ok st' ->
  shapes st' = shapes st.
Proof.
  intros H. destruct (cells st !! c) as [cl |] eqn:Hc.
  - rewrite (local_closed_form e c cl st Hc) in H. inversion H.
    now apply shapes_hier_state.
  - unfold engine_make_hierarchical_tasks_local, add_cell_task, set_cell in H.
    cbn in H. rewrite Hc in H. discriminate.
Qed.

Lemma run_local_shapes e vs (st st' : state) :
  run_local e vs st = Ok st' -> shapes st' = shapes st.
Proof.
  revert st. induction vs as [| v vs IH]; intros st H.
  - now inversion H.
  - rewrite run_local_cons in H. apply result_bind_ok in H as (st1 & H1 & H).
    rewrite (IH st1 H). eapply local_shapes; eassumption.
Qed.

(** The recursion does the hierarchical tasks of the super cells it reaches,
    in order. *)
Lemma hierarchical_tasks_run depth e shs c vs :
  super_cells depth e shs c = Ok vs ->
  forall st, shapes st = shs ->
  engine_make_hierarchical_tasks depth e c st = run_local e vs st.
Proof.
  revert c vs. induction depth as [| depth IH]; intros c vs Hvs st Hs;
    [discriminate |].
  cbn [super_cells] in Hvs. cbn [engine_make_hierarchical_tasks].
  unfold cell_at.
  pose proof (shapes_lookup st c) as Hl. rewrite Hs in Hl.
  destruct (cells st !! c) as [cl |] eqn:Hc; cbn in Hl; rewrite Hl in Hvs;
    [| discriminate].
  cbn [mbind result_bind]. cbn [shape_of s_super s_nodeID s_split s_progeny] in Hvs.
  destruct (bool_decide (super cl = Some c)).
  { inversion Hvs; subst vs. destruct (nodeID cl =? e_nodeID e).
    - rewrite run_local_cons.
      now destruct (engine_make_hierarchical_tasks_local e c st).
    - reflexivity. }
  destruct (split cl); [| now inversion Hvs].
  clear Hl Hc. revert Hvs.
  assert (Hgen : forall l acc vs,
    foldl (fun acc k =>
             acc ← acc;
             match k with
             | Some p => vs ← super_cells depth e shs p; Ok (acc ++ vs)
             | None => Ok acc
             end) (Ok acc) l = Ok vs ->
    exists vs', vs = acc ++ vs' /\
      forall st, shapes st = shs ->
      foldl (fun st k =>
               st ← st;
               match k with
               | Some p => engine_make_hierarchical_tasks depth e p st
               | None => Ok st
               end) (Ok st) l = run_local e vs' st).
  { clear st Hs vs. induction l as [| k l IHl]; intros acc vs Hvs.
    - inversion Hvs. exists []. split; [now rewrite app_nil_r | reflexivity].
    - cbn [foldl] in Hvs. destruct k as [p |].
      + cbn [mbind result_bind] in Hvs.
        destruct (super_cells depth e shs p) as [vs_p | m] eqn:Hp.
        2: { cbn [mbind result_bind] in Hvs.
             rewrite foldl_error in Hvs by reflexivity. discriminate. }
        cbn [mbind result_bind] in Hvs.
        destruct (IHl _ _ Hvs) as (vs' & -> & Hrun).
        exists (vs_p ++ vs'). split; [now rewrite app_assoc |].
        intros st Hs. cbn [foldl mbind result_bind].
        rewrite (IH p vs_p Hp st Hs), run_local_app.
        destruct (run_local e vs_p st) as [st1 | m] eqn:H1.
        * cbn [mbind result_bind]. apply Hrun. rewrite <- Hs.
          eapply run_local_shapes; eassumption.
        * now apply foldl_error.
      + cbn [mbind result_bind] in Hvs.
        destruct (IHl _ _ Hvs) as (vs' & -> & Hrun).
        exists vs'. split; [reflexivity |]. intros st Hs.
        cbn [foldl mbind result_bind]. now apply Hrun. }
  intros Hvs. destruct (Hgen _ _ _ Hvs) as (vs' & -> & Hrun).
  now apply Hrun.
Qed.

Lemma hierarchical_tasks_top_run depth e shs nr_cells vs :
  super_cells_top depth e shs nr_cells = Ok vs ->
  forall st, shapes st = shs ->
  engine_make_hierarchical_tasks_top depth e nr_cells st = run_local e vs st.
Proof.
  unfold super_cells_top, engine_make_hierarchical_tasks_top.
  generalize (seq 0 nr_cells). intros l.
  assert (Hgen : forall l acc vs,
    foldl (fun acc k => acc ← acc; vs ← super_cells depth e shs k; Ok (acc ++ vs))
          (Ok acc) l = Ok vs ->
    exists vs', vs = acc ++ vs' /\
      forall st, shapes st = shs ->
      foldl (fun st k => st ← st; engine_make_hierarchical_tasks depth e k st)
            (Ok st) l = run_local e vs' st).
  { clear l vs. induction l as [| k l IHl]; intros acc vs Hvs.
    - inversion Hvs. exists []. split; [now rewrite app_nil_r | reflexivity].
    - cbn [foldl mbind result_bind] in Hvs.
      destruct (super_cells depth e shs k) as [vs_k | m] eqn:Hk.
      2: { cbn [mbind result_bind] in Hvs.
           rewrite foldl_error in Hvs by reflexivity. discriminate. }
      cbn [mbind result_bind] in Hvs.
      destruct (IHl _ _ Hvs) as (vs' & -> & Hrun).
      exists (vs_k ++ vs'). split; [now rewrite app_assoc |].
      intros st Hs. cbn [foldl mbind result_bind].
      rewrite (hierarchical_tasks_run depth e shs k vs_k Hk st Hs), run_local_app.
      destruct (run_local e vs_k st) as [st1 | m] eqn:H1.
      + cbn [mbind result_bind]. apply Hrun. rewrite <- Hs.
        eapply run_local_shapes; eassumption.
      + now apply foldl_error. }
  intros Hvs. destruct (Hgen _ _ _ Hvs) as (vs' & -> & Hrun). exact Hrun.
Qed.
(** *** The super cells that the recursion reaches *)

Lemma fold_cells_ok depth e shs l acc vs :
  foldl (cells_step depth e shs) (Ok acc) l = Ok vs <->
  exists vss,
    Forall2 (fun k vs_k => match k with
                           | Some p => super_cells depth e shs p = Ok vs_k
                           | None => vs_k = []
                           end) l vss /\
    vs = acc ++ mjoin vss.
Proof.
  revert acc vs. induction l as [| k l IH]; intros acc vs; cbn [foldl].
  - split.
    + intros [= <-]. exists []. split; [constructor |].
      now rewrite app_nil_r.
    + intros (vss & HF & ->). inversion HF; subst. cbn.
      now rewrite app_nil_r.
  - unfold cells_step at 2. cbn [mbind result_bind]. destruct k as [p |].
    + destruct (super_cells depth e shs p) as [vs_p | m] eqn:Hp;
        cbn [mbind result_bind].
      * rewrite IH. split.
        -- intros (vss & HF & ->). exists (vs_p :: vss). split.
           ++ now constructor.
           ++ cbn. now rewrite app_assoc.
        -- intros (vss & HF & ->). inversion HF as [| ? vs_p' ? vss' Hk HF'];
             subst. rewrite Hp in Hk. inversion Hk; subst vs_p'.
           exists vss'. split; [assumption |]. cbn. now rewrite app_assoc.
      * rewrite foldl_error by reflexivity. split; [discriminate |].
        intros (vss & HF & _). inversion HF as [| ? vs_p' ? vss' Hk HF'];
          subst. rewrite Hp in Hk. discriminate.
    + rewrite IH. split.
      * intros (vss & HF & ->). exists ([] :: vss). split; [now constructor |].
        reflexivity.
      * intros (vss & HF & ->). inversion HF as [| ? vs_p' ? vss' Hk HF'];
          subst. exists vss'. now split.
Qed.

Lemma super_cells_unfold depth e shs c :
  super_cells (S depth) e shs c =
  match shs !! c with
  | None => Error "invalid cell pointer"
  | Some sh =>
    if bool_decide (s_super sh = Some c) then
      Ok (if s_nodeID sh =? e_nodeID e then [c] else [])
    else if s_split sh then
      foldl (cells_step depth e shs) (Ok []) (s_progeny sh)
    else Ok []
  end.
Proof. reflexivity. Qed.

(** Enough depth gives the list of the super cells. *)
Lemma super_cells_total e shs c n :
  height_le shs c n -> exists vs, super_cells (S n) e shs c = Ok vs.
Proof.
  induction 1 as [c sh n Hc Hstop | c sh n Hc Hprog IH].
  - rewrite super_cells_unfold, Hc.
    destruct (bool_decide (s_super sh = Some c)) eqn:Hs; [eauto |].
    destruct Hstop as [Hsup | ->]; [| eauto].
    apply bool_decide_eq_false_1 in Hs. contradiction.
  - rewrite super_cells_unfold, Hc.
    destruct (bool_decide (s_super sh = Some c)); [eauto |].
    destruct (s_split sh); [| eauto].
    assert (Hall : exists vss,
      Forall2 (fun k vs_k => match k with
                             | Some p => super_cells (S n) e shs p = Ok vs_k
                             | None => vs_k = []
                             end) (s_progeny sh) vss).
    { clear Hc Hprog. induction (s_progeny sh) as [| k l IHl].
      - exists []. constructor.
      - destruct IHl as (vss & HF).
        { intros p Hp. apply IH. now right. }
        destruct k as [p |].
        + destruct (IH p) as (vs_p & Hp); [left |].
          exists (vs_p :: vss). now constructor.
        + exists ([] :: vss). now constructor. }
    destruct Hall as (vss & HF). exists ([] ++ mjoin vss).
    apply fold_cells_ok. eauto.
Qed.

Lemma Forall2_lookup_some {A B} (R : A -> B -> Prop) l k x :
  Forall2 R l k -> x ∈ l -> exists y, y ∈ k /\ R x y.
Proof.
  induction 1 as [| a b l k Hab HF IH]; intros Hin;
    [now apply elem_of_nil in Hin |].
  apply elem_of_cons in Hin as [-> | Hin].
  - exists b. split; [left | assumption].
  - destruct (IH Hin) as (y & Hy & HR). exists y. split; [now right | assumption].
Qed.

Lemma Forall2_lookup_some_r {A B} (R : A -> B -> Prop) l k y :
  Forall2 R l k -> y ∈ k -> exists x, x ∈ l /\ R x y.
Proof.
  induction 1 as [| a b l k Hab HF IH]; intros Hin;
    [now apply elem_of_nil in Hin |].
  apply elem_of_cons in Hin as [-> | Hin].
  - exists a. split; [left | assumption].
  - destruct (IH Hin) as (x & Hx & HR). exists x. split; [now right | assumption].
Qed.

(** The list holds the local super cells that the recursion reaches. *)
Lemma super_cells_spec depth e shs c vs :
  super_cells depth e shs c = Ok vs ->
  forall v, v ∈ vs <-> reaches shs c v /\ local_super e shs v.
Proof.
  revert c vs. induction depth as [| depth IH]; intros c vs Hvs;
    [discriminate |].
  rewrite super_cells_unfold in Hvs.
  destruct (shs !! c) as [sh |] eqn:Hc; [| discriminate].
  assert (Hreach : forall v, reaches shs c v ->
            v = c \/ s_super sh <> Some c /\ s_split sh = true /\
                     exists p, Some p ∈ s_progeny sh /\ reaches shs p v).
  { intros v Hr. inversion Hr as [| ? sh' p d Hc' Hsup Hspl Hp Hpd]; subst;
      [now left |].
    right. assert (sh' = sh) by congruence. subst sh'. eauto. }
  destruct (bool_decide (s_super sh = Some c)) eqn:Hs.
  { apply bool_decide_eq_true_1 in Hs. inversion Hvs; subst vs. intros v.
    destruct (s_nodeID sh =? e_nodeID e) eqn:Hn.
    - apply Z.eqb_eq in Hn. rewrite list_elem_of_singleton. split.
      + intros ->. split; [constructor |]. now exists sh.
      + intros (Hr & _). destruct (Hreach v Hr) as [-> | (Hne & _)];
          [reflexivity | contradiction].
    - apply Z.eqb_neq in Hn. split; [intros Hin; now apply elem_of_nil in Hin |].
      intros (Hr & (sh' & Hv & Hsup & Hnid)).
      destruct (Hreach v Hr) as [-> | (Hne & _)]; [| contradiction].
      assert (sh' = sh) by congruence. subst sh'. contradiction. }
  apply bool_decide_eq_false_1 in Hs.
  destruct (s_split sh) eqn:Hspl.
  2: { inversion Hvs; subst vs. intros v.
       split; [intros Hin; now apply elem_of_nil in Hin |].
       intros (Hr & (sh' & Hv & Hsup & Hnid)).
       destruct (Hreach v Hr) as [-> | (_ & Hsplit & _)]; [| discriminate].
       assert (sh' = sh) by congruence. subst sh'. contradiction. }
  apply fold_cells_ok in Hvs as (vss & HF & ->). cbn [app]. intros v.
  rewrite list_elem_of_join. split.
  - intros (vs_p & Hv & Hin).
    destruct (Forall2_lookup_some_r _ _ _ _ HF Hin) as (k & Hk & HR).
    destruct k as [p |]; [| subst vs_p; now apply elem_of_nil in Hv].
    apply (IH p vs_p HR) in Hv as (Hr & Hloc). split; [| assumption].
    eapply reaches_down; eassumption.
  - intros (Hr & Hloc). destruct (Hreach v Hr) as [-> | (_ & _ & p & Hp & Hpv)].
    + destruct Hloc as (sh' & Hv & Hsup & _).
      assert (sh' = sh) by congruence. subst sh'. contradiction.
    + destruct (Forall2_lookup_some _ _ _ _ HF Hp) as (vs_p & Hin & HR).
      exists vs_p. split; [| assumption]. apply (IH p vs_p HR). now split.
Qed.

Lemma fold_top_ok depth e shs l acc vs :
  foldl (fun acc k => acc ← acc; vs ← super_cells depth e shs k; Ok (acc ++ vs))
        (Ok acc) l = Ok vs <->
  exists vss,
    Forall2 (fun k vs_k => super_cells depth e shs k = Ok vs_k) l vss /\
    vs = acc ++ mjoin vss.
Proof.
  revert acc vs. induction l as [| k l IH]; intros acc vs; cbn [foldl].
  - split.
    + intros [= <-]. exists []. split; [constructor |].
      now rewrite app_nil_r.
    + intros (vss & HF & ->). inversion HF; subst. cbn.
      now rewrite app_nil_r.
  - cbn [mbind result_bind].
    destruct (super_cells depth e shs k) as [vs_k | m] eqn:Hk;
      cbn [mbind result_bind].
    + rewrite IH. split.
      * intros (vss & HF & ->). exists (vs_k :: vss). split.
        -- now constructor.
        -- cbn. now rewrite app_assoc.
      * intros (vss & HF & ->). inversion HF as [| ? vs_k' ? vss' Hk' HF'];
          subst. rewrite Hk in Hk'. inversion Hk'; subst vs_k'.
        exists vss'. split; [assumption |]. cbn. now rewrite app_assoc.
    + rewrite foldl_error by reflexivity. split; [discriminate |].
      intros (vss & HF & _). inversion HF as [| ? vs_k' ? vss' Hk' HF'];
        subst. rewrite Hk in Hk'. discriminate.
Qed.

Lemma super_cells_top_total e shs nr_cells n :
  (forall k, (k < nr_cells)%nat -> height_le shs k n) ->
  exists vs, super_cells_top (S n) e shs nr_cells = Ok vs.
Proof.
  intros Hh. unfold super_cells_top.
  assert (Hall : exists vss,
    Forall2 (fun k vs_k => super_cells (S n) e shs k = Ok vs_k)
            (seq 0 nr_cells) vss).
  { assert (Hin : forall k, k ∈ seq 0 nr_cells -> height_le shs k n).
    { intros k Hk. apply Hh. apply elem_of_seq in Hk. lia. }
    induction (seq 0 nr_cells) as [| k l IHl].
    - exists []. constructor.
    - destruct IHl as (vss & HF); [intros k' Hk'; apply Hin; now right |].
      destruct (super_cells_total e shs k n) as (vs_k & Hk);
        [apply Hin; left |].
      exists (vs_k :: vss). now constructor. }
  destruct Hall as (vss & HF). exists ([] ++ mjoin vss).
  apply fold_top_ok. eauto.
Qed.

Lemma super_cells_top_spec depth e shs nr_cells vs :
  super_cells_top depth e shs nr_cells = Ok vs ->
  forall v, v ∈ vs <->
            exists k, (k < nr_cells)%nat /\ reaches shs k v /\
                      local_super e shs v.
Proof.
  unfold super_cells_top. intros Hvs v.
  apply fold_top_ok in Hvs as (vss & HF & ->). cbn [app].
  rewrite list_elem_of_join. split.
  - intros (vs_k & Hv & Hin).
    destruct (Forall2_lookup_some_r _ _ _ _ HF Hin) as (k & Hk & HR).
    apply (super_cells_spec _ _ _ _ _ HR) in Hv. exists k.
    split; [| assumption]. apply elem_of_seq in Hk. lia.
  - intros (k & Hk & Hr & Hloc).
    assert (Hin : k ∈ seq 0 nr_cells) by (apply elem_of_seq; lia).
    destruct (Forall2_lookup_some _ _ _ _ HF Hin) as (vs_k & Hvs & HR).
    exists vs_k. split; [| assumption].
    apply (super_cells_spec _ _ _ _ _ HR). now split.
Qed.
(** *** The hierarchical tasks of a list of cells *)

Lemma NoDup_hier_types e : NoDup (hier_types e).
Proof.
  unfold hier_types.
  destruct (truthy (Z.land (policy e) engine_policy_hydro));
    destruct (extra_hydro_loop e);
    destruct (truthy (Z.land (policy e) engine_policy_cooling));
    destruct (truthy (Z.land (policy e) engine_policy_sourceterms));
    cbn; apply (bool_decide_unpack _); vm_compute; exact I.
Qed.

Lemma hier_types_hier e ty : ty ∈ hier_types e -> is_hier_type ty = true.
Proof.
  unfold hier_types, is_hier_type. intros Hin. apply bool_decide_eq_true_2.
  destruct (truthy (Z.land (policy e) engine_policy_hydro));
    destruct (extra_hydro_loop e);
    destruct (truthy (Z.land (policy e) engine_policy_cooling));
    destruct (truthy (Z.land (policy e) engine_policy_sourceterms));
    cbn in Hin; set_solver.
Qed.

Lemma field_of_hier_cell e n cl k ty :
  hier_types e !! k = Some ty ->
  field_of ty (hier_cell e n cl) = Some (n + k)%nat.
Proof.
  unfold hier_types, hier_cell, with_hydro, with_extra_ghost, with_cooling,
    with_sourceterms.
  destruct (truthy (Z.land (policy e) engine_policy_hydro));
    destruct (extra_hydro_loop e);
    destruct (truthy (Z.land (policy e) engine_policy_cooling));
    destruct (truthy (Z.land (policy e) engine_policy_sourceterms));
    cbn -[Nat.add]; intros Hk;
    do 9 (destruct k as [| k]; [inversion Hk; cbn -[Nat.add]; f_equal; lia |]);
    discriminate.
Qed.

Lemma filter_fmap_eq {A B} `{EqDecision A} (Q : B -> Prop)
    `{!forall t, Decision (Q t)} (f : A -> B) (x : A) (l : list A) :
  (forall y, Q (f y) <-> y = x) ->
  length (filter Q (f <$> l)) = length (filter (fun y => y = x) l).
Proof.
  intros HP. induction l as [| y l IH]; [reflexivity |]. cbn [fmap list_fmap].
  destruct (decide (y = x)) as [-> | Hne].
  - rewrite !filter_cons_True by (reflexivity || now apply HP). cbn. now rewrite IH.
  - rewrite !filter_cons_False by (assumption || now rewrite HP). exact IH.
Qed.

Lemma count_NoDup {A} `{EqDecision A} (x : A) (l : list A) :
  NoDup l ->
  length (filter (fun y => y = x) l) = if decide (x ∈ l) then 1%nat else 0%nat.
Proof.
  induction 1 as [| y l Hy Hnd IH]; [reflexivity |].
  destruct (decide (y = x)) as [-> | Hne].
  - rewrite filter_cons_True by reflexivity. cbn [length]. rewrite IH.
    rewrite (decide_False (P := x ∈ l)) by assumption.
    rewrite decide_True by left. reflexivity.
  - rewrite filter_cons_False by assumption. rewrite IH.
    destruct (decide (x ∈ l)) as [Hin | Hnin].
    + rewrite decide_True by now right. reflexivity.
    + rewrite decide_False; [reflexivity |].
      intros Hin. apply elem_of_cons in Hin as [-> | Hin]; contradiction.
Qed.

Lemma count_hier_tasks e c ty :
  length (filter (fun t => type t = ty /\ ci t = Some c) (hier_tasks e c)) =
  if decide (ty ∈ hier_types e) then 1%nat else 0%nat.
Proof.
  unfold hier_tasks.
  rewrite (filter_fmap_eq _ (cell_task c) ty).
  - apply count_NoDup, NoDup_hier_types.
  - intros ty'. cbn. split; [now intros (-> & _) | now intros ->].
Qed.

Lemma hier_tasks_lookup e c k ty :
  hier_types e !! k = Some ty -> hier_tasks e c !! k = Some (cell_task c ty).
Proof. intros Hk. unfold hier_tasks. now rewrite list_lookup_fmap, Hk. Qed.

Lemma length_hier_tasks e c : length (hier_tasks e c) = length (hier_types e).
Proof. unfold hier_tasks. apply length_fmap. Qed.

Lemma run_local_spec e vs (st : state) :
  NoDup vs -> (forall v, v ∈ vs -> is_Some (cells st !! v)) ->
  exists st', run_local e vs st = Ok st' /\
    tasks (sched st') = tasks (sched st) ++ (vs ≫= hier_tasks e) /\
    (exists more, unlocks (sched st') = unlocks (sched st) ++ more) /\
    (forall c, c ∉ vs -> cells st' !! c = cells st !! c) /\
    (forall c, c ∈ vs ->
       exists cl n, cells st !! c = Some cl /\
         cells st' !! c = Some (hier_cell e n cl) /\
         (forall k ty, hier_types e !! k = Some ty ->
            tasks (sched st') !! (n + k)%nat = Some (cell_task c ty)) /\
         (forall ed, ed ∈ hier_unlocks e n cl -> ed ∈ unlocks (sched st'))).
Proof.
  intros Hnd. revert st. induction Hnd as [| v vs Hv Hnd IH]; intros st Hcells.
  - exists st. split; [reflexivity |]. split; [now rewrite app_nil_r |].
    split; [exists []; now rewrite app_nil_r |].
    split; [reflexivity |]. intros c Hc. now apply elem_of_nil in Hc.
  - destruct (Hcells v) as (cl & Hcl); [left |].
    rewrite run_local_cons, (local_closed_form e v cl st Hcl).
    cbn [mbind result_bind].
    set (st1 := hier_state e v cl st).
    assert (Hne : forall c, c <> v -> cells st1 !! c = cells st !! c).
    { intros c Hc. unfold st1, hier_state. cbn [cells].
      now apply list_lookup_insert_ne. }
    assert (Hv1 : cells st1 !! v = Some (hier_cell e (length (tasks (sched st))) cl)).
    { unfold st1, hier_state. cbn [cells]. apply list_lookup_insert_eq.
      eapply lookup_lt_Some; eassumption. }
    destruct (IH st1) as (st' & Hrun & Htasks & (more & Hunl) & Hout & Hin).
    { intros c Hc. rewrite Hne; [apply Hcells; now right |].
      intros ->. contradiction. }
    exists st'. split; [exact Hrun |].
    assert (Ht1 : tasks (sched st1) = tasks (sched st) ++ hier_tasks e v)
      by reflexivity.
    split; [rewrite Htasks, Ht1, bind_cons; now rewrite app_assoc |].
    split.
    { eexists. rewrite Hunl. unfold st1, hier_state. cbn [sched unlocks].
      now rewrite <- app_assoc. }
    split.
    { intros c Hc. rewrite Hout by (intros Hc'; apply Hc; now right).
      apply Hne. intros ->. apply Hc. left. }
    intros c Hc. apply elem_of_cons in Hc as [-> | Hc].
    + exists cl, (length (tasks (sched st))).
      split; [exact Hcl |]. split; [now rewrite (Hout v Hv) |]. split.
      * intros k ty Hk. rewrite Htasks, Ht1.
        pose proof (hier_tasks_lookup e v k ty Hk) as Hl.
        rewrite lookup_app_l.
        -- rewrite lookup_app_r by lia.
           now replace (length (tasks (sched st)) + k
                        - length (tasks (sched st)))%nat with k by lia.
        -- rewrite length_app. apply lookup_lt_Some in Hl. lia.
      * intros ed Hed. rewrite Hunl. apply elem_of_app. left.
        unfold st1, hier_state. cbn [sched unlocks]. apply elem_of_app. now right.
    + destruct (Hin c Hc) as (cl' & n & Hcl' & Hcl'' & Hk & Hed).
      exists cl', n. split; [| now split].
      rewrite <- Hcl'. symmetry. apply Hne. intros ->. contradiction.
Qed.

Lemma hierarchical_tasks_of_run e vs (st st' : state) :
  NoDup vs -> (forall v, v ∈ vs -> is_Some (cells st !! v)) ->
  (forall t, t ∈ tasks (sched st) -> is_hier_type (type t) = false) ->
  run_local e vs st = Ok st' ->
  forall c, c ∈ vs -> hierarchical_tasks_of e st' c.
Proof.
  intros Hnd Hcells Hnone Hrun c Hc.
  destruct (run_local_spec e vs st Hnd Hcells)
    as (st2 & Hrun2 & Htasks & _ & _ & Hin).
  assert (st2 = st') by congruence. subst st2.
  destruct (Hin c Hc) as (cl & n & Hcl & Hcl' & Hk & Hed).
  assert (Hcount : forall ty, is_hier_type ty = true ->
            count_tasks st' ty c =
            if decide (ty ∈ hier_types e) then 1%nat else 0%nat).
  { intros ty Hty. unfold count_tasks. rewrite Htasks, filter_app, length_app.
    rewrite (filter_none _ (tasks (sched st))).
    2: { intros t Ht (Htype & _). apply Hnone in Ht. congruence. }
    rewrite (filter_bind_unique _ (hier_tasks e) vs c Hnd Hc).
    - apply count_hier_tasks.
    - intros v _ Hne t Ht (_ & Hci). unfold hier_tasks in Ht.
      apply list_elem_of_fmap in Ht as (ty' & -> & _). cbn in Hci. congruence. }
  split; [| split].
  - intros ty Hty. split.
    + rewrite (Hcount ty (hier_types_hier e ty Hty)). now rewrite decide_True.
    + apply list_elem_of_lookup in Hty as (k & Hkty).
      exists (hier_cell e n cl), (n + k)%nat, (cell_task c ty).
      split; [exact Hcl' |].
      split; [now apply field_of_hier_cell |].
      split; [now apply Hk |]. now split.
  - intros ty Hty Hnin. rewrite (Hcount ty Hty). now rewrite decide_False.
  - exists (hier_cell e n cl). split; [exact Hcl' |].
    unfold unlocked, hier_unlocks in *.
    split; [apply Hed; set_solver |]. split; [apply Hed; set_solver |].
    split; [apply Hed; set_solver |].
    intros Hcool. apply Hed. rewrite Hcool. set_solver.
Qed.
(** *** The second hydro loop and its dependencies *)

Lemma extends_refl (st : state) : extends st st.
Proof.
  split; [exists []; split; [now rewrite app_nil_r | constructor] |].
  split; [exists []; now rewrite app_nil_r | reflexivity].
Qed.

Lemma extends_trans (st1 st2 st3 : state) :
  extends st1 st2 -> extends st2 st3 -> extends st1 st3.
Proof.
  intros ((n1 & Ht1 & Hf1) & (m1 & Hu1) & Hc1) ((n2 & Ht2 & Hf2) & (m2 & Hu2) & Hc2).
  split; [exists (n1 ++ n2); split;
          [rewrite Ht2, Ht1; now rewrite app_assoc | now apply Forall_app] |].
  split; [exists (m1 ++ m2); rewrite Hu2, Hu1; now rewrite app_assoc |].
  congruence.
Qed.

Lemma extends_addunlock ta tb (st : state) : extends st (addunlock ta tb st).
Proof.
  split; [exists []; split; [now rewrite app_nil_r | constructor] |].
  split; [now exists [(ta, tb)] | reflexivity].
Qed.

Lemma unlocked_addunlock ta tb (st : state) : unlocked (addunlock ta tb st) ta tb.
Proof. unfold unlocked. cbn. apply elem_of_app. right. left. Qed.

Lemma unlocked_extends (st st' : state) ta tb :
  extends st st' -> unlocked st ta tb -> unlocked st' ta tb.
Proof.
  intros (_ & (more & Hu) & _) H. unfold unlocked. rewrite Hu.
  apply elem_of_app. now left.
Qed.

Lemma extends_cell (st st' : state) c cl :
  extends st st' -> cells st !! c = Some cl ->
  exists cl', cells st' !! c = Some cl' /\ unlinked cl' = unlinked cl.
Proof.
  intros (_ & _ & Hc) Hcl.
  pose proof (f_equal (fun l => l !! c) Hc) as Hl. cbn in Hl.
  rewrite !list_lookup_fmap, Hcl in Hl.
  destruct (cells st' !! c) as [cl' |]; [| discriminate].
  exists cl'. split; [reflexivity |]. cbn in Hl. congruence.
Qed.

Lemma extends_sym_cells (st st' : state) :
  extends st st' -> unlinked <$> cells st = unlinked <$> cells st'.
Proof. now intros (_ & _ & ->). Qed.

Lemma extends_cell_back (st st' : state) c cl' :
  extends st st' -> cells st' !! c = Some cl' ->
  exists cl, cells st !! c = Some cl /\ unlinked cl' = unlinked cl.
Proof.
  intros (_ & _ & Hc) Hcl.
  pose proof (f_equal (fun l => l !! c) Hc) as Hl. cbn in Hl.
  rewrite !list_lookup_fmap, Hcl in Hl.
  destruct (cells st !! c) as [cl |]; [| discriminate].
  exists cl. split; [reflexivity |]. cbn in Hl. congruence.
Qed.

Lemma extends_task (st st' : state) ind t :
  extends st st' -> tasks (sched st) !! ind = Some t ->
  tasks (sched st') !! ind = Some t.
Proof.
  intros ((new & Ht & _) & _) H. rewrite Ht. now apply lookup_app_l_Some.
Qed.

Lemma unlinked_fields cl cl' :
  unlinked cl' = unlinked cl ->
  nodeID cl' = nodeID cl /\ super cl' = super cl /\ init cl' = init cl /\
  kick2 cl' = kick2 cl /\ ghost cl' = ghost cl /\
  extra_ghost cl' = extra_ghost cl /\ cooling cl' = cooling cl.
Proof.
  intros H. repeat split.
  - exact (f_equal nodeID H).
  - exact (f_equal super H).
  - exact (f_equal init H).
  - exact (f_equal kick2 H).
  - exact (f_equal ghost H).
  - exact (f_equal extra_ghost H).
  - exact (f_equal cooling H).
Qed.

Lemma chain_extends e (st st' : state) c density gradient force :
  extends st st' -> chain e st c density gradient force ->
  chain e st' c density gradient force.
Proof.
  intros Hext (cl & sc & scl & Hcl & Hsup & Hscl & H1 & H2 & H3 & H4).
  destruct (extends_cell st st' c cl Hext Hcl) as (cl' & Hcl' & Ecl).
  destruct (extends_cell st st' sc scl Hext Hscl) as (scl' & Hscl' & Escl).
  apply unlinked_fields in Ecl as (_ & Esup & _).
  apply unlinked_fields in Escl as (_ & _ & Ei & Ek & Eg & Ex & Eco).
  exists cl', sc, scl'. rewrite Ei, Ek, Eg, Ex, Eco.
  split; [assumption |]. split; [congruence |]. split; [assumption |].
  split; [eapply unlocked_extends; eassumption |].
  split; [eapply unlocked_extends; eassumption |].
  split.
  - destruct (extra_hydro_loop e).
    + destruct H3 as (Ha & Hb & Hc).
      repeat split; eapply unlocked_extends; eassumption.
    + eapply unlocked_extends; eassumption.
  - destruct (with_cooling e); eapply unlocked_extends; eassumption.
Qed.

Lemma local_extends e (st st' : state) c :
  extends st st' -> local e st c <-> local e st' c.
Proof.
  intros Hext. split; intros (cl & Hcl & Hn).
  - destruct (extends_cell st st' c cl Hext Hcl) as (cl' & Hcl' & E).
    apply unlinked_fields in E as (En & _). exists cl'. split; congruence.
  - destruct (extends_cell_back st st' c cl Hext Hcl) as (cl' & Hcl' & E).
    apply unlinked_fields in E as (En & _). exists cl'. split; congruence.
Qed.

Lemma super_of_extends (st st' : state) p :
  extends st st' -> super_of st' p = super_of st p.
Proof.
  intros Hext. unfold super_of. destruct p as [c |]; [| reflexivity]. cbn.
  destruct (cells st !! c) as [cl |] eqn:Hcl.
  - destruct (extends_cell st st' c cl Hext Hcl) as (cl' & -> & E).
    apply unlinked_fields in E as (_ & Es & _). cbn. exact Es.
  - destruct (cells st' !! c) as [cl' |] eqn:Hcl'; [| reflexivity].
    destruct (extends_cell_back st st' c cl' Hext Hcl') as (cl & Hcl2 & _).
    congruence.
Qed.

Lemma extends_addtask (st : state) ty sub fl wt ci cj tight :
  is_hier_type ty = false ->
  extends st (addtask st ty sub fl wt ci cj tight).1.
Proof.
  intros Hty. split; [| split; [exists []; cbn; now rewrite app_nil_r | reflexivity]].
  eexists. split; [reflexivity |]. repeat constructor. exact Hty.
Qed.

Lemma addtask_lookup (st : state) ty sub fl wt ci cj tight :
  tasks (sched (addtask st ty sub fl wt ci cj tight).1) !!
    (addtask st ty sub fl wt ci cj tight).2 =
  Some {| type := ty; subtype := sub; flags := fl; wait := wt; ci := ci;
          cj := cj; tight := tight; skip := true |}.
Proof.
  cbn. rewrite lookup_app_r by lia. now rewrite Nat.sub_diag.
Qed.

Lemma extends_addlink e field set_field c t (st st' : state) :
  (forall l cl, unlinked (set_field l cl) = unlinked cl) ->
  engine_addlink e field set_field c t st = Ok st' -> extends st st'.
Proof.
  intros Hset H. unfold engine_addlink, cell_at, set_cell in H.
  destruct (size_links e <=? nr_links st); [discriminate |]. cbn in H.
  destruct (cells st !! c) as [cl |] eqn:Hcl; [| discriminate]. cbn in H.
  inversion H; subst st'.
  split; [exists []; split; [cbn; now rewrite app_nil_r | constructor] |].
  split; [exists []; cbn; now rewrite app_nil_r |]. cbn [cells].
  rewrite list_fmap_insert, Hset. apply list_insert_id.
  now rewrite list_lookup_fmap, Hcl.
Qed.

Lemma deps_spec e density gradient force c (st st' : state) :
  extra_hydro_loop e = false ->
  engine_make_hydro_loops_dependencies density force c
    (Z.land (policy e) engine_policy_cooling) st = Ok st' ->
  extends st st' /\ chain e st' c density gradient force.
Proof.
  intros Hextra H. unfold engine_make_hydro_loops_dependencies, cell_at in H.
  destruct (cells st !! c) as [cl |] eqn:Hcl; [| discriminate].
  cbn [mbind result_bind] in H.
  destruct (super cl) as [sc |] eqn:Hsup; [| discriminate].
  cbn [deref mbind result_bind] in H.
  destruct (cells st !! sc) as [scl |] eqn:Hscl; [| discriminate].
  cbn [mbind result_bind] in H.
  set (st3 := addunlock (ghost scl) (Some force)
                (addunlock (Some density) (ghost scl)
                   (addunlock (init scl) (Some density) st))) in *.
  assert (H3 : extends st st3).
  { eapply extends_trans; [apply extends_addunlock |].
    eapply extends_trans; apply extends_addunlock. }
  assert (Hst' : extends st3 st' /\
                 if with_cooling e
                 then unlocked st' (Some force) (cooling scl)
                 else unlocked st' (Some force) (kick2 scl)).
  { unfold with_cooling.
    destruct (truthy (Z.land (policy e) engine_policy_cooling));
      inversion H; subst st';
      (split; [apply extends_addunlock | apply unlocked_addunlock]). }
  destruct Hst' as (H4 & Hlast).
  split; [eapply extends_trans; eassumption |].
  exists cl, sc, scl. rewrite Hextra.
  assert (Hcells : cells st' = cells st).
  { destruct (truthy (Z.land (policy e) engine_policy_cooling));
      now inversion H. }
  rewrite Hcells. repeat (split; [assumption |]).
  split.
  { eapply unlocked_extends; [exact H4 |]. unfold st3.
    eapply unlocked_extends; [apply extends_addunlock |].
    eapply unlocked_extends; [apply extends_addunlock |].
    apply unlocked_addunlock. }
  split.
  { eapply unlocked_extends; [exact H4 |]. unfold st3.
    eapply unlocked_extends; [apply extends_addunlock |].
    apply unlocked_addunlock. }
  split; [| exact Hlast].
  eapply unlocked_extends; [exact H4 |]. apply unlocked_addunlock.
Qed.

Lemma deps_extra_spec e density gradient force c (st st' : state) :
  extra_hydro_loop e = true ->
  engine_make_hydro_loops_dependencies_extra density gradient force c
    (Z.land (policy e) engine_policy_cooling) st = Ok st' ->
  extends st st' /\ chain e st' c density gradient force.
Proof.
  intros Hextra H.
  unfold engine_make_hydro_loops_dependencies_extra, cell_at in H.
  destruct (cells st !! c) as [cl |] eqn:Hcl; [| discriminate].
  cbn [mbind result_bind] in H.
  destruct (super cl) as [sc |] eqn:Hsup; [| discriminate].
  cbn [deref mbind result_bind] in H.
  destruct (cells st !! sc) as [scl |] eqn:Hscl; [| discriminate].
  cbn [mbind result_bind] in H.
  set (st1 := addunlock (init scl) (Some density) st) in *.
  set (st2 := addunlock (Some density) (ghost scl) st1) in *.
  set (st3 := addunlock (ghost scl) (Some gradient) st2) in *.
  set (st4 := addunlock (Some gradient) (extra_ghost scl) st3) in *.
  set (st5 := addunlock (extra_ghost scl) (Some force) st4) in *.
  assert (H5 : extends st st5).
  { do 4 (eapply extends_trans; [apply extends_addunlock |]).
    apply extends_addunlock. }
  assert (Hst' : extends st5 st' /\
                 if with_cooling e
                 then unlocked st' (Some force) (cooling scl)
                 else unlocked st' (Some force) (kick2 scl)).
  { unfold with_cooling.
    destruct (truthy (Z.land (policy e) engine_policy_cooling));
      inversion H; subst st';
      (split; [apply extends_addunlock | apply unlocked_addunlock]). }
  destruct Hst' as (H6 & Hlast).
  split; [eapply extends_trans; eassumption |].
  exists cl, sc, scl. rewrite Hextra.
  assert (Hcells : cells st' = cells st).
  { destruct (truthy (Z.land (policy e) engine_policy_cooling));
      now inversion H. }
  rewrite Hcells. repeat (split; [assumption |]).
  assert (Hup : forall ta tb (sta : state),
            extends sta st5 -> unlocked sta ta tb -> unlocked st' ta tb).
  { intros ta tb sta Hsta Hu. eapply unlocked_extends; [exact H6 |].
    eapply unlocked_extends; eassumption. }
  split.
  { apply (Hup _ _ st1); [| apply unlocked_addunlock].
    do 3 (eapply extends_trans; [apply extends_addunlock |]).
    apply extends_addunlock. }
  split.
  { apply (Hup _ _ st2); [| apply unlocked_addunlock].
    do 2 (eapply extends_trans; [apply extends_addunlock |]).
    apply extends_addunlock. }
  split; [| exact Hlast].
  split.
  { apply (Hup _ _ st3); [| apply unlocked_addunlock].
    eapply extends_trans; apply extends_addunlock. }
  split.
  { apply (Hup _ _ st4); [| apply unlocked_addunlock].
    apply extends_addunlock. }
  apply (Hup _ _ st5); [apply extends_refl | apply unlocked_addunlock].
Qed.
Lemma unlinked_set_gradient l cl : unlinked (set_gradient l cl) = unlinked cl.
Proof. reflexivity. Qed.

Lemma unlinked_set_force l cl : unlinked (set_force l cl) = unlinked cl.
Proof. reflexivity. Qed.

Lemma loop_task_extends (st st' : state) t sub ind2 :
  extends st st' -> loop_task st t sub ind2 -> loop_task st' t sub ind2.
Proof.
  intros Hext (t2 & Ht2 & H). exists t2. split; [| exact H].
  eapply extends_task; eassumption.
Qed.

Lemma addtask_spec (st st1 : state) ty sub fl wt ci cj tight t2 :
  is_hier_type ty = false ->
  addtask st ty sub fl wt ci cj tight = (st1, t2) ->
  extends st st1 /\
  tasks (sched st1) !! t2 =
  Some {| type := ty; subtype := sub; flags := fl; wait := wt; ci := ci;
          cj := cj; tight := tight; skip := true |}.
Proof.
  intros Hty Hadd.
  pose proof (extends_addtask st ty sub fl wt ci cj tight Hty) as Hext.
  pose proof (addtask_lookup st ty sub fl wt ci cj tight) as Hl.
  rewrite Hadd in Hext, Hl. now split.
Qed.

Lemma optional_addlink_extends e field set_field (both : bool) p t
    (st st' : state) :
  (forall l cl, unlinked (set_field l cl) = unlinked cl) ->
  (if both then cj ← deref p; engine_addlink e field set_field cj t st
   else Ok st) = Ok st' ->
  extends st st'.
Proof.
  intros Hset H. destruct both; [| inversion H; apply extends_refl].
  destruct p as [cj |]; [| discriminate]. cbn [deref mbind result_bind] in H.
  eapply extends_addlink; eassumption.
Qed.

Lemma local_nodeID e (st st' : state) c cl' :
  extends st st' -> local e st c -> cells st' !! c = Some cl' ->
  (nodeID cl' =? e_nodeID e) = true.
Proof.
  intros Hext Hloc Hcl'. apply (local_extends e st st' c Hext) in Hloc.
  destruct Hloc as (cl & Hcl & Hn). apply Z.eqb_eq. congruence.
Qed.

Lemma super_of_cell (st : state) c cl :
  cells st !! c = Some cl -> super_of st (Some c) = super cl.
Proof. unfold super_of. cbn. now intros ->. Qed.

(** The dependencies of the second cell, as both versions of the loop build
    them. *)
Lemma second_cell_spec e (both : bool) ind tg tf t ci ci_c
    (deps : nat -> state -> result state) (st0 st3 st4 st' : state) :
  (forall c sta stb, deps c sta = Ok stb ->
                     extends sta stb /\ chain e stb c ind tg tf) ->
  extends st0 st3 -> extends st3 st4 ->
  Sched.ci t = Some ci -> cells st3 !! ci = Some ci_c ->
  (if both then
     cj ← deref (cj t);
     cj_c ← cell_at st4 cj;
     if (nodeID cj_c =? e_nodeID e) &&
        negb (bool_decide (super ci_c = super cj_c))
     then deps cj st4 else Ok st4
   else Ok st4) = Ok st' ->
  extends st4 st' /\
  forall c, cj t = Some c -> both = true -> local e st0 c ->
            super_of st0 (Sched.ci t) <> super_of st0 (cj t) ->
            chain e st' c ind tg tf.
Proof.
  intros Hdeps H03 H34 Hci Hci_c H.
  destruct both; [| inversion H; subst; split; [apply extends_refl | discriminate]].
  destruct (cj t) as [cj |] eqn:Hcj; [| discriminate].
  cbn [deref mbind result_bind] in H. unfold cell_at in H.
  destruct (cells st4 !! cj) as [cj_c |] eqn:Hcj_c; [| discriminate].
  cbn [mbind result_bind] in H.
  assert (H04 : extends st0 st4) by (eapply extends_trans; eassumption).
  destruct ((nodeID cj_c =? e_nodeID e) &&
            negb (bool_decide (super ci_c = super cj_c))) eqn:Hcond.
  - destruct (Hdeps _ _ _ H) as (Hext & Hchain). split; [exact Hext |].
    intros c [= <-] _ _ _. exact Hchain.
  - inversion H; subst st'. split; [apply extends_refl |].
    intros c [= <-] _ Hloc Hsup. exfalso.
    rewrite (local_nodeID e st0 st4 cj cj_c H04 Hloc Hcj_c) in Hcond.
    cbn [andb] in Hcond. apply negb_false_iff, bool_decide_eq_true_1 in Hcond.
    apply Hsup. rewrite Hci.
    rewrite <- (super_of_extends st0 st3 (Some ci) H03).
    rewrite <- (super_of_extends st0 st4 (Some cj) H04).
    rewrite (super_of_cell st3 ci ci_c Hci_c), (super_of_cell st4 cj cj_c Hcj_c).
    exact Hcond.
Qed.

Lemma first_cell_spec e (local_only : bool) ind tg tf ci ci_c
    (deps : nat -> state -> result state) (st0 st3 st4 : state) :
  (forall c sta stb, deps c sta = Ok stb ->
                     extends sta stb /\ chain e stb c ind tg tf) ->
  extends st0 st3 -> cells st3 !! ci = Some ci_c ->
  (if negb local_only || (nodeID ci_c =? e_nodeID e)
   then deps ci st3 else Ok st3) = Ok st4 ->
  extends st3 st4 /\
  (local_only = false \/ local e st0 ci -> chain e st4 ci ind tg tf).
Proof.
  intros Hdeps H03 Hci_c H.
  destruct (negb local_only || (nodeID ci_c =? e_nodeID e)) eqn:Hcond.
  - destruct (Hdeps _ _ _ H) as (Hext & Hchain). now split.
  - inversion H; subst st4. split; [apply extends_refl |].
    intros [-> | Hloc]; [discriminate |]. exfalso.
    rewrite (local_nodeID e st0 st3 ci ci_c H03 Hloc Hci_c) in Hcond.
    now rewrite orb_true_r in Hcond.
Qed.

Lemma second_hydro_loop_spec e ind t fl cj2 both local_only (st st' : state) :
  is_hier_type (type t) = false ->
  second_hydro_loop e ind t fl cj2 both local_only st = Ok st' ->
  extends st st' /\
  exists tg tf,
    loop_task st' t task_subtype_force tf /\
    (extra_hydro_loop e = true -> loop_task st' t task_subtype_gradient tg) /\
    (forall c, ci t = Some c -> local_only = false \/ local e st c ->
               chain e st' c ind tg tf) /\
    (forall c, cj t = Some c -> both = true -> local e st c ->
               super_of st (ci t) <> super_of st (cj t) ->
               chain e st' c ind tg tf).
Proof.
  intros Hty H. unfold second_hydro_loop in H.
  destruct (extra_hydro_loop e) eqn:Hextra.
  - destruct (addtask st (type t) task_subtype_gradient fl 0 (ci t) cj2 false)
      as [st1 t2] eqn:Hadd1.
    destruct (addtask st1 (type t) task_subtype_force fl 0 (ci t) cj2 false)
      as [st2 t3] eqn:Hadd2.
    destruct (addtask_spec _ _ _ _ _ _ _ _ _ _ Hty Hadd1) as (H01 & Ht2).
    destruct (addtask_spec _ _ _ _ _ _ _ _ _ _ Hty Hadd2) as (H12 & Ht3).
    destruct (ci t) as [ci |] eqn:Hci; [| discriminate].
    cbn [deref mbind result_bind] in H.
    apply result_bind_ok in H as (st3 & H3 & H).
    apply result_bind_ok in H as (st4 & H4 & H).
    apply result_bind_ok in H as (st5 & H5 & H).
    apply result_bind_ok in H as (st6 & H6 & H).
    apply result_bind_ok in H as (ci_c & Hci_c & H).
    apply result_bind_ok in H as (st7 & H7 & H).
    unfold cell_at in Hci_c.
    destruct (cells st6 !! ci) as [ci_c' |] eqn:Hci_c'; [| discriminate].
    inversion Hci_c; subst ci_c'.
    apply (extends_addlink _ _ _ _ _ _ _ unlinked_set_gradient) in H3.
    apply (optional_addlink_extends _ _ _ _ _ _ _ _ unlinked_set_gradient) in H4.
    apply (extends_addlink _ _ _ _ _ _ _ unlinked_set_force) in H5.
    apply (optional_addlink_extends _ _ _ _ _ _ _ _ unlinked_set_force) in H6.
    assert (H06 : extends st st6).
    { eapply extends_trans; [exact H01 |]. eapply extends_trans; [exact H12 |].
      eapply extends_trans; [exact H3 |]. eapply extends_trans; [exact H4 |].
      eapply extends_trans; [exact H5 |]. exact H6. }
    assert (Hdeps : forall c sta stb,
              engine_make_hydro_loops_dependencies_extra ind t2 t3 c
                (Z.land (policy e) engine_policy_cooling) sta = Ok stb ->
              extends sta stb /\ chain e stb c ind t2 t3).
    { intros c sta stb. now apply deps_extra_spec. }
    destruct (first_cell_spec e local_only ind t2 t3 ci ci_c _ st st6 st7
                Hdeps H06 Hci_c' H7) as (H67 & Hfirst).
    destruct (second_cell_spec e both ind t2 t3 t ci ci_c _ st st6 st7 st'
                Hdeps H06 H67 Hci Hci_c' H) as (H7' & Hsecond).
    assert (H0' : extends st st')
      by (eapply extends_trans; [| exact H7']; eapply extends_trans; eassumption).
    split; [exact H0' |]. exists t2, t3.
    split.
    { eapply (loop_task_extends st2).
      - eapply extends_trans; [exact H3 |]. eapply extends_trans; [exact H4 |].
        eapply extends_trans; [exact H5 |]. eapply extends_trans; [exact H6 |].
        eapply extends_trans; [exact H67 |]. exact H7'.
      - eexists. split; [exact Ht3 |]. now repeat split. }
    split.
    { intros _. eapply (loop_task_extends st1).
      - eapply extends_trans; [exact H12 |].
        eapply extends_trans; [exact H3 |]. eapply extends_trans; [exact H4 |].
        eapply extends_trans; [exact H5 |]. eapply extends_trans; [exact H6 |].
        eapply extends_trans; [exact H67 |]. exact H7'.
      - eexists. split; [exact Ht2 |]. now repeat split. }
    split.
    { intros c [= <-] Hc. eapply chain_extends; [exact H7' |]. now apply Hfirst. }
    rewrite Hci in Hsecond. exact Hsecond.
  - destruct (addtask st (type t) task_subtype_force fl 0 (ci t) cj2 false)
      as [st1 t2] eqn:Hadd1.
    destruct (addtask_spec _ _ _ _ _ _ _ _ _ _ Hty Hadd1) as (H01 & Ht2).
    destruct (ci t) as [ci |] eqn:Hci; [| discriminate].
    cbn [deref mbind result_bind] in H.
    apply result_bind_ok in H as (st3 & H3 & H).
    apply result_bind_ok in H as (st4 & H4 & H).
    apply result_bind_ok in H as (ci_c & Hci_c & H).
    apply result_bind_ok in H as (st7 & H7 & H).
    unfold cell_at in Hci_c.
    destruct (cells st4 !! ci) as [ci_c' |] eqn:Hci_c'; [| discriminate].
    inversion Hci_c; subst ci_c'.
    apply (extends_addlink _ _ _ _ _ _ _ unlinked_set_force) in H3.
    apply (optional_addlink_extends _ _ _ _ _ _ _ _ unlinked_set_force) in H4.
    assert (H04 : extends st st4).
    { eapply extends_trans; [exact H01 |]. eapply extends_trans; [exact H3 |].
      exact H4. }
    assert (Hdeps : forall c sta stb,
              engine_make_hydro_loops_dependencies ind t2 c
                (Z.land (policy e) engine_policy_cooling) sta = Ok stb ->
              extends sta stb /\ chain e stb c ind t2 t2).
    { intros c sta stb. now apply deps_spec. }
    destruct (first_cell_spec e local_only ind t2 t2 ci ci_c _ st st4 st7
                Hdeps H04 Hci_c' H7) as (H47 & Hfirst).
    destruct (second_cell_spec e both ind t2 t2 t ci ci_c _ st st4 st7 st'
                Hdeps H04 H47 Hci Hci_c' H) as (H7' & Hsecond).
    assert (H0' : extends st st')
      by (eapply extends_trans; [| exact H7']; eapply extends_trans; eassumption).
    split; [exact H0' |]. exists t2, t2.
    split.
    { eapply (loop_task_extends st1).
      - eapply extends_trans; [exact H3 |]. eapply extends_trans; [exact H4 |].
        eapply extends_trans; [exact H47 |]. exact H7'.
      - eexists. split; [exact Ht2 |]. now repeat split. }
    split; [discriminate |].
    split.
    { intros c [= <-] Hc. eapply chain_extends; [exact H7' |]. now apply Hfirst. }
    rewrite Hci in Hsecond. exact Hsecond.
Qed.
Lemma density_not_hier t :
  is_density_loop t = true -> is_hier_type (type t) = false.
Proof.
  unfold is_density_loop. intros H. apply andb_true_iff in H as (H & _).
  apply bool_decide_eq_true_1 in H.
  destruct H as [-> | [-> | [-> | ->]]]; reflexivity.
Qed.

Lemma extra_hydroloop_task_spec e ind t (st st' : state) :
  tasks (sched st) !! ind = Some t ->
  engine_make_extra_hydroloop_tasks_task e ind st = Ok st' ->
  extends st st' /\
  (is_density_loop t = true ->
   exists tg tf,
     loop_task st' t task_subtype_force tf /\
     (extra_hydro_loop e = true -> loop_task st' t task_subtype_gradient tg) /\
     forall c, serves e st t c -> chain e st' c ind tg tf).
Proof.
  intros Ht H. unfold engine_make_extra_hydroloop_tasks_task, task_at in H.
  rewrite Ht in H. cbn [mbind result_bind] in H.
  unfold is_density_loop, serves.
  destruct (bool_decide (subtype t = task_subtype_density)) eqn:Hsub.
  2: { rewrite !andb_false_r in H. inversion H; subst st'.
       split; [apply extends_refl |]. rewrite andb_false_r. discriminate. }
  rewrite !andb_true_r in H. rewrite andb_true_r.
  destruct (bool_decide (type t = task_type_self)) eqn:Hself.
  { apply bool_decide_eq_true_1 in Hself.
    assert (Hty : is_hier_type (type t) = false) by now rewrite Hself.
    destruct (second_hydro_loop_spec e ind t _ _ _ _ st st' Hty H)
      as (Hext & tg & tf & Hf & Hg & Hci & Hcj).
    split; [exact Hext |]. intros _. exists tg, tf.
    split; [exact Hf |]. split; [exact Hg |].
    intros c [(Hc & _) | (_ & [Hp | Hp] & _)]; [| congruence | congruence].
    apply Hci; [exact Hc | now left]. }
  apply bool_decide_eq_false_1 in Hself.
  destruct (bool_decide (type t = task_type_pair)) eqn:Hpair.
  { apply bool_decide_eq_true_1 in Hpair.
    assert (Hty : is_hier_type (type t) = false) by now rewrite Hpair.
    destruct (second_hydro_loop_spec e ind t _ _ _ _ st st' Hty H)
      as (Hext & tg & tf & Hf & Hg & Hci & Hcj).
    split; [exact Hext |]. intros _. exists tg, tf.
    split; [exact Hf |]. split; [exact Hg |].
    intros c [(Hc & [Hs | Hl]) | (Hc & _ & Hl & Hsup)].
    - contradiction.
    - apply Hci; [exact Hc | now right].
    - now apply Hcj. }
  apply bool_decide_eq_false_1 in Hpair.
  destruct (bool_decide (type t = task_type_sub_self)) eqn:Hss.
  { apply bool_decide_eq_true_1 in Hss.
    assert (Hty : is_hier_type (type t) = false) by now rewrite Hss.
    destruct (second_hydro_loop_spec e ind t _ _ _ _ st st' Hty H)
      as (Hext & tg & tf & Hf & Hg & Hci & Hcj).
    split; [exact Hext |]. intros _. exists tg, tf.
    split; [exact Hf |]. split; [exact Hg |].
    intros c [(Hc & [Hs | Hl]) | (_ & [Hp | Hp] & _)]; try congruence.
    apply Hci; [exact Hc | now right]. }
  apply bool_decide_eq_false_1 in Hss.
  destruct (bool_decide (type t = task_type_sub_pair)) eqn:Hsp.
  { apply bool_decide_eq_true_1 in Hsp.
    assert (Hty : is_hier_type (type t) = false) by now rewrite Hsp.
    destruct (second_hydro_loop_spec e ind t _ _ _ _ st st' Hty H)
      as (Hext & tg & tf & Hf & Hg & Hci & Hcj).
    split; [exact Hext |]. intros _. exists tg, tf.
    split; [exact Hf |]. split; [exact Hg |].
    intros c [(Hc & [Hs | Hl]) | (Hc & _ & Hl & Hsup)].
    - contradiction.
    - apply Hci; [exact Hc | now right].
    - now apply Hcj. }
  apply bool_decide_eq_false_1 in Hsp.
  inversion H; subst st'. split; [apply extends_refl |].
  intros Hd. apply bool_decide_eq_true_1 in Hd. tauto.
Qed.

Lemma extra_hydroloop_fold e l (st st' : state) :
  foldl (fun st ind => st ← st; engine_make_extra_hydroloop_tasks_task e ind st)
        (Ok st) l = Ok st' ->
  (forall ind, ind ∈ l -> is_Some (tasks (sched st) !! ind)) ->
  extends st st' /\
  forall ind, ind ∈ l ->
    exists sta stb, extends st sta /\
      engine_make_extra_hydroloop_tasks_task e ind sta = Ok stb /\
      extends stb st'.
Proof.
  revert st. induction l as [| i l IH]; intros st H Hl.
  - inversion H; subst st'. split; [apply extends_refl |].
    intros ind Hin. now apply elem_of_nil in Hin.
  - cbn [foldl mbind result_bind] in H.
    destruct (engine_make_extra_hydroloop_tasks_task e i st) as [st1 | m] eqn:H1.
    2: { rewrite foldl_error in H by reflexivity. discriminate. }
    destruct (Hl i) as (t & Ht); [left |].
    destruct (extra_hydroloop_task_spec e i t st st1 Ht H1) as (H01 & _).
    destruct (IH st1 H) as (H1' & Hin).
    { intros ind Hind. destruct (Hl ind) as (t' & Ht'); [now right |].
      exists t'. eapply extends_task; eassumption. }
    split; [eapply extends_trans; eassumption |].
    intros ind Hind. apply elem_of_cons in Hind as [-> | Hind].
    + exists st, st1. split; [apply extends_refl |]. now split.
    + destruct (Hin ind Hind) as (sta & stb & Ha & Hb & Hc).
      exists sta, stb. split; [eapply extends_trans; eassumption |]. now split.
Qed.

Lemma serves_extends e (st st' : state) t c :
  extends st st' -> serves e st t c -> serves e st' t c.
Proof.
  intros Hext. unfold serves.
  rewrite !(super_of_extends st st' _ Hext).
  rewrite <- (local_extends e st st' c Hext). tauto.
Qed.

(** The dependencies of the hydro loops. *)
Lemma hydro_loops_chain e (st st' : state) :
  engine_make_extra_hydroloop_tasks e st = Ok st' ->
  extends st st' /\
  forall ind t, tasks (sched st) !! ind = Some t -> is_density_loop t = true ->
    exists tg tf,
      loop_task st' t task_subtype_force tf /\
      (extra_hydro_loop e = true -> loop_task st' t task_subtype_gradient tg) /\
      forall c, serves e st t c -> chain e st' c ind tg tf.
Proof.
  intros H. unfold engine_make_extra_hydroloop_tasks in H.
  destruct (extra_hydroloop_fold e _ st st' H) as (Hext & Hin).
  { intros ind Hind. apply lookup_lt_is_Some_2. apply elem_of_seq in Hind. lia. }
  split; [exact Hext |]. intros ind t Ht Hd.
  destruct (Hin ind) as (sta & stb & Ha & Hb & Hc).
  { apply elem_of_seq. apply lookup_lt_Some in Ht. lia. }
  destruct (extra_hydroloop_task_spec e ind t sta stb
              (extends_task _ _ _ _ Ha Ht) Hb)
    as (_ & Hspec).
  destruct (Hspec Hd) as (tg & tf & Hf & Hg & Hchain).
  exists tg, tf. split; [eapply loop_task_extends; eassumption |].
  split; [intros Hx; eapply loop_task_extends; eauto |].
  intros c Hc'. eapply chain_extends; [exact Hc |].
  apply Hchain. eapply serves_extends; eassumption.
Qed.
Lemma field_of_unlinked ty cl cl' :
  unlinked cl' = unlinked cl -> field_of ty cl' = field_of ty cl.
Proof.
  intros H. change (field_of ty (unlinked cl') = field_of ty (unlinked cl)).
  now rewrite H.
Qed.

Lemma count_tasks_extends (st st' : state) ty c :
  extends st st' -> is_hier_type ty = true ->
  count_tasks st' ty c = count_tasks st ty c.
Proof.
  intros ((new & Ht & Hnew) & _) Hty. unfold count_tasks.
  rewrite Ht, filter_app, length_app.
  rewrite (filter_none _ new); [cbn; lia |].
  intros t Hin (Htype & _). rewrite Forall_forall in Hnew.
  apply Hnew in Hin. congruence.
Qed.

Lemma hierarchical_tasks_of_extends e (st st' : state) c :
  extends st st' -> hierarchical_tasks_of e st c ->
  hierarchical_tasks_of e st' c.
Proof.
  intros Hext (Hcar & Hnone & cl & Hcl & H1 & H2 & H3 & H4).
  split; [| split].
  - intros ty Hty. destruct (Hcar ty Hty) as (Hcount & cl0 & i & t & Hc0 & Hf & Ht & Hp).
    split.
    + rewrite (count_tasks_extends st st') by
        (assumption || eapply hier_types_hier; eassumption).
      exact Hcount.
    + destruct (extends_cell st st' c cl0 Hext Hc0) as (cl' & Hcl' & E).
      exists cl', i, t. split; [assumption |].
      split; [now rewrite (field_of_unlinked ty cl0 cl' E) |].
      split; [eapply extends_task; eassumption | exact Hp].
  - intros ty Hty Hnin. rewrite (count_tasks_extends st st') by assumption.
    now apply Hnone.
  - destruct (extends_cell st st' c cl Hext Hcl) as (cl' & Hcl' & E).
    exists cl'. split; [assumption |].
    rewrite (field_of_unlinked task_type_kick1 cl cl' E : kick1 cl' = kick1 cl).
    rewrite (field_of_unlinked task_type_drift cl cl' E : drift cl' = drift cl).
    rewrite (field_of_unlinked task_type_init cl cl' E : init cl' = init cl).
    rewrite (field_of_unlinked task_type_kick2 cl cl' E : kick2 cl' = kick2 cl).
    rewrite (field_of_unlinked task_type_timestep cl cl' E
             : timestep cl' = timestep cl).
    rewrite (field_of_unlinked task_type_cooling cl cl' E
             : cooling cl' = cooling cl).
    repeat split; try (eapply unlocked_extends; eassumption).
    intros Hc. eapply unlocked_extends; [eassumption | now apply H4].
Qed.

Lemma shapes_cell (st st' : state) c cl :
  shapes st' = shapes st -> cells st !! c = Some cl ->
  exists cl', cells st' !! c = Some cl' /\ shape_of cl' = shape_of cl.
Proof.
  intros Hs Hcl. pose proof (f_equal (fun l => l !! c) Hs) as Hl. cbn in Hl.
  rewrite !shapes_lookup, Hcl in Hl.
  destruct (cells st' !! c) as [cl' |]; [| discriminate].
  exists cl'. split; [reflexivity |]. cbn in Hl. congruence.
Qed.

Lemma local_shapes_eq e (st st' : state) c :
  shapes st' = shapes st -> local e st c -> local e st' c.
Proof.
  intros Hs (cl & Hcl & Hn).
  destruct (shapes_cell st st' c cl Hs Hcl) as (cl' & Hcl' & E).
  exists cl'. split; [assumption |].
  rewrite <- Hn. exact (f_equal s_nodeID E).
Qed.

Lemma super_of_shapes (st st' : state) p :
  shapes st' = shapes st -> super_of st' p = super_of st p.
Proof.
  intros Hs. unfold super_of. destruct p as [c |]; [| reflexivity]. cbn.
  pose proof (f_equal (fun l => l !! c) Hs) as Hl. cbn in Hl.
  rewrite !shapes_lookup in Hl.
  destruct (cells st !! c) as [cl |], (cells st' !! c) as [cl' |];
    cbn in Hl |- *; try discriminate; [| reflexivity].
  assert (E : shape_of cl' = shape_of cl) by congruence.
  exact (f_equal s_super E).
Qed.

Lemma serves_shapes e (st st' : state) t c :
  shapes st' = shapes st -> serves e st t c -> serves e st' t c.
Proof.
  intros Hs. unfold serves. rewrite !(super_of_shapes st st' _ Hs).
  intros [(Hc & [Hself | Hl]) | (Hc & Hp & Hl & Hsup)].
  - left. split; [assumption | now left].
  - left. split; [assumption |]. right. now apply (local_shapes_eq e st).
  - right. split; [assumption |]. split; [assumption |].
    split; [now apply (local_shapes_eq e st) | assumption].
Qed.

(** C4 (amended): on a hierarchy of cells of height at most [n] in which
    no local super cell is reached twice, and with no hierarchical task in
    the scheduler yet, the construction of the hierarchical tasks returns,
    and every local super cell that it reaches from a top cell carries
    exactly one init, kick1, kick2, timestep and drift task, one ghost task
    with hydro, one extra_ghost task with hydro and [EXTRA_HYDRO_LOOP], one
    cooling and one sourceterms task with these policies, and none of those
    otherwise, with the unlock edges kick1 -> drift -> init,
    kick2 -> timestep and, with cooling, cooling -> kick2. After the second
    hydro loop is built this still holds, and every density task has a
    force task (and a gradient task with [EXTRA_HYDRO_LOOP]) such that, for
    each cell that the task serves, the chain of the cell's super cell has
    the edges init -> density -> ghost -> force (ghost -> gradient ->
    extra_ghost -> force with [EXTRA_HYDRO_LOOP]) and force -> kick2 without
    cooling, force -> cooling with cooling. *)
Theorem task_graph_construction e n nr_cells (st : state) :
  (forall k, (k < nr_cells)%nat -> height_le (shapes st) k n) ->
  reached_once (S n) e (shapes st) nr_cells ->
  (forall t, t ∈ tasks (sched st) -> is_hier_type (type t) = false) ->
  exists st1,
    engine_make_hierarchical_tasks_top (S n) e nr_cells st = Ok st1 /\
    (forall k c, (k < nr_cells)%nat -> reaches (shapes st) k c ->
                 local_super e (shapes st) c ->
                 hierarchical_tasks_of e st1 c) /\
    forall st2, engine_make_extra_hydroloop_tasks e st1 = Ok st2 ->
      (forall k c, (k < nr_cells)%nat -> reaches (shapes st) k c ->
                   local_super e (shapes st) c ->
                   hierarchical_tasks_of e st2 c) /\
      (forall ind t, tasks (sched st) !! ind = Some t ->
         is_density_loop t = true ->
         exists tg tf,
           loop_task st2 t task_subtype_force tf /\
           (extra_hydro_loop e = true ->
            loop_task st2 t task_subtype_gradient tg) /\
           forall c, serves e st t c -> chain e st2 c ind tg tf).
Proof.
  intros Hheight Honce Hnone.
  destruct (super_cells_top_total e (shapes st) nr_cells n Hheight)
    as (vs & Hvs).
  pose proof (Honce vs Hvs) as Hnd.
  pose proof (super_cells_top_spec _ _ _ _ _ Hvs) as Hspec.
  assert (Hcells : forall v, v ∈ vs -> is_Some (cells st !! v)).
  { intros v Hv. apply Hspec in Hv as (_ & _ & _ & sh & Hsh & _).
    rewrite shapes_lookup in Hsh.
    destruct (cells st !! v); [eauto | discriminate]. }
  destruct (run_local_spec e vs st Hnd Hcells)
    as (st1 & Hrun & Htasks & _).
  exists st1.
  split; [now rewrite (hierarchical_tasks_top_run _ _ _ _ _ Hvs st eq_refl) |].
  assert (Hhier : forall k c, (k < nr_cells)%nat -> reaches (shapes st) k c ->
                    local_super e (shapes st) c ->
                    hierarchical_tasks_of e st1 c).
  { intros k c Hk Hr Hl.
    eapply hierarchical_tasks_of_run; try eassumption.
    apply Hspec. eauto. }
  split; [exact Hhier |].
  intros st2 H2. destruct (hydro_loops_chain e st1 st2 H2) as (Hext & Hchain).
  split.
  - intros k c Hk Hr Hl. eapply hierarchical_tasks_of_extends; eauto.
  - intros ind t Ht Hd.
    assert (Ht1 : tasks (sched st1) !! ind = Some t)
      by (rewrite Htasks; now apply lookup_app_l_Some).
    destruct (Hchain ind t Ht1 Hd) as (tg & tf & Hf & Hg & Hc).
    exists tg, tf. split; [exact Hf |]. split; [exact Hg |].
    intros c Hs. apply Hc. eapply serves_shapes; [| exact Hs].
    eapply run_local_shapes; eassumption.
Qed.

End taskgraph_proofs.

Lemma example_height : forall k, (k < 1)%nat -> height_le (shapes example_state) k 1.
Proof.
  intros k Hk. assert (k = 0%nat) by lia. subst k.
  eapply height_le_split; [reflexivity |].
  intros p Hp. cbn in Hp.
  assert (Hp' : p = 1%nat \/ p = 2%nat \/ p = 3%nat).
  { repeat (apply elem_of_cons in Hp as [Hp | Hp]; [inversion Hp; auto |]).
    now apply elem_of_nil in Hp. }
  destruct Hp' as [-> | [-> | ->]];
    (eapply height_le_stop; [reflexivity | left; reflexivity]).
Qed.

Lemma example_reached_once pol extra :
  reached_once 2 (example_engine pol extra)
    (shapes example_state) 1.
Proof.
  intros vs Hvs. vm_compute in Hvs. inversion Hvs; subst vs.
  apply NoDup_ListNoDup. repeat constructor; cbn; lia.
Qed.

Lemma example_no_hier_tasks t :
  t ∈ tasks (sched example_state) -> is_hier_type (type t) = false.
Proof.
  intros Ht. cbn in Ht.
  repeat (apply elem_of_cons in Ht as [-> | Ht]; [reflexivity |]).
  now apply elem_of_nil in Ht.
Qed.

Lemma task_graph_construction_witness :
  let e := example_engine 256 false in
  let st := example_state in
  (forall k, (k < 1)%nat -> height_le (shapes st) k 1) /\
  reached_once 2 e (shapes st) 1 /\
  (forall t, t ∈ tasks (sched st) -> is_hier_type (type t) = false) /\
  exists st1,
    engine_make_hierarchical_tasks_top (P := example_policies) 2 e 1 st =
    Ok st1 /\
    (forall k c, (k < 1)%nat -> reaches (shapes st) k c ->
                 local_super e (shapes st) c ->
                 hierarchical_tasks_of (P := example_policies) e st1 c) /\
    forall st2,
      engine_make_extra_hydroloop_tasks (P := example_policies) e st1 = Ok st2 ->
      (forall k c, (k < 1)%nat -> reaches (shapes st) k c ->
                   local_super e (shapes st) c ->
                   hierarchical_tasks_of (P := example_policies) e st2 c) /\
      (forall ind t, tasks (sched st) !! ind = Some t ->
         is_density_loop t = true ->
         exists tg tf,
           loop_task st2 t task_subtype_force tf /\
           (extra_hydro_loop e = true ->
            loop_task st2 t task_subtype_gradient tg) /\
           forall c, serves e st t c ->
                     chain (P := example_policies) e st2 c ind tg tf).
Proof.
  intros e st.
  split; [exact example_height |].
  split; [exact (example_reached_once 256 false) |].
  split; [exact example_no_hier_tasks |].
  exact (task_graph_construction (P := example_policies) e 1 1 st
           example_height (example_reached_once 256 false)
           example_no_hier_tasks).
Defined.

(** The graph of the example is built, whatever the policy. *)
Example example_graph_built :
  (exists st, example_graph 256 false = Ok st) /\
  (exists st, example_graph (256 + 8192) false = Ok st) /\
  (exists st, example_graph (256 + 8192 + 16384) true = Ok st).
Proof. repeat split; eexists; vm_compute; reflexivity. Qed.

(** C4, as stated, fails with cooling: the force task of a density task
    unlocks the cooling task of the super cell and not its kick2 task, which
    only the cooling task unlocks. *)
Lemma force_unlocks_cooling_not_kick2 :
  let st := example_built (256 + 8192) false in
  exists cl,
    example_graph (256 + 8192) false = Ok st /\
    cells st !! 1%nat = Some cl /\
    loop_task st (mk_task task_type_self task_subtype_density 0 (Some 1%nat)
                    None false) task_subtype_force 18 /\
    unlocked st (Some 18%nat) (cooling cl) /\
    unlocked st (cooling cl) (kick2 cl) /\
    is_Some (kick2 cl) /\
    ~ unlocked st (Some 18%nat) (kick2 cl) /\
    forall ta, unlocked st ta (kick2 cl) -> ta = cooling cl.
Proof.
  intros st. eexists. split; [vm_compute; reflexivity |].
  split; [vm_compute; reflexivity |].
  split; [eexists; split; [vm_compute; reflexivity | repeat split] |].
  assert (Hall : forall ta, (ta, Some 6%nat) ∈ unlocks (sched st) ->
                            ta = Some 10%nat).
  { intros ta Hin. vm_compute in Hin.
    repeat (apply elem_of_cons in Hin as [Hin | Hin];
            [inversion Hin; subst; congruence |]).
    now apply elem_of_nil in Hin. }
  unfold unlocked. cbn [cooling kick2].
  split; [apply (bool_decide_unpack _); vm_compute; exact I |].
  split; [apply (bool_decide_unpack _); vm_compute; exact I |].
  split; [eauto |].
  split.
  - intros Hin. apply Hall in Hin. discriminate.
  - exact Hall.
Qed.

End TaskgraphProofs.

Module MarktasksProofs.
Import Facts Sched Marktasks.

Section marktasks_proofs.
Context {real : Type}.
Context (fmax fadd fmul : real -> real -> real) (fgt : real -> real -> bool).
Context (space_maxreldx : real).

Local Abbreviation state := (state (real := real)).
Local Abbreviation cell := (cell (real := real)).
Local Abbreviation plan := (plan fmax fadd fmul fgt space_maxreldx).
Local Abbreviation full_plan := (full_plan fmax fadd fmul fgt space_maxreldx).
Local Abbreviation engine_marktasks_task :=
  (engine_marktasks_task fmax fadd fmul fgt space_maxreldx).
Local Abbreviation engine_marktasks_mapper :=
  (engine_marktasks_mapper fmax fadd fmul fgt space_maxreldx).
Local Abbreviation engine_marktasks :=
  (engine_marktasks fmax fadd fmul fgt space_maxreldx).

(** *** Running a list of stores *)

Lemma run_nil (st : state) : run [] st = Ok st.
Proof. reflexivity. Qed.

Lemma run_error (acts : list action) msg :
  foldl (fun (st : result state) a => st ← st; apply_action a st)
        (Error msg) acts = Error msg.
Proof. induction acts as [| a acts IH]; [reflexivity | exact IH]. Qed.

Lemma run_cons a (acts : list action) (st : state) :
  run (a :: acts) st = (st' ← apply_action a st; run acts st').
Proof.
  unfold run. cbn [foldl].
  change (Ok st ≫= (fun st0 => apply_action a st0)) with (apply_action a st).
  destruct (apply_action a st) as [st' | msg]; cbn; [reflexivity |].
  apply run_error.
Qed.

Lemma run_app (p q : list action) (st : state) :
  run (p ++ q) st = (st' ← run p st; run q st').
Proof.
  revert st. induction p as [| a p IH]; intros st; [reflexivity |].
  cbn [app]. rewrite !run_cons.
  destruct (apply_action a st) as [st' | msg]; cbn; [apply IH | reflexivity].
Qed.

Lemma run_singleton a (st : state) : run [a] st = apply_action a st.
Proof. rewrite run_cons. now destruct (apply_action a st). Qed.

(** *** The static part of the memory *)

Lemma fmap_alter_same {A B} (F : A -> B) (g : A -> A) (l : list A) i :
  (forall x, l !! i = Some x -> F (g x) = F x) ->
  F <$> alter g i l = F <$> l.
Proof.
  intros Hg. apply list_eq. intros j. rewrite !list_lookup_fmap.
  destruct (decide (i = j)) as [<- | Hne].
  - rewrite list_lookup_alter_eq.
    destruct (l !! i) as [x |] eqn:Hx; [| reflexivity].
    cbn. f_equal. now apply Hg.
  - now rewrite list_lookup_alter_ne.
Qed.

Lemma alter_same {A} (g : A -> A) (l : list A) i :
  (forall x, l !! i = Some x -> g x = x) -> alter g i l = l.
Proof.
  intros Hg. apply list_eq. intros j.
  destruct (decide (i = j)) as [<- | Hne].
  - rewrite list_lookup_alter_eq.
    destruct (l !! i) as [x |] eqn:Hx; [| reflexivity].
    cbn. f_equal. now apply Hg.
  - now rewrite list_lookup_alter_ne.
Qed.

Lemma static_tasks_lookup (st : state) i :
  tasks (static st) !! i = task_static <$> tasks st !! i.
Proof. apply list_lookup_fmap. Qed.

Lemma static_cells_lookup (st : state) i :
  cells (static st) !! i = reset_updated <$> cells st !! i.
Proof. apply list_lookup_fmap. Qed.

Lemma static_eq_task (st st' : state) i t :
  static st = static st' -> tasks st !! i = Some t ->
  exists t', tasks st' !! i = Some t' /\ task_static t' = task_static t.
Proof.
  intros Hs Ht.
  assert (Hl : tasks (static st') !! i = Some (task_static t))
    by now rewrite <- Hs, static_tasks_lookup, Ht.
  rewrite static_tasks_lookup in Hl.
  destruct (tasks st' !! i) as [t' |]; [| discriminate].
  exists t'. split; [reflexivity |]. cbn in Hl. congruence.
Qed.

Lemma static_eq_cell (st st' : state) i c :
  static st = static st' -> cells st !! i = Some c ->
  exists c', cells st' !! i = Some c' /\ reset_updated c' = reset_updated c.
Proof.
  intros Hs Hc.
  assert (Hl : cells (static st') !! i = Some (reset_updated c))
    by now rewrite <- Hs, static_cells_lookup, Hc.
  rewrite static_cells_lookup in Hl.
  destruct (cells st' !! i) as [c' |]; [| discriminate].
  exists c'. split; [reflexivity |]. cbn in Hl. congruence.
Qed.

Lemma task_static_type (t t' : task) :
  task_static t' = task_static t ->
  type t' = type t /\ subtype t' = subtype t /\ ci t' = ci t /\
  cj t' = cj t /\ tight t' = tight t /\
  (type t <> task_type_sort -> flags t' = flags t).
Proof.
  intros Hs.
  assert (Hty : type t' = type t) by exact (f_equal type Hs).
  repeat split.
  - exact Hty.
  - exact (f_equal subtype Hs).
  - exact (f_equal ci Hs).
  - exact (f_equal cj Hs).
  - exact (f_equal tight Hs).
  - intros Hne. pose proof (f_equal flags Hs) as Hf. cbn in Hf.
    rewrite Hty in Hf. now rewrite !bool_decide_eq_false_2 in Hf.
Qed.

Lemma has_type_static (st st' : state) ty p :
  static st = static st' -> has_type st ty p -> has_type st' ty p.
Proof.
  intros Hs Hty t' Ht'.
  destruct (static_eq_task st' st p t' (eq_sym Hs) Ht') as (t & Ht & Heq).
  apply task_static_type in Heq as (Heq & _). rewrite <- (Hty t Ht). congruence.
Qed.

Lemma cell_wf_static (st st' : state) (c c' : cell) :
  static st = static st' -> reset_updated c' = reset_updated c ->
  cell_wf st c -> cell_wf st' c'.
Proof.
  intros Hs Hc (Hsorts & Hdrift & Hrecv & Hsend).
  pose proof (f_equal sorts Hc) as E1. pose proof (f_equal drift Hc) as E2.
  pose proof (f_equal recv_xv Hc) as E3. pose proof (f_equal recv_rho Hc) as E4.
  pose proof (f_equal recv_ti Hc) as E5. pose proof (f_equal send_xv Hc) as E6.
  pose proof (f_equal send_rho Hc) as E7. pose proof (f_equal send_ti Hc) as E8.
  cbn in E1, E2, E3, E4, E5, E6, E7, E8.
  unfold cell_wf. rewrite E1, E2, E3, E4, E5, E6, E7, E8.
  repeat split; intros p Hp; eapply has_type_static; eauto.
Qed.

Lemma state_wf_static (st st' : state) :
  static st = static st' -> state_wf st -> state_wf st'.
Proof.
  intros Hs Hwf i c' Hc'.
  destruct (static_eq_cell st' st i c' (eq_sym Hs) Hc') as (c & Hc & Heq).
  eapply cell_wf_static; [exact Hs | symmetry; exact Heq | eapply Hwf, Hc].
Qed.

Lemma task_static_set_skip b t : task_static (set_skip b t) = task_static t.
Proof. reflexivity. Qed.

Lemma task_static_or_flags bits t :
  type t = task_type_sort -> task_static (or_flags bits t) = task_static t.
Proof.
  intros Hty. unfold task_static, or_flags. cbn.
  rewrite !(bool_decide_eq_true_2 _ Hty). reflexivity.
Qed.

Lemma update_task_static f ind (st st' : state) :
  (forall t, tasks st !! ind = Some t -> task_static (f t) = task_static t) ->
  update_task f ind st = Ok st' -> static st' = static st.
Proof.
  intros Hf Hu. unfold update_task in Hu.
  destruct (tasks st !! ind) as [t |] eqn:Ht; [| discriminate].
  inversion Hu; subst st'. unfold static. cbn. f_equal.
  apply fmap_alter_same. now rewrite Ht.
Qed.

Lemma apply_action_static a (st st' : state) :
  (forall t bits, a = OrFlags t bits -> has_type st task_type_sort t) ->
  apply_action a st = Ok st' -> static st' = static st.
Proof.
  intros Htarget Ha. destruct a as [t | t bits | c | | msg]; cbn in Ha.
  - eapply update_task_static; [| exact Ha]. reflexivity.
  - eapply update_task_static; [| exact Ha].
    intros t0 Ht0. apply task_static_or_flags. eapply Htarget; eauto.
  - unfold clear_updated in Ha.
    destruct (cells st !! c) as [c0 |]; [| discriminate].
    inversion Ha; subst st'. unfold static. cbn. f_equal.
    apply fmap_alter_same. reflexivity.
  - now inversion Ha.
  - discriminate.
Qed.

Lemma run_static (acts : list action) (st st' : state) :
  targeted st acts -> run acts st = Ok st' -> static st' = static st.
Proof.
  revert st. induction acts as [| a acts IH]; intros st Htarget Hrun.
  - now inversion Hrun.
  - rewrite run_cons in Hrun.
    apply result_bind_ok in Hrun as (st1 & Ha & Hrun).
    assert (Hs1 : static st1 = static st).
    { eapply apply_action_static; [| exact Ha].
      intros t bits ->. apply (Htarget t bits), list_elem_of_here. }
    rewrite <- Hs1. apply IH; [| exact Hrun].
    intros t bits Hin. eapply has_type_static; [symmetry; exact Hs1 |].
    apply (Htarget t bits). now apply list_elem_of_further.
Qed.

Lemma targeted_app (st : state) p q :
  targeted st p -> targeted st q -> targeted st (p ++ q).
Proof.
  intros Hp Hq t bits Hin. apply elem_of_app in Hin as [Hin | Hin]; eauto.
Qed.

Lemma targeted_static (st st' : state) p :
  static st = static st' -> targeted st p -> targeted st' p.
Proof. intros Hs Hp t bits Hin. eapply has_type_static; eauto. Qed.

(** *** The plan depends on the static part only *)

Lemma task_at_static (st st' : state) ind :
  static st = static st' ->
  match task_at st ind, task_at st' ind with
  | Ok t, Ok t' => task_static t' = task_static t
  | Error m, Error m' => m = m'
  | _, _ => False
  end.
Proof.
  intros Hs. unfold task_at.
  destruct (tasks st !! ind) as [t |] eqn:Ht.
  - destruct (static_eq_task st st' ind t Hs Ht) as (t' & -> & Heq). exact Heq.
  - destruct (tasks st' !! ind) as [t' |] eqn:Ht'; [| reflexivity].
    destruct (static_eq_task st' st ind t' (eq_sym Hs) Ht') as (t & Ht0 & _).
    congruence.
Qed.

Lemma cell_at_static (st st' : state) c :
  static st = static st' ->
  match cell_at st c, cell_at st' c with
  | Ok c0, Ok c0' => reset_updated c0' = reset_updated c0
  | Error m, Error m' => m = m'
  | _, _ => False
  end.
Proof.
  intros Hs. unfold cell_at.
  destruct (cells st !! c) as [c0 |] eqn:Hc.
  - destruct (static_eq_cell st st' c c0 Hs Hc) as (c0' & -> & Heq). exact Heq.
  - destruct (cells st' !! c) as [c0' |] eqn:Hc'; [| reflexivity].
    destruct (static_eq_cell st' st c c0' (eq_sym Hs) Hc') as (c0 & Hc0 & _).
    congruence.
Qed.

Lemma find_link_static (st st' : state) links node :
  static st = static st' -> find_link st links node = find_link st' links node.
Proof.
  intros Hs. induction links as [| l next IH]; [reflexivity |].
  cbn [find_link].
  pose proof (task_at_static st st' l Hs) as Ht.
  destruct (task_at st l) as [t | m], (task_at st' l) as [t' | m'];
    try contradiction; [| now subst].
  apply task_static_type in Ht as (_ & _ & _ & Hcj & _).
  cbn. rewrite Hcj. destruct (cj t) as [c |]; cbn; [| reflexivity].
  pose proof (cell_at_static st st' c Hs) as Hc.
  destruct (cell_at st c) as [c0 | m], (cell_at st' c) as [c0' | m'];
    try contradiction; [| now subst].
  cbn. rewrite (f_equal nodeID Hc : nodeID c0' = nodeID c0), IH. reflexivity.
Qed.

Lemma plan_link_static (st st' : state) msg links node :
  static st = static st' ->
  plan_link st msg links node = plan_link st' msg links node.
Proof. intros Hs. unfold plan_link. now rewrite (find_link_static st st'). Qed.

Lemma plan_with_cell_static (st st' : state) p (k k' : cell -> list action) :
  static st = static st' ->
  (forall c c', reset_updated c' = reset_updated c -> k c = k' c') ->
  plan_with_cell st p k = plan_with_cell st' p k'.
Proof.
  intros Hs Hk. unfold plan_with_cell. destruct p as [c |]; [| reflexivity].
  pose proof (cell_at_static st st' c Hs) as Hc.
  destruct (cell_at st c) as [c0 | m], (cell_at st' c) as [c0' | m'];
    try contradiction; [now apply Hk | now subst].
Qed.

Lemma plan_sort_static (st st' : state) ind t c :
  static st = static st' -> tasks st !! ind = Some t ->
  type t <> task_type_sort ->
  plan_sort st ind c = plan_sort st' ind c.
Proof.
  intros Hs Ht Hty. unfold plan_sort.
  pose proof (task_at_static st st' ind Hs) as Heq. unfold task_at in *.
  rewrite Ht in *. destruct (tasks st' !! ind) as [t' |]; [| contradiction].
  apply task_static_type in Heq as (_ & _ & _ & _ & _ & Hf).
  now rewrite (Hf Hty).
Qed.

Lemma plan_send_recv_static (st st' : state) e ci cj :
  static st = static st' ->
  plan_send_recv st e ci cj = plan_send_recv st' e ci cj.
Proof.
  intros Hs. unfold plan_send_recv.
  rewrite !(plan_link_static st st') by assumption.
  do 3 f_equal. f_equal.
  apply plan_with_cell_static; [assumption |].
  intros c c' Hc. now rewrite (f_equal drift Hc : drift c' = drift c).
Qed.

Lemma type_pair_not_sort t :
  type t = task_type_pair -> type t <> task_type_sort.
Proof. congruence. Qed.

Lemma plan_static_eq e (st st' : state) ind :
  static st = static st' -> plan e st ind = plan e st' ind.
Proof.
  intros Hs. unfold Marktasks.plan.
  pose proof (task_at_static st st' ind Hs) as Ht.
  destruct (task_at st ind) as [t | m] eqn:Htask, (task_at st' ind) as [t' | m'];
    try contradiction; [| now subst].
  apply task_static_type in Ht as (Ety & Esub & Eci & Ecj & Etight & _).
  rewrite Ety, Esub, Eci, Ecj, Etight.
  assert (Hactive : forall c c' : cell,
            reset_updated c' = reset_updated c ->
            plan_active e ind c = plan_active e ind c').
  { intros c c' Hc. unfold plan_active, cell_is_active.
    now rewrite (f_equal ti_end_min Hc : ti_end_min c' = ti_end_min c). }
  destruct (is_single_cell_type (type t));
    [now apply plan_with_cell_static |].
  destruct (is_pair_type (type t)).
  { apply plan_with_cell_static; [assumption |]. intros ci ci' Hci.
    apply plan_with_cell_static; [assumption |]. intros cj cj' Hcj.
    pose (K := fun ci cj : cell =>
          (if tight t && too_much_movement fmax fadd fmul fgt space_maxreldx ci cj
           then [Rebuild] else []) ++
          (if cell_is_active ci e || cell_is_active cj e then
             Activate ind ::
             (if negb (bool_decide (subtype t = task_subtype_density)) then []
              else
                (if bool_decide (type t = task_type_pair)
                 then plan_sort st' ind ci ++ plan_sort st' ind cj else []) ++
                (if with_mpi e then
                   if negb (nodeID ci =? engine_rank e) then
                     plan_send_recv st' e ci cj
                   else if negb (nodeID cj =? engine_rank e) then
                     plan_send_recv st' e cj ci
                   else []
                 else []))
           else [])).
    transitivity (K ci cj).
    - subst K. cbv beta. rewrite !(plan_send_recv_static st st') by assumption.
      destruct (bool_decide (type t = task_type_pair)) eqn:Hpair;
        [| reflexivity].
      apply bool_decide_eq_true_1 in Hpair.
      unfold task_at in Htask.
      destruct (tasks st !! ind) as [t0 |] eqn:Ht0; [| discriminate].
      inversion Htask; subst t0.
      rewrite !(plan_sort_static st st' ind t) by (try assumption; congruence).
      reflexivity.
    - change (K ci cj = K ci' cj').
      transitivity (K (reset_updated ci) (reset_updated cj)); [reflexivity |].
      rewrite <- Hci, <- Hcj. reflexivity. }
  destruct (is_kick_drift_init_type (type t));
    [now apply plan_with_cell_static |].
  destruct (bool_decide (type t = task_type_timestep)); [| reflexivity].
  destruct (ci t) as [c |]; [| reflexivity]. f_equal.
  pose proof (cell_at_static st st' c Hs) as Hc.
  destruct (cell_at st c) as [c0 | m], (cell_at st' c) as [c0' | m'];
    try contradiction; [now apply Hactive | now subst].
Qed.

(** *** The pass is the run of its plan *)

Lemma bind_run (f g : state -> result state) (p q : list action) (st : state) :
  f st = run p st -> targeted st p ->
  (forall st', static st' = static st -> g st' = run q st') ->
  (st' ← f st; g st') = run (p ++ q) st.
Proof.
  intros Hf Hp Hg. rewrite run_app, Hf.
  destruct (run p st) as [st' | msg] eqn:Hrun; [| reflexivity].
  cbn. apply Hg. eapply run_static; eassumption.
Qed.

Lemma no_or_flags_targeted (st : state) acts :
  no_or_flags acts -> targeted st acts.
Proof. intros Hno t bits Hin. now apply Hno in Hin. Qed.

Lemma no_or_flags_app p q :
  no_or_flags p -> no_or_flags q -> no_or_flags (p ++ q).
Proof.
  intros Hp Hq t bits Hin. apply elem_of_app in Hin as [Hin | Hin];
    [eapply Hp | eapply Hq]; eassumption.
Qed.

Lemma no_or_flags_nil : no_or_flags [].
Proof. intros t bits Hin. now apply elem_of_nil in Hin. Qed.

Lemma no_or_flags_singleton a :
  (forall t bits, a <> OrFlags t bits) -> no_or_flags [a].
Proof.
  intros Ha t bits Hin. apply list_elem_of_singleton in Hin.
  symmetry in Hin. now apply Ha in Hin.
Qed.

Lemma no_or_flags_deref_activate p : no_or_flags (plan_deref_activate p).
Proof. destruct p; apply no_or_flags_singleton; discriminate. Qed.

Lemma no_or_flags_link (st : state) msg links node :
  no_or_flags (plan_link st msg links node).
Proof.
  unfold plan_link. destruct (find_link st links node) as [[l |] | m];
    apply no_or_flags_singleton; discriminate.
Qed.

Lemma no_or_flags_active e ind (c : cell) : no_or_flags (plan_active e ind c).
Proof.
  unfold plan_active. destruct (cell_is_active c e);
    [apply no_or_flags_singleton; discriminate | apply no_or_flags_nil].
Qed.

Lemma no_or_flags_with_drift (st : state) (cj : cell) :
  no_or_flags (plan_with_cell st (super cj) (fun super_cj =>
    match drift super_cj with
    | Some t => [Activate t]
    | None => [Abort "Drift task missing !"]
    end)).
Proof.
  unfold plan_with_cell. destruct (super cj) as [c |];
    [| apply no_or_flags_singleton; discriminate].
  destruct (cell_at st c) as [c0 | m];
    [| apply no_or_flags_singleton; discriminate].
  destruct (drift c0); apply no_or_flags_singleton; discriminate.
Qed.

Lemma no_or_flags_send_recv (st : state) e ci cj :
  no_or_flags (plan_send_recv st e ci cj).
Proof.
  unfold plan_send_recv.
  repeat apply no_or_flags_app;
    try apply no_or_flags_deref_activate; try apply no_or_flags_link;
    try apply no_or_flags_with_drift.
  - destruct (cell_is_active ci e); [| apply no_or_flags_nil].
    apply no_or_flags_app; apply no_or_flags_deref_activate.
  - destruct (cell_is_active cj e); [| apply no_or_flags_nil].
    apply no_or_flags_app; apply no_or_flags_link.
Qed.

Lemma targeted_sort (st : state) ind (c : cell) :
  cell_wf st c -> targeted st (plan_sort st ind c).
Proof.
  intros (Hsorts & _) t bits Hin. unfold plan_sort in Hin.
  destruct (task_at st ind) as [t0 | m];
    [| apply list_elem_of_singleton in Hin; discriminate].
  destruct (negb _); [| now apply elem_of_nil in Hin].
  destruct (sorts c) as [s |] eqn:Hs;
    [| apply list_elem_of_singleton in Hin; discriminate].
  apply elem_of_cons in Hin as [Hin | Hin].
  - inversion Hin; subst. now apply Hsorts.
  - apply list_elem_of_singleton in Hin. discriminate.
Qed.

Ltac run1 := cbn [mbind result_bind]; rewrite ?run_singleton; try reflexivity.

Lemma deref_activate_run p (st : state) :
  scheduler_activate_ptr p st = run (plan_deref_activate p) st.
Proof.
  unfold scheduler_activate_ptr.
  destruct p as [t |]; cbn [deref plan_deref_activate]; run1.
Qed.

Lemma activate_super_drift_run (c : cell) (st : state) :
  activate_super_drift c st = run (plan_super_drift st c) st.
Proof.
  unfold activate_super_drift, plan_super_drift, plan_with_cell.
  destruct (super c) as [sc |]; cbn [deref]; run1.
  destruct (cell_at st sc) as [c0 | m]; run1.
  destruct (drift c0); run1.
Qed.

Lemma plan_super_drift_static (st st' : state) c :
  static st = static st' -> plan_super_drift st c = plan_super_drift st' c.
Proof.
  intros Hs. apply plan_with_cell_static; [assumption |].
  intros c0 c0' Hc. now rewrite (f_equal drift Hc : drift c0' = drift c0).
Qed.

Lemma no_or_flags_super_drift (st : state) c :
  no_or_flags (plan_super_drift st c).
Proof.
  unfold plan_super_drift, plan_with_cell. destruct (super c) as [sc |];
    [| apply no_or_flags_singleton; discriminate].
  destruct (cell_at st sc) as [c0 | m];
    [| apply no_or_flags_singleton; discriminate].
  destruct (drift c0); apply no_or_flags_singleton; discriminate.
Qed.

Lemma activate_link_run msg links node (st : state) :
  activate_link msg links node st = run (plan_link st msg links node) st.
Proof.
  unfold activate_link, plan_link.
  destruct (find_link st links node) as [[l |] | m]; run1.
Qed.

Lemma activate_sort_run ind (c : cell) (st : state) :
  activate_sort ind c st = run (plan_sort st ind c) st.
Proof.
  unfold activate_sort, plan_sort.
  destruct (task_at st ind) as [t | m] eqn:Ht; run1.
  destruct (negb _); [| reflexivity].
  destruct (sorts c) as [s |]; cbn [deref]; run1.
Qed.

Lemma activate_send_recv_run e (ci cj : cell) (st : state) :
  activate_send_recv e ci cj st = run (plan_send_recv st e ci cj) st.
Proof.
  unfold activate_send_recv, plan_send_recv. fold (plan_super_drift st cj).
  apply bind_run;
    [apply deref_activate_run
    | apply no_or_flags_targeted, no_or_flags_deref_activate |].
  intros st1 Hs1.
  apply (bind_run
           (fun st => if cell_is_active ci e
                      then st ← scheduler_activate_ptr (recv_rho ci) st;
                           scheduler_activate_ptr (recv_ti ci) st
                      else Ok st)).
  { destruct (cell_is_active ci e); [| reflexivity].
    apply bind_run;
      [apply deref_activate_run
      | apply no_or_flags_targeted, no_or_flags_deref_activate |].
    intros st2 _. apply deref_activate_run. }
  { apply no_or_flags_targeted. destruct (cell_is_active ci e);
      [| apply no_or_flags_nil].
    apply no_or_flags_app; apply no_or_flags_deref_activate. }
  intros st2 Hs2.
  assert (Hs02 : static st = static st2) by congruence.
  apply (bind_run (activate_link _ (send_xv cj) (nodeID ci)));
    [rewrite (plan_link_static st st2) by assumption; apply activate_link_run
    | apply no_or_flags_targeted, no_or_flags_link |].
  intros st3 Hs3.
  assert (Hs03 : static st = static st3) by congruence.
  apply (bind_run (activate_super_drift cj));
    [rewrite (plan_super_drift_static st st3) by assumption;
     apply activate_super_drift_run
    | apply no_or_flags_targeted, no_or_flags_super_drift |].
  intros st4 Hs4.
  assert (Hs04 : static st = static st4) by congruence.
  destruct (cell_is_active cj e); [| reflexivity].
  apply (bind_run (activate_link _ (send_rho cj) (nodeID ci))
                  (activate_link _ (send_ti cj) (nodeID ci)));
    [rewrite (plan_link_static st st4) by assumption; apply activate_link_run
    | apply no_or_flags_targeted, no_or_flags_link |].
  intros st5 Hs5.
  rewrite (plan_link_static st st5) by congruence. apply activate_link_run.
Qed.



Lemma with_cell_run p (k : cell -> result state) kp (st : state) :
  (forall i c, p = Some i -> cells st !! i = Some c -> k c = run (kp c) st) ->
  (c ← deref p; c ← cell_at st c; k c) = run (plan_with_cell st p kp) st.
Proof.
  intros Hk. unfold plan_with_cell, cell_at.
  destruct p as [i |]; cbn [deref]; run1.
  destruct (cells st !! i) as [c |] eqn:Hc; run1. now apply (Hk i).
Qed.

Lemma active_run e ind (c : cell) (st : state) :
  (if cell_is_active c e then scheduler_activate ind st else Ok st) =
  run (plan_active e ind c) st.
Proof. unfold plan_active. destruct (cell_is_active c e); run1. Qed.

Lemma targeted_cons (st : state) a p :
  (forall t bits, a <> OrFlags t bits) -> targeted st p -> targeted st (a :: p).
Proof.
  intros Ha Hp t bits Hin. apply elem_of_cons in Hin as [Hin | Hin];
    [symmetry in Hin; now apply Ha in Hin | eauto].
Qed.

Lemma engine_marktasks_task_run e ind (st : state) :
  state_wf st -> engine_marktasks_task e ind st = run (plan e st ind) st.
Proof.
  intros Hwf. unfold Marktasks.engine_marktasks_task, Marktasks.plan.
  destruct (task_at st ind) as [t | m] eqn:Htask; run1.
  assert (Ht : tasks st !! ind = Some t).
  { unfold task_at in Htask. destruct (tasks st !! ind); [congruence | discriminate]. }
  destruct (is_single_cell_type (type t)).
  { apply with_cell_run. intros i c _ _. apply active_run. }
  destruct (is_pair_type (type t)) eqn:Hpair.
  { apply with_cell_run. intros i ci _ Hci.
    apply with_cell_run. intros j cj _ Hcj.
    set (b := tight t && too_much_movement fmax fadd fmul fgt space_maxreldx ci cj).
    rewrite run_app.
    assert (Hb : run (if b then [Rebuild] else []) st =
                 Ok (if b then set_rebuild_space st else st))
      by (destruct b; reflexivity).
    rewrite Hb. cbn [mbind result_bind].
    assert (Hs1 : static (if b then set_rebuild_space st else st) = static st)
      by (destruct b; reflexivity).
    clear Hb. revert Hs1. generalize (if b then set_rebuild_space st else st).
    intros st1 Hs1.
    destruct (cell_is_active ci e || cell_is_active cj e); [| reflexivity].
    rewrite run_cons. cbn [apply_action].
    destruct (scheduler_activate ind st1) as [st2 | m] eqn:Hact; [| reflexivity].
    cbn [mbind result_bind].
    assert (Hs2 : static st2 = static st1).
    { eapply update_task_static; [| exact Hact]. reflexivity. }
    assert (Hs02 : static st = static st2) by congruence.
    destruct (negb (bool_decide (subtype t = task_subtype_density)));
      [reflexivity |].
    assert (Hwf2 : state_wf st2) by (eapply state_wf_static; eassumption).
    destruct (static_eq_cell st st2 i ci Hs02 Hci) as (ci2 & Hci2 & Eci).
    destruct (static_eq_cell st st2 j cj Hs02 Hcj) as (cj2 & Hcj2 & Ecj).
    assert (Hwfi : cell_wf st2 ci).
    { eapply cell_wf_static; [reflexivity | symmetry; exact Eci |].
      eapply Hwf2, Hci2. }
    assert (Hwfj : cell_wf st2 cj).
    { eapply cell_wf_static; [reflexivity | symmetry; exact Ecj |].
      eapply Hwf2, Hcj2. }
    apply (bind_run
             (fun st => if bool_decide (type t = task_type_pair)
                        then st ← activate_sort ind ci st; activate_sort ind cj st
                        else Ok st)).
    { destruct (bool_decide (type t = task_type_pair)) eqn:Hp; [| reflexivity].
      apply bool_decide_eq_true_1 in Hp.
      rewrite !(plan_sort_static st st2 ind t) by (try assumption; congruence).
      apply bind_run; [apply activate_sort_run | now apply targeted_sort |].
      intros st3 Hs3.
      destruct (static_eq_task st st2 ind t Hs02 Ht) as (t2 & Ht2 & Et).
      rewrite (plan_sort_static st2 st3 ind t2)
        by (try assumption; try congruence;
            apply task_static_type in Et as (-> & _); congruence).
      apply activate_sort_run. }
    { destruct (bool_decide (type t = task_type_pair)) eqn:Hp;
        [| apply no_or_flags_targeted, no_or_flags_nil].
      apply bool_decide_eq_true_1 in Hp.
      rewrite !(plan_sort_static st st2 ind t) by (try assumption; congruence).
      apply targeted_app; now apply targeted_sort. }
    intros st3 Hs3.
    assert (Hs03 : static st = static st3) by congruence.
    rewrite !(plan_send_recv_static st st3) by assumption.
    destruct (with_mpi e); [| reflexivity].
    destruct (negb (nodeID ci =? engine_rank e));
      [apply activate_send_recv_run |].
    destruct (negb (nodeID cj =? engine_rank e));
      [apply activate_send_recv_run | reflexivity]. }
  destruct (is_kick_drift_init_type (type t)).
  { apply with_cell_run. intros i c _ _. apply active_run. }
  destruct (bool_decide (type t = task_type_timestep)).
  { destruct (Sched.ci t) as [c |]; cbn [deref]; run1.
    rewrite run_cons. cbn [apply_action]. unfold clear_updated, cell_at.
    destruct (cells st !! c) as [c0 |] eqn:Hc; run1.
    cbn [cells]. rewrite list_lookup_alter_eq, Hc. cbn.
    apply (active_run e ind (reset_updated c0)). }
  destruct (is_no_cell_type (type t)); run1.
Qed.

Lemma targeted_with_cell (st : state) p (k : cell -> list action) :
  (forall i c, cells st !! i = Some c -> targeted st (k c)) ->
  targeted st (plan_with_cell st p k).
Proof.
  intros Hk. unfold plan_with_cell, cell_at. destruct p as [i |];
    [| apply no_or_flags_targeted, no_or_flags_singleton; discriminate].
  destruct (cells st !! i) as [c |] eqn:Hc;
    [now apply (Hk i) |
     apply no_or_flags_targeted, no_or_flags_singleton; discriminate].
Qed.

Lemma targeted_plan e (st : state) ind :
  state_wf st -> targeted st (plan e st ind).
Proof.
  intros Hwf. unfold Marktasks.plan.
  destruct (task_at st ind) as [t | m];
    [| apply no_or_flags_targeted, no_or_flags_singleton; discriminate].
  destruct (is_single_cell_type (type t)).
  { apply targeted_with_cell. intros i c _.
    apply no_or_flags_targeted, no_or_flags_active. }
  destruct (is_pair_type (type t)).
  { apply targeted_with_cell. intros i ci Hci.
    apply targeted_with_cell. intros j cj Hcj.
    apply targeted_app.
    { apply no_or_flags_targeted. destruct (_ && _);
        [apply no_or_flags_singleton; discriminate | apply no_or_flags_nil]. }
    destruct (_ || _); [| apply no_or_flags_targeted, no_or_flags_nil].
    apply targeted_cons; [discriminate |].
    destruct (negb _); [apply no_or_flags_targeted, no_or_flags_nil |].
    apply targeted_app.
    { destruct (bool_decide _);
        [| apply no_or_flags_targeted, no_or_flags_nil].
      apply targeted_app; apply targeted_sort; eapply Hwf; eassumption. }
    apply no_or_flags_targeted.
    destruct (with_mpi e); [| apply no_or_flags_nil].
    destruct (negb _); [apply no_or_flags_send_recv |].
    destruct (negb _); [apply no_or_flags_send_recv | apply no_or_flags_nil]. }
  destruct (is_kick_drift_init_type (type t)).
  { apply targeted_with_cell. intros i c _.
    apply no_or_flags_targeted, no_or_flags_active. }
  destruct (bool_decide _).
  { apply no_or_flags_targeted. destruct (ci t) as [c |];
      [| apply no_or_flags_singleton; discriminate].
    intros t0 bits Hin. apply elem_of_cons in Hin as [Hin | Hin];
      [discriminate |].
    revert Hin. destruct (cell_at st c) as [c0 | m];
      [apply no_or_flags_active | apply no_or_flags_singleton; discriminate]. }
  apply no_or_flags_targeted.
  destruct (is_no_cell_type _);
    [apply no_or_flags_singleton; discriminate | apply no_or_flags_nil].
Qed.

Lemma mapper_error e l msg :
  foldl (fun (st : result state) ind => st ← st; engine_marktasks_task e ind st)
        (Error msg) l = Error msg.
Proof. induction l as [| i l IH]; [reflexivity | exact IH]. Qed.

Lemma mapper_run e (st0 : state) l (st : state) :
  state_wf st0 -> static st = static st0 ->
  foldl (fun (st : result state) ind => st ← st; engine_marktasks_task e ind st)
        (Ok st) l = run (l ≫= plan e st0) st.
Proof.
  intros Hwf0. revert st. induction l as [| i l IH]; intros st Hs;
    [reflexivity |].
  assert (Hwf : state_wf st) by (eapply state_wf_static; [symmetry |]; eassumption).
  rewrite bind_cons, run_app. cbn [foldl].
  change (Ok st ≫= (fun st1 => engine_marktasks_task e i st1))
    with (engine_marktasks_task e i st).
  rewrite (engine_marktasks_task_run e i st Hwf).
  rewrite (plan_static_eq e st st0 i Hs).
  destruct (run (plan e st0 i) st) as [st1 | msg] eqn:Hrun;
    [| apply mapper_error].
  cbn [mbind result_bind]. apply IH. rewrite <- Hs.
  eapply run_static; [| exact Hrun].
  eapply targeted_static; [symmetry; exact Hs |]. now apply targeted_plan.
Qed.

Lemma static_cleared (st : state) : static (cleared st) = static st.
Proof. reflexivity. Qed.

Lemma full_plan_static e (st st' : state) :
  static st = static st' -> full_plan e st = full_plan e st'.
Proof.
  intros Hs. unfold Marktasks.full_plan.
  assert (Hlen : length (tasks st) = length (tasks st')).
  { pose proof (f_equal (fun s => length (tasks s)) Hs) as Hl. cbn in Hl.
    now rewrite !length_fmap in Hl. }
  rewrite Hlen. generalize (seq 0 (length (tasks st'))). intros l.
  induction l as [| i l IH]; [reflexivity |].
  now rewrite !bind_cons, IH, (plan_static_eq e st st' i Hs).
Qed.

Lemma engine_marktasks_run e (st : state) :
  state_wf st ->
  engine_marktasks e st =
  (st' ← run (full_plan e st) (cleared st); Ok (rebuild_space st', st')).
Proof.
  intros Hwf. unfold Marktasks.engine_marktasks, Marktasks.engine_marktasks_mapper.
  cbn [tasks]. fold (cleared st).
  rewrite (mapper_run e st) by (assumption || reflexivity). reflexivity.
Qed.

(** *** What a run of stores does to the memory *)

Lemma lookup_alter_decide {A} (f : A -> A) (l : list A) i j x :
  l !! j = Some x ->
  alter f i l !! j = Some (if decide (i = j) then f x else x).
Proof.
  intros Hx. destruct (decide (i = j)) as [-> | Hne].
  - now rewrite list_lookup_alter_eq, Hx.
  - now rewrite list_lookup_alter_ne.
Qed.

Lemma apply_action_task a (st st' : state) j t :
  apply_action a st = Ok st' -> tasks st !! j = Some t ->
  tasks st' !! j = Some (act_on_task j t a).
Proof.
  intros Ha Ht. destruct a as [i | i bits | c | | msg]; cbn in Ha.
  - unfold scheduler_activate, update_task in Ha.
    destruct (tasks st !! i); [| discriminate]. inversion Ha; subst st'.
    now apply lookup_alter_decide.
  - unfold atomic_or_flags, update_task in Ha.
    destruct (tasks st !! i); [| discriminate]. inversion Ha; subst st'.
    now apply lookup_alter_decide.
  - unfold clear_updated in Ha.
    destruct (cells st !! c); [| discriminate]. now inversion Ha; subst st'.
  - now inversion Ha; subst st'.
  - discriminate.
Qed.

Lemma run_task acts (st st' : state) j t :
  run acts st = Ok st' -> tasks st !! j = Some t ->
  tasks st' !! j = Some (foldl (act_on_task j) t acts).
Proof.
  revert st t. induction acts as [| a acts IH]; intros st t Hrun Ht.
  - inversion Hrun; now subst st'.
  - rewrite run_cons in Hrun. apply result_bind_ok in Hrun as (st1 & Ha & Hrun).
    cbn [foldl]. eapply IH; [exact Hrun |]. eapply apply_action_task; eassumption.
Qed.

Lemma act_on_task_skip_false j t a :
  skip t = false -> skip (act_on_task j t a) = false.
Proof.
  intros Hs. destruct a as [i | i bits | | |]; cbn; try assumption;
    destruct (decide (i = j)); assumption || reflexivity.
Qed.

Lemma foldl_skip_false j t acts :
  skip t = false -> skip (foldl (act_on_task j) t acts) = false.
Proof.
  revert t. induction acts as [| a acts IH]; intros t Hs; [exact Hs |].
  cbn [foldl]. now apply IH, act_on_task_skip_false.
Qed.

Lemma foldl_skip_activated j t acts :
  Activate j ∈ acts -> skip (foldl (act_on_task j) t acts) = false.
Proof.
  revert t. induction acts as [| a acts IH]; intros t Hin;
    [now apply elem_of_nil in Hin |].
  cbn [foldl]. apply elem_of_cons in Hin as [<- | Hin]; [| now apply IH].
  apply foldl_skip_false. cbn. now rewrite decide_True.
Qed.

Lemma foldl_skip_kept j t acts :
  Activate j ∉ acts -> skip (foldl (act_on_task j) t acts) = skip t.
Proof.
  revert t. induction acts as [| a acts IH]; intros t Hin; [reflexivity |].
  cbn [foldl]. rewrite IH by (intros Hin'; apply Hin; now right).
  destruct a as [i | i bits | | |]; cbn; try reflexivity;
    destruct (decide (i = j)) as [-> | Hne]; try reflexivity.
  exfalso. apply Hin. left.
Qed.

Lemma lor_land_same a b : Z.land (Z.lor a b) b = b.
Proof.
  apply Z.bits_inj'. intros n Hn. rewrite Z.land_spec, Z.lor_spec.
  destruct (Z.testbit a n), (Z.testbit b n); reflexivity.
Qed.

Lemma land_lor_mono a b c : Z.land a b = b -> Z.land (Z.lor a c) b = b.
Proof.
  intros Hab. apply Z.bits_inj'. intros n Hn.
  pose proof (f_equal (fun x => Z.testbit x n) Hab) as Hbit. cbn in Hbit.
  rewrite Z.land_spec in Hbit. rewrite Z.land_spec, Z.lor_spec.
  destruct (Z.testbit a n), (Z.testbit b n), (Z.testbit c n);
    cbn in *; congruence.
Qed.

Lemma act_on_task_flags_kept j t a bits :
  Z.land (flags t) bits = bits ->
  Z.land (flags (act_on_task j t a)) bits = bits.
Proof.
  intros Hf. destruct a as [i | i b | | |]; cbn; try assumption;
    destruct (decide (i = j)); try assumption.
  cbn. now apply land_lor_mono.
Qed.

Lemma foldl_flags_kept j t acts bits :
  Z.land (flags t) bits = bits ->
  Z.land (flags (foldl (act_on_task j) t acts)) bits = bits.
Proof.
  revert t. induction acts as [| a acts IH]; intros t Hf; [exact Hf |].
  cbn [foldl]. now apply IH, act_on_task_flags_kept.
Qed.

Lemma foldl_flags_set j t acts bits :
  OrFlags j bits ∈ acts ->
  Z.land (flags (foldl (act_on_task j) t acts)) bits = bits.
Proof.
  revert t. induction acts as [| a acts IH]; intros t Hin;
    [now apply elem_of_nil in Hin |].
  cbn [foldl]. apply elem_of_cons in Hin as [<- | Hin]; [| now apply IH].
  apply foldl_flags_kept. cbn. rewrite decide_True by reflexivity.
  apply lor_land_same.
Qed.

Lemma run_rebuild_space acts (st st' : state) :
  run acts st = Ok st' ->
  rebuild_space st' = if wants_rebuild acts then 1 else rebuild_space st.
Proof.
  revert st. induction acts as [| a acts IH]; intros st Hrun.
  - inversion Hrun; now subst st'.
  - rewrite run_cons in Hrun. apply result_bind_ok in Hrun as (st1 & Ha & Hrun).
    rewrite (IH st1 Hrun). cbn [wants_rebuild existsb].
    fold (wants_rebuild acts).
    destruct a as [i | i bits | c | | msg]; cbn in Ha |- *;
      try discriminate.
    + unfold scheduler_activate, update_task in Ha.
      destruct (tasks st !! i); [| discriminate]. now inversion Ha.
    + unfold atomic_or_flags, update_task in Ha.
      destruct (tasks st !! i); [| discriminate]. now inversion Ha.
    + unfold clear_updated in Ha.
      destruct (cells st !! c); [| discriminate]. now inversion Ha.
    + inversion Ha. now destruct (wants_rebuild acts).
Qed.

Lemma wants_rebuild_elem acts : wants_rebuild acts = true <-> Rebuild ∈ acts.
Proof.
  induction acts as [| a acts IH]; cbn.
  - split; [discriminate | intros Hin; now apply elem_of_nil in Hin].
  - rewrite elem_of_cons, <- IH. fold (wants_rebuild acts).
    destruct a; cbn; split; intros H; try (now right); try (now left);
      destruct H as [H | H]; congruence.
Qed.

Lemma run_no_abort acts (st st' : state) msg :
  run acts st = Ok st' -> Abort msg ∉ acts.
Proof.
  revert st. induction acts as [| a acts IH]; intros st Hrun Hin;
    [now apply elem_of_nil in Hin |].
  rewrite run_cons in Hrun. apply result_bind_ok in Hrun as (st1 & Ha & Hrun).
  apply elem_of_cons in Hin as [<- | Hin]; [discriminate |].
  now apply (IH st1).
Qed.

(** *** Stores that change nothing any more *)

Lemma apply_action_cell a (st st' : state) c c0 :
  apply_action a st = Ok st' -> cells st !! c = Some c0 ->
  exists c1, cells st' !! c = Some c1 /\ (reset_updated c0 = c0 -> c1 = c0) /\
             (a = ClearUpdated c -> reset_updated c1 = c1).
Proof.
  intros Ha Hc. destruct a as [i | i bits | c' | | msg]; cbn in Ha.
  - unfold scheduler_activate, update_task in Ha.
    destruct (tasks st !! i); [| discriminate]. inversion Ha; subst st'.
    exists c0. now repeat split.
  - unfold atomic_or_flags, update_task in Ha.
    destruct (tasks st !! i); [| discriminate]. inversion Ha; subst st'.
    exists c0. now repeat split.
  - unfold clear_updated in Ha.
    destruct (cells st !! c'); [| discriminate]. inversion Ha; subst st'.
    cbn [cells]. rewrite (lookup_alter_decide _ _ c' c c0 Hc).
    destruct (decide (c' = c)) as [-> | Hne].
    + exists (reset_updated c0). repeat split. congruence.
    + exists c0. repeat split. congruence.
  - inversion Ha; subst st'. exists c0. now repeat split.
  - discriminate.
Qed.

Lemma lor_absorbed f b b' : Z.lor f b = f -> Z.lor (Z.lor f b') b = Z.lor f b'.
Proof.
  intros Hf. rewrite <- Z.lor_assoc, (Z.lor_comm b' b), Z.lor_assoc.
  now rewrite Hf.
Qed.

Lemma apply_absorbed a (st st' : state) :
  apply_action a st = Ok st' -> absorbed a st'.
Proof.
  intros Ha. destruct a as [i | i bits | c | | msg]; cbn.
  - cbn in Ha. unfold scheduler_activate, update_task in Ha.
    destruct (tasks st !! i) as [t |] eqn:Ht; [| discriminate].
    inversion Ha; subst st'. exists (set_skip false t).
    cbn [tasks]. now rewrite list_lookup_alter_eq, Ht.
  - cbn in Ha. unfold atomic_or_flags, update_task in Ha.
    destruct (tasks st !! i) as [t |] eqn:Ht; [| discriminate].
    inversion Ha; subst st'. exists (or_flags bits t).
    cbn [tasks]. rewrite list_lookup_alter_eq, Ht. split; [reflexivity |].
    cbn. now rewrite <- Z.lor_assoc, Z.lor_diag.
  - cbn in Ha. unfold clear_updated in Ha.
    destruct (cells st !! c) as [c0 |] eqn:Hc; [| discriminate].
    inversion Ha; subst st'. exists (reset_updated c0).
    cbn [cells]. now rewrite list_lookup_alter_eq, Hc.
  - exact I.
  - discriminate.
Qed.

Lemma absorbed_step a b (st st' : state) :
  absorbed a st -> apply_action b st = Ok st' -> absorbed a st'.
Proof.
  intros Habs Hb. destruct a as [i | i bits | c | | msg]; cbn in Habs |- *.
  - destruct Habs as (t & Ht & Hs). eexists. split.
    + eapply apply_action_task; eassumption.
    + now apply act_on_task_skip_false.
  - destruct Habs as (t & Ht & Hf). eexists. split.
    + eapply apply_action_task; eassumption.
    + destruct b as [i' | i' b' | | |]; cbn; try assumption;
        destruct (decide (i' = i)); try assumption.
      cbn. now apply lor_absorbed.
  - destruct Habs as (c0 & Hc & Hr).
    destruct (apply_action_cell b st st' c c0 Hb Hc) as (c1 & Hc1 & Heq & _).
    exists c1. split; [assumption |]. now rewrite (Heq Hr).
  - exact I.
  - contradiction.
Qed.

Lemma absorbed_run a acts (st st' : state) :
  absorbed a st -> run acts st = Ok st' -> absorbed a st'.
Proof.
  revert st. induction acts as [| b acts IH]; intros st Habs Hrun.
  - inversion Hrun; now subst st'.
  - rewrite run_cons in Hrun. apply result_bind_ok in Hrun as (st1 & Hb & Hrun).
    eapply IH; [| exact Hrun]. eapply absorbed_step; eassumption.
Qed.

Lemma run_absorbed acts (st st' : state) :
  run acts st = Ok st' -> Forall (fun a => absorbed a st') acts.
Proof.
  revert st. induction acts as [| a acts IH]; intros st Hrun; [constructor |].
  rewrite run_cons in Hrun. apply result_bind_ok in Hrun as (st1 & Ha & Hrun).
  constructor; [| eapply IH; exact Hrun].
  eapply absorbed_run; [| exact Hrun]. eapply apply_absorbed; exact Ha.
Qed.

Lemma absorbed_same_mem a (st st' : state) :
  tasks st' = tasks st -> cells st' = cells st ->
  absorbed a st -> absorbed a st'.
Proof. intros Ht Hc. destruct a; cbn; now rewrite ?Ht, ?Hc. Qed.

Lemma absorbed_noop a (st : state) :
  absorbed a st ->
  apply_action a st =
  Ok (match a with Rebuild => set_rebuild_space st | _ => st end).
Proof.
  intros Habs. destruct st as [ts cs rb].
  destruct a as [i | i bits | c | | msg]; cbn in Habs |- *.
  - destruct Habs as (t & Ht & Hs).
    unfold scheduler_activate, update_task. cbn in *. rewrite Ht.
    do 2 f_equal. apply alter_same. intros x Hx.
    assert (x = t) by congruence. subst x. destruct t; cbn in Hs; subst.
    reflexivity.
  - destruct Habs as (t & Ht & Hf).
    unfold atomic_or_flags, update_task. cbn in *. rewrite Ht.
    do 2 f_equal. apply alter_same. intros x Hx.
    assert (x = t) by congruence. subst x. destruct t; cbn in Hf.
    unfold or_flags. cbn. now rewrite Hf.
  - destruct Habs as (c0 & Hc & Hr).
    unfold clear_updated. cbn in *. rewrite Hc.
    do 2 f_equal. apply alter_same. intros x Hx. congruence.
  - reflexivity.
  - contradiction.
Qed.

Lemma run_of_absorbed acts (st : state) :
  Forall (fun a => absorbed a st) acts ->
  run acts st =
  Ok (if wants_rebuild acts then set_rebuild_space st else st).
Proof.
  revert st. induction acts as [| a acts IH]; intros st Hall; [reflexivity |].
  inversion Hall as [| a' acts' Ha Hacts]; subst.
  rewrite run_cons, (absorbed_noop a st Ha). cbn [mbind result_bind].
  cbn [wants_rebuild existsb]. fold (wants_rebuild acts).
  destruct a; cbn [orb]; try (now apply IH).
  rewrite IH.
  - now destruct (wants_rebuild acts).
  - eapply Forall_impl; [exact Hacts |]. intros a.
    now apply absorbed_same_mem.
Qed.

(** *** The stores of a plan *)

Lemma plan_with_cell_some (st : state) p (k : cell -> list action) c :
  task_cell st p = Some c -> plan_with_cell st p k = k c.
Proof.
  unfold task_cell, plan_with_cell, cell_at. destruct p as [i |]; cbn;
    [| discriminate].
  now intros ->.
Qed.

Lemma plan_with_cell_none (st : state) p (k : cell -> list action) :
  task_cell st p = None -> exists m, plan_with_cell st p k = [Abort m].
Proof.
  unfold task_cell, plan_with_cell, cell_at. destruct p as [i |]; cbn;
    [| eauto].
  intros ->. eauto.
Qed.

Lemma wants_rebuild_app p q :
  wants_rebuild (p ++ q) = wants_rebuild p || wants_rebuild q.
Proof. apply existsb_app. Qed.

Lemma wants_rebuild_active e ind (c : cell) :
  wants_rebuild (plan_active e ind c) = false.
Proof. unfold plan_active. now destruct (cell_is_active c e). Qed.

Lemma wants_rebuild_deref_activate p :
  wants_rebuild (plan_deref_activate p) = false.
Proof. now destruct p. Qed.

Lemma wants_rebuild_link (st : state) msg links node :
  wants_rebuild (plan_link st msg links node) = false.
Proof. unfold plan_link. now destruct (find_link st links node) as [[l |] | m]. Qed.

Lemma wants_rebuild_sort (st : state) ind (c : cell) :
  wants_rebuild (plan_sort st ind c) = false.
Proof.
  unfold plan_sort. destruct (task_at st ind); [| reflexivity].
  destruct (negb _); [| reflexivity]. now destruct (sorts c).
Qed.

Lemma wants_rebuild_send_recv (st : state) e (ci cj : cell) :
  wants_rebuild (plan_send_recv st e ci cj) = false.
Proof.
  unfold plan_send_recv.
  rewrite !wants_rebuild_app, !wants_rebuild_deref_activate,
    !wants_rebuild_link.
  assert (H1 : wants_rebuild
            (if cell_is_active ci e
             then plan_deref_activate (recv_rho ci) ++
                  plan_deref_activate (recv_ti ci) else []) = false).
  { destruct (cell_is_active ci e); [| reflexivity].
    now rewrite wants_rebuild_app, !wants_rebuild_deref_activate. }
  assert (H2 : wants_rebuild
            (if cell_is_active cj e
             then plan_link st "Missing link to send_rho task." (send_rho cj)
                    (nodeID ci) ++
                  plan_link st "Missing link to send_ti task." (send_ti cj)
                    (nodeID ci) else []) = false).
  { destruct (cell_is_active cj e); [| reflexivity].
    now rewrite wants_rebuild_app, !wants_rebuild_link. }
  rewrite H1, H2. cbn [orb].
  unfold plan_with_cell. destruct (super cj) as [i |]; [| reflexivity].
  destruct (cell_at st i) as [c |]; [| reflexivity]. now destruct (drift c).
Qed.

Lemma wants_rebuild_with_cell (st : state) p (k : cell -> list action) :
  wants_rebuild (plan_with_cell st p k) =
  match task_cell st p with
  | Some c => wants_rebuild (k c)
  | None => false
  end.
Proof.
  unfold task_cell, plan_with_cell, cell_at. destruct p as [i |]; cbn;
    [| reflexivity].
  now destruct (cells st !! i).
Qed.

Lemma single_not_pair ty :
  is_single_cell_type ty = true -> is_pair_type ty = false.
Proof. now destruct ty. Qed.

Lemma wants_rebuild_plan e (st : state) ind t :
  tasks st !! ind = Some t ->
  wants_rebuild (plan e st ind) =
  asks_rebuild fmax fadd fmul fgt space_maxreldx st t.
Proof.
  intros Ht. unfold Marktasks.plan, task_at, Marktasks.asks_rebuild.
  rewrite Ht.
  destruct (is_single_cell_type (type t)) eqn:Hs.
  { rewrite (single_not_pair _ Hs), wants_rebuild_with_cell. cbn.
    destruct (task_cell st (ci t)); [apply wants_rebuild_active | reflexivity]. }
  destruct (is_pair_type (type t)) eqn:Hp.
  { rewrite wants_rebuild_with_cell. cbn [andb].
    destruct (task_cell st (ci t)) as [ci |];
      [| now destruct (tight t)].
    rewrite wants_rebuild_with_cell.
    destruct (task_cell st (cj t)) as [cj |];
      [| now destruct (tight t)].
    rewrite wants_rebuild_app.
    match goal with
    | |- _ || wants_rebuild ?tail = _ =>
      assert (Htail : wants_rebuild tail = false)
    end.
    { destruct (_ || _); [| reflexivity].
      cbn [wants_rebuild existsb orb]. fold wants_rebuild.
      destruct (negb _); [reflexivity |].
      change (existsb _ ?l) with (wants_rebuild l).
      rewrite wants_rebuild_app.
      assert (H1 : wants_rebuild
                (if bool_decide (type t = task_type_pair)
                 then plan_sort st ind ci ++ plan_sort st ind cj
                 else []) = false).
      { destruct (bool_decide _); [| reflexivity].
        now rewrite wants_rebuild_app, !wants_rebuild_sort. }
      rewrite H1. cbn [orb].
      destruct (with_mpi e); [| reflexivity].
      destruct (negb _); [apply wants_rebuild_send_recv |].
      destruct (negb _); [apply wants_rebuild_send_recv | reflexivity]. }
    rewrite Htail, orb_false_r.
    destruct (tight t); cbn [andb]; [| reflexivity].
    now destruct (too_much_movement _ _ _ _ _ _ _). }
  cbn [andb].
  destruct (is_kick_drift_init_type (type t)).
  { rewrite wants_rebuild_with_cell.
    destruct (task_cell st (ci t)); [apply wants_rebuild_active | reflexivity]. }
  destruct (bool_decide _).
  { destruct (ci t) as [c |]; [| reflexivity].
    cbn [wants_rebuild existsb orb].
    destruct (cell_at st c); [apply wants_rebuild_active | reflexivity]. }
  now destruct (is_no_cell_type _).
Qed.

Lemma wants_rebuild_bind {A} (f : A -> list action) (l : list A) :
  wants_rebuild (l ≫= f) = existsb (fun i => wants_rebuild (f i)) l.
Proof.
  induction l as [| i l IH]; [reflexivity |].
  now rewrite bind_cons, wants_rebuild_app, IH.
Qed.

Lemma wants_rebuild_full_plan e (st : state) :
  wants_rebuild (full_plan e st) = true <->
  exists ind t, tasks st !! ind = Some t /\
                asks_rebuild fmax fadd fmul fgt space_maxreldx st t = true.
Proof.
  unfold Marktasks.full_plan. rewrite wants_rebuild_bind, existsb_exists.
  split.
  - intros (ind & Hin & Hw). apply in_seq in Hin as [_ Hlt]. cbn in Hlt.
    destruct (lookup_lt_is_Some_2 (tasks st) ind Hlt) as (t & Ht).
    exists ind, t. split; [exact Ht |].
    now rewrite <- (wants_rebuild_plan e st ind t Ht).
  - intros (ind & t & Ht & Ha). exists ind. split.
    + apply in_seq. apply lookup_lt_Some in Ht. cbn. lia.
    + now rewrite (wants_rebuild_plan e st ind t Ht).
Qed.

(** *** Which tasks a plan activates *)

Lemma elem_with_cell a (st : state) p (k : cell -> list action) :
  a ∈ plan_with_cell st p k -> (forall m, a <> Abort m) ->
  exists c, task_cell st p = Some c /\ a ∈ k c.
Proof.
  intros Hin Ha. destruct (task_cell st p) as [c |] eqn:Hc.
  - exists c. split; [reflexivity |].
    now rewrite (plan_with_cell_some st p k c Hc) in Hin.
  - destruct (plan_with_cell_none st p k Hc) as (m & Hm). rewrite Hm in Hin.
    apply list_elem_of_singleton in Hin. now apply Ha in Hin.
Qed.

Lemma activate_in_active e ind (c : cell) j :
  Activate j ∈ plan_active e ind c -> j = ind /\ cell_is_active c e = true.
Proof.
  unfold plan_active. destruct (cell_is_active c e); intros Hin.
  - apply list_elem_of_singleton in Hin. now inversion Hin.
  - now apply elem_of_nil in Hin.
Qed.

Lemma activate_in_sort (st : state) ind (c : cell) j :
  Activate j ∈ plan_sort st ind c -> sorts c = Some j.
Proof.
  unfold plan_sort. destruct (task_at st ind) as [t | m];
    [| intros Hin; apply list_elem_of_singleton in Hin; discriminate].
  destruct (negb _); [| intros Hin; now apply elem_of_nil in Hin].
  destruct (sorts c) as [s |];
    [| intros Hin; apply list_elem_of_singleton in Hin; discriminate].
  intros Hin. apply elem_of_cons in Hin as [Hin | Hin]; [discriminate |].
  apply list_elem_of_singleton in Hin. now inversion Hin.
Qed.

Lemma activate_in_deref p j :
  Activate j ∈ plan_deref_activate p -> p = Some j.
Proof.
  destruct p as [i |]; intros Hin; apply list_elem_of_singleton in Hin;
    now inversion Hin.
Qed.

Lemma find_link_elem (st : state) links node l :
  find_link st links node = Ok (Some l) -> l ∈ links.
Proof.
  induction links as [| l0 next IH]; [discriminate |].
  cbn [find_link]. intros Hf.
  apply result_bind_ok in Hf as (t & _ & Hf).
  apply result_bind_ok in Hf as (c & _ & Hf).
  apply result_bind_ok in Hf as (c0 & _ & Hf).
  destruct (negb _).
  - right. now apply IH.
  - inversion Hf. left.
Qed.

Lemma activate_in_link (st : state) msg links node j :
  Activate j ∈ plan_link st msg links node -> j ∈ links.
Proof.
  unfold plan_link.
  destruct (find_link st links node) as [[l |] | m] eqn:Hf; intros Hin;
    apply list_elem_of_singleton in Hin; inversion Hin; subst.
  eapply find_link_elem; eassumption.
Qed.

Lemma activate_in_send_recv (st : state) e (ci cj : cell) j :
  Activate j ∈ plan_send_recv st e ci cj ->
  (recv_xv ci = Some j \/ recv_rho ci = Some j \/ recv_ti ci = Some j) \/
  (j ∈ send_xv cj \/ j ∈ send_rho cj \/ j ∈ send_ti cj) \/
  (exists sc, task_cell st (super cj) = Some sc /\ drift sc = Some j).
Proof.
  unfold plan_send_recv. rewrite !elem_of_app.
  intros [Hin | [Hin | [Hin | [Hin | Hin]]]].
  - apply activate_in_deref in Hin. tauto.
  - destruct (cell_is_active ci e); [| now apply elem_of_nil in Hin].
    apply elem_of_app in Hin as [Hin | Hin]; apply activate_in_deref in Hin;
      tauto.
  - apply activate_in_link in Hin. tauto.
  - apply elem_with_cell in Hin as (sc & Hsc & Hin); [| discriminate].
    right. right. exists sc. split; [exact Hsc |].
    destruct (drift sc) as [d |]; apply list_elem_of_singleton in Hin;
      now inversion Hin.
  - destruct (cell_is_active cj e); [| now apply elem_of_nil in Hin].
    apply elem_of_app in Hin as [Hin | Hin]; apply activate_in_link in Hin;
      tauto.
Qed.

Lemma task_cell_lookup (st : state) p c :
  task_cell st p = Some c -> exists i, p = Some i /\ cells st !! i = Some c.
Proof. unfold task_cell. destruct p as [i |]; cbn; eauto. discriminate. Qed.

Lemma cell_active_some e (st : state) p c :
  task_cell st p = Some c -> cell_active e st p = cell_is_active c e.
Proof. unfold cell_active. now intros ->. Qed.

Lemma pair_not_others ty :
  is_pair_type ty = true ->
  is_single_cell_type ty = false /\ is_kick_drift_init_type ty = false /\
  bool_decide (ty = task_type_timestep) = false.
Proof. now destruct ty. Qed.

Lemma wakes_send_recv_link_type (st : state) e (cf cl : cell) j tj :
  state_wf st -> cell_wf st cf -> cell_wf st cl ->
  tasks st !! j = Some tj ->
  wakes_send_recv e st cf cl j -> is_link_type (type tj) = true.
Proof.
  intros Hwf (_ & _ & Hrecv & _) (_ & _ & _ & Hsend) Htj
    [H | [(_ & [H | H]) | [H | [(sc & Hsc & Hd) | (_ & [H | H])]]]].
  - now rewrite (Hrecv j (or_introl H) tj Htj).
  - now rewrite (Hrecv j (or_intror (or_introl H)) tj Htj).
  - now rewrite (Hrecv j (or_intror (or_intror H)) tj Htj).
  - apply find_link_elem in H.
    now rewrite (Hsend j (or_introl H) tj Htj).
  - apply task_cell_lookup in Hsc as (i & _ & Hsc).
    destruct (Hwf i sc Hsc) as (_ & Hdrift & _).
    now rewrite (Hdrift j Hd tj Htj).
  - apply find_link_elem in H.
    now rewrite (Hsend j (or_intror (or_introl H)) tj Htj).
  - apply find_link_elem in H.
    now rewrite (Hsend j (or_intror (or_intror H)) tj Htj).
Qed.

(** The tasks that are woken on behalf of another are sort, send, recv and
    drift tasks. *)
Lemma wakes_link_type e (st : state) t j tj :
  state_wf st -> tasks st !! j = Some tj -> wakes e st t j ->
  is_link_type (type tj) = true.
Proof.
  intros Hwf Htj (_ & ci & cj & Hci & Hcj & H).
  apply task_cell_lookup in Hci as (i & _ & Hci).
  apply task_cell_lookup in Hcj as (i' & _ & Hcj).
  pose proof (Hwf i ci Hci) as Hwfi. pose proof (Hwf i' cj Hcj) as Hwfj.
  destruct H as [(_ & _ & Hs) | [(_ & _ & Hs) | (_ & [(_ & H) | (_ & _ & H)])]].
  - destruct Hwfi as (Hsorts & _). now rewrite (Hsorts j Hs tj Htj).
  - destruct Hwfj as (Hsorts & _). now rewrite (Hsorts j Hs tj Htj).
  - eapply wakes_send_recv_link_type; try exact H; eassumption.
  - eapply wakes_send_recv_link_type; try exact H; eassumption.
Qed.

Lemma activate_in_deref_iff p j :
  Activate j ∈ plan_deref_activate p <-> p = Some j.
Proof.
  split; [apply activate_in_deref |]. intros ->. left.
Qed.

Lemma activate_in_link_iff (st : state) msg links node j :
  Activate j ∈ plan_link st msg links node <->
  find_link st links node = Ok (Some j).
Proof.
  unfold plan_link.
  destruct (find_link st links node) as [[l |] | m]; split; intros H;
    try discriminate;
    try (apply list_elem_of_singleton in H; inversion H; subst; reflexivity).
  inversion H. left.
Qed.

Lemma activate_in_sort_iff (st : state) ind t (c : cell) j :
  tasks st !! ind = Some t ->
  Activate j ∈ plan_sort st ind c <->
  Z.land (sorted c) (Z.shiftl 1 (flags t)) = 0 /\ sorts c = Some j.
Proof.
  intros Ht. unfold plan_sort, task_at. rewrite Ht. unfold truthy.
  rewrite negb_involutive.
  destruct (Z.eqb_spec (Z.land (sorted c) (Z.shiftl 1 (flags t))) 0)
    as [Hz | Hnz].
  - destruct (sorts c) as [s |]; split.
    + intros Hin. apply elem_of_cons in Hin as [Hin | Hin]; [discriminate |].
      apply list_elem_of_singleton in Hin. inversion Hin. now split.
    + intros (_ & [= ->]). right. left.
    + intros Hin. apply list_elem_of_singleton in Hin. discriminate.
    + intros (_ & ?). discriminate.
  - split; [intros Hin; now apply elem_of_nil in Hin | intros (Hz & _); contradiction].
Qed.

Lemma or_flags_in_sort_iff (st : state) ind t (c : cell) j bits :
  tasks st !! ind = Some t ->
  OrFlags j bits ∈ plan_sort st ind c <->
  bits = Z.shiftl 1 (flags t) /\
  Z.land (sorted c) (Z.shiftl 1 (flags t)) = 0 /\ sorts c = Some j.
Proof.
  intros Ht. unfold plan_sort, task_at. rewrite Ht. unfold truthy.
  rewrite negb_involutive.
  destruct (Z.eqb_spec (Z.land (sorted c) (Z.shiftl 1 (flags t))) 0)
    as [Hz | Hnz].
  - destruct (sorts c) as [s |]; split.
    + intros Hin. apply elem_of_cons in Hin as [Hin | Hin].
      * inversion Hin. now repeat split.
      * apply list_elem_of_singleton in Hin. discriminate.
    + intros (-> & _ & [= ->]). left.
    + intros Hin. apply list_elem_of_singleton in Hin. discriminate.
    + intros (_ & _ & ?). discriminate.
  - split; [intros Hin; now apply elem_of_nil in Hin
           | intros (_ & Hz & _); contradiction].
Qed.

Lemma activate_in_super_drift_iff (st : state) (c : cell) j :
  Activate j ∈ plan_super_drift st c <->
  exists sc, task_cell st (super c) = Some sc /\ drift sc = Some j.
Proof.
  unfold plan_super_drift. split.
  - intros Hin. apply elem_with_cell in Hin as (sc & Hsc & Hin);
      [| discriminate].
    exists sc. split; [exact Hsc |].
    destruct (drift sc) as [d |]; apply list_elem_of_singleton in Hin;
      now inversion Hin.
  - intros (sc & Hsc & Hd).
    rewrite (plan_with_cell_some _ _ _ sc Hsc), Hd. left.
Qed.

Lemma activate_in_send_recv_iff (st : state) e (ci cj : cell) j :
  Activate j ∈ plan_send_recv st e ci cj <-> wakes_send_recv e st ci cj j.
Proof.
  unfold plan_send_recv, wakes_send_recv. rewrite !elem_of_app.
  rewrite activate_in_deref_iff, activate_in_link_iff.
  pose proof (activate_in_super_drift_iff st cj j) as H4.
  unfold plan_super_drift in H4. rewrite H4. clear H4.
  assert (H2 : Activate j ∈
                 (if cell_is_active ci e
                  then plan_deref_activate (recv_rho ci) ++
                       plan_deref_activate (recv_ti ci)
                  else []) <->
               cell_is_active ci e = true /\
               (recv_rho ci = Some j \/ recv_ti ci = Some j)).
  { destruct (cell_is_active ci e).
    - rewrite elem_of_app, !activate_in_deref_iff. tauto.
    - rewrite elem_of_nil. split; [tauto | intros (? & _); discriminate]. }
  assert (H5 : Activate j ∈
                 (if cell_is_active cj e
                  then plan_link st "Missing link to send_rho task."
                         (send_rho cj) (nodeID ci) ++
                       plan_link st "Missing link to send_ti task."
                         (send_ti cj) (nodeID ci)
                  else []) <->
               cell_is_active cj e = true /\
               (find_link st (send_rho cj) (nodeID ci) = Ok (Some j) \/
                find_link st (send_ti cj) (nodeID ci) = Ok (Some j))).
  { destruct (cell_is_active cj e).
    - rewrite elem_of_app, !activate_in_link_iff. tauto.
    - rewrite elem_of_nil. split; [tauto | intros (? & _); discriminate]. }
  rewrite H2, H5. tauto.
Qed.

(** The stores of the visit of a pair task whose two cells exist. *)
Lemma plan_pair e (st : state) ind t (ci cj : cell) :
  tasks st !! ind = Some t -> is_pair_type (type t) = true ->
  task_cell st (Sched.ci t) = Some ci -> task_cell st (Sched.cj t) = Some cj ->
  plan e st ind =
  (if tight t && too_much_movement fmax fadd fmul fgt space_maxreldx ci cj
   then [Rebuild] else []) ++
  (if cell_is_active ci e || cell_is_active cj e then
     Activate ind ::
     (if negb (bool_decide (subtype t = task_subtype_density)) then []
      else
        (if bool_decide (type t = task_type_pair)
         then plan_sort st ind ci ++ plan_sort st ind cj else []) ++
        (if with_mpi e then
           if negb (nodeID ci =? engine_rank e) then
             plan_send_recv st e ci cj
           else if negb (nodeID cj =? engine_rank e) then
             plan_send_recv st e cj ci
           else []
         else []))
   else []).
Proof.
  intros Ht Hp Hci Hcj. unfold Marktasks.plan, task_at. rewrite Ht.
  destruct (pair_not_others _ Hp) as (Hs & _). rewrite Hs, Hp.
  rewrite (plan_with_cell_some _ _ _ ci Hci).
  now rewrite (plan_with_cell_some _ _ _ cj Hcj).
Qed.

(** The stores of the visit of a density pair that activate a task other
    than the pair: those of the tasks that the pair wakes. *)
Lemma activate_in_woken e (st : state) ind t (ci cj : cell) j :
  tasks st !! ind = Some t ->
  Activate j ∈
    (if bool_decide (type t = task_type_pair)
     then plan_sort st ind ci ++ plan_sort st ind cj else []) ++
    (if with_mpi e then
       if negb (nodeID ci =? engine_rank e) then plan_send_recv st e ci cj
       else if negb (nodeID cj =? engine_rank e) then plan_send_recv st e cj ci
       else []
     else []) <->
  wakes_sort t ci j \/ wakes_sort t cj j \/
  with_mpi e = true /\
  (nodeID ci <> engine_rank e /\ wakes_send_recv e st ci cj j \/
   nodeID ci = engine_rank e /\ nodeID cj <> engine_rank e /\
   wakes_send_recv e st cj ci j).
Proof.
  intros Ht. rewrite elem_of_app. unfold wakes_sort.
  assert (Hsort : Activate j ∈
                    (if bool_decide (type t = task_type_pair)
                     then plan_sort st ind ci ++ plan_sort st ind cj else []) <->
                  (type t = task_type_pair /\
                   Z.land (sorted ci) (Z.shiftl 1 (flags t)) = 0 /\
                   sorts ci = Some j) \/
                  (type t = task_type_pair /\
                   Z.land (sorted cj) (Z.shiftl 1 (flags t)) = 0 /\
                   sorts cj = Some j)).
  { destruct (bool_decide_reflect (type t = task_type_pair)) as [Hty | Hty].
    - rewrite elem_of_app, !(activate_in_sort_iff st ind t _ j Ht). tauto.
    - rewrite elem_of_nil. tauto. }
  assert (Hmpi : Activate j ∈
                   (if with_mpi e then
                      if negb (nodeID ci =? engine_rank e)
                      then plan_send_recv st e ci cj
                      else if negb (nodeID cj =? engine_rank e)
                           then plan_send_recv st e cj ci
                           else []
                    else []) <->
                 with_mpi e = true /\
                 (nodeID ci <> engine_rank e /\ wakes_send_recv e st ci cj j \/
                  nodeID ci = engine_rank e /\ nodeID cj <> engine_rank e /\
                  wakes_send_recv e st cj ci j)).
  { destruct (with_mpi e).
    - destruct (Z.eqb_spec (nodeID ci) (engine_rank e)) as [Hi | Hi];
        cbn [negb].
      + destruct (Z.eqb_spec (nodeID cj) (engine_rank e)) as [Hj | Hj];
          cbn [negb].
        * rewrite elem_of_nil. tauto.
        * rewrite activate_in_send_recv_iff. tauto.
      + rewrite activate_in_send_recv_iff. tauto.
    - rewrite elem_of_nil. split; [tauto | intros (? & _); discriminate]. }
  rewrite Hsort, Hmpi. tauto.
Qed.

(** A visit activates the task it visits, on its own account, and the
    tasks that it wakes. *)
Lemma activate_in_plan e (st : state) ind t j :
  tasks st !! ind = Some t ->
  Activate j ∈ plan e st ind ->
  (j = ind /\ activated_directly e st t = true) \/ wakes e st t j.
Proof.
  intros Ht. unfold Marktasks.plan, task_at, Marktasks.activated_directly.
  rewrite Ht.
  destruct (is_single_cell_type (type t)) eqn:Hs.
  { intros Hin. apply elem_with_cell in Hin as (c & Hc & Hin); [| discriminate].
    apply activate_in_active in Hin as (-> & Hact). left. split; [reflexivity |].
    cbn [orb]. now rewrite (cell_active_some e st _ c Hc). }
  destruct (is_pair_type (type t)) eqn:Hp.
  { destruct (pair_not_others _ Hp) as (_ & -> & ->). cbn [orb].
    intros Hin.
    apply elem_with_cell in Hin as (ci & Hci & Hin); [| discriminate].
    apply elem_with_cell in Hin as (cj & Hcj & Hin); [| discriminate].
    rewrite (cell_active_some e st _ ci Hci), (cell_active_some e st _ cj Hcj).
    apply elem_of_app in Hin as [Hin | Hin].
    { destruct (_ && _); [apply list_elem_of_singleton in Hin; discriminate
                         | now apply elem_of_nil in Hin]. }
    destruct (cell_is_active ci e || cell_is_active cj e) eqn:Hact;
      [| now apply elem_of_nil in Hin].
    apply elem_of_cons in Hin as [Hin | Hin];
      [left; split; [now inversion Hin | reflexivity] |].
    right. unfold wakes, pair_density_active.
    rewrite Hp, (cell_active_some e st _ ci Hci),
      (cell_active_some e st _ cj Hcj), Hact.
    destruct (bool_decide (subtype t = task_subtype_density));
      [| now apply elem_of_nil in Hin].
    split; [reflexivity |]. cbn [negb] in Hin.
    exists ci, cj. split; [exact Hci |]. split; [exact Hcj |].
    now apply (activate_in_woken e st ind t ci cj j Ht). }
  destruct (is_kick_drift_init_type (type t)) eqn:Hk.
  { intros Hin. apply elem_with_cell in Hin as (c & Hc & Hin); [| discriminate].
    apply activate_in_active in Hin as (-> & Hact). left. split; [reflexivity |].
    cbn [orb]. now rewrite (cell_active_some e st _ c Hc). }
  destruct (bool_decide (type t = task_type_timestep)) eqn:Hts.
  { cbn [orb]. destruct (ci t) as [c |] eqn:Hci;
      [| intros Hin; apply list_elem_of_singleton in Hin; discriminate].
    intros Hin. apply elem_of_cons in Hin as [Hin | Hin]; [discriminate |].
    unfold cell_active, task_cell, cell_at in *. cbn.
    destruct (cells st !! c) as [c0 |];
      [| apply list_elem_of_singleton in Hin; discriminate].
    apply activate_in_active in Hin as (-> & Hact). left. now split. }
  cbn [orb]. destruct (is_no_cell_type (type t)); intros Hin.
  - apply list_elem_of_singleton in Hin. left. split; [now inversion Hin | reflexivity].
  - now apply elem_of_nil in Hin.
Qed.

(** The visit of a density pair activates the tasks that the pair wakes. *)
Lemma wakes_in_plan e (st : state) ind t j :
  tasks st !! ind = Some t -> wakes e st t j -> Activate j ∈ plan e st ind.
Proof.
  intros Ht (Hpda & ci & cj & Hci & Hcj & H).
  unfold pair_density_active in Hpda.
  apply andb_prop in Hpda as (Hpda & Hact).
  apply andb_prop in Hpda as (Hp & Hsub).
  rewrite (cell_active_some e st _ ci Hci),
    (cell_active_some e st _ cj Hcj) in Hact.
  rewrite (plan_pair e st ind t ci cj Ht Hp Hci Hcj), Hact, Hsub.
  cbn [negb]. apply elem_of_app. right. apply elem_of_cons. right.
  now apply (activate_in_woken e st ind t ci cj j Ht).
Qed.

(** *** Stores that a memory has taken *)

Lemma performed_app (st' : state) p q :
  performed st' (p ++ q) <-> performed st' p /\ performed st' q.
Proof.
  unfold performed. setoid_rewrite elem_of_app. firstorder.
Qed.

Lemma performed_cons (st' : state) a p :
  performed st' (a :: p) <-> absorbed a st' /\ performed st' p.
Proof.
  unfold performed. setoid_rewrite elem_of_cons. split.
  - intros H. split; [apply H; now left | intros b Hb; apply H; now right].
  - intros (Ha & Hp) b [-> | Hb]; auto.
Qed.

Lemma performed_abort (st' : state) m : ~ performed st' [Abort m].
Proof. intros H. apply (H (Abort m)). left. Qed.

Lemma performed_with_cell (st' st : state) p (k : cell -> list action) :
  performed st' (plan_with_cell st p k) ->
  exists c, task_cell st p = Some c /\ performed st' (k c).
Proof.
  intros H. destruct (task_cell st p) as [c |] eqn:Hc.
  - exists c. split; [reflexivity |].
    now rewrite (plan_with_cell_some st p k c Hc) in H.
  - destruct (plan_with_cell_none st p k Hc) as (m & Hm). rewrite Hm in H.
    now apply performed_abort in H.
Qed.

Lemma elem_of_full_plan e (st : state) a :
  a ∈ full_plan e st <->
  exists ind, (ind < length (tasks st))%nat /\ a ∈ plan e st ind.
Proof.
  unfold Marktasks.full_plan. rewrite list_elem_of_bind. split.
  - intros (ind & Hin & Hseq). exists ind. split; [| assumption].
    apply elem_of_seq in Hseq. lia.
  - intros (ind & Hlt & Hin). exists ind. split; [assumption |].
    apply elem_of_seq. lia.
Qed.

Lemma pass_run e (st : state) r st' :
  state_wf st -> engine_marktasks e st = Ok (r, st') ->
  run (full_plan e st) (cleared st) = Ok st' /\ r = rebuild_space st'.
Proof.
  intros Hwf Hpass. rewrite (engine_marktasks_run e st Hwf) in Hpass.
  apply result_bind_ok in Hpass as (st1 & Hrun & Hret).
  inversion Hret; subst. now split.
Qed.

Lemma pass_performed e (st : state) r st' ind t :
  state_wf st -> engine_marktasks e st = Ok (r, st') ->
  tasks st !! ind = Some t -> performed st' (plan e st ind).
Proof.
  intros Hwf Hpass Ht a Hin.
  destruct (pass_run e st r st' Hwf Hpass) as (Hrun & _).
  pose proof (run_absorbed _ _ _ Hrun) as Hall.
  rewrite Forall_forall in Hall. apply Hall.
  apply elem_of_full_plan. exists ind. split; [| exact Hin].
  apply lookup_lt_Some in Ht. lia.
Qed.

Lemma performed_active (st' : state) e ind (c : cell) :
  performed st' (plan_active e ind c) -> cell_is_active c e = true ->
  absorbed (Activate ind) st'.
Proof.
  unfold plan_active. intros H Hact. rewrite Hact in H. apply H. left.
Qed.

Lemma performed_directly e (st st' : state) ind t :
  tasks st !! ind = Some t -> performed st' (plan e st ind) ->
  activated_directly e st t = true -> absorbed (Activate ind) st'.
Proof.
  intros Ht. unfold Marktasks.plan, task_at, Marktasks.activated_directly.
  rewrite Ht.
  destruct (is_single_cell_type (type t)) eqn:Hs.
  { cbn [orb]. intros H Hact. apply performed_with_cell in H as (c & Hc & H).
    rewrite (cell_active_some e st _ c Hc) in Hact.
    eapply performed_active; eassumption. }
  destruct (is_pair_type (type t)) eqn:Hp.
  { destruct (pair_not_others _ Hp) as (_ & -> & ->). cbn [orb].
    intros H Hact.
    apply performed_with_cell in H as (ci & Hci & H).
    apply performed_with_cell in H as (cj & Hcj & H).
    rewrite (cell_active_some e st _ ci Hci),
      (cell_active_some e st _ cj Hcj) in Hact.
    rewrite Hact in H. apply performed_app in H as (_ & H).
    now apply performed_cons in H as (H & _). }
  destruct (is_kick_drift_init_type (type t)) eqn:Hk.
  { cbn [orb]. intros H Hact. apply performed_with_cell in H as (c & Hc & H).
    rewrite (cell_active_some e st _ c Hc) in Hact.
    eapply performed_active; eassumption. }
  destruct (bool_decide (type t = task_type_timestep)) eqn:Hts.
  { cbn [orb]. unfold cell_active, task_cell, cell_at.
    destruct (ci t) as [c |]; cbn; [| discriminate].
    intros H Hact. apply performed_cons in H as (_ & H).
    destruct (cells st !! c) as [c0 |]; [| discriminate].
    eapply performed_active; eassumption. }
  cbn [orb]. intros H Hact. rewrite Hact in H. apply H. left.
Qed.

(** *** Well-formedness, decided *)

Lemma has_typeb_sound (st : state) ty p :
  has_typeb st ty p = true -> has_type st ty p.
Proof.
  unfold has_typeb, has_type. intros H t Ht. rewrite Ht in H.
  now apply bool_decide_eq_true_1 in H.
Qed.

Lemma forallb_option_list (f : nat -> bool) p x :
  forallb f (option_list p) = true -> p = Some x -> f x = true.
Proof. intros H ->. cbn in H. now apply andb_true_iff in H as (H & _). Qed.

Lemma forallb_elem (f : nat -> bool) l x :
  forallb f l = true -> x ∈ l -> f x = true.
Proof.
  intros H Hin. rewrite forallb_forall in H. now apply H, list_elem_of_In.
Qed.

Lemma cell_wfb_sound (st : state) (c : cell) :
  cell_wfb st c = true -> cell_wf st c.
Proof.
  unfold cell_wfb. rewrite !andb_true_iff. intros (((Hs & Hd) & Hr) & Hl).
  rewrite !forallb_app, !andb_true_iff in Hr, Hl.
  destruct Hr as (Hr1 & Hr2 & Hr3). destruct Hl as (Hl1 & Hl2 & Hl3).
  repeat split; intros p Hp; apply has_typeb_sound.
  - eapply forallb_option_list; eassumption.
  - eapply forallb_option_list; eassumption.
  - destruct Hp as [Hp | [Hp | Hp]];
      [exact (forallb_option_list _ _ _ Hr1 Hp)
      | exact (forallb_option_list _ _ _ Hr2 Hp)
      | exact (forallb_option_list _ _ _ Hr3 Hp)].
  - destruct Hp as [Hp | [Hp | Hp]];
      [exact (forallb_elem _ _ _ Hl1 Hp)
      | exact (forallb_elem _ _ _ Hl2 Hp)
      | exact (forallb_elem _ _ _ Hl3 Hp)].
Qed.

Lemma state_wfb_sound (st : state) : state_wfb st = true -> state_wf st.
Proof.
  unfold state_wfb. intros H i c Hc. apply cell_wfb_sound.
  rewrite forallb_forall in H. apply H, list_elem_of_In.
  eapply list_elem_of_lookup_2; eassumption.
Qed.

(** *** The pass *)

Lemma absorbed_activate (st' : state) j :
  absorbed (Activate j) st' <-> activated st' (Some j).
Proof.
  cbn. unfold activated. split.
  - intros (t & Ht & Hs). now exists j, t.
  - intros (j' & t & [= <-] & Ht & Hs). now exists t.
Qed.

Lemma lor_land a b : Z.lor a b = a -> Z.land a b = b.
Proof. intros <-. apply lor_land_same. Qed.

Lemma performed_deref_activate (st' : state) p :
  performed st' (plan_deref_activate p) -> activated st' p.
Proof.
  destruct p as [j |]; intros H; [| now apply performed_abort in H].
  apply absorbed_activate, H. left.
Qed.

Lemma performed_link (st st' : state) msg links node :
  performed st' (plan_link st msg links node) ->
  link_activated st st' links node.
Proof.
  unfold plan_link, link_activated.
  destruct (find_link st links node) as [[l |] | m]; intros H;
    try now apply performed_abort in H.
  exists l. split; [reflexivity |]. apply absorbed_activate, H. left.
Qed.

Lemma performed_sort (st st' : state) ind t (c : cell) :
  tasks st !! ind = Some t -> performed st' (plan_sort st ind c) ->
  Z.land (sorted c) (Z.shiftl 1 (flags t)) = 0 ->
  sort_requested st' c (Z.shiftl 1 (flags t)).
Proof.
  intros Ht H Hsorted. unfold plan_sort, task_at in H. rewrite Ht, Hsorted in H.
  cbn in H. destruct (sorts c) as [s |] eqn:Hs;
    [| now apply performed_abort in H].
  apply performed_cons in H as ((t1 & Ht1 & Hf) & H).
  apply performed_cons in H as ((t2 & Ht2 & Hskip) & _).
  assert (t2 = t1) by congruence. subst t2.
  exists s, t1. repeat split; try assumption. now apply lor_land.
Qed.

Lemma performed_send_recv e (st st' : state) (cf cl : cell) :
  performed st' (plan_send_recv st e cf cl) ->
  send_recv_activated e st st' cf cl.
Proof.
  unfold plan_send_recv. rewrite !performed_app.
  intros (H1 & H2 & H3 & H4 & H5). unfold send_recv_activated.
  split; [now apply performed_deref_activate |].
  split.
  { intros Hact. rewrite Hact in H2. apply performed_app in H2 as (H2 & H2').
    split; now apply performed_deref_activate. }
  split; [eapply performed_link; eassumption |].
  split.
  { apply performed_with_cell in H4 as (sc & Hsc & H4). exists sc.
    split; [assumption |]. destruct (drift sc) as [d |];
      [| now apply performed_abort in H4].
    apply absorbed_activate, H4. left. }
  intros Hact. rewrite Hact in H5. apply performed_app in H5 as (H5 & H5').
  split; eapply performed_link; eassumption.
Qed.

(** *** What one visit does *)

Lemma wakes_iff e (st : state) t (ci cj : cell) j :
  is_pair_type (type t) = true -> subtype t = task_subtype_density ->
  task_cell st (Sched.ci t) = Some ci -> task_cell st (Sched.cj t) = Some cj ->
  cell_is_active ci e || cell_is_active cj e = true ->
  wakes e st t j <->
  wakes_sort t ci j \/ wakes_sort t cj j \/
  with_mpi e = true /\
  (nodeID ci <> engine_rank e /\ wakes_send_recv e st ci cj j \/
   nodeID ci = engine_rank e /\ nodeID cj <> engine_rank e /\
   wakes_send_recv e st cj ci j).
Proof.
  intros Hp Hsub Hci Hcj Hact. split.
  - intros (_ & ci' & cj' & Hci' & Hcj' & H).
    assert (ci' = ci) by congruence. assert (cj' = cj) by congruence.
    now subst.
  - intros H. split.
    + unfold pair_density_active.
      rewrite Hp, (bool_decide_eq_true_2 _ Hsub),
        (cell_active_some e st _ ci Hci), (cell_active_some e st _ cj Hcj).
      exact Hact.
    + now exists ci, cj.
Qed.

Lemma act_on_task_fields j t a :
  type (act_on_task j t a) = type t /\
  subtype (act_on_task j t a) = subtype t /\
  wait (act_on_task j t a) = wait t /\
  Sched.ci (act_on_task j t a) = Sched.ci t /\
  Sched.cj (act_on_task j t a) = Sched.cj t /\
  tight (act_on_task j t a) = tight t.
Proof.
  destruct a as [i | i bits | | |]; cbn; try (now repeat split);
    destruct (decide (i = j)); now repeat split.
Qed.

Lemma foldl_act_fields j t acts :
  type (foldl (act_on_task j) t acts) = type t /\
  subtype (foldl (act_on_task j) t acts) = subtype t /\
  wait (foldl (act_on_task j) t acts) = wait t /\
  Sched.ci (foldl (act_on_task j) t acts) = Sched.ci t /\
  Sched.cj (foldl (act_on_task j) t acts) = Sched.cj t /\
  tight (foldl (act_on_task j) t acts) = tight t.
Proof.
  revert t. induction acts as [| a acts IH]; intros t; [now repeat split |].
  cbn [foldl]. destruct (IH (act_on_task j t a)) as (-> & -> & -> & -> & -> & ->).
  apply act_on_task_fields.
Qed.

Lemma foldl_act_flags j t acts b :
  (forall b', OrFlags j b' ∈ acts -> b' = b) ->
  flags (foldl (act_on_task j) t acts) =
  if decide (OrFlags j b ∈ acts) then Z.lor (flags t) b else flags t.
Proof.
  revert t. induction acts as [| a acts IH]; intros t Hb; cbn [foldl].
  - rewrite decide_False by apply not_elem_of_nil. reflexivity.
  - rewrite IH by (intros b' Hin; apply Hb; now right).
    destruct (decide (a = OrFlags j b)) as [-> | Hne].
    + cbn [act_on_task]. rewrite (decide_True (P := j = j)) by reflexivity.
      rewrite (decide_True (P := OrFlags j b ∈ OrFlags j b :: acts)) by left.
      cbn. destruct (decide (OrFlags j b ∈ acts)); [| reflexivity].
      now rewrite <- Z.lor_assoc, Z.lor_diag.
    + assert (Hf : flags (act_on_task j t a) = flags t).
      { destruct a as [i | i b' | | |]; cbn; try reflexivity.
        - destruct (decide (i = j)); reflexivity.
        - destruct (decide (i = j)) as [-> |]; [| reflexivity].
          exfalso. apply Hne. f_equal. apply Hb. left. }
      rewrite Hf.
      destruct (decide (OrFlags j b ∈ acts)) as [Hin | Hnin].
      * rewrite decide_True by (now right). reflexivity.
      * rewrite decide_False; [reflexivity |].
        intros Hin. apply elem_of_cons in Hin as [Heq | Hin];
          [now apply Hne | contradiction].
Qed.

Lemma foldl_act_skip j t acts :
  skip (foldl (act_on_task j) t acts) = false <->
  skip t = false \/ Activate j ∈ acts.
Proof.
  split.
  - intros Hs. destruct (decide (Activate j ∈ acts)) as [Hin | Hnin];
      [now right |].
    left. now rewrite (foldl_skip_kept j t acts Hnin) in Hs.
  - intros [Hs | Hin];
      [now apply foldl_skip_false | now apply foldl_skip_activated].
Qed.

Lemma run_cells acts (st st' : state) :
  (forall c, ClearUpdated c ∉ acts) -> run acts st = Ok st' ->
  cells st' = cells st.
Proof.
  revert st. induction acts as [| a acts IH]; intros st Hno Hrun.
  - now inversion Hrun.
  - rewrite run_cons in Hrun.
    apply result_bind_ok in Hrun as (st1 & Ha & Hrun).
    rewrite (IH st1) by (try exact Hrun; intros c Hin; apply (Hno c); now right).
    destruct a as [i | i bits | c | | msg]; cbn in Ha.
    + unfold scheduler_activate, update_task in Ha.
      destruct (tasks st !! i); [| discriminate]. now inversion Ha.
    + unfold atomic_or_flags, update_task in Ha.
      destruct (tasks st !! i); [| discriminate]. now inversion Ha.
    + exfalso. apply (Hno c). left.
    + now inversion Ha.
    + discriminate.
Qed.

Ltac elim_elem H :=
  repeat (cbv beta in H;
          match type of H with
          | _ ∈ [] => now apply elem_of_nil in H
          | _ ∈ _ ++ _ => apply elem_of_app in H as [H | H]
          | _ ∈ _ :: _ => apply elem_of_cons in H as [H | H]; [discriminate |]
          | _ ∈ (if ?b then _ else _) => destruct b
          | _ ∈ match ?x with _ => _ end => destruct x
          end).

Lemma no_clear_sort (st : state) ind (c : cell) x :
  ClearUpdated x ∉ plan_sort st ind c.
Proof. unfold plan_sort. intros Hin. elim_elem Hin. Qed.

Lemma no_clear_send_recv (st : state) e (ci cj : cell) x :
  ClearUpdated x ∉ plan_send_recv st e ci cj.
Proof.
  unfold plan_send_recv, plan_deref_activate, plan_link, plan_with_cell.
  intros Hin. elim_elem Hin.
Qed.

(** The visit of a pair task. *)
Lemma pair_visit e (st st1 st2 : state) ind t (ci cj : cell) :
  state_wf st -> static st1 = static st ->
  engine_marktasks_task e ind st1 = Ok st2 ->
  tasks st !! ind = Some t ->
  is_pair_type (type t) = true ->
  task_cell st (Sched.ci t) = Some ci -> task_cell st (Sched.cj t) = Some cj ->
  run (plan e st ind) st1 = Ok st2 /\ cells st2 = cells st1.
Proof.
  intros Hwf Hs1 Hv Ht Hp Hci Hcj.
  assert (Hwf1 : state_wf st1)
    by (eapply state_wf_static; [symmetry; exact Hs1 | exact Hwf]).
  rewrite (engine_marktasks_task_run e ind st1 Hwf1),
    (plan_static_eq e st1 st ind Hs1) in Hv.
  split; [exact Hv |]. eapply run_cells; [| exact Hv].
  rewrite (plan_pair e st ind t ci cj Ht Hp Hci Hcj).
  intros c Hin. apply elem_of_app in Hin as [Hin | Hin]; [elim_elem Hin |].
  destruct (cell_is_active ci e || cell_is_active cj e);
    [| now apply elem_of_nil in Hin].
  apply elem_of_cons in Hin as [Hin | Hin]; [discriminate |].
  destruct (negb _); [now apply elem_of_nil in Hin |].
  apply elem_of_app in Hin as [Hin | Hin].
  - destruct (bool_decide _); [| now apply elem_of_nil in Hin].
    apply elem_of_app in Hin as [Hin | Hin]; now apply no_clear_sort in Hin.
  - destruct (with_mpi e); [| now apply elem_of_nil in Hin].
    destruct (negb _); [now apply no_clear_send_recv in Hin |].
    destruct (negb _); [now apply no_clear_send_recv in Hin |].
    now apply elem_of_nil in Hin.
Qed.

(** The pass reaches every task: the visits before that of the task [ind]
    return, and so does the visit of [ind]. *)
Lemma mapper_visit e (st : state) r st' ind :
  state_wf st -> engine_marktasks e st = Ok (r, st') ->
  (ind < length (tasks st))%nat ->
  exists st1 st2,
    engine_marktasks_mapper e 0 ind (cleared st) = Ok st1 /\
    engine_marktasks_task e ind st1 = Ok st2 /\
    static st1 = static st.
Proof.
  intros Hwf Hpass Hlt.
  unfold Marktasks.engine_marktasks, Marktasks.engine_marktasks_mapper in *.
  cbn [tasks] in Hpass. fold (cleared st) in Hpass.
  apply result_bind_ok in Hpass as (stn & Hpass & _).
  replace (length (tasks st))
    with (ind + S (length (tasks st) - S ind))%nat in Hpass by lia.
  rewrite seq_app, foldl_app in Hpass. cbn [seq foldl Nat.add] in Hpass.
  destruct (foldl _ (Ok (cleared st)) (seq 0 ind)) as [st1 | m] eqn:H1.
  2: { cbn [mbind result_bind] in Hpass. rewrite mapper_error in Hpass.
       discriminate. }
  change (Ok st1 ≫= (fun st1 => engine_marktasks_task e ind st1))
    with (engine_marktasks_task e ind st1) in Hpass.
  destruct (engine_marktasks_task e ind st1) as [st2 | m] eqn:H2.
  2: { rewrite mapper_error in Hpass. discriminate. }
  exists st1, st2. split; [reflexivity |]. split; [exact H2 |].
  rewrite (mapper_run e st (seq 0 ind) (cleared st) Hwf (static_cleared st))
    in H1.
  rewrite <- (static_cleared st). eapply run_static; [| exact H1].
  intros t bits Hin. apply list_elem_of_bind in Hin as (i & Hin & _).
  eapply has_type_static; [symmetry; apply static_cleared |].
  eapply targeted_plan; eassumption.
Qed.

Lemma or_flags_in_pair_plan e (st : state) ind t (ci cj : cell) j bits :
  tasks st !! ind = Some t ->
  is_pair_type (type t) = true -> subtype t = task_subtype_density ->
  task_cell st (Sched.ci t) = Some ci -> task_cell st (Sched.cj t) = Some cj ->
  cell_is_active ci e || cell_is_active cj e = true ->
  OrFlags j bits ∈ plan e st ind <->
  bits = Z.shiftl 1 (flags t) /\ (wakes_sort t ci j \/ wakes_sort t cj j).
Proof.
  intros Ht Hp Hsub Hci Hcj Hact.
  rewrite (plan_pair e st ind t ci cj Ht Hp Hci Hcj), Hact,
    (bool_decide_eq_true_2 _ Hsub).
  cbn [negb]. unfold wakes_sort. split.
  - intros Hin. apply elem_of_app in Hin as [Hin | Hin].
    { destruct (_ && _); [apply list_elem_of_singleton in Hin; discriminate
                         | now apply elem_of_nil in Hin]. }
    apply elem_of_cons in Hin as [Hin | Hin]; [discriminate |].
    apply elem_of_app in Hin as [Hin | Hin].
    + destruct (bool_decide_reflect (type t = task_type_pair)) as [Hty | Hty];
        [| now apply elem_of_nil in Hin].
      apply elem_of_app in Hin as [Hin | Hin];
        apply (or_flags_in_sort_iff st ind t _ j bits Ht) in Hin
          as (-> & Hz & Hs);
        (split; [reflexivity |]); [left | right]; now repeat split.
    + exfalso. destruct (with_mpi e); [| now apply elem_of_nil in Hin].
      destruct (negb _);
        [exact (no_or_flags_send_recv st e ci cj _ _ Hin) |].
      destruct (negb _);
        [exact (no_or_flags_send_recv st e cj ci _ _ Hin) |].
      now apply elem_of_nil in Hin.
  - intros (-> & [(Hty & Hz & Hs) | (Hty & Hz & Hs)]);
      apply elem_of_app; right; apply elem_of_cons; right;
      apply elem_of_app; left; rewrite (bool_decide_eq_true_2 _ Hty);
      apply elem_of_app; [left | right];
      apply (or_flags_in_sort_iff st ind t _ j _ Ht); now repeat split.
Qed.

Lemma activate_in_pair_plan e (st : state) ind t (ci cj : cell) j :
  tasks st !! ind = Some t ->
  is_pair_type (type t) = true -> subtype t = task_subtype_density ->
  task_cell st (Sched.ci t) = Some ci -> task_cell st (Sched.cj t) = Some cj ->
  cell_is_active ci e || cell_is_active cj e = true ->
  Activate j ∈ plan e st ind <-> j = ind \/ wakes e st t j.
Proof.
  intros Ht Hp Hsub Hci Hcj Hact. split.
  - intros Hin. destruct (activate_in_plan e st ind t j Ht Hin) as [(-> & _) | Hw];
      [now left | now right].
  - intros [-> | Hw]; [| now apply (wakes_in_plan e st ind t j Ht)].
    rewrite (plan_pair e st ind t ci cj Ht Hp Hci Hcj), Hact.
    apply elem_of_app. right. left.
Qed.

(** C1 (amended): started from tasks that are all marked skip, a pass
    that returns leaves a task active if and only if the pass activates it on
    its own account ([activated_directly]: a self, sub_self, ghost,
    extra_ghost, cooling, sourceterms, kick1, kick2, drift, init or timestep
    task whose cell is active, that is, has [ti_end_min <= ti_current]; a
    pair or sub_pair task one of whose two cells is active; or a
    grav_gather_m or grav_fft task, which is always activated), or some
    density task on a pair of cells one of which is active wakes it
    ([wakes]: the sort task of a cell of a pair task that is not yet sorted
    along the axis of the task and, with MPI, the send, recv and drift tasks
    that exchange the cells of the pair). Only sort, send, recv and drift
    tasks are woken, so for a task of any other type the first condition
    alone decides. *)
Theorem engine_marktasks_activates e (st : state) r st' :
  state_wf st -> Forall (fun t => skip t = true) (tasks st) ->
  engine_marktasks e st = Ok (r, st') ->
  forall ind t, tasks st !! ind = Some t ->
  exists t', tasks st' !! ind = Some t' /\
    (skip t' = false <->
     activated_directly e st t = true \/
     exists ind2 t2, tasks st !! ind2 = Some t2 /\ wakes e st t2 ind) /\
    (is_link_type (type t) = false ->
     (skip t' = false <-> activated_directly e st t = true)) /\
    ((exists ind2 t2, tasks st !! ind2 = Some t2 /\ wakes e st t2 ind) ->
     is_link_type (type t) = true).
Proof.
  intros Hwf Hskip Hpass ind t Ht.
  destruct (pass_run e st r st' Hwf Hpass) as (Hrun & _).
  pose proof (run_task _ _ _ ind t Hrun Ht) as Ht'.
  eexists. split; [exact Ht' |].
  assert (Hlink : (exists ind2 t2, tasks st !! ind2 = Some t2 /\
                                   wakes e st t2 ind) ->
                  is_link_type (type t) = true).
  { intros (ind2 & t2 & _ & Hw). eapply wakes_link_type; eassumption. }
  assert (Hiff : skip (foldl (act_on_task ind) t (full_plan e st)) = false <->
                 activated_directly e st t = true \/
                 exists ind2 t2, tasks st !! ind2 = Some t2 /\
                                 wakes e st t2 ind).
  { split.
    - intros Hs.
      destruct (decide (Activate ind ∈ full_plan e st)) as [Hin | Hnin].
      + apply elem_of_full_plan in Hin as (ind2 & Hlt & Hin).
        destruct (lookup_lt_is_Some_2 (tasks st) ind2 Hlt) as (t2 & Ht2).
        destruct (activate_in_plan e st ind2 t2 ind Ht2 Hin)
          as [(-> & Hact) | Hw].
        * left. congruence.
        * right. now exists ind2, t2.
      + rewrite (foldl_skip_kept ind t _ Hnin) in Hs.
        rewrite Forall_forall in Hskip.
        rewrite (Hskip t) in Hs; [discriminate |].
        eapply list_elem_of_lookup_2; eassumption.
    - intros [Hact | (ind2 & t2 & Ht2 & Hw)].
      + pose proof (pass_performed e st r st' ind t Hwf Hpass Ht) as Hperf.
        destruct (performed_directly e st st' ind t Ht Hperf Hact)
          as (t1 & Ht1 & Hs1).
        congruence.
      + apply foldl_skip_activated, elem_of_full_plan. exists ind2.
        split; [apply lookup_lt_Some in Ht2; lia |].
        now apply (wakes_in_plan e st ind2 t2 ind Ht2). }
  split; [exact Hiff |]. split; [| exact Hlink].
  intros Hnl. rewrite Hiff. split; [| now left].
  intros [Hact | Hw]; [exact Hact |]. apply Hlink in Hw. congruence.
Qed.

(** C2 (amended): a pass that returns, returns 1 if for some pair or
    sub_pair task that is flagged tight the displacement tolerance is
    exceeded ([asks_rebuild]), and 0 otherwise. *)
Theorem engine_marktasks_rebuild e (st : state) r st' :
  state_wf st -> engine_marktasks e st = Ok (r, st') ->
  rebuild_space st' = r /\ (r = 0 \/ r = 1) /\
  (r <> 0 <->
   exists ind t, tasks st !! ind = Some t /\
                 asks_rebuild fmax fadd fmul fgt space_maxreldx st t = true).
Proof.
  intros Hwf Hpass.
  destruct (pass_run e st r st' Hwf Hpass) as (Hrun & ->).
  rewrite (run_rebuild_space _ _ _ Hrun).
  rewrite <- (wants_rebuild_full_plan e st).
  destruct (wants_rebuild (full_plan e st)); cbn.
  - split; [reflexivity |]. split; [now right |].
    split; [reflexivity | discriminate].
  - split; [reflexivity |]. split; [now left |].
    split; [contradiction | discriminate].
Qed.

(** C5 (amended): when the pass activates a density task on a pair
    of cells one of which is active, then, if the task is of type pair, each
    of the two cells that is not yet sorted along the task's axis has its
    sort task activated with the axis bit [1 << flags] set; and, with MPI, if
    [ci] is foreign (or else if [cj] is), the foreign cell's recv_xv task,
    the local cell's send_xv task towards that node and the drift task of the
    local cell's super cell are activated, the recv_rho and recv_ti tasks if
    the foreign cell is active, and the send_rho and send_ti tasks if the
    local cell is active. The visit of the task does this and nothing more:
    it returns, leaves the cells as they are, and a task that was skipped
    before the visit is active after it exactly if it is the pair itself or
    one of the tasks above ([wakes]); the flags of a task change exactly if
    it is the sort task of a cell of the pair, of type pair, that is not yet
    sorted along the axis, and then by the axis bit; no other field of any
    task changes. So the sort task of a cell that is sorted along the axis,
    the recv_rho and recv_ti tasks of a foreign cell that is not active and
    the send_rho and send_ti tasks of a local cell that is not active are
    left as they were. *)
Theorem pair_density_activation e (st : state) r st' ind t (ci cj : cell) :
  state_wf st -> engine_marktasks e st = Ok (r, st') ->
  tasks st !! ind = Some t ->
  is_pair_type (type t) = true -> subtype t = task_subtype_density ->
  task_cell st (Sched.ci t) = Some ci -> task_cell st (Sched.cj t) = Some cj ->
  cell_is_active ci e || cell_is_active cj e = true ->
  activated st' (Some ind) /\
  (type t = task_type_pair ->
   forall c, c = ci \/ c = cj ->
   Z.land (sorted c) (Z.shiftl 1 (flags t)) = 0 ->
   sort_requested st' c (Z.shiftl 1 (flags t))) /\
  (with_mpi e = true ->
   (nodeID ci <> engine_rank e -> send_recv_activated e st st' ci cj) /\
   (nodeID ci = engine_rank e -> nodeID cj <> engine_rank e ->
    send_recv_activated e st st' cj ci)) /\
  exists st1 st2,
    engine_marktasks_mapper e 0 ind (cleared st) = Ok st1 /\
    engine_marktasks_task e ind st1 = Ok st2 /\
    cells st2 = cells st1 /\
    forall j tj, tasks st1 !! j = Some tj ->
    exists tj', tasks st2 !! j = Some tj' /\
      (type tj' = type tj /\ subtype tj' = subtype tj /\ wait tj' = wait tj /\
       Sched.ci tj' = Sched.ci tj /\ Sched.cj tj' = Sched.cj tj /\
       tight tj' = tight tj) /\
      (skip tj' = false <-> skip tj = false \/ j = ind \/ wakes e st t j) /\
      (wakes_sort t ci j \/ wakes_sort t cj j ->
       flags tj' = Z.lor (flags tj) (Z.shiftl 1 (flags t))) /\
      (~ (wakes_sort t ci j \/ wakes_sort t cj j) -> flags tj' = flags tj).
Proof.
  intros Hwf Hpass Ht Hp Hsub Hci Hcj Hact.
  pose proof (pass_performed e st r st' ind t Hwf Hpass Ht) as H.
  rewrite (plan_pair e st ind t ci cj Ht Hp Hci Hcj), Hact in H.
  apply performed_app in H as (_ & H).
  apply performed_cons in H as (Hind & H).
  rewrite (bool_decide_eq_true_2 _ Hsub) in H. cbn [negb] in H.
  apply performed_app in H as (Hsort & Hmpi).
  split; [now apply absorbed_activate |]. split; [| split].
  - intros Hty c Hc Hsorted.
    rewrite (bool_decide_eq_true_2 _ Hty) in Hsort.
    apply performed_app in Hsort as (Hi & Hj).
    destruct Hc as [-> | ->]; eapply performed_sort; eassumption.
  - intros Hwith. rewrite Hwith in Hmpi. split.
    + intros Hne. apply Z.eqb_neq in Hne. rewrite Hne in Hmpi.
      now apply performed_send_recv.
    + intros Heq Hne. apply Z.eqb_eq in Heq. apply Z.eqb_neq in Hne.
      rewrite Heq, Hne in Hmpi. now apply performed_send_recv.
  - destruct (mapper_visit e st r st' ind Hwf Hpass (lookup_lt_Some _ _ _ Ht))
      as (st1 & st2 & Hm & Hv & Hs1).
    exists st1, st2. split; [exact Hm |]. split; [exact Hv |].
    destruct (pair_visit e st st1 st2 ind t ci cj Hwf Hs1 Hv Ht Hp Hci Hcj)
      as (Hrun & Hcells).
    split; [exact Hcells |].
    intros j tj Htj. exists (foldl (act_on_task j) tj (plan e st ind)).
    split; [eapply run_task; eassumption |].
    split; [apply foldl_act_fields |].
    split.
    { rewrite foldl_act_skip,
        (activate_in_pair_plan e st ind t ci cj j Ht Hp Hsub Hci Hcj Hact).
      reflexivity. }
    pose proof (fun b => or_flags_in_pair_plan e st ind t ci cj j b
                           Ht Hp Hsub Hci Hcj Hact) as Hor.
    rewrite (foldl_act_flags j tj (plan e st ind) (Z.shiftl 1 (flags t)))
      by (intros b' Hin; now apply Hor in Hin).
    split; intros Hw.
    + rewrite decide_True; [reflexivity |]. apply Hor. now split.
    + rewrite decide_False; [reflexivity |].
      intros Hin. apply Hor in Hin as (_ & Hin). contradiction.
Qed.

Lemma cleared_fixed (st : state) :
  rebuild_space st = 0 -> cleared st = st.
Proof. destruct st as [ts cs rb]. cbn. now intros ->. Qed.

Lemma set_rebuild_cleared (st : state) :
  rebuild_space st = 1 -> set_rebuild_space (cleared st) = st.
Proof. destruct st as [ts cs rb]. cbn. now intros ->. Qed.

(** C6: a second pass over the memory that a first pass has left, at the
    same time, returns the same flag and leaves every task, cell and the
    flag as they were; in particular the same tasks are active. *)
Theorem engine_marktasks_twice e (st : state) r st1 :
  state_wf st -> engine_marktasks e st = Ok (r, st1) ->
  exists st2, engine_marktasks e st1 = Ok (r, st2) /\
              active_tasks st2 = active_tasks st1 /\ st2 = st1.
Proof.
  intros Hwf Hpass.
  destruct (pass_run e st r st1 Hwf Hpass) as (Hrun & Hr).
  assert (Hs : static st1 = static st).
  { rewrite <- (static_cleared st). eapply run_static; [| exact Hrun].
    intros t bits Hin. apply elem_of_full_plan in Hin as (ind & _ & Hin).
    eapply has_type_static; [symmetry; apply static_cleared |].
    eapply targeted_plan; eassumption. }
  assert (Hwf1 : state_wf st1)
    by (eapply state_wf_static; [symmetry; exact Hs | exact Hwf]).
  exists st1. split; [| now split].
  rewrite (engine_marktasks_run e st1 Hwf1).
  rewrite (full_plan_static e st1 st Hs).
  pose proof (run_absorbed _ _ _ Hrun) as Hall.
  pose proof (run_rebuild_space _ _ _ Hrun) as Hrb. cbn [cleared rebuild_space] in Hrb.
  rewrite run_of_absorbed.
  - cbn [mbind result_bind].
    destruct (wants_rebuild (full_plan e st)).
    + rewrite (set_rebuild_cleared st1 Hrb). now rewrite Hr.
    + rewrite (cleared_fixed st1 Hrb). now rewrite Hr.
  - eapply Forall_impl; [exact Hall |]. intros a.
    now apply absorbed_same_mem.
Qed.

End marktasks_proofs.

Lemma example_memory_skipped tight0 dx0 sorted0 :
  Forall (fun t => skip t = true) (tasks (example_memory tight0 dx0 sorted0)).
Proof. repeat constructor. Qed.

Lemma engine_marktasks_activates_witness :
  let st := example_memory true 0 0 in
  state_wf st /\ Forall (fun t => skip t = true) (tasks st) /\
  example_marktasks st = Ok (0, marked st) /\
  forall ind t, tasks st !! ind = Some t ->
  exists t', tasks (marked st) !! ind = Some t' /\
    (skip t' = false <->
     activated_directly example_engine st t = true \/
     exists ind2 t2, tasks st !! ind2 = Some t2 /\
                     wakes example_engine st t2 ind) /\
    (is_link_type (type t) = false ->
     (skip t' = false <-> activated_directly example_engine st t = true)) /\
    ((exists ind2 t2, tasks st !! ind2 = Some t2 /\
                      wakes example_engine st t2 ind) ->
     is_link_type (type t) = true).
Proof.
  intros st.
  assert (Hwf : state_wf st) by (apply state_wfb_sound; vm_compute; reflexivity).
  assert (Hskip : Forall (fun t => skip t = true) (tasks st))
    by (repeat constructor).
  assert (Hpass : example_marktasks st = Ok (0, marked st))
    by (vm_compute; reflexivity).
  split; [exact Hwf |]. split; [exact Hskip |]. split; [exact Hpass |].
  exact (engine_marktasks_activates c_max PrimFloat.add PrimFloat.mul c_gt
           example_maxreldx example_engine st 0 (marked st) Hwf Hskip Hpass).
Defined.

(** C1, as stated, fails: the pass activates a grav_fft task, which has no
    cells, and the sort task of a cell that is not active. *)
Lemma tasks_activated_without_active_cell :
  let st := example_memory true 0 0 in
  Forall (fun t => skip t = true) (tasks st) /\
  exists st' t12 t2,
    example_marktasks st = Ok (0, st') /\
    tasks st' !! 12%nat = Some t12 /\ type t12 = task_type_grav_fft /\
    ci t12 = None /\ cj t12 = None /\ skip t12 = false /\
    tasks st' !! 2%nat = Some t2 /\ type t2 = task_type_sort /\
    cj t2 = None /\ cell_active example_engine st (ci t2) = false /\
    skip t2 = false.
Proof.
  intros st. split; [repeat constructor |].
  eexists _, _, _. split; [vm_compute; reflexivity |].
  repeat split; vm_compute; reflexivity.
Qed.

Lemma engine_marktasks_rebuild_witness :
  let st := example_memory true 8 0 in
  state_wf st /\ example_marktasks st = Ok (1, marked st) /\
  rebuild_space (marked st) = 1 /\ (1 = 0 \/ 1 = 1) /\
  (1 <> 0 <->
   exists ind t, tasks st !! ind = Some t /\
                 asks_rebuild c_max PrimFloat.add PrimFloat.mul c_gt
                   example_maxreldx st t = true).
Proof.
  intros st.
  assert (Hwf : state_wf st) by (apply state_wfb_sound; vm_compute; reflexivity).
  assert (Hpass : example_marktasks st = Ok (1, marked st))
    by (vm_compute; reflexivity).
  split; [exact Hwf |]. split; [exact Hpass |].
  exact (engine_marktasks_rebuild c_max PrimFloat.add PrimFloat.mul c_gt
           example_maxreldx example_engine st 1 (marked st) Hwf Hpass).
Defined.

(** C2, as stated, fails: the tolerance is exceeded on a pair task that is
    not flagged tight, and the pass returns 0. *)
Lemma loose_pair_does_not_ask_rebuild :
  let st := example_memory false 8 0 in
  (exists t ci cj,
     tasks st !! 0%nat = Some t /\ type t = task_type_pair /\
     task_cell st (Sched.ci t) = Some ci /\ task_cell st (Sched.cj t) = Some cj /\
     c_gt (dx_max ci) (example_maxreldx * h_max ci)%float = true /\
     too_much_movement c_max PrimFloat.add PrimFloat.mul c_gt
       example_maxreldx ci cj = true) /\
  exists st', example_marktasks st = Ok (0, st').
Proof.
  intros st. split.
  - eexists _, _, _. repeat split; vm_compute; reflexivity.
  - eexists. vm_compute. reflexivity.
Qed.

Lemma pair_density_activation_witness :
  let st := example_memory true 0 0 in
  let e := example_engine in
  exists t ci cj,
    tasks st !! 0%nat = Some t /\
    task_cell st (Sched.ci t) = Some ci /\ task_cell st (Sched.cj t) = Some cj /\
    cell_is_active ci e || cell_is_active cj e = true /\
    activated (marked st) (Some 0%nat) /\
    (type t = task_type_pair ->
     forall c, c = ci \/ c = cj ->
     Z.land (sorted c) (Z.shiftl 1 (flags t)) = 0 ->
     sort_requested (marked st) c (Z.shiftl 1 (flags t))) /\
    (with_mpi e = true ->
     (nodeID ci <> engine_rank e ->
      send_recv_activated e st (marked st) ci cj) /\
     (nodeID ci = engine_rank e -> nodeID cj <> engine_rank e ->
      send_recv_activated e st (marked st) cj ci)) /\
    exists st1 st2,
      engine_marktasks_mapper c_max PrimFloat.add PrimFloat.mul c_gt
        example_maxreldx e 0 0 (cleared st) = Ok st1 /\
      engine_marktasks_task c_max PrimFloat.add PrimFloat.mul c_gt
        example_maxreldx e 0 st1 = Ok st2 /\
      cells st2 = cells st1 /\
      forall j tj, tasks st1 !! j = Some tj ->
      exists tj', tasks st2 !! j = Some tj' /\
        (type tj' = type tj /\ subtype tj' = subtype tj /\
         wait tj' = wait tj /\ Sched.ci tj' = Sched.ci tj /\
         Sched.cj tj' = Sched.cj tj /\ tight tj' = tight tj) /\
        (skip tj' = false <->
         skip tj = false \/ j = 0%nat \/ wakes e st t j) /\
        (wakes_sort t ci j \/ wakes_sort t cj j ->
         flags tj' = Z.lor (flags tj) (Z.shiftl 1 (flags t))) /\
        (~ (wakes_sort t ci j \/ wakes_sort t cj j) -> flags tj' = flags tj).
Proof.
  intros st e.
  assert (Hwf : state_wf st) by (apply state_wfb_sound; vm_compute; reflexivity).
  assert (Hpass : example_marktasks st = Ok (0, marked st))
    by (vm_compute; reflexivity).
  eexists _, _, _.
  split; [reflexivity |]. split; [reflexivity |]. split; [reflexivity |].
  split; [reflexivity |].
  refine (pair_density_activation c_max PrimFloat.add PrimFloat.mul c_gt
            example_maxreldx e st 0 (marked st) 0%nat _ _ _
            Hwf Hpass _ _ _ _ _ _); reflexivity.
Defined.

(** The visit of the pair of C5's counterexample: the first visit of the
    pass; it activates the pair, the sort task of the local cell, which is
    not sorted, the recv tasks of the foreign cell, which is active, and the
    send_xv task and the drift task of the local cell, and leaves the other
    tasks skipped. *)
Example example_visit_of_the_pair :
  let st := example_memory true 0 16 in
  exists st2,
    engine_marktasks_task c_max PrimFloat.add PrimFloat.mul c_gt
      example_maxreldx example_engine 0 (cleared st) = Ok st2 /\
    active_tasks st2 = [0; 2; 3; 4; 5; 6; 9]%nat /\
    Forall2 (fun t t2 => flags t2 = flags t \/ type t = task_type_sort)
            (tasks st) (tasks st2).
Proof.
  eexists. split; [vm_compute; reflexivity |].
  split; [vm_compute; reflexivity |].
  repeat constructor; (now left) || (now right).
Qed.

(** C5, as stated, fails: the pass activates a pair-density task between a
    foreign cell that is already sorted along the task's axis and a local
    cell that is not active; the sort task of the first and the send_rho and
    send_ti tasks of the second stay skipped. *)
Lemma sorted_cell_keeps_sort_task_skipped :
  let st := example_memory true 0 16 in
  exists st' t0 t1 t7 t8,
    example_marktasks st = Ok (0, st') /\
    tasks st' !! 0%nat = Some t0 /\ type t0 = task_type_pair /\
    subtype t0 = task_subtype_density /\ skip t0 = false /\
    tasks st' !! 1%nat = Some t1 /\ type t1 = task_type_sort /\
    ci t1 = ci t0 /\ skip t1 = true /\
    tasks st' !! 7%nat = Some t7 /\ type t7 = task_type_send /\
    subtype t7 = task_subtype_rho /\ ci t7 = cj t0 /\ skip t7 = true /\
    tasks st' !! 8%nat = Some t8 /\ type t8 = task_type_send /\
    subtype t8 = task_subtype_tend /\ ci t8 = cj t0 /\ skip t8 = true.
Proof.
  intros st. eexists _, _, _, _, _. split; [vm_compute; reflexivity |].
  repeat split; vm_compute; reflexivity.
Qed.

Lemma engine_marktasks_twice_witness :
  let st := example_memory true 8 0 in
  state_wf st /\ example_marktasks st = Ok (1, marked st) /\
  exists st2, example_marktasks (marked st) = Ok (1, st2) /\
              active_tasks st2 = active_tasks (marked st) /\ st2 = marked st.
Proof.
  intros st.
  assert (Hwf : state_wf st) by (apply state_wfb_sound; vm_compute; reflexivity).
  assert (Hpass : example_marktasks st = Ok (1, marked st))
    by (vm_compute; reflexivity).
  split; [exact Hwf |]. split; [exact Hpass |].
  exact (engine_marktasks_twice c_max PrimFloat.add PrimFloat.mul c_gt
           example_maxreldx example_engine st 1 (marked st) Hwf Hpass).
Defined.

Example example_active_tasks :
  active_tasks (marked (example_memory true 0 0)) =
  [0; 1; 2; 3; 4; 5; 6; 9; 11; 12]%nat.
Proof. vm_compute. reflexivity. Qed.

End MarktasksProofs.

Module CollectProofs.
Import Collect.

(** ** Sums in [int] arithmetic *)

Lemma wrap_int_add_l a b : wrap_int (wrap_int a + b) = wrap_int (a + b).
Proof.
  unfold wrap_int. f_equal.
  replace ((a + 2 ^ 31) mod 2 ^ 32 - 2 ^ 31 + b + 2 ^ 31)
    with ((a + 2 ^ 31) mod 2 ^ 32 + b) by lia.
  rewrite Zplus_mod_idemp_l. f_equal. lia.
Qed.

Lemma wrap_int_add_r a b : wrap_int (a + wrap_int b) = wrap_int (a + b).
Proof. rewrite Z.add_comm, wrap_int_add_l. f_equal. lia. Qed.

Lemma wrap_int_small z : - 2 ^ 31 <= z < 2 ^ 31 -> wrap_int z = z.
Proof. intros Hz. unfold wrap_int. rewrite Z.mod_small; lia. Qed.

Lemma wrap_int_range z : - 2 ^ 31 <= wrap_int z < 2 ^ 31.
Proof.
  unfold wrap_int. pose proof (Z.mod_pos_bound (z + 2 ^ 31) (2 ^ 32)). lia.
Qed.

Lemma wrap_int_idem z : wrap_int (wrap_int z) = wrap_int z.
Proof. apply wrap_int_small, wrap_int_range. Qed.

Lemma cell_induction (Q : cell -> Prop) :
  (forall c,
     Forall (fun k => match k with Some cp => Q cp | None => True end)
            (progeny c) -> Q c) ->
  forall c, Q c.
Proof.
  intros Hstep. fix IH 1. intros c. apply Hstep.
  destruct c as [ts rt n gn sn ti u gu su pr]. cbn [progeny].
  induction pr as [| [cp |] pr IHpr]; constructor; auto.
Qed.

Section collect_proofs.
Context (max_nr_timesteps : Z) (with_mpi : bool).

Local Abbreviation kick := (engine_collect_kick max_nr_timesteps with_mpi).
Local Abbreviation super := (is_super with_mpi).
Local Abbreviation fresh := (no_counters max_nr_timesteps).

(** The loop over the progeny, entry by entry. *)
Lemma collect_loop (l : list (option cell)) acc done :
  foldl (fun '(acc, done) k =>
           match k with
           | Some cp =>
             if has_particles cp then
               let cp := kick cp in
               (add_cell acc cp, done ++ [Some (clear_updated cp)])
             else (acc, done ++ [Some cp])
           | None => (acc, done ++ [None])
           end) (acc, done) l =
  (foldl add_cell acc (collected max_nr_timesteps with_mpi (omap id l)),
   done ++ map (settled_progeny max_nr_timesteps with_mpi) l).
Proof.
  revert acc done. induction l as [| [cp |] l IH]; intros acc done; cbn [foldl].
  - now rewrite app_nil_r.
  - unfold collected. cbn [omap list_omap id map settled_progeny]. rewrite filter_cons.
    destruct (has_particles cp) eqn:Hp.
    + rewrite IH. destruct (decide (true = true)); [| congruence].
      cbn [map foldl]. unfold collected, settled. now rewrite <- app_assoc.
    + rewrite IH. destruct (decide (false = true)); [congruence |].
      unfold collected. now rewrite <- app_assoc.
  - rewrite IH. cbn [omap list_omap id map settled_progeny]. now rewrite <- app_assoc.
Qed.

Lemma engine_collect_kick_unfold c :
  kick c =
  if super c then c
  else
    let acc := foldl add_cell fresh
                 (collected max_nr_timesteps with_mpi (omap id (progeny c))) in
    {| timestep := timestep c; recv_ti := recv_ti c; count := count c;
       gcount := gcount c; scount := scount c;
       ti_end_min := acc_ti_end_min acc;
       updated := acc_updated acc;
       g_updated := acc_g_updated acc;
       s_updated := acc_s_updated acc;
       progeny := map (settled_progeny max_nr_timesteps with_mpi) (progeny c) |}.
Proof.
  destruct c as [ts rt n gn sn ti u gu su pr].
  cbn [engine_collect_kick progeny].
  destruct (super _); [reflexivity |].
  rewrite collect_loop. reflexivity.
Qed.

(** The loop's counters are [int]s all along. *)
Lemma foldl_add_cell acc l :
  wrap_int (acc_updated acc) = acc_updated acc ->
  wrap_int (acc_g_updated acc) = acc_g_updated acc ->
  wrap_int (acc_s_updated acc) = acc_s_updated acc ->
  foldl add_cell acc l =
  {| acc_ti_end_min := foldl Z.min (acc_ti_end_min acc) (map ti_end_min l);
     acc_updated := wrap_int (acc_updated acc + sum_of updated l);
     acc_g_updated := wrap_int (acc_g_updated acc + sum_of g_updated l);
     acc_s_updated := wrap_int (acc_s_updated acc + sum_of s_updated l) |}.
Proof.
  revert acc. induction l as [| c l IH]; intros acc Hu Hg Hs; cbn [foldl map].
  - destruct acc. unfold sum_of. cbn in *. rewrite !Z.add_0_r. congruence.
  - rewrite IH by apply wrap_int_idem.
    unfold sum_of. cbn [add_cell acc_ti_end_min acc_updated
      acc_g_updated acc_s_updated map foldr].
    rewrite !wrap_int_add_l. f_equal; f_equal; lia.
Qed.

Lemma foldl_add_cell_fresh l :
  foldl add_cell fresh l =
  {| acc_ti_end_min := foldl Z.min max_nr_timesteps (map ti_end_min l);
     acc_updated := wrap_int (sum_of updated l);
     acc_g_updated := wrap_int (sum_of g_updated l);
     acc_s_updated := wrap_int (sum_of s_updated l) |}.
Proof. now rewrite foldl_add_cell. Qed.

Lemma sum_of_app f l1 l2 : sum_of f (l1 ++ l2) = sum_of f l1 + sum_of f l2.
Proof.
  unfold sum_of. induction l1 as [| c l1 IH]; cbn; [reflexivity |].
  cbn in IH. rewrite IH. lia.
Qed.

Lemma min_ti_end_le l : min_ti_end max_nr_timesteps l <= max_nr_timesteps.
Proof.
  unfold min_ti_end. induction l as [| c l IH]; cbn; lia.
Qed.

Lemma foldl_min_le a l : foldl Z.min a l <= a.
Proof.
  revert a. induction l as [| x l IH]; intros a; cbn; [lia |].
  specialize (IH (Z.min a x)). lia.
Qed.

Lemma min_ti_end_app l1 l2 :
  min_ti_end max_nr_timesteps (l1 ++ l2) =
  Z.min (min_ti_end max_nr_timesteps l1) (min_ti_end max_nr_timesteps l2).
Proof.
  unfold min_ti_end. induction l1 as [| c l1 IH]; cbn.
  - pose proof (min_ti_end_le l2) as Hle. unfold min_ti_end in Hle. lia.
  - cbn in IH. rewrite IH. lia.
Qed.

Lemma mjoin_cons {A : Type} (l : list A) (ls : list (list A)) :
  mjoin (l :: ls) = l ++ mjoin ls.
Proof. reflexivity. Qed.

Lemma supers_unfold c :
  supers with_mpi c =
  if super c then [c]
  else mjoin (map (fun k => match k with
                            | Some cp =>
                              if has_particles cp then supers with_mpi cp else []
                            | None => []
                            end) (progeny c)).
Proof. now destruct c. Qed.

Lemma collected_cons c l :
  collected max_nr_timesteps with_mpi (c :: l) =
  if has_particles c then kick c :: collected max_nr_timesteps with_mpi l
  else collected max_nr_timesteps with_mpi l.
Proof.
  unfold collected. rewrite filter_cons.
  destruct (has_particles c); destruct (decide _); try congruence; reflexivity.
Qed.

Lemma is_super_kick c : super (kick c) = super c.
Proof.
  rewrite engine_collect_kick_unfold. now destruct (super c) eqn:Hs.
Qed.

Lemma has_particles_kick c : has_particles (kick c) = has_particles c.
Proof.
  rewrite engine_collect_kick_unfold. now destruct (super c).
Qed.

Local Abbreviation below :=
  (fun k : option cell =>
     match k with
     | Some cp => if has_particles cp then supers with_mpi cp else []
     | None => []
     end).

Lemma sum_collected (f : cell -> Z) (pr : list (option cell)) :
  Forall (fun k => match k with
                   | Some cp =>
                     wrap_int (f (kick cp)) =
                     wrap_int (sum_of f (supers with_mpi cp))
                   | None => True
                   end) pr ->
  wrap_int (sum_of f (collected max_nr_timesteps with_mpi (omap id pr))) =
  wrap_int (sum_of f (mjoin (map below pr))).
Proof.
  induction 1 as [| [cp |] pr Hcp _ IHpr];
    cbn [omap list_omap id map]; rewrite ?mjoin_cons;
    [reflexivity | | exact IHpr].
  rewrite collected_cons, sum_of_app.
  destruct (has_particles cp); cbv beta iota; [| exact IHpr].
  unfold sum_of at 1. cbn [map foldr].
  fold (sum_of f (collected max_nr_timesteps with_mpi (omap id pr))).
  rewrite <- wrap_int_add_l, <- wrap_int_add_r, Hcp, IHpr.
  now rewrite wrap_int_add_l, wrap_int_add_r.
Qed.

Lemma min_collected (pr : list (option cell)) :
  Forall (fun k => match k with
                   | Some cp =>
                     forall a, a <= max_nr_timesteps ->
                       Z.min a (ti_end_min (kick cp)) =
                       Z.min a (min_ti_end max_nr_timesteps (supers with_mpi cp))
                   | None => True
                   end) pr ->
  forall a, a <= max_nr_timesteps ->
    foldl Z.min a
      (map ti_end_min (collected max_nr_timesteps with_mpi (omap id pr))) =
    Z.min a (min_ti_end max_nr_timesteps (mjoin (map below pr))).
Proof.
  induction 1 as [| [cp |] pr Hcp _ IHpr]; intros a Ha;
    cbn [omap list_omap id map]; rewrite ?mjoin_cons.
  - unfold min_ti_end. cbn. lia.
  - rewrite collected_cons, min_ti_end_app.
    destruct (has_particles cp); cbv beta iota.
    + cbn [map foldl]. rewrite IHpr by lia. rewrite (Hcp a Ha). lia.
    + rewrite IHpr by assumption. unfold min_ti_end at 2. cbn.
      pose proof (min_ti_end_le (mjoin (map below pr))). lia.
  - now apply IHpr.
Qed.

(** What [engine_collect_kick] leaves in a cell, in terms of the super
    cells below it. *)
Lemma collect_kick_counters c :
  wrap_int (updated (kick c)) = wrap_int (sum_of updated (supers with_mpi c)) /\
  wrap_int (g_updated (kick c)) =
    wrap_int (sum_of g_updated (supers with_mpi c)) /\
  wrap_int (s_updated (kick c)) =
    wrap_int (sum_of s_updated (supers with_mpi c)) /\
  (forall a, a <= max_nr_timesteps ->
     Z.min a (ti_end_min (kick c)) =
     Z.min a (min_ti_end max_nr_timesteps (supers with_mpi c))) /\
  (super c = false ->
     ti_end_min (kick c) = min_ti_end max_nr_timesteps (supers with_mpi c) /\
     updated (kick c) = wrap_int (sum_of updated (supers with_mpi c)) /\
     g_updated (kick c) = wrap_int (sum_of g_updated (supers with_mpi c)) /\
     s_updated (kick c) = wrap_int (sum_of s_updated (supers with_mpi c))).
Proof.
  induction c as [c IH] using cell_induction.
  rewrite engine_collect_kick_unfold, supers_unfold.
  destruct (super c) eqn:Hs.
  { unfold sum_of, min_ti_end. cbn [map foldr]. rewrite !Z.add_0_r.
    split; [reflexivity |]. split; [reflexivity |]. split; [reflexivity |].
    split; [intros a Ha; lia | discriminate]. }
  cbn [updated g_updated s_updated ti_end_min].
  rewrite foldl_add_cell_fresh.
  cbn [acc_updated acc_g_updated acc_s_updated acc_ti_end_min no_counters].
  assert (Hmin : forall a, a <= max_nr_timesteps ->
            foldl Z.min a
              (map ti_end_min (collected max_nr_timesteps with_mpi (omap id (progeny c)))) =
            Z.min a (min_ti_end max_nr_timesteps (mjoin (map below (progeny c))))).
  { apply min_collected. eapply Forall_impl; [exact IH |].
    intros [cp |]; [| auto]. now intros (_ & _ & _ & ? & _). }
  pose proof (min_ti_end_le (mjoin (map below (progeny c)))) as Hle.
  assert (Hu : wrap_int (sum_of updated
                 (collected max_nr_timesteps with_mpi (omap id (progeny c)))) =
               wrap_int (sum_of updated (mjoin (map below (progeny c))))).
  { apply sum_collected.
    eapply Forall_impl; [exact IH |]. intros [cp |]; [| auto]. now intros (? & _). }
  assert (Hg : wrap_int (sum_of g_updated
                 (collected max_nr_timesteps with_mpi (omap id (progeny c)))) =
               wrap_int (sum_of g_updated (mjoin (map below (progeny c))))).
  { apply sum_collected.
    eapply Forall_impl; [exact IH |]. intros [cp |]; [| auto].
    now intros (_ & ? & _). }
  assert (Hsu : wrap_int (sum_of s_updated
                  (collected max_nr_timesteps with_mpi (omap id (progeny c)))) =
                wrap_int (sum_of s_updated (mjoin (map below (progeny c))))).
  { apply sum_collected.
    eapply Forall_impl; [exact IH |]. intros [cp |]; [| auto].
    now intros (_ & _ & ? & _). }
  rewrite !wrap_int_idem.
  split; [exact Hu |]. split; [exact Hg |]. split; [exact Hsu |].
  split.
  - intros a Ha. rewrite Hmin by lia. lia.
  - intros _. split; [rewrite Hmin by lia; lia |].
    split; [exact Hu |]. split; [exact Hg | exact Hsu].
Qed.

Lemma clear_updated_twice c : clear_updated (clear_updated c) = clear_updated c.
Proof. reflexivity. Qed.

Lemma settled_fields c :
  has_particles (settled max_nr_timesteps with_mpi c) = has_particles c /\
  super (settled max_nr_timesteps with_mpi c) = super c /\
  ti_end_min (settled max_nr_timesteps with_mpi c) = ti_end_min (kick c) /\
  updated (settled max_nr_timesteps with_mpi c) = 0 /\
  g_updated (settled max_nr_timesteps with_mpi c) = 0 /\
  s_updated (settled max_nr_timesteps with_mpi c) = 0.
Proof.
  unfold settled. split; [apply has_particles_kick |].
  split; [apply is_super_kick |]. repeat split.
Qed.

(** Collecting over settled progeny: the same times, no updates, and the
    progeny stay as they are. *)
Lemma collected_settled (pr : list (option cell)) :
  Forall (fun k => match k with
                   | Some cp => kick (settled max_nr_timesteps with_mpi cp) =
                                settled max_nr_timesteps with_mpi cp
                   | None => True
                   end) pr ->
  let pr' := map (settled_progeny max_nr_timesteps with_mpi) pr in
  map ti_end_min (collected max_nr_timesteps with_mpi (omap id pr')) =
    map ti_end_min (collected max_nr_timesteps with_mpi (omap id pr)) /\
  sum_of updated (collected max_nr_timesteps with_mpi (omap id pr')) = 0 /\
  sum_of g_updated (collected max_nr_timesteps with_mpi (omap id pr')) = 0 /\
  sum_of s_updated (collected max_nr_timesteps with_mpi (omap id pr')) = 0 /\
  map (settled_progeny max_nr_timesteps with_mpi) pr' = pr'.
Proof.
  induction 1 as [| [cp |] pr Hcp _ IHpr]; cbn zeta in *.
  - repeat split.
  - destruct IHpr as (Ht & Hu & Hg & Hs & Hp).
    destruct (settled_fields cp) as (Hhp & _ & Hti & Hup & Hgu & Hsu).
    cbn [map settled_progeny omap list_omap id].
    destruct (has_particles cp) eqn:Hpart; cbn [omap list_omap id].
    + assert (Hss : settled max_nr_timesteps with_mpi
                      (settled max_nr_timesteps with_mpi cp) =
                    settled max_nr_timesteps with_mpi cp).
      { unfold settled at 1. rewrite Hcp. reflexivity. }
      rewrite !collected_cons, Hhp, Hpart, Hcp.
      unfold sum_of in *. cbn [map foldr settled_progeny].
      rewrite Hhp, ?Hpart, Hti, Hup, Hgu, Hsu, Ht, Hu, Hg, Hs, Hp, Hss.
      repeat split.
    + rewrite !collected_cons, Hpart.
      cbn [map settled_progeny]. rewrite Hpart, Hp. repeat split; assumption.
  - destruct IHpr as (Ht & Hu & Hg & Hs & Hp).
    cbn [map settled_progeny omap list_omap id]. rewrite Hp. repeat split; assumption.
Qed.

(** A cell that has been collected and cleared is left as it is by another
    [engine_collect_kick]. *)
Lemma engine_collect_kick_settled c :
  kick (settled max_nr_timesteps with_mpi c) = settled max_nr_timesteps with_mpi c.
Proof.
  induction c as [c IH] using cell_induction.
  rewrite (engine_collect_kick_unfold (settled _ _ c)).
  destruct (settled_fields c) as (_ & -> & _).
  destruct (super c) eqn:Hs; [reflexivity |].
  unfold settled at 1 2 3 4 5 6 7. rewrite (engine_collect_kick_unfold c), Hs.
  cbn [clear_updated timestep recv_ti count gcount scount progeny ti_end_min].
  destruct (collected_settled (progeny c) IH) as (Ht & Hu & Hg & Hsu & Hp).
  cbn zeta in *.
  rewrite !foldl_add_cell_fresh.
  cbn [acc_ti_end_min acc_updated acc_g_updated acc_s_updated no_counters].
  rewrite Ht, Hu, Hg, Hsu, Hp.
  unfold settled. rewrite (engine_collect_kick_unfold c), Hs.
  cbn [clear_updated timestep recv_ti count gcount scount progeny ti_end_min].
  rewrite foldl_add_cell_fresh. reflexivity.
Qed.

Lemma omap_id_Some {A : Type} (l : list A) : omap id (map Some l) = l.
Proof. induction l as [| x l IH]; cbn; [reflexivity | now rewrite IH]. Qed.

(** The loop over the top-level cells, cell by cell. *)
Lemma collect_top_loop (l : list cell) acc done :
  foldl (fun '(acc, done) c =>
           if has_particles c then
             let c := kick c in
             (add_cell acc c, done ++ [clear_updated c])
           else (acc, done ++ [c])) (acc, done) l =
  (foldl add_cell acc (collected max_nr_timesteps with_mpi l),
   done ++ omap (settled_progeny max_nr_timesteps with_mpi) (map Some l)).
Proof.
  revert acc done. induction l as [| c l IH]; intros acc done; cbn [foldl].
  - now rewrite app_nil_r.
  - rewrite collected_cons. cbn [map omap list_omap settled_progeny].
    destruct (has_particles c); rewrite IH; cbn [foldl];
      now rewrite <- app_assoc.
Qed.

Lemma omap_settled_progeny (l : list cell) :
  map Some (omap (settled_progeny max_nr_timesteps with_mpi) (map Some l)) =
  map (settled_progeny max_nr_timesteps with_mpi) (map Some l).
Proof.
  induction l as [| c l IH]; [reflexivity |].
  cbn [map omap list_omap settled_progeny].
  destruct (has_particles c); cbn [map]; now rewrite IH.
Qed.

Lemma top_supers_below (l : list cell) :
  top_supers with_mpi l = mjoin (map below (map Some l)).
Proof. unfold top_supers. now rewrite map_map. Qed.

Context (allreduce_min : Z -> result Z)
        (allreduce_sum : Z * Z * Z -> result (Z * Z * Z)).

Local Abbreviation collect_timestep :=
  (engine_collect_timestep max_nr_timesteps with_mpi allreduce_min allreduce_sum).

Lemma engine_collect_timestep_unfold (cells_top : list cell) :
  with_mpi = false ->
  collect_timestep cells_top =
  let acc := foldl add_cell fresh (collected max_nr_timesteps with_mpi cells_top) in
  Ok (omap (settled_progeny max_nr_timesteps with_mpi) (map Some cells_top),
      {| e_ti_end_min := acc_ti_end_min acc;
         updates := to_size_t (acc_updated acc);
         g_updates := to_size_t (acc_g_updated acc);
         s_updates := to_size_t (acc_s_updated acc) |}).
Proof.
  intros Hmpi. unfold engine_collect_timestep.
  rewrite collect_top_loop, Hmpi. reflexivity.
Qed.

(** X9. [engine_collect_kick] leaves a cell that has a time-step task (or,
    with MPI, a [recv_ti] task) as it is. In any other cell it stores the
    least [ti_end_min], [max_nr_timesteps] at most, and the sums of the
    three update counters of the super cells below it that are reached
    through cells holding particles, each sum wrapped around as the [int]
    it is computed in (so the sum itself when it fits an [int]); and it
    leaves the counters of every progeny that holds particles at zero. *)
Theorem engine_collect_kick_collects (c : cell) :
  let c' := engine_collect_kick max_nr_timesteps with_mpi c in
  (is_super with_mpi c = true -> c' = c) /\
  (is_super with_mpi c = false ->
     ti_end_min c' = min_ti_end max_nr_timesteps (supers with_mpi c) /\
     updated c' = wrap_int (sum_of updated (supers with_mpi c)) /\
     g_updated c' = wrap_int (sum_of g_updated (supers with_mpi c)) /\
     s_updated c' = wrap_int (sum_of s_updated (supers with_mpi c)) /\
     (forall f, f = updated \/ f = g_updated \/ f = s_updated ->
        - 2 ^ 31 <= sum_of f (supers with_mpi c) < 2 ^ 31 ->
        f c' = sum_of f (supers with_mpi c)) /\
     Forall (fun k => match k with
                      | Some cp =>
                        has_particles cp = true ->
                        updated cp = 0 /\ g_updated cp = 0 /\ s_updated cp = 0
                      | None => True
                      end) (progeny c')).
Proof.
  intros c'. subst c'. split.
  - intros Hs. now rewrite engine_collect_kick_unfold, Hs.
  - intros Hs.
    destruct (collect_kick_counters c) as (_ & _ & _ & _ & Hc).
    destruct (Hc Hs) as (Hti & Hu & Hg & Hsu).
    split; [exact Hti |]. split; [exact Hu |]. split; [exact Hg |].
    split; [exact Hsu |]. split.
    { intros f [-> | [-> | ->]] Hfit;
        [rewrite Hu | rewrite Hg | rewrite Hsu]; now apply wrap_int_small. }
    rewrite engine_collect_kick_unfold, Hs. cbn [progeny].
    apply Forall_forall. intros k Hk.
    apply list_elem_of_fmap in Hk as (k0 & -> & _).
    destruct k0 as [cp |]; cbn [settled_progeny]; [| exact I].
    destruct (has_particles cp) eqn:Hp; [| congruence].
    intros _. repeat split.
Qed.

(** X10. Without MPI, [engine_collect_timestep] stores in the engine the
    least [ti_end_min], [max_nr_timesteps] at most, and the sums of the
    three update counters over the super cells below the top-level cells
    that hold particles: each sum wrapped around as the [int] it is computed
    in and then converted to [size_t], so the sum itself when it is not
    negative and fits an [int], and a number of 2^64 - 2^31 at least when
    the [int] has wrapped to a negative one. *)
Theorem engine_collect_timestep_collects (cells_top cells' : list cell)
    (e : engine) :
  with_mpi = false ->
  engine_collect_timestep max_nr_timesteps with_mpi allreduce_min allreduce_sum
    cells_top = Ok (cells', e) ->
  let total f := sum_of f (top_supers with_mpi cells_top) in
  e_ti_end_min e = min_ti_end max_nr_timesteps (top_supers with_mpi cells_top) /\
  updates e = to_size_t (wrap_int (total updated)) /\
  g_updates e = to_size_t (wrap_int (total g_updated)) /\
  s_updates e = to_size_t (wrap_int (total s_updated)) /\
  (0 <= total updated < 2 ^ 31 -> updates e = total updated) /\
  (0 <= total g_updated < 2 ^ 31 -> g_updates e = total g_updated) /\
  (0 <= total s_updated < 2 ^ 31 -> s_updates e = total s_updated) /\
  (wrap_int (total updated) < 0 -> 2 ^ 64 - 2 ^ 31 <= updates e).
Proof.
  intros Hmpi Hrun total.
  rewrite engine_collect_timestep_unfold in Hrun by assumption.
  cbn zeta in Hrun. inversion Hrun; subst cells' e; clear Hrun.
  rewrite foldl_add_cell_fresh.
  cbn [e_ti_end_min updates g_updates s_updates acc_ti_end_min acc_updated
       acc_g_updated acc_s_updated no_counters].
  subst total. cbv beta. rewrite top_supers_below.
  assert (Hall : Forall (fun k : option cell =>
                   match k with
                   | Some cp =>
                     wrap_int (updated (kick cp)) =
                       wrap_int (sum_of updated (supers with_mpi cp)) /\
                     wrap_int (g_updated (kick cp)) =
                       wrap_int (sum_of g_updated (supers with_mpi cp)) /\
                     wrap_int (s_updated (kick cp)) =
                       wrap_int (sum_of s_updated (supers with_mpi cp)) /\
                     (forall a, a <= max_nr_timesteps ->
                        Z.min a (ti_end_min (kick cp)) =
                        Z.min a (min_ti_end max_nr_timesteps (supers with_mpi cp)))
                   | None => True
                   end) (map Some cells_top)).
  { apply Forall_forall. intros k Hk.
    apply list_elem_of_fmap in Hk as (c & -> & _).
    destruct (collect_kick_counters c) as (? & ? & ? & ? & _). auto. }
  pose proof (min_ti_end_le (mjoin (map below (map Some cells_top)))) as Hle.
  assert (Hu : wrap_int (sum_of updated
                 (collected max_nr_timesteps with_mpi cells_top)) =
               wrap_int (sum_of updated (mjoin (map below (map Some cells_top))))).
  { rewrite <- (omap_id_Some cells_top) at 1. apply sum_collected.
    eapply Forall_impl; [exact Hall |]. intros [cp |]; [| auto]. now intros (? & _). }
  assert (Hg : wrap_int (sum_of g_updated
                 (collected max_nr_timesteps with_mpi cells_top)) =
               wrap_int (sum_of g_updated (mjoin (map below (map Some cells_top))))).
  { rewrite <- (omap_id_Some cells_top) at 1. apply sum_collected.
    eapply Forall_impl; [exact Hall |]. intros [cp |]; [| auto].
    now intros (_ & ? & _). }
  assert (Hs : wrap_int (sum_of s_updated
                 (collected max_nr_timesteps with_mpi cells_top)) =
               wrap_int (sum_of s_updated (mjoin (map below (map Some cells_top))))).
  { rewrite <- (omap_id_Some cells_top) at 1. apply sum_collected.
    eapply Forall_impl; [exact Hall |]. intros [cp |]; [| auto].
    now intros (_ & _ & ? & _). }
  rewrite Hu, Hg, Hs.
  assert (Hfit : forall z, 0 <= z < 2 ^ 31 -> to_size_t (wrap_int z) = z).
  { intros z Hz. rewrite wrap_int_small by lia. unfold to_size_t.
    apply Z.mod_small. lia. }
  split.
  { rewrite <- (omap_id_Some cells_top) at 1.
    rewrite min_collected; [lia | | lia].
    eapply Forall_impl; [exact Hall |].
    intros [cp |]; [| auto]. now intros (_ & _ & _ & ?). }
  split; [reflexivity |]. split; [reflexivity |]. split; [reflexivity |].
  split; [apply Hfit |]. split; [apply Hfit |]. split; [apply Hfit |].
  intros Hneg.
  pose proof (wrap_int_range
                (sum_of updated (mjoin (map below (map Some cells_top))))) as Hr.
  unfold to_size_t.
  rewrite <- (Z.mod_add _ 1 (2 ^ 64)) by lia.
  rewrite Z.mod_small; lia.
Qed.

(** X11. Without MPI, the counters that [engine_collect_timestep] has
    collected are cleared on the way: a second call, with nothing done to
    the cells in between, leaves the cells as they are and stores the same
    [ti_end_min], but zero updates of every kind. *)
Theorem engine_collect_timestep_again (cells_top cells' : list cell)
    (e : engine) :
  with_mpi = false ->
  engine_collect_timestep max_nr_timesteps with_mpi allreduce_min allreduce_sum
    cells_top = Ok (cells', e) ->
  engine_collect_timestep max_nr_timesteps with_mpi allreduce_min allreduce_sum
    cells' =
  Ok (cells', {| e_ti_end_min := e_ti_end_min e; updates := 0;
                 g_updates := 0; s_updates := 0 |}).
Proof.
  intros Hmpi Hrun. rewrite engine_collect_timestep_unfold in Hrun by assumption.
  cbn zeta in Hrun. inversion Hrun; subst cells' e; clear Hrun.
  rewrite engine_collect_timestep_unfold by assumption. cbn zeta.
  set (cells' := omap (settled_progeny max_nr_timesteps with_mpi) (map Some cells_top)).
  assert (Hall : Forall (fun k : option cell =>
                   match k with
                   | Some cp => kick (settled max_nr_timesteps with_mpi cp) =
                                settled max_nr_timesteps with_mpi cp
                   | None => True
                   end) (map Some cells_top)).
  { apply Forall_forall. intros k Hk.
    apply list_elem_of_fmap in Hk as (c & -> & _).
    apply engine_collect_kick_settled. }
  destruct (collected_settled (map Some cells_top) Hall) as (Ht & Hu & Hg & Hs & Hp).
  cbn zeta in *.
  rewrite <- omap_settled_progeny in Ht, Hu, Hg, Hs, Hp. fold cells' in Ht, Hu, Hg, Hs, Hp.
  rewrite omap_id_Some in Ht, Hu, Hg, Hs.
  rewrite omap_id_Some in Ht.
  rewrite !foldl_add_cell_fresh.
  cbn [e_ti_end_min updates g_updates s_updates acc_ti_end_min acc_updated
       acc_g_updated acc_s_updated no_counters].
  rewrite Ht, Hu, Hg, Hs.
  change (to_size_t (wrap_int 0)) with 0.
  do 2 f_equal.
  apply (inj (map Some)). rewrite omap_settled_progeny. exact Hp.
Qed.

End collect_proofs.

Lemma engine_collect_timestep_collects_witness :
  let e := (example_collect [example_top]).2 in
  let total f := sum_of f (top_supers false [example_top]) in
  e_ti_end_min e = min_ti_end (2 ^ 28) (top_supers false [example_top]) /\
  updates e = to_size_t (wrap_int (total updated)) /\
  g_updates e = to_size_t (wrap_int (total g_updated)) /\
  s_updates e = to_size_t (wrap_int (total s_updated)) /\
  (0 <= total updated < 2 ^ 31 -> updates e = total updated) /\
  (0 <= total g_updated < 2 ^ 31 -> g_updates e = total g_updated) /\
  (0 <= total s_updated < 2 ^ 31 -> s_updates e = total s_updated) /\
  (wrap_int (total updated) < 0 -> 2 ^ 64 - 2 ^ 31 <= updates e).
Proof.
  apply (engine_collect_timestep_collects (2 ^ 28) false Ok Ok [example_top]
           (example_collect [example_top]).1).
  - reflexivity.
  - vm_compute. reflexivity.
Defined.

(** Two top-level cells with [INT_MAX] updated particles each: the sum
    wraps to -2, which the engine holds as 2^64 - 2. *)
Example example_updates_wrap :
  let cells_top := [example_full (2 ^ 31 - 1); example_full (2 ^ 31 - 1)] in
  sum_of updated (top_supers false cells_top) = 4294967294 /\
  updates (example_collect cells_top).2 = 18446744073709551614.
Proof. split; vm_compute; reflexivity. Qed.

Lemma engine_collect_timestep_again_witness :
  let r := example_collect [example_top] in
  engine_collect_timestep (2 ^ 28) false Ok Ok r.1 =
  Ok (r.1, {| e_ti_end_min := e_ti_end_min r.2; updates := 0;
              g_updates := 0; s_updates := 0 |}).
Proof.
  apply (engine_collect_timestep_again (2 ^ 28) false Ok Ok [example_top]).
  - reflexivity.
  - vm_compute. reflexivity.
Defined.

End CollectProofs.

Module PassesProofs.
Import Facts Sched Marktasks MarktasksProofs Passes.

Section passes_proofs.
Context {real : Type}.
Context (fmax fadd fmul : real -> real -> real) (fgt : real -> real -> bool).
Context (space_maxreldx : real).

Local Abbreviation state := (state (real := real)).
Local Abbreviation cell := (cell (real := real)).
Local Abbreviation plan := (plan fmax fadd fmul fgt space_maxreldx).
Local Abbreviation full_plan := (full_plan fmax fadd fmul fgt space_maxreldx).
Local Abbreviation engine_marktasks :=
  (engine_marktasks fmax fadd fmul fgt space_maxreldx).

(** *** What a pass leaves of the memory it started from *)

Lemma pass_static e (st : state) r st' :
  state_wf st -> engine_marktasks e st = Ok (r, st') -> static st' = static st.
Proof.
  intros Hwf Hpass.
  destruct (pass_run _ _ _ _ _ e st r st' Hwf Hpass) as (Hrun & _).
  rewrite <- (static_cleared st). eapply run_static; [| exact Hrun].
  intros t bits Hin. apply elem_of_full_plan in Hin as (ind & _ & Hin).
  eapply has_type_static; [symmetry; apply static_cleared |].
  eapply targeted_plan; eassumption.
Qed.

Lemma static_length (st st' : state) :
  static st' = static st ->
  length (tasks st') = length (tasks st) /\
  length (cells st') = length (cells st).
Proof.
  intros Hs. split.
  - pose proof (f_equal (fun s => length (tasks s)) Hs) as Hl. cbn in Hl.
    now rewrite !length_fmap in Hl.
  - pose proof (f_equal (fun s => length (cells s)) Hs) as Hl. cbn in Hl.
    now rewrite !length_fmap in Hl.
Qed.

(** X12. [engine_marktasks] only ever activates: a pass that returns leaves
    as many tasks as there were; every task keeps its type, subtype, wait
    counter, cells and tightness, and, unless it is a sort task, its flags;
    the flags of a sort task only gain bits; and a task that was active
    before the pass is active after it, whatever the state of its cells. *)
Theorem engine_marktasks_only_activates e (st : state) r st' :
  state_wf st -> engine_marktasks e st = Ok (r, st') ->
  length (tasks st') = length (tasks st) /\
  forall ind t, tasks st !! ind = Some t ->
  exists t', tasks st' !! ind = Some t' /\
    type t' = type t /\ subtype t' = subtype t /\ wait t' = wait t /\
    ci t' = ci t /\ cj t' = cj t /\ tight t' = tight t /\
    (type t <> task_type_sort -> flags t' = flags t) /\
    (forall bits, Z.land (flags t) bits = bits ->
                  Z.land (flags t') bits = bits) /\
    (skip t = false -> skip t' = false).
Proof.
  intros Hwf Hpass.
  pose proof (pass_static e st r st' Hwf Hpass) as Hs.
  split; [apply (static_length _ _ Hs) |].
  intros ind t Ht.
  destruct (pass_run _ _ _ _ _ e st r st' Hwf Hpass) as (Hrun & _).
  assert (Htc : tasks (cleared st) !! ind = Some t) by exact Ht.
  pose proof (run_task _ _ _ ind t Hrun Htc) as Ht'.
  eexists. split; [exact Ht' |].
  destruct (static_eq_task st st' ind t (eq_sym Hs) Ht) as (t1 & Ht1 & Hst).
  rewrite Ht' in Ht1. injection Ht1 as <-.
  destruct (task_static_type _ _ Hst) as (Hty & Hsub & Hci & Hcj & Htight & Hfl).
  repeat split; try assumption.
  - exact (f_equal wait Hst).
  - intros bits. apply foldl_flags_kept.
  - apply foldl_skip_false.
Qed.

(** *** Which cells a plan clears the update counters of *)

Lemma cleared_cells_app p q :
  cleared_cells (p ++ q) = cleared_cells p ++ cleared_cells q.
Proof. apply omap_app. Qed.

Lemma cleared_cells_active e ind (c : cell) :
  cleared_cells (plan_active e ind c) = [].
Proof. unfold plan_active. now destruct (cell_is_active c e). Qed.

Lemma cleared_cells_deref_activate p : cleared_cells (plan_deref_activate p) = [].
Proof. now destruct p. Qed.

Lemma cleared_cells_link (st : state) msg links node :
  cleared_cells (plan_link st msg links node) = [].
Proof. unfold plan_link. now destruct (find_link st links node) as [[l |] | m]. Qed.

Lemma cleared_cells_sort (st : state) ind (c : cell) :
  cleared_cells (plan_sort st ind c) = [].
Proof.
  unfold plan_sort. destruct (task_at st ind); [| reflexivity].
  destruct (negb _); [| reflexivity]. now destruct (sorts c).
Qed.

Lemma cleared_cells_with_cell (st : state) p (k : cell -> list action) :
  (forall c, cleared_cells (k c) = []) ->
  cleared_cells (plan_with_cell st p k) = [].
Proof.
  intros Hk. unfold plan_with_cell. destruct p as [i |]; [| reflexivity].
  destruct (cell_at st i); [apply Hk | reflexivity].
Qed.

Lemma cleared_cells_send_recv (st : state) e (ci cj : cell) :
  cleared_cells (plan_send_recv st e ci cj) = [].
Proof.
  unfold plan_send_recv.
  rewrite !cleared_cells_app, !cleared_cells_deref_activate,
    !cleared_cells_link.
  rewrite cleared_cells_with_cell by (intros c; now destruct (drift c)).
  destruct (cell_is_active ci e), (cell_is_active cj e);
    now rewrite ?cleared_cells_app, ?cleared_cells_deref_activate,
      ?cleared_cells_link.
Qed.

Lemma cleared_cells_plan e (st : state) ind t :
  tasks st !! ind = Some t ->
  cleared_cells (plan e st ind) =
  if bool_decide (type t = task_type_timestep) then option_list (ci t) else [].
Proof.
  intros Ht. unfold Marktasks.plan, task_at. rewrite Ht.
  destruct (is_single_cell_type (type t)) eqn:Hs.
  { rewrite cleared_cells_with_cell by apply cleared_cells_active.
    rewrite bool_decide_eq_false_2; [reflexivity |].
    intros Hty. rewrite Hty in Hs. discriminate. }
  destruct (is_pair_type (type t)) eqn:Hp.
  { rewrite (bool_decide_eq_false_2 (type t = task_type_timestep))
      by (intros Hty; rewrite Hty in Hp; discriminate).
    apply cleared_cells_with_cell. intros ci.
    apply cleared_cells_with_cell. intros cj.
    rewrite cleared_cells_app.
    assert (H0 : cleared_cells
              (if tight t && too_much_movement fmax fadd fmul fgt
                                space_maxreldx ci cj
               then [Rebuild] else []) = []) by now destruct (_ && _).
    rewrite H0. cbn [app].
    destruct (_ || _); [| reflexivity].
    cbn [cleared_cells omap list_omap]. fold cleared_cells.
    change (omap _ ?l) with (cleared_cells l).
    destruct (negb _); [reflexivity |].
    rewrite cleared_cells_app.
    assert (H1 : cleared_cells
              (if bool_decide (type t = task_type_pair)
               then plan_sort st ind ci ++ plan_sort st ind cj
               else []) = []).
    { destruct (bool_decide _); [| reflexivity].
      now rewrite cleared_cells_app, !cleared_cells_sort. }
    rewrite H1. cbn [app].
    destruct (with_mpi e); [| reflexivity].
    destruct (negb _); [apply cleared_cells_send_recv |].
    destruct (negb _); [apply cleared_cells_send_recv | reflexivity]. }
  destruct (is_kick_drift_init_type (type t)) eqn:Hk.
  { rewrite cleared_cells_with_cell by apply cleared_cells_active.
    rewrite bool_decide_eq_false_2; [reflexivity |].
    intros Hty. rewrite Hty in Hk. discriminate. }
  destruct (bool_decide (type t = task_type_timestep)).
  { destruct (ci t) as [c |]; [| reflexivity].
    cbn [cleared_cells omap list_omap option_list]. fold cleared_cells.
    change (omap _ ?l) with (cleared_cells l).
    destruct (cell_at st c); [| reflexivity].
    now rewrite cleared_cells_active. }
  now destruct (is_no_cell_type _).
Qed.

Lemma cleared_cells_elem c acts :
  c ∈ cleared_cells acts <-> ClearUpdated c ∈ acts.
Proof.
  unfold cleared_cells. rewrite list_elem_of_omap. split.
  - intros (a & Hin & Ha). destruct a; try discriminate.
    now injection Ha as ->.
  - intros Hin. now exists (ClearUpdated c).
Qed.

Lemma clear_in_full_plan e (st : state) c :
  ClearUpdated c ∈ full_plan e st <-> has_timestep st c = true.
Proof.
  rewrite elem_of_full_plan. unfold has_timestep.
  rewrite existsb_exists. split.
  - intros (ind & Hlt & Hin).
    destruct (lookup_lt_is_Some_2 (tasks st) ind Hlt) as (t & Ht).
    apply cleared_cells_elem in Hin.
    rewrite (cleared_cells_plan e st ind t Ht) in Hin.
    destruct (bool_decide (type t = task_type_timestep)) eqn:Hty;
      [| now apply elem_of_nil in Hin].
    apply bool_decide_eq_true in Hty.
    destruct (ci t) as [c' |] eqn:Hci; [| now apply elem_of_nil in Hin].
    apply list_elem_of_singleton in Hin as ->.
    exists t. split.
    + apply list_elem_of_In. eapply list_elem_of_lookup_2; exact Ht.
    + apply bool_decide_eq_true. now split.
  - intros (t & Hin & Hb). apply bool_decide_eq_true in Hb as (Hty & Hci).
    apply list_elem_of_In, list_elem_of_lookup_1 in Hin as (ind & Ht).
    exists ind. split; [now apply lookup_lt_Some in Ht |].
    apply cleared_cells_elem.
    rewrite (cleared_cells_plan e st ind t Ht), Hci.
    rewrite bool_decide_eq_true_2 by assumption. apply list_elem_of_here.
Qed.

Lemma reset_updated_twice (c : cell) :
  reset_updated (reset_updated c) = reset_updated c.
Proof. reflexivity. Qed.

Lemma run_cell acts (st st' : state) i c :
  run acts st = Ok st' -> cells st !! i = Some c ->
  cells st' !! i =
  Some (if decide (ClearUpdated i ∈ acts) then reset_updated c else c).
Proof.
  revert st c. induction acts as [| a acts IH]; intros st c Hrun Hc.
  - inversion Hrun; subst st'. rewrite decide_False; [exact Hc |].
    intros Hin. now apply elem_of_nil in Hin.
  - rewrite run_cons in Hrun. apply result_bind_ok in Hrun as (st1 & Ha & Hrun).
    assert (Hc1 : cells st1 !! i =
                  Some (if decide (a = ClearUpdated i) then reset_updated c
                        else c)).
    { destruct a as [j | j bits | c' | | msg]; cbn in Ha.
      - unfold scheduler_activate, update_task in Ha.
        destruct (tasks st !! j); [| discriminate]. injection Ha as <-.
        now rewrite decide_False.
      - unfold atomic_or_flags, update_task in Ha.
        destruct (tasks st !! j); [| discriminate]. injection Ha as <-.
        now rewrite decide_False.
      - unfold clear_updated in Ha.
        destruct (cells st !! c'); [| discriminate]. injection Ha as <-.
        cbn [cells]. rewrite (lookup_alter_decide _ _ c' i c Hc).
        destruct (decide (c' = i)) as [-> | Hne].
        + now rewrite decide_True.
        + rewrite decide_False; [reflexivity | congruence].
      - injection Ha as <-. now rewrite decide_False.
      - discriminate. }
    rewrite (IH st1 _ Hrun Hc1).
    destruct (decide (a = ClearUpdated i)) as [-> | Hne].
    + rewrite (decide_True (P := ClearUpdated i ∈ ClearUpdated i :: acts))
        by apply list_elem_of_here.
      now destruct (decide (ClearUpdated i ∈ acts)).
    + destruct (decide (ClearUpdated i ∈ acts)) as [Hin | Hnin].
      * rewrite decide_True; [reflexivity | now apply list_elem_of_further].
      * rewrite decide_False; [reflexivity |].
        intros Hin. apply elem_of_cons in Hin as [Heq | Hin]; congruence.
Qed.

(** X13. A pass of [engine_marktasks] that returns has zeroed the three
    update counters of every cell that some time-step task is on, whether
    the cell is active or not, and has left every other cell, and every
    other field of those cells, as it was. *)
Theorem engine_marktasks_clears_updated e (st : state) r st' :
  state_wf st -> engine_marktasks e st = Ok (r, st') ->
  length (cells st') = length (cells st) /\
  forall i c, cells st !! i = Some c ->
    cells st' !! i = Some (if has_timestep st i then reset_updated c else c).
Proof.
  intros Hwf Hpass.
  pose proof (pass_static e st r st' Hwf Hpass) as Hs.
  split; [apply (static_length _ _ Hs) |].
  intros i c Hc.
  destruct (pass_run _ _ _ _ _ e st r st' Hwf Hpass) as (Hrun & _).
  assert (Hcc : cells (cleared st) !! i = Some c) by exact Hc.
  rewrite (run_cell _ _ _ i c Hrun Hcc).
  destruct (decide (ClearUpdated i ∈ full_plan e st)) as [Hin | Hnin].
  - apply clear_in_full_plan in Hin. now rewrite Hin.
  - destruct (has_timestep st i) eqn:Hh; [| reflexivity].
    exfalso. apply Hnin. now apply clear_in_full_plan.
Qed.

(** *** The skip passes, task by task *)

Lemma skip_loop cond (ts : list task) n :
  (n <= length ts)%nat ->
  forall j, foldl (skip_if cond) ts (seq 0 n) !! j =
            if decide (j < n)%nat then skipped_if cond <$> ts !! j
            else ts !! j.
Proof.
  induction n as [| n IH]; intros Hn j.
  - cbn. destruct (decide (j < 0)%nat); [lia | reflexivity].
  - rewrite seq_S, foldl_app. cbn [foldl Nat.add].
    assert (Hle : (n <= length ts)%nat) by lia. specialize (IH Hle).
    set (acc := foldl (skip_if cond) ts (seq 0 n)) in *.
    assert (Hlt : (n < length ts)%nat) by lia.
    destruct (lookup_lt_is_Some_2 ts n Hlt) as (t & Ht).
    assert (Hn0 : acc !! n = Some t)
      by (rewrite (IH n), decide_False by lia; exact Ht).
    unfold skip_if. rewrite Hn0.
    destruct (decide (j = n)) as [-> | Hne].
    + rewrite decide_True by lia. rewrite Ht. cbn. unfold skipped_if.
      destruct (cond t); [| exact Hn0].
      apply list_lookup_insert_eq. now apply lookup_lt_Some in Hn0.
    + assert (Hk : (if cond t then <[n := set_skip true t]> acc else acc) !! j
                   = acc !! j).
      { destruct (cond t); [| reflexivity]. now rewrite list_lookup_insert_ne. }
      rewrite Hk, (IH j).
      destruct (decide (j < n)%nat), (decide (j < S n)%nat);
        try reflexivity; lia.
Qed.

Lemma skip_pass_fmap cond (ts : list task) :
  foldl (skip_if cond) ts (seq 0 (length ts)) = skipped_if cond <$> ts.
Proof.
  apply list_eq. intros j.
  rewrite (skip_loop cond ts (length ts) (le_n _) j), list_lookup_fmap.
  destruct (decide (j < length ts)%nat) as [Hlt | Hge]; [reflexivity |].
  rewrite (lookup_ge_None_2 ts j) by lia. reflexivity.
Qed.

Lemma engine_skip_force_and_kick_fmap (ts : list task) :
  engine_skip_force_and_kick ts = skipped_if updates_particles <$> ts.
Proof. apply skip_pass_fmap. Qed.

Lemma engine_skip_drift_and_kick_fmap (ts : list task) :
  engine_skip_drift_and_kick ts = skipped_if drifts_or_kicks <$> ts.
Proof. apply skip_pass_fmap. Qed.

Lemma skipped_if_skip cond t :
  skip (skipped_if cond t) = cond t || skip t.
Proof. unfold skipped_if. now destruct (cond t). Qed.

Lemma unskipped_skipped_if cond t : unskipped (skipped_if cond t) = unskipped t.
Proof. unfold skipped_if. now destruct (cond t). Qed.

Lemma skipped_if_cond (c cond : task -> bool) t :
  (forall b t, c (set_skip b t) = c t) -> c (skipped_if cond t) = c t.
Proof. intros Hc. unfold skipped_if. destruct (cond t); [apply Hc | reflexivity]. Qed.

Lemma drifts_or_kicks_updates t :
  drifts_or_kicks t = true -> updates_particles t = true.
Proof.
  unfold drifts_or_kicks, updates_particles.
  intros H. apply orb_true_iff in H as [-> | H]; [reflexivity |].
  rewrite H. now rewrite orb_true_r.
Qed.

Lemma task_eq_skip (t t' : task) :
  unskipped t = unskipped t' -> skip t = skip t' -> t = t'.
Proof.
  destruct t, t'. unfold unskipped, set_skip. cbn. intros H ->.
  now injection H as -> -> -> -> -> -> ->.
Qed.

(** X14. [engine_skip_force_and_kick] leaves as many tasks as there were and
    changes nothing of a task but its [skip]; a task is active after it if
    and only if it was active before and is neither a drift, kick1, kick2,
    timestep, cooling or sourceterms task nor a task of subtype force.
    [engine_skip_drift_and_kick] after it, or before it, changes nothing
    more. *)
Theorem engine_skip_force_and_kick_spec (ts : list task) :
  length (engine_skip_force_and_kick ts) = length ts /\
  (forall i t, ts !! i = Some t ->
   exists t', engine_skip_force_and_kick ts !! i = Some t' /\
     unskipped t' = unskipped t /\
     (skip t' = false <->
      skip t = false /\
      type t <> task_type_drift /\ type t <> task_type_kick1 /\
      type t <> task_type_kick2 /\ type t <> task_type_timestep /\
      type t <> task_type_cooling /\ type t <> task_type_sourceterms /\
      subtype t <> task_subtype_force)) /\
  engine_skip_drift_and_kick (engine_skip_force_and_kick ts) =
  engine_skip_force_and_kick ts /\
  engine_skip_force_and_kick (engine_skip_drift_and_kick ts) =
  engine_skip_force_and_kick ts.
Proof.
  rewrite !engine_skip_drift_and_kick_fmap, !engine_skip_force_and_kick_fmap.
  split; [apply length_fmap |]. split; [| split].
  - intros i t Ht. exists (skipped_if updates_particles t).
    rewrite list_lookup_fmap, Ht. split; [reflexivity |].
    split; [apply unskipped_skipped_if |].
    rewrite skipped_if_skip. unfold updates_particles.
    rewrite !orb_false_iff, !bool_decide_eq_false. tauto.
  - rewrite <- list_fmap_compose. apply list_fmap_ext. intros i t _. cbn.
    apply task_eq_skip.
    + now rewrite !unskipped_skipped_if.
    + rewrite !skipped_if_skip.
      assert (Hc : drifts_or_kicks (skipped_if updates_particles t) =
                   drifts_or_kicks t)
        by (apply skipped_if_cond; reflexivity).
      rewrite Hc. destruct (drifts_or_kicks t) eqn:Hd; [| reflexivity].
      now rewrite (drifts_or_kicks_updates t Hd).
  - rewrite <- list_fmap_compose. apply list_fmap_ext. intros i t _. cbn.
    apply task_eq_skip.
    + now rewrite !unskipped_skipped_if.
    + rewrite !skipped_if_skip.
      assert (Hc : updates_particles (skipped_if drifts_or_kicks t) =
                   updates_particles t)
        by (apply skipped_if_cond; reflexivity).
      rewrite Hc. destruct (drifts_or_kicks t) eqn:Hd; [| reflexivity].
      now rewrite (drifts_or_kicks_updates t Hd).
Qed.

(** *** Running stores on memories that differ in the [skip]s only *)

Lemma same_but_skip_lookup (sa sb : state) j t :
  same_but_skip sa sb -> tasks sa !! j = Some t ->
  exists t', tasks sb !! j = Some t' /\ unskipped t' = unskipped t.
Proof.
  intros (Ht & _) Hj.
  pose proof (f_equal (fun l => l !! j) Ht) as Hl. cbn in Hl.
  rewrite !list_lookup_fmap, Hj in Hl.
  destruct (tasks sb !! j) as [t' |]; [| discriminate].
  exists t'. split; [reflexivity |]. cbn in Hl. congruence.
Qed.

Lemma update_task_same_but_skip f ind (sa sb sa' : state) :
  (forall t, unskipped (f t) = f (unskipped t)) ->
  same_but_skip sa sb -> update_task f ind sa = Ok sa' ->
  exists sb', update_task f ind sb = Ok sb' /\ same_but_skip sa' sb'.
Proof.
  intros Hf Hsim Hu. unfold update_task in Hu |- *.
  destruct (tasks sa !! ind) as [t |] eqn:Ht; [| discriminate].
  destruct (same_but_skip_lookup sa sb ind t Hsim Ht) as (t' & Ht' & _).
  rewrite Ht'. eexists. split; [reflexivity |].
  injection Hu as <-. destruct Hsim as (Hts & Hcs & Hrb).
  repeat split; cbn; try assumption.
  rewrite !(list_fmap_alter unskipped f f)
    by (apply Forall_forall; intros x _; apply Hf).
  now rewrite Hts.
Qed.

Lemma apply_action_same_but_skip a (sa sb sa' : state) :
  same_but_skip sa sb -> apply_action a sa = Ok sa' ->
  exists sb', apply_action a sb = Ok sb' /\ same_but_skip sa' sb'.
Proof.
  intros Hsim Ha. destruct a as [i | i bits | c | | msg]; cbn in Ha |- *.
  - unfold scheduler_activate, update_task in Ha |- *.
    destruct (tasks sa !! i) as [t |] eqn:Ht; [| discriminate].
    destruct (same_but_skip_lookup sa sb i t Hsim Ht) as (t' & Ht' & _).
    rewrite Ht'. eexists. split; [reflexivity |].
    injection Ha as <-. destruct Hsim as (Hts & Hcs & Hrb).
    repeat split; cbn; try assumption.
    rewrite !(fmap_alter_same unskipped) by reflexivity. exact Hts.
  - eapply update_task_same_but_skip; [| exact Hsim | exact Ha]. reflexivity.
  - unfold clear_updated in Ha |- *. destruct Hsim as (Hts & Hcs & Hrb).
    rewrite Hcs. destruct (cells sa !! c); [| discriminate].
    eexists. split; [reflexivity |]. injection Ha as <-.
    repeat split; cbn; assumption.
  - eexists. split; [reflexivity |]. injection Ha as <-.
    destruct Hsim as (Hts & Hcs & Hrb). repeat split; cbn; assumption.
  - discriminate.
Qed.

Lemma run_same_but_skip acts (sa sb sa' : state) :
  same_but_skip sa sb -> run acts sa = Ok sa' ->
  exists sb', run acts sb = Ok sb' /\ same_but_skip sa' sb'.
Proof.
  revert sa sb. induction acts as [| a acts IH]; intros sa sb Hsim Hrun.
  - injection Hrun as <-. now exists sb.
  - rewrite run_cons in Hrun. apply result_bind_ok in Hrun as (s1 & Ha & Hrun).
    destruct (apply_action_same_but_skip a sa sb s1 Hsim Ha) as (s2 & Hb & Hsim').
    rewrite run_cons, Hb. cbn [mbind result_bind]. now apply (IH s1).
Qed.

Lemma static_unskipped (sa sb : state) :
  same_but_skip sa sb -> static sb = static sa.
Proof.
  intros (Hts & Hcs & _). unfold static. rewrite Hcs. f_equal.
  pose proof (f_equal (fmap task_static) Hts) as H.
  rewrite <- !list_fmap_compose in H. exact H.
Qed.

(** A pass of [engine_marktasks] over the memory that a first pass has
    left, after any store to the [skip]s that leaves the tasks skipped
    which the first pass did not activate. *)
Lemma engine_marktasks_after_skips e (st : state) r st1 (st1' : state) :
  state_wf st -> Forall (fun t => skip t = true) (tasks st) ->
  engine_marktasks e st = Ok (r, st1) ->
  same_but_skip st1 st1' ->
  (forall j t t', tasks st1 !! j = Some t -> tasks st1' !! j = Some t' ->
                  skip t = true -> skip t' = true) ->
  engine_marktasks e st1' = Ok (r, st1).
Proof.
  intros Hwf Hskip Hpass Hsim Hkept.
  destruct (pass_run _ _ _ _ _ e st r st1 Hwf Hpass) as (Hrun & Hr).
  pose proof (pass_static e st r st1 Hwf Hpass) as Hs.
  pose proof (static_unskipped st1 st1' Hsim) as Hs'.
  assert (Hwf1 : state_wf st1').
  { eapply state_wf_static; [| exact Hwf]. now rewrite Hs', Hs. }
  rewrite (engine_marktasks_run _ _ _ _ _ e st1' Hwf1).
  rewrite (full_plan_static _ _ _ _ _ e st1' st) by now rewrite Hs', Hs.
  (* the second pass over the memory of the first *)
  pose proof (run_absorbed _ _ _ Hrun) as Hall.
  pose proof (run_rebuild_space _ _ _ Hrun) as Hrb.
  cbn [cleared rebuild_space] in Hrb.
  assert (Hrun1 : run (full_plan e st) (cleared st1) = Ok st1).
  { rewrite run_of_absorbed.
    - destruct (wants_rebuild (full_plan e st)).
      + now rewrite (set_rebuild_cleared st1 Hrb).
      + now rewrite (cleared_fixed st1 Hrb).
    - eapply Forall_impl; [exact Hall |]. intros a.
      now apply absorbed_same_mem. }
  assert (Hsimc : same_but_skip (cleared st1) (cleared st1')).
  { destruct Hsim as (Hts & Hcs & _). now repeat split. }
  destruct (run_same_but_skip _ _ _ _ Hsimc Hrun1) as (st2 & Hrun2 & Hsim2).
  rewrite Hrun2. cbn [mbind result_bind].
  assert (Heq : st2 = st1).
  { destruct Hsim2 as (Hts2 & Hcs2 & Hrb2).
    destruct st2 as [ts2 cs2 rb2], st1 as [ts1 cs1 rb1]. cbn in Hcs2, Hrb2.
    subst cs2 rb2. f_equal. cbn [tasks] in *.
    apply list_eq. intros j.
    pose proof (f_equal (fun l => l !! j) Hts2) as Hl. cbn in Hl.
    rewrite !list_lookup_fmap in Hl.
    destruct (ts1 !! j) as [t1 |] eqn:Ht1.
    2:{ destruct (ts2 !! j); [discriminate | reflexivity]. }
    destruct (ts2 !! j) as [t2 |] eqn:Ht2; [| discriminate].
    cbn in Hl. f_equal. apply task_eq_skip; [congruence |].
    (* the [skip] of task [j] after either pass *)
    destruct (same_but_skip_lookup _ _ j t1 Hsim Ht1) as (t1' & Ht1' & _).
    assert (Hc1' : tasks (cleared st1') !! j = Some t1') by exact Ht1'.
    pose proof (run_task _ _ _ j t1' Hrun2 Hc1') as Hj2.
    cbn [tasks] in Hj2. rewrite Ht2 in Hj2. injection Hj2 as ->.
    assert (Hlt : (j < length (tasks st))%nat).
    { destruct (static_length _ _ Hs) as (Hlen & _). cbn [tasks] in Hlen.
      rewrite <- Hlen. now apply lookup_lt_Some in Ht1. }
    destruct (lookup_lt_is_Some_2 (tasks st) j Hlt) as (t0 & Ht0).
    assert (Hc0 : tasks (cleared st) !! j = Some t0) by exact Ht0.
    pose proof (run_task _ _ _ j t0 Hrun Hc0) as Hj1.
    cbn [tasks] in Hj1. rewrite Ht1 in Hj1. injection Hj1 as ->.
    destruct (decide (Activate j ∈ full_plan e st)) as [Hin | Hnin].
    - now rewrite !foldl_skip_activated.
    - rewrite !foldl_skip_kept by assumption.
      rewrite Forall_forall in Hskip.
      assert (Hs0 : skip t0 = true)
        by (apply Hskip; eapply list_elem_of_lookup_2; exact Ht0).
      rewrite Hs0. apply (Hkept j _ t1' Ht1 Ht1').
      now rewrite foldl_skip_kept. }
  rewrite Heq. now rewrite Hr.
Qed.

Lemma on_tasks_skip_same (cond : task -> bool) (st : state) :
  same_but_skip st (on_tasks (fun ts => skipped_if cond <$> ts) st).
Proof.
  repeat split. cbn. rewrite <- list_fmap_compose.
  apply list_fmap_ext. intros i t _. apply unskipped_skipped_if.
Qed.

(** X15. Started from tasks that are all marked skip, a pass of
    [engine_marktasks], then [engine_skip_force_and_kick] or
    [engine_skip_drift_and_kick], then a second pass at the same time:
    the second pass returns the same flag and leaves the memory that the
    first pass had left, so that it activates again every task that the
    skip pass had switched off. *)
Theorem engine_marktasks_undoes_skip e (st : state) r st1 :
  state_wf st -> Forall (fun t => skip t = true) (tasks st) ->
  engine_marktasks e st = Ok (r, st1) ->
  engine_marktasks e (on_tasks engine_skip_force_and_kick st1) = Ok (r, st1) /\
  engine_marktasks e (on_tasks engine_skip_drift_and_kick st1) = Ok (r, st1).
Proof.
  intros Hwf Hskip Hpass.
  assert (Hgen : forall cond,
            engine_marktasks e (on_tasks (fun ts => skipped_if cond <$> ts) st1)
            = Ok (r, st1)).
  { intros cond.
    apply (engine_marktasks_after_skips e st r st1 _ Hwf Hskip Hpass).
    - apply on_tasks_skip_same.
    - intros j t t' Ht Ht' Hs. cbn in Ht'.
      rewrite list_lookup_fmap, Ht in Ht'. injection Ht' as <-.
      rewrite skipped_if_skip, Hs. apply orb_true_r. }
  split.
  - unfold on_tasks. rewrite engine_skip_force_and_kick_fmap. apply Hgen.
  - unfold on_tasks. rewrite engine_skip_drift_and_kick_fmap. apply Hgen.
Qed.

End passes_proofs.

Lemma engine_marktasks_only_activates_witness :
  let st := example_memory_running in
  state_wf st /\ example_marktasks st = Ok (0, marked st) /\
  length (tasks (marked st)) = length (tasks st) /\
  forall ind t, tasks st !! ind = Some t ->
  exists t', tasks (marked st) !! ind = Some t' /\
    type t' = type t /\ subtype t' = subtype t /\ wait t' = wait t /\
    ci t' = ci t /\ cj t' = cj t /\ tight t' = tight t /\
    (type t <> task_type_sort -> flags t' = flags t) /\
    (forall bits, Z.land (flags t) bits = bits ->
                  Z.land (flags t') bits = bits) /\
    (skip t = false -> skip t' = false).
Proof.
  intros st.
  assert (Hwf : state_wf st) by (apply state_wfb_sound; vm_compute; reflexivity).
  assert (Hpass : example_marktasks st = Ok (0, marked st))
    by (vm_compute; reflexivity).
  split; [exact Hwf |]. split; [exact Hpass |].
  exact (engine_marktasks_only_activates c_max PrimFloat.add PrimFloat.mul
           c_gt example_maxreldx example_engine st 0 (marked st) Hwf Hpass).
Defined.

(** The density self task of the second cell was active and stays so,
    although its cell is not active and the pass does not activate it. *)
Example example_running_task_stays_active :
  task_active example_memory_running 10 = true /\
  task_active (marked example_memory_running) 10 = true /\
  task_active (marked (example_memory true 0 0)) 10 = false.
Proof. vm_compute. repeat split. Qed.

Lemma engine_marktasks_clears_updated_witness :
  let st := example_memory true 0 0 in
  state_wf st /\ example_marktasks st = Ok (0, marked st) /\
  length (cells (marked st)) = length (cells st) /\
  forall i c, cells st !! i = Some c ->
    cells (marked st) !! i =
    Some (if has_timestep st i then reset_updated c else c).
Proof.
  intros st.
  assert (Hwf : state_wf st) by (apply state_wfb_sound; vm_compute; reflexivity).
  assert (Hpass : example_marktasks st = Ok (0, marked st))
    by (vm_compute; reflexivity).
  split; [exact Hwf |]. split; [exact Hpass |].
  exact (engine_marktasks_clears_updated c_max PrimFloat.add PrimFloat.mul
           c_gt example_maxreldx example_engine st 0 (marked st) Hwf Hpass).
Defined.

(** The time-step task is on the second cell, which is not active: its
    counters are cleared, those of the first cell are not. *)
Example example_cleared_counters :
  let st := example_memory true 0 0 in
  (updated <$> cells st, g_updated <$> cells st, s_updated <$> cells st) =
  ([3; 5], [0; 1], [0; 2]) /\
  (updated <$> cells (marked st), g_updated <$> cells (marked st),
   s_updated <$> cells (marked st)) = ([3; 0], [0; 0], [0; 0]).
Proof. vm_compute. split; reflexivity. Qed.

Lemma engine_marktasks_undoes_skip_witness :
  let st := example_memory true 0 0 in
  state_wf st /\ Forall (fun t => skip t = true) (tasks st) /\
  example_marktasks st = Ok (0, marked st) /\
  example_marktasks (on_tasks engine_skip_force_and_kick (marked st)) =
  Ok (0, marked st) /\
  example_marktasks (on_tasks engine_skip_drift_and_kick (marked st)) =
  Ok (0, marked st).
Proof.
  intros st.
  assert (Hwf : state_wf st) by (apply state_wfb_sound; vm_compute; reflexivity).
  assert (Hskip : Forall (fun t => skip t = true) (tasks st))
    by (repeat constructor).
  assert (Hpass : example_marktasks st = Ok (0, marked st))
    by (vm_compute; reflexivity).
  split; [exact Hwf |]. split; [exact Hskip |]. split; [exact Hpass |].
  exact (engine_marktasks_undoes_skip c_max PrimFloat.add PrimFloat.mul
           c_gt example_maxreldx example_engine st 0 (marked st) Hwf Hskip
           Hpass).
Defined.

(** What [engine_init_particles] launches first: of the tasks that the pass
    has activated, the skip pass switches off the drift and kick1 tasks. *)
Example example_skip_force_and_kick :
  let st := marked (example_memory true 0 0) in
  active_tasks st = [0; 1; 2; 3; 4; 5; 6; 9; 11; 12]%nat /\
  active_tasks (on_tasks engine_skip_force_and_kick st) =
  [0; 1; 2; 3; 4; 5; 6; 12]%nat /\
  active_tasks (on_tasks engine_skip_drift_and_kick st) =
  [0; 1; 2; 3; 4; 5; 6; 12]%nat.
Proof. vm_compute. repeat split. Qed.

End PassesProofs.

Module GravityProofs.
Import Facts Sched Gravity HydroloopProofs.

Section gravity_proofs.
Context (cell_are_neighbours : nat -> nat -> Z).
Context (cells : list cell) (nodeID_e : Z).

Local Abbreviation nr_cells := (nr_cells cells).
Local Abbreviation has_gravity := (has_gravity cells nodeID_e).
Local Abbreviation gravity_cell_tasks :=
  (gravity_cell_tasks cell_are_neighbours cells nodeID_e).
Local Abbreviation gravity_tasks :=
  (gravity_tasks cell_are_neighbours cells nodeID_e).
Local Abbreviation external_gravity_tasks :=
  (external_gravity_tasks cells nodeID_e).

(** *** What the loops emit *)

Lemma has_gravity_false_iff cid :
  has_gravity cid = false <->
  gcount (cell_at cells cid) = 0 \/ nodeID (cell_at cells cid) <> nodeID_e.
Proof.
  unfold Gravity.has_gravity.
  rewrite andb_false_iff, negb_false_iff, Z.eqb_eq, Z.eqb_neq. tauto.
Qed.

Lemma emits_gravity_pair_body cid cjd :
  emits (gravity_pair_body cell_are_neighbours cells nodeID_e cid cjd)
        (if has_gravity cjd && truthy (cell_are_neighbours cid cjd)
         then [gravity_task task_type_pair task_subtype_grav cid (Some cjd) true]
         else []).
Proof.
  unfold gravity_pair_body, Gravity.has_gravity.
  destruct (gcount (cell_at cells cjd) =? 0); [apply emits_id |].
  destruct (nodeID (cell_at cells cjd) =? nodeID_e); [| apply emits_id].
  cbn [negb andb].
  destruct (truthy (cell_are_neighbours cid cjd)); [| apply emits_id].
  apply emits_addtask.
Qed.

Lemma emits_gravity_cell_body cid :
  emits (gravity_cell_body cell_are_neighbours cells nodeID_e cid)
        (gravity_cell_tasks cid).
Proof.
  unfold gravity_cell_body, Gravity.gravity_cell_tasks.
  assert (Hg : has_gravity cid =
               negb (gcount (cell_at cells cid) =? 0) &&
               (nodeID (cell_at cells cid) =? nodeID_e)) by reflexivity.
  rewrite Hg. clear Hg.
  destruct (gcount (cell_at cells cid) =? 0); [apply emits_id |].
  destruct (nodeID (cell_at cells cid) =? nodeID_e); [| apply emits_id].
  cbn [negb andb].
  set (pairs := seq (cid + 1) (nr_cells - (cid + 1)) ≫= _).
  apply (emits_compose
           (fun sched => (scheduler_addtask sched task_type_self
                            task_subtype_grav 0 0 (Some cid) None false).1)
           (fun sched =>
              for_each (seq (cid + 1) (nr_cells - (cid + 1)))
                (fun sched cjd =>
                   gravity_pair_body cell_are_neighbours cells nodeID_e cid
                     cjd sched)
                (scheduler_addtask sched task_type_grav_mm task_subtype_none
                   0 0 (Some cid) None false).1)
           [gravity_task task_type_self task_subtype_grav cid None false]
           (gravity_task task_type_grav_mm task_subtype_none cid None false
            :: pairs)); [apply emits_addtask |].
  apply (emits_compose
           (fun sched => (scheduler_addtask sched task_type_grav_mm
                            task_subtype_none 0 0 (Some cid) None false).1)
           (for_each (seq (cid + 1) (nr_cells - (cid + 1)))
              (fun sched cjd =>
                 gravity_pair_body cell_are_neighbours cells nodeID_e cid
                   cjd sched))
           [gravity_task task_type_grav_mm task_subtype_none cid None false]
           pairs); [apply emits_addtask |].
  apply emits_for_each. intros cjd. apply emits_gravity_pair_body.
Qed.

Lemma emits_engine_make_gravity_tasks :
  emits (engine_make_gravity_tasks cell_are_neighbours cells nodeID_e)
        gravity_tasks.
Proof.
  unfold engine_make_gravity_tasks, Gravity.gravity_tasks.
  apply emits_for_each. intros cid. apply emits_gravity_cell_body.
Qed.

Lemma emits_engine_make_external_gravity_tasks :
  emits (engine_make_external_gravity_tasks cells nodeID_e)
        external_gravity_tasks.
Proof.
  unfold engine_make_external_gravity_tasks, Gravity.external_gravity_tasks.
  apply emits_for_each. intros cid. unfold Gravity.has_gravity.
  destruct (gcount (cell_at cells cid) =? 0); [apply emits_id |].
  destruct (nodeID (cell_at cells cid) =? nodeID_e); [| apply emits_id].
  apply emits_addtask.
Qed.

(** *** The shape of the tasks *)

Lemma gravity_cell_tasks_shape cid t :
  t ∈ gravity_cell_tasks cid ->
  has_gravity cid = true /\
  (t = gravity_task task_type_self task_subtype_grav cid None false \/
   t = gravity_task task_type_grav_mm task_subtype_none cid None false \/
   exists cjd, (cid < cjd < nr_cells)%nat /\ has_gravity cjd = true /\
               truthy (cell_are_neighbours cid cjd) = true /\
               t = gravity_task task_type_pair task_subtype_grav cid
                     (Some cjd) true).
Proof.
  unfold Gravity.gravity_cell_tasks.
  destruct (has_gravity cid); [| intros H; now apply elem_of_nil in H].
  intros Ht. split; [reflexivity |].
  apply elem_of_cons in Ht as [-> | Ht]; [now left |].
  apply elem_of_cons in Ht as [-> | Ht]; [right; now left |].
  right; right. apply list_elem_of_bind in Ht as (cjd & Ht & Hin).
  apply elem_of_seq in Hin.
  destruct (has_gravity cjd) eqn:Hg; [| now apply elem_of_nil in Ht].
  destruct (truthy (cell_are_neighbours cid cjd)) eqn:Hn;
    [| now apply elem_of_nil in Ht].
  apply list_elem_of_singleton in Ht. exists cjd.
  repeat split; try assumption; lia.
Qed.

Lemma tasks_on_cell ty sub a b :
  (a < nr_cells)%nat ->
  tasks_on ty sub a b gravity_tasks = tasks_on ty sub a b (gravity_cell_tasks a).
Proof.
  intros Ha. unfold tasks_on, Gravity.gravity_tasks.
  apply filter_bind_unique.
  - apply NoDup_seq.
  - apply elem_of_seq. lia.
  - intros x _ Hne t Ht (_ & _ & Hci & _).
    apply gravity_cell_tasks_shape in Ht
      as (_ & [-> | [-> | (cjd & _ & _ & _ & ->)]]);
      cbn in Hci; congruence.
Qed.

Lemma tasks_on_outside ty sub a b :
  (nr_cells <= a)%nat -> tasks_on ty sub a b gravity_tasks = [].
Proof.
  intros Ha. unfold tasks_on, Gravity.gravity_tasks.
  apply filter_bind_none. intros x Hx t Ht (_ & _ & Hci & _).
  apply elem_of_seq in Hx.
  apply gravity_cell_tasks_shape in Ht
    as (_ & [-> | [-> | (cjd & _ & _ & _ & ->)]]);
    cbn in Hci; injection Hci as ->; lia.
Qed.

Lemma pairs_filter_none (P : task -> Prop) `{!forall t, Decision (P t)} a l :
  (forall t, P t -> type t <> task_type_pair) ->
  filter P (cjd ← l;
            if has_gravity cjd && truthy (cell_are_neighbours a cjd)
            then [gravity_task task_type_pair task_subtype_grav a (Some cjd)
                    true]
            else []) = [].
Proof.
  intros HP. apply filter_bind_none. intros cjd _ t Ht Hp.
  destruct (_ && _); [| now apply elem_of_nil in Ht].
  apply list_elem_of_singleton in Ht as ->. now apply (HP _ Hp).
Qed.

Lemma self_gravity_count a :
  length (tasks_on task_type_self task_subtype_grav a None gravity_tasks) =
  if has_gravity a then 1%nat else 0%nat.
Proof.
  destruct (decide (a < nr_cells)%nat) as [Ha | Ha].
  - rewrite tasks_on_cell by assumption.
    unfold tasks_on, Gravity.gravity_cell_tasks.
    destruct (has_gravity a); [| reflexivity].
    rewrite filter_cons_True by (repeat split).
    rewrite filter_cons_False by (intros (H & _); discriminate).
    rewrite pairs_filter_none; [reflexivity |].
    intros t (Hty & _). congruence.
  - rewrite tasks_on_outside by lia.
    unfold Gravity.has_gravity, cell_at.
    rewrite (lookup_ge_None_2 cells a) by (unfold Gravity.nr_cells in Ha; lia).
    reflexivity.
Qed.

Lemma grav_mm_count a :
  length (tasks_on task_type_grav_mm task_subtype_none a None gravity_tasks) =
  if has_gravity a then 1%nat else 0%nat.
Proof.
  destruct (decide (a < nr_cells)%nat) as [Ha | Ha].
  - rewrite tasks_on_cell by assumption.
    unfold tasks_on, Gravity.gravity_cell_tasks.
    destruct (has_gravity a); [| reflexivity].
    rewrite filter_cons_False by (intros (H & _); discriminate).
    rewrite filter_cons_True by (repeat split).
    rewrite pairs_filter_none; [reflexivity |].
    intros t (Hty & _). congruence.
  - rewrite tasks_on_outside by lia.
    unfold Gravity.has_gravity, cell_at.
    rewrite (lookup_ge_None_2 cells a) by (unfold Gravity.nr_cells in Ha; lia).
    reflexivity.
Qed.

Lemma pair_gravity_count a b :
  (a < b < nr_cells)%nat ->
  length (tasks_on task_type_pair task_subtype_grav a (Some b) gravity_tasks) =
  if has_gravity a && has_gravity b && truthy (cell_are_neighbours a b)
  then 1%nat else 0%nat.
Proof.
  intros Hab. rewrite tasks_on_cell by lia.
  unfold tasks_on, Gravity.gravity_cell_tasks.
  destruct (has_gravity a); [| reflexivity]. cbn [andb].
  rewrite filter_cons_False by (intros (H & _); discriminate).
  rewrite filter_cons_False by (intros (H & _); discriminate).
  rewrite (filter_bind_unique _ _ _ b).
  - destruct (has_gravity b && truthy (cell_are_neighbours a b));
      [| reflexivity].
    rewrite filter_cons_True by (repeat split). reflexivity.
  - apply NoDup_seq.
  - apply elem_of_seq. lia.
  - intros x _ Hne t Ht (_ & _ & _ & Hcj).
    destruct (_ && _); [| now apply elem_of_nil in Ht].
    apply list_elem_of_singleton in Ht as ->. cbn in Hcj. congruence.
Qed.

Lemma pair_gravity_ordered a b :
  (b <= a)%nat ->
  tasks_on task_type_pair task_subtype_grav a (Some b) gravity_tasks = [].
Proof.
  intros Hba. unfold tasks_on, Gravity.gravity_tasks.
  apply filter_bind_none. intros x _ t Ht (_ & _ & Hci & Hcj).
  apply gravity_cell_tasks_shape in Ht
    as (_ & [-> | [-> | (cjd & Hlt & _ & _ & ->)]]);
    cbn in Hci, Hcj; try discriminate.
  injection Hci as ->. injection Hcj as ->. lia.
Qed.

(** X16. [engine_make_gravity_tasks] appends to the task list, in the order
    of its loops, the tasks [gravity_tasks] and adds no unlock. Every
    top-level cell that is local and has gravity particles gets exactly one
    self-gravity task and exactly one grav_mm task, on that cell alone, and
    any other cell gets none; for two cells [a < b] there is exactly one
    pair-gravity task with [ci = a], [cj = b] when both are local, both
    have gravity particles and [cell_are_neighbours] holds of them, there
    is none otherwise, and there is never one with [ci >= cj]; so no
    gravity task is ever on a foreign cell. *)
Theorem engine_make_gravity_tasks_enumeration (sched : scheduler) :
  let sched' :=
    engine_make_gravity_tasks cell_are_neighbours cells nodeID_e sched in
  tasks sched' = tasks sched ++ gravity_tasks /\
  unlocks sched' = unlocks sched /\
  (forall a,
     length (tasks_on task_type_self task_subtype_grav a None gravity_tasks) =
       (if has_gravity a then 1%nat else 0%nat) /\
     length (tasks_on task_type_grav_mm task_subtype_none a None
               gravity_tasks) =
       (if has_gravity a then 1%nat else 0%nat)) /\
  (forall a b, (a < b < nr_cells)%nat ->
     length (tasks_on task_type_pair task_subtype_grav a (Some b)
               gravity_tasks) =
     if has_gravity a && has_gravity b && truthy (cell_are_neighbours a b)
     then 1%nat else 0%nat) /\
  (forall a b, (b <= a)%nat ->
     tasks_on task_type_pair task_subtype_grav a (Some b) gravity_tasks = []) /\
  (forall t, t ∈ gravity_tasks ->
     exists a, (a < nr_cells)%nat /\ has_gravity a = true /\
       (t = gravity_task task_type_self task_subtype_grav a None false \/
        t = gravity_task task_type_grav_mm task_subtype_none a None false \/
        exists b, (a < b < nr_cells)%nat /\ has_gravity b = true /\
                  truthy (cell_are_neighbours a b) = true /\
                  t = gravity_task task_type_pair task_subtype_grav a (Some b)
                        true)).
Proof.
  intros sched'.
  destruct (emits_engine_make_gravity_tasks sched) as [Htasks Hunlocks].
  split; [exact Htasks |]. split; [exact Hunlocks |].
  split; [intros a; split; [apply self_gravity_count | apply grav_mm_count] |].
  split; [intros a b; apply pair_gravity_count |].
  split; [intros a b; apply pair_gravity_ordered |].
  intros t Ht. apply list_elem_of_bind in Ht as (a & Ht & Ha).
  apply elem_of_seq in Ha. exists a. split; [lia |].
  now apply gravity_cell_tasks_shape.
Qed.

(** X17. [engine_make_external_gravity_tasks] appends one self task of
    subtype external_grav for every top-level cell that is local and has
    gravity particles, in the order of the cells, and adds no unlock: the
    cells that get one are exactly the cells that
    [engine_make_gravity_tasks] gives a self-gravity task. *)
Theorem engine_make_external_gravity_tasks_enumeration (sched : scheduler) :
  let sched' := engine_make_external_gravity_tasks cells nodeID_e sched in
  tasks sched' = tasks sched ++ external_gravity_tasks /\
  unlocks sched' = unlocks sched /\
  external_gravity_tasks =
    (fun cid => gravity_task task_type_self task_subtype_external_grav cid
                  None false) <$>
    filter (fun cid => has_gravity cid = true) (seq 0 nr_cells) /\
  forall a,
    length (tasks_on task_type_self task_subtype_external_grav a None
              external_gravity_tasks) =
    length (tasks_on task_type_self task_subtype_grav a None gravity_tasks).
Proof.
  intros sched'.
  destruct (emits_engine_make_external_gravity_tasks sched) as [Htasks Hunl].
  split; [exact Htasks |]. split; [exact Hunl |].
  assert (Hmap : external_gravity_tasks =
            (fun cid => gravity_task task_type_self task_subtype_external_grav
                          cid None false) <$>
            filter (fun cid => has_gravity cid = true) (seq 0 nr_cells)).
  { unfold Gravity.external_gravity_tasks.
    generalize (seq 0 nr_cells). intros l.
    induction l as [| k l IH]; [reflexivity |].
    rewrite bind_cons, IH. destruct (has_gravity k) eqn:Hk.
    - now rewrite filter_cons_True by assumption.
    - rewrite filter_cons_False by congruence. reflexivity. }
  split; [exact Hmap |].
  intros a. rewrite self_gravity_count.
  unfold tasks_on, Gravity.external_gravity_tasks.
  destruct (decide (a < nr_cells)%nat) as [Ha | Ha].
  - rewrite (filter_bind_unique _ _ _ a).
    + destruct (has_gravity a); [| reflexivity].
      rewrite filter_cons_True by (repeat split). reflexivity.
    + apply NoDup_seq.
    + apply elem_of_seq. lia.
    + intros x _ Hne t Ht (_ & _ & Hci & _).
      destruct (has_gravity x); [| now apply elem_of_nil in Ht].
      apply list_elem_of_singleton in Ht as ->. cbn in Hci. congruence.
  - rewrite filter_bind_none.
    + unfold Gravity.has_gravity, cell_at.
      rewrite (lookup_ge_None_2 cells a)
        by (unfold Gravity.nr_cells in Ha; lia).
      reflexivity.
    + intros x Hx t Ht (_ & _ & Hci & _). apply elem_of_seq in Hx.
      destruct (has_gravity x); [| now apply elem_of_nil in Ht].
      apply list_elem_of_singleton in Ht as ->. cbn in Hci.
      injection Hci as ->. lia.
Qed.

End gravity_proofs.

(** *** The up and down tasks of the hierarchy *)

Lemma gravity_cell_induction (P : cell -> Prop) :
  (forall g n s u d prog,
     Forall (fun k => match k with Some cp => P cp | None => True end) prog ->
     P (Cell g n s u d prog)) ->
  forall c, P c.
Proof.
  intros Hstep. fix IH 1. intros [g n s u d prog]. apply Hstep.
  induction prog as [| k prog IHp]; constructor; [| exact IHp].
  destruct k as [cp |]; [apply IH | exact I].
Qed.

Lemma engine_addtasks_grav_unfold c up down :
  engine_addtasks_grav c up down =
  set_grav up down c
    (if split c then
       map (fun k => match k with
                     | Some cp => Some (engine_addtasks_grav cp up down)
                     | None => None
                     end) (progeny c)
     else progeny c).
Proof. now destruct c. Qed.

Lemma reached_unfold c :
  reached c =
  c :: (if split c then
          mjoin (map (fun k => match k with
                               | Some cp => reached cp
                               | None => []
                               end) (progeny c))
        else []).
Proof. now destruct c. Qed.

Lemma unlinked_unfold c :
  unlinked c =
  set_grav None None c
    (map (fun k => match k with
                   | Some cp => Some (unlinked cp)
                   | None => None
                   end) (progeny c)).
Proof. now destruct c. Qed.

Lemma engine_addtasks_grav_reached c up down :
  Forall (fun x => grav_up x = up /\ grav_down x = down)
         (reached (engine_addtasks_grav c up down)).
Proof.
  induction c as [g n s u d prog IH] using gravity_cell_induction.
  rewrite engine_addtasks_grav_unfold, reached_unfold. cbn [split progeny set_grav].
  constructor; [now split |].
  destruct s; [| constructor].
  induction IH as [| k prog Hk _ IHp]; [constructor |].
  cbn [map]. rewrite CollectProofs.mjoin_cons.
  apply Forall_app. split; [| exact IHp].
  destruct k as [cp |]; [exact Hk | constructor].
Qed.

Lemma engine_addtasks_grav_unlinked c up down :
  unlinked (engine_addtasks_grav c up down) = unlinked c.
Proof.
  induction c as [g n s u d prog IH] using gravity_cell_induction.
  rewrite engine_addtasks_grav_unfold, !unlinked_unfold.
  cbn [split progeny set_grav gcount nodeID]. f_equal.
  destruct s; [| reflexivity].
  induction IH as [| k prog Hk _ IHp]; [reflexivity |].
  cbn [map]. rewrite IHp. f_equal.
  destruct k as [cp |]; [| reflexivity]. now rewrite Hk.
Qed.

Lemma engine_addtasks_grav_again c up down up' down' :
  engine_addtasks_grav (engine_addtasks_grav c up down) up' down' =
  engine_addtasks_grav c up' down'.
Proof.
  induction c as [g n s u d prog IH] using gravity_cell_induction.
  rewrite (engine_addtasks_grav_unfold (engine_addtasks_grav _ _ _)).
  rewrite !(engine_addtasks_grav_unfold (Cell _ _ _ _ _ _)).
  cbn [split progeny set_grav gcount nodeID]. f_equal.
  destruct s; [| reflexivity].
  induction IH as [| k prog Hk _ IHp]; [reflexivity |].
  cbn [map]. rewrite IHp. f_equal.
  destruct k as [cp |]; [| reflexivity]. now rewrite Hk.
Qed.

Lemma grav_up_tasks_upto_S nodeID_e cells n :
  grav_up_tasks_upto nodeID_e cells (S n) =
  grav_up_tasks_upto nodeID_e cells n ++
  (if gravity_top nodeID_e (cell_at cells n) then [grav_up_task n] else []).
Proof.
  unfold grav_up_tasks_upto. rewrite seq_S, bind_app. cbn [Nat.add].
  f_equal. cbn. now rewrite app_nil_r.
Qed.

Lemma gravityrecursive_loop nodeID_e sched cells n :
  (n <= length cells)%nat ->
  exists sched' cells',
    for_each (seq 0 n) (gravityrecursive_body nodeID_e) (sched, cells) =
    (sched', cells') /\
    tasks sched' = tasks sched ++ grav_up_tasks_upto nodeID_e cells n /\
    unlocks sched' = unlocks sched /\
    forall j, cells' !! j =
              if decide (j < n)%nat
              then pushed_down nodeID_e (length (tasks sched)) cells j <$>
                   cells !! j
              else cells !! j.
Proof.
  induction n as [| n IH]; intros Hn.
  - exists sched, cells. split; [reflexivity |].
    split; [cbn; now rewrite app_nil_r |]. split; [reflexivity |].
    intros j. destruct (decide (j < 0)%nat); [lia | reflexivity].
  - destruct IH as (s1 & c1 & Hloop & Ht & Hu & Hc); [lia |].
    unfold for_each in *. rewrite seq_S, foldl_app, Hloop.
    cbn [foldl Nat.add]. unfold gravityrecursive_body.
    assert (Hlt : (n < length cells)%nat) by lia.
    destruct (lookup_lt_is_Some_2 cells n Hlt) as (c & Hcn).
    assert (Hc1 : c1 !! n = Some c)
      by (rewrite (Hc n), decide_False by lia; exact Hcn).
    assert (Hat : cell_at c1 n = c) by (unfold cell_at; now rewrite Hc1).
    assert (Hat0 : cell_at cells n = c) by (unfold cell_at; now rewrite Hcn).
    rewrite Hat. rewrite grav_up_tasks_upto_S, Hat0.
    fold (gravity_top nodeID_e c).
    destruct (gravity_top nodeID_e c) eqn:Htop.
    + cbn [scheduler_addtask]. eexists _, _. split; [reflexivity |].
      cbn [tasks unlocks]. split; [now rewrite Ht, app_assoc |].
      split; [exact Hu |].
      intros j. destruct (decide (j = n)) as [-> | Hne].
      * rewrite list_lookup_insert_eq by (now apply lookup_lt_Some in Hc1).
        rewrite decide_True by lia. rewrite Hcn. cbn [fmap option_fmap option_map].
        unfold pushed_down. rewrite Htop, Ht, length_app. reflexivity.
      * rewrite list_lookup_insert_ne by congruence. rewrite (Hc j).
        destruct (decide (j < n)%nat), (decide (j < S n)%nat);
          try reflexivity; lia.
    + exists s1, c1. split; [reflexivity |].
      split; [now rewrite Ht, app_nil_r |]. split; [exact Hu |].
      intros j. rewrite (Hc j). destruct (decide (j = n)) as [-> | Hne].
      * rewrite decide_False by lia. rewrite decide_True by lia.
        rewrite Hcn. cbn. unfold pushed_down. now rewrite Htop.
      * destruct (decide (j < n)%nat), (decide (j < S n)%nat);
          try reflexivity; lia.
Qed.

Lemma grav_up_tasks_lookup nodeID_e cells n k :
  (k < n)%nat -> gravity_top nodeID_e (cell_at cells k) = true ->
  grav_up_tasks_upto nodeID_e cells n
    !! length (grav_up_tasks_upto nodeID_e cells k) = Some (grav_up_task k).
Proof.
  intros Hk Htop. induction n as [| n IH]; [lia |].
  rewrite grav_up_tasks_upto_S.
  destruct (decide (k = n)) as [-> | Hne].
  - rewrite Htop. rewrite lookup_app_r by lia.
    now rewrite Nat.sub_diag.
  - rewrite lookup_app_l; [apply IH; lia |].
    apply lookup_lt_Some with (x := grav_up_task k). apply IH. lia.
Qed.

(** X18. [engine_make_gravityrecursive_tasks] appends one grav_up task for
    every top-level cell that is local and contains gravity particles, in
    the order of the cells, and adds no unlock. In the hierarchy of such a
    cell, the cell itself and every cell below it that is reached through
    split cells points to that one task as its [grav_up] and has no
    [grav_down]; nothing else of any cell changes, and the other top-level
    cells are left as they were. *)
Theorem engine_make_gravityrecursive_tasks_links nodeID_e sched cells :
  let sched' := (engine_make_gravityrecursive_tasks nodeID_e sched cells).1 in
  let cells' := (engine_make_gravityrecursive_tasks nodeID_e sched cells).2 in
  tasks sched' = tasks sched ++ grav_up_tasks nodeID_e cells /\
  unlocks sched' = unlocks sched /\
  length cells' = length cells /\
  forall k c, cells !! k = Some c ->
    exists c', cells' !! k = Some c' /\ unlinked c' = unlinked c /\
      if gravity_top nodeID_e c then
        exists up, tasks sched' !! up = Some (grav_up_task k) /\
                   c' = engine_addtasks_grav c (Some up) None /\
                   Forall (fun x => grav_up x = Some up /\ grav_down x = None)
                          (reached c')
      else c' = c.
Proof.
  intros sched' cells'. subst sched' cells'.
  unfold engine_make_gravityrecursive_tasks.
  destruct (gravityrecursive_loop nodeID_e sched cells (length cells) (le_n _))
    as (s1 & c1 & -> & Ht & Hu & Hc).
  cbn [fst snd]. split; [exact Ht |]. split; [exact Hu |].
  assert (Hlen : length c1 = length cells).
  { destruct (Nat.lt_trichotomy (length c1) (length cells)) as [H | [H | H]];
      [| exact H |].
    - pose proof (Hc (length c1)) as Hj. rewrite decide_True in Hj by lia.
      rewrite (lookup_ge_None_2 c1) in Hj by lia.
      destruct (lookup_lt_is_Some_2 cells (length c1) H) as (x & Hx).
      rewrite Hx in Hj. discriminate.
    - pose proof (Hc (length cells)) as Hj. rewrite decide_False in Hj by lia.
      rewrite (lookup_ge_None_2 cells) in Hj by lia.
      destruct (lookup_lt_is_Some_2 c1 (length cells) H) as (x & Hx).
      rewrite Hx in Hj. discriminate. }
  split; [exact Hlen |].
  intros k c Hk. pose proof (lookup_lt_Some _ _ _ Hk) as Hlt.
  rewrite (Hc k), decide_True, Hk by lia. cbn [fmap option_fmap option_map].
  eexists. split; [reflexivity |]. unfold pushed_down.
  destruct (gravity_top nodeID_e c) eqn:Htop; [| now split].
  split; [apply engine_addtasks_grav_unlinked |].
  eexists. split; [| split; [reflexivity | apply engine_addtasks_grav_reached]].
  rewrite Ht, lookup_app_r by lia.
  replace (length (tasks sched) +
           length (grav_up_tasks_upto nodeID_e cells k) -
           length (tasks sched))%nat
    with (length (grav_up_tasks_upto nodeID_e cells k)) by lia.
  apply grav_up_tasks_lookup; [exact Hlt |].
  unfold cell_at. now rewrite Hk.
Qed.

(** On the example cells, all of them neighbours: the first and the last
    cell are local and have gravity particles. *)
Example example_gravity_tasks :
  let sched := engine_make_gravity_tasks (fun _ _ => 1) example_cells 0
                 scheduler_empty in
  map (fun t => (type t, subtype t, ci t, cj t)) (tasks sched) =
  [ (task_type_self, task_subtype_grav, Some 0%nat, None);
    (task_type_grav_mm, task_subtype_none, Some 0%nat, None);
    (task_type_pair, task_subtype_grav, Some 0%nat, Some 3%nat);
    (task_type_self, task_subtype_grav, Some 3%nat, None);
    (task_type_grav_mm, task_subtype_none, Some 3%nat, None) ] /\
  map (fun t => (type t, subtype t, ci t, cj t))
      (tasks (engine_make_external_gravity_tasks example_cells 0 sched)) =
  map (fun t => (type t, subtype t, ci t, cj t)) (tasks sched) ++
  [ (task_type_self, task_subtype_external_grav, Some 0%nat, None);
    (task_type_self, task_subtype_external_grav, Some 3%nat, None) ].
Proof. vm_compute. split; reflexivity. Qed.

Example example_grav_up :
  let r := engine_make_gravityrecursive_tasks 0 scheduler_empty example_cells in
  tasks r.1 = [grav_up_task 0; grav_up_task 3] /\
  map (fun c => map grav_up (reached c)) r.2 =
  [ [Some 0%nat; Some 0%nat; Some 0%nat; Some 0%nat]; [None]; [None];
    [Some 1%nat] ] /\
  map unlinked r.2 = map unlinked example_cells.
Proof. vm_compute. repeat split. Qed.

End GravityProofs.

Module LinksProofs.
Import Facts Sched Links.

Section links_proofs.
Context (size_links : Z).

Local Abbreviation run := (run size_links).
Local Abbreviation apply_op := (apply_op size_links).
Local Abbreviation engine_addlink := (engine_addlink size_links).
Local Abbreviation engine_count_and_link_task :=
  (engine_count_and_link_task size_links).
Local Abbreviation engine_count_and_link_tasks :=
  (engine_count_and_link_tasks size_links).

(** *** Running a list of stores *)

Lemma ops_run_error (ops : list op) msg :
  foldl (fun st o => st ← st; apply_op o st) (Error msg) ops = Error msg.
Proof. apply foldl_error. reflexivity. Qed.

Lemma ops_run_cons o (ops : list op) (st : state) :
  run (o :: ops) st = (st ← apply_op o st; run ops st).
Proof.
  unfold Links.run. cbn [foldl mbind result_bind].
  destruct (apply_op o st) as [st1 | msg]; [reflexivity |].
  apply ops_run_error.
Qed.

Lemma ops_run_app (p q : list op) (st : state) :
  run (p ++ q) st = (st ← run p st; run q st).
Proof.
  unfold Links.run. rewrite foldl_app.
  destruct (foldl _ (Ok st) p) as [st1 | msg]; [reflexivity |].
  apply ops_run_error.
Qed.

Lemma ops_run_nil (st : state) : run [] st = Ok st.
Proof. reflexivity. Qed.

(** *** The body of the loop as a list of stores *)

Lemma link_self_run t ind (st : state) :
  link_self size_links t ind st = run (ops_self t ind) st.
Proof.
  unfold link_self, ops_self. rewrite ops_run_cons. cbn [apply_op Links.apply_op].
  destruct (inc_nr_tasks (ci t) st) as [st1 | msg]; [| reflexivity].
  cbn [mbind result_bind].
  destruct (bool_decide (subtype t = task_subtype_density));
    cbn [app]; rewrite ?ops_run_cons; cbn [Links.apply_op mbind result_bind].
  - destruct (engine_addlink density set_density (ci t) ind st1)
      as [st2 | msg]; [| reflexivity].
    cbn [mbind result_bind].
    destruct (bool_decide (subtype t = task_subtype_grav));
      cbn [app]; rewrite ?ops_run_cons; cbn [Links.apply_op mbind result_bind].
    + destruct (engine_addlink grav set_grav (ci t) ind st2)
        as [st3 | msg]; [| reflexivity].
      cbn [mbind result_bind].
      destruct (bool_decide (subtype t = task_subtype_external_grav));
        [| reflexivity].
      rewrite ops_run_cons. cbn [Links.apply_op].
      now destruct (engine_addlink grav set_grav (ci t) ind st3).
    + destruct (bool_decide (subtype t = task_subtype_external_grav));
        [| reflexivity].
      rewrite ops_run_cons. cbn [Links.apply_op].
      now destruct (engine_addlink grav set_grav (ci t) ind st2).
  - destruct (bool_decide (subtype t = task_subtype_grav));
      cbn [app]; rewrite ?ops_run_cons; cbn [Links.apply_op mbind result_bind].
    + destruct (engine_addlink grav set_grav (ci t) ind st1)
        as [st3 | msg]; [| reflexivity].
      cbn [mbind result_bind].
      destruct (bool_decide (subtype t = task_subtype_external_grav));
        [| reflexivity].
      rewrite ops_run_cons. cbn [Links.apply_op].
      now destruct (engine_addlink grav set_grav (ci t) ind st3).
    + destruct (bool_decide (subtype t = task_subtype_external_grav));
        [| reflexivity].
      rewrite ops_run_cons. cbn [Links.apply_op].
      now destruct (engine_addlink grav set_grav (ci t) ind st1).
Qed.

Lemma link_pair_run msg t ind (st : state) :
  link_pair size_links msg t ind st = run (ops_pair msg t ind) st.
Proof.
  unfold link_pair, ops_pair. rewrite ops_run_cons.
  cbn [apply_op Links.apply_op].
  destruct (inc_nr_tasks (ci t) st) as [st1 | m]; [| reflexivity].
  cbn [mbind result_bind]. rewrite ops_run_cons. cbn [Links.apply_op].
  destruct (inc_nr_tasks (cj t) st1) as [st2 | m]; [| reflexivity].
  cbn [mbind result_bind]. rewrite ops_run_app.
  assert (Hd : forall g field set_field (b : bool) (s : state),
            (forall c i s', Links.apply_op size_links (Link g c i) s' =
                            engine_addlink field set_field c i s') ->
            (if b then
               s' ← engine_addlink field set_field (ci t) ind s;
               engine_addlink field set_field (cj t) ind s'
             else Ok s) =
            run (if b then [Link g (ci t) ind; Link g (cj t) ind] else []) s).
  { intros g field set_field b s Hg. destruct b; [| reflexivity].
    rewrite ops_run_cons, Hg.
    destruct (engine_addlink field set_field (ci t) ind s) as [s1 | m];
      [| reflexivity].
    cbn [mbind result_bind]. rewrite ops_run_cons, Hg.
    now destruct (engine_addlink field set_field (cj t) ind s1). }
  rewrite (Hd false density set_density) by reflexivity.
  destruct (Links.run size_links (if bool_decide _ then _ else _) st2)
    as [st3 | m]; [| reflexivity].
  cbn [mbind result_bind]. rewrite ops_run_app.
  rewrite (Hd true grav set_grav) by reflexivity.
  destruct (Links.run size_links (if bool_decide _ then _ else _) st3)
    as [st4 | m]; [| reflexivity].
  cbn [mbind result_bind].
  now destruct (bool_decide (subtype t = task_subtype_external_grav)).
Qed.

Lemma engine_count_and_link_task_run ind t (st : state) :
  tasks (sched st) !! ind = Some t ->
  engine_count_and_link_task ind st =
  (st ← (if bool_decide (type t = task_type_sort)
         then link_sorts ind (ci t) st else Ok st);
   run (ops_of t ind) st).
Proof.
  intros Ht. unfold Links.engine_count_and_link_task, task_at. rewrite Ht.
  cbn [mbind result_bind]. unfold ops_of.
  destruct (if bool_decide (type t = task_type_sort) then _ else _)
    as [st1 | m]; [| reflexivity].
  cbn [mbind result_bind].
  destruct (bool_decide (type t = task_type_self)); [apply link_self_run |].
  destruct (bool_decide (type t = task_type_pair)); [apply link_pair_run |].
  destruct (bool_decide (type t = task_type_sub_self)); [apply link_self_run |].
  destruct (bool_decide (type t = task_type_sub_pair)); [apply link_pair_run |].
  reflexivity.
Qed.

(** *** What the stores do to the memory *)

Lemma set_cell_ok c f (st st' : state) :
  set_cell c f st = Ok st' ->
  exists x, cells st !! c = Some x /\
            sched st' = sched st /\ nr_links st' = nr_links st /\
            cells st' = <[c := f x]> (cells st).
Proof.
  unfold set_cell. destruct (cells st !! c) as [x |]; [| discriminate].
  intros [= <-]. exists x. now repeat split.
Qed.

Lemma lookup_insert_decide {A} (l : list A) i j x y :
  l !! i = Some y -> l !! j = Some x ->
  <[i := y]> l !! j = Some x /\
  forall z, <[i := z]> l !! j = Some (if decide (i = j) then z else x).
Proof.
  intros Hi Hj. split.
  - destruct (decide (i = j)) as [-> | Hne].
    + rewrite list_lookup_insert_eq by (now apply lookup_lt_Some in Hj).
      congruence.
    + now rewrite list_lookup_insert_ne.
  - intros z. destruct (decide (i = j)) as [-> | Hne].
    + now rewrite list_lookup_insert_eq by (now apply lookup_lt_Some in Hj).
    + now rewrite list_lookup_insert_ne.
Qed.

Lemma apply_op_spec o (st st' : state) :
  apply_op o st = Ok st' ->
  sched st' = sched st /\
  nr_links st' = nr_links st + (if is_link o then 1 else 0) /\
  (is_link o = true -> nr_links st < size_links) /\
  length (cells st') = length (cells st) /\
  forall c cl, cells st !! c = Some cl ->
               cells st' !! c = Some (op_on_cell c cl o).
Proof.
  destruct o as [[c0 |] | g [c0 |] t | msg]; cbn [Links.apply_op is_link];
    try discriminate.
  - (* Inc *)
    unfold inc_nr_tasks. cbn [deref mbind result_bind]. unfold cell_at.
    destruct (cells st !! c0) as [cl0 |] eqn:Hc0; [| discriminate].
    cbn [mbind result_bind]. intros Hset.
    apply set_cell_ok in Hset as (x & Hx & Hs & Hn & Hc).
    split; [exact Hs |]. split; [lia |]. split; [discriminate |].
    rewrite Hc. split; [apply length_insert |].
    intros c cl Hcl. cbn [op_on_cell].
    destruct (lookup_insert_decide (cells st) c0 c cl cl0 Hc0 Hcl) as (_ & Hz).
    rewrite Hz. destruct (decide (c0 = c)) as [-> | _]; [| reflexivity].
    congruence.
  - (* Link *)
    intros Hl.
    assert (Hgen : forall field set_field,
              Links.engine_addlink size_links field set_field (Some c0) t st
              = Ok st' ->
              sched st' = sched st /\ nr_links st' = nr_links st + 1 /\
              nr_links st < size_links /\
              length (cells st') = length (cells st) /\
              forall c cl, cells st !! c = Some cl ->
                cells st' !! c =
                Some (if decide (c0 = c) then set_field (t :: field cl) cl
                      else cl)).
    { intros field set_field Ha. unfold Links.engine_addlink in Ha.
      destruct (Z.leb_spec size_links (nr_links st)) as [| Hlt];
        [discriminate |].
      cbn [deref mbind result_bind] in Ha. unfold cell_at in Ha.
      cbn [cells] in Ha.
      destruct (cells st !! c0) as [cl0 |] eqn:Hc0; [| discriminate].
      cbn [mbind result_bind] in Ha.
      apply set_cell_ok in Ha as (x & Hx & Hs & Hn & Hc).
      cbn [cells sched nr_links] in *.
      split; [exact Hs |]. split; [exact Hn |]. split; [exact Hlt |].
      rewrite Hc. split; [apply length_insert |].
      intros c cl Hcl.
      destruct (lookup_insert_decide (cells st) c0 c cl cl0 Hc0 Hcl)
        as (_ & Hz).
      rewrite Hz. destruct (decide (c0 = c)) as [-> | _]; [| reflexivity].
      congruence. }
    destruct g.
    + destruct (Hgen grav set_grav Hl) as (H1 & H2 & H3 & H4 & H5).
      split; [exact H1 |]. split; [exact H2 |]. split; [intros _; exact H3 |].
      split; [exact H4 |]. exact H5.
    + destruct (Hgen density set_density Hl) as (H1 & H2 & H3 & H4 & H5).
      split; [exact H1 |]. split; [exact H2 |]. split; [intros _; exact H3 |].
      split; [exact H4 |]. exact H5.
  - (* Link through NULL *)
    intros Hl. exfalso. destruct g; cbn in Hl; unfold Links.engine_addlink in Hl;
      destruct (size_links <=? nr_links st); discriminate.
Qed.

Lemma nr_linked_cons o ops :
  Z.of_nat (nr_linked (o :: ops)) =
  (if is_link o then 1 else 0) + Z.of_nat (nr_linked ops).
Proof.
  unfold nr_linked. destruct (is_link o) eqn:Ho.
  - rewrite filter_cons_True by assumption. cbn [length]. lia.
  - rewrite filter_cons_False by congruence. lia.
Qed.

Lemma run_spec ops (st st' : state) :
  run ops st = Ok st' ->
  sched st' = sched st /\
  nr_links st' = nr_links st + Z.of_nat (nr_linked ops) /\
  (nr_linked ops <> 0%nat -> nr_links st' <= size_links) /\
  length (cells st') = length (cells st) /\
  forall c cl, cells st !! c = Some cl ->
               cells st' !! c = Some (foldl (op_on_cell c) cl ops).
Proof.
  revert st. induction ops as [| o ops IH]; intros st Hrun.
  - injection Hrun as <-. split; [reflexivity |].
    split; [cbn; lia |]. split; [intros H; exfalso; apply H; reflexivity |].
    split; [reflexivity |]. intros c cl Hc. exact Hc.
  - rewrite ops_run_cons in Hrun.
    apply result_bind_ok in Hrun as (st1 & Ho & Hrun).
    destruct (apply_op_spec o st st1 Ho) as (Hs & Hn & Hlt & Hlen & Hc).
    destruct (IH st1 Hrun) as (Hs' & Hn' & Hle' & Hlen' & Hc').
    split; [congruence |]. rewrite nr_linked_cons.
    split; [lia |]. split; [| split; [congruence |]].
    + intros Hne. destruct (decide (nr_linked ops = 0%nat)) as [H0 | H0].
      * rewrite H0 in Hn'. destruct (is_link o) eqn:Hlo.
        -- specialize (Hlt eq_refl). lia.
        -- exfalso. apply Hne. unfold nr_linked in *.
           rewrite filter_cons_False by congruence. exact H0.
      * now apply Hle'.
    + intros c cl Hcl. cbn [foldl]. apply Hc', Hc, Hcl.
Qed.

Lemma op_on_cell_fields c cl ops :
  let cl' := foldl (op_on_cell c) cl ops in
  split cl' = split cl /\ progeny cl' = progeny cl /\ sorts cl' = sorts cl /\
  nr_tasks cl' = nr_tasks cl + Z.of_nat (incs c ops) /\
  density cl' = linked false c ops ++ density cl /\
  grav cl' = linked true c ops ++ grav cl.
Proof.
  revert cl. induction ops as [| o ops IH]; intros cl.
  - cbn. repeat split. lia.
  - cbn [foldl]. destruct (IH (op_on_cell c cl o))
      as (H1 & H2 & H3 & H4 & H5 & H6).
    cbv zeta. rewrite H1, H2, H3, H4, H5, H6. clear IH H1 H2 H3 H4 H5 H6.
    unfold incs, linked. cbn [omap list_omap].
    destruct o as [[c0 |] | g [c0 |] t | msg]; cbn [op_on_cell].
    + destruct (decide (c0 = c)) as [-> | Hne].
      * rewrite filter_cons_True by reflexivity. cbn [length].
        repeat split. cbn. lia.
      * rewrite filter_cons_False by congruence. now repeat split.
    + rewrite filter_cons_False by congruence. now repeat split.
    + destruct g.
      * destruct (decide (c0 = c)) as [-> | Hne].
        -- rewrite filter_cons_False by congruence.
           rewrite (bool_decide_eq_true_2 (true = true /\ Some c = Some c))
             by now split.
           rewrite (bool_decide_eq_false_2 (true = false /\ _))
             by (intros (? & _); discriminate).
           cbn [rev]. repeat split. cbn. now rewrite <- app_assoc.
        -- rewrite filter_cons_False by congruence.
           rewrite !(bool_decide_eq_false_2 (_ /\ Some c0 = Some c))
             by (intros (_ & ?); congruence).
           now repeat split.
      * destruct (decide (c0 = c)) as [-> | Hne].
        -- rewrite filter_cons_False by congruence.
           rewrite (bool_decide_eq_true_2 (false = false /\ Some c = Some c))
             by now split.
           rewrite (bool_decide_eq_false_2 (false = true /\ _))
             by (intros (? & _); discriminate).
           cbn [rev]. repeat split. cbn. now rewrite <- app_assoc.
        -- rewrite filter_cons_False by congruence.
           rewrite !(bool_decide_eq_false_2 (_ /\ Some c0 = Some c))
             by (intros (_ & ?); congruence).
           now repeat split.
    + rewrite filter_cons_False by congruence.
      rewrite !(bool_decide_eq_false_2 (_ /\ None = Some c))
        by (intros (_ & ?); congruence).
      destruct g; now repeat split.
    + rewrite filter_cons_False by congruence. now repeat split.
Qed.

Lemma ops_run_no_abort ops (st st' : state) msg :
  run ops st = Ok st' -> Abort msg ∉ ops.
Proof.
  revert st. induction ops as [| o ops IH]; intros st Hrun Hin;
    [now apply elem_of_nil in Hin |].
  rewrite ops_run_cons in Hrun.
  apply result_bind_ok in Hrun as (st1 & Ho & Hrun).
  apply elem_of_cons in Hin as [<- | Hin]; [discriminate |].
  now apply (IH st1).
Qed.

(** *** The sort tasks *)

Lemma link_sorts_loop ind prog (st st' : state) :
  foldl (fun st pj =>
           st ← st;
           match pj with
           | Some p =>
             cp ← cell_at st p;
             match sorts cp with
             | Some s => Ok (addunlock (Some s) (Some ind) st)
             | None => Ok st
             end
           | None => Ok st
           end) (Ok st) prog = Ok st' ->
  cells st' = cells st /\ nr_links st' = nr_links st /\
  tasks (sched st') = tasks (sched st) /\
  unlocks (sched st') =
  unlocks (sched st) ++
  omap (fun pj => p ← pj; cp ← cells st !! p; s ← sorts cp;
                  Some (Some s, Some ind)) prog.
Proof.
  revert st. induction prog as [| pj prog IH]; intros st Hl.
  - injection Hl as <-. cbn. now rewrite app_nil_r.
  - cbn [foldl mbind result_bind] in Hl.
    destruct pj as [p |].
    + unfold cell_at in Hl. destruct (cells st !! p) as [cp |] eqn:Hp.
      2:{ cbn [mbind result_bind] in Hl.
          rewrite foldl_error in Hl by reflexivity. discriminate. }
      cbn [mbind result_bind] in Hl.
      cbn [omap list_omap mbind option_bind]. rewrite Hp.
      cbn [mbind option_bind].
      destruct (sorts cp) as [s |].
      * destruct (IH _ Hl) as (Hc & Hn & Ht & Hu). cbn in Hc, Hn, Ht, Hu.
        rewrite Hc, Hn, Ht, Hu. repeat split.
        cbn [mbind option_bind]. now rewrite <- app_assoc.
      * destruct (IH _ Hl) as (Hc & Hn & Ht & Hu).
        rewrite Hc, Hn, Ht, Hu. repeat split.
    + destruct (IH _ Hl) as (Hc & Hn & Ht & Hu).
      rewrite Hc, Hn, Ht, Hu. repeat split.
Qed.

Lemma link_sorts_spec ind t (st st' : state) :
  (if bool_decide (type t = task_type_sort)
   then link_sorts ind (ci t) st else Ok st) = Ok st' ->
  cells st' = cells st /\ nr_links st' = nr_links st /\
  tasks (sched st') = tasks (sched st) /\
  unlocks (sched st') = unlocks (sched st) ++ sort_unlocks (cells st) ind t.
Proof.
  unfold sort_unlocks. destruct (bool_decide (type t = task_type_sort)).
  2:{ intros [= <-]. now rewrite app_nil_r. }
  unfold link_sorts. destruct (ci t) as [c |]; [| discriminate].
  cbn [deref mbind result_bind option_bind].
  assert (Hat : cell_at st c =
                match cells st !! c with
                | Some c => Ok c
                | None => Error "invalid cell pointer"
                end) by reflexivity.
  rewrite Hat. clear Hat.
  destruct (cells st !! c) as [cl |]; [| discriminate].
  cbn [mbind result_bind].
  destruct (split cl).
  - apply link_sorts_loop.
  - intros [= <-]. now rewrite app_nil_r.
Qed.

Lemma sort_unlocks_shape (cells1 cells2 : list cell) ind t :
  length cells2 = length cells1 ->
  (forall c cl, cells1 !! c = Some cl ->
     exists cl', cells2 !! c = Some cl' /\ split cl' = split cl /\
                 progeny cl' = progeny cl /\ sorts cl' = sorts cl) ->
  sort_unlocks cells2 ind t = sort_unlocks cells1 ind t.
Proof.
  intros Hlen Hsh.
  assert (Hsorts : forall p,
            (cells2 !! p ≫= sorts) = (cells1 !! p ≫= sorts)).
  { intros p. destruct (cells1 !! p) as [cl |] eqn:Hp.
    - destruct (Hsh p cl Hp) as (cl' & -> & _ & _ & Hs). cbn. exact Hs.
    - rewrite (lookup_ge_None_2 cells2); [reflexivity |].
      apply lookup_ge_None_1 in Hp. lia. }
  unfold sort_unlocks. destruct (bool_decide _); [| reflexivity].
  destruct (ci t) as [c |]; [| reflexivity]. cbn [mbind option_bind].
  destruct (cells1 !! c) as [cl |] eqn:Hc.
  - destruct (Hsh c cl Hc) as (cl' & -> & Hs & Hp & _).
    rewrite Hs, Hp. destruct (split cl); [| reflexivity].
    apply list_omap_ext, Forall2_same_length_lookup. split; [reflexivity |].
    intros i pj pj' Hi Hi'. assert (pj' = pj) as -> by congruence.
    destruct pj as [p |]; [| reflexivity]. cbn [mbind option_bind].
    pose proof (Hsorts p) as Hps.
    destruct (cells2 !! p) as [c2 |], (cells1 !! p) as [c1 |];
      cbn in Hps |- *;
      first [reflexivity | now rewrite Hps | now rewrite <- Hps].
  - rewrite (lookup_ge_None_2 cells2); [reflexivity |].
    apply lookup_ge_None_1 in Hc. lia.
Qed.

(** *** One round of the loop *)

Lemma engine_count_and_link_task_spec ind t (st st' : state) :
  tasks (sched st) !! ind = Some t ->
  engine_count_and_link_task ind st = Ok st' ->
  tasks (sched st') = tasks (sched st) /\
  unlocks (sched st') = unlocks (sched st) ++ sort_unlocks (cells st) ind t /\
  nr_links st' = nr_links st + Z.of_nat (nr_linked (ops_of t ind)) /\
  (nr_linked (ops_of t ind) <> 0%nat -> nr_links st' <= size_links) /\
  length (cells st') = length (cells st) /\
  (forall c cl, cells st !! c = Some cl ->
     cells st' !! c = Some (foldl (op_on_cell c) cl (ops_of t ind))) /\
  forall msg, Abort msg ∉ ops_of t ind.
Proof.
  intros Ht Hb. rewrite (engine_count_and_link_task_run ind t st Ht) in Hb.
  apply result_bind_ok in Hb as (st1 & Hsort & Hrun).
  destruct (link_sorts_spec ind t st st1 Hsort) as (Hc & Hn & Hts & Hu).
  destruct (run_spec _ _ _ Hrun) as (Hs' & Hn' & Hle' & Hlen' & Hc').
  rewrite Hs', Hn', Hlen', Hts, Hu, Hc, Hn.
  repeat split; try assumption.
  - intros H. specialize (Hle' H). lia.
  - intros c cl Hcl. apply Hc'. now rewrite Hc.
  - intros msg. eapply ops_run_no_abort. exact Hrun.
Qed.

(** *** The loop *)

Lemma join_imap_take_S {A B} (F : nat -> A -> list B) (l : list A) n x :
  l !! n = Some x ->
  mjoin (imap F (take (S n) l)) = mjoin (imap F (take n l)) ++ F n x.
Proof.
  intros Hx. rewrite (take_S_r l n x Hx), imap_app, join_app.
  cbn. rewrite app_nil_r, length_take.
  apply lookup_lt_Some in Hx.
  now rewrite Nat.min_l, Nat.add_0_r by lia.
Qed.

Lemma loop_spec n (st st' : state) :
  (n <= length (tasks (sched st)))%nat ->
  foldl (fun st ind => st ← st; engine_count_and_link_task ind st)
        (Ok st) (seq 0 n) = Ok st' ->
  let ts := take n (tasks (sched st)) in
  tasks (sched st') = tasks (sched st) /\
  unlocks (sched st') = unlocks (sched st) ++ all_sort_unlocks (cells st) ts /\
  nr_links st' = nr_links st + Z.of_nat (nr_linked (all_ops ts)) /\
  (nr_linked (all_ops ts) <> 0%nat -> nr_links st' <= size_links) /\
  length (cells st') = length (cells st) /\
  (forall c cl, cells st !! c = Some cl ->
     cells st' !! c = Some (foldl (op_on_cell c) cl (all_ops ts))) /\
  forall msg, Abort msg ∉ all_ops ts.
Proof.
  revert st'. induction n as [| n IH]; intros st' Hn Hloop ts.
  - injection Hloop as <-. subst ts. cbn [take].
    split; [reflexivity |].
    split; [change (all_sort_unlocks (cells st) []) with
              (@nil (option nat * option nat)); now rewrite app_nil_r |].
    split; [change (nr_links st = nr_links st + 0); lia |]. split; [intros H; exfalso; apply H; reflexivity |].
    split; [reflexivity |]. split; [intros c cl Hc; exact Hc |].
    intros msg H. now apply elem_of_nil in H.
  - rewrite seq_S, foldl_app in Hloop. cbn [foldl Nat.add] in Hloop.
    apply result_bind_ok in Hloop as (st1 & Hloop & Hbody).
    assert (Hn' : (n <= length (tasks (sched st)))%nat) by lia.
    destruct (IH st1 Hn' Hloop) as (Ht & Hu & Hnl & Hle & Hlen & Hc & Hab).
    clear IH.
    assert (Hlt : (n < length (tasks (sched st)))%nat) by lia.
    destruct (lookup_lt_is_Some_2 _ n Hlt) as (t & Htn).
    assert (Htn1 : tasks (sched st1) !! n = Some t) by now rewrite Ht.
    destruct (engine_count_and_link_task_spec n t st1 st' Htn1 Hbody)
      as (Ht' & Hu' & Hnl' & Hle' & Hlen' & Hc' & Hab').
    subst ts. unfold all_ops, all_sort_unlocks in *.
    rewrite !(join_imap_take_S _ _ n t Htn).
    assert (Hshape : sort_unlocks (cells st1) n t = sort_unlocks (cells st) n t).
    { apply sort_unlocks_shape; [exact Hlen |].
      intros c cl Hcl. eexists. split; [apply Hc, Hcl |].
      destruct (op_on_cell_fields c cl
                  (mjoin (imap (fun ind t => ops_of t ind)
                               (take n (tasks (sched st))))))
        as (H1 & H2 & H3 & _).
      now repeat split. }
    split; [congruence |].
    split; [rewrite Hu', Hu, Hshape; now rewrite app_assoc |].
    assert (Hlinked : forall p q : list op,
              nr_linked (p ++ q) = (nr_linked p + nr_linked q)%nat).
    { intros p q. unfold nr_linked. now rewrite filter_app, length_app. }
    rewrite Hlinked.
    split; [lia |]. split; [| split; [congruence | split]].
    + intros Hne.
      destruct (decide (nr_linked (ops_of t n) = 0%nat)) as [H0 | H0].
      * rewrite H0 in Hnl'. rewrite Hnl'. rewrite Z.add_0_r. apply Hle. lia.
      * now apply Hle'.
    + intros c cl Hcl. rewrite foldl_app. apply Hc', Hc, Hcl.
    + intros msg Hin. apply elem_of_app in Hin as [Hin | Hin].
      * now apply (Hab msg).
      * now apply (Hab' msg).
Qed.

(** *** The stores, task by task *)

Ltac simpl_bool_decide :=
  repeat match goal with
  | |- context [bool_decide ?P] =>
    first [ rewrite (bool_decide_eq_true_2 P) by (intuition congruence)
          | rewrite (bool_decide_eq_false_2 P) by (intuition congruence) ]
  | H : context [bool_decide ?P] |- _ =>
    first [ rewrite (bool_decide_eq_true_2 P) in H by (intuition congruence)
          | rewrite (bool_decide_eq_false_2 P) in H by (intuition congruence) ]
  end.

Lemma incs_app c p q : incs c (p ++ q) = (incs c p + incs c q)%nat.
Proof. unfold incs. now rewrite filter_app, length_app. Qed.

Lemma linked_app g c p q : linked g c (p ++ q) = linked g c q ++ linked g c p.
Proof. unfold linked. now rewrite omap_app, rev_app_distr. Qed.

Lemma nr_linked_app p q : nr_linked (p ++ q) = (nr_linked p + nr_linked q)%nat.
Proof. unfold nr_linked. now rewrite filter_app, length_app. Qed.

Lemma incs_inc c (l : list (option nat)) :
  incs c (Inc <$> l) = length (filter (fun p => p = Some c) l).
Proof.
  unfold incs. induction l as [| a l IH]; [reflexivity |].
  cbn [fmap list_fmap]. destruct (decide (a = Some c)) as [-> | Hne].
  - rewrite !filter_cons_True by reflexivity. cbn [length]. now rewrite <- IH.
  - rewrite !filter_cons_False by congruence. exact IH.
Qed.

Lemma incs_link c g ind (l : list (option nat)) :
  incs c ((fun a => Link g a ind) <$> l) = 0%nat.
Proof.
  unfold incs. induction l as [| a l IH]; [reflexivity |].
  cbn [fmap list_fmap]. now rewrite filter_cons_False by congruence.
Qed.

Lemma linked_inc g c (l : list (option nat)) : linked g c (Inc <$> l) = [].
Proof.
  unfold linked. induction l as [| a l IH]; [reflexivity |].
  cbn [fmap list_fmap omap list_omap]. exact IH.
Qed.

Lemma rev_replicate {A} n (x : A) : rev (replicate n x) = replicate n x.
Proof.
  induction n as [| n IH]; [reflexivity |].
  cbn [replicate rev]. rewrite IH. clear IH.
  induction n as [| n IH]; [reflexivity |]. cbn. now rewrite IH.
Qed.

Lemma linked_link g g' c ind (l : list (option nat)) :
  linked g c ((fun a => Link g' a ind) <$> l) =
  if bool_decide (g' = g)
  then replicate (length (filter (fun p => p = Some c) l)) ind else [].
Proof.
  unfold linked.
  assert (H : omap (fun o => match o with
                             | Link g0 c' t =>
                               if bool_decide (g0 = g /\ c' = Some c)
                               then Some t else None
                             | _ => None
                             end) ((fun a => Link g' a ind) <$> l) =
              if bool_decide (g' = g)
              then replicate (length (filter (fun p => p = Some c) l)) ind
              else []).
  { induction l as [| a l IH].
    - now destruct (bool_decide (g' = g)).
    - cbn [fmap list_fmap omap list_omap]. rewrite IH. clear IH.
      destruct (decide (g' = g)) as [-> | Hg].
      + rewrite (bool_decide_eq_true_2 (g = g)) by reflexivity.
        destruct (decide (a = Some c)) as [-> | Hne].
        * rewrite bool_decide_eq_true_2 by now split.
          now rewrite filter_cons_True.
        * rewrite bool_decide_eq_false_2 by (intros (_ & ?); congruence).
          now rewrite filter_cons_False.
      + rewrite (bool_decide_eq_false_2 (g' = g)) by assumption.
        rewrite bool_decide_eq_false_2 by (intros (? & _); congruence).
        reflexivity. }
  rewrite H. destruct (bool_decide (g' = g)); [apply rev_replicate | reflexivity].
Qed.

Lemma nr_linked_inc (l : list (option nat)) : nr_linked (Inc <$> l) = 0%nat.
Proof.
  unfold nr_linked. induction l as [| a l IH]; [reflexivity |].
  cbn [fmap list_fmap]. now rewrite filter_cons_False by discriminate.
Qed.

Lemma nr_linked_link g ind (l : list (option nat)) :
  nr_linked ((fun a => Link g a ind) <$> l) = length l.
Proof.
  unfold nr_linked. induction l as [| a l IH]; [reflexivity |].
  cbn [fmap list_fmap]. rewrite filter_cons_True by reflexivity.
  cbn [length]. now rewrite IH.
Qed.

(** The stores of a task that the pass does not abort on. *)
Lemma ops_of_shape t ind :
  (forall msg, Abort msg ∉ ops_of t ind) ->
  ops_of t ind =
  (Inc <$> task_cells t) ++
  ((fun a => Link false a ind) <$> density_cells t) ++
  ((fun a => Link true a ind) <$> grav_cells t).
Proof.
  destruct t as [ty sub fl w a b tg sk].
  unfold ops_of, ops_self, ops_pair, density_cells, grav_cells, task_cells.
  cbn [type subtype ci cj]. intros Hab.
  destruct (decide (ty = task_type_self)) as [-> | H1].
  { destruct sub; simpl_bool_decide; reflexivity. }
  destruct (decide (ty = task_type_pair)) as [-> | H2].
  { destruct sub; simpl_bool_decide; try reflexivity.
    exfalso. eapply Hab. cbn. do 2 apply list_elem_of_further.
    apply list_elem_of_here. }
  destruct (decide (ty = task_type_sub_self)) as [-> | H3].
  { destruct sub; simpl_bool_decide; reflexivity. }
  destruct (decide (ty = task_type_sub_pair)) as [-> | H4].
  { destruct sub; simpl_bool_decide; try reflexivity.
    exfalso. eapply Hab. cbn. do 2 apply list_elem_of_further.
    apply list_elem_of_here. }
  simpl_bool_decide. now destruct (bool_decide _), (bool_decide _).
Qed.

Lemma ops_of_links t ind c :
  (forall msg, Abort msg ∉ ops_of t ind) ->
  incs c (ops_of t ind) =
    length (filter (fun p => p = Some c) (task_cells t)) /\
  linked false c (ops_of t ind) =
    replicate (length (filter (fun p => p = Some c) (density_cells t))) ind /\
  linked true c (ops_of t ind) =
    replicate (length (filter (fun p => p = Some c) (grav_cells t))) ind /\
  nr_linked (ops_of t ind) = links_of t.
Proof.
  intros Hab. rewrite (ops_of_shape t ind Hab).
  rewrite !incs_app, !linked_app, !nr_linked_app.
  rewrite incs_inc, !incs_link, !linked_inc, !linked_link, nr_linked_inc,
    !nr_linked_link.
  rewrite (bool_decide_eq_true_2 (false = false)) by reflexivity.
  rewrite (bool_decide_eq_true_2 (true = true)) by reflexivity.
  rewrite (bool_decide_eq_false_2 (false = true)) by discriminate.
  rewrite (bool_decide_eq_false_2 (true = false)) by discriminate.
  rewrite !app_nil_r. unfold links_of. repeat split; lia.
Qed.

(** *** The stores of the whole pass *)

Lemma all_ops_links (ts : list task) c n :
  (n <= length ts)%nat ->
  (forall msg, Abort msg ∉ all_ops (take n ts)) ->
  incs c (all_ops (take n ts)) = length (links_on task_cells c (take n ts)) /\
  linked false c (all_ops (take n ts)) =
    rev (links_on density_cells c (take n ts)) /\
  linked true c (all_ops (take n ts)) =
    rev (links_on grav_cells c (take n ts)) /\
  nr_linked (all_ops (take n ts)) = sum_list_with links_of (take n ts).
Proof.
  unfold all_ops, links_on.
  induction n as [| n IH]; intros Hn Hab; [now repeat split |].
  assert (Hlt : (n < length ts)%nat) by lia.
  destruct (lookup_lt_is_Some_2 ts n Hlt) as (t & Ht).
  rewrite !(join_imap_take_S _ _ n t Ht) in *.
  rewrite (take_S_r ts n t Ht), sum_list_with_app.
  assert (Hab1 : forall msg,
            Abort msg ∉ mjoin (imap (fun ind t => ops_of t ind) (take n ts))).
  { intros msg Hin. apply (Hab msg), elem_of_app. now left. }
  assert (Hab2 : forall msg, Abort msg ∉ ops_of t n).
  { intros msg Hin. apply (Hab msg), elem_of_app. now right. }
  assert (Hn' : (n <= length ts)%nat) by lia.
  destruct (IH Hn' Hab1) as (H1 & H2 & H3 & H4).
  destruct (ops_of_links t n c Hab2) as (G1 & G2 & G3 & G4).
  rewrite incs_app, !linked_app, nr_linked_app, H1, H2, H3, H4, G1, G2, G3, G4.
  rewrite !rev_app_distr, !rev_replicate, !length_app, !length_replicate.
  cbn [sum_list_with]. repeat split. lia.
Qed.

(** X19. A pass of [engine_count_and_link_tasks] that returns leaves the
    tasks as they are. Of a cell it changes [nr_tasks], [density] and [grav]
    only: [nr_tasks] has grown by the number of times the cell is the [ci]
    of a self or sub-self task or the [ci] or [cj] of a pair or sub-pair
    task; the tasks of these kinds with subtype density have been pushed on
    the cell's [density] list, and those with subtype grav or external_grav
    on its [grav] list, in the order of the task array, so that the last
    task is at the head, and a pair of a cell with itself is on the list
    twice. [nr_links] has grown by the number of links made and, if any was
    made, does not exceed [size_links]; and the only new unlocks are those
    from the sort task of a progeny to the sort task of its split cell. *)
Theorem engine_count_and_link_tasks_links (st st' : state) :
  engine_count_and_link_tasks st = Ok st' ->
  let ts := tasks (sched st) in
  tasks (sched st') = ts /\
  unlocks (sched st') = unlocks (sched st) ++ all_sort_unlocks (cells st) ts /\
  nr_links st' = nr_links st + Z.of_nat (sum_list_with links_of ts) /\
  (sum_list_with links_of ts <> 0%nat -> nr_links st' <= size_links) /\
  length (cells st') = length (cells st) /\
  forall c cl, cells st !! c = Some cl ->
    exists cl', cells st' !! c = Some cl' /\
      split cl' = split cl /\ progeny cl' = progeny cl /\
      sorts cl' = sorts cl /\
      nr_tasks cl' = nr_tasks cl + Z.of_nat (length (links_on task_cells c ts)) /\
      density cl' = rev (links_on density_cells c ts) ++ density cl /\
      grav cl' = rev (links_on grav_cells c ts) ++ grav cl.
Proof.
  intros Hpass ts. unfold Links.engine_count_and_link_tasks in Hpass.
  destruct (loop_spec _ st st' (le_n _) Hpass)
    as (Ht & Hu & Hn & Hle & Hlen & Hc & Hab).
  rewrite firstn_all in *. fold ts in Hu, Hn, Hle, Hc, Hab.
  assert (Hall : forall c,
            incs c (all_ops ts) = length (links_on task_cells c ts) /\
            linked false c (all_ops ts) = rev (links_on density_cells c ts) /\
            linked true c (all_ops ts) = rev (links_on grav_cells c ts) /\
            nr_linked (all_ops ts) = sum_list_with links_of ts).
  { intros c. pose proof (all_ops_links ts c (length ts) (le_n _)) as H.
    rewrite firstn_all in H. now apply H. }
  destruct (Hall 0%nat) as (_ & _ & _ & Hnr). rewrite Hnr in Hn, Hle.
  split; [exact Ht |]. split; [exact Hu |]. split; [exact Hn |].
  split; [exact Hle |]. split; [exact Hlen |].
  intros c cl Hcl. eexists. split; [apply Hc, Hcl |].
  destruct (op_on_cell_fields c cl (all_ops ts))
    as (H1 & H2 & H3 & H4 & H5 & H6).
  destruct (Hall c) as (G1 & G2 & G3 & _).
  rewrite <- G1, <- G2, <- G3. now repeat split.
Qed.

(** *** When the pass returns *)

Lemma valid_cell_lookup (cs : list cell) p :
  valid_cell cs p <-> exists c cl, p = Some c /\ cs !! c = Some cl.
Proof.
  split.
  - intros (c & -> & Hlt). destruct (lookup_lt_is_Some_2 cs c Hlt) as (cl & Hcl).
    now exists c, cl.
  - intros (c & cl & -> & Hcl). exists c. split; [reflexivity |].
    now apply lookup_lt_Some in Hcl.
Qed.

Lemma op_valid_length (cs1 cs2 : list cell) o :
  length cs1 = length cs2 -> op_valid cs1 o -> op_valid cs2 o.
Proof.
  intros Hlen. destruct o as [p | g p t | msg]; cbn; try tauto;
    intros (c & -> & Hlt); exists c; (split; [reflexivity | lia]).
Qed.

Lemma apply_op_ok o (st : state) :
  op_valid (cells st) o ->
  (is_link o = true -> nr_links st < size_links) ->
  exists st', apply_op o st = Ok st'.
Proof.
  destruct o as [p | g p t | msg]; cbn [op_valid is_link Links.apply_op];
    [| | contradiction].
  - intros Hv _. apply valid_cell_lookup in Hv as (c & cl & -> & Hcl).
    unfold inc_nr_tasks, cell_at, set_cell. cbn [deref mbind result_bind].
    rewrite Hcl. cbn [mbind result_bind]. eauto.
  - intros Hv Hlt. specialize (Hlt eq_refl).
    apply valid_cell_lookup in Hv as (c & cl & -> & Hcl).
    destruct g; unfold Links.engine_addlink, cell_at, set_cell;
      (destruct (Z.leb_spec size_links (nr_links st)); [lia |]);
      cbn [deref mbind result_bind cells]; rewrite Hcl;
      cbn [mbind result_bind cells]; eauto.
Qed.

Lemma apply_op_valid o (st st' : state) :
  apply_op o st = Ok st' -> op_valid (cells st) o.
Proof.
  destruct o as [p | g p t | msg]; cbn [op_valid Links.apply_op];
    [| | discriminate].
  - unfold inc_nr_tasks, cell_at. destruct p as [c |]; [| discriminate].
    cbn [deref mbind result_bind].
    destruct (cells st !! c) as [cl |] eqn:Hcl; [| discriminate].
    intros _. apply valid_cell_lookup. now exists c, cl.
  - intros Ha. apply valid_cell_lookup.
    destruct g; unfold Links.engine_addlink, cell_at in Ha;
      (destruct (size_links <=? nr_links st); [discriminate |]);
      (destruct p as [c |]; [| discriminate]);
      cbn [deref mbind result_bind cells] in Ha;
      (destruct (cells st !! c) as [cl |] eqn:Hcl; [| discriminate]);
      now exists c, cl.
Qed.

Lemma run_ok ops (st : state) :
  Forall (op_valid (cells st)) ops ->
  (nr_linked ops <> 0%nat ->
   nr_links st + Z.of_nat (nr_linked ops) <= size_links) ->
  exists st', run ops st = Ok st'.
Proof.
  revert st. induction ops as [| o ops IH]; intros st Hv Hfit;
    [now exists st |].
  apply Forall_cons in Hv as (Ho & Hv).
  pose proof (nr_linked_cons o ops) as Hcons.
  destruct (apply_op_ok o st Ho) as (st1 & H1).
  { intros Hl. rewrite Hl in Hcons.
    assert (nr_linked (o :: ops) <> 0%nat) by lia. specialize (Hfit H). lia. }
  destruct (apply_op_spec o st st1 H1) as (_ & Hn & _ & Hlen & _).
  destruct (IH st1) as (st' & H').
  - eapply Forall_impl; [exact Hv |]. intros x. now apply op_valid_length.
  - intros Hne.
    assert (nr_linked (o :: ops) <> 0%nat) by (destruct (is_link o); lia).
    specialize (Hfit H). destruct (is_link o); lia.
  - exists st'. now rewrite ops_run_cons, H1.
Qed.

Lemma run_valid ops (st st' : state) :
  run ops st = Ok st' -> Forall (op_valid (cells st)) ops.
Proof.
  revert st. induction ops as [| o ops IH]; intros st Hrun; [constructor |].
  rewrite ops_run_cons in Hrun.
  apply result_bind_ok in Hrun as (st1 & Ho & Hrun).
  constructor; [eapply apply_op_valid; exact Ho |].
  destruct (apply_op_spec o st st1 Ho) as (_ & _ & _ & Hlen & _).
  eapply Forall_impl; [apply (IH st1 Hrun) |].
  intros x. now apply op_valid_length.
Qed.

Lemma link_sorts_loop_ok ind prog (st : state) :
  (forall p, Some p ∈ prog -> (p < length (cells st))%nat) <->
  exists st',
    foldl (fun st pj =>
             st ← st;
             match pj with
             | Some p =>
               cp ← cell_at st p;
               match sorts cp with
               | Some s => Ok (addunlock (Some s) (Some ind) st)
               | None => Ok st
               end
             | None => Ok st
             end) (Ok st) prog = Ok st'.
Proof.
  revert st. induction prog as [| pj prog IH]; intros st.
  - split; [now exists st |]. intros _ p Hp. now apply elem_of_nil in Hp.
  - cbn [foldl mbind result_bind]. destruct pj as [p |].
    + assert (Hat : cell_at st p =
                    match cells st !! p with
                    | Some c => Ok c
                    | None => Error "invalid cell pointer"
                    end) by reflexivity.
      rewrite Hat. clear Hat.
      destruct (cells st !! p) as [cp |] eqn:Hp.
      * cbn [mbind result_bind].
        assert (Hstep : exists st1 : state,
                  match sorts cp with
                  | Some s => Ok (addunlock (Some s) (Some ind) st)
                  | None => Ok st
                  end = Ok st1 /\ cells st1 = cells st).
        { destruct (sorts cp); eauto. }
        destruct Hstep as (st1 & -> & Hc1).
        rewrite <- (IH st1), Hc1. split.
        -- intros H q Hq. apply H. now apply list_elem_of_further.
        -- intros H q Hq. apply elem_of_cons in Hq as [[= ->] | Hq];
             [now apply lookup_lt_Some in Hp | now apply H].
      * cbn [mbind result_bind]. rewrite foldl_error by reflexivity. split.
        -- intros H. specialize (H p (list_elem_of_here _ _)).
           apply lookup_ge_None_1 in Hp. lia.
        -- intros (st' & [=]).
    + rewrite <- (IH st). split.
      * intros H q Hq. apply H. now apply list_elem_of_further.
      * intros H q Hq. apply elem_of_cons in Hq as [[=] | Hq]. now apply H.
Qed.

Lemma sort_part_ok ind t (st : state) :
  (type t = task_type_sort ->
   exists c cl, ci t = Some c /\ cells st !! c = Some cl /\
     (split cl = true ->
      forall p, Some p ∈ progeny cl -> (p < length (cells st))%nat)) <->
  exists st', (if bool_decide (type t = task_type_sort)
               then link_sorts ind (ci t) st else Ok st) = Ok st'.
Proof.
  destruct (decide (type t = task_type_sort)) as [Hty | Hty].
  2:{ rewrite bool_decide_eq_false_2 by assumption.
      split; [now exists st | intros _ H; contradiction]. }
  rewrite bool_decide_eq_true_2 by assumption. unfold link_sorts.
  destruct (ci t) as [c |].
  2:{ split; [intros H; destruct (H Hty) as (c & cl & [=] & _) |
              intros (st' & [=])]. }
  cbn [deref mbind result_bind].
  assert (Hat : cell_at st c =
                match cells st !! c with
                | Some c => Ok c
                | None => Error "invalid cell pointer"
                end) by reflexivity.
  rewrite Hat. clear Hat.
  destruct (cells st !! c) as [cl |] eqn:Hc.
  2:{ split; [intros H; destruct (H Hty) as (c' & cl & [= <-] & H' & _);
              congruence | intros (st' & [=])]. }
  cbn [mbind result_bind]. destruct (split cl) eqn:Hs.
  - rewrite <- link_sorts_loop_ok. split.
    + intros H. destruct (H Hty) as (c' & cl' & [= <-] & Hc' & Hp).
      assert (cl' = cl) as -> by congruence. now apply Hp.
    + intros H _. exists c, cl. now repeat split.
  - split; [now exists st |]. intros _ _. exists c, cl.
    split; [reflexivity |]. split; [exact Hc |]. intros H. congruence.
Qed.

Lemma ops_of_no_abort t ind :
  (forall msg, Abort msg ∉ ops_of t ind) <->
  (type t = task_type_pair \/ type t = task_type_sub_pair ->
   subtype t <> task_subtype_external_grav).
Proof.
  destruct t as [ty sub fl w a b tg sk].
  unfold ops_of, ops_self, ops_pair. cbn [type subtype ci cj].
  assert (Hself : forall msg,
            Abort msg ∉
            Inc a ::
            (if bool_decide (sub = task_subtype_density)
             then [Link false a ind] else []) ++
            (if bool_decide (sub = task_subtype_grav)
             then [Link true a ind] else []) ++
            (if bool_decide (sub = task_subtype_external_grav)
             then [Link true a ind] else [])).
  { intros msg Hin. apply elem_of_cons in Hin as [[=] | Hin].
    destruct (bool_decide _), (bool_decide _), (bool_decide _); cbn in Hin;
      repeat (apply elem_of_cons in Hin as [[=] | Hin]);
      now apply elem_of_nil in Hin. }
  assert (Hpair : forall m,
            (forall msg,
               Abort msg ∉
               Inc a :: Inc b ::
               (if bool_decide (sub = task_subtype_density)
                then [Link false a ind; Link false b ind] else []) ++
               (if bool_decide (sub = task_subtype_grav)
                then [Link true a ind; Link true b ind] else []) ++
               (if bool_decide (sub = task_subtype_external_grav)
                then [Abort m] else [])) <->
            sub <> task_subtype_external_grav).
  { intros m. destruct (decide (sub = task_subtype_external_grav)) as [-> | Hne].
    - simpl_bool_decide. cbn [app]. split; [| contradiction].
      intros H. exfalso. apply (H m). do 2 apply list_elem_of_further.
      apply list_elem_of_here.
    - rewrite (bool_decide_eq_false_2 (sub = task_subtype_external_grav))
        by assumption.
      split; [intros _; exact Hne |]. intros _ msg Hin.
      apply elem_of_cons in Hin as [[=] | Hin].
      apply elem_of_cons in Hin as [[=] | Hin].
      destruct (bool_decide _), (bool_decide _); cbn in Hin;
        repeat (apply elem_of_cons in Hin as [[=] | Hin]);
        now apply elem_of_nil in Hin. }
  destruct (decide (ty = task_type_self)) as [-> | H1].
  { simpl_bool_decide. split; [| intros _; exact Hself].
    intros _ [H | H]; discriminate. }
  destruct (decide (ty = task_type_pair)) as [-> | H2].
  { simpl_bool_decide. rewrite Hpair. tauto. }
  destruct (decide (ty = task_type_sub_self)) as [-> | H3].
  { simpl_bool_decide. split; [| intros _; exact Hself].
    intros _ [H | H]; discriminate. }
  destruct (decide (ty = task_type_sub_pair)) as [-> | H4].
  { simpl_bool_decide. rewrite Hpair. tauto. }
  simpl_bool_decide. split.
  - intros _ [H | H]; congruence.
  - intros _ msg Hin. now apply elem_of_nil in Hin.
Qed.

Lemma ops_of_valid (cs : list cell) t ind :
  (forall msg, Abort msg ∉ ops_of t ind) ->
  Forall (op_valid cs) (ops_of t ind) <-> Forall (valid_cell cs) (task_cells t).
Proof.
  intros Hab. rewrite (ops_of_shape t ind Hab).
  rewrite !Forall_app, !Forall_fmap. unfold density_cells, grav_cells.
  split; [now intros (H & _) |]. intros H.
  split; [exact H |].
  split; destruct (bool_decide _); (exact H || constructor).
Qed.

Lemma engine_count_and_link_task_ok ind t (st : state) :
  tasks (sched st) !! ind = Some t ->
  (task_ok (cells st) t /\
   (links_of t <> 0%nat ->
    nr_links st + Z.of_nat (links_of t) <= size_links)) <->
  exists st', engine_count_and_link_task ind st = Ok st'.
Proof.
  intros Ht. rewrite (engine_count_and_link_task_run ind t st Ht). split.
  - intros ((Hcells & Hpair & Hsort) & Hfit).
    apply (proj1 (sort_part_ok ind t st)) in Hsort as (st1 & Hst1).
    rewrite Hst1.
    cbn [mbind result_bind].
    destruct (link_sorts_spec ind t st st1 Hst1) as (Hc & Hn & _ & _).
    assert (Hab : forall msg, Abort msg ∉ ops_of t ind)
      by now apply (proj2 (ops_of_no_abort t ind)).
    destruct (ops_of_links t ind 0%nat Hab) as (_ & _ & _ & Hnr).
    apply run_ok.
    + rewrite Hc. now apply ops_of_valid.
    + rewrite Hnr, Hn. exact Hfit.
  - intros (st' & Hb). apply result_bind_ok in Hb as (st1 & Hst1 & Hrun).
    destruct (link_sorts_spec ind t st st1 Hst1) as (Hc & Hn & _ & _).
    assert (Hab : forall msg, Abort msg ∉ ops_of t ind)
      by (intros msg; eapply ops_run_no_abort; exact Hrun).
    destruct (ops_of_links t ind 0%nat Hab) as (_ & _ & _ & Hnr).
    destruct (run_spec _ _ _ Hrun) as (_ & Hn' & Hle' & _).
    split; [split; [| split] |].
    + apply (ops_of_valid _ t ind Hab). rewrite <- Hc.
      eapply run_valid. exact Hrun.
    + now apply (proj1 (ops_of_no_abort t ind)).
    + apply (proj2 (sort_part_ok ind t st)). now exists st1.
    + intros Hne. rewrite <- Hnr in *. specialize (Hle' Hne). lia.
Qed.

Lemma same_shape_sym (cs1 cs2 : list cell) :
  same_shape cs1 cs2 -> same_shape cs2 cs1.
Proof.
  intros (Hlen & Hsh). split; [now symmetry |].
  intros c cl1 cl2 H1 H2. destruct (Hsh c cl2 cl1 H2 H1) as (? & ? & ?).
  now repeat split.
Qed.

Lemma task_ok_shape (cs1 cs2 : list cell) t :
  same_shape cs1 cs2 -> task_ok cs1 t -> task_ok cs2 t.
Proof.
  intros (Hlen & Hsh) (Hcells & Hpair & Hsort).
  split; [| split; [exact Hpair |]].
  - eapply Forall_impl; [exact Hcells |].
    intros p (c & -> & Hlt). exists c. split; [reflexivity | lia].
  - intros Hty. destruct (Hsort Hty) as (c & cl & Hci & Hc & Hp).
    assert (Hlt : (c < length cs2)%nat)
      by (apply lookup_lt_Some in Hc; lia).
    destruct (lookup_lt_is_Some_2 cs2 c Hlt) as (cl2 & Hc2).
    destruct (Hsh c cl cl2 Hc Hc2) as (Hs & Hpr & _).
    exists c, cl2. split; [exact Hci |]. split; [exact Hc2 |].
    rewrite <- Hs, <- Hpr, <- Hlen. exact Hp.
Qed.

Lemma loop_same_shape n (st st' : state) :
  (n <= length (tasks (sched st)))%nat ->
  foldl (fun st ind => st ← st; engine_count_and_link_task ind st)
        (Ok st) (seq 0 n) = Ok st' ->
  same_shape (cells st) (cells st').
Proof.
  intros Hn Hloop.
  destruct (loop_spec n st st' Hn Hloop) as (_ & _ & _ & _ & Hlen & Hc & _).
  split; [now symmetry |].
  intros c cl1 cl2 H1 H2. rewrite (Hc c cl1 H1) in H2. injection H2 as <-.
  destruct (op_on_cell_fields c cl1
              (all_ops (take n (tasks (sched st))))) as (? & ? & ? & _).
  now repeat split.
Qed.

Lemma sum_take_le {A} (f : A -> nat) (l : list A) n :
  (sum_list_with f (take n l) <= sum_list_with f l)%nat.
Proof.
  rewrite <- (take_drop n l) at 2. rewrite sum_list_with_app. lia.
Qed.

Lemma loop_ok n (st : state) :
  pass_ok size_links st -> (n <= length (tasks (sched st)))%nat ->
  exists st',
    foldl (fun st ind => st ← st; engine_count_and_link_task ind st)
          (Ok st) (seq 0 n) = Ok st'.
Proof.
  intros (Hall & Hfit). induction n as [| n IH]; intros Hn; [now exists st |].
  assert (Hn' : (n <= length (tasks (sched st)))%nat) by lia.
  destruct (IH Hn') as (st1 & Hloop). clear IH.
  rewrite seq_S, foldl_app, Hloop. cbn [foldl Nat.add mbind result_bind].
  assert (Hlt : (n < length (tasks (sched st)))%nat) by lia.
  destruct (lookup_lt_is_Some_2 _ n Hlt) as (t & Ht).
  destruct (loop_spec n st st1 Hn' Hloop) as (Hts & _ & Hnl & _ & _ & _ & Hab).
  assert (Ht1 : tasks (sched st1) !! n = Some t) by now rewrite Hts.
  apply (proj1 (engine_count_and_link_task_ok n t st1 Ht1)).
  split.
  - apply (task_ok_shape (cells st));
      [exact (loop_same_shape n st st1 Hn' Hloop) |].
    rewrite Forall_forall in Hall. apply Hall.
    eapply list_elem_of_lookup_2. exact Ht.
  - intros Hne.
    destruct (all_ops_links (tasks (sched st)) 0%nat n Hn' Hab)
      as (_ & _ & _ & Hnr).
    rewrite Hnl, Hnr.
    pose proof (sum_take_le links_of (tasks (sched st)) (S n)) as Hle.
    rewrite (take_S_r _ n t Ht), sum_list_with_app in Hle.
    cbn [sum_list_with] in Hle.
    assert (Hne' : sum_list_with links_of (tasks (sched st)) <> 0%nat) by lia.
    specialize (Hfit Hne'). lia.
Qed.

Lemma loop_valid n (st st' : state) :
  (n <= length (tasks (sched st)))%nat ->
  foldl (fun st ind => st ← st; engine_count_and_link_task ind st)
        (Ok st) (seq 0 n) = Ok st' ->
  Forall (task_ok (cells st)) (take n (tasks (sched st))).
Proof.
  revert st'. induction n as [| n IH]; intros st' Hn Hloop; [constructor |].
  rewrite seq_S, foldl_app in Hloop. cbn [foldl Nat.add] in Hloop.
  apply result_bind_ok in Hloop as (st1 & Hloop & Hbody).
  assert (Hn' : (n <= length (tasks (sched st)))%nat) by lia.
  assert (Hlt : (n < length (tasks (sched st)))%nat) by lia.
  destruct (lookup_lt_is_Some_2 _ n Hlt) as (t & Ht).
  rewrite (take_S_r _ n t Ht). apply Forall_app. split; [now apply (IH st1) |].
  constructor; [| constructor].
  destruct (loop_spec n st st1 Hn' Hloop) as (Hts & _).
  apply (task_ok_shape (cells st1)).
  - apply same_shape_sym. exact (loop_same_shape n st st1 Hn' Hloop).
  - assert (Ht1 : tasks (sched st1) !! n = Some t) by now rewrite Hts.
    apply (proj2 (engine_count_and_link_task_ok n t st1 Ht1)).
    now exists st'.
Qed.

(** X20. [engine_count_and_link_tasks] returns if and only if every cell
    that it counts a task for is a cell of the array, no pair or sub-pair
    task has the subtype external_grav, every sort task is on a cell of the
    array whose progeny, if it is split, are cells of the array, and the
    links to make, if any, fit into the link table; otherwise it aborts. *)
Theorem engine_count_and_link_tasks_returns (st : state) :
  (pass_ok size_links st <->
   exists st', engine_count_and_link_tasks st = Ok st') /\
  (~ pass_ok size_links st <->
   exists msg, engine_count_and_link_tasks st = Error msg).
Proof.
  assert (Hiff : pass_ok size_links st <->
                 exists st', engine_count_and_link_tasks st = Ok st').
  { split.
    - intros Hok. now apply loop_ok.
    - intros (st' & Hpass). split.
      + pose proof (loop_valid _ st st' (le_n _) Hpass) as H.
        now rewrite firstn_all in H.
      + intros Hne.
        destruct (engine_count_and_link_tasks_links st st' Hpass)
          as (_ & _ & Hn & Hle & _).
        specialize (Hle Hne). lia. }
  split; [exact Hiff |]. rewrite Hiff.
  destruct (engine_count_and_link_tasks st) as [st' | msg].
  - split; [intros H; exfalso; apply H; now exists st' | intros (m & [=])].
  - split; [intros _; now exists msg | intros _ (st' & [=])].
Qed.

End links_proofs.

Lemma engine_count_and_link_tasks_links_witness :
  let st := example_state example_tasks in
  let st' := example_linked in
  engine_count_and_link_tasks 6 st = Ok st' /\
  tasks (sched st') = example_tasks /\
  unlocks (sched st') =
    unlocks (sched st) ++ all_sort_unlocks (cells st) example_tasks /\
  nr_links st' = nr_links st + Z.of_nat (sum_list_with links_of example_tasks) /\
  (sum_list_with links_of example_tasks <> 0%nat -> nr_links st' <= 6) /\
  length (cells st') = length (cells st) /\
  forall c cl, cells st !! c = Some cl ->
    exists cl', cells st' !! c = Some cl' /\
      split cl' = split cl /\ progeny cl' = progeny cl /\
      sorts cl' = sorts cl /\
      nr_tasks cl' =
        nr_tasks cl + Z.of_nat (length (links_on task_cells c example_tasks)) /\
      density cl' = rev (links_on density_cells c example_tasks) ++ density cl /\
      grav cl' = rev (links_on grav_cells c example_tasks) ++ grav cl.
Proof.
  intros st st'.
  assert (Hpass : engine_count_and_link_tasks 6 st = Ok st')
    by (vm_compute; reflexivity).
  split; [exact Hpass |].
  exact (engine_count_and_link_tasks_links 6 st st' Hpass).
Defined.

(** The two aborts that the sources name, and the abort on a task without
    cell. *)
Example example_link_aborts :
  engine_count_and_link_tasks 6
    (example_state
       [mk_task task_type_sub_pair task_subtype_external_grav 0
          (Some 0%nat) (Some 1%nat) true]) =
  Error "Found a sub-pair/external-gravity task..." /\
  engine_count_and_link_tasks 5 (example_state example_tasks) =
  Error "Link table overflow." /\
  engine_count_and_link_tasks 6
    (example_state
       [mk_task task_type_sort task_subtype_none 0 None None false]) =
  Error "NULL pointer".
Proof. repeat split; vm_compute; reflexivity. Qed.

End LinksProofs.

Module GravityLinksProofs.
Import Facts Sched GravityLinks.

Section gravity_links_proofs.
Context (cells : list cell) (nodeID_e : Z).

Local Abbreviation cell_at := (cell_at cells).
Local Abbreviation super_at := (super_at cells).
Local Abbreviation gravity_edges := (gravity_edges cells).
Local Abbreviation external_gravity_edges := (external_gravity_edges cells).
Local Abbreviation pair_edges := (pair_edges cells nodeID_e).
Local Abbreviation mm_edges := (mm_edges cells).
Local Abbreviation task_edges := (task_edges cells nodeID_e).
Local Abbreviation engine_link_gravity_task :=
  (engine_link_gravity_task cells nodeID_e).
Local Abbreviation engine_link_gravity_tasks :=
  (engine_link_gravity_tasks cells nodeID_e).

(** *** Steps that append unlocks *)

Lemma add_unlocks_nil sched : add_unlocks [] sched = sched.
Proof. destruct sched. unfold add_unlocks. cbn. now rewrite app_nil_r. Qed.

Lemma add_unlocks_app es1 es2 sched :
  add_unlocks es2 (add_unlocks es1 sched) = add_unlocks (es1 ++ es2) sched.
Proof. unfold add_unlocks. cbn. now rewrite app_assoc. Qed.

Lemma appends_ok : appends (fun sched => Ok sched) (Ok []).
Proof. intros sched. cbn. now rewrite add_unlocks_nil. Qed.

Lemma appends_bind f g es1 es2 :
  appends f es1 -> appends g es2 ->
  appends (fun sched => sched ← f sched; g sched)
          (a ← es1; b ← es2; Ok (a ++ b)).
Proof.
  intros Hf Hg sched. rewrite Hf. destruct es1 as [a | m]; [| reflexivity].
  cbn [mbind result_bind]. rewrite Hg. destruct es2 as [b | m]; [| reflexivity].
  cbn [mbind result_bind]. now rewrite add_unlocks_app.
Qed.

Lemma appends_if (b : bool) f g e1 e2 :
  appends f e1 -> appends g e2 ->
  appends (fun sched => if b then f sched else g sched) (if b then e1 else e2).
Proof. now destruct b. Qed.

Lemma appends_read {A} (r : result A) f e :
  (forall x, appends (f x) (e x)) ->
  appends (fun sched => x ← r; f x sched) (x ← r; e x).
Proof. intros H sched. destruct r as [x | m]; [apply H | reflexivity]. Qed.

Lemma appends_gravity k c :
  appends (engine_make_gravity_dependencies cells k c) (gravity_edges k c).
Proof.
  intros sched.
  unfold engine_make_gravity_dependencies, GravityLinks.gravity_edges.
  destruct (super_at c) as [sc | m]; [| reflexivity].
  cbn [mbind result_bind]. unfold add_unlocks, scheduler_addunlock. cbn.
  now rewrite <- !app_assoc.
Qed.

Lemma appends_external_gravity k c :
  appends (engine_make_external_gravity_dependencies cells k c)
          (external_gravity_edges k c).
Proof.
  intros sched.
  unfold engine_make_external_gravity_dependencies,
    GravityLinks.external_gravity_edges.
  destruct (super_at c) as [sc | m]; [| reflexivity].
  cbn [mbind result_bind]. unfold add_unlocks, scheduler_addunlock. cbn.
  now rewrite <- !app_assoc.
Qed.

Lemma appends_pair k t :
  appends (link_gravity_pair cells nodeID_e k t) (pair_edges k t).
Proof.
  intros sched. unfold link_gravity_pair, GravityLinks.pair_edges.
  destruct (cell_at (ci t)) as [ci_c | m]; [| reflexivity].
  cbn [mbind result_bind].
  assert (H1 : appends
            (fun sched => if nodeID ci_c =? nodeID_e
                          then engine_make_gravity_dependencies cells k (ci t)
                                 sched
                          else Ok sched)
            (if nodeID ci_c =? nodeID_e then gravity_edges k (ci t)
             else Ok []))
    by (apply appends_if; [apply appends_gravity | apply appends_ok]).
  rewrite H1.
  destruct (if nodeID ci_c =? nodeID_e then _ else _) as [es1 | m];
    [| reflexivity].
  cbn [mbind result_bind].
  destruct (cell_at (cj t)) as [cj_c | m]; [| reflexivity].
  cbn [mbind result_bind].
  assert (H2 : appends
            (fun sched =>
               if (nodeID cj_c =? nodeID_e) &&
                  negb (bool_decide (super ci_c = super cj_c))
               then engine_make_gravity_dependencies cells k (cj t) sched
               else Ok sched)
            (if (nodeID cj_c =? nodeID_e) &&
                negb (bool_decide (super ci_c = super cj_c))
             then gravity_edges k (cj t) else Ok []))
    by (apply appends_if; [apply appends_gravity | apply appends_ok]).
  rewrite H2.
  destruct (if _ && _ then _ else _) as [es2 | m]; [| reflexivity].
  cbn [mbind result_bind]. now rewrite add_unlocks_app.
Qed.

Lemma appends_local (cl : result cell) f e :
  appends f e ->
  appends (fun sched => ci ← cl;
                        if nodeID ci =? nodeID_e then f sched else Ok sched)
          (ci ← cl; if nodeID ci =? nodeID_e then e else Ok []).
Proof.
  intros Hf. apply appends_read. intros ci.
  apply appends_if; [exact Hf | apply appends_ok].
Qed.

Lemma engine_link_gravity_task_edges gather k t sched :
  tasks sched !! k = Some t ->
  engine_link_gravity_task gather k sched =
  (es ← task_edges gather k t; Ok (add_unlocks es sched)).
Proof.
  intros Ht.
  unfold GravityLinks.engine_link_gravity_task, task_at,
    GravityLinks.task_edges.
  rewrite Ht. cbn [mbind result_bind].
  set (es1 := if bool_decide (type t = task_type_grav_up)
              then [(Some k, Some gather)] else []).
  set (s1 := if bool_decide (type t = task_type_grav_up)
             then scheduler_addunlock sched (Some k) (Some gather)
             else sched).
  assert (Hs1 : s1 = add_unlocks es1 sched).
  { subst s1 es1. destruct (bool_decide _); [reflexivity |].
    now rewrite add_unlocks_nil. }
  rewrite Hs1. clear Hs1 s1.
  assert (H2 : appends
            (fun sched =>
               if bool_decide (type t = task_type_grav_mm) then
                 super_ci ← super_at (ci t);
                 Ok (scheduler_addunlock
                       (scheduler_addunlock
                          (scheduler_addunlock sched (Some gather) (Some k))
                          (Some k) (kick2 super_ci))
                       (init super_ci) (Some k))
               else Ok sched)
            (if bool_decide (type t = task_type_grav_mm)
             then mm_edges gather k t else Ok [])).
  { apply appends_if; [| apply appends_ok].
    intros s. unfold GravityLinks.mm_edges.
    destruct (super_at (ci t)); [| reflexivity].
    cbn [mbind result_bind]. unfold add_unlocks, scheduler_addunlock. cbn.
    now rewrite <- !app_assoc. }
  rewrite H2. clear H2.
  destruct (if bool_decide (type t = task_type_grav_mm) then _ else _)
    as [es2 | m]; [| reflexivity].
  cbn [mbind result_bind]. rewrite add_unlocks_app.
  match goal with
  | |- _ = ((?e3 ≫= _) ≫= _) =>
    assert (H3 : appends
              (fun sched =>
                 if bool_decide (type t = task_type_self) &&
                    bool_decide (subtype t = task_subtype_grav) then
                   engine_make_gravity_dependencies cells k (ci t) sched
                 else if bool_decide (type t = task_type_self) &&
                         bool_decide (subtype t = task_subtype_external_grav)
                 then
                   engine_make_external_gravity_dependencies cells k (ci t)
                     sched
                 else if bool_decide (type t = task_type_pair) &&
                         bool_decide (subtype t = task_subtype_grav) then
                   link_gravity_pair cells nodeID_e k t sched
                 else if bool_decide (type t = task_type_sub_self) &&
                         bool_decide (subtype t = task_subtype_grav) then
                   ci ← cell_at (ci t);
                   if nodeID ci =? nodeID_e
                   then engine_make_gravity_dependencies cells k (Sched.ci t)
                          sched
                   else Ok sched
                 else if bool_decide (type t = task_type_sub_self) &&
                         bool_decide (subtype t = task_subtype_external_grav)
                 then
                   ci ← cell_at (ci t);
                   if nodeID ci =? nodeID_e
                   then engine_make_external_gravity_dependencies cells k
                          (Sched.ci t) sched
                   else Ok sched
                 else if bool_decide (type t = task_type_sub_pair) &&
                         bool_decide (subtype t = task_subtype_grav) then
                   link_gravity_pair cells nodeID_e k t sched
                 else Ok sched) e3)
  end.
  { intros s.
    destruct (_ && _); [apply appends_gravity |].
    destruct (_ && _); [apply appends_external_gravity |].
    destruct (_ && _); [apply appends_pair |].
    destruct (_ && _);
      [exact (appends_local _ _ _ (appends_gravity k (ci t)) s) |].
    destruct (_ && _);
      [exact (appends_local _ _ _ (appends_external_gravity k (ci t)) s) |].
    destruct (_ && _); [apply appends_pair |].
    apply appends_ok. }
  rewrite H3.
  destruct (if bool_decide (type t = task_type_self) && _ then _ else _)
    as [es3 | m]; [| reflexivity].
  cbn [mbind result_bind]. now rewrite add_unlocks_app, app_assoc.
Qed.

(** *** The loop *)

Lemma link_loop gather n (s0 s' : scheduler) :
  (n <= length (tasks s0))%nat ->
  foldl (fun sched k => sched ← sched; engine_link_gravity_task gather k sched)
        (Ok s0) (seq 0 n) = Ok s' ->
  tasks s' = tasks s0 /\
  exists ess, length ess = n /\ unlocks s' = unlocks s0 ++ mjoin ess /\
    forall k es, ess !! k = Some es ->
      exists t, tasks s0 !! k = Some t /\ task_edges gather k t = Ok es.
Proof.
  revert s'. induction n as [| n IH]; intros s' Hn Hloop.
  - injection Hloop as <-. split; [reflexivity |]. exists [].
    split; [reflexivity |]. split; [cbn; now rewrite app_nil_r |].
    intros k es Hk. discriminate.
  - rewrite seq_S, foldl_app in Hloop. cbn [foldl Nat.add] in Hloop.
    apply result_bind_ok in Hloop as (s1 & Hloop & Hbody).
    assert (Hn' : (n <= length (tasks s0))%nat) by lia.
    destruct (IH s1 Hn' Hloop) as (Ht & ess & Hlen & Hu & Hess). clear IH.
    assert (Hlt : (n < length (tasks s0))%nat) by lia.
    destruct (lookup_lt_is_Some_2 _ n Hlt) as (t & Htn).
    rewrite (engine_link_gravity_task_edges gather n t s1) in Hbody
      by now rewrite Ht.
    apply result_bind_ok in Hbody as (es & Hes & Hs').
    injection Hs' as <-. cbn [tasks unlocks add_unlocks].
    split; [exact Ht |]. exists (ess ++ [es]).
    split; [rewrite length_app, Hlen; cbn [length]; lia |].
    split; [rewrite Hu, join_app; cbn; now rewrite app_nil_r, app_assoc |].
    intros k es' Hk. unfold edge in *.
    destruct (decide (k < n)%nat) as [Hkn | Hkn].
    + rewrite lookup_app_l in Hk by lia. now apply Hess.
    + rewrite lookup_app_r in Hk by lia.
      destruct (k - length ess)%nat as [| j] eqn:Hj; [| discriminate].
      injection Hk as <-. assert (k = n) as -> by lia. now exists t.
Qed.

(** *** The ends of the unlocks *)

Lemma super_at_cell c sc :
  super_at c = Ok sc -> exists i, cells !! i = Some sc.
Proof.
  unfold GravityLinks.super_at. intros H.
  apply result_bind_ok in H as (cl & _ & H).
  unfold GravityLinks.cell_at in H. destruct (super cl) as [i |]; [| discriminate].
  cbn in H. exists i. destruct (cells !! i); [congruence | discriminate].
Qed.

Lemma super_pointers c sc :
  super_at c = Ok sc ->
  cell_pointer cells (init sc) /\ cell_pointer cells (kick2 sc) /\
  cell_pointer cells (grav_up sc).
Proof.
  intros H. destruct (super_at_cell c sc H) as (i & Hi).
  repeat split; exists i, sc; (split; [exact Hi | tauto]).
Qed.

Lemma gravity_edges_ends k c es a b :
  gravity_edges k c = Ok es -> (a, b) ∈ es ->
  (a = Some k /\ cell_pointer cells b) \/ (cell_pointer cells a /\ b = Some k).
Proof.
  unfold GravityLinks.gravity_edges. intros H Hin.
  apply result_bind_ok in H as (sc & Hsc & [= <-]).
  destruct (super_pointers c sc Hsc) as (Hi & Hk & Hg).
  repeat (apply elem_of_cons in Hin as [[= -> ->] | Hin]); try tauto.
  now apply elem_of_nil in Hin.
Qed.

Lemma external_gravity_edges_ends k c es a b :
  external_gravity_edges k c = Ok es -> (a, b) ∈ es ->
  (a = Some k /\ cell_pointer cells b) \/ (cell_pointer cells a /\ b = Some k).
Proof.
  unfold GravityLinks.external_gravity_edges. intros H Hin.
  apply result_bind_ok in H as (sc & Hsc & [= <-]).
  destruct (super_pointers c sc Hsc) as (Hi & Hk & Hg).
  repeat (apply elem_of_cons in Hin as [[= -> ->] | Hin]); try tauto.
  now apply elem_of_nil in Hin.
Qed.

Lemma local_edges_ends k (cl : result cell) (e : result (list edge)) es a b :
  (forall es, e = Ok es -> (a, b) ∈ es ->
     (a = Some k /\ cell_pointer cells b) \/
     (cell_pointer cells a /\ b = Some k)) ->
  (ci ← cl; if nodeID ci =? nodeID_e then e else Ok []) = Ok es ->
  (a, b) ∈ es ->
  (a = Some k /\ cell_pointer cells b) \/ (cell_pointer cells a /\ b = Some k).
Proof.
  intros He H Hin. apply result_bind_ok in H as (c & _ & H).
  destruct (nodeID c =? nodeID_e); [now apply (He es) |].
  injection H as <-. now apply elem_of_nil in Hin.
Qed.

Lemma pair_edges_ends k t es a b :
  pair_edges k t = Ok es -> (a, b) ∈ es ->
  (a = Some k /\ cell_pointer cells b) \/ (cell_pointer cells a /\ b = Some k).
Proof.
  unfold GravityLinks.pair_edges. intros H Hin.
  apply result_bind_ok in H as (ci_c & _ & H).
  apply result_bind_ok in H as (es1 & H1 & H).
  apply result_bind_ok in H as (cj_c & _ & H).
  apply result_bind_ok in H as (es2 & H2 & [= <-]).
  apply elem_of_app in Hin as [Hin | Hin].
  - destruct (nodeID ci_c =? nodeID_e).
    + eapply gravity_edges_ends; eassumption.
    + injection H1 as <-. now apply elem_of_nil in Hin.
  - destruct (_ && _).
    + eapply gravity_edges_ends; eassumption.
    + injection H2 as <-. now apply elem_of_nil in Hin.
Qed.

Lemma task_edges_ends gather k t es a b :
  task_edges gather k t = Ok es -> (a, b) ∈ es ->
  (type t = task_type_grav_up /\ a = Some k /\ b = Some gather) \/
  (type t = task_type_grav_mm /\ a = Some gather /\ b = Some k) \/
  (a = Some k /\ cell_pointer cells b) \/ (cell_pointer cells a /\ b = Some k).
Proof.
  unfold GravityLinks.task_edges. intros H Hin.
  apply result_bind_ok in H as (es2 & H2 & H).
  apply result_bind_ok in H as (es3 & H3 & [= <-]).
  apply elem_of_app in Hin as [Hin | Hin].
  { destruct (bool_decide (type t = task_type_grav_up)) eqn:Hty;
      [| now apply elem_of_nil in Hin].
    apply bool_decide_eq_true in Hty.
    apply list_elem_of_singleton in Hin as [= -> ->]. now left. }
  apply elem_of_app in Hin as [Hin | Hin].
  { destruct (bool_decide (type t = task_type_grav_mm)) eqn:Hty.
    2:{ injection H2 as <-. now apply elem_of_nil in Hin. }
    apply bool_decide_eq_true in Hty.
    unfold GravityLinks.mm_edges in H2.
    apply result_bind_ok in H2 as (sc & Hsc & [= <-]).
    destruct (super_pointers _ sc Hsc) as (Hi & Hk & Hg).
    repeat (apply elem_of_cons in Hin as [[= -> ->] | Hin]); try tauto.
    now apply elem_of_nil in Hin. }
  right; right.
  destruct (_ && _); [eapply gravity_edges_ends; eassumption |].
  destruct (_ && _); [eapply external_gravity_edges_ends; eassumption |].
  destruct (_ && _); [eapply pair_edges_ends; eassumption |].
  destruct (_ && _).
  { eapply (local_edges_ends k _ (gravity_edges k (ci t))); [| eassumption..].
    intros es0. apply gravity_edges_ends. }
  destruct (_ && _).
  { eapply (local_edges_ends k _ (external_gravity_edges k (ci t)));
      [| eassumption..].
    intros es0. apply external_gravity_edges_ends. }
  destruct (_ && _); [eapply pair_edges_ends; eassumption |].
  injection H3 as <-. now apply elem_of_nil in Hin.
Qed.

(** *** The unlocks that are there *)

Ltac decide_kinds :=
  repeat match goal with
  | H : context [bool_decide ?P] |- _ =>
    first [ rewrite (bool_decide_eq_true_2 P) in H by (intuition congruence)
          | rewrite (bool_decide_eq_false_2 P) in H by (intuition congruence) ]
  end.

Lemma gravity_edges_in k c es :
  gravity_edges k c = Ok es ->
  exists sc, super_at c = Ok sc /\ (init sc, Some k) ∈ es /\
             (Some k, kick2 sc) ∈ es /\ (grav_up sc, Some k) ∈ es.
Proof.
  unfold GravityLinks.gravity_edges. intros H.
  apply result_bind_ok in H as (sc & Hsc & [= <-]). exists sc.
  split; [exact Hsc |]. repeat split.
  - apply list_elem_of_here.
  - apply list_elem_of_further, list_elem_of_here.
  - do 2 apply list_elem_of_further. apply list_elem_of_here.
Qed.

Lemma external_gravity_edges_in k c es :
  external_gravity_edges k c = Ok es ->
  exists sc, super_at c = Ok sc /\ (init sc, Some k) ∈ es /\
             (Some k, kick2 sc) ∈ es.
Proof.
  unfold GravityLinks.external_gravity_edges. intros H.
  apply result_bind_ok in H as (sc & Hsc & [= <-]). exists sc.
  split; [exact Hsc |]. split.
  - apply list_elem_of_here.
  - apply list_elem_of_further, list_elem_of_here.
Qed.

Lemma local_edges_in (c : option nat) (e : result (list edge)) es :
  local cells nodeID_e c ->
  (ci ← cell_at c; if nodeID ci =? nodeID_e then e else Ok []) = Ok es ->
  e = Ok es.
Proof.
  intros (cl & Hcl & Hn) H. rewrite Hcl in H. cbn [mbind result_bind] in H.
  now rewrite Hn, Z.eqb_refl in H.
Qed.

Lemma pair_edges_in k t es c :
  pair_edges k t = Ok es ->
  (c = ci t /\ local cells nodeID_e c) \/
  (c = cj t /\ local cells nodeID_e c /\
   super_of cells (ci t) <> super_of cells (cj t)) ->
  exists sc, super_at c = Ok sc /\ (init sc, Some k) ∈ es /\
             (Some k, kick2 sc) ∈ es /\ (grav_up sc, Some k) ∈ es.
Proof.
  unfold GravityLinks.pair_edges. intros H Hc.
  apply result_bind_ok in H as (ci_c & Hci & H).
  apply result_bind_ok in H as (es1 & H1 & H).
  apply result_bind_ok in H as (cj_c & Hcj & H).
  apply result_bind_ok in H as (es2 & H2 & [= <-]).
  destruct Hc as [(-> & cl & Hcl & Hn) | (-> & (cl & Hcl & Hn) & Hsup)].
  - assert (cl = ci_c) as -> by congruence.
    rewrite Hn, Z.eqb_refl in H1.
    destruct (gravity_edges_in k _ es1 H1) as (sc & Hsc & Ha & Hb & Hd).
    exists sc. split; [exact Hsc |].
    repeat split; apply elem_of_app; now left.
  - assert (cl = cj_c) as -> by congruence.
    unfold super_of in Hsup. rewrite Hci, Hcj in Hsup.
    rewrite Hn, Z.eqb_refl, bool_decide_eq_false_2 in H2 by assumption.
    cbn [andb negb] in H2.
    destruct (gravity_edges_in k _ es2 H2) as (sc & Hsc & Ha & Hb & Hd).
    exists sc. split; [exact Hsc |].
    repeat split; apply elem_of_app; now right.
Qed.

Lemma task_edges_grav_up gather k t es :
  task_edges gather k t = Ok es -> type t = task_type_grav_up ->
  (Some k, Some gather) ∈ es.
Proof.
  unfold GravityLinks.task_edges. intros H Hty.
  apply result_bind_ok in H as (es2 & H2 & H).
  apply result_bind_ok in H as (es3 & H3 & [= <-]).
  rewrite bool_decide_eq_true_2 by assumption.
  apply elem_of_app. left. apply list_elem_of_here.
Qed.

Lemma task_edges_mm gather k t es :
  task_edges gather k t = Ok es -> type t = task_type_grav_mm ->
  exists sc, super_at (ci t) = Ok sc /\ (Some gather, Some k) ∈ es /\
             (Some k, kick2 sc) ∈ es /\ (init sc, Some k) ∈ es.
Proof.
  unfold GravityLinks.task_edges. intros H Hty.
  apply result_bind_ok in H as (es2 & H2 & H).
  apply result_bind_ok in H as (es3 & H3 & [= <-]).
  rewrite (bool_decide_eq_true_2 _ Hty) in H2.
  unfold GravityLinks.mm_edges in H2.
  apply result_bind_ok in H2 as (sc & Hsc & [= <-]).
  exists sc. split; [exact Hsc |].
  repeat split; apply elem_of_app; right; apply elem_of_app; left.
  - apply list_elem_of_here.
  - apply list_elem_of_further, list_elem_of_here.
  - do 2 apply list_elem_of_further. apply list_elem_of_here.
Qed.

Lemma task_edges_serves gather k t es c :
  task_edges gather k t = Ok es -> serves cells nodeID_e t c ->
  exists sc, super_at c = Ok sc /\ (init sc, Some k) ∈ es /\
             (Some k, kick2 sc) ∈ es /\ (grav_up sc, Some k) ∈ es.
Proof.
  unfold GravityLinks.task_edges. intros H (Hsub & Hc).
  apply result_bind_ok in H as (es2 & H2 & H).
  apply result_bind_ok in H as (es3 & H3 & [= <-]).
  assert (Hin : exists sc, super_at c = Ok sc /\ (init sc, Some k) ∈ es3 /\
                  (Some k, kick2 sc) ∈ es3 /\ (grav_up sc, Some k) ∈ es3).
  { clear H2. rewrite Hsub in H3.
    destruct Hc as [(Hty & ->) | [(Hty & -> & Hloc) | (Hty & Hc)]].
    - rewrite Hty in H3. decide_kinds. cbn [andb] in H3.
      now apply gravity_edges_in.
    - rewrite Hty in H3. decide_kinds. cbn [andb] in H3.
      apply gravity_edges_in. now apply (local_edges_in (ci t)).
    - destruct Hty as [Hty | Hty]; rewrite Hty in H3; decide_kinds;
        cbn [andb] in H3; now apply (pair_edges_in k t). }
  destruct Hin as (sc & Hsc & Ha & Hb & Hd). exists sc.
  split; [exact Hsc |].
  repeat split; apply elem_of_app; right; apply elem_of_app; now right.
Qed.

Lemma task_edges_serves_external gather k t es c :
  task_edges gather k t = Ok es -> serves_external cells nodeID_e t c ->
  exists sc, super_at c = Ok sc /\ (init sc, Some k) ∈ es /\
             (Some k, kick2 sc) ∈ es.
Proof.
  unfold GravityLinks.task_edges. intros H (Hsub & -> & Hc).
  apply result_bind_ok in H as (es2 & H2 & H).
  apply result_bind_ok in H as (es3 & H3 & [= <-]).
  assert (Hin : exists sc, super_at (ci t) = Ok sc /\
                  (init sc, Some k) ∈ es3 /\ (Some k, kick2 sc) ∈ es3).
  { clear H2. rewrite Hsub in H3.
    destruct Hc as [Hty | (Hty & Hloc)].
    - rewrite Hty in H3. decide_kinds. cbn [andb] in H3.
      now apply external_gravity_edges_in.
    - rewrite Hty in H3. decide_kinds. cbn [andb] in H3.
      apply external_gravity_edges_in. now apply (local_edges_in (ci t)). }
  destruct Hin as (sc & Hsc & Ha & Hb). exists sc.
  split; [exact Hsc |].
  split; apply elem_of_app; right; apply elem_of_app; now right.
Qed.

(** *** The pass *)

Lemma cell_pointer_lt n p q :
  cells_wf cells n -> cell_pointer cells p -> p = Some q -> (q < n)%nat.
Proof.
  intros Hwf (c & cl & Hc & Hp) ->. apply (Hwf c cl q Hc).
  destruct Hp as [Hp | [Hp | Hp]]; rewrite <- Hp; tauto.
Qed.

Lemma cells_wfb_sound n : cells_wfb cells n = true -> cells_wf cells n.
Proof.
  unfold cells_wfb. rewrite forallb_forall. intros H c cl p Hc Hp.
  apply list_elem_of_lookup_2, list_elem_of_In in Hc.
  specialize (H cl Hc). cbn [forallb] in H.
  rewrite !andb_true_iff in H. destruct H as (Hi & Hk & Hg & _).
  destruct Hp as [Hp | [Hp | Hp]]; rewrite Hp in *;
    apply Nat.ltb_lt; assumption.
Qed.

(** X21. A pass of [engine_link_gravity_tasks] that returns, over cells
    whose task pointers lead to tasks that were there before, has appended
    the grav_gather_m and the grav_fft task and only added unlocks. Of
    these, the only one into the fft task comes from the gather task and
    none leaves the fft task; the gather task is unlocked by the grav_up
    tasks and by nothing else, and unlocks the fft task and the grav_mm
    tasks and nothing else. Every grav_mm task also unlocks the kick2 task
    and is unlocked by the init task of the super cell of its cell; every
    task of self-gravity is, for each cell that it serves, unlocked by the
    init and the grav_up task of the cell's super cell and unlocks its
    kick2 task; and a task of external gravity likewise, but for the
    grav_up task. *)
Theorem engine_link_gravity_tasks_unlocks (sched sched' : scheduler) :
  cells_wf cells (length (tasks sched)) ->
  engine_link_gravity_tasks sched = Ok sched' ->
  let n := length (tasks sched) in
  tasks sched' =
    tasks sched ++
    [mk_task task_type_grav_gather_m task_subtype_none 0 None None false;
     mk_task task_type_grav_fft task_subtype_none 0 None None false] /\
  exists more, unlocks sched' = unlocks sched ++ more /\
    (forall a, (a, Some (S n)) ∈ more <-> a = Some n) /\
    (forall b, (Some (S n), b) ∉ more) /\
    (forall a, (a, Some n) ∈ more <->
       exists k t, a = Some k /\ tasks sched !! k = Some t /\
                   type t = task_type_grav_up) /\
    (forall b, (Some n, b) ∈ more <->
       b = Some (S n) \/
       exists k t, b = Some k /\ tasks sched !! k = Some t /\
                   type t = task_type_grav_mm) /\
    forall k t, tasks sched !! k = Some t ->
      (type t = task_type_grav_mm ->
       exists sc, super_at (ci t) = Ok sc /\
                  (Some k, kick2 sc) ∈ more /\ (init sc, Some k) ∈ more) /\
      (forall c, serves cells nodeID_e t c ->
       exists sc, super_at c = Ok sc /\ (init sc, Some k) ∈ more /\
                  (Some k, kick2 sc) ∈ more /\ (grav_up sc, Some k) ∈ more) /\
      (forall c, serves_external cells nodeID_e t c ->
       exists sc, super_at c = Ok sc /\ (init sc, Some k) ∈ more /\
                  (Some k, kick2 sc) ∈ more).
Proof.
  intros Hwf Hpass n. unfold GravityLinks.engine_link_gravity_tasks in Hpass.
  cbn [scheduler_addtask tasks unlocks] in Hpass. rewrite length_app in Hpass.
  cbn [length] in Hpass. fold n in Hpass.
  replace (n + 1)%nat with (S n) in Hpass by lia.
  match type of Hpass with
  | foldl _ (Ok ?s) _ = _ => set (s0 := s) in Hpass
  end.
  assert (Hts0 : tasks s0 =
            tasks sched ++
            [mk_task task_type_grav_gather_m task_subtype_none 0 None None
               false;
             mk_task task_type_grav_fft task_subtype_none 0 None None false])
    by (subst s0; cbn; now rewrite <- app_assoc).
  assert (Hn0 : (n <= length (tasks s0))%nat)
    by (rewrite Hts0, length_app; subst n; lia).
  destruct (link_loop n n s0 sched' Hn0 Hpass) as (Ht & ess & Hlen & Hu & Hess).
  split; [now rewrite Ht |].
  exists ((Some n, Some (S n)) :: mjoin ess).
  split; [rewrite Hu; subst s0; cbn; now rewrite <- app_assoc |].
  (* every unlock of the loop is an unlock of some task *)
  assert (Hfrom : forall e, e ∈ mjoin ess ->
            exists k t es, (k < n)%nat /\ tasks sched !! k = Some t /\
                           task_edges n k t = Ok es /\ e ∈ es).
  { intros e He. apply list_elem_of_join in He as (es & He & Hes).
    apply list_elem_of_lookup_1 in Hes as (k & Hk).
    destruct (Hess k es Hk) as (t & Htk & Hte).
    assert (Hkn : (k < n)%nat) by (apply lookup_lt_Some in Hk; lia).
    exists k, t, es. repeat split; try assumption.
    rewrite Hts0, lookup_app_l in Htk by (subst n; lia). exact Htk. }
  assert (Hto : forall k t, tasks sched !! k = Some t ->
            exists es, task_edges n k t = Ok es /\
                       forall e, e ∈ es -> e ∈ mjoin ess).
  { intros k t Htk.
    assert (Hkn : (k < length ess)%nat)
      by (apply lookup_lt_Some in Htk; subst n; lia).
    destruct (lookup_lt_is_Some_2 ess k Hkn) as (es & Hk).
    destruct (Hess k es Hk) as (t' & Htk' & Hte).
    rewrite Hts0, lookup_app_l in Htk' by (apply lookup_lt_Some in Htk; lia).
    assert (t' = t) as -> by congruence.
    exists es. split; [exact Hte |]. intros e He.
    apply list_elem_of_join. exists es. split; [exact He |].
    eapply list_elem_of_lookup_2. exact Hk. }
  assert (Hends : forall a b, (a, b) ∈ mjoin ess ->
            exists k t, (k < n)%nat /\ tasks sched !! k = Some t /\
              ((type t = task_type_grav_up /\ a = Some k /\ b = Some n) \/
               (type t = task_type_grav_mm /\ a = Some n /\ b = Some k) \/
               (a = Some k /\ forall q, b = Some q -> (q < n)%nat) \/
               ((forall q, a = Some q -> (q < n)%nat) /\ b = Some k))).
  { intros a b He. destruct (Hfrom _ He) as (k & t & es & Hk & Htk & Hte & Hin).
    exists k, t. split; [exact Hk |]. split; [exact Htk |].
    destruct (task_edges_ends n k t es a b Hte Hin)
      as [H | [H | [(Ha & Hp) | (Hp & Hb)]]]; [tauto | tauto | |].
    - right; right; left. split; [exact Ha |]. intros q.
      now apply (cell_pointer_lt n b q).
    - right; right; right. split; [| exact Hb]. intros q.
      now apply (cell_pointer_lt n a q). }
  split; [| split; [| split; [| split]]].
  - intros a. split; [| intros ->; apply list_elem_of_here].
    intros Hin. apply elem_of_cons in Hin as [[= ->] | Hin]; [reflexivity |].
    exfalso. destruct (Hends _ _ Hin) as (k & t & Hk & _ & H).
    destruct H as [(_ & _ & [=]) | [(_ & _ & [=]) | [(_ & H) | (_ & [=])]]];
      try lia.
    specialize (H (S n) eq_refl). lia.
  - intros b Hin. apply elem_of_cons in Hin as [[=] | Hin]; [lia |].
    destruct (Hends _ _ Hin) as (k & t & Hk & _ & H).
    destruct H as [(_ & [=] & _) | [(_ & [=] & _) | [([=] & _) | (H & _)]]];
      try lia.
    specialize (H (S n) eq_refl). lia.
  - intros a. split.
    + intros Hin. apply elem_of_cons in Hin as [[=] | Hin]; [lia |].
      destruct (Hends _ _ Hin) as (k & t & Hk & Htk & H).
      destruct H as [(Hty & -> & _) | [(_ & _ & [=]) | [(_ & H) | (_ & [=])]]];
        try lia.
      * now exists k, t.
      * specialize (H n eq_refl). lia.
    + intros (k & t & -> & Htk & Hty). apply list_elem_of_further.
      destruct (Hto k t Htk) as (es & Hte & Hsub). apply Hsub.
      now apply (task_edges_grav_up n k t).
  - intros b. split.
    + intros Hin. apply elem_of_cons in Hin as [[= ->] | Hin]; [now left |].
      right. destruct (Hends _ _ Hin) as (k & t & Hk & Htk & H).
      destruct H as [(_ & [=] & _) | [(Hty & _ & ->) | [([=] & _) | (H & _)]]];
        try lia.
      * now exists k, t.
      * specialize (H n eq_refl). lia.
    + intros [-> | (k & t & -> & Htk & Hty)]; [apply list_elem_of_here |].
      apply list_elem_of_further.
      destruct (Hto k t Htk) as (es & Hte & Hsub). apply Hsub.
      now destruct (task_edges_mm n k t es Hte Hty) as (sc & _ & H & _).
  - intros k t Htk. destruct (Hto k t Htk) as (es & Hte & Hsub).
    split; [| split].
    + intros Hty.
      destruct (task_edges_mm n k t es Hte Hty) as (sc & Hsc & _ & Ha & Hb).
      exists sc. split; [exact Hsc |].
      split; apply list_elem_of_further, Hsub; assumption.
    + intros c Hc.
      destruct (task_edges_serves n k t es c Hte Hc)
        as (sc & Hsc & Ha & Hb & Hd).
      exists sc. split; [exact Hsc |].
      repeat split; apply list_elem_of_further, Hsub; assumption.
    + intros c Hc.
      destruct (task_edges_serves_external n k t es c Hte Hc)
        as (sc & Hsc & Ha & Hb).
      exists sc. split; [exact Hsc |].
      split; apply list_elem_of_further, Hsub; assumption.
Qed.

End gravity_links_proofs.

Lemma engine_link_gravity_tasks_unlocks_witness :
  exists sched',
  cells_wf example_cells (length (tasks example_sched)) /\
  engine_link_gravity_tasks example_cells 0 example_sched = Ok sched' /\
  tasks sched' =
    tasks example_sched ++
    [mk_task task_type_grav_gather_m task_subtype_none 0 None None false;
     mk_task task_type_grav_fft task_subtype_none 0 None None false] /\
  exists more, unlocks sched' = unlocks example_sched ++ more /\
    (forall a, (a, Some 12%nat) ∈ more <-> a = Some 11%nat) /\
    (forall b, (Some 12%nat, b) ∉ more) /\
    (forall a, (a, Some 11%nat) ∈ more <->
       exists k t, a = Some k /\ tasks example_sched !! k = Some t /\
                   type t = task_type_grav_up) /\
    (forall b, (Some 11%nat, b) ∈ more <->
       b = Some 12%nat \/
       exists k t, b = Some k /\ tasks example_sched !! k = Some t /\
                   type t = task_type_grav_mm) /\
    forall k t, tasks example_sched !! k = Some t ->
      (type t = task_type_grav_mm ->
       exists sc, super_at example_cells (ci t) = Ok sc /\
                  (Some k, kick2 sc) ∈ more /\ (init sc, Some k) ∈ more) /\
      (forall c, serves example_cells 0 t c ->
       exists sc, super_at example_cells c = Ok sc /\
                  (init sc, Some k) ∈ more /\
                  (Some k, kick2 sc) ∈ more /\ (grav_up sc, Some k) ∈ more) /\
      (forall c, serves_external example_cells 0 t c ->
       exists sc, super_at example_cells c = Ok sc /\
                  (init sc, Some k) ∈ more /\ (Some k, kick2 sc) ∈ more).
Proof.
  assert (Hwf : cells_wf example_cells (length (tasks example_sched)))
    by (apply cells_wfb_sound; vm_compute; reflexivity).
  destruct (engine_link_gravity_tasks example_cells 0 example_sched)
    as [sched' | msg] eqn:Hpass; [| vm_compute in Hpass; discriminate].
  exists sched'. split; [exact Hwf |]. split; [reflexivity |].
  exact (engine_link_gravity_tasks_unlocks example_cells 0 example_sched
           sched' Hwf Hpass).
Defined.

(** The unlocks of the example: the pair of the cells 1 and 3 depends on
    both super cells, that of the cells 0 and 1 on their one super cell
    once. *)
Example example_gravity_unlocks :
  (sched ← engine_link_gravity_tasks example_cells 0 example_sched;
   Ok (unlocks sched)) =
  Ok [ (Some 11, Some 12); (Some 2, Some 11); (Some 5, Some 11);
       (Some 0, Some 6); (Some 6, Some 1); (Some 2, Some 6);
       (Some 11, Some 7); (Some 7, Some 1); (Some 0, Some 7);
       (Some 0, Some 8); (Some 8, Some 1); (Some 2, Some 8);
       (Some 3, Some 8); (Some 8, Some 4); (Some 5, Some 8);
       (Some 3, Some 9); (Some 9, Some 4);
       (Some 0, Some 10); (Some 10, Some 1); (Some 2, Some 10) ]%nat.
Proof. vm_compute. reflexivity. Qed.

End GravityLinksProofs.

(* ===================================================================== *)
(** * Proofs: what the construction of the task graph adds *)
(* ===================================================================== *)

Module LoopCopiesProofs.
Import Facts Sched Taskgraph TaskgraphProofs LoopCopies.

Section loop_copies_proofs.
Context {P : policies}.

(** ** The hierarchical tasks and nothing else *)

Lemma run_local_total e vs (st : state) :
  (forall v, v ∈ vs -> is_Some (cells st !! v)) ->
  exists st', run_local e vs st = Ok st'.
Proof.
  revert st. induction vs as [| v vs IH]; intros st Hcells; [now exists st |].
  destruct (Hcells v) as [cl Hc]; [now left |].
  rewrite run_local_cons, (local_closed_form e v cl st Hc).
  cbn [mbind result_bind].
  apply IH. intros w Hw. unfold hier_state; cbn [cells].
  apply lookup_lt_is_Some. rewrite length_insert. apply lookup_lt_is_Some.
  apply Hcells. now right.
Qed.

Lemma run_local_frame e vs (st st' : state) :
  run_local e vs st = Ok st' ->
  tasks (sched st') = tasks (sched st) ++ (vs ≫= hier_tasks e) /\
  nr_links st' = nr_links st /\
  forall c, c ∉ vs -> cells st' !! c = cells st !! c.
Proof.
  revert st. induction vs as [| v vs IH]; intros st H.
  - inversion H; subst st'. cbn. rewrite app_nil_r. auto.
  - rewrite run_local_cons in H. apply result_bind_ok in H as (st1 & H1 & H).
    destruct (cells st !! v) as [cl |] eqn:Hc.
    + rewrite (local_closed_form e v cl st Hc) in H1.
      inversion H1; subst st1. clear H1.
      destruct (IH _ H) as (Ht & Hn & Hcs).
      split; [| split].
      * rewrite Ht. unfold hier_state; cbn [sched tasks].
        now rewrite <- app_assoc.
      * rewrite Hn. reflexivity.
      * intros c Hc'. rewrite Hcs by (intros Hin; apply Hc'; now right).
        unfold hier_state; cbn [cells]. apply list_lookup_insert_ne.
        intros ->. apply Hc'. now left.
    + unfold engine_make_hierarchical_tasks_local, add_cell_task, set_cell
        in H1.
      cbn in H1. rewrite Hc in H1. discriminate.
Qed.
(** X22: on a hierarchy of cells of height at most [n], the construction of
    the hierarchical tasks returns, and all it adds to the task array are
    the hierarchical tasks of the local super cells that it reaches from the
    top cells, cell after cell in the order in which it reaches them. It
    takes no link, rewires no cell, and leaves every cell that is not such a
    super cell as it was: a foreign super cell, a cell above a super cell
    and a cell below one get no task. *)
Theorem engine_make_hierarchical_tasks_frame e n nr_cells (st : state) :
  (forall k, (k < nr_cells)%nat -> height_le (shapes st) k n) ->
  exists st1 vs,
    engine_make_hierarchical_tasks_top (S n) e nr_cells st = Ok st1 /\
    (forall v, v ∈ vs <->
               exists k, (k < nr_cells)%nat /\ reaches (shapes st) k v /\
                         local_super e (shapes st) v) /\
    tasks (sched st1) = tasks (sched st) ++ (vs ≫= hier_tasks e) /\
    nr_links st1 = nr_links st /\
    shapes st1 = shapes st /\
    forall c,
      (forall k, (k < nr_cells)%nat -> reaches (shapes st) k c ->
                 ~ local_super e (shapes st) c) ->
      cells st1 !! c = cells st !! c.
Proof.
  intros Hheight.
  destruct (super_cells_top_total e (shapes st) nr_cells n Hheight)
    as (vs & Hvs).
  pose proof (super_cells_top_spec _ _ _ _ _ Hvs) as Hspec.
  assert (Hcells : forall v, v ∈ vs -> is_Some (cells st !! v)).
  { intros v Hv. apply Hspec in Hv as (_ & _ & _ & sh & Hsh & _).
    rewrite shapes_lookup in Hsh.
    destruct (cells st !! v); [eauto | discriminate]. }
  destruct (run_local_total e vs st Hcells) as (st1 & Hrun).
  destruct (run_local_frame e vs st st1 Hrun) as (Ht & Hn & Hcs).
  exists st1, vs.
  split; [now rewrite (hierarchical_tasks_top_run _ _ _ _ _ Hvs st eq_refl) |].
  split; [exact Hspec |]. split; [exact Ht |]. split; [exact Hn |].
  split; [eapply run_local_shapes; eassumption |].
  intros c Hnot. apply Hcs. intros Hin.
  apply Hspec in Hin as (k & Hk & Hr & Hl). exact (Hnot k Hk Hr Hl).
Qed.
(** ** The copies of the density loop and their links *)

Lemma grows_refl (st : state) : grows st st [] 0 (fun _ => []) (fun _ => []).
Proof.
  split; [now rewrite app_nil_r |]. split; [lia |]. split; [reflexivity |].
  intros c cl Hc. exists cl. auto.
Qed.

Lemma grows_trans (st1 st2 st3 : state) new1 new2 k1 k2 F1 G1 F2 G2 :
  grows st1 st2 new1 k1 F1 G1 -> grows st2 st3 new2 k2 F2 G2 ->
  grows st1 st3 (new1 ++ new2) (k1 + k2)
    (fun c => F2 c ++ F1 c) (fun c => G2 c ++ G1 c).
Proof.
  intros (Ht1 & Hn1 & Hl1 & H1) (Ht2 & Hn2 & Hl2 & H2).
  split; [now rewrite Ht2, Ht1, app_assoc |]. split; [lia |].
  split; [congruence |].
  intros c cl Hc. destruct (H1 c cl Hc) as (cl1 & Hc1 & Hu1 & Hf1 & Hg1).
  destruct (H2 c cl1 Hc1) as (cl2 & Hc2 & Hu2 & Hf2 & Hg2).
  exists cl2. split; [assumption |]. split; [congruence |].
  rewrite Hf2, Hf1, Hg2, Hg1, <- !app_assoc. auto.
Qed.

Lemma grows_ext (st st' : state) new new' k k' F G F' G' :
  grows st st' new k F G -> new = new' -> k = k' ->
  (forall c, F c = F' c) -> (forall c, G c = G' c) ->
  grows st st' new' k' F' G'.
Proof.
  intros (Ht & Hn & Hl & H) <- <- HF HG.
  split; [assumption |]. split; [assumption |]. split; [assumption |].
  intros c cl Hc. destruct (H c cl Hc) as (cl' & Hc' & Hu & Hf & Hg).
  exists cl'. rewrite <- HF, <- HG. auto.
Qed.

(** A step that leaves the cells and the link table alone. *)
Lemma grows_cells (st st' : state) new :
  tasks (sched st') = tasks (sched st) ++ new -> cells st' = cells st ->
  nr_links st' = nr_links st ->
  grows st st' new 0 (fun _ => []) (fun _ => []).
Proof.
  intros Ht Hc Hn. split; [assumption |]. split; [lia |].
  split; [now rewrite Hc |].
  intros c cl Hcl. exists cl. rewrite Hc. auto.
Qed.

Lemma addtask_grows (st st1 : state) ty sub fl wt ci cj tight t2 :
  addtask st ty sub fl wt ci cj tight = (st1, t2) ->
  t2 = length (tasks (sched st)) /\
  grows st st1 [{| type := ty; subtype := sub; flags := fl; wait := wt;
                   ci := ci; cj := cj; tight := tight; skip := true |}] 0
    (fun _ => []) (fun _ => []).
Proof.
  unfold addtask, scheduler_addtask. intros [= <- <-].
  split; [reflexivity |]. now apply grows_cells.
Qed.

Lemma engine_addlink_spec e field set_field c t (st st' : state) :
  engine_addlink e field set_field c t st = Ok st' ->
  nr_links st < size_links e /\
  exists cl, cells st !! c = Some cl /\
    st' = {| sched := sched st;
             cells := <[c := set_field (t :: field cl) cl]> (cells st);
             nr_links := nr_links st + 1 |}.
Proof.
  unfold engine_addlink, cell_at, set_cell. cbn.
  destruct (size_links e <=? nr_links st) eqn:Hs; [discriminate |].
  apply Z.leb_gt in Hs.
  destruct (cells st !! c) as [cl |] eqn:Hc; cbn; [| discriminate].
  intros [= <-]. eauto.
Qed.

Lemma engine_addlink_force e p t (st st' : state) :
  engine_addlink e force set_force p t st = Ok st' ->
  nr_links st' <= size_links e /\
  grows st st' [] 1 (fun c => if bool_decide (p = c) then [t] else [])
    (fun _ => []).
Proof.
  intros H. apply engine_addlink_spec in H as (Hlt & cl & Hc & ->).
  cbn [nr_links]. split; [lia |].
  split; [cbn; now rewrite app_nil_r |]. split; [reflexivity |].
  split; [apply length_insert |].
  intros c cl0 Hc0. cbn [cells]. destruct (decide (p = c)) as [-> | Hne].
  - rewrite bool_decide_eq_true_2 by reflexivity.
    rewrite list_lookup_insert_eq by (eapply lookup_lt_Some; eassumption).
    assert (cl0 = cl) by congruence. subst cl0.
    exists (set_force (t :: force cl) cl). split; [reflexivity |].
    split; [apply unlinked_set_force |]. split; reflexivity.
  - rewrite bool_decide_eq_false_2 by assumption.
    rewrite list_lookup_insert_ne by assumption. exists cl0. auto.
Qed.

Lemma engine_addlink_gradient e p t (st st' : state) :
  engine_addlink e gradient set_gradient p t st = Ok st' ->
  nr_links st' <= size_links e /\
  grows st st' [] 1 (fun _ => [])
    (fun c => if bool_decide (p = c) then [t] else []).
Proof.
  intros H. apply engine_addlink_spec in H as (Hlt & cl & Hc & ->).
  cbn [nr_links]. split; [lia |].
  split; [cbn; now rewrite app_nil_r |]. split; [reflexivity |].
  split; [apply length_insert |].
  intros c cl0 Hc0. cbn [cells]. destruct (decide (p = c)) as [-> | Hne].
  - rewrite bool_decide_eq_true_2 by reflexivity.
    rewrite list_lookup_insert_eq by (eapply lookup_lt_Some; eassumption).
    assert (cl0 = cl) by congruence. subst cl0.
    exists (set_gradient (t :: gradient cl) cl). split; [reflexivity |].
    split; [apply unlinked_set_gradient |]. split; reflexivity.
  - rewrite bool_decide_eq_false_2 by assumption.
    rewrite list_lookup_insert_ne by assumption. exists cl0. auto.
Qed.

(** The link of the second cell, which only a pair has. *)
Lemma second_link_force e (both : bool) p t (st st' : state) :
  (if both then cj ← deref p; engine_addlink e force set_force cj t st
   else Ok st) = Ok st' ->
  (both = true -> nr_links st' <= size_links e) /\
  grows st st' [] (if both then 1 else 0)
    (fun c => if both && bool_decide (p = Some c) then [t] else [])
    (fun _ => []).
Proof.
  intros H. destruct both.
  - destruct p as [cj |]; [| discriminate]. cbn [deref mbind result_bind] in H.
    apply engine_addlink_force in H as (Hle & Hg). split; [auto |].
    eapply grows_ext; [exact Hg | reflexivity | reflexivity | | reflexivity].
    intros c. cbn [andb]. destruct (decide (cj = c)) as [-> | Hne].
    + now rewrite !bool_decide_eq_true_2.
    + rewrite !bool_decide_eq_false_2 by congruence. reflexivity.
  - inversion H; subst st'. split; [discriminate |]. apply grows_refl.
Qed.

Lemma second_link_gradient e (both : bool) p t (st st' : state) :
  (if both then cj ← deref p; engine_addlink e gradient set_gradient cj t st
   else Ok st) = Ok st' ->
  (both = true -> nr_links st' <= size_links e) /\
  grows st st' [] (if both then 1 else 0) (fun _ => [])
    (fun c => if both && bool_decide (p = Some c) then [t] else []).
Proof.
  intros H. destruct both.
  - destruct p as [cj |]; [| discriminate]. cbn [deref mbind result_bind] in H.
    apply engine_addlink_gradient in H as (Hle & Hg). split; [auto |].
    eapply grows_ext; [exact Hg | reflexivity | reflexivity | reflexivity |].
    intros c. cbn [andb]. destruct (decide (cj = c)) as [-> | Hne].
    + now rewrite !bool_decide_eq_true_2.
    + rewrite !bool_decide_eq_false_2 by congruence. reflexivity.
  - inversion H; subst st'. split; [discriminate |]. apply grows_refl.
Qed.

(** The dependencies add unlock edges only. *)
Lemma deps_grows density force c wc (st st' : state) :
  engine_make_hydro_loops_dependencies density force c wc st = Ok st' ->
  grows st st' [] 0 (fun _ => []) (fun _ => []).
Proof.
  unfold engine_make_hydro_loops_dependencies. intros H.
  apply result_bind_ok in H as (cl & _ & H).
  apply result_bind_ok in H as (sc & _ & H).
  apply result_bind_ok in H as (scl & _ & H).
  destruct (truthy wc); inversion H; subst st';
    (apply grows_cells; [cbn; now rewrite app_nil_r | reflexivity ..]).
Qed.

Lemma deps_extra_grows density gradient force c wc (st st' : state) :
  engine_make_hydro_loops_dependencies_extra density gradient force c wc st
    = Ok st' ->
  grows st st' [] 0 (fun _ => []) (fun _ => []).
Proof.
  unfold engine_make_hydro_loops_dependencies_extra. intros H.
  apply result_bind_ok in H as (cl & _ & H).
  apply result_bind_ok in H as (sc & _ & H).
  apply result_bind_ok in H as (scl & _ & H).
  destruct (truthy wc); inversion H; subst st';
    (apply grows_cells; [cbn; now rewrite app_nil_r | reflexivity ..]).
Qed.

(** The dependencies of the two cells of a task, whichever version. *)
Lemma cell_deps_grows (deps : nat -> state -> result state) (b : bool) c
    (st st' : state) :
  (forall c sta stb, deps c sta = Ok stb ->
                     grows sta stb [] 0 (fun _ => []) (fun _ => [])) ->
  (if b then deps c st else Ok st) = Ok st' ->
  grows st st' [] 0 (fun _ => []) (fun _ => []).
Proof.
  intros Hdeps H. destruct b; [now apply (Hdeps c) |].
  inversion H; subst st'. apply grows_refl.
Qed.

Lemma second_deps_grows (deps : nat -> state -> result state) e (both : bool)
    p ci_c (st st' : state) :
  (forall c sta stb, deps c sta = Ok stb ->
                     grows sta stb [] 0 (fun _ => []) (fun _ => [])) ->
  (if both then
     cj ← deref p;
     cj_c ← cell_at st cj;
     if (nodeID cj_c =? e_nodeID e) &&
        negb (bool_decide (super ci_c = super cj_c))
     then deps cj st else Ok st
   else Ok st) = Ok st' ->
  grows st st' [] 0 (fun _ => []) (fun _ => []).
Proof.
  intros Hdeps H. destruct both; [| inversion H; subst st'; apply grows_refl].
  apply result_bind_ok in H as (cj & _ & H).
  apply result_bind_ok in H as (cj_c & _ & H).
  eapply cell_deps_grows; eassumption.
Qed.
(** The four branches of the pass, as one: the tasks and the links that
    [second_hydro_loop] adds. *)
Lemma second_hydro_loop_grows e ind t fl cj2 both local_only (st st' : state) :
  second_hydro_loop e ind t fl cj2 both local_only st = Ok st' ->
  let n := length (tasks (sched st)) in
  let cp sub := {| type := type t; subtype := sub; flags := fl; wait := 0;
                   ci := ci t; cj := cj2; tight := false; skip := true |} in
  let lk c i :=
    (if both && bool_decide (cj t = Some c) then [i] else []) ++
    (if bool_decide (ci t = Some c) then [i] else []) in
  nr_links st' <= size_links e /\
  grows st st'
    ((if extra_hydro_loop e then [cp task_subtype_gradient] else []) ++
     [cp task_subtype_force])
    ((if both then 2 else 1) * (if extra_hydro_loop e then 2 else 1))
    (fun c => lk c (n + (if extra_hydro_loop e then 1 else 0))%nat)
    (fun c => if extra_hydro_loop e then lk c n else []).
Proof.
  intros H n cp lk. unfold second_hydro_loop in H.
  destruct (extra_hydro_loop e) eqn:Hextra.
  - destruct (addtask st (type t) task_subtype_gradient fl 0 (ci t) cj2 false)
      as [st1 t2] eqn:Hadd1.
    destruct (addtask st1 (type t) task_subtype_force fl 0 (ci t) cj2 false)
      as [st2 t3] eqn:Hadd2.
    apply addtask_grows in Hadd1 as (-> & G1).
    apply addtask_grows in Hadd2 as (-> & G2).
    assert (Hn1 : length (tasks (sched st1)) = (n + 1)%nat).
    { destruct G1 as (-> & _). rewrite length_app. reflexivity. }
    rewrite Hn1 in *.
    subst lk. cbv beta.
    destruct (ci t) as [ci |] eqn:Hci; [| discriminate].
    cbn [deref mbind result_bind] in H.
    apply result_bind_ok in H as (st3 & H3 & H).
    apply result_bind_ok in H as (st4 & H4 & H).
    apply result_bind_ok in H as (st5 & H5 & H).
    apply result_bind_ok in H as (st6 & H6 & H).
    apply result_bind_ok in H as (ci_c & Hci_c & H).
    apply result_bind_ok in H as (st7 & H7 & H).
    apply engine_addlink_gradient in H3 as (_ & G3).
    apply second_link_gradient in H4 as (_ & G4).
    apply engine_addlink_force in H5 as (Hle5 & G5).
    apply second_link_force in H6 as (Hle6 & G6).
    apply (cell_deps_grows
             (fun c s => engine_make_hydro_loops_dependencies_extra ind n
                           (n + 1)%nat c
                           (Z.land (policy e) engine_policy_cooling) s))
      in H7 as G7; [| intros c sta stb; apply deps_extra_grows].
    apply (second_deps_grows
             (fun c s => engine_make_hydro_loops_dependencies_extra ind n
                           (n + 1)%nat c
                           (Z.land (policy e) engine_policy_cooling) s))
      in H as G8; [| intros c sta stb; apply deps_extra_grows].
    split.
    { destruct G7 as (_ & E7 & _), G8 as (_ & E8 & _).
      destruct G6 as (_ & E6 & _). destruct both; [specialize (Hle6 eq_refl) |];
        lia. }
    pose proof (grows_trans _ _ _ _ _ _ _ _ _ _ _ G1
                 (grows_trans _ _ _ _ _ _ _ _ _ _ _ G2
                 (grows_trans _ _ _ _ _ _ _ _ _ _ _ G3
                 (grows_trans _ _ _ _ _ _ _ _ _ _ _ G4
                 (grows_trans _ _ _ _ _ _ _ _ _ _ _ G5
                 (grows_trans _ _ _ _ _ _ _ _ _ _ _ G6
                 (grows_trans _ _ _ _ _ _ _ _ _ _ _ G7 G8))))))) as G.
    eapply grows_ext; [exact G | reflexivity | destruct both; reflexivity | |].
    + intros c. cbn [app]. rewrite ?app_nil_r.
      destruct (decide (ci = c)) as [-> | Hne].
      * now rewrite (bool_decide_eq_true_2 (c = c)),
          (bool_decide_eq_true_2 (Some c = Some c)).
      * now rewrite (bool_decide_eq_false_2 (ci = c)),
          (bool_decide_eq_false_2 (Some ci = Some c)) by congruence.
    + intros c. cbn [app]. rewrite ?app_nil_r.
      destruct (decide (ci = c)) as [-> | Hne].
      * now rewrite (bool_decide_eq_true_2 (c = c)),
          (bool_decide_eq_true_2 (Some c = Some c)).
      * now rewrite (bool_decide_eq_false_2 (ci = c)),
          (bool_decide_eq_false_2 (Some ci = Some c)) by congruence.
  - destruct (addtask st (type t) task_subtype_force fl 0 (ci t) cj2 false)
      as [st1 t2] eqn:Hadd1.
    apply addtask_grows in Hadd1 as (-> & G1).
    fold n in H. rewrite Nat.add_0_r.
    subst lk. cbv beta.
    destruct (ci t) as [ci |] eqn:Hci; [| discriminate].
    cbn [deref mbind result_bind] in H.
    apply result_bind_ok in H as (st3 & H3 & H).
    apply result_bind_ok in H as (st4 & H4 & H).
    apply result_bind_ok in H as (ci_c & Hci_c & H).
    apply result_bind_ok in H as (st7 & H7 & H).
    apply engine_addlink_force in H3 as (Hle3 & G3).
    apply second_link_force in H4 as (Hle4 & G4).
    apply (cell_deps_grows
             (fun c s => engine_make_hydro_loops_dependencies ind n c
                           (Z.land (policy e) engine_policy_cooling) s))
      in H7 as G7; [| intros c sta stb; apply deps_grows].
    apply (second_deps_grows
             (fun c s => engine_make_hydro_loops_dependencies ind n c
                           (Z.land (policy e) engine_policy_cooling) s))
      in H as G8; [| intros c sta stb; apply deps_grows].
    split.
    { destruct G7 as (_ & E7 & _), G8 as (_ & E8 & _).
      destruct G4 as (_ & E4 & _). destruct both; [specialize (Hle4 eq_refl) |];
        lia. }
    pose proof (grows_trans _ _ _ _ _ _ _ _ _ _ _ G1
                 (grows_trans _ _ _ _ _ _ _ _ _ _ _ G3
                 (grows_trans _ _ _ _ _ _ _ _ _ _ _ G4
                 (grows_trans _ _ _ _ _ _ _ _ _ _ _ G7 G8)))) as G.
    eapply grows_ext;
      [exact G | reflexivity | destruct both; reflexivity | | reflexivity].
    intros c. cbn [app]. rewrite ?app_nil_r.
    destruct (decide (ci = c)) as [-> | Hne].
    + now rewrite (bool_decide_eq_true_2 (c = c)),
        (bool_decide_eq_true_2 (Some c = Some c)).
    + now rewrite (bool_decide_eq_false_2 (ci = c)),
        (bool_decide_eq_false_2 (Some ci = Some c)) by congruence.
Qed.
(** The links to the copies of one density task. *)
Lemma loop_links_force e t c n :
  is_density_loop t = true ->
  rev (loop_links task_subtype_force c n (loop_copies e t)) =
  (if is_pair_loop t && bool_decide (cj t = Some c)
   then [(n + (if extra_hydro_loop e then 1 else 0))%nat] else []) ++
  (if bool_decide (ci t = Some c)
   then [(n + (if extra_hydro_loop e then 1 else 0))%nat] else []).
Proof.
  intros Hd. unfold loop_copies. rewrite Hd.
  assert (Hcj : is_pair_loop t = true ->
                bool_decide (type t = task_type_self) = false).
  { unfold is_pair_loop. intros Hp. apply bool_decide_eq_true_1 in Hp.
    apply bool_decide_eq_false_2. intros Hs. rewrite Hs in Hp.
    destruct Hp; discriminate. }
  unfold loop_links, links_for, is_pair_loop in *.
  destruct (extra_hydro_loop e); cbn -[Nat.add]; rewrite ?app_nil_r;
    destruct (bool_decide (type t = task_type_pair \/
                           type t = task_type_sub_pair));
    [rewrite (Hcj eq_refl) | | rewrite (Hcj eq_refl) |];
    cbn [andb]; rewrite ?app_nil_r;
    destruct (bool_decide (cj t = Some c)), (bool_decide (ci t = Some c));
    reflexivity.
Qed.

Lemma loop_links_gradient e t c n :
  is_density_loop t = true ->
  rev (loop_links task_subtype_gradient c n (loop_copies e t)) =
  if extra_hydro_loop e then
    (if is_pair_loop t && bool_decide (cj t = Some c) then [n] else []) ++
    (if bool_decide (ci t = Some c) then [n] else [])
  else [].
Proof.
  intros Hd. unfold loop_copies. rewrite Hd.
  assert (Hcj : is_pair_loop t = true ->
                bool_decide (type t = task_type_self) = false).
  { unfold is_pair_loop. intros Hp. apply bool_decide_eq_true_1 in Hp.
    apply bool_decide_eq_false_2. intros Hs. rewrite Hs in Hp.
    destruct Hp; discriminate. }
  unfold loop_links, links_for, is_pair_loop in *.
  destruct (extra_hydro_loop e); cbn -[Nat.add]; rewrite ?app_nil_r;
    [| reflexivity].
  rewrite Nat.add_0_r.
  destruct (bool_decide (type t = task_type_pair \/
                         type t = task_type_sub_pair));
    [rewrite (Hcj eq_refl) |];
    cbn [andb]; rewrite ?app_nil_r;
    destruct (bool_decide (cj t = Some c)), (bool_decide (ci t = Some c));
    reflexivity.
Qed.

(** One density task of the kind [ty], whose copies take the flags [fl] and
    the second cell [cj2]. *)
Lemma loop_copies_grows e ind t fl cj2 (both local_only : bool)
    (st st' : state) :
  is_density_loop t = true ->
  is_pair_loop t = both ->
  (if bool_decide (type t = task_type_self \/ type t = task_type_pair)
   then 0 else flags t) = fl ->
  (if bool_decide (type t = task_type_self) then None else cj t) = cj2 ->
  second_hydro_loop e ind t fl cj2 both local_only st = Ok st' ->
  nr_links st' <= size_links e /\
  grows st st' (loop_copies e t) (Z.of_nat (copy_links e t))
    (fun c => rev (loop_links task_subtype_force c
                     (length (tasks (sched st))) (loop_copies e t)))
    (fun c => rev (loop_links task_subtype_gradient c
                     (length (tasks (sched st))) (loop_copies e t))).
Proof.
  intros Hd Hboth Hfl Hcj H.
  apply second_hydro_loop_grows in H as (Hle & G). split; [exact Hle |].
  eapply grows_ext; [exact G | | | |].
  - unfold loop_copies, loop_copy. rewrite Hd, Hfl, Hcj. reflexivity.
  - unfold copy_links. rewrite Hd, Hboth.
    destruct both, (extra_hydro_loop e); reflexivity.
  - intros c. rewrite (loop_links_force e t c _ Hd), Hboth. reflexivity.
  - intros c. rewrite (loop_links_gradient e t c _ Hd), Hboth. reflexivity.
Qed.

Lemma extra_hydroloop_task_grows e ind t (st st' : state) :
  tasks (sched st) !! ind = Some t ->
  engine_make_extra_hydroloop_tasks_task e ind st = Ok st' ->
  (copy_links e t <> 0%nat -> nr_links st' <= size_links e) /\
  grows st st' (loop_copies e t) (Z.of_nat (copy_links e t))
    (fun c => rev (loop_links task_subtype_force c
                     (length (tasks (sched st))) (loop_copies e t)))
    (fun c => rev (loop_links task_subtype_gradient c
                     (length (tasks (sched st))) (loop_copies e t))).
Proof.
  intros Ht H.
  unfold engine_make_extra_hydroloop_tasks_task, task_at in H.
  rewrite Ht in H. cbn [mbind result_bind] in H.
  assert (Hnone : is_density_loop t = false -> st' = st ->
    (copy_links e t <> 0%nat -> nr_links st' <= size_links e) /\
    grows st st' (loop_copies e t) (Z.of_nat (copy_links e t))
      (fun c => rev (loop_links task_subtype_force c
                       (length (tasks (sched st))) (loop_copies e t)))
      (fun c => rev (loop_links task_subtype_gradient c
                       (length (tasks (sched st))) (loop_copies e t)))).
  { intros Hd ->. unfold copy_links, loop_copies. rewrite Hd.
    split; [intros Hne; now contradict Hne |]. apply grows_refl. }
  assert (Hsome : forall fl cj2 both local_only,
    is_density_loop t = true -> is_pair_loop t = both ->
    (if bool_decide (type t = task_type_self \/ type t = task_type_pair)
     then 0 else flags t) = fl ->
    (if bool_decide (type t = task_type_self) then None else cj t) = cj2 ->
    second_hydro_loop e ind t fl cj2 both local_only st = Ok st' ->
    (copy_links e t <> 0%nat -> nr_links st' <= size_links e) /\
    grows st st' (loop_copies e t) (Z.of_nat (copy_links e t))
      (fun c => rev (loop_links task_subtype_force c
                       (length (tasks (sched st))) (loop_copies e t)))
      (fun c => rev (loop_links task_subtype_gradient c
                       (length (tasks (sched st))) (loop_copies e t)))).
  { intros fl cj2 both local_only Hd Hb Hfl Hcj H2.
    destruct (loop_copies_grows e ind t fl cj2 both local_only st st'
                Hd Hb Hfl Hcj H2) as (Hle & G). split; [auto | exact G]. }
  unfold is_density_loop, is_pair_loop in Hnone, Hsome.
  destruct (decide (subtype t = task_subtype_density)) as [Hsub | Hsub].
  2:{ rewrite (bool_decide_eq_false_2 _ Hsub), !andb_false_r in *.
      inversion H; subst st'. now apply Hnone. }
  rewrite (bool_decide_eq_true_2 _ Hsub), !andb_true_r in *.
  destruct (type t) eqn:Hty;
    try (inversion H; subst st'; now apply Hnone).
  - (* self *) eapply Hsome; [reflexivity .. | exact H].
  - (* pair *) eapply Hsome; [reflexivity .. | exact H].
  - (* sub_self *) eapply Hsome; [reflexivity .. | exact H].
  - (* sub_pair *) eapply Hsome; [reflexivity .. | exact H].
Qed.
Lemma loop_links_app sub c n (a b : list task) :
  loop_links sub c n (a ++ b) =
  loop_links sub c n a ++ loop_links sub c (n + length a) b.
Proof.
  unfold loop_links. rewrite imap_app, join_app. f_equal. f_equal.
  apply imap_ext. intros j t _. cbv beta. now rewrite Nat.add_assoc.
Qed.

(** The pass, task after task. *)
Lemma extra_hydroloop_loop e (st0 : state) k (st_k : state) :
  (k <= length (tasks (sched st0)))%nat ->
  foldl (fun st ind => st ← st; engine_make_extra_hydroloop_tasks_task e ind st)
        (Ok st0) (seq 0 k) = Ok st_k ->
  (sum_list_with (copy_links e) (take k (tasks (sched st0))) <> 0%nat ->
   nr_links st_k <= size_links e) /\
  grows st0 st_k (take k (tasks (sched st0)) ≫= loop_copies e)
    (Z.of_nat (sum_list_with (copy_links e) (take k (tasks (sched st0)))))
    (fun c => rev (loop_links task_subtype_force c
                     (length (tasks (sched st0)))
                     (take k (tasks (sched st0)) ≫= loop_copies e)))
    (fun c => rev (loop_links task_subtype_gradient c
                     (length (tasks (sched st0)))
                     (take k (tasks (sched st0)) ≫= loop_copies e))).
Proof.
  revert st_k. induction k as [| k IH]; intros st_k Hk H.
  - inversion H; subst st_k. split; [intros Hne; now contradict Hne |].
    apply grows_refl.
  - rewrite seq_S, foldl_app in H. cbn [foldl Nat.add] in H.
    destruct (foldl _ (Ok st0) (seq 0 k)) as [st1 | msg] eqn:Hloop;
      [| discriminate].
    cbn [mbind result_bind] in H.
    assert (Hk1 : (k <= length (tasks (sched st0)))%nat) by lia.
    assert (Hk2 : (k < length (tasks (sched st0)))%nat) by lia.
    destruct (IH st1 Hk1 eq_refl) as (Hle & G).
    destruct (lookup_lt_is_Some_2 (tasks (sched st0)) k Hk2) as (t & Ht).
    assert (Ht1 : tasks (sched st1) !! k = Some t).
    { destruct G as (-> & _). now apply lookup_app_l_Some. }
    destruct (extra_hydroloop_task_grows e k t st1 st_k Ht1 H) as (Hle' & G').
    assert (Hlen : length (tasks (sched st1)) =
                   (length (tasks (sched st0)) +
                    length (take k (tasks (sched st0)) ≫= loop_copies e))%nat).
    { destruct G as (-> & _). now rewrite length_app. }
    rewrite (take_S_r _ _ _ Ht), bind_app, sum_list_with_app.
    cbn [sum_list_with mbind list_bind]. rewrite app_nil_r, Nat.add_0_r.
    split.
    + intros Hne. destruct (Nat.eq_dec (copy_links e t) 0%nat) as [E | E];
        [| now apply Hle'].
      destruct G' as (_ & En & _). rewrite E in *.
      rewrite Nat.add_0_r in Hne. specialize (Hle Hne). lia.
    + eapply grows_ext;
        [exact (grows_trans _ _ _ _ _ _ _ _ _ _ _ G G') | reflexivity | lia | |];
        intros c; cbv beta; rewrite loop_links_app, rev_app_distr, Hlen;
        reflexivity.
Qed.
(** X23: when [engine_make_extra_hydroloop_tasks] returns, the tasks it has
    added are, for the density self, pair, sub_self and sub_pair tasks in
    the order of the task array, one copy for the force loop, and before it
    one for the gradient loop with [EXTRA_HYDRO_LOOP], and no other task: a
    copy has the type and the first cell of its density task, the copy of a
    self or a pair has no flags, and the copy of a self has no second cell.
    Every copy is linked by its first cell, and the copy of a pair or a
    sub_pair also by its second cell, newest link first and before the
    links that the cell had; the counter of links has grown by one for each
    of these links and has stayed within the link table, and a cell is
    otherwise as it was. *)
Theorem engine_make_extra_hydroloop_tasks_copies e (st st' : state) :
  engine_make_extra_hydroloop_tasks e st = Ok st' ->
  let ts := tasks (sched st) in
  let new := ts ≫= loop_copies e in
  tasks (sched st') = ts ++ new /\
  nr_links st' = nr_links st + Z.of_nat (sum_list_with (copy_links e) ts) /\
  (new <> [] -> nr_links st' <= size_links e) /\
  length (cells st') = length (cells st) /\
  forall c cl, cells st !! c = Some cl ->
    exists cl', cells st' !! c = Some cl' /\ unlinked cl' = unlinked cl /\
      force cl' =
        rev (loop_links task_subtype_force c (length ts) new) ++ force cl /\
      gradient cl' =
        rev (loop_links task_subtype_gradient c (length ts) new) ++
        gradient cl.
Proof.
  intros H ts new. unfold engine_make_extra_hydroloop_tasks in H.
  destruct (extra_hydroloop_loop e st _ st' (Nat.le_refl _) H) as (Hle & G).
  rewrite firstn_all in Hle, G. fold ts in Hle, G. fold new in G.
  destruct G as (Ht & Hn & Hl & Hc).
  split; [exact Ht |]. split; [exact Hn |].
  split; [| split; [exact Hl | exact Hc]].
  intros Hnew. apply Hle. intros Hsum. apply Hnew. subst new.
  clear -Hsum. induction ts as [| t ts IH]; [reflexivity |].
  cbn [sum_list_with] in Hsum. cbn [mbind list_bind].
  assert (E : copy_links e t = 0%nat) by lia.
  rewrite IH by lia. unfold copy_links in E. unfold loop_copies.
  destruct (is_density_loop t); [| reflexivity].
  destruct (is_pair_loop t), (extra_hydro_loop e); discriminate.
Qed.
End loop_copies_proofs.
(** The policy bits of the example. *)
#[local] Existing Instance example_policies.

Lemma engine_make_hierarchical_tasks_frame_witness :
  let e := example_engine 0 false in
  let st := example_state in
  (forall k, (k < 1)%nat -> height_le (shapes st) k 1) /\
  exists st1 vs,
    engine_make_hierarchical_tasks_top (P := example_policies) 2 e 1 st
      = Ok st1 /\
    (forall v, v ∈ vs <->
               exists k, (k < 1)%nat /\ reaches (shapes st) k v /\
                         local_super e (shapes st) v) /\
    tasks (sched st1) = tasks (sched st) ++ (vs ≫= hier_tasks e) /\
    nr_links st1 = nr_links st /\
    shapes st1 = shapes st /\
    forall c,
      (forall k, (k < 1)%nat -> reaches (shapes st) k c ->
                 ~ local_super e (shapes st) c) ->
      cells st1 !! c = cells st !! c.
Proof.
  intros e st. split; [exact TaskgraphProofs.example_height |].
  exact (engine_make_hierarchical_tasks_frame (P := example_policies) e 1 1 st
           TaskgraphProofs.example_height).
Defined.

(** On the example the two local super cells get five tasks each without
    hydro, and the foreign super cell keeps its null pointers. *)
Example example_hierarchical_tasks_frame :
  (st ← engine_make_hierarchical_tasks_top (P := example_policies) 2
          (example_engine 0 false) 1 example_state;
   Ok (length (tasks (sched st)), init <$> cells st, nr_links st)) =
  Ok (14%nat, [None; Some 4%nat; Some 9%nat; None], 0).
Proof. vm_compute. reflexivity. Qed.

Lemma engine_make_extra_hydroloop_tasks_copies_witness :
  let e := example_engine 0 true in
  let st := example_state in
  let st' := example_copied in
  let ts := tasks (sched st) in
  let new := ts ≫= loop_copies e in
  engine_make_extra_hydroloop_tasks (P := example_policies) e st = Ok st' /\
  tasks (sched st') = ts ++ new /\
  nr_links st' = nr_links st + Z.of_nat (sum_list_with (copy_links e) ts) /\
  (new <> [] -> nr_links st' <= size_links e) /\
  length (cells st') = length (cells st) /\
  forall c cl, cells st !! c = Some cl ->
    exists cl', cells st' !! c = Some cl' /\ unlinked cl' = unlinked cl /\
      force cl' =
        rev (loop_links task_subtype_force c (length ts) new) ++ force cl /\
      gradient cl' =
        rev (loop_links task_subtype_gradient c (length ts) new) ++
        gradient cl.
Proof.
  intros e st st' ts new.
  assert (Hpass : engine_make_extra_hydroloop_tasks (P := example_policies)
                    e st = Ok st') by (vm_compute; reflexivity).
  split; [exact Hpass |].
  exact (engine_make_extra_hydroloop_tasks_copies (P := example_policies)
           e st st' Hpass).
Defined.

(** On the example, with the gradient loop: the copies of the pairs have
    lost the flags 3 and 5 of their density tasks, a pair is linked by both
    of its cells, and twelve links are taken. *)
Example example_loop_copies :
  drop 4 (tasks (sched example_copied)) =
    [ mk_task task_type_self task_subtype_gradient 0 (Some 1%nat) None false;
      mk_task task_type_self task_subtype_force 0 (Some 1%nat) None false;
      mk_task task_type_pair task_subtype_gradient 0 (Some 1%nat)
        (Some 2%nat) false;
      mk_task task_type_pair task_subtype_force 0 (Some 1%nat) (Some 2%nat)
        false;
      mk_task task_type_pair task_subtype_gradient 0 (Some 2%nat)
        (Some 3%nat) false;
      mk_task task_type_pair task_subtype_force 0 (Some 2%nat) (Some 3%nat)
        false;
      mk_task task_type_self task_subtype_gradient 0 (Some 2%nat) None false;
      mk_task task_type_self task_subtype_force 0 (Some 2%nat) None false ] /\
  (fun c => (force c, gradient c)) <$> cells example_copied =
    [ ([], []); ([7; 5], [6; 4]); ([11; 9; 7], [10; 8; 6]);
      ([9], [8]) ]%nat /\
  nr_links example_copied = 12.
Proof. vm_compute. repeat split. Qed.
End LoopCopiesProofs.

(* ===================================================================== *)
(** * Proofs: the communication tasks *)
(* ===================================================================== *)

Module CommProofs.
Import Facts Sched Comm.

Lemma unlock_links_spec ta tb links (st : state) :
  unlock_links ta tb links st =
  {| sched := {| tasks := tasks (sched st);
                 unlocks := unlocks (sched st) ++ link_edges ta tb links |};
     cells := cells st; nr_links := nr_links st |}.
Proof.
  unfold unlock_links, link_edges. revert st.
  induction links as [| t links IH]; intros st.
  - cbn. rewrite app_nil_r. destruct st as [[ts us] cs nl]. reflexivity.
  - cbn [foldl]. rewrite IH. cbn. rewrite <- !app_assoc. reflexivity.
Qed.

Lemma comm_shapes_lookup (st : state) d :
  shapes st !! d = shape_of <$> cells st !! d.
Proof. apply list_lookup_fmap. Qed.

Lemma reaches_inv shs c d :
  reaches shs c d <->
  d = c \/ exists prog p, shs !! c = Some (true, prog) /\ Some p ∈ prog /\
                          reaches shs p d.
Proof.
  split.
  - intros H. destruct H as [c | c prog p d Hc Hp Hr]; [now left |].
    right. eauto.
  - intros [-> | (prog & p & Hc & Hp & Hr)]; [constructor |].
    econstructor; eassumption.
Qed.

(** ** Receiving *)

Lemma unrecv_lookup (st st' : state) d dl' :
  unrecv <$> cells st' = unrecv <$> cells st ->
  cells st' !! d = Some dl' ->
  exists dl, cells st !! d = Some dl /\ unrecv dl' = unrecv dl.
Proof.
  intros Hu Hd. apply (f_equal (fun l => l !! d)) in Hu.
  rewrite !list_lookup_fmap, Hd in Hu.
  destruct (cells st !! d) as [dl |]; [| discriminate].
  exists dl. split; [reflexivity |].
  exact (f_equal (fun o => match o with Some x => x | None => unrecv dl end)
           Hu).
Qed.

Lemma unrecv_shapes (st st' : state) :
  unrecv <$> cells st' = unrecv <$> cells st -> shapes st' = shapes st.
Proof.
  intros Hu. unfold shapes.
  assert (E : forall cs : list cell, shape_of <$> cs = shape_of <$> (unrecv <$> cs)).
  { intros cs. rewrite <- list_fmap_compose. reflexivity. }
  now rewrite (E (cells st')), (E (cells st)), Hu.
Qed.

Lemma set_recv_eq a b c d dl dl' :
  unrecv dl' = unrecv dl -> recvs dl' = (a, b, c, d) ->
  dl' = set_recv a b c d dl.
Proof.
  destruct dl, dl'. unfold unrecv, set_recv, recvs.
  cbv [nodeID tag super split progeny density gradient force sorts drift
       ghost extra_ghost kick2 timestep send_xv send_rho send_gradient
       send_ti recv_xv recv_rho recv_gradient recv_ti].
  intros Hu Hr. inversion Hu. inversion Hr. reflexivity.
Qed.

Section recv_proofs.
Context (e : engine) (t_xv t_rho t_gradient t_ti : option nat).


Lemma recv_edges_unrecv dl dl' :
  unrecv dl' = unrecv dl -> (recv_edges e t_xv t_rho t_gradient t_ti) dl' = (recv_edges e t_xv t_rho t_gradient t_ti) dl.
Proof.
  intros Hu. unfold Comm.recv_edges.
  pose proof (f_equal density Hu) as Hd.
  pose proof (f_equal gradient Hu) as Hg.
  pose proof (f_equal force Hu) as Hf.
  pose proof (f_equal sorts Hu) as Hs.
  cbn in Hd, Hg, Hf, Hs. now rewrite Hd, Hg, Hf, Hs.
Qed.

Lemma recv_unlocks_spec cl (st : state) :
  engine_addtasks_recv_unlocks e cl t_xv t_rho t_gradient t_ti st =
  {| sched := {| tasks := tasks (sched st);
                 unlocks := unlocks (sched st) ++ (recv_edges e t_xv t_rho t_gradient t_ti) cl |};
     cells := cells st; nr_links := nr_links st |}.
Proof.
  unfold engine_addtasks_recv_unlocks, Comm.recv_edges.
  destruct (extra_hydro_loop e); rewrite !unlock_links_spec;
    destruct (bool_decide (sorts cl <> None));
    unfold addunlock, scheduler_addunlock; cbn;
    rewrite ?app_nil_r, <- ?app_assoc; reflexivity.
Qed.

(** One call with recv tasks that exist. *)
Lemma recv_unfold depth c (st : state) :
  with_mpi e = true -> t_xv <> None ->
  engine_addtasks_recv (S depth) e c t_xv t_rho t_gradient t_ti st =
  match cells st !! c with
  | None => Error "invalid cell pointer"
  | Some cl =>
    if split cl then
      foldl (fun st k =>
               st ← st;
               match k with
               | Some p => engine_addtasks_recv depth e p t_xv t_rho
                             t_gradient t_ti st
               | None => Ok st
               end) (Ok ((recv_visit e t_xv t_rho t_gradient t_ti) c cl st)) (progeny cl)
    else Ok ((recv_visit e t_xv t_rho t_gradient t_ti) c cl st)
  end.
Proof.
  intros Hmpi Hxv. cbn [engine_addtasks_recv]. rewrite Hmpi. cbn [negb].
  unfold cell_at. destruct (cells st !! c) as [cl |] eqn:Hc; [| reflexivity].
  cbn [mbind result_bind].
  unfold engine_addtasks_recv_create.
  rewrite (bool_decide_eq_false_2 _ Hxv). cbn [andb].
  unfold set_cell. rewrite Hc. cbn [mbind result_bind].
  rewrite recv_unlocks_spec. reflexivity.
Qed.

Lemma recv_shared_refl (st : state) : (recv_shared e t_xv t_rho t_gradient t_ti) (fun _ => False) st st.
Proof.
  split; [reflexivity |]. split; [reflexivity |]. split; [reflexivity |].
  split; [now left |]. split; [intros d dl' [] |]. split; [reflexivity |].
  exists []. split; [now rewrite app_nil_r |].
  intros ed. split; [intros H; now apply elem_of_nil in H |].
  intros (d & dl & [] & _).
Qed.

Lemma recv_shared_ext (R R' : nat -> Prop) (st st' : state) :
  (forall d, R d <-> R' d) -> (recv_shared e t_xv t_rho t_gradient t_ti) R st st' -> (recv_shared e t_xv t_rho t_gradient t_ti) R' st st'.
Proof.
  intros HR (Ht & Hn & Hu & Hp & Hin & Hout & more & Hm & Hed).
  split; [exact Ht |]. split; [exact Hn |]. split; [exact Hu |].
  split; [exact Hp |].
  split; [intros d dl' Hd; apply Hin; now apply HR |].
  split; [intros d Hd; apply Hout; intros Hd'; apply Hd; now apply HR |].
  exists more. split; [exact Hm |]. intros ed. rewrite Hed.
  split; intros (d & dl & Hd & H); exists d, dl; (split; [now apply HR | exact H]).
Qed.

Lemma recv_shared_visit c cl (st : state) :
  cells st !! c = Some cl -> (recv_shared e t_xv t_rho t_gradient t_ti) (eq c) st ((recv_visit e t_xv t_rho t_gradient t_ti) c cl st).
Proof.
  intros Hc.
  assert (Hlt : (c < length (cells st))%nat)
    by (eapply lookup_lt_Some; eassumption).
  split; [reflexivity |]. split; [reflexivity |].
  split.
  { cbn [Comm.recv_visit cells]. rewrite list_fmap_insert.
    apply list_insert_id. now rewrite list_lookup_fmap, Hc. }
  split.
  { intros d. cbn [Comm.recv_visit cells].
    destruct (decide (c = d)) as [<- | Hne].
    - right. eexists. split; [now apply list_lookup_insert_eq | reflexivity].
    - left. now apply list_lookup_insert_ne. }
  split.
  { intros d dl' <-. cbn [Comm.recv_visit cells].
    rewrite list_lookup_insert_eq by exact Hlt. now intros [= <-]. }
  split.
  { intros d Hne. cbn [Comm.recv_visit cells].
    now apply list_lookup_insert_ne. }
  exists ((recv_edges e t_xv t_rho t_gradient t_ti) cl). split; [reflexivity |].
  intros ed. split.
  - intros Hed. exists c, cl. auto.
  - intros (d & dl & <- & Hd & Hed). congruence.
Qed.

Lemma recv_shared_trans (R1 R2 : nat -> Prop) (st st1 st2 : state) :
  (recv_shared e t_xv t_rho t_gradient t_ti) R1 st st1 -> (recv_shared e t_xv t_rho t_gradient t_ti) R2 st1 st2 ->
  (recv_shared e t_xv t_rho t_gradient t_ti) (fun d => R1 d \/ R2 d) st st2.
Proof.
  intros (Ht1 & Hn1 & Hu1 & Hp1 & Hin1 & Hout1 & more1 & Hm1 & Hed1)
         (Ht2 & Hn2 & Hu2 & Hp2 & Hin2 & Hout2 & more2 & Hm2 & Hed2).
  split; [congruence |]. split; [congruence |]. split; [congruence |].
  split.
  { intros d. destruct (Hp2 d) as [E2 | (dl' & E2 & Hr)].
    - rewrite E2. apply Hp1.
    - right. eauto. }
  split.
  { intros d dl' [Hd | Hd] Hl.
    - destruct (Hp2 d) as [E2 | (dl'' & E2 & Hr)].
      + rewrite E2 in Hl. now apply (Hin1 d).
      + congruence.
    - now apply (Hin2 d). }
  split.
  { intros d Hd. rewrite Hout2, Hout1; [reflexivity | |]; intros H; apply Hd;
      [now left | now right]. }
  exists (more1 ++ more2). split; [now rewrite Hm2, Hm1, app_assoc |].
  intros ed. rewrite elem_of_app, Hed1, Hed2. split.
  - intros [(d & dl & Hd & Hl & He) | (d & dl1 & Hd & Hl & He)].
    + exists d, dl. auto.
    + destruct (unrecv_lookup st st1 d dl1 Hu1 Hl) as (dl & Hl0 & Hudl).
      exists d, dl. split; [now right |]. split; [exact Hl0 |].
      now rewrite <- (recv_edges_unrecv _ _ Hudl).
  - intros (d & dl & [Hd | Hd] & Hl & He).
    + left. exists d, dl. auto.
    + right. symmetry in Hu1.
      destruct (unrecv_lookup st1 st d dl Hu1 Hl) as (dl1 & Hl1 & Hudl).
      exists d, dl1. split; [exact Hd |]. split; [exact Hl1 |].
      now rewrite <- (recv_edges_unrecv _ _ Hudl).
Qed.

Lemma recv_shared_shapes (R : nat -> Prop) (st st' : state) :
  (recv_shared e t_xv t_rho t_gradient t_ti) R st st' -> shapes st' = shapes st.
Proof. intros (_ & _ & Hu & _). now apply unrecv_shapes. Qed.

(** The loop over the progeny. *)
Lemma recv_fold depth shs (ps : list (option nat)) :
  (forall p st, Some p ∈ ps -> shapes st = shs ->
     exists st', engine_addtasks_recv depth e p t_xv t_rho t_gradient t_ti st
                   = Ok st' /\
                 (recv_shared e t_xv t_rho t_gradient t_ti) (reaches shs p) st st') ->
  forall st, shapes st = shs ->
    exists st',
      foldl (fun st k =>
               st ← st;
               match k with
               | Some p => engine_addtasks_recv depth e p t_xv t_rho
                             t_gradient t_ti st
               | None => Ok st
               end) (Ok st) ps = Ok st' /\
      (recv_shared e t_xv t_rho t_gradient t_ti) (fun d => exists p, Some p ∈ ps /\ reaches shs p d) st st'.
Proof.
  induction ps as [| k ps IH]; intros Hcall st Hs.
  - exists st. split; [reflexivity |].
    eapply recv_shared_ext; [| apply recv_shared_refl].
    intros d. split; [intros [] |]. intros (p & Hp & _).
    now apply elem_of_nil in Hp.
  - cbn [foldl mbind result_bind].
    assert (Hstep : exists st1,
      match k with
      | Some p => engine_addtasks_recv depth e p t_xv t_rho t_gradient t_ti st
      | None => Ok st
      end = Ok st1 /\
      (recv_shared e t_xv t_rho t_gradient t_ti) (fun d => exists p, k = Some p /\ reaches shs p d) st st1).
    { destruct k as [p |].
      - destruct (Hcall p st ltac:(now left) Hs) as (st1 & H1 & Hsh).
        exists st1. split; [exact H1 |].
        eapply recv_shared_ext; [| exact Hsh].
        intros d. split; [eauto |]. now intros (p' & [= <-] & Hr).
      - exists st. split; [reflexivity |].
        eapply recv_shared_ext; [| apply recv_shared_refl].
        intros d. split; [intros [] |]. now intros (p & ? & _). }
    destruct Hstep as (st1 & -> & Hsh1).
    assert (Hs1 : shapes st1 = shs)
      by (rewrite <- Hs; eapply recv_shared_shapes; eassumption).
    destruct (IH (fun p st Hp => Hcall p st ltac:(now right)) st1 Hs1)
      as (st' & Hfold & Hsh').
    exists st'. split; [exact Hfold |].
    eapply recv_shared_ext; [| exact (recv_shared_trans _ _ _ _ _ Hsh1 Hsh')].
    intros d. cbv beta. split.
    + intros [(p & -> & Hr) | (p & Hp & Hr)]; exists p;
        (split; [| exact Hr]); [now left | now right].
    + intros (p & Hp & Hr). apply elem_of_cons in Hp as [<- | Hp];
        [left | right]; eauto.
Qed.
(** Recv tasks that exist are handed down the whole hierarchy. *)
Lemma recv_tasks_shared n shs c :
  with_mpi e = true -> t_xv <> None -> height_le shs c n ->
  forall st, shapes st = shs ->
    exists st',
      engine_addtasks_recv (S n) e c t_xv t_rho t_gradient t_ti st = Ok st' /\
      recv_shared e t_xv t_rho t_gradient t_ti (reaches shs c) st st'.
Proof.
  intros Hmpi Hxv Hh.
  induction Hh as [c prog n Hc | c prog n Hc Hprog IH]; intros st Hs.
  - rewrite recv_unfold by assumption.
    pose proof Hc as Hc'. rewrite <- Hs, comm_shapes_lookup in Hc'.
    destruct (cells st !! c) as [cl |] eqn:Hcl; [| discriminate].
    inversion Hc' as [[Hsplit Hp]]. rewrite Hsplit.
    eexists. split; [reflexivity |].
    eapply recv_shared_ext; [| apply recv_shared_visit; exact Hcl].
    intros d. rewrite reaches_inv. split; [intros <-; now left |].
    intros [-> | (prog' & p & Hc2 & _)]; [reflexivity | congruence].
  - rewrite recv_unfold by assumption.
    pose proof Hc as Hc'. rewrite <- Hs, comm_shapes_lookup in Hc'.
    destruct (cells st !! c) as [cl |] eqn:Hcl; [| discriminate].
    inversion Hc' as [[Hsplit Hp]]. rewrite Hsplit. subst prog.
    pose proof (recv_shared_visit c cl st Hcl) as Hvisit.
    assert (Hs1 : shapes (recv_visit e t_xv t_rho t_gradient t_ti c cl st)
                  = shs)
      by (rewrite <- Hs; eapply recv_shared_shapes; eassumption).
    assert (Hcalls : forall p st, Some p ∈ progeny cl -> shapes st = shs ->
              exists st',
                engine_addtasks_recv (S n) e p t_xv t_rho t_gradient t_ti st
                  = Ok st' /\
                recv_shared e t_xv t_rho t_gradient t_ti (reaches shs p)
                  st st').
    { intros p st0 Hin Hs0. now apply IH. }
    destruct (recv_fold (S n) shs (progeny cl) Hcalls _ Hs1)
      as (st' & Hfold & Hsh).
    exists st'. split; [exact Hfold |].
    eapply recv_shared_ext;
      [| exact (recv_shared_trans _ _ _ _ _ Hvisit Hsh)].
    intros d. cbv beta. rewrite (reaches_inv shs c d). split.
    + intros [<- | (p & Hpp & Hr)]; [now left |].
      right. exists (progeny cl), p. auto.
    + intros [-> | (prog' & p & Hc2 & Hpp & Hr)]; [now left |].
      right. exists p. split; [| exact Hr]. congruence.
Qed.

End recv_proofs.

(** A cell with density tasks that is given no recv tasks creates them,
    and goes on as if it had been given them. *)
Lemma recv_head depth e c cl (st : state) :
  with_mpi e = true -> cells st !! c = Some cl -> density cl <> [] ->
  engine_addtasks_recv (S depth) e c None None None None st =
  engine_addtasks_recv (S depth) e c
    (Some (length (tasks (sched st))))
    (Some (length (tasks (sched st)) + 1)%nat)
    (if extra_hydro_loop e then Some (length (tasks (sched st)) + 3)%nat
     else None)
    (Some (length (tasks (sched st)) + 2)%nat)
    {| sched := {| tasks := tasks (sched st) ++ recv_tasks e c cl;
                   unlocks := unlocks (sched st) |};
       cells := cells st; nr_links := nr_links st |}.
Proof.
  intros Hmpi Hc Hd. cbn [engine_addtasks_recv]. rewrite Hmpi. cbn [negb].
  unfold cell_at. cbn [cells]. rewrite Hc. cbn [mbind result_bind].
  unfold engine_addtasks_recv_create.
  rewrite (bool_decide_eq_true_2 (None = None)) by reflexivity.
  rewrite (bool_decide_eq_false_2 (density cl = [])) by assumption.
  rewrite (bool_decide_eq_false_2 (Some _ = None)) by discriminate.
  cbn [andb negb]. unfold recv_tasks, addtask, scheduler_addtask, mk_task.
  destruct (extra_hydro_loop e); cbn -[Nat.add Z.add Z.mul];
    rewrite ?length_app; cbn [length];
    rewrite <- ?app_assoc, <- ?Nat.add_assoc; reflexivity.
Qed.
(** X24: with MPI, on a hierarchy of cells of height at most [n],
    [engine_addtasks_recv] called without recv tasks on a cell that has
    density tasks returns, and adds one set of recv tasks for the whole
    hierarchy below the cell: the xv, rho and tend tasks (and then the
    gradient task with [EXTRA_HYDRO_LOOP]) of this cell, with the flags
    [4 * tag], [4 * tag + 1], [4 * tag + 2] (and [4 * tag + 3]). Every
    cell that the recursion reaches through split cells points to these
    same tasks, every other cell is as it was, no link is taken, and the
    new unlock edges are, for the cells reached, those that put the
    density tasks of the cell between the xv and the rho task, its force
    tasks between the rho and the tend task (with [EXTRA_HYDRO_LOOP]: the
    gradient tasks between rho and gradient, the force tasks between
    gradient and tend), and the sorts of the cell after the xv task. *)
Theorem engine_addtasks_recv_shared e n c cl (st : state) :
  with_mpi e = true ->
  height_le (shapes st) c n ->
  cells st !! c = Some cl ->
  density cl <> [] ->
  let n0 := length (tasks (sched st)) in
  let t_xv := Some n0 in
  let t_rho := Some (n0 + 1)%nat in
  let t_gradient := if extra_hydro_loop e then Some (n0 + 3)%nat else None in
  let t_ti := Some (n0 + 2)%nat in
  exists st',
    engine_addtasks_recv (S n) e c None None None None st = Ok st' /\
    tasks (sched st') = tasks (sched st) ++ recv_tasks e c cl /\
    nr_links st' = nr_links st /\
    (forall d dl, reaches (shapes st) c d -> cells st !! d = Some dl ->
       cells st' !! d = Some (set_recv t_xv t_rho t_gradient t_ti dl)) /\
    (forall d, ~ reaches (shapes st) c d -> cells st' !! d = cells st !! d) /\
    exists more,
      unlocks (sched st') = unlocks (sched st) ++ more /\
      forall ed, ed ∈ more <->
                 exists d dl, reaches (shapes st) c d /\
                              cells st !! d = Some dl /\
                              ed ∈ recv_edges e t_xv t_rho t_gradient t_ti dl.
Proof.
  intros Hmpi Hh Hc Hd n0 t_xv t_rho t_gradient t_ti.
  rewrite (recv_head n e c cl st Hmpi Hc Hd).
  fold n0. fold t_xv. fold t_rho. fold t_ti. fold t_gradient.
  set (st1 := {| sched := {| tasks := tasks (sched st) ++ recv_tasks e c cl;
                             unlocks := unlocks (sched st) |};
                 cells := cells st; nr_links := nr_links st |}).
  assert (Hxv : t_xv <> None) by discriminate.
  destruct (recv_tasks_shared e t_xv t_rho t_gradient t_ti n (shapes st) c
              Hmpi Hxv Hh st1 eq_refl)
    as (st' & Hcall & Ht & Hn & Hu & Hp & Hin & Hout & more & Hm & Hed).
  exists st'. split; [exact Hcall |]. split; [exact Ht |].
  split; [exact Hn |].
  split.
  { intros d dl Hr Hl. symmetry in Hu.
    destruct (unrecv_lookup st' st1 d dl Hu Hl) as (dl' & Hl' & Hudl).
    rewrite Hl'. f_equal. apply set_recv_eq; [now symmetry |].
    now apply (Hin d). }
  split; [exact Hout |].
  exists more. split; [exact Hm | exact Hed].
Qed.

(** ** Sending *)

Lemma send_addlink_spec e field set_field c t (st st' : state) :
  engine_addlink e field set_field c t st = Ok st' ->
  nr_links st < size_links e /\
  exists cl, cells st !! c = Some cl /\
    st' = {| sched := sched st;
             cells := <[c := set_field (t :: field cl) cl]> (cells st);
             nr_links := nr_links st + 1 |}.
Proof.
  unfold engine_addlink, cell_at, set_cell. cbn.
  destruct (size_links e <=? nr_links st) eqn:Hs; [discriminate |].
  apply Z.leb_gt in Hs.
  destruct (cells st !! c) as [cl |] eqn:Hc; cbn; [| discriminate].
  intros [= <-]. eauto.
Qed.

(** Whether a task is for a node depends on the tasks and on the nodes of
    the cells only. *)
Lemma for_node_mono (st st' : state) node t b :
  (forall i tk, tasks (sched st) !! i = Some tk ->
                tasks (sched st') !! i = Some tk) ->
  (forall a x, cells st !! a = Some x ->
     exists x', cells st' !! a = Some x' /\ nodeID x' = nodeID x) ->
  for_node st node t = Ok b -> for_node st' node t = Ok b.
Proof.
  intros Ht Hn. unfold for_node, task_at, cell_at.
  destruct (tasks (sched st) !! t) as [tk |] eqn:Htk; [| discriminate].
  rewrite (Ht _ _ Htk). cbn [mbind result_bind].
  destruct (ci tk) as [a |]; [| discriminate]. cbn [deref mbind result_bind].
  destruct (cells st !! a) as [x |] eqn:Ha; [| discriminate].
  destruct (Hn _ _ Ha) as (x' & -> & Hx). cbn [mbind result_bind].
  rewrite Hx. destruct (nodeID x =? node); [trivial |].
  destruct (cj tk) as [c |]; [| trivial].
  destruct (cells st !! c) as [y |] eqn:Hc; [| discriminate].
  destruct (Hn _ _ Hc) as (y' & -> & Hy). cbn [mbind result_bind].
  now rewrite Hy.
Qed.

Lemma density_for_node_mono (st st' : state) node links b :
  (forall i tk, tasks (sched st) !! i = Some tk ->
                tasks (sched st') !! i = Some tk) ->
  (forall a x, cells st !! a = Some x ->
     exists x', cells st' !! a = Some x' /\ nodeID x' = nodeID x) ->
  density_for_node st node links = Ok b ->
  density_for_node st' node links = Ok b.
Proof.
  intros Ht Hn. induction links as [| t links IH]; [trivial |].
  cbn [density_for_node]. intros H.
  destruct (for_node st node t) as [b1 |] eqn:H1; [| discriminate].
  rewrite (for_node_mono st st' node t b1 Ht Hn H1).
  cbn [mbind result_bind] in *. destruct b1; [exact H | now apply IH].
Qed.

Lemma unsend_fields dl dl' :
  unsend dl' = unsend dl ->
  nodeID dl' = nodeID dl /\ tag dl' = tag dl /\ super dl' = super dl /\
  shape_of dl' = shape_of dl /\ density dl' = density dl /\
  drift dl' = drift dl.
Proof.
  intros Hu.
  pose proof (f_equal nodeID Hu) as H1. pose proof (f_equal tag Hu) as H2.
  pose proof (f_equal super Hu) as H3. pose proof (f_equal shape_of Hu) as H4.
  pose proof (f_equal density Hu) as H5. pose proof (f_equal drift Hu) as H6.
  exact (conj H1 (conj H2 (conj H3 (conj H4 (conj H5 H6))))).
Qed.

Lemma sum_send_links_insert (l : list cell) i x :
  l !! i = Some x ->
  forall y,
    (sum_list_with (fun c => length (send_xv c)) (<[i := y]> l) +
     length (send_xv x) =
     sum_list_with (fun c => length (send_xv c)) l + length (send_xv y))%nat.
Proof.
  revert i. induction l as [| c l IH]; intros i Hi y; [discriminate |].
  destruct i as [| i].
  - injection Hi as ->. cbn. lia.
  - change (<[S i := y]> (c :: l)) with (c :: <[i := y]> l).
    cbn [sum_list_with]. specialize (IH i Hi y). lia.
Qed.

Section send_proofs.
Context (e : engine) (node : Z) (t_xv t_rho t_gradient t_ti : option nat).

Lemma sent_refl dl : sent e t_xv t_rho t_gradient t_ti 0 dl dl.
Proof.
  split; [reflexivity |]. cbn [replicate app].
  destruct (extra_hydro_loop e); auto.
Qed.

Lemma sent_trans k1 k2 dl dl1 dl2 :
  sent e t_xv t_rho t_gradient t_ti k1 dl dl1 ->
  sent e t_xv t_rho t_gradient t_ti k2 dl1 dl2 ->
  sent e t_xv t_rho t_gradient t_ti (k1 + k2) dl dl2.
Proof.
  intros (Hu1 & Hx1 & Hr1 & Hg1 & Ht1) (Hu2 & Hx2 & Hr2 & Hg2 & Ht2).
  split; [congruence |].
  rewrite Hx2, Hx1, Hr2, Hr1, Hg2, Hg1, Ht2, Ht1.
  destruct (extra_hydro_loop e);
    rewrite !(Nat.add_comm k1 k2), !replicate_add, <- !app_assoc; auto.
Qed.

(** The links of one cell. *)
Lemma send_link_spec ci (st st' : state) :
  engine_addtasks_send_link e ci t_xv t_rho t_gradient t_ti st = Ok st' ->
  sched st' = sched st /\ nr_links st < nr_links st' /\
  nr_links st' <= size_links e /\
  nr_links st' - nr_links st =
    links_per_cell e *
    (Z.of_nat (send_links st') - Z.of_nat (send_links st)) /\
  exists dl dl', cells st !! ci = Some dl /\
    cells st' = <[ci := dl']> (cells st) /\
    sent e t_xv t_rho t_gradient t_ti 1 dl dl'.
Proof.
  unfold engine_addtasks_send_link. intros H.
  apply result_bind_ok in H as (st1 & H1 & H).
  apply result_bind_ok in H as (st2 & H2 & H).
  apply result_bind_ok in H as (st3 & H3 & H).
  apply send_addlink_spec in H1 as (L1 & d0 & Hd0 & ->).
  assert (Hlt : (ci < length (cells st))%nat)
    by (eapply lookup_lt_Some; eassumption).
  apply send_addlink_spec in H2 as (L2 & d1 & Hd1 & ->).
  cbn [cells sched nr_links] in *.
  rewrite list_lookup_insert_eq in Hd1 by exact Hlt.
  inversion Hd1; subst d1; clear Hd1.
  rewrite list_insert_insert_eq in *.
  destruct (extra_hydro_loop e) eqn:Hextra.
  - apply send_addlink_spec in H3 as (L3 & d2 & Hd2 & ->).
    cbn [cells sched nr_links] in *.
    rewrite list_lookup_insert_eq in Hd2 by exact Hlt.
    inversion Hd2; subst d2; clear Hd2.
    apply send_addlink_spec in H as (L4 & d3 & Hd3 & ->).
    cbn [cells sched nr_links] in *.
    rewrite list_insert_insert_eq in *.
    rewrite list_lookup_insert_eq in Hd3 by exact Hlt.
    inversion Hd3; subst d3; clear Hd3.
    split; [reflexivity |]. split; [lia |]. split; [lia |].
    split.
    { unfold send_links, links_per_cell. cbn [cells nr_links].
      rewrite Hextra, ?list_insert_insert_eq.
      pose proof (sum_send_links_insert (cells st) ci d0 Hd0) as Hsum.
      match goal with
      | |- context [<[ci := ?y]> (cells st)] => specialize (Hsum y)
      end.
      destruct d0;
        cbn [send_xv length set_send_xv set_send_rho set_send_gradient
             set_send_ti] in *.
      lia. }
    exists d0. eexists. split; [exact Hd0 |].
    rewrite ?list_insert_insert_eq.
    split; [reflexivity |].
    unfold sent. rewrite Hextra. destruct d0. repeat split.
  - inversion H3; subst st3; clear H3.
    apply send_addlink_spec in H as (L4 & d3 & Hd3 & ->).
    cbn [cells sched nr_links] in *.
    rewrite list_lookup_insert_eq in Hd3 by exact Hlt.
    inversion Hd3; subst d3; clear Hd3.
    split; [reflexivity |]. split; [lia |]. split; [lia |].
    split.
    { unfold send_links, links_per_cell. cbn [cells nr_links].
      rewrite Hextra, ?list_insert_insert_eq.
      pose proof (sum_send_links_insert (cells st) ci d0 Hd0) as Hsum.
      match goal with
      | |- context [<[ci := ?y]> (cells st)] => specialize (Hsum y)
      end.
      destruct d0;
        cbn [send_xv length set_send_xv set_send_rho set_send_gradient
             set_send_ti] in *.
      lia. }
    exists d0. eexists. split; [exact Hd0 |].
    rewrite ?list_insert_insert_eq.
    split; [reflexivity |].
    unfold sent. rewrite Hextra. destruct d0. repeat split.
Qed.
(** One call with send tasks that exist. *)
Lemma send_unfold depth ci cj (st : state) :
  with_mpi e = true -> t_xv <> None ->
  engine_addtasks_send (S depth) e ci cj t_xv t_rho t_gradient t_ti st =
  (cj_c ← cell_at st cj;
   ci_c ← cell_at st ci;
   density_for_node st (nodeID cj_c) (density ci_c) ≫= fun found : bool =>
   st1 ← (if found
          then engine_addtasks_send_link e ci t_xv t_rho t_gradient t_ti st
          else Ok st);
   if split ci_c then
     foldl (fun st k =>
              st ← st;
              match k with
              | Some p => engine_addtasks_send depth e p cj t_xv t_rho
                            t_gradient t_ti st
              | None => Ok st
              end) (Ok st1) (progeny ci_c)
   else Ok st1).
Proof.
  intros Hmpi Hxv. cbn [engine_addtasks_send]. rewrite Hmpi. cbn [negb].
  destruct (cell_at st cj) as [cj_c |]; [| reflexivity].
  cbn [mbind result_bind].
  destruct (cell_at st ci) as [ci_c |]; [| reflexivity].
  cbn [mbind result_bind].
  destruct (density_for_node st (nodeID cj_c) (density ci_c)) as [[|] |];
    cbn [mbind result_bind]; [| reflexivity | reflexivity].
  unfold engine_addtasks_send_attach.
  rewrite (bool_decide_eq_false_2 _ Hxv). cbn [mbind result_bind].
  destruct (engine_addtasks_send_link e ci t_xv t_rho t_gradient t_ti st);
    reflexivity.
Qed.

Lemma send_shared_refl (R : nat -> Prop) (st : state) :
  (forall d dl, R d -> cells st !! d = Some dl ->
                density_for_node st node (density dl) <> Ok true) ->
  send_shared e node t_xv t_rho t_gradient t_ti R st st.
Proof.
  intros Hnot. split; [reflexivity |]. split; [lia |]. split; [lia |].
  split; [lia |]. split; [reflexivity |].
  intros d dl Hd. exists 0%nat, dl. split; [exact Hd |].
  split; [apply sent_refl |].
  split; [intros H; now contradict H |].
  intros (HR & Hf). exfalso. exact (Hnot d dl HR Hd Hf).
Qed.

Lemma send_shared_ext (R R' : nat -> Prop) (st st' : state) :
  (forall d, R d <-> R' d) ->
  send_shared e node t_xv t_rho t_gradient t_ti R st st' ->
  send_shared e node t_xv t_rho t_gradient t_ti R' st st'.
Proof.
  intros HR (Hs & Hn1 & Hn2 & Hn3 & Hl & Hc).
  split; [exact Hs |]. split; [exact Hn1 |]. split; [exact Hn2 |].
  split; [exact Hn3 |]. split; [exact Hl |].
  intros d dl Hd. destruct (Hc d dl Hd) as (k & dl' & Hd' & Hsent & Hk).
  exists k, dl'. split; [exact Hd' |]. split; [exact Hsent |].
  rewrite Hk, (HR d). reflexivity.
Qed.

Lemma send_shared_nodes (R : nat -> Prop) (st st' : state) :
  send_shared e node t_xv t_rho t_gradient t_ti R st st' ->
  (forall a x, cells st !! a = Some x ->
     exists x', cells st' !! a = Some x' /\ nodeID x' = nodeID x) /\
  (forall a x', cells st' !! a = Some x' ->
     exists x, cells st !! a = Some x /\ nodeID x = nodeID x').
Proof.
  intros (Hs & _ & _ & _ & Hl & Hc). split.
  - intros a x Ha. destruct (Hc a x Ha) as (k & x' & Ha' & (Hu & _) & _).
    exists x'. split; [exact Ha' |]. now apply unsend_fields in Hu.
  - intros a x' Ha'.
    destruct (lookup_lt_is_Some_2 (cells st) a) as (x & Ha).
    { rewrite <- Hl. eapply lookup_lt_Some; eassumption. }
    destruct (Hc a x Ha) as (k & x'' & Ha'' & (Hu & _) & _).
    exists x. split; [exact Ha |].
    assert (x'' = x') by congruence. subst x''.
    apply unsend_fields in Hu. symmetry. apply Hu.
Qed.

Lemma send_shared_found (R : nat -> Prop) (st st' : state) links b :
  send_shared e node t_xv t_rho t_gradient t_ti R st st' ->
  density_for_node st' node links = Ok b <->
  density_for_node st node links = Ok b.
Proof.
  intros Hsh. destruct (send_shared_nodes R st st' Hsh) as (Hn1 & Hn2).
  destruct Hsh as (Hs & _).
  split; apply density_for_node_mono; try assumption;
    intros i tk; rewrite Hs; trivial.
Qed.

Lemma send_shared_shapes (R : nat -> Prop) (st st' : state) :
  send_shared e node t_xv t_rho t_gradient t_ti R st st' ->
  shapes st' = shapes st.
Proof.
  intros (_ & _ & _ & _ & Hl & Hc). apply list_eq. intros i.
  unfold shapes. rewrite !list_lookup_fmap.
  destruct (cells st !! i) as [x |] eqn:Hi.
  - destruct (Hc i x Hi) as (k & x' & -> & (Hu & _) & _). cbn.
    f_equal. now apply unsend_fields in Hu.
  - apply lookup_ge_None in Hi. rewrite <- Hl in Hi.
    apply lookup_ge_None in Hi. now rewrite Hi.
Qed.

Lemma send_shared_visit ci ci_c (st st' : state) :
  cells st !! ci = Some ci_c ->
  density_for_node st node (density ci_c) = Ok true ->
  engine_addtasks_send_link e ci t_xv t_rho t_gradient t_ti st = Ok st' ->
  send_shared e node t_xv t_rho t_gradient t_ti (eq ci) st st'.
Proof.
  intros Hci Hfound H.
  apply send_link_spec
    in H as (Hs & Hn1 & Hn2 & Hn3 & dl & dl' & Hdl & Hcs & Hsent).
  assert (dl = ci_c) by congruence. subst dl.
  assert (Hlt : (ci < length (cells st))%nat)
    by (eapply lookup_lt_Some; eassumption).
  split; [exact Hs |]. split; [lia |]. split; [intros _; exact Hn2 |].
  split; [exact Hn3 |].
  split; [rewrite Hcs; apply length_insert |].
  intros d x Hd. rewrite Hcs. destruct (decide (ci = d)) as [<- | Hne].
  - exists 1%nat, dl'.
    split; [now apply list_lookup_insert_eq |].
    assert (x = ci_c) by congruence. subst x.
    split; [exact Hsent |]. split; [auto | intros _; discriminate].
  - exists 0%nat, x. split; [now rewrite list_lookup_insert_ne |].
    split; [apply sent_refl |].
    split; [intros H; now contradict H | intros (E & _); contradiction].
Qed.

Lemma send_shared_trans (R1 R2 : nat -> Prop) (st st1 st2 : state) :
  send_shared e node t_xv t_rho t_gradient t_ti R1 st st1 ->
  send_shared e node t_xv t_rho t_gradient t_ti R2 st1 st2 ->
  send_shared e node t_xv t_rho t_gradient t_ti (fun d => R1 d \/ R2 d)
    st st2.
Proof.
  intros H1 H2.
  pose proof (fun links b => send_shared_found R1 st st1 links b H1) as Hf.
  destruct H1 as (Hs1 & Hn1 & Hm1 & Hk1 & Hl1 & Hc1).
  destruct H2 as (Hs2 & Hn2 & Hm2 & Hk2 & Hl2 & Hc2).
  split; [congruence |]. split; [lia |]. split; [lia |].
  split; [unfold links_per_cell in *; destruct (extra_hydro_loop e); lia |].
  split; [congruence |].
  intros d dl Hd.
  clear Hk1 Hk2.
  destruct (Hc1 d dl Hd) as (k1 & dl1 & Hd1 & Hsent1 & Hk1).
  destruct (Hc2 d dl1 Hd1) as (k2 & dl2 & Hd2 & Hsent2 & Hk2).
  exists (k1 + k2)%nat, dl2. split; [exact Hd2 |].
  split; [eapply sent_trans; eassumption |].
  assert (Hdens : density dl1 = density dl).
  { destruct Hsent1 as (Hu & _). now apply unsend_fields in Hu. }
  rewrite Hdens, Hf in Hk2.
  split.
  - intros Hk. destruct (Nat.eq_dec k1 0%nat) as [-> | Hk1'].
    + assert (Hk2' : k2 <> 0%nat) by lia. apply Hk2 in Hk2' as (HR & Hfd).
      auto.
    + apply Hk1 in Hk1' as (HR & Hfd). auto.
  - intros ([HR | HR] & Hfd).
    + assert (k1 <> 0%nat) by (apply Hk1; auto). lia.
    + assert (k2 <> 0%nat) by (apply Hk2; auto). lia.
Qed.

(** The loop over the progeny, when it returns. *)
Lemma send_fold depth cj shs (ps : list (option nat)) :
  (forall p st st', Some p ∈ ps -> shapes st = shs ->
     nodeID <$> cells st !! cj = Some node ->
     engine_addtasks_send depth e p cj t_xv t_rho t_gradient t_ti st
       = Ok st' ->
     send_shared e node t_xv t_rho t_gradient t_ti (reaches shs p) st st') ->
  forall st st', shapes st = shs ->
    nodeID <$> cells st !! cj = Some node ->
    foldl (fun st k =>
             st ← st;
             match k with
             | Some p => engine_addtasks_send depth e p cj t_xv t_rho
                           t_gradient t_ti st
             | None => Ok st
             end) (Ok st) ps = Ok st' ->
    send_shared e node t_xv t_rho t_gradient t_ti
      (fun d => exists p, Some p ∈ ps /\ reaches shs p d) st st'.
Proof.
  induction ps as [| k ps IH]; intros Hcall st st' Hs Hnode H.
  - inversion H; subst st'. apply send_shared_refl.
    intros d dl (p & Hp & _). now apply elem_of_nil in Hp.
  - cbn [foldl mbind result_bind] in H.
    destruct (match k with
              | Some p => engine_addtasks_send depth e p cj t_xv t_rho
                            t_gradient t_ti st
              | None => Ok st
              end) as [st1 | msg] eqn:H1;
      [| rewrite foldl_error in H by reflexivity; discriminate].
    assert (Hsh1 : send_shared e node t_xv t_rho t_gradient t_ti
                     (fun d => exists p, k = Some p /\ reaches shs p d)
                     st st1).
    { destruct k as [p |].
      - eapply send_shared_ext;
          [| exact (Hcall p st st1 ltac:(now left) Hs Hnode H1)].
        intros d. split; [eauto |]. now intros (p' & [= <-] & Hr).
      - inversion H1; subst st1. apply send_shared_refl.
        now intros d dl (p & ? & _). }
    assert (Hs1 : shapes st1 = shs)
      by (rewrite <- Hs; eapply send_shared_shapes; eassumption).
    assert (Hnode1 : nodeID <$> cells st1 !! cj = Some node).
    { destruct (cells st !! cj) as [x |] eqn:Hx; [| discriminate].
      destruct (send_shared_nodes _ _ _ Hsh1) as (Hn & _).
      destruct (Hn cj x Hx) as (x' & -> & Hx'). cbn in *. congruence. }
    pose proof (IH (fun p st st' Hp => Hcall p st st' ltac:(now right))
                  st1 st' Hs1 Hnode1 H) as Hsh'.
    eapply send_shared_ext; [| exact (send_shared_trans _ _ _ _ _ Hsh1 Hsh')].
    intros d. cbv beta. split.
    + intros [(p & -> & Hr) | (p & Hp & Hr)]; exists p;
        (split; [| exact Hr]); [now left | now right].
    + intros (p & Hp & Hr). apply elem_of_cons in Hp as [<- | Hp];
        [left | right]; eauto.
Qed.

(** Send tasks that exist are handed down the hierarchy, and linked by the
    cells that have a density task for the node. *)
Lemma send_tasks_shared depth cj :
  with_mpi e = true -> t_xv <> None ->
  forall ci st st',
    nodeID <$> cells st !! cj = Some node ->
    engine_addtasks_send depth e ci cj t_xv t_rho t_gradient t_ti st
      = Ok st' ->
    send_shared e node t_xv t_rho t_gradient t_ti (reaches (shapes st) ci)
      st st'.
Proof.
  intros Hmpi Hxv. induction depth as [| depth IH]; intros ci st st' Hnode H.
  { cbn in H. rewrite Hmpi in H. discriminate. }
  rewrite send_unfold in H by assumption. unfold cell_at in H.
  destruct (cells st !! cj) as [cj_c |] eqn:Hcj; [| discriminate].
  assert (Hnode' : nodeID cj_c = node) by (cbn in Hnode; congruence).
  destruct (cells st !! ci) as [ci_c |] eqn:Hci; [| discriminate].
  cbn [mbind result_bind] in H. rewrite Hnode' in H.
  destruct (density_for_node st node (density ci_c)) as [found |] eqn:Hfound;
    [| discriminate].
  cbn [mbind result_bind] in H.
  apply result_bind_ok in H as (st1 & H1 & H).
  assert (Hvisit : send_shared e node t_xv t_rho t_gradient t_ti (eq ci)
                     st st1).
  { destruct found.
    - eapply send_shared_visit; eassumption.
    - inversion H1; subst st1. apply send_shared_refl.
      intros d dl <- Hd. assert (dl = ci_c) by congruence. subst dl.
      rewrite Hfound. discriminate. }
  assert (Hs1 : shapes st1 = shapes st)
    by (eapply send_shared_shapes; eassumption).
  assert (Hshape : shapes st !! ci = Some (split ci_c, progeny ci_c))
    by (now rewrite comm_shapes_lookup, Hci).
  destruct (split ci_c) eqn:Hsplit.
  - assert (Hnode1 : nodeID <$> cells st1 !! cj = Some node).
    { destruct (send_shared_nodes _ _ _ Hvisit) as (Hn & _).
      destruct (Hn cj cj_c Hcj) as (x' & -> & Hx'). cbn. congruence. }
    assert (Hcalls : forall p st0 st', Some p ∈ progeny ci_c ->
              shapes st0 = shapes st ->
              nodeID <$> cells st0 !! cj = Some node ->
              engine_addtasks_send depth e p cj t_xv t_rho t_gradient t_ti st0
                = Ok st' ->
              send_shared e node t_xv t_rho t_gradient t_ti
                (reaches (shapes st) p) st0 st').
    { intros p sta stb _ Hsa Hna Hcall. rewrite <- Hsa. now apply IH. }
    pose proof (send_fold depth cj (shapes st) (progeny ci_c) Hcalls
                  st1 st' Hs1 Hnode1 H) as Hfold.
    eapply send_shared_ext; [| exact (send_shared_trans _ _ _ _ _ Hvisit Hfold)].
    intros d. cbv beta. rewrite (reaches_inv (shapes st) ci d). split.
    + intros [<- | (p & Hpp & Hr)]; [now left |].
      right. exists (progeny ci_c), p. auto.
    + intros [-> | (prog' & p & Hc2 & Hpp & Hr)]; [now left |].
      right. exists p. split; [| exact Hr]. congruence.
  - inversion H; subst st'.
    eapply send_shared_ext; [| exact Hvisit].
    intros d. rewrite reaches_inv. split; [intros <-; now left |].
    intros [-> | (prog' & p & Hc2 & _)]; [reflexivity | congruence].
Qed.
End send_proofs.

(** The creation of the send tasks, in closed form. *)
Lemma send_create_spec e ci cj tg (st : state) ci_c sup sup_c :
  cells st !! ci = Some ci_c -> super ci_c = Some sup ->
  cells st !! sup = Some sup_c ->
  engine_addtasks_send_create e ci cj tg st =
  Ok (send_created e ci cj sup ci_c sup_c st,
      Some (send_xv_index (length (tasks (sched st))) sup_c),
      Some (send_xv_index (length (tasks (sched st))) sup_c + 1)%nat,
      (if extra_hydro_loop e
       then Some (send_xv_index (length (tasks (sched st))) sup_c + 3)%nat
       else tg),
      Some (send_xv_index (length (tasks (sched st))) sup_c + 2)%nat).
Proof.
  intros Hci Hsup Hsc.
  assert (Hlt : (sup < length (cells st))%nat)
    by (eapply lookup_lt_Some; eassumption).
  unfold engine_addtasks_send_create, cell_at.
  rewrite Hci. cbn [mbind result_bind]. rewrite Hsup.
  cbn [deref mbind result_bind]. rewrite Hsc. cbn [mbind result_bind].
  unfold send_created, send_xv_index, drifted, send_edges, send_tasks,
    mk_task.
  destruct (bool_decide (drift sup_c = None)) eqn:Hdrift.
  - cbv beta iota zeta delta [addtask scheduler_addtask set_cell].
    cbn [sched cells nr_links tasks unlocks]. rewrite Hsc.
    cbn [mbind result_bind sched cells nr_links tasks unlocks].
    destruct (extra_hydro_loop e);
      cbv beta iota zeta delta [cell_at addunlock scheduler_addunlock];
      cbn [sched cells nr_links tasks unlocks];
      rewrite (list_lookup_insert_eq _ _ _ Hlt);
      cbn [mbind result_bind sched cells nr_links tasks unlocks];
      rewrite ?length_app; cbn [length];
      rewrite <- ?app_assoc; cbn [app];
      repeat first [ match goal with |- @eq nat _ _ => lia end
                   | progress f_equal ].
  - cbv beta iota zeta delta [addtask scheduler_addtask].
    cbn [mbind result_bind sched cells nr_links tasks unlocks].
    rewrite (list_insert_id _ _ _ Hsc).
    destruct (extra_hydro_loop e);
      cbv beta iota zeta delta [cell_at addunlock scheduler_addunlock];
      cbn [sched cells nr_links tasks unlocks];
      rewrite Hsc;
      cbn [mbind result_bind sched cells nr_links tasks unlocks];
      rewrite ?length_app; cbn [length];
      rewrite <- ?app_assoc; cbn [app];
      repeat first [ match goal with |- @eq nat _ _ => lia end
                   | progress f_equal ].
Qed.

Lemma send_created_lookup e ci cj sup ci_c sup_c (st : state) a x :
  cells st !! sup = Some sup_c -> cells st !! a = Some x ->
  exists x', cells (send_created e ci cj sup ci_c sup_c st) !! a = Some x' /\
    nodeID x' = nodeID x /\ density x' = density x /\
    shape_of x' = shape_of x /\
    (a <> sup -> x' = x) /\
    (a = sup -> x' = drifted (length (tasks (sched st))) x).
Proof.
  intros Hsc Ha. unfold send_created. cbn [cells].
  destruct (decide (a = sup)) as [-> | Hne].
  - assert (x = sup_c) by congruence. subst x.
    rewrite list_lookup_insert_eq by (eapply lookup_lt_Some; eassumption).
    eexists. split; [reflexivity |]. unfold drifted.
    destruct (bool_decide (drift sup_c = None)); repeat split;
      first [reflexivity | congruence].
  - rewrite list_lookup_insert_ne by congruence.
    exists x. split; [exact Ha |]. repeat split; congruence.
Qed.

Lemma send_created_found e ci cj sup ci_c sup_c (st : state) node links b :
  cells st !! sup = Some sup_c ->
  density_for_node st node links = Ok b ->
  density_for_node (send_created e ci cj sup ci_c sup_c st) node links = Ok b.
Proof.
  intros Hsc. apply density_for_node_mono.
  - intros i tk Hi. unfold send_created. cbn [sched tasks].
    now apply lookup_app_l_Some.
  - intros a x Ha.
    destruct (send_created_lookup e ci cj sup ci_c sup_c st a x Hsc Ha)
      as (x' & Hx' & Hn & _).
    eauto.
Qed.

(** A cell with a density task for the node that is given no send tasks
    creates them, and goes on as if it had been given them. *)
Lemma send_head depth e ci cj (st : state) ci_c cj_c sup sup_c :
  with_mpi e = true ->
  cells st !! cj = Some cj_c -> cells st !! ci = Some ci_c ->
  density_for_node st (nodeID cj_c) (density ci_c) = Ok true ->
  super ci_c = Some sup -> cells st !! sup = Some sup_c ->
  engine_addtasks_send (S depth) e ci cj None None None None st =
  engine_addtasks_send (S depth) e ci cj
    (Some (send_xv_index (length (tasks (sched st))) sup_c))
    (Some (send_xv_index (length (tasks (sched st))) sup_c + 1)%nat)
    (if extra_hydro_loop e
     then Some (send_xv_index (length (tasks (sched st))) sup_c + 3)%nat
     else None)
    (Some (send_xv_index (length (tasks (sched st))) sup_c + 2)%nat)
    (send_created e ci cj sup ci_c sup_c st).
Proof.
  intros Hmpi Hcj Hci Hfound Hsup Hsc.
  rewrite (send_unfold e (Some _) _ _ _ depth ci cj
             (send_created e ci cj sup ci_c sup_c st) Hmpi)
    by discriminate.
  cbn [engine_addtasks_send]. rewrite Hmpi. cbn [negb]. unfold cell_at.
  rewrite Hcj, Hci. cbn [mbind result_bind].
  rewrite Hfound. cbn [mbind result_bind].
  unfold engine_addtasks_send_attach.
  rewrite (bool_decide_eq_true_2 (None = None)) by reflexivity.
  rewrite (send_create_spec e ci cj None st ci_c sup sup_c Hci Hsup Hsc).
  cbn [mbind result_bind].
  destruct (send_created_lookup e ci cj sup ci_c sup_c st cj cj_c Hsc Hcj)
    as (cj' & -> & Hn & _).
  destruct (send_created_lookup e ci cj sup ci_c sup_c st ci ci_c Hsc Hci)
    as (ci' & -> & _ & Hd & Hshape & _).
  cbn [mbind result_bind]. rewrite Hn, Hd.
  rewrite (send_created_found e ci cj sup ci_c sup_c st _ _ _ Hsc Hfound).
  cbn [mbind result_bind].
  injection Hshape as -> ->.
  destruct (engine_addtasks_send_link e ci _ _ _ _
              (send_created e ci cj sup ci_c sup_c st));
    reflexivity.
Qed.

(** *** The recursion does not stop for want of depth *)

Lemma bind_deep {A B} (m : result A) (f : A -> result B) :
  m <> Error "recursion too deep" ->
  (forall a, m = Ok a -> f a <> Error "recursion too deep") ->
  m ≫= f <> Error "recursion too deep".
Proof.
  intros Hm Hf. destruct m as [a | msg]; cbn; [now apply Hf |].
  intros [= ->]. now apply Hm.
Qed.

Lemma cell_at_deep (st : state) c : cell_at st c <> Error "recursion too deep".
Proof. unfold cell_at. destruct (cells st !! c); discriminate. Qed.

Lemma for_node_deep (st : state) node t :
  for_node st node t <> Error "recursion too deep".
Proof.
  unfold for_node, task_at, cell_at.
  destruct (tasks (sched st) !! t) as [tk |]; [| discriminate].
  cbn [mbind result_bind].
  destruct (ci tk) as [a |]; [| discriminate]. cbn [deref mbind result_bind].
  destruct (cells st !! a) as [x |]; [| discriminate].
  cbn [mbind result_bind].
  destruct (nodeID x =? node); [discriminate |].
  destruct (cj tk) as [c |]; [| discriminate].
  destruct (cells st !! c); discriminate.
Qed.

Lemma density_for_node_deep (st : state) node links :
  density_for_node st node links <> Error "recursion too deep".
Proof.
  induction links as [| t links IH]; [discriminate |].
  cbn [density_for_node]. apply bind_deep; [apply for_node_deep |].
  intros [|] _; [discriminate | exact IH].
Qed.

Lemma engine_addlink_deep e field set_field c t (st : state) :
  engine_addlink e field set_field c t st <> Error "recursion too deep".
Proof.
  unfold engine_addlink, cell_at, set_cell. cbn [cells].
  destruct (size_links e <=? nr_links st); [discriminate |].
  destruct (cells st !! c); discriminate.
Qed.

Lemma send_link_deep e ci t_xv t_rho t_gradient t_ti (st : state) :
  engine_addtasks_send_link e ci t_xv t_rho t_gradient t_ti st
    <> Error "recursion too deep".
Proof.
  unfold engine_addtasks_send_link.
  apply bind_deep; [apply engine_addlink_deep |]. intros st1 _.
  apply bind_deep; [apply engine_addlink_deep |]. intros st2 _.
  apply bind_deep.
  { destruct (extra_hydro_loop e); [apply engine_addlink_deep | discriminate]. }
  intros st3 _. apply engine_addlink_deep.
Qed.

(** The creation returns when the cell and its super cell are there. *)
Lemma send_create_ok e ci cj tg (st : state) :
  (exists ci_c sup sup_c, cells st !! ci = Some ci_c /\
     super ci_c = Some sup /\ cells st !! sup = Some sup_c) \/
  exists msg, engine_addtasks_send_create e ci cj tg st = Error msg /\
              msg <> "recursion too deep"%string.
Proof.
  destruct (cells st !! ci) as [ci_c |] eqn:Hci.
  - destruct (super ci_c) as [sup |] eqn:Hsup.
    + destruct (cells st !! sup) as [sup_c |] eqn:Hsc.
      * left. exists ci_c, sup, sup_c. auto.
      * right. unfold engine_addtasks_send_create, cell_at.
        rewrite Hci. cbn [mbind result_bind]. rewrite Hsup.
        cbn [deref mbind result_bind]. rewrite Hsc.
        eexists. split; [reflexivity | discriminate].
    + right. unfold engine_addtasks_send_create, cell_at.
      rewrite Hci. cbn [mbind result_bind]. rewrite Hsup.
      eexists. split; [reflexivity | discriminate].
  - right. unfold engine_addtasks_send_create, cell_at. rewrite Hci.
    eexists. split; [reflexivity | discriminate].
Qed.

Lemma send_created_shapes e ci cj sup ci_c sup_c (st : state) :
  cells st !! sup = Some sup_c ->
  shapes (send_created e ci cj sup ci_c sup_c st) = shapes st.
Proof.
  intros Hsc. unfold shapes, send_created. cbn [cells].
  rewrite list_fmap_insert. apply list_insert_id.
  rewrite list_lookup_fmap, Hsc. cbn. f_equal. unfold drifted.
  now destruct (bool_decide (drift sup_c = None)).
Qed.

Lemma send_link_shapes e ci t_xv t_rho t_gradient t_ti (st st' : state) :
  engine_addtasks_send_link e ci t_xv t_rho t_gradient t_ti st = Ok st' ->
  shapes st' = shapes st.
Proof.
  intros H.
  apply send_link_spec in H as (_ & _ & _ & _ & dl & dl' & Hdl & Hcs & Hs).
  unfold shapes. rewrite Hcs, list_fmap_insert. apply list_insert_id.
  rewrite list_lookup_fmap, Hdl. cbn. f_equal.
  destruct Hs as (Hu & _). now apply unsend_fields in Hu.
Qed.

(** Attaching the send tasks leaves the hierarchy as it is, and does not
    stop for want of depth. *)
Lemma send_attach_shapes e ci cj t_xv t_rho t_gradient t_ti found
    (st : state) :
  engine_addtasks_send_attach e ci cj t_xv t_rho t_gradient t_ti found st
    <> Error "recursion too deep" /\
  forall st1 a b c d,
    engine_addtasks_send_attach e ci cj t_xv t_rho t_gradient t_ti found st
      = Ok (st1, a, b, c, d) ->
    shapes st1 = shapes st.
Proof.
  unfold engine_addtasks_send_attach. destruct found.
  2:{ split; [discriminate |]. now intros st1 a b c d [= <- _ _ _ _]. }
  destruct (bool_decide (t_xv = None)).
  - destruct (send_create_ok e ci cj t_gradient st)
      as [(ci_c & sup & sup_c & Hci & Hsup & Hsc) | (msg & -> & Hmsg)].
    + rewrite (send_create_spec e ci cj t_gradient st ci_c sup sup_c
                 Hci Hsup Hsc).
      cbn [mbind result_bind]. split.
      * apply bind_deep; [apply send_link_deep | discriminate].
      * intros st1 a b c d H. apply result_bind_ok in H as (st2 & H2 & H).
        injection H as <- _ _ _ _.
        rewrite (send_link_shapes _ _ _ _ _ _ _ _ H2).
        now apply send_created_shapes.
    + cbn [mbind result_bind]. split; [congruence | discriminate].
  - cbn [mbind result_bind]. split.
    + apply bind_deep; [apply send_link_deep | discriminate].
    + intros st1 a b c d H. apply result_bind_ok in H as (st2 & H2 & H).
      injection H as <- _ _ _ _. eapply send_link_shapes; eassumption.
Qed.

(** When [engine_addtasks_send] returns, the hierarchy is as it was. *)
Lemma send_shapes depth e cj :
  forall ci t_xv t_rho t_gradient t_ti (st st' : state),
    engine_addtasks_send depth e ci cj t_xv t_rho t_gradient t_ti st = Ok st' ->
    shapes st' = shapes st.
Proof.
  induction depth as [| depth IH];
    intros ci t_xv t_rho t_gradient t_ti st st' H.
  { cbn in H. destruct (negb (with_mpi e)); discriminate. }
  cbn [engine_addtasks_send] in H.
  destruct (negb (with_mpi e)); [discriminate |].
  apply result_bind_ok in H as (cj_c & _ & H).
  apply result_bind_ok in H as (ci_c & _ & H).
  apply result_bind_ok in H as (found & _ & H).
  apply result_bind_ok in H as (r & Hr & H).
  destruct r as [[[[st1 a] b] c] d].
  apply send_attach_shapes in Hr. rewrite <- Hr.
  destruct (split ci_c); [| now inversion H].
  clear Hr. revert st1 H.
  induction (progeny ci_c) as [| k ps IHps]; intros st1 H;
    [now inversion H |].
  cbn [foldl mbind result_bind] in H.
  destruct k as [p |].
  - destruct (engine_addtasks_send depth e p cj a b c d st1)
      as [st2 | msg] eqn:H2;
      [| rewrite foldl_error in H by reflexivity; discriminate].
    rewrite (IHps st2 H). now apply (IH p a b c d).
  - now apply IHps.
Qed.

Lemma send_step depth e ci cj t_xv t_rho t_gradient t_ti (st : state) :
  engine_addtasks_send (S depth) e ci cj t_xv t_rho t_gradient t_ti st =
  if negb (with_mpi e)
  then Error "SWIFT was not compiled with MPI support."
  else
    cj_c ← cell_at st cj;
    ci_c ← cell_at st ci;
    found ← density_for_node st (nodeID cj_c) (density ci_c);
    r ← engine_addtasks_send_attach e ci cj t_xv t_rho t_gradient t_ti
           found st;
    let '(st, t_xv, t_rho, t_gradient, t_ti) := r in
    if split ci_c then
      foldl (fun st k =>
               st ← st;
               match k with
               | Some p => engine_addtasks_send depth e p cj t_xv t_rho
                             t_gradient t_ti st
               | None => Ok st
               end) (Ok st) (progeny ci_c)
    else Ok st.
Proof. reflexivity. Qed.

Lemma send_deep n e cj shs ci :
  height_le shs ci n ->
  forall t_xv t_rho t_gradient t_ti (st : state),
    shapes st = shs ->
    engine_addtasks_send (S n) e ci cj t_xv t_rho t_gradient t_ti st
      <> Error "recursion too deep".
Proof.
  intros Hh.
  induction Hh as [c prog n Hc | c prog n Hc Hprog IH];
    intros t_xv t_rho t_gradient t_ti st Hs.
  - rewrite send_step.
    destruct (negb (with_mpi e)); [discriminate |].
    apply bind_deep; [apply cell_at_deep |]. intros cj_c _.
    apply bind_deep; [apply cell_at_deep |]. intros ci_c Hci.
    apply bind_deep; [apply density_for_node_deep |]. intros found _.
    apply bind_deep; [apply send_attach_shapes |].
    intros [[[[st1 a] b] c'] d] _.
    unfold cell_at in Hci. rewrite <- Hs, comm_shapes_lookup in Hc.
    destruct (cells st !! c) as [x |]; [| discriminate].
    injection Hci as <-. injection Hc as -> _. discriminate.
  - rewrite send_step.
    destruct (negb (with_mpi e)); [discriminate |].
    apply bind_deep; [apply cell_at_deep |]. intros cj_c _.
    apply bind_deep; [apply cell_at_deep |]. intros ci_c Hci.
    apply bind_deep; [apply density_for_node_deep |]. intros found _.
    apply bind_deep; [apply send_attach_shapes |].
    intros [[[[st1 a] b] c'] d] Hr.
    apply send_attach_shapes in Hr.
    unfold cell_at in Hci. pose proof Hc as Hc'.
    rewrite <- Hs, comm_shapes_lookup in Hc'.
    destruct (cells st !! c) as [x |]; [| discriminate].
    injection Hci as <-. injection Hc' as -> <-.
    assert (Hs1 : shapes st1 = shs) by congruence.
    clear Hr Hc Hprog. revert st1 Hs1 IH.
    induction (progeny x) as [| k ps IHps]; intros st1 Hs1 IH;
      [cbn; discriminate |].
    cbn [foldl mbind result_bind].
    destruct k as [p |].
    + destruct (engine_addtasks_send (S n) e p cj a b c' d st1)
        as [st2 | msg] eqn:H2.
      * apply IHps.
        -- rewrite <- Hs1. eapply send_shapes; eassumption.
        -- intros q Hq. apply IH. now right.
      * rewrite foldl_error by reflexivity. rewrite <- H2.
        apply IH; [now left | exact Hs1].
    + apply IHps; [exact Hs1 |].
      intros q Hq. apply IH. now right.
Qed.

Lemma send_created_links e ci cj sup ci_c sup_c (st : state) :
  cells st !! sup = Some sup_c ->
  send_links (send_created e ci cj sup ci_c sup_c st) = send_links st.
Proof.
  intros Hsc. unfold send_links, send_created. cbn [cells].
  pose proof (sum_send_links_insert (cells st) sup sup_c Hsc
                (drifted (length (tasks (sched st))) sup_c)) as Hsum.
  assert (E : send_xv (drifted (length (tasks (sched st))) sup_c)
              = send_xv sup_c)
    by (unfold drifted; now destruct (bool_decide (drift sup_c = None))).
  rewrite E in Hsum. lia.
Qed.

(** X25: with MPI, on a hierarchy of cells of height at most [n],
    [engine_addtasks_send] called without send tasks on a cell [ci] that
    has a density task for the node of [cj] does not stop for want of
    depth, and when it returns it has added one set of send tasks for the
    whole hierarchy below [ci]: first a drift task for the super cell of
    [ci] if that had none, then the xv, rho and tend tasks (and then the
    gradient task with [EXTRA_HYDRO_LOOP]) from [ci] to [cj], with the
    flags [4 * tag], [4 * tag + 1], [4 * tag + 2] (and [4 * tag + 3]). The
    new unlock edges are those of the super cell of [ci]: rho -> kick2,
    ghost -> rho, xv -> ghost (with [EXTRA_HYDRO_LOOP]: gradient -> kick2,
    extra_ghost -> gradient, rho -> extra_ghost, ghost -> rho,
    xv -> ghost), then drift -> xv and timestep -> tend. A cell has as many
    more links to each of these tasks as it has been linked, which is at
    least once exactly for the cells that the recursion reaches through
    split cells and that have a density task for the node; the super cell
    has its drift task; a cell is otherwise as it was. The links come from
    the link table, three for a linked cell and four with the gradient
    task, and the table is not overrun. *)
Theorem engine_addtasks_send_shared e n ci cj ci_c cj_c sup sup_c
    (st : state) :
  with_mpi e = true ->
  height_le (shapes st) ci n ->
  cells st !! cj = Some cj_c ->
  cells st !! ci = Some ci_c ->
  density_for_node st (nodeID cj_c) (density ci_c) = Ok true ->
  super ci_c = Some sup ->
  cells st !! sup = Some sup_c ->
  let n0 := length (tasks (sched st)) in
  let xv := send_xv_index n0 sup_c in
  let t_xv := Some xv in
  let t_rho := Some (xv + 1)%nat in
  let t_gradient := if extra_hydro_loop e then Some (xv + 3)%nat else None in
  let t_ti := Some (xv + 2)%nat in
  engine_addtasks_send (S n) e ci cj None None None None st
    <> Error "recursion too deep" /\
  forall st',
    engine_addtasks_send (S n) e ci cj None None None None st = Ok st' ->
    tasks (sched st') =
      tasks (sched st) ++
      (if bool_decide (drift sup_c = None)
       then [mk_task task_type_drift task_subtype_none 0 (Some sup) None
               false]
       else []) ++
      send_tasks e ci cj ci_c /\
    unlocks (sched st') =
      unlocks (sched st) ++
      send_edges e xv (xv + 1) (xv + 3) (xv + 2) (drifted n0 sup_c) /\
    nr_links st' - nr_links st =
      links_per_cell e *
      (Z.of_nat (send_links st') - Z.of_nat (send_links st)) /\
    nr_links st <= nr_links st' /\
    (nr_links st < nr_links st' -> nr_links st' <= size_links e) /\
    (forall links b, density_for_node st (nodeID cj_c) links = Ok b ->
                     density_for_node st' (nodeID cj_c) links = Ok b) /\
    forall d dl, cells st !! d = Some dl ->
      exists k dl',
        cells st' !! d = Some dl' /\
        sent e t_xv t_rho t_gradient t_ti k
          (if bool_decide (d = sup) then drifted n0 dl else dl) dl' /\
        (k <> 0%nat <->
         reaches (shapes st) ci d /\
         density_for_node st' (nodeID cj_c) (density dl) = Ok true).
Proof.
  intros Hmpi Hh Hcj Hci Hfound Hsup Hsc n0 xv t_xv t_rho t_gradient t_ti.
  split; [now apply (send_deep n e cj (shapes st) ci Hh) |].
  intros st' H.
  rewrite (send_head n e ci cj st ci_c cj_c sup sup_c
             Hmpi Hcj Hci Hfound Hsup Hsc) in H.
  fold n0 in H. fold xv in H. fold t_xv in H. fold t_rho in H.
  fold t_ti in H. fold t_gradient in H.
  set (st1 := send_created e ci cj sup ci_c sup_c st) in *.
  assert (Hs1 : shapes st1 = shapes st) by now apply send_created_shapes.
  assert (Hnode : nodeID <$> cells st1 !! cj = Some (nodeID cj_c)).
  { destruct (send_created_lookup e ci cj sup ci_c sup_c st cj cj_c Hsc Hcj)
      as (cj' & Hcj' & Hn & _).
    fold st1 in Hcj'. rewrite Hcj'. cbn. now rewrite Hn. }
  assert (Hxv : t_xv <> None) by discriminate.
  pose proof (send_tasks_shared e (nodeID cj_c) t_xv t_rho t_gradient t_ti
                (S n) cj Hmpi Hxv ci st1 st' Hnode H) as Hsh.
  pose proof (fun links b =>
                send_shared_found e (nodeID cj_c) t_xv t_rho t_gradient t_ti
                  _ st1 st' links b Hsh) as Hf.
  destruct Hsh as (Hsched & Hn1 & Hn2 & Hn3 & Hl & Hc).
  rewrite Hs1 in Hc.
  split; [now rewrite Hsched |]. split; [now rewrite Hsched |].
  split.
  { rewrite <- (send_created_links e ci cj sup ci_c sup_c st Hsc).
    exact Hn3. }
  split; [exact Hn1 |]. split; [exact Hn2 |].
  split.
  { intros links b Hb. apply Hf.
    now apply send_created_found. }
  intros d dl Hd.
  destruct (send_created_lookup e ci cj sup ci_c sup_c st d dl Hsc Hd)
    as (x' & Hx' & _ & Hdens & _ & Hne & Heq).
  fold st1 in Hx'.
  destruct (Hc d x' Hx') as (k & dl' & Hd' & Hsent & Hk).
  exists k, dl'. split; [exact Hd' |].
  split.
  { destruct (decide (d = sup)) as [E | E].
    - rewrite (bool_decide_eq_true_2 _ E). rewrite (Heq E) in Hsent.
      exact Hsent.
    - rewrite (bool_decide_eq_false_2 _ E). rewrite (Hne E) in Hsent.
      exact Hsent. }
  rewrite Hk, Hdens, Hf. reflexivity.
Qed.

(** ** The example *)

Lemma example_height_foreign : height_le (shapes example_state) 3 1.
Proof.
  apply (height_le_split _ 3%nat [Some 4%nat] 0); [reflexivity |].
  intros p Hp. apply list_elem_of_singleton in Hp. injection Hp as ->.
  now apply (height_le_leaf _ 4%nat [] 0).
Qed.

Lemma example_height_top : height_le (shapes example_state) 0 1.
Proof.
  apply (height_le_split _ 0%nat [Some 1%nat; Some 2%nat] 0);
    [reflexivity |].
  intros p Hp. apply elem_of_cons in Hp as [Hp | Hp].
  - injection Hp as ->. now apply (height_le_leaf _ 1%nat [] 0).
  - apply list_elem_of_singleton in Hp. injection Hp as ->.
    now apply (height_le_leaf _ 2%nat [] 0).
Qed.

Lemma engine_addtasks_recv_shared_witness :
  let e := example_engine in
  let st := example_state in
  let cl := example_foreign in
  let n0 := length (tasks (sched st)) in
  let t_xv := Some n0 in
  let t_rho := Some (n0 + 1)%nat in
  let t_gradient := if extra_hydro_loop e then Some (n0 + 3)%nat else None in
  let t_ti := Some (n0 + 2)%nat in
  with_mpi e = true /\
  height_le (shapes st) 3 1 /\
  cells st !! 3%nat = Some cl /\
  density cl <> [] /\
  exists st',
    engine_addtasks_recv 2 e 3 None None None None st = Ok st' /\
    tasks (sched st') = tasks (sched st) ++ recv_tasks e 3 cl /\
    nr_links st' = nr_links st /\
    (forall d dl, reaches (shapes st) 3 d -> cells st !! d = Some dl ->
       cells st' !! d = Some (set_recv t_xv t_rho t_gradient t_ti dl)) /\
    (forall d, ~ reaches (shapes st) 3 d -> cells st' !! d = cells st !! d) /\
    exists more,
      unlocks (sched st') = unlocks (sched st) ++ more /\
      forall ed, ed ∈ more <->
                 exists d dl, reaches (shapes st) 3 d /\
                              cells st !! d = Some dl /\
                              ed ∈ recv_edges e t_xv t_rho t_gradient t_ti dl.
Proof.
  intros e st cl n0 t_xv t_rho t_gradient t_ti.
  assert (Hd : density cl <> []) by discriminate.
  split; [reflexivity |]. split; [exact example_height_foreign |].
  split; [reflexivity |]. split; [exact Hd |].
  exact (engine_addtasks_recv_shared e 1 3 cl st eq_refl
           example_height_foreign eq_refl Hd).
Defined.

(** The foreign cell gets the recv tasks with the tags 36, 37 and 38, its
    progeny points to the same tasks, and the density pairs and the sort of
    the cell come after the xv task. *)
Example example_recv_tasks :
  drop 7 (tasks (sched example_received)) =
    [ mk_task task_type_recv task_subtype_xv 36 (Some 3%nat) None false;
      mk_task task_type_recv task_subtype_rho 37 (Some 3%nat) None false;
      mk_task task_type_recv task_subtype_tend 38 (Some 3%nat) None false ] /\
  unlocks (sched example_received) =
    [ (Some 7, Some 1); (Some 1, Some 8); (Some 7, Some 0);
      (Some 0, Some 8); (Some 7, Some 3) ]%nat /\
  recvs <$> cells example_received =
    [ (None, None, None, None); (None, None, None, None);
      (None, None, None, None); (Some 7, Some 8, None, Some 9);
      (Some 7, Some 8, None, Some 9) ]%nat.
Proof. vm_compute. repeat split. Qed.

Lemma engine_addtasks_send_shared_witness :
  let e := example_engine in
  let st := example_state in
  let ci_c := example_top in
  let cj_c := example_foreign in
  let sup_c := example_top in
  let n0 := length (tasks (sched st)) in
  let xv := send_xv_index n0 sup_c in
  let t_xv := Some xv in
  let t_rho := Some (xv + 1)%nat in
  let t_gradient := if extra_hydro_loop e then Some (xv + 3)%nat else None in
  let t_ti := Some (xv + 2)%nat in
  with_mpi e = true /\
  height_le (shapes st) 0 1 /\
  cells st !! 3%nat = Some cj_c /\
  cells st !! 0%nat = Some ci_c /\
  density_for_node st (nodeID cj_c) (density ci_c) = Ok true /\
  super ci_c = Some 0%nat /\
  engine_addtasks_send 2 e 0 3 None None None None st = Ok example_sent /\
  engine_addtasks_send 2 e 0 3 None None None None st
    <> Error "recursion too deep" /\
  forall st',
    engine_addtasks_send 2 e 0 3 None None None None st = Ok st' ->
    tasks (sched st') =
      tasks (sched st) ++
      (if bool_decide (drift sup_c = None)
       then [mk_task task_type_drift task_subtype_none 0 (Some 0%nat) None
               false]
       else []) ++
      send_tasks e 0 3 ci_c /\
    unlocks (sched st') =
      unlocks (sched st) ++
      send_edges e xv (xv + 1) (xv + 3) (xv + 2) (drifted n0 sup_c) /\
    nr_links st' - nr_links st =
      links_per_cell e *
      (Z.of_nat (send_links st') - Z.of_nat (send_links st)) /\
    nr_links st <= nr_links st' /\
    (nr_links st < nr_links st' -> nr_links st' <= size_links e) /\
    (forall links b, density_for_node st (nodeID cj_c) links = Ok b ->
                     density_for_node st' (nodeID cj_c) links = Ok b) /\
    forall d dl, cells st !! d = Some dl ->
      exists k dl',
        cells st' !! d = Some dl' /\
        sent e t_xv t_rho t_gradient t_ti k
          (if bool_decide (d = 0%nat) then drifted n0 dl else dl) dl' /\
        (k <> 0%nat <->
         reaches (shapes st) 0 d /\
         density_for_node st' (nodeID cj_c) (density dl) = Ok true).
Proof.
  intros e st ci_c cj_c sup_c n0 xv t_xv t_rho t_gradient t_ti.
  split; [reflexivity |]. split; [exact example_height_top |].
  split; [reflexivity |]. split; [reflexivity |].
  split; [reflexivity |]. split; [reflexivity |].
  split; [vm_compute; reflexivity |].
  exact (engine_addtasks_send_shared e 1 0 3 ci_c cj_c 0 sup_c st eq_refl
           example_height_top eq_refl eq_refl eq_refl eq_refl eq_refl).
Defined.

(** The top cell gets a drift task and the send tasks with the tags 20, 21
    and 22 for the foreign cell; the send tasks are linked by the top cell
    and by its first progeny, whose density pair is with the foreign cell,
    and not by the second, which has a density self only; six links are
    taken. The xv task unlocks the ghost of the top cell, the ghost the rho
    task, and the rho task the kick2. *)
Example example_send_tasks :
  drop 7 (tasks (sched example_sent)) =
    [ mk_task task_type_drift task_subtype_none 0 (Some 0%nat) None false;
      mk_task task_type_send task_subtype_xv 20 (Some 0%nat) (Some 3%nat)
        false;
      mk_task task_type_send task_subtype_rho 21 (Some 0%nat) (Some 3%nat)
        false;
      mk_task task_type_send task_subtype_tend 22 (Some 0%nat) (Some 3%nat)
        false ] /\
  unlocks (sched example_sent) =
    [ (Some 9, Some 5); (Some 4, Some 9); (Some 8, Some 4);
      (Some 7, Some 8); (Some 6, Some 10) ]%nat /\
  (fun c => (drift c, send_xv c, send_rho c, send_ti c)) <$>
    cells example_sent =
    [ (Some 7, [Some 8], [Some 9], [Some 10]);
      (None, [Some 8], [Some 9], [Some 10]);
      (None, [], [], []); (None, [], [], []); (None, [], [], []) ]%nat /\
  nr_links example_sent = 6.
Proof. vm_compute. repeat split. Qed.

(** Without MPI the functions abort. *)
Example example_without_mpi :
  let e := {| size_links := 16; extra_hydro_loop := false;
              with_mpi := false |} in
  engine_addtasks_recv 2 e 3 None None None None example_state =
    Error "SWIFT was not compiled with MPI support." /\
  engine_addtasks_send 2 e 0 3 None None None None example_state =
    Error "SWIFT was not compiled with MPI support.".
Proof. split; reflexivity. Qed.
End CommProofs.

(* ===================================================================== *)
(** * Proofs: the barrier of the runners *)
(* ===================================================================== *)

Module BarrierProofs.
Import Barrier.

Lemma sum_list_with_insert {A} (f : A -> nat) (l : list A) i x y :
  l !! i = Some x ->
  (sum_list_with f (<[i := y]> l) + f x = sum_list_with f l + f y)%nat.
Proof.
  revert i. induction l as [| c l IH]; intros i Hi; [discriminate |].
  destruct i as [| i].
  - injection Hi as ->. cbn. lia.
  - change (<[S i := y]> (c :: l)) with (c :: <[i := y]> l).
    cbn [sum_list_with]. specialize (IH i Hi). lia.
Qed.

Lemma sum_list_alter_S (l : list nat) i x :
  l !! i = Some x -> sum_list (alter S i l) = S (sum_list l).
Proof.
  revert i. induction l as [| c l IH]; intros i Hi; [discriminate |].
  destruct i as [| i].
  - reflexivity.
  - change (alter S (S i) (c :: l)) with (c :: alter S i l).
    cbn [sum_list]. rewrite (IH i Hi). lia.
Qed.

Lemma sum_list_replicate_0 n : sum_list (replicate n 0%nat) = 0%nat.
Proof. induction n as [| n IH]; [reflexivity | exact IH]. Qed.

Lemma working_insert (st : state) rs tid r r' :
  runners st = rs -> rs !! tid = Some r ->
  (sum_list_with
     (fun r => if bool_decide (r = Working) then 1%nat else 0%nat)
     (<[tid := r']> rs) + (if bool_decide (r = Working) then 1 else 0) =
   working st + (if bool_decide (r' = Working) then 1 else 0))%nat.
Proof.
  intros <- Hr. unfold working.
  exact (sum_list_with_insert _ _ _ _ _ Hr).
Qed.

Lemma engine_init_inv nr_threads : barrier_inv nr_threads (engine_init nr_threads).
Proof.
  unfold barrier_inv, engine_init, working. cbn.
  split; [apply length_replicate |]. split; [apply length_replicate |].
  split; [split; auto |].
  split.
  { intros tid. split; [discriminate |]. intros H.
    apply lookup_replicate in H as (H & _). discriminate. }
  split.
  { f_equal. induction nr_threads as [| n IH]; [reflexivity |].
    cbn. now rewrite <- IH. }
  split; [now rewrite sum_list_replicate_0 |]. split; [lia |].
  split; [| discriminate].
  intros tid k H Hk. apply lookup_replicate in H as (H & _). congruence.
Qed.

(** Every step keeps what holds of the barrier. *)
Lemma step_inv nr_threads ev (st st' : state) :
  barrier_inv nr_threads st -> step ev st = Some st' ->
  barrier_inv nr_threads st'.
Proof.
  intros (Hlr & Hlp & Heng & Hrun & Hwork & Hsum & Hpos & Hpass & Hhold) H.
  destruct ev as [tid | tid | tid | nr | | |]; cbn [step] in H.
  - (* a runner enters the barrier *)
    unfold engine_barrier_enter in H.
    destruct (runners st !! tid) as [[| |] |] eqn:Hr; try discriminate.
    destruct (barrier_mutex st) as [m |] eqn:Hm; [discriminate |].
    injection H as <-. unfold barrier_inv, set_runner, working.
    cbn [barrier_running barrier_launch barrier_launchcount barrier_mutex
         engine runners passes].
    pose proof (working_insert st _ tid Working Testing eq_refl Hr) as Hw.
    rewrite bool_decide_eq_true_2 in Hw by reflexivity.
    rewrite bool_decide_eq_false_2 in Hw by discriminate.
    split; [now rewrite length_insert |]. split; [exact Hlp |].
    split.
    { split; [discriminate |]. intros He. apply Heng in He. discriminate. }
    split.
    { intros t. destruct (decide (t = tid)) as [-> | Hne].
      - rewrite list_lookup_insert_eq
          by (eapply lookup_lt_Some; eassumption).
        tauto.
      - rewrite list_lookup_insert_ne by congruence.
        rewrite <- Hrun. split; [congruence | discriminate]. }
    split; [lia |]. split; [exact Hsum |]. split; [exact Hpos |].
    split; [exact Hpass |].
    intros He. assert (None = Some Engine) by (apply Heng; now left).
    discriminate.
  - (* a runner tests whether the barrier is open *)
    unfold engine_barrier_test in H.
    destruct (runners st !! tid) as [[| |] |] eqn:Hr; try discriminate.
    assert (Hm : barrier_mutex st = Some (Runner tid)) by now apply Hrun.
    assert (Hnoeng : ~ (engine st = Holding \/ engine st = EngineTesting)).
    { intros He. apply Heng in He. congruence. }
    destruct ((barrier_launch st =? 0) ||
              (barrier_launchcount st <=? Z.of_nat tid)) eqn:Hclosed;
      injection H as <-; unfold barrier_inv, set_runner, working;
      cbn [barrier_running barrier_launch barrier_launchcount barrier_mutex
           engine runners passes].
    + pose proof (working_insert st _ tid Testing Waiting eq_refl Hr) as Hw.
      rewrite !bool_decide_eq_false_2 in Hw by discriminate.
      split; [now rewrite length_insert |]. split; [exact Hlp |].
      split; [split; [discriminate | intros He; now apply Hnoeng in He] |].
      split.
      { intros t. split; [discriminate |].
        destruct (decide (t = tid)) as [-> | Hne].
        - rewrite list_lookup_insert_eq
            by (eapply lookup_lt_Some; eassumption).
          discriminate.
        - rewrite list_lookup_insert_ne by congruence.
          intros Ht. apply Hrun in Ht. congruence. }
      split; [lia |]. split; [exact Hsum |]. split; [exact Hpos |].
      split; [exact Hpass |].
      intros He. exfalso. apply Hnoeng. now left.
    + apply orb_false_iff in Hclosed as (Hl & Hc).
      apply Z.eqb_neq in Hl. apply Z.leb_gt in Hc.
      pose proof (working_insert st _ tid Testing Working eq_refl Hr) as Hw.
      rewrite bool_decide_eq_false_2 in Hw by discriminate.
      rewrite bool_decide_eq_true_2 in Hw by reflexivity.
      assert (Hp : exists k, passes st !! tid = Some k).
      { apply lookup_lt_is_Some_2. rewrite Hlp, <- Hlr.
        eapply lookup_lt_Some; eassumption. }
      destruct Hp as (k & Hk).
      split; [now rewrite length_insert |].
      split; [now rewrite length_alter |].
      split; [split; [discriminate | intros He; now apply Hnoeng in He] |].
      split.
      { intros t. split; [discriminate |].
        destruct (decide (t = tid)) as [-> | Hne].
        - rewrite list_lookup_insert_eq
            by (eapply lookup_lt_Some; eassumption).
          discriminate.
        - rewrite list_lookup_insert_ne by congruence.
          intros Ht. apply Hrun in Ht. congruence. }
      split; [lia |].
      split; [rewrite (sum_list_alter_S _ _ _ Hk); lia |].
      split; [lia |].
      split.
      { intros t j Ht Hj. destruct (decide (t = tid)) as [-> | Hne].
        - exact Hc.
        - rewrite list_lookup_alter_ne in Ht by congruence.
          now apply (Hpass t j). }
      intros He. exfalso. apply Hnoeng. now left.
  - (* a runner wakes *)
    unfold engine_barrier_wake in H.
    destruct (runners st !! tid) as [[| |] |] eqn:Hr; try discriminate.
    destruct (barrier_mutex st) as [m |] eqn:Hm; [discriminate |].
    injection H as <-. unfold barrier_inv, set_runner, working.
    cbn [barrier_running barrier_launch barrier_launchcount barrier_mutex
         engine runners passes].
    pose proof (working_insert st _ tid Waiting Testing eq_refl Hr) as Hw.
    rewrite !bool_decide_eq_false_2 in Hw by discriminate.
    split; [now rewrite length_insert |]. split; [exact Hlp |].
    split.
    { split; [discriminate |]. intros He. apply Heng in He. discriminate. }
    split.
    { intros t. destruct (decide (t = tid)) as [-> | Hne].
      - rewrite list_lookup_insert_eq
          by (eapply lookup_lt_Some; eassumption).
        tauto.
      - rewrite list_lookup_insert_ne by congruence.
        rewrite <- Hrun. split; [congruence | discriminate]. }
    split; [lia |]. split; [exact Hsum |]. split; [exact Hpos |].
    split; [exact Hpass |].
    intros He. assert (None = Some Engine) by (apply Heng; now left).
    discriminate.
  - (* the engine launches the runners *)
    unfold engine_launch_open in H.
    destruct (engine st) eqn:He; try discriminate.
    injection H as <-. unfold barrier_inv, working.
    cbn [barrier_running barrier_launch barrier_launchcount barrier_mutex
         engine runners passes].
    assert (Hm : barrier_mutex st = Some Engine) by (apply Heng; now left).
    split; [exact Hlr |]. split; [now rewrite length_replicate |].
    split; [split; [discriminate | intros [? | ?]; discriminate] |].
    split.
    { intros t. split; [discriminate |]. intros Ht. apply Hrun in Ht.
      congruence. }
    split; [exact Hwork |].
    split; [rewrite sum_list_replicate_0; lia |]. split; [lia |].
    split; [| discriminate].
    intros t k Ht Hk. apply lookup_replicate in Ht as (Ht & _). congruence.
  - (* the engine has started the scheduler *)
    unfold engine_launch_started in H.
    destruct (engine st) eqn:He; try discriminate.
    destruct (barrier_mutex st) as [m |] eqn:Hm; [discriminate |].
    injection H as <-. unfold barrier_inv, set_engine, working.
    cbn [barrier_running barrier_launch barrier_launchcount barrier_mutex
         engine runners passes].
    split; [exact Hlr |]. split; [exact Hlp |].
    split; [split; auto |].
    split.
    { intros t. split; [discriminate |]. intros Ht. apply Hrun in Ht.
      discriminate. }
    split; [exact Hwork |]. split; [exact Hsum |]. split; [exact Hpos |].
    split; [exact Hpass | discriminate].
  - (* the engine tests whether the runners are in *)
    unfold engine_wait_test in H.
    destruct (engine st) eqn:He; try discriminate.
    assert (Hm : barrier_mutex st = Some Engine) by (apply Heng; now right).
    destruct (negb (barrier_launch st =? 0) ||
              negb (barrier_running st =? 0)) eqn:Hout;
      injection H as <-; unfold barrier_inv, set_engine, working;
      cbn [barrier_running barrier_launch barrier_launchcount barrier_mutex
           engine runners passes].
    + split; [exact Hlr |]. split; [exact Hlp |].
      split; [split; [discriminate | intros [? | ?]; discriminate] |].
      split.
      { intros t. split; [discriminate |]. intros Ht. apply Hrun in Ht.
        congruence. }
      split; [exact Hwork |]. split; [exact Hsum |]. split; [exact Hpos |].
      split; [exact Hpass | discriminate].
    + apply orb_false_iff in Hout as (Hl & Hr).
      apply negb_false_iff, Z.eqb_eq in Hl, Hr.
      split; [exact Hlr |]. split; [exact Hlp |].
      split; [split; auto |].
      split; [exact Hrun |].
      split; [exact Hwork |]. split; [exact Hsum |]. split; [exact Hpos |].
      split; [exact Hpass | auto].
  - (* the engine wakes *)
    unfold engine_wait_wake in H.
    destruct (engine st) eqn:He; try discriminate.
    destruct (barrier_mutex st) as [m |] eqn:Hm; [discriminate |].
    injection H as <-. unfold barrier_inv, set_engine, working.
    cbn [barrier_running barrier_launch barrier_launchcount barrier_mutex
         engine runners passes].
    split; [exact Hlr |]. split; [exact Hlp |].
    split; [split; auto |].
    split.
    { intros t. split; [discriminate |]. intros Ht. apply Hrun in Ht.
      discriminate. }
    split; [exact Hwork |]. split; [exact Hsum |]. split; [exact Hpos |].
    split; [exact Hpass | discriminate].
Qed.

Lemma run_inv nr_threads evs (st st' : state) :
  barrier_inv nr_threads st -> run evs st = Some st' ->
  barrier_inv nr_threads st'.
Proof.
  unfold run. revert st. induction evs as [| ev evs IH]; intros st Hinv H.
  - now injection H as <-.
  - cbn [foldl mbind option_bind] in H.
    destruct (step ev st) as [st1 |] eqn:H1.
    + eapply IH; [| exact H]. eapply step_inv; eassumption.
    + exfalso. clear -H. induction evs as [| ev' evs IH]; [discriminate |].
      now apply IH.
Qed.

(** With no runner at work and none with the mutex, all are waiting. *)
Lemma all_waiting nr_threads (st : state) :
  barrier_inv nr_threads st -> barrier_mutex st = Some Engine ->
  barrier_running st = 0 ->
  forall tid, (tid < nr_threads)%nat -> runners st !! tid = Some Waiting.
Proof.
  intros (Hlr & _ & _ & Hrun & Hwork & _) Hm Hr tid Htid.
  destruct (lookup_lt_is_Some_2 (runners st) tid) as (r & Hl); [lia |].
  destruct r; [| | exact Hl].
  - exfalso. unfold working in Hwork.
    assert (Hpos : (0 < sum_list_with
                      (fun r => if bool_decide (r = Working) then 1%nat
                                else 0%nat) (runners st))%nat).
    { clear -Hl. revert tid Hl.
      induction (runners st) as [| r rs IH]; intros tid Hl; [discriminate |].
      destruct tid as [| tid].
      - injection Hl as ->. cbn [sum_list_with].
        rewrite bool_decide_eq_true_2 by reflexivity. lia.
      - cbn [sum_list_with]. specialize (IH tid Hl). lia. }
    lia.
  - apply Hrun in Hl. congruence.
Qed.
(** X26: however the threads are scheduled after [engine_init] has created
    the runners, [barrier_running] is the number of runners at work outside
    [engine_barrier], a runner has the mutex exactly while it is at the
    test of the barrier's loop, and [barrier_launch] is what is left of the
    last [nr_runners]. Whenever [engine_init] or [engine_launch] has
    returned, every runner waits inside [engine_barrier]: none is at work
    and none has the mutex, which the engine holds, and [barrier_launch] and
    [barrier_running] are 0. Between [engine_launch (nr_runners)] and its
    return the runners have left the barrier [nr_runners] times in all, and
    a runner whose [tid] is not below [nr_runners] has not left it. *)
Theorem engine_launch_runners_parked nr_threads evs (st : state) :
  run evs (engine_init nr_threads) = Some st ->
  barrier_running st = Z.of_nat (working st) /\
  (forall tid, barrier_mutex st = Some (Runner tid) <->
               runners st !! tid = Some Testing) /\
  Z.of_nat (sum_list (passes st)) + barrier_launch st
    = barrier_launchcount st /\
  (forall tid k, passes st !! tid = Some k -> k <> 0%nat ->
                 Z.of_nat tid < barrier_launchcount st) /\
  (engine st = Holding ->
   barrier_mutex st = Some Engine /\
   (forall tid, (tid < nr_threads)%nat ->
                runners st !! tid = Some Waiting) /\
   barrier_launch st = 0 /\ barrier_running st = 0 /\
   Z.of_nat (sum_list (passes st)) = barrier_launchcount st).
Proof.
  intros H.
  pose proof (run_inv nr_threads evs _ st (engine_init_inv nr_threads) H)
    as Hinv.
  pose proof Hinv
    as (Hlr & Hlp & Heng & Hrun & Hwork & Hsum & Hpos & Hpass & Hhold).
  split; [exact Hwork |]. split; [exact Hrun |]. split; [exact Hsum |].
  split; [exact Hpass |].
  intros He. destruct (Hhold He) as (Hl & Hr).
  assert (Hm : barrier_mutex st = Some Engine) by (apply Heng; now left).
  split; [exact Hm |].
  split; [now apply (all_waiting nr_threads) |].
  split; [exact Hl |]. split; [exact Hr |]. lia.
Qed.

Lemma engine_launch_runners_parked_witness :
  exists st,
    run example_schedule (engine_init 2) = Some st /\
    engine st = Holding /\
    passes st = [2; 0]%nat /\
    barrier_running st = Z.of_nat (working st) /\
    (forall tid, barrier_mutex st = Some (Runner tid) <->
                 runners st !! tid = Some Testing) /\
    Z.of_nat (sum_list (passes st)) + barrier_launch st
      = barrier_launchcount st /\
    (forall tid k, passes st !! tid = Some k -> k <> 0%nat ->
                   Z.of_nat tid < barrier_launchcount st) /\
    (engine st = Holding ->
     barrier_mutex st = Some Engine /\
     (forall tid, (tid < 2)%nat -> runners st !! tid = Some Waiting) /\
     barrier_launch st = 0 /\ barrier_running st = 0 /\
     Z.of_nat (sum_list (passes st)) = barrier_launchcount st).
Proof.
  eexists. split; [vm_compute; reflexivity |].
  split; [reflexivity |]. split; [reflexivity |].
  apply (engine_launch_runners_parked 2 example_schedule).
  vm_compute. reflexivity.
Defined.

(** The runners may be launched unevenly: in the example schedule the first
    runner leaves the barrier twice after [engine_launch (2)] and the second
    not at all, and [engine_launch] returns. *)
Example example_uneven_launch :
  run example_schedule (engine_init 2) =
  Some {| barrier_running := 0; barrier_launch := 0;
          barrier_launchcount := 2; barrier_mutex := Some Engine;
          engine := Holding; runners := [Waiting; Waiting];
          passes := [2; 0]%nat |}.
Proof. vm_compute. reflexivity. Qed.

(** While the engine is outside its waits, with the mutex, no runner can
    take a step. *)
Example example_runners_blocked :
  let st := {| barrier_running := 0; barrier_launch := 0;
               barrier_launchcount := 2; barrier_mutex := Some Engine;
               engine := Holding; runners := [Waiting; Waiting];
               passes := [2; 0]%nat |} in
  forallb (fun ev => bool_decide (step ev st = None))
    [RunnerEnters 0; RunnerTests 0; RunnerWakes 0; RunnerEnters 1;
     RunnerTests 1; RunnerWakes 1; EngineStarted; EngineTests; EngineWakes]
  = true.
Proof. vm_compute. reflexivity. Qed.

End BarrierProofs.

(* ===================================================================== *)
(** * Proofs: the proxies of the neighbouring nodes *)
(* ===================================================================== *)

Module ProxiesProofs.
Import Facts Proxies.

(** ** The loops, as one loop over the pairs of neighbours *)

Lemma for_all_cons {A} (x : A) l body (st : state) :
  for_all (x :: l) body st = body x st ≫= for_all l body.
Proof.
  unfold for_all. cbn [foldl mbind result_bind].
  destruct (body x st) as [st1 | msg]; cbn [mbind result_bind];
    [reflexivity |].
  now apply foldl_error.
Qed.

Lemma for_all_app {A} (l1 l2 : list A) body (st : state) :
  for_all (l1 ++ l2) body st = for_all l1 body st ≫= for_all l2 body.
Proof.
  revert st. induction l1 as [| x l1 IH]; intros st; [reflexivity |].
  cbn [app]. rewrite !for_all_cons.
  destruct (body x st) as [st1 | msg]; cbn [mbind result_bind];
    [apply IH | reflexivity].
Qed.

Lemma for_all_bind {A B} (l : list A) (f : A -> list B) body (st : state) :
  for_all (l ≫= f) body st = for_all l (fun x => for_all (f x) body) st.
Proof.
  revert st. induction l as [| x l IH]; intros st; [reflexivity |].
  cbn [mbind list_bind]. rewrite for_all_app, for_all_cons.
  destruct (for_all (f x) body st) as [st1 | msg]; cbn [mbind result_bind];
    [apply IH | reflexivity].
Qed.

Lemma for_all_ext {A} (l : list A) body body' (st : state) :
  (forall x st, body x st = body' x st) ->
  for_all l body st = for_all l body' st.
Proof.
  intros Hext. revert st. induction l as [| x l IH]; intros st;
    [reflexivity |].
  rewrite !for_all_cons, Hext.
  destruct (body' x st) as [st1 | msg]; cbn [mbind result_bind];
    [apply IH | reflexivity].
Qed.

Lemma for_all_singleton {A} (x : A) body (st : state) :
  for_all [x] body st = body x st.
Proof.
  rewrite for_all_cons. now destruct (body x st).
Qed.

Section proxies_proofs.
Context (engine_maxproxies : Z).
Context (cdim : Z * Z * Z) (nodeID_e : Z) (nr_nodes : Z).

Lemma engine_makeproxies_pairs (st : state) :
  engine_makeproxies engine_maxproxies cdim nodeID_e nr_nodes true st =
  for_all (neighbour_pairs cdim)
    (fun p => neighbour_body engine_maxproxies nodeID_e p.1 p.2)
    {| cells := cells st;
       proxy_ind := replicate (Z.to_nat nr_nodes) (-1);
       nr_proxies := 0; calls := calls st |}.
Proof.
  unfold engine_makeproxies, neighbour_pairs. cbn [negb].
  rewrite for_all_bind. apply for_all_ext. intros ind0 st0.
  rewrite for_all_bind. apply for_all_ext. intros ind1 st1.
  rewrite for_all_bind. apply for_all_ext. intros ind2 st2.
  rewrite for_all_bind. apply for_all_ext. intros i st3.
  rewrite for_all_bind. apply for_all_ext. intros j st4.
  rewrite for_all_bind. apply for_all_ext. intros k st5.
  now rewrite for_all_singleton.
Qed.

(** ** What the loops keep *)

Lemma testbit_1 k : Z.testbit 1 k = (k =? 0).
Proof. destruct k as [| p | p]; try reflexivity; now destruct p. Qed.

Lemma testbit_lor_shiftl x pid bit :
  0 <= pid -> 0 <= bit ->
  Z.testbit (Z.lor x (Z.shiftl 1 pid)) bit = Z.testbit x bit || (bit =? pid).
Proof.
  intros Hp Hb. rewrite Z.lor_spec, Z.shiftl_spec by exact Hb.
  rewrite testbit_1. f_equal.
  destruct (bit - pid =? 0) eqn:E1, (bit =? pid) eqn:E2; try reflexivity;
    lia.
Qed.

Lemma proxied_reset cs0 calls0 n :
  proxied engine_maxproxies nodeID_e cs0 calls0 []
    {| cells := cs0; proxy_ind := replicate n (-1); nr_proxies := 0;
       calls := calls0 |}.
Proof.
  unfold proxied, pid_of. cbn [cells proxy_ind nr_proxies calls].
  split; [reflexivity |]. split; [lia |]. split; [auto |].
  split.
  { intros m pid H. apply lookup_replicate in H as (-> & _). now left. }
  split; [intros lk H; now apply elem_of_nil in H |].
  split.
  { intros m m' pid H _ Hpid. apply lookup_replicate in H as (-> & _). lia. }
  split; [intros pid Hpid; lia |].
  split.
  { intros c cl0 cl bit H0 H1 Hbit. assert (cl = cl0) by congruence. subst cl.
    split; [now left |]. intros [H | (lk & H & _)]; [exact H |].
    now apply elem_of_nil in H. }
  exists []. split; [now rewrite app_nil_r |].
  split.
  { intros pid my node. split; [intros H; now apply elem_of_nil in H |].
    intros (_ & H & Hpid). destruct (node <? 0); [discriminate |].
    apply lookup_replicate in H as (-> & _). lia. }
  split; intros pid c; (split; [intros H; now apply elem_of_nil in H |]);
    intros (lk & H & _); now apply elem_of_nil in H.
Qed.

Lemma cell_at_ok (st : state) c cl :
  cell_at st c = Ok cl -> 0 <= c /\ cells st !! Z.to_nat c = Some cl.
Proof.
  unfold cell_at. destruct (c <? 0) eqn:E; [discriminate |].
  destruct (cells st !! Z.to_nat c); [| discriminate].
  intros [= ->]. split; [lia | reflexivity].
Qed.

Lemma cell_at_node (st : state) cs0 c cl :
  nodeID <$> cells st = nodeID <$> cs0 ->
  cell_at st c = Ok cl -> node_of cs0 c = Some (nodeID cl).
Proof.
  intros Hn H. apply cell_at_ok in H as (Hc & H). unfold node_of.
  destruct (c <? 0) eqn:E; [lia |].
  rewrite <- list_lookup_fmap, <- Hn, list_lookup_fmap, H. reflexivity.
Qed.

(** One pass through the body of the test: the proxy is the one of the node
    of [c_in], made if the node had none. *)
Lemma add_to_proxies_spec cs0 calls0 ls c_out c_in st st' :
  proxied engine_maxproxies nodeID_e cs0 calls0 ls st ->
  add_to_proxies engine_maxproxies nodeID_e c_out c_in st = Ok st' ->
  exists co ci pid inits,
    0 <= c_out /\ cells st !! Z.to_nat c_out = Some co /\
    cell_at st c_in = Ok ci /\ 0 <= nodeID ci /\
    cells st' = <[Z.to_nat c_out :=
                    set_sendto (Z.lor (sendto co) (Z.shiftl 1 pid)) co]>
                  (cells st) /\
    calls st' = calls st ++ inits ++ [proxy_addcell_in pid c_in;
                                      proxy_addcell_out pid c_out] /\
    0 <= pid < 64 /\ pid < nr_proxies st' /\
    nr_proxies st <= nr_proxies st' /\
    (0 <= engine_maxproxies -> nr_proxies st' <= engine_maxproxies) /\
    proxy_ind st' !! Z.to_nat (nodeID ci) = Some pid /\
    (forall n, n <> Z.to_nat (nodeID ci) ->
       proxy_ind st' !! n = proxy_ind st !! n) /\
    (proxy_ind st !! Z.to_nat (nodeID ci) = Some pid /\ inits = [] /\
     nr_proxies st' = nr_proxies st \/
     proxy_ind st !! Z.to_nat (nodeID ci) = Some (-1) /\
     pid = nr_proxies st /\ nr_proxies st' = nr_proxies st + 1 /\
     inits = [proxy_init pid nodeID_e (nodeID ci)]).
Proof.
  intros (_ & Hnp & Hmax & Hind & _) H.
  unfold add_to_proxies in H.
  destruct (cell_at st c_in) as [ci | msg] eqn:Hci; [| discriminate].
  cbn [mbind result_bind] in H.
  unfold proxy_of, proxy_ind_at in H.
  destruct (nodeID ci <? 0) eqn:Hnode; [discriminate |].
  destruct (proxy_ind st !! Z.to_nat (nodeID ci)) as [p0 |] eqn:Hp0;
    [| discriminate].
  cbn [mbind result_bind] in H.
  destruct (p0 <? 0) eqn:Hneg.
  - (* a new proxy *)
    destruct (nr_proxies st =? engine_maxproxies) eqn:Hfull; [discriminate |].
    cbn [mbind result_bind cells proxy_ind nr_proxies calls] in H.
    destruct (cell_at _ c_out) as [co | msg] eqn:Hco; [| discriminate].
    apply cell_at_ok in Hco as (Hout & Hco). cbn [cells] in Hco.
    cbn [mbind result_bind] in H.
    destruct (64 <=? nr_proxies st) eqn:H64; [discriminate |].
    injection H as <-. cbn [cells proxy_ind nr_proxies calls].
    assert (p0 = -1) as -> by (destruct (Hind _ _ Hp0) as [? | [? _]]; lia).
    exists co, ci, (nr_proxies st), [proxy_init (nr_proxies st) nodeID_e (nodeID ci)].
    rewrite <- app_assoc.
    repeat split; try first [assumption | reflexivity | lia].
    + apply list_lookup_insert_eq. now apply lookup_lt_Some in Hp0.
    + intros n Hn. now apply list_lookup_insert_ne.
    + right. repeat split; first [assumption | reflexivity].
  - (* the proxy of the node *)
    cbn [mbind result_bind cells proxy_ind nr_proxies calls] in H.
    destruct (cell_at _ c_out) as [co | msg] eqn:Hco; [| discriminate].
    apply cell_at_ok in Hco as (Hout & Hco). cbn [cells] in Hco.
    cbn [mbind result_bind] in H.
    destruct (64 <=? p0) eqn:H64; [discriminate |].
    injection H as <-. cbn [cells proxy_ind nr_proxies calls].
    assert (0 <= p0 < nr_proxies st)
      by (destruct (Hind _ _ Hp0) as [? | [? _]]; lia).
    exists co, ci, p0, [].
    repeat split; try first [assumption | reflexivity | lia].
    left. repeat split; first [assumption | reflexivity].
Qed.

Lemma proxied_step cs0 calls0 ls c_out c_in st st' :
  proxied engine_maxproxies nodeID_e cs0 calls0 ls st ->
  add_to_proxies engine_maxproxies nodeID_e c_out c_in st = Ok st' ->
  exists node,
    node_of cs0 c_in = Some node /\
    proxied engine_maxproxies nodeID_e cs0 calls0
      (ls ++ [{| l_out := c_out; l_in := c_in; l_node := node |}]) st'.
Proof.
  intros Hinv H.
  destruct (add_to_proxies_spec _ _ _ _ _ _ _ Hinv H)
    as (co & ci & pid & inits & Hout & Hco & Hci & Hnode & Hcells & Hcalls &
        Hpid & Hlt & Hle & Hmax' & Hnew & Hother & Hcase).
  destruct Hinv as (Hn & Hnp & Hmax & Hind & Hlinked & Hinj & Hsurj & Hbits &
                    new & Hlog & Hinit & Hin & Hout').
  exists (nodeID ci). split; [now apply (cell_at_node st) |].
  set (lk0 := {| l_out := c_out; l_in := c_in; l_node := nodeID ci |}).
  (* the proxies that were there are still there *)
  assert (Hstab : forall node p, pid_of st node = Some p -> 0 <= p ->
                                 pid_of st' node = Some p).
  { unfold pid_of. intros node p Hp Hp0.
    destruct (node <? 0); [discriminate |].
    destruct (decide (Z.to_nat node = Z.to_nat (nodeID ci))) as [E | E].
    - rewrite E in *. destruct Hcase as [(Hold & _) | (Hold & _)];
        [congruence |]. rewrite Hold in Hp. injection Hp as <-. lia.
    - now rewrite Hother. }
  assert (Hback : forall lk p, lk ∈ ls -> pid_of st' (l_node lk) = Some p ->
                               pid_of st (l_node lk) = Some p).
  { intros lk p Hlk Hp. destruct (Hlinked lk Hlk) as (p' & Hp' & Hb).
    rewrite (Hstab _ _ Hp') in Hp by lia. congruence. }
  assert (Hpid0 : pid_of st' (nodeID ci) = Some pid).
  { unfold pid_of. destruct (nodeID ci <? 0) eqn:E; [lia | exact Hnew]. }
  assert (Hfrom : forall node p, pid_of st' node = Some p -> 0 <= p ->
                    node = nodeID ci /\ p = pid \/ pid_of st node = Some p).
  { unfold pid_of. intros node p Hp Hp0.
    destruct (node <? 0) eqn:E; [discriminate |].
    destruct (decide (Z.to_nat node = Z.to_nat (nodeID ci))) as [E' | E'].
    - left. rewrite E' in Hp. split; [lia | congruence].
    - right. now rewrite <- Hother. }
  assert (Hels : forall lk, lk ∈ ls ++ [lk0] <-> lk ∈ ls \/ lk = lk0).
  { intros lk. rewrite elem_of_app, list_elem_of_singleton. reflexivity. }
  unfold proxied. split.
  { rewrite Hcells, list_fmap_insert. cbn [set_sendto nodeID].
    rewrite <- Hn. apply list_insert_id.
    now rewrite list_lookup_fmap, Hco. }
  split; [lia |]. split; [exact Hmax' |]. split.
  { intros n p Hp.
    destruct (decide (n = Z.to_nat (nodeID ci))) as [-> | E].
    - right. rewrite Hnew in Hp. injection Hp as <-. split; [lia |].
      exists lk0. rewrite Hels. split; [now right |]. cbn. lia.
    - rewrite Hother in Hp by exact E.
      destruct (Hind _ _ Hp) as [-> | (Hb & lk & Hlk & Hl)]; [now left |].
      right. split; [lia |]. exists lk. rewrite Hels. split; [now left |].
      exact Hl. }
  split.
  { intros lk [Hlk | ->]%Hels.
    - destruct (Hlinked lk Hlk) as (p & Hp & Hb). exists p.
      split; [apply Hstab; [exact Hp | lia] | exact Hb].
    - exists pid. split; [exact Hpid0 | exact Hpid]. }
  split.
  { intros n m p Hp Hq Hp0.
    assert (Hfresh : forall k, proxy_ind st !! k = Some p ->
              k <> Z.to_nat (nodeID ci) -> p = pid -> False).
    { intros k Hk Hne ->. destruct Hcase as [(Hold & _) | (_ & -> & _)].
      - apply Hne. exact (Hinj _ _ _ Hk Hold Hp0).
      - destruct (Hind _ _ Hk) as [? | [? _]]; lia. }
    destruct (decide (n = Z.to_nat (nodeID ci))) as [-> | En],
             (decide (m = Z.to_nat (nodeID ci))) as [-> | Em];
      [reflexivity | | |].
    - rewrite Hnew in Hp. injection Hp as <-. rewrite Hother in Hq by exact Em.
      now destruct (Hfresh m Hq Em).
    - rewrite Hnew in Hq. injection Hq as <-. rewrite Hother in Hp by exact En.
      now destruct (Hfresh n Hp En).
    - rewrite Hother in Hp, Hq by assumption. exact (Hinj _ _ _ Hp Hq Hp0). }
  split.
  { intros p Hp.
    destruct (decide (p = pid)) as [-> | E];
      [exists (Z.to_nat (nodeID ci)); exact Hnew |].
    assert (Hp' : 0 <= p < nr_proxies st)
      by (destruct Hcase as [(_ & _ & ?) | (_ & ? & ? & _)]; lia).
    destruct (Hsurj p Hp') as (n & Hn').
    exists n. destruct (decide (n = Z.to_nat (nodeID ci))) as [-> | E'].
    - destruct Hcase as [(Hold & _) | (Hold & _)]; [congruence |].
      rewrite Hold in Hn'. injection Hn' as <-. lia.
    - now rewrite Hother. }
  split.
  { intros c cl0 cl bit Hcl0 Hcl Hbit. rewrite Hcells in Hcl.
    destruct (decide (c = Z.to_nat c_out)) as [-> | E].
    - rewrite list_lookup_insert_eq in Hcl
        by (now apply lookup_lt_Some in Hco).
      injection Hcl as <-. cbn [set_sendto sendto].
      rewrite testbit_lor_shiftl, orb_true_iff, (Hbits _ _ _ _ Hcl0 Hco Hbit)
        by lia.
      split.
      + intros [[H0 | (lk & Hlk & Hl & Hp)] | Heq]; [now left | |].
        * right. exists lk. rewrite Hels.
          split; [now left |]. split; [exact Hl | now apply Hstab].
        * right. exists lk0. rewrite Hels. split; [now right |].
          split; [cbn; lia |]. cbn [lk0 l_node].
          assert (bit = pid) as -> by lia. exact Hpid0.
      + intros [H0 | (lk & [Hlk | ->]%Hels & Hl & Hp)]; [now left; left | |].
        * left. right. exists lk. split; [exact Hlk |].
          split; [exact Hl | now apply Hback].
        * right. cbn [lk0 l_node] in Hp. rewrite Hpid0 in Hp.
          injection Hp as <-. lia.
    - rewrite list_lookup_insert_ne in Hcl by congruence.
      rewrite (Hbits _ _ _ _ Hcl0 Hcl Hbit). split.
      + intros [H0 | (lk & Hlk & Hl & Hp)]; [now left |].
        right. exists lk. rewrite Hels.
        split; [now left |]. split; [exact Hl | now apply Hstab].
      + intros [H0 | (lk & [Hlk | ->]%Hels & Hl & Hp)]; [now left | |].
        * right. exists lk. split; [exact Hlk |].
          split; [exact Hl | now apply Hback].
        * cbn [lk0 l_out] in Hl. lia. }
  exists (new ++ inits ++ [proxy_addcell_in pid c_in;
                           proxy_addcell_out pid c_out]).
  split; [now rewrite Hcalls, Hlog, <- app_assoc |].
  assert (Hmem : forall x, x ∈ new ++ inits ++
                   [proxy_addcell_in pid c_in; proxy_addcell_out pid c_out] <->
                   x ∈ new \/ x ∈ inits \/ x = proxy_addcell_in pid c_in \/
                   x = proxy_addcell_out pid c_out).
  { intros x. rewrite !elem_of_app, elem_of_cons, list_elem_of_singleton.
    reflexivity. }
  assert (Hinits : forall x, x ∈ inits ->
            x = proxy_init pid nodeID_e (nodeID ci) /\
            proxy_ind st !! Z.to_nat (nodeID ci) = Some (-1)).
  { intros x Hx. destruct Hcase as [(_ & -> & _) | (Hold & _ & _ & ->)].
    - now apply elem_of_nil in Hx.
    - apply list_elem_of_singleton in Hx. now split. }
  split.
  { intros p my node. rewrite Hmem. split.
    - intros [Hx | [Hx | [Hx | Hx]]]; try discriminate.
      + apply Hinit in Hx as (-> & Hp & Hp0).
        split; [reflexivity |]. split; [now apply Hstab | exact Hp0].
      + apply Hinits in Hx as ([= -> -> ->] & _).
        split; [reflexivity |]. split; [exact Hpid0 | lia].
    - intros (-> & Hp & Hp0).
      destruct (Hfrom _ _ Hp Hp0) as [(-> & ->) | Hold].
      + destruct Hcase as [(Hold & _) | (_ & _ & _ & ->)].
        * left. apply Hinit. split; [reflexivity |]. split; [| exact Hp0].
          unfold pid_of. destruct (nodeID ci <? 0) eqn:E; [lia | exact Hold].
        * right. left. now apply list_elem_of_singleton.
      + left. apply Hinit. now repeat split. }
  split.
  { intros p c. rewrite Hmem. split.
    - intros [Hx | [Hx | [Hx | Hx]]]; try discriminate.
      + apply Hin in Hx as (lk & Hlk & Hl & Hp). exists lk. rewrite Hels.
        split; [now left |]. split; [exact Hl |].
        destruct (Hlinked lk Hlk) as (p' & Hp' & Hb).
        apply Hstab; [exact Hp | ]. assert (p = p') by congruence. lia.
      + apply Hinits in Hx as ([=] & _).
      + injection Hx as -> ->. exists lk0. rewrite Hels.
        split; [now right |]. split; [reflexivity | exact Hpid0].
    - intros (lk & [Hlk | ->]%Hels & Hl & Hp).
      + left. apply Hin. exists lk. split; [exact Hlk |].
        split; [exact Hl | now apply Hback].
      + right. right. left. cbn [lk0 l_in l_node] in Hl, Hp.
        rewrite Hpid0 in Hp. injection Hp as <-. now rewrite Hl. }
  intros p c. rewrite Hmem. split.
  - intros [Hx | [Hx | [Hx | Hx]]]; try discriminate.
    + apply Hout' in Hx as (lk & Hlk & Hl & Hp). exists lk. rewrite Hels.
      split; [now left |]. split; [exact Hl |].
      destruct (Hlinked lk Hlk) as (p' & Hp' & Hb).
      apply Hstab; [exact Hp | ]. assert (p = p') by congruence. lia.
    + apply Hinits in Hx as ([=] & _).
    + injection Hx as -> ->. exists lk0. rewrite Hels.
      split; [now right |]. split; [reflexivity | exact Hpid0].
  - intros (lk & [Hlk | ->]%Hels & Hl & Hp).
    + left. apply Hout'. exists lk. split; [exact Hlk |].
      split; [exact Hl | now apply Hback].
    + right. right. right. cbn [lk0 l_out l_node] in Hl, Hp.
      rewrite Hpid0 in Hp. injection Hp as <-. now rewrite Hl.
Qed.

Lemma guarded_proxied cs0 calls0 ls a b ca cb st st' :
  proxied engine_maxproxies nodeID_e cs0 calls0 ls st ->
  cell_at st a = Ok ca -> cell_at st b = Ok cb ->
  (if (nodeID ca =? nodeID_e) && negb (nodeID cb =? nodeID_e)
   then add_to_proxies engine_maxproxies nodeID_e a b st else Ok st) =
    Ok st' ->
  proxied engine_maxproxies nodeID_e cs0 calls0
    (ls ++ link_of nodeID_e cs0 a b) st'.
Proof.
  intros Hinv Ha Hb H.
  pose proof Hinv as (Hn & _).
  unfold link_of.
  rewrite (cell_at_node _ _ _ _ Hn Ha), (cell_at_node _ _ _ _ Hn Hb).
  destruct ((nodeID ca =? nodeID_e) && negb (nodeID cb =? nodeID_e)).
  - destruct (proxied_step _ _ _ _ _ _ _ Hinv H) as (node & Hnode & Hinv').
    rewrite (cell_at_node _ _ _ _ Hn Hb) in Hnode. injection Hnode as <-.
    exact Hinv'.
  - injection H as <-. now rewrite app_nil_r.
Qed.

Lemma neighbour_body_proxied cs0 calls0 ls cid cjd st st' :
  proxied engine_maxproxies nodeID_e cs0 calls0 ls st ->
  neighbour_body engine_maxproxies nodeID_e cid cjd st = Ok st' ->
  proxied engine_maxproxies nodeID_e cs0 calls0
    (ls ++ link_of nodeID_e cs0 cid cjd ++ link_of nodeID_e cs0 cjd cid) st'.
Proof.
  intros Hinv H. unfold neighbour_body in H.
  destruct (cell_at st cid) as [ci | msg] eqn:Hci; [| discriminate].
  destruct (cell_at st cjd) as [cj | msg] eqn:Hcj; [| discriminate].
  cbn [mbind result_bind] in H.
  destruct (if (nodeID ci =? nodeID_e) && negb (nodeID cj =? nodeID_e)
            then _ else _) as [st1 | msg] eqn:H1; [| discriminate].
  cbn [mbind result_bind] in H.
  apply (guarded_proxied _ _ _ _ _ _ _ _ _ Hinv Hci Hcj) in H1.
  destruct (cell_at st1 cid) as [ci' | msg] eqn:Hci'; [| discriminate].
  destruct (cell_at st1 cjd) as [cj' | msg] eqn:Hcj'; [| discriminate].
  cbn [mbind result_bind] in H.
  rewrite app_assoc.
  exact (guarded_proxied _ _ _ _ _ _ _ _ _ H1 Hcj' Hci' H).
Qed.

Lemma pairs_proxied cs0 calls0 l ls st st' :
  proxied engine_maxproxies nodeID_e cs0 calls0 ls st ->
  for_all l (fun p => neighbour_body engine_maxproxies nodeID_e p.1 p.2) st =
    Ok st' ->
  proxied engine_maxproxies nodeID_e cs0 calls0
    (ls ++ links nodeID_e cs0 l) st'.
Proof.
  revert ls st. induction l as [| p l IH]; intros ls st Hinv H.
  - injection H as <-. unfold links. cbn [mbind list_bind].
    now rewrite app_nil_r.
  - rewrite for_all_cons in H.
    destruct (neighbour_body _ _ _ _ st) as [st1 | msg] eqn:H1;
      [| discriminate].
    cbn [mbind result_bind] in H.
    apply (neighbour_body_proxied _ _ _ _ _ _ _ Hinv) in H1.
    apply (IH _ _ H1) in H.
    unfold links in *. cbn [mbind list_bind]. now rewrite app_assoc.
Qed.

(** ** When the loops run to their end *)

Lemma elem_of_nodes ls node :
  node ∈ nodes ls <-> exists lk, lk ∈ ls /\ l_node lk = node.
Proof.
  unfold nodes. rewrite elem_of_list_to_set, list_elem_of_fmap.
  split; intros (lk & H1 & H2); exists lk; split; auto.
Qed.

Lemma nodes_snoc ls lk : nodes (ls ++ [lk]) = nodes ls ∪ {[ l_node lk ]}.
Proof.
  unfold nodes. rewrite fmap_app, list_to_set_app_L. cbn. set_solver.
Qed.

Lemma size_nodes_mono ls rest :
  (base.size (nodes ls) <= base.size (nodes (ls ++ rest)))%nat.
Proof.
  apply subseteq_size. intros node. rewrite !elem_of_nodes.
  intros (lk & H1 & H2). exists lk. split; [| exact H2].
  apply elem_of_app. now left.
Qed.

Lemma node_of_cell_at (st : state) cs0 c node :
  nodeID <$> cells st = nodeID <$> cs0 ->
  node_of cs0 c = Some node ->
  exists cl, cell_at st c = Ok cl /\ nodeID cl = node.
Proof.
  unfold node_of, cell_at. intros Hn H.
  destruct (c <? 0); [discriminate |].
  rewrite <- list_lookup_fmap, <- Hn, list_lookup_fmap in H.
  destruct (cells st !! Z.to_nat c) as [cl |]; [| discriminate].
  injection H as <-. now exists cl.
Qed.

Lemma add_to_proxies_runs cs0 calls0 ls a b node st :
  proxied engine_maxproxies nodeID_e cs0 calls0 ls st ->
  nr_proxies st = Z.of_nat (base.size (nodes ls)) ->
  0 <= a < Z.of_nat (length cs0) ->
  node_of cs0 b = Some node ->
  0 <= node < Z.of_nat (length (proxy_ind st)) ->
  let ls' := ls ++ [{| l_out := a; l_in := b; l_node := node |}] in
  Z.of_nat (base.size (nodes ls')) <= 64 ->
  (0 <= engine_maxproxies ->
   Z.of_nat (base.size (nodes ls')) <= engine_maxproxies) ->
  exists st',
    add_to_proxies engine_maxproxies nodeID_e a b st = Ok st' /\
    nr_proxies st' = Z.of_nat (base.size (nodes ls')) /\
    length (proxy_ind st') = length (proxy_ind st).
Proof.
  intros Hinv Hcount Ha Hb Hnode ls' H64 Hmax'.
  destruct Hinv as (Hn & Hnp & Hmax & Hind & Hlinked & _).
  destruct (node_of_cell_at st _ _ _ Hn Hb) as (cb & Hcb & <-).
  assert (Hca : exists ca, cell_at st a = Ok ca).
  { unfold cell_at. destruct (a <? 0) eqn:E; [lia |].
    destruct (lookup_lt_is_Some_2 (cells st) (Z.to_nat a)) as (ca & ->);
      [| now exists ca].
    rewrite <- (length_fmap nodeID), Hn, length_fmap. lia. }
  destruct Hca as (ca & Hca).
  destruct (lookup_lt_is_Some_2 (proxy_ind st) (Z.to_nat (nodeID cb)))
    as (p0 & Hp0); [lia |].
  assert (Hpid : pid_of st (nodeID cb) = Some p0).
  { unfold pid_of. destruct (nodeID cb <? 0) eqn:E; [lia | exact Hp0]. }
  subst ls'. rewrite nodes_snoc in *. cbn [l_node] in *.
  unfold add_to_proxies, proxy_of, proxy_ind_at.
  rewrite Hcb. cbn [mbind result_bind].
  destruct (nodeID cb <? 0) eqn:E; [lia |]. rewrite Hp0.
  cbn [mbind result_bind].
  destruct (p0 <? 0) eqn:Hneg.
  - (* the node is new *)
    assert (Hfresh : nodeID cb ∉ nodes ls).
    { rewrite elem_of_nodes. intros (lk & Hlk & Hl).
      destruct (Hlinked lk Hlk) as (p & Hp & Hb'). rewrite Hl in Hp.
      assert (p = p0) by congruence. lia. }
    rewrite size_union, size_singleton in * by set_solver.
    destruct (nr_proxies st =? engine_maxproxies) eqn:Hfull; [lia |].
    cbn [mbind result_bind cells proxy_ind nr_proxies calls].
    unfold cell_at in Hca |- *. cbn [cells]. rewrite Hca.
    cbn [mbind result_bind].
    destruct (64 <=? nr_proxies st) eqn:Hshift; [lia |].
    eexists. split; [reflexivity |]. cbn [nr_proxies proxy_ind].
    split; [lia | apply length_insert].
  - (* the node has its proxy *)
    assert (Hold : nodeID cb ∈ nodes ls).
    { rewrite elem_of_nodes.
      destruct (Hind _ _ Hp0) as [-> | (_ & lk & Hlk & Hl)]; [lia |].
      exists lk. split; [exact Hlk | lia]. }
    assert (Heq : nodes ls ∪ {[nodeID cb]} = nodes ls) by set_solver.
    rewrite Heq in *.
    cbn [mbind result_bind cells proxy_ind nr_proxies calls].
    unfold cell_at in Hca |- *. cbn [cells]. rewrite Hca.
    cbn [mbind result_bind].
    assert (p0 < nr_proxies st)
      by (destruct (Hind _ _ Hp0) as [-> | (? & _)]; lia).
    destruct (64 <=? p0) eqn:Hshift; [lia |].
    eexists. split; [reflexivity |]. cbn [nr_proxies proxy_ind].
    split; [exact Hcount | reflexivity].
Qed.

Lemma guarded_runs cs0 calls0 ls a b ca cb st :
  proxied engine_maxproxies nodeID_e cs0 calls0 ls st ->
  nr_proxies st = Z.of_nat (base.size (nodes ls)) ->
  length (proxy_ind st) = Z.to_nat nr_nodes ->
  Forall (fun c => 0 <= nodeID c < nr_nodes) cs0 ->
  cell_at st a = Ok ca -> cell_at st b = Ok cb ->
  let ls' := ls ++ link_of nodeID_e cs0 a b in
  Z.of_nat (base.size (nodes ls')) <= 64 ->
  (0 <= engine_maxproxies ->
   Z.of_nat (base.size (nodes ls')) <= engine_maxproxies) ->
  exists st',
    (if (nodeID ca =? nodeID_e) && negb (nodeID cb =? nodeID_e)
     then add_to_proxies engine_maxproxies nodeID_e a b st else Ok st) =
      Ok st' /\
    nr_proxies st' = Z.of_nat (base.size (nodes ls')) /\
    length (proxy_ind st') = Z.to_nat nr_nodes.
Proof.
  intros Hinv Hcount Hlen Hnodes Ha Hb ls'.
  pose proof Hinv as (Hn & _).
  pose proof (cell_at_node _ _ _ _ Hn Ha) as Hna.
  pose proof (cell_at_node _ _ _ _ Hn Hb) as Hnb.
  subst ls'. unfold link_of. rewrite Hna, Hnb.
  destruct ((nodeID ca =? nodeID_e) && negb (nodeID cb =? nodeID_e)).
  - intros H64 Hmax.
    assert (Hra : 0 <= a < Z.of_nat (length cs0)).
    { apply cell_at_ok in Ha as (Ha0 & Ha).
      apply lookup_lt_Some in Ha.
      rewrite <- (length_fmap nodeID), Hn, length_fmap in Ha. lia. }
    assert (Hrb : 0 <= nodeID cb < Z.of_nat (length (proxy_ind st))).
    { unfold node_of in Hnb. destruct (b <? 0); [discriminate |].
      destruct (cs0 !! Z.to_nat b) as [cl |] eqn:Hcl; [| discriminate].
      injection Hnb as Hnb.
      pose proof (proj1 (Forall_lookup _ _) Hnodes _ _ Hcl) as Hr.
      cbn beta in Hr. rewrite Hnb in Hr. lia. }
    destruct (add_to_proxies_runs _ _ _ _ _ _ _ Hinv Hcount Hra Hnb Hrb
                H64 Hmax) as (st' & -> & Hc & Hl).
    exists st'. split; [reflexivity |]. split; [exact Hc | congruence].
  - rewrite app_nil_r. intros _ _. exists st. auto.
Qed.

Lemma neighbour_body_runs cs0 calls0 ls cid cjd st :
  proxied engine_maxproxies nodeID_e cs0 calls0 ls st ->
  nr_proxies st = Z.of_nat (base.size (nodes ls)) ->
  length (proxy_ind st) = Z.to_nat nr_nodes ->
  Forall (fun c => 0 <= nodeID c < nr_nodes) cs0 ->
  0 <= cid < Z.of_nat (length cs0) -> 0 <= cjd < Z.of_nat (length cs0) ->
  let ls' := ls ++ link_of nodeID_e cs0 cid cjd ++
             link_of nodeID_e cs0 cjd cid in
  Z.of_nat (base.size (nodes ls')) <= 64 ->
  (0 <= engine_maxproxies ->
   Z.of_nat (base.size (nodes ls')) <= engine_maxproxies) ->
  exists st',
    neighbour_body engine_maxproxies nodeID_e cid cjd st = Ok st' /\
    nr_proxies st' = Z.of_nat (base.size (nodes ls')) /\
    length (proxy_ind st') = Z.to_nat nr_nodes.
Proof.
  intros Hinv Hcount Hlen Hnodes Hi Hj ls' H64 Hmax.
  assert (Hcell : forall st1 ls1 c,
            proxied engine_maxproxies nodeID_e cs0 calls0 ls1 st1 ->
            0 <= c < Z.of_nat (length cs0) ->
            exists cl, cell_at st1 c = Ok cl).
  { intros st1 ls1 c (Hn & _) Hc. unfold cell_at.
    destruct (c <? 0) eqn:E; [lia |].
    destruct (lookup_lt_is_Some_2 (cells st1) (Z.to_nat c)) as (cl & ->);
      [| now exists cl].
    rewrite <- (length_fmap nodeID), Hn, length_fmap. lia. }
  subst ls'. rewrite app_assoc in *.
  pose proof (size_nodes_mono (ls ++ link_of nodeID_e cs0 cid cjd)
                (link_of nodeID_e cs0 cjd cid)) as Hmono.
  destruct (Hcell _ _ _ Hinv Hi) as (ci & Hci).
  destruct (Hcell _ _ _ Hinv Hj) as (cj & Hcj).
  destruct (guarded_runs _ _ _ _ _ _ _ _ Hinv Hcount Hlen Hnodes Hci Hcj)
    as (st1 & H1 & Hcount1 & Hlen1); [lia | lia |].
  pose proof (guarded_proxied _ _ _ _ _ _ _ _ _ Hinv Hci Hcj H1) as Hinv1.
  destruct (Hcell _ _ _ Hinv1 Hi) as (ci' & Hci').
  destruct (Hcell _ _ _ Hinv1 Hj) as (cj' & Hcj').
  destruct (guarded_runs _ _ _ _ _ _ _ _ Hinv1 Hcount1 Hlen1 Hnodes Hcj' Hci'
              H64 Hmax) as (st2 & H2 & Hcount2 & Hlen2).
  exists st2. unfold neighbour_body. rewrite Hci, Hcj.
  cbn [mbind result_bind]. rewrite H1. cbn [mbind result_bind].
  rewrite Hci', Hcj'. cbn [mbind result_bind]. auto.
Qed.

Lemma pairs_run cs0 calls0 l ls st :
  proxied engine_maxproxies nodeID_e cs0 calls0 ls st ->
  nr_proxies st = Z.of_nat (base.size (nodes ls)) ->
  length (proxy_ind st) = Z.to_nat nr_nodes ->
  Forall (fun c => 0 <= nodeID c < nr_nodes) cs0 ->
  Forall (fun p => 0 <= p.1 < Z.of_nat (length cs0) /\
                   0 <= p.2 < Z.of_nat (length cs0)) l ->
  let ls' := ls ++ links nodeID_e cs0 l in
  Z.of_nat (base.size (nodes ls')) <= 64 ->
  (0 <= engine_maxproxies ->
   Z.of_nat (base.size (nodes ls')) <= engine_maxproxies) ->
  exists st',
    for_all l (fun p => neighbour_body engine_maxproxies nodeID_e p.1 p.2)
      st = Ok st' /\
    nr_proxies st' = Z.of_nat (base.size (nodes ls')).
Proof.
  revert ls st. induction l as [| p l IH];
    intros ls st Hinv Hcount Hlen Hnodes Hl ls' H64 Hmax; subst ls'.
  - exists st. unfold links in *. cbn [mbind list_bind] in *.
    rewrite app_nil_r in *. auto.
  - apply Forall_cons in Hl as ((Hi & Hj) & Hl).
    unfold links in *. cbn [mbind list_bind] in *.
    rewrite app_assoc in *.
    pose proof (size_nodes_mono
      (ls ++ link_of nodeID_e cs0 p.1 p.2 ++ link_of nodeID_e cs0 p.2 p.1)
      (l ≫= fun p => link_of nodeID_e cs0 p.1 p.2 ++
                     link_of nodeID_e cs0 p.2 p.1)) as Hmono.
    destruct (neighbour_body_runs _ _ _ _ _ _ Hinv Hcount Hlen Hnodes Hi Hj)
      as (st1 & H1 & Hcount1 & Hlen1); [lia | lia |].
    pose proof (neighbour_body_proxied _ _ _ _ _ _ _ Hinv H1) as Hinv1.
    destruct (IH _ _ Hinv1 Hcount1 Hlen1 Hnodes Hl H64 Hmax)
      as (st' & H' & Hcount').
    exists st'. rewrite for_all_cons, H1. cbn [mbind result_bind]. auto.
Qed.

Lemma wrapped_range x i c :
  0 <= x < c -> -1 <= i <= 1 -> 0 <= wrapped x i c < c.
Proof.
  intros Hx Hi. unfold wrapped. cbn zeta.
  destruct (x + i >=? c) eqn:E1; [lia |].
  destruct (x + i <? 0) eqn:E2; lia.
Qed.

Lemma cell_getid_range i j k :
  0 <= i < cdim.1.1 -> 0 <= j < cdim.1.2 -> 0 <= k < cdim.2 ->
  0 <= cell_getid cdim i j k < cdim.1.1 * cdim.1.2 * cdim.2.
Proof.
  unfold cell_getid. destruct cdim as [[c0 c1] c2]. cbn [fst snd].
  intros Hi Hj Hk.
  assert (0 <= i * c1) by (apply Z.mul_nonneg_nonneg; lia).
  assert (0 <= i * c1 * c2) by (apply Z.mul_nonneg_nonneg; lia).
  assert (0 <= j * c2) by (apply Z.mul_nonneg_nonneg; lia).
  split; [lia |].
  assert (j * c2 + k < c1 * c2).
  { assert ((j + 1) * c2 <= c1 * c2)
      by (apply Z.mul_le_mono_nonneg_r; lia). lia. }
  assert ((i + 1) * (c1 * c2) <= c0 * (c1 * c2))
    by (apply Z.mul_le_mono_nonneg_r; lia).
  lia.
Qed.

Lemma neighbour_pairs_range (n : nat) :
  cdim.1.1 * cdim.1.2 * cdim.2 <= Z.of_nat n ->
  Forall (fun p => 0 <= p.1 < Z.of_nat n /\ 0 <= p.2 < Z.of_nat n)
    (neighbour_pairs cdim).
Proof.
  intros Hn. apply Forall_forall. intros p. unfold neighbour_pairs.
  intros (ind0 & Hp & H0%elem_of_seqZ)%list_elem_of_bind.
  apply list_elem_of_bind in Hp as (ind1 & Hp & H1%elem_of_seqZ).
  apply list_elem_of_bind in Hp as (ind2 & Hp & H2%elem_of_seqZ).
  apply list_elem_of_bind in Hp as (i & Hp & Hi).
  apply list_elem_of_bind in Hp as (j & Hp & Hj).
  apply list_elem_of_bind in Hp as (k & Hp & Hk).
  apply list_elem_of_singleton in Hp as ->. cbn [fst snd].
  assert (Hstep : forall d, d ∈ [-1; 0; 1] -> -1 <= d <= 1).
  { intros d Hd. repeat (apply elem_of_cons in Hd as [-> | Hd]; [lia |]).
    now apply elem_of_nil in Hd. }
  apply Hstep in Hi, Hj, Hk.
  pose proof (cell_getid_range ind0 ind1 ind2) as Ha.
  pose proof (cell_getid_range (wrapped ind0 i cdim.1.1)
                (wrapped ind1 j cdim.1.2) (wrapped ind2 k cdim.2)) as Hb.
  pose proof (wrapped_range ind0 i cdim.1.1).
  pose proof (wrapped_range ind1 j cdim.1.2).
  pose proof (wrapped_range ind2 k cdim.2).
  split; lia.
Qed.

(** X27. [engine_makeproxies], when it returns: the cells stay on their
    nodes; a node has a proxy exactly if a local cell has a neighbour on it,
    which is a cell of another node; the proxies are numbered from 0 without
    gaps, one for each such node, below [engine_maxproxies] and below 64;
    a cell has gained in [sendto] exactly the bits of the proxies of the
    nodes of its neighbours; and the calls into [proxy.c] are one
    [proxy_init] for each proxy and, for each link, the foreign cell coming
    in and the local cell going out of the proxy of the foreign cell's node.
    What [proxy_ind] and [nr_proxies] held before is forgotten. *)
Theorem engine_makeproxies_links (st st' : state) :
  engine_makeproxies engine_maxproxies cdim nodeID_e nr_nodes true st =
    Ok st' ->
  let ls := links nodeID_e (cells st) (neighbour_pairs cdim) in
  nodeID <$> cells st' = nodeID <$> cells st /\
  0 <= nr_proxies st' /\
  (0 <= engine_maxproxies -> nr_proxies st' <= engine_maxproxies) /\
  (forall node,
     (exists pid, pid_of st' node = Some pid /\ 0 <= pid) <->
     (exists lk, lk ∈ ls /\ l_node lk = node)) /\
  (forall node pid, pid_of st' node = Some pid ->
     pid = -1 \/ 0 <= pid < nr_proxies st' /\ pid < 64) /\
  (forall pid, 0 <= pid < nr_proxies st' ->
     exists node, pid_of st' node = Some pid) /\
  (forall n m pid, pid_of st' n = Some pid -> pid_of st' m = Some pid ->
     0 <= pid -> n = m) /\
  (forall c cl cl' bit, cells st !! c = Some cl -> cells st' !! c = Some cl' ->
     0 <= bit ->
     (Z.testbit (sendto cl') bit = true <->
      Z.testbit (sendto cl) bit = true \/
      exists lk, lk ∈ ls /\ l_out lk = Z.of_nat c /\
                 pid_of st' (l_node lk) = Some bit)) /\
  exists new,
    calls st' = calls st ++ new /\
    (forall pid my node, proxy_init pid my node ∈ new <->
       my = nodeID_e /\ pid_of st' node = Some pid /\ 0 <= pid) /\
    (forall pid c, proxy_addcell_in pid c ∈ new <->
       exists lk, lk ∈ ls /\ l_in lk = c /\
                  pid_of st' (l_node lk) = Some pid) /\
    (forall pid c, proxy_addcell_out pid c ∈ new <->
       exists lk, lk ∈ ls /\ l_out lk = c /\
                  pid_of st' (l_node lk) = Some pid).
Proof.
  intros H ls. rewrite engine_makeproxies_pairs in H.
  pose proof (proxied_reset (cells st) (calls st) (Z.to_nat nr_nodes)) as H0.
  destruct st as [cs pi np cl]. cbn [cells calls] in *.
  apply (pairs_proxied _ _ _ _ _ _ H0) in H. cbn [app] in H. fold ls in H.
  destruct H as (Hn & Hnp & Hmax & Hind & Hlinked & Hinj & Hsurj & Hbits &
                 Hcalls).
  split; [exact Hn |]. split; [exact Hnp |]. split; [exact Hmax |].
  split.
  { intros node. split.
    - unfold pid_of. intros (pid & Hp & Hp0).
      destruct (node <? 0) eqn:E; [discriminate |].
      destruct (Hind _ _ Hp) as [-> | (_ & lk & Hlk & Hl)]; [lia |].
      exists lk. split; [exact Hlk | lia].
    - intros (lk & Hlk & <-). destruct (Hlinked lk Hlk) as (pid & Hp & Hb).
      exists pid. split; [exact Hp | lia]. }
  split.
  { unfold pid_of at 1. intros node pid Hp.
    destruct (node <? 0) eqn:E; [discriminate |].
    destruct (Hind _ _ Hp) as [-> | (Hb & lk & Hlk & Hl)]; [now left |].
    right. split; [exact Hb |].
    destruct (Hlinked lk Hlk) as (pid' & Hp' & Hb'). unfold pid_of in Hp'.
    rewrite Hl, Nat2Z.id in Hp'.
    destruct (Z.of_nat (Z.to_nat node) <? 0); [discriminate |].
    assert (pid = pid') by congruence. lia. }
  split.
  { intros pid Hp. destruct (Hsurj pid Hp) as (n & Hn').
    exists (Z.of_nat n). unfold pid_of.
    destruct (Z.of_nat n <? 0) eqn:E; [apply Z.ltb_lt in E; lia |].
    now rewrite Nat2Z.id. }
  split.
  { unfold pid_of. intros n m pid Hp Hq Hp0.
    destruct (n <? 0) eqn:En; [discriminate |].
    destruct (m <? 0) eqn:Em; [discriminate |].
    pose proof (Hinj _ _ _ Hp Hq Hp0). lia. }
  split; [exact Hbits | exact Hcalls].
Qed.


(** X28. [engine_makeproxies] runs to its end when the space has all the
    cells of its grid, each on a node below [nr_nodes], and the neighbours
    of the local cells lie on at most 64 other nodes, and on at most
    [engine_maxproxies]; [nr_proxies] is then the number of these nodes. *)
Theorem engine_makeproxies_runs (st : state) :
  let ls := links nodeID_e (cells st) (neighbour_pairs cdim) in
  cdim.1.1 * cdim.1.2 * cdim.2 <= Z.of_nat (length (cells st)) ->
  Forall (fun c => 0 <= nodeID c < nr_nodes) (cells st) ->
  Z.of_nat (base.size (nodes ls)) <= 64 ->
  (0 <= engine_maxproxies ->
   Z.of_nat (base.size (nodes ls)) <= engine_maxproxies) ->
  exists st',
    engine_makeproxies engine_maxproxies cdim nodeID_e nr_nodes true st =
      Ok st' /\
    nr_proxies st' = Z.of_nat (base.size (nodes ls)).
Proof.
  intros ls Hgrid Hnodes H64 Hmax. rewrite engine_makeproxies_pairs.
  pose proof (proxied_reset (cells st) (calls st) (Z.to_nat nr_nodes)) as H0.
  apply (pairs_run _ _ _ _ _ H0); cbn [cells proxy_ind nr_proxies app];
    try assumption.
  - reflexivity.
  - apply length_replicate.
  - now apply neighbour_pairs_range.
Qed.
End proxies_proofs.

Lemma engine_makeproxies_links_witness :
  let st := example_state in
  let st' := example_proxies in
  let ls := links 0 (cells st) (neighbour_pairs (4, 1, 1)) in
  engine_makeproxies 64 (4, 1, 1) 0 3 true st = Ok st' /\
  nodeID <$> cells st' = nodeID <$> cells st /\
  0 <= nr_proxies st' /\
  (0 <= 64 -> nr_proxies st' <= 64) /\
  (forall node,
     (exists pid, pid_of st' node = Some pid /\ 0 <= pid) <->
     (exists lk, lk ∈ ls /\ l_node lk = node)) /\
  (forall node pid, pid_of st' node = Some pid ->
     pid = -1 \/ 0 <= pid < nr_proxies st' /\ pid < 64) /\
  (forall pid, 0 <= pid < nr_proxies st' ->
     exists node, pid_of st' node = Some pid) /\
  (forall n m pid, pid_of st' n = Some pid -> pid_of st' m = Some pid ->
     0 <= pid -> n = m) /\
  (forall c cl cl' bit, cells st !! c = Some cl -> cells st' !! c = Some cl' ->
     0 <= bit ->
     (Z.testbit (sendto cl') bit = true <->
      Z.testbit (sendto cl) bit = true \/
      exists lk, lk ∈ ls /\ l_out lk = Z.of_nat c /\
                 pid_of st' (l_node lk) = Some bit)) /\
  exists new,
    calls st' = calls st ++ new /\
    (forall pid my node, proxy_init pid my node ∈ new <->
       my = 0 /\ pid_of st' node = Some pid /\ 0 <= pid) /\
    (forall pid c, proxy_addcell_in pid c ∈ new <->
       exists lk, lk ∈ ls /\ l_in lk = c /\
                  pid_of st' (l_node lk) = Some pid) /\
    (forall pid c, proxy_addcell_out pid c ∈ new <->
       exists lk, lk ∈ ls /\ l_out lk = c /\
                  pid_of st' (l_node lk) = Some pid).
Proof.
  intros st st' ls.
  assert (Hpass : engine_makeproxies 64 (4, 1, 1) 0 3 true st = Ok st')
    by (vm_compute; reflexivity).
  split; [exact Hpass |].
  exact (engine_makeproxies_links 64 (4, 1, 1) 0 3 st st' Hpass).
Defined.

(** On the line of four cells: the cell 1 has the cell 2 of the node 1 as a
    neighbour, and the cell 0 has the cell 3 of the node 2, round the
    periodic edge, which the loops meet first; so the node 2 gets the proxy
    0 and the node 1 the proxy 1, and the two local cells get one bit
    each. *)
Example example_line_proxies :
  proxy_ind example_proxies = [-1; 1; 0] /\
  nr_proxies example_proxies = 2 /\
  sendto <$> cells example_proxies = [1; 2; 0; 0] /\
  List.filter
    (fun c => match c with proxy_init _ _ _ => true | _ => false end)
    (calls example_proxies) = [proxy_init 0 0 2; proxy_init 1 0 1].
Proof. vm_compute. repeat split. Qed.

Lemma engine_makeproxies_runs_witness :
  let st := example_state in
  let ls := links 0 (cells st) (neighbour_pairs (4, 1, 1)) in
  (4 * 1 * 1 <= Z.of_nat (length (cells st)) /\
   Forall (fun c => 0 <= nodeID c < 3) (cells st) /\
   Z.of_nat (base.size (nodes ls)) <= 64 /\
   (0 <= 64 -> Z.of_nat (base.size (nodes ls)) <= 64)) /\
  exists st',
    engine_makeproxies 64 (4, 1, 1) 0 3 true st = Ok st' /\
    nr_proxies st' = Z.of_nat (base.size (nodes ls)).
Proof.
  intros st ls.
  assert (Hgrid : 4 * 1 * 1 <= Z.of_nat (length (cells st)))
    by (vm_compute; discriminate).
  assert (Hnodes : Forall (fun c => 0 <= nodeID c < 3) (cells st))
    by (repeat constructor; cbn; lia).
  assert (H64 : Z.of_nat (base.size (nodes ls)) <= 64)
    by (vm_compute; discriminate).
  assert (Hmax : 0 <= 64 -> Z.of_nat (base.size (nodes ls)) <= 64)
    by (intros _; exact H64).
  split; [exact (conj Hgrid (conj Hnodes (conj H64 Hmax))) |].
  exact (engine_makeproxies_runs 64 (4, 1, 1) 0 3 st Hgrid Hnodes H64 Hmax).
Defined.

(** The neighbours of the two local cells lie on two other nodes; with room
    for one proxy only, the second node stops the run. *)
Example example_two_nodes :
  base.size (nodes (links 0 (cells example_state)
                      (neighbour_pairs (4, 1, 1)))) = 2%nat.
Proof. vm_compute. reflexivity. Qed.

Example example_too_many_proxies :
  engine_makeproxies 1 (4, 1, 1) 0 3 true example_state =
    Error "Maximum number of proxies exceeded.".
Proof. vm_compute. reflexivity. Qed.

End ProxiesProofs.
